(* ===== verification/_CoqProject ===== *)
-Q . S2P
Prelude.v
UInt256.v
UInt256Div.v
UInt256Ops.v
Prog.v
Storage.v
Abi.v
StakingVars.v
StakingHelpers.v
ListSpec.v
StakingList.v
StakingContract.v
StakingSyscalls.v
Demo.v
StakingWp.v
StakingSnapshot.v
Solvency.v
StakingSteps.v
Invariants.v
Rlp.v
Transaction.v
Opcodes.v
Intercode.v
TransactionRlp.v
VersionStack.v
State3.v
StateHooks.v
ReserveSpec.v
StateFrames.v
StateRefine.v
ReserveTrack.v
ReserveSpare.v
ReserveBalance.v
Lockstep.v
BlockState.v
StakingRefine.v
BlockHash.v
Block.v
BlockRlp.v
Evm.v
EvmFrames.v
EvmMessages.v
ExecuteTransaction.v
EvmRuntime.v
Interpreter.v
InterpreterSafe.v
InterpreterExec.v
TransactionEther.v
EvmLockstep.v
Speculation.v
Requests.v
ExecuteBlock.v
