(* ===== verification/Prelude.v ===== *)
(** * Monad execution: a verification library

    Monad is a blockchain client whose execution layer runs the transactions of
    a block optimistically, in parallel, and merges them in order.  This library
    models the core of that layer, src/category/execution, with the interpreter of
    the virtual machine, src/category/vm, and proves it correct.  The parts, and
    how they fit:

    - A _block state_ (ethereum/state2) holds the changes of the block so far over
      the database.  A transaction runs on a _transaction state_ (ethereum/state3)
      that reads the block state, keeps what it read first and what each call
      frame wrote, and is validated and merged at the end.
    - _Transactions_ (ethereum/core, transaction_gas, validate_transaction) are
      read from RLP, checked statically, charged and refunded gas.
    - A transaction sends a _message_ (ethereum/evm, evmc_host, precompiles): calls
      and creations open frames of the transaction state, move value, and run
      precompiles or the virtual machine, which calls the host back.  Recent block
      hashes (block_hash_buffer, block_hash_history) are part of that host.
    - The _interpreter_ (vm/interpreter) runs contract code: it analyses the code
      once (intercode), then dispatches on opcodes (vm/evm/opcodes) over an array of
      1024 stack cells; instructions that need memory, the environment or the host
      are functions of the _runtime_ (vm/runtime), which keeps gas, memory and return
      data of a frame in a context.
    - A _block_ (ethereum/core/block, validate_block, execute_block) is checked, has
      a prologue, its transactions, withdrawals and rewards.  Each transaction
      (execute_transaction, monad/execute_system_transaction) runs once on whatever
      the block state shows, waits for its predecessors, is validated, and runs
      again if it read something that has changed since.
    - The _reserve balance_ rule (monad/reserve_balance) reverts a transaction that
      leaves an account below its reserve; a tracker inside the transaction state
      keeps the verdict up to date.
    - The _staking contract_ (monad/staking) is a precompile with its own storage,
      reached by calls and by system transactions.  It uses typed storage
      variables, arrays, the Solidity ABI (ethereum/core/contract) and checked
      256-bit arithmetic (core/runtime/uint256).

    ** Files

    - Prelude.v (this file): fixed-width words [uword n] with explicit [wrap],
      generic lemmas and tactics ([word_lia]).
    - UInt256.v: limb arithmetic of uint256.hpp and checked_math.cpp.
      UInt256Div.v: long division on limbs; UInt256Ops.v: the other operators (signed
      division, modular arithmetic, shifts, powers, bits), each with its value.
    - Prog.v: contract code as trees of state operations ([prog], [run]), the flat
      specification state [World], and a total-correctness logic ([twp]).
    - Storage.v, Abi.v: StorageVariable and StorageArray; encoder and decoders.
    - StakingVars.v, StakingHelpers.v, ListSpec.v, StakingList.v,
      StakingContract.v, StakingSyscalls.v: the staking contract, function by
      function; [Crypto] is the interface to the cryptographic libraries.
    - Demo.v: a concrete run, used as the witness of reachability theorems.
    - StakingWp.v, StakingSnapshot.v, Solvency.v, StakingSteps.v, Invariants.v:
      symbolic execution, the snapshot, what the contract owes, the contract as a
      step relation, and its invariants.
    - Transaction.v: transaction data, signatures, gas, fees, static validation.
      Rlp.v, TransactionRlp.v: RLP items, and transactions on the wire.
    - Opcodes.v: revision flags (traits.hpp) and the opcode tables of all revisions.
      Intercode.v: padding, jump destinations, and the readers of push data.
    - VersionStack.v, State3.v: version stacks and [State], one definition per
      method, with the reserve-balance hooks they call.  A method is a function
      [SM A] from a state to a result and a state; results are values, thrown
      exceptions ([RThrow]) or failed assertions ([RHalt]).
    - StateHooks.v, ReserveSpec.v, ReserveTrack.v, ReserveSpare.v, ReserveBalance.v:
      the hooks observe and never fail; what the tracker should compute; that it does;
      that no exempt account stays marked; the set-up, the full scan and the verdicts.
    - StateFrames.v: call frames; StateRefine.v, StakingRefine.v: contracts on the
      versioned state behave as on the flat [World].
    - Lockstep.v, BlockState.v: replay of validated runs; the block state, its
      reads, validation and merging.
    - BlockHash.v: the buffers of recent block hashes and the history contract.
    - Evm.v: messages, results, precompile dispatch, [execute_call_message],
      [execute_create_message] and [EvmcHost::call].  The virtual machine is an
      arbitrary function from code and message to a tree of host calls; [WellBehaved]
      is what the host assumes of it.
      EvmFrames.v: what a piece of the host may do to balances and accounts, closing
      a frame; EvmMessages.v: the theorems on whole messages.
    - Block.v, BlockRlp.v: headers, receipts, bloom filters, static checks; blocks,
      receipts and withdrawals on the wire.
    - ExecuteTransaction.v: ExecuteTransaction and ExecuteSystemTransaction, from
      validation to the receipt, and [dispatch_transaction] with its two attempts.
      TransactionEther.v: what a transaction does to the total of all balances.
      EvmLockstep.v, Speculation.v: transactions in lockstep, and that the outcome
      of the two attempts is that of the sequential transaction.
    - EvmRuntime.v: the context of a frame (Module [context]: gas, memory, results) and
      the functions of the runtime (Module [runtime]), in a state monad over the tree
      [rt] of host calls, exits and failed assertions.
    - Interpreter.v: Module [interpreter], one definition per instruction of
      instruction_table.hpp, the table, the loop and [execute_intercode], which is a
      virtual machine in the sense of Evm.v.  InterpreterSafe.v: a logic for [rt], the
      type of frames, safety; InterpreterExec.v: what the instructions compute.
    - Requests.v, ExecuteBlock.v: block requests, rewards, and [execute_block].

    ** What the theorems show

    - Staking: the contract never owes more than it holds, in any reachable state
      and in every intermediate storage it leaves, and payouts cannot fail for lack
      of funds ([solvency_reachable], [payouts_never_insolvent],
      [state_solvency]); the snapshot elects the validators of highest stake and
      rotates the sets ([snapshot_selects_top], [snapshot_rotates]); the intrusive
      lists are lists ([insert_correct], [remove_correct], [pages_complete]); epochs
      only grow and commissions stay below 100%; no two storage variables overlap.
    - Storage, ABI and arithmetic: round trips, the encoder against the
      specification's heads-and-tails form, exactness of limb arithmetic, division
      included ([checked_math_exact], [division_exact]).
    - Transaction state: rejecting a frame restores the state, accepting it keeps
      it, frames are local; contract code cannot tell the versioned state from the
      flat one.
    - Reserve balance: the tracker is exact after any execution, and, from the set-up
      of a transaction through its operations, agrees with the full scan.
    - Transactions: a validated price is defined and does not overflow, refunds are
      bounded, signature encoding round trips, the blob fee series terminates while
      its counter, an int, does not overflow.
    - Optimistic execution: the block executed in parallel is the block executed
      sequentially, with the same receipts and the same accounts, slots and code, if
      first attempts return, reads can be replayed and merges are clean
      ([parallel_is_sequential]); reads are transparent, strict validation is
      agreement with the block state, merging publishes the transaction's values,
      with what the block state keeps of an account's slots when its incarnation
      changes ([merge_publishes]).
    - Transactions in a block: whatever their code does, they burn the base fee of
      the gas they report ([transaction_burns_base_fee]).
    - RLP: an input parses exactly if it is canonical, transactions of every type
      round trip, and no input trips an assertion of the decoder.
    - Messages: whatever contract code does, a message creates no ether and changes
      only accounts it has loaded ([message_conserves]), undoes everything but what
      the code keeps if it fails ([failed_message_undone]), and returns at most the
      gas it was given ([message_gas_bounded]).
    - Interpreter: no code makes it leave its stack, memory or code or fail an assertion
      ([interpreter_safe], [instruction_keeps_type]) and it ends with a result
      ([interpreter_returns]), if the memory of the frame starts where it may: within
      8 MB with MIP-3, and before after callers that paid for their memory out of two
      billion gas, which every frame below the first then does ([memory_start]).  It is what the message layer assumes of a virtual
      machine ([interpreter_well_behaved]) and changes nothing in a static frame
      ([static_frame_read_only]).  Its instructions compute on the array of cells what
      a list machine over the integers computes ([instruction_computes]), memory keeps
      what is stored ([mstore_mload]), jump destinations and push data are those of
      the code ([jumpdests_exact], [push_exact]).
    - Blocks: the bloom filter has exactly the bits of the logs, a Monad body passes
      exactly if its system transactions are in order, blocks round trip through
      RLP, deposits are recovered from the logs.
    - Block hashes: every block sees the hashes of its own ancestors
      ([block_hashes_exact]), whatever other proposals exist.

    ** Bounds and fuel

    Loops over storage arrays take the array's length as fuel; a theorem shows it
    is enough ([twp_drain]).  List traversal takes the page size the code passes.
    The blob fee series takes a fuel computed from its arguments, proved enough
    ([fake_exponential_total]).  A list of RLP items is decoded with the length
    of its payload as fuel, each item taking a byte at least.  Nested messages
    take a fuel that the call depth limit of the virtual machine bounds
    ([call_depth_bounds_recursion]); a transaction passes 1026 ([call_fuel]), more
    than the 1025 depths there are.  The loop of the interpreter takes one round more
    than the gas of the frame: every instruction but the last costs gas, and running
    out of rounds would be a failed assertion, which [interpreter_safe] excludes.
    Jump destinations take a round per byte of code.  No other definition uses fuel.

    One theorem, [parallel_is_sequential], uses functional extensionality, to
    identify block states that show the same values.

    ** Not modelled

    The compiler from bytecode to x86 (vm/compiler) and its cache; the assembly
    routines of the runtime, for which the model takes the portable C++ ones (product)
    or their documented effect (bounded loads, stack switching); the capacity of the
    memory buffer (it is taken as full, so that the assertions for a larger one are
    checked at every growth) and the unwinding of frames by host exceptions, which the model
    takes as the host's; the trie database
    (src/category/mpt, read through [BlockReads] and [Db]), asynchronous I/O,
    RPC, state sync and tracing; cryptographic primitives are parameters.  The
    maps of the block state are accessed by one thread at a time: what other
    threads do between two reads of a transaction appears as the arbitrary reads
    of its first attempt.  A first attempt that throws leaves its fiber before it
    waits, and the order of the block is lost; [parallel_is_sequential] is about
    blocks whose first attempts return.  Maps are iterated in key order where the code iterates
    a hash map. *)

From Stdlib Require Export ZArith Lia.
From stdpp Require Export base numbers strings countable gmap list.

#[export] Set Default Proof Using "Type".

Declare Scope word_scope.
Delimit Scope word_scope with word.
Global Open Scope Z_scope.

Create Rewrite HintDb words.
Create Rewrite HintDb run.

(** ** Fixed-width unsigned integers

    [uword n] is an [n]-bit unsigned integer: a [Z] in [0, 2^n).  The width is
    part of the type, so a value read from storage or from calldata is in range
    by construction, and every place where the code may wrap around is a
    visible use of [wrap]. *)
Definition modulus (n : N) : Z := 2 ^ Z.of_N n.

Definition in_width (n : N) (z : Z) : bool := (0 <=? z) && (z <? modulus n).

Record uword (n : N) : Set := UWord { uval : Z; uval_ok : in_width n uval = true }.
Arguments UWord {n} _ _.
Arguments uval {n} _.
Arguments uval_ok {n} _.
Coercion uval : uword >-> Z.

Lemma modulus_pos n : 0 < modulus n.
Proof. unfold modulus. apply Z.pow_pos_nonneg; lia. Qed.

Lemma modulus_add m n : modulus (m + n) = modulus m * modulus n.
Proof. unfold modulus. rewrite N2Z.inj_add, Z.pow_add_r by lia. done. Qed.

Lemma in_width_spec n z : in_width n z = true <-> 0 <= z < modulus n.
Proof. unfold in_width. lia. Qed.

Lemma wrap_ok n z : in_width n (z mod modulus n) = true.
Proof. apply in_width_spec. apply Z.mod_pos_bound, modulus_pos. Qed.

(** Conversion of an integer to an [n]-bit unsigned value: reduction mod 2^n. *)
Definition wrap (n : N) (z : Z) : uword n := UWord (z mod modulus n) (wrap_ok n z).

#[global] Arguments wrap : simpl never.
#[global] Arguments modulus : simpl never.
#[global] Arguments uval : simpl never.

Notation "# z" := (wrap _ z) (at level 8, z at level 8, format "# z") : word_scope.
Global Open Scope word_scope.

Abbreviation u8 := (uword 8).
Abbreviation u32 := (uword 32).
Abbreviation u64 := (uword 64).
Abbreviation u256 := (uword 256).
Abbreviation address := (uword 160).
Abbreviation bytes32 := (uword 256).

Lemma uword_range {n} (x : uword n) : 0 <= x < modulus n.
Proof. apply in_width_spec, uval_ok. Qed.

Lemma uval_inj {n} (x y : uword n) : uval x = uval y -> x = y.
Proof.
  destruct x as [x Hx], y as [y Hy]. cbv [uval]. intros <-.
  f_equal. apply (Eqdep_dec.UIP_dec bool_dec).
Qed.

Lemma uval_eq_iff {n} (x y : uword n) : x = y <-> uval x = uval y.
Proof. split; [by intros -> | apply uval_inj]. Qed.

Lemma uval_wrap n z : uval (wrap n z) = z mod modulus n.
Proof. done. Qed.

Lemma uval_wrap_small n z : 0 <= z < modulus n -> uval (wrap n z) = z.
Proof. apply Z.mod_small. Qed.

Lemma wrap_uval {n} (x : uword n) : wrap n x = x.
Proof. apply uval_inj, uval_wrap_small, uword_range. Qed.

Lemma wrap_inj_small n a b :
  0 <= a < modulus n -> 0 <= b < modulus n -> wrap n a = wrap n b -> a = b.
Proof. intros ?? E%(f_equal uval). by rewrite !uval_wrap_small in E. Qed.

Lemma uval_wrap_0 n : uval (wrap n 0) = 0.
Proof. rewrite uval_wrap. by rewrite Zmod_0_l. Qed.

#[export] Instance uword_eq_dec n : EqDecision (uword n).
Proof.
  intros x y. destruct (Z.eq_dec x y) as [E|E].
  - left. by apply uval_inj.
  - right. by intros ->.
Defined.

Definition uword_of_Z (n : N) (z : Z) : option (uword n) :=
  if in_width n z then Some (wrap n z) else None.

#[export] Program Instance uword_countable n : Countable (uword n) :=
  inj_countable uval (uword_of_Z n) _.
Next Obligation.
  intros n x. unfold uword_of_Z. rewrite uval_ok. by rewrite wrap_uval.
Qed.

#[export] Instance uword_inhabited n : Inhabited (uword n) := populate (wrap n 0).

(** The comparisons of the code, as booleans. *)
Definition weqb {n} (x y : uword n) : bool := Z.eqb x y.
Notation "x =w? y" := (weqb x y) (at level 70, no associativity) : word_scope.

Lemma weqb_spec {n} (x y : uword n) : reflect (x = y) (x =w? y).
Proof.
  unfold weqb. destruct (Z.eqb_spec x y) as [E|E]; constructor.
  - by apply uval_inj.
  - by intros ->.
Qed.

Lemma weqb_refl {n} (x : uword n) : (x =w? x) = true.
Proof. apply Z.eqb_refl. Qed.

(** [word_lia]: linear arithmetic that knows the range of every word in sight. *)
Ltac word_ranges :=
  repeat match goal with
  | |- context [uval ?x] =>
      lazymatch x with wrap _ _ => fail | _ =>
      lazymatch goal with
      | _ : 0 <= uval x < modulus _ |- _ => fail
      | _ => pose proof (uword_range x)
      end end
  | H : context [uval ?x] |- _ =>
      lazymatch x with wrap _ _ => fail | _ =>
      lazymatch goal with
      | _ : 0 <= uval x < modulus _ |- _ => fail
      | _ => pose proof (uword_range x)
      end end
  end.

Ltac word_lia := word_ranges; unfold modulus in *; simpl Z.of_N in *; lia.

(** ** Concatenation of fields, most significant first

    The C++ code lays structs of byte arrays out in memory; read as a
    big-endian number, a struct is the concatenation of its fields. *)
Definition wcat {m n : N} (a : uword m) (b : uword n) : uword (m + n) :=
  wrap (m + n) (a * modulus n + b).
Definition whi {m n : N} (x : uword (m + n)) : uword m := wrap m (x / modulus n).
Definition wlo {m n : N} (x : uword (m + n)) : uword n := wrap n x.

Lemma uval_wcat {m n} (a : uword m) (b : uword n) :
  uval (wcat a b) = a * modulus n + b.
Proof.
  apply uval_wrap_small. rewrite modulus_add.
  pose proof (uword_range a). pose proof (uword_range b). nia.
Qed.

Lemma whi_wcat {m n} (a : uword m) (b : uword n) : whi (wcat a b) = a.
Proof.
  apply uval_inj. unfold whi. rewrite uval_wrap, uval_wcat.
  pose proof (uword_range a). pose proof (uword_range b). pose proof (modulus_pos n).
  rewrite Z.div_add_l, (Z.div_small b), Z.add_0_r by lia. by rewrite Z.mod_small.
Qed.

Lemma wlo_wcat {m n} (a : uword m) (b : uword n) : wlo (wcat a b) = b.
Proof.
  apply uval_inj. unfold wlo. rewrite uval_wrap, uval_wcat.
  pose proof (uword_range b).
  rewrite Z.add_comm, Z_mod_plus_full. by rewrite Z.mod_small.
Qed.

#[export] Hint Rewrite @whi_wcat @wlo_wcat @wrap_uval : words.

Lemma wcat_inj {m n} (a a' : uword m) (b b' : uword n) :
  wcat a b = wcat a' b' -> a = a' /\ b = b'.
Proof.
  intros E. split.
  - by rewrite <- (whi_wcat a b), E, whi_wcat.
  - by rewrite <- (wlo_wcat a b), E, wlo_wcat.
Qed.

(** ** Sums over finite maps *)
Section msum.
Context {K V : Type} `{Countable K}.
Implicit Types (f : K -> V -> Z) (m : gmap K V).

Definition msum f m : Z := map_fold (fun k v acc => f k v + acc) 0 m.

Lemma msum_empty f : msum f ∅ = 0.
Proof. apply map_fold_empty. Qed.

Lemma msum_insert_None f m k v :
  m !! k = None -> msum f (<[k:=v]> m) = f k v + msum f m.
Proof. intros Hk. unfold msum. rewrite map_fold_insert_L; [done| |done]. intros; lia. Qed.

Lemma msum_delete f m k v :
  m !! k = Some v -> msum f m = f k v + msum f (delete k m).
Proof.
  intros Hk. rewrite <- (insert_delete_id m k v Hk) at 1.
  apply msum_insert_None, lookup_delete_eq.
Qed.

(** Overwriting one entry changes the sum by the difference of its terms. *)
Lemma msum_insert f m k v :
  msum f (<[k:=v]> m) = msum f m - from_option (f k) 0 (m !! k) + f k v.
Proof.
  rewrite <- insert_delete_eq, msum_insert_None by apply lookup_delete_eq.
  destruct (m !! k) as [v'|] eqn:E; simpl.
  - rewrite (msum_delete f m k v' E). lia.
  - rewrite delete_id by done. lia.
Qed.

Lemma msum_nonneg f m : (forall k v, 0 <= f k v) -> 0 <= msum f m.
Proof.
  intros Hf. induction m as [|k v m Hk IH] using map_ind.
  - by rewrite msum_empty.
  - rewrite msum_insert_None by done. specialize (Hf k v). lia.
Qed.

Lemma msum_lookup_le f m k v :
  (forall k v, 0 <= f k v) -> m !! k = Some v -> f k v <= msum f m.
Proof.
  intros Hf Hk. rewrite (msum_delete f m k v Hk).
  pose proof (msum_nonneg f (delete k m) Hf). lia.
Qed.

Lemma msum_zero f m : (forall k, from_option (f k) 0 (m !! k) = 0) -> msum f m = 0.
Proof.
  induction m as [|k v m Hk IH] using map_ind; intros Hz; [apply msum_empty|].
  rewrite msum_insert_None by done. rewrite IH.
  - specialize (Hz k). rewrite lookup_insert_eq in Hz. simpl in Hz. lia.
  - intros k'. specialize (Hz k'). destruct (decide (k = k')) as [->|]; [by rewrite Hk|].
    by rewrite lookup_insert_ne in Hz.
Qed.

(** The sum only depends on the terms, absent keys counting zero. *)
Lemma msum_ext f m1 m2 :
  (forall k, from_option (f k) 0 (m1 !! k) = from_option (f k) 0 (m2 !! k)) ->
  msum f m1 = msum f m2.
Proof.
  revert m2. induction m1 as [|k v m Hk IH] using map_ind; intros m2 E.
  - rewrite msum_empty. symmetry. apply msum_zero. intros k. by rewrite <- E, lookup_empty.
  - rewrite msum_insert_None by done. rewrite (IH (delete k m2)).
    + pose proof (E k) as Ek. rewrite lookup_insert_eq in Ek. simpl in Ek. rewrite Ek.
      destruct (m2 !! k) as [v2|] eqn:E2; simpl; [by rewrite <- msum_delete|].
      by rewrite delete_id.
    + intros k'. destruct (decide (k = k')) as [->|Hne].
      * by rewrite Hk, lookup_delete_eq.
      * specialize (E k'). by rewrite lookup_insert_ne in E; rewrite ?lookup_delete_ne.
Qed.
End msum.

(** [std::optional::has_value]. *)
Definition has_value {A} (o : option A) : bool :=
  match o with Some _ => true | None => false end.

(** ** Case analysis *)

(** Turn boolean tests of the code into propositions. *)
Ltac bool_to_prop :=
  repeat match goal with
  | H : (_ && _) = true |- _ => apply andb_true_iff in H; destruct H
  | H : (_ || _) = false |- _ => apply orb_false_iff in H; destruct H
  | H : negb _ = true |- _ => apply negb_true_iff in H
  | H : negb _ = false |- _ => apply negb_false_iff in H
  | H : (_ =? _) = true |- _ => apply Z.eqb_eq in H
  | H : (_ =? _) = false |- _ => apply Z.eqb_neq in H
  | H : (_ <? _) = true |- _ => apply Z.ltb_lt in H
  | H : (_ <? _) = false |- _ => apply Z.ltb_ge in H
  | H : (_ <=? _) = true |- _ => apply Z.leb_le in H
  | H : (_ <=? _) = false |- _ => apply Z.leb_gt in H
  | H : (?x =w? ?y) = true |- _ => destruct (weqb_spec x y) as [->|]; [clear H|discriminate H]
  | H : (?x =w? ?y) = false |- _ => destruct (weqb_spec x y); [discriminate H|clear H]
  end.
