(* ===== verification/UInt256.v ===== *)
(** * 256-bit integers as four 64-bit limbs

    Models the limb arithmetic behind [uint256_t]
    (src/category/core/runtime/uint256.hpp and uint256/portable.hpp): add with
    carry, subtract with borrow, the schoolbook product, the comparisons that
    are defined through the borrow, and the overflow-checked operations of
    src/category/execution/ethereum/core/contract/checked_math.cpp.  The
    theorems say that each limb routine computes the integer it stands for. *)
From S2P Require Import Prelude.

Abbreviation words := (list u64).

Definition B : Z := 2 ^ 64.

(** The integer a little-endian vector of limbs denotes. *)
Fixpoint words_val (ws : words) : Z :=
  match ws with
  | [] => 0
  | w :: ws' => w + B * words_val ws'
  end.

Definition word_at (ws : words) (i : nat) : u64 := nth i ws #0.

Definition b2z (b : bool) : Z := if b then 1 else 0.

Module portable.

Definition addc (lhs rhs : u64) (carry_in : bool) : u64 * bool :=
  let sum : u64 := #(lhs + rhs) in
  let carry_out := sum <? lhs in
  let sum_carry : u64 := #(sum + b2z carry_in) in
  (sum_carry, carry_out || (sum_carry <? sum)).

Definition subb (lhs rhs : u64) (borrow_in : bool) : u64 * bool :=
  let sub : u64 := #(lhs - rhs) in
  let borrow_out := lhs <? rhs in
  let sub_borrow : u64 := #(sub - b2z borrow_in) in
  (sub_borrow, borrow_out || (sub <? b2z borrow_in)).

(** 64 x 64 -> 128 bit product, as (high, low). *)
Definition mulx (x y : u64) : u64 * u64 :=
  let prod := x * y in
  (#(Z.shiftr prod 64), #prod).

(** One pass of the inner loop of [truncating_mul]: [x] is what is left of the
    multiplicand from index [i] on. *)
Fixpoint mul_row (R : nat) (x : words) (yj : u64) (i j : nat) (carry : u64)
    (result : words) : words * u64 :=
  match x with
  | [] => (result, carry)
  | xi :: x' =>
      if (i + j <? R)%nat then
        let '(hi, lo) := mulx xi yj in
        let '(s0, c0) := addc lo (word_at result (i + j)) false in
        let '(s1, c1) := addc s0 carry false in
        let result := <[(i + j)%nat := s1]> result in
        let '(s2, c2) := addc hi #(b2z c0) c1 in
        mul_row R x' yj (S i) j s2 result
      else (result, carry)
  end.

(** The outer loop, over the limbs of [y] from index [j] on. *)
Fixpoint mul_rows (R : nat) (x y : words) (j : nat) (result : words) : words :=
  match y with
  | [] => result
  | yj :: y' =>
      let '(result, carry) := mul_row R x yj 0 j #0 result in
      let result :=
        if (j + length x <? R)%nat then <[(j + length x)%nat := carry]> result
        else result in
      mul_rows R x y' (S j) result
  end.

Definition truncating_mul (R : nat) (x y : words) : words :=
  mul_rows R x y 0 (replicate R #0).

End portable.

(** [uint256_t] and its words. *)
Definition as_words (x : u256) : words :=
  [ #x; #(x / B); #(x / B ^ 2); #(x / B ^ 3) ].

Definition of_words (ws : words) : u256 := #(words_val ws).

Definition addc (lhs rhs : u256) : u256 * bool :=
  let l := as_words lhs in
  let r := as_words rhs in
  let '(w0, c0) := portable.addc (word_at l 0) (word_at r 0) false in
  let '(w1, c1) := portable.addc (word_at l 1) (word_at r 1) c0 in
  let '(w2, c2) := portable.addc (word_at l 2) (word_at r 2) c1 in
  let '(w3, c3) := portable.addc (word_at l 3) (word_at r 3) c2 in
  (of_words [w0; w1; w2; w3], c3).

Definition subb (lhs rhs : u256) : u256 * bool :=
  let l := as_words lhs in
  let r := as_words rhs in
  let '(w0, b0) := portable.subb (word_at l 0) (word_at r 0) false in
  let '(w1, b1) := portable.subb (word_at l 1) (word_at r 1) b0 in
  let '(w2, b2) := portable.subb (word_at l 2) (word_at r 2) b1 in
  let '(w3, b3) := portable.subb (word_at l 3) (word_at r 3) b2 in
  (of_words [w0; w1; w2; w3], b3).

Definition u256_ltb (lhs rhs : u256) : bool := snd (subb lhs rhs).
Definition u256_leb (lhs rhs : u256) : bool := negb (snd (subb rhs lhs)).

(** ** Checked arithmetic *)
Inductive MathError := Overflow | Underflow | DivisionByZero.

Definition checked_add (x y : u256) : u256 + MathError :=
  let '(sum, carry) := addc x y in
  if carry then inr Overflow else inl sum.

Definition checked_sub (x y : u256) : u256 + MathError :=
  let '(diff, borrow) := subb x y in
  if borrow then inr Underflow else inl diff.

Definition checked_mul (x y : u256) : u256 + MathError :=
  let prod := portable.truncating_mul 8 (as_words x) (as_words y) in
  if negb (Z.lor (Z.lor (Z.lor (word_at prod 4) (word_at prod 5)) (word_at prod 6))
             (word_at prod 7) =? 0)
  then inr Overflow
  else inl (of_words [word_at prod 0; word_at prod 1; word_at prod 2; word_at prod 3]).

Definition checked_div (x y : u256) : u256 + MathError :=
  if y =? 0 then inr DivisionByZero else inl #(x / y).

(** ** Correctness *)
Lemma portable_addc_spec l r c :
  let '(v, c') := portable.addc l r c in uval v + B * b2z c' = l + r + b2z c.
Proof.
  unfold portable.addc, B. rewrite !uval_wrap. word_ranges.
  unfold modulus in *. simpl Z.of_N in *.
  assert (E : (l + r) mod 2 ^ 64 = l + r \/ (l + r) mod 2 ^ 64 = l + r - 2 ^ 64).
  { Z.div_mod_to_equations. lia. }
  set (s := (l + r) mod 2 ^ 64) in *.
  assert (0 <= s < 2 ^ 64) by (apply Z.mod_pos_bound; lia).
  assert (E' : (s + b2z c) mod 2 ^ 64 = s + b2z c \/
               (s + b2z c) mod 2 ^ 64 = s + b2z c - 2 ^ 64 /\ s = 2 ^ 64 - 1 /\ c = true).
  { destruct c; simpl; Z.div_mod_to_equations; lia. }
  set (s' := (s + b2z c) mod 2 ^ 64) in *.
  destruct (Z.ltb_spec s l), (Z.ltb_spec s' s), c; cbn [b2z orb] in *; lia.
Qed.

Lemma portable_subb_spec l r b :
  let '(v, b') := portable.subb l r b in uval v - B * b2z b' = l - r - b2z b.
Proof.
  unfold portable.subb, B. rewrite !uval_wrap. word_ranges.
  unfold modulus in *. simpl Z.of_N in *.
  assert (E : (l - r) mod 2 ^ 64 = l - r \/ (l - r) mod 2 ^ 64 = l - r + 2 ^ 64).
  { Z.div_mod_to_equations. lia. }
  set (s := (l - r) mod 2 ^ 64) in *.
  assert (0 <= s < 2 ^ 64) by (apply Z.mod_pos_bound; lia).
  assert (E' : (s - b2z b) mod 2 ^ 64 = s - b2z b \/
               (s - b2z b) mod 2 ^ 64 = s - b2z b + 2 ^ 64 /\ s = 0 /\ b = true).
  { destruct b; simpl; Z.div_mod_to_equations; lia. }
  set (s' := (s - b2z b) mod 2 ^ 64) in *.
  assert (0 <= s' < 2 ^ 64) by (apply Z.mod_pos_bound; lia).
  destruct (Z.ltb_spec l r), (Z.ltb_spec s (b2z b)), b; cbn [b2z orb] in *; lia.
Qed.

Lemma portable_mulx_spec x y :
  let '(hi, lo) := portable.mulx x y in B * hi + lo = x * y.
Proof.
  unfold portable.mulx, B. rewrite !uval_wrap, Z.shiftr_div_pow2 by lia.
  word_ranges. unfold modulus in *. simpl Z.of_N in *.
  assert (0 <= x * y < 2 ^ 64 * 2 ^ 64) by nia.
  rewrite (Z.mod_small (_ / _)).
  - pose proof (Z.div_mod (x * y) (2 ^ 64)). lia.
  - split; [apply Z.div_pos|apply Z.div_lt_upper_bound]; lia.
Qed.

Lemma words_val_as_words (x : u256) : words_val (as_words x) = x.
Proof.
  unfold as_words, B. cbn [words_val]. rewrite !uval_wrap.
  pose proof (uword_range x). unfold modulus, B in *. simpl Z.of_N in *.
  rewrite <- (Z.pow_mul_r 2 64 2), <- (Z.pow_mul_r 2 64 3) by lia.
  change (64 * 2) with 128. change (64 * 3) with 192.
  Z.div_mod_to_equations. lia.
Qed.

Lemma words_val_nonneg ws : 0 <= words_val ws.
Proof. induction ws as [|w ws IH]; simpl; [lia|]. unfold B. word_lia. Qed.

Lemma words_val_bound ws : words_val ws < B ^ Z.of_nat (length ws).
Proof.
  induction ws as [|w ws IH]; [simpl; lia|].
  cbn [length words_val]. rewrite Nat2Z.inj_succ, Z.pow_succ_r by lia.
  pose proof (uword_range w). unfold modulus, B in *. simpl Z.of_N in *. nia.
Qed.

Lemma as_words_at (x : u256) :
  as_words x = [word_at (as_words x) 0; word_at (as_words x) 1;
                word_at (as_words x) 2; word_at (as_words x) 3].
Proof. done. Qed.

Lemma uval_of_words ws :
  length ws = 4%nat -> uval (of_words ws) = words_val ws.
Proof.
  intros L. apply uval_wrap_small. split; [apply words_val_nonneg|].
  pose proof (words_val_bound ws). rewrite L in *. exact H.
Qed.

Ltac chain lem :=
  repeat match goal with
  | |- context [portable.addc ?l ?r ?c] =>
      let H := fresh in pose proof (lem l r c) as H; destruct (portable.addc l r c) as [? ?]
  | |- context [portable.subb ?l ?r ?c] =>
      let H := fresh in pose proof (lem l r c) as H; destruct (portable.subb l r c) as [? ?]
  end.

Lemma addc_spec (x y : u256) :
  let '(v, c) := addc x y in uval v + modulus 256 * b2z c = x + y.
Proof.
  pose proof (words_val_as_words x) as Hx. pose proof (words_val_as_words y) as Hy.
  rewrite as_words_at in Hx, Hy. unfold addc. chain portable_addc_spec.
  rewrite uval_of_words by done. cbn [words_val] in *. change (modulus 256) with (B ^ 4).
  unfold B in *. cbn [b2z] in *. lia.
Qed.

Lemma subb_spec (x y : u256) :
  let '(v, b) := subb x y in uval v - modulus 256 * b2z b = x - y.
Proof.
  pose proof (words_val_as_words x) as Hx. pose proof (words_val_as_words y) as Hy.
  rewrite as_words_at in Hx, Hy. unfold subb. chain portable_subb_spec.
  rewrite uval_of_words by done. cbn [words_val] in *. change (modulus 256) with (B ^ 4).
  unfold B in *. cbn [b2z] in *. lia.
Qed.

(** Reading and writing one limb of a vector. *)
Lemma words_val_insert ws k (s : u64) :
  (k < length ws)%nat ->
  words_val (<[k:=s]> ws) = words_val ws + (s - word_at ws k) * B ^ Z.of_nat k.
Proof.
  revert k. induction ws as [|w ws IH]; intros k Hk; simpl in Hk; [lia|].
  destruct k as [|k]; cbn [insert list_insert words_val word_at nth].
  - rewrite Z.pow_0_r. lia.
  - rewrite IH by lia. unfold word_at. rewrite Nat2Z.inj_succ, Z.pow_succ_r by lia. ring.
Qed.

Lemma word_at_insert_eq ws k s : (k < length ws)%nat -> word_at (<[k:=s]> ws) k = s.
Proof.
  intros Hk. unfold word_at. apply nth_lookup_Some. by apply list_lookup_insert_eq.
Qed.

Lemma word_at_insert_ne ws k k' s : k <> k' -> word_at (<[k:=s]> ws) k' = word_at ws k'.
Proof.
  intros Hk. unfold word_at. rewrite !nth_lookup. by rewrite list_lookup_insert_ne.
Qed.

(** One limb of a row: the product, the old digit and the incoming carry fit
    into the new digit and a carry of one limb. *)
Lemma mul_digit (x y r c hi lo s0 s1 s2 : u64) (c0 c1 c2 : bool) :
  B * hi + lo = x * y ->
  s0 + B * b2z c0 = lo + r + b2z false ->
  s1 + B * b2z c1 = s0 + c + b2z false ->
  s2 + B * b2z c2 = hi + wrap 64 (b2z c0) + b2z c1 ->
  s1 + B * s2 = x * y + r + c.
Proof.
  intros Hm H0 H1 H2.
  assert (wrap 64 (b2z c0) = b2z c0 :> Z) as Hc by (by destruct c0).
  rewrite Hc in H2. cbn [b2z] in H0, H1. word_ranges.
  unfold modulus, B in *. simpl Z.of_N in *.
  assert (x * y <= (2 ^ 64 - 1) * (2 ^ 64 - 1)) by nia.
  destruct c0, c1, c2; cbn [b2z] in *; lia.
Qed.

Lemma mul_row_spec R x yj i j carry res :
  length res = R -> (i + j + length x <= R)%nat ->
  let '(res', carry') := portable.mul_row R x yj i j carry res in
  length res' = R /\
  words_val res' + carry' * B ^ Z.of_nat (i + j + length x) =
    words_val res + carry * B ^ Z.of_nat (i + j)
      + words_val x * yj * B ^ Z.of_nat (i + j) /\
  (forall k, (i + j + length x <= k)%nat -> word_at res' k = word_at res k).
Proof.
  revert i carry res. induction x as [|xi x IH]; intros i carry res HR Hl.
  - simpl. split; [done|]. split; [|done]. rewrite Nat.add_0_r. lia.
  - cbn [length] in *. cbn [portable.mul_row words_val].
    destruct (Nat.ltb_spec (i + j) R); [|lia].
    pose proof (portable_mulx_spec xi yj) as Hm. destruct (portable.mulx xi yj) as [hi lo].
    pose proof (portable_addc_spec lo (word_at res (i + j)) false) as H0.
    destruct (portable.addc lo _ false) as [s0 c0].
    pose proof (portable_addc_spec s0 carry false) as H1.
    destruct (portable.addc s0 carry false) as [s1 c1].
    pose proof (portable_addc_spec hi #(b2z c0) c1) as H2.
    destruct (portable.addc hi _ c1) as [s2 c2].
    pose proof (mul_digit _ _ _ _ _ _ _ _ _ _ _ _ Hm H0 H1 H2) as Hd.
    specialize (IH (S i) s2 (<[(i + j)%nat:=s1]> res)).
    destruct (portable.mul_row R x yj (S i) j s2 _) as [res' carry'].
    destruct IH as (IH1 & IH2 & IH3); [by rewrite length_insert|lia|].
    split; [done|]. split.
    + replace (i + j + S (length x))%nat with (S i + j + length x)%nat by lia.
      rewrite IH2, words_val_insert by lia.
      replace (Z.of_nat (S i + j)) with (Z.succ (Z.of_nat (i + j))) by lia.
      rewrite Z.pow_succ_r by lia.
      transitivity (words_val res + (s1 + B * s2 - word_at res (i + j)
        + B * words_val x * yj) * B ^ Z.of_nat (i + j)); [ring|]. rewrite Hd. ring.
    + intros k Hk. rewrite IH3 by lia. apply word_at_insert_ne. lia.
Qed.

Lemma mul_rows_spec R x y j res :
  length res = R -> (j + length x + length y <= R)%nat ->
  (forall k, (j + length x <= k)%nat -> word_at res k = #0) ->
  words_val (portable.mul_rows R x y j res)
    = words_val res + words_val x * words_val y * B ^ Z.of_nat j /\
  length (portable.mul_rows R x y j res) = R.
Proof.
  revert j res. induction y as [|yj y IH]; intros j res HR Hl H0; cbn [length] in *.
  - simpl. split; [lia|done].
  - cbn [portable.mul_rows words_val].
    pose proof (mul_row_spec R x yj 0 j #0 res HR ltac:(lia)) as Hrow.
    destruct (portable.mul_row R x yj 0 j #0 res) as [res' carry].
    destruct Hrow as (H1 & H2 & H3). cbn [Nat.add] in *.
    destruct (Nat.ltb_spec (j + length x) R); [|lia].
    destruct (IH (S j) (<[(j + length x)%nat:=carry]> res')) as [E L].
    + by rewrite length_insert.
    + lia.
    + intros k Hk. rewrite word_at_insert_ne by lia. rewrite H3 by lia. apply H0. lia.
    + split; [|done]. rewrite E, words_val_insert, H3, H0 by lia.
      rewrite uval_wrap_0 in *. rewrite Nat2Z.inj_succ, Z.pow_succ_r by lia.
      transitivity ((words_val res' + carry * B ^ Z.of_nat (j + length x))
        + words_val x * words_val y * (B * B ^ Z.of_nat j)); [ring|]. rewrite H2. ring.
Qed.

(** The full schoolbook product of two limb vectors is the integer product. *)
Lemma truncating_mul_spec x y R :
  R = (length x + length y)%nat ->
  words_val (portable.truncating_mul R x y) = words_val x * words_val y /\
  length (portable.truncating_mul R x y) = R.
Proof.
  intros ->. unfold portable.truncating_mul.
  assert (Hz : forall n, words_val (replicate n #0) = 0).
  { induction n as [|n IH]; simpl; [done|]. rewrite uval_wrap_0, IH. lia. }
  destruct (mul_rows_spec (length x + length y) x y 0 (replicate (length x + length y) #0))
    as [E L].
  - apply length_replicate.
  - lia.
  - intros k _. unfold word_at. rewrite nth_lookup.
    destruct (replicate _ _ !! k) as [v|] eqn:Ek; [|done].
    apply lookup_replicate in Ek. by destruct Ek as [-> _].
  - split; [|done]. rewrite E, Hz. simpl. lia.
Qed.

(** The high half of an eight-limb vector is zero exactly when the number it
    denotes fits in four limbs. *)
Lemma words_val_8 ws :
  length ws = 8%nat ->
  words_val ws =
    words_val [word_at ws 0; word_at ws 1; word_at ws 2; word_at ws 3]
    + B ^ 4 * words_val [word_at ws 4; word_at ws 5; word_at ws 6; word_at ws 7].
Proof.
  intros L. do 8 (destruct ws as [|? ws]; [discriminate L|]).
  destruct ws; [|discriminate L]. cbn [word_at nth words_val]. ring.
Qed.

Lemma lor4_zero (a b c d : u64) :
  Z.lor (Z.lor (Z.lor a b) c) d = 0 <-> words_val [a; b; c; d] = 0.
Proof.
  rewrite !Z.lor_eq_0_iff. cbn [words_val]. unfold B. word_ranges.
  unfold modulus in *. simpl Z.of_N in *. lia.
Qed.

Lemma checked_add_eq (x y : u256) :
  checked_add x y = if x + y <? modulus 256 then inl #(x + y) else inr Overflow.
Proof.
  unfold checked_add. pose proof (addc_spec x y) as H. destruct (addc x y) as [v c].
  pose proof (uword_range v). pose proof (modulus_pos 256).
  destruct c; cbn [b2z] in H; destruct (Z.ltb_spec (x + y) (modulus 256)); try lia; [done|].
  f_equal. apply uval_inj. rewrite uval_wrap_small; lia.
Qed.

Lemma checked_sub_eq (x y : u256) :
  checked_sub x y = if y <=? x then inl #(x - y) else inr Underflow.
Proof.
  unfold checked_sub. pose proof (subb_spec x y) as H. destruct (subb x y) as [v b].
  pose proof (uword_range v). pose proof (uword_range x). pose proof (uword_range y).
  destruct b; cbn [b2z] in H; destruct (Z.leb_spec y x); try lia; [done|].
  f_equal. apply uval_inj. rewrite uval_wrap_small; lia.
Qed.

Lemma checked_mul_eq (x y : u256) :
  checked_mul x y = if x * y <? modulus 256 then inl #(x * y) else inr Overflow.
Proof.
  unfold checked_mul.
  destruct (truncating_mul_spec (as_words x) (as_words y) 8 eq_refl) as [E L].
  set (p := portable.truncating_mul 8 _ _) in *. rewrite !words_val_as_words in E.
  rewrite (words_val_8 p L) in E.
  set (lo := [word_at p 0; word_at p 1; word_at p 2; word_at p 3]) in *.
  pose proof (words_val_bound lo) as Hb. pose proof (words_val_nonneg lo).
  set (hi := [word_at p 4; word_at p 5; word_at p 6; word_at p 7]) in *.
  pose proof (words_val_nonneg hi). pose proof (lor4_zero (word_at p 4) (word_at p 5)
    (word_at p 6) (word_at p 7)) as Hz. fold hi in Hz.
  change (modulus 256) with (B ^ 4). change (B ^ Z.of_nat (length lo)) with (B ^ 4) in Hb.
  assert (0 < B ^ 4) by done.
  destruct (Z.eqb_spec (Z.lor (Z.lor (Z.lor (word_at p 4) (word_at p 5)) (word_at p 6))
    (word_at p 7)) 0) as [Ez|Ez]; cbn [negb]; destruct (Z.ltb_spec (x * y) (B ^ 4)) as [Hl|Hl].
  - f_equal. unfold of_words. f_equal. apply Hz in Ez. lia.
  - apply Hz in Ez. lia.
  - assert (words_val hi = 0) by nia. tauto.
  - done.
Qed.

Lemma checked_add_inl x y z : checked_add x y = inl z -> uval z = x + y.
Proof.
  rewrite checked_add_eq. destruct (Z.ltb_spec (x + y) (modulus 256)); [|done].
  intros [= <-]. rewrite uval_wrap_small; [done|]. word_ranges. lia.
Qed.

Lemma checked_sub_inl x y z : checked_sub x y = inl z -> uval z = x - y /\ uval y <= x.
Proof.
  rewrite checked_sub_eq. destruct (Z.leb_spec y x); [|done].
  intros [= <-]. rewrite uval_wrap_small; [done|]. word_ranges. lia.
Qed.

Lemma checked_mul_inl x y z : checked_mul x y = inl z -> uval z = x * y.
Proof.
  rewrite checked_mul_eq. destruct (Z.ltb_spec (x * y) (modulus 256)); [|done].
  intros [= <-]. rewrite uval_wrap_small; [done|].
  pose proof (uword_range x). pose proof (uword_range y). nia.
Qed.

Lemma checked_div_inl x y z : checked_div x y = inl z -> uval z = x / y /\ uval y <> 0.
Proof.
  unfold checked_div. destruct (Z.eqb_spec y 0); [done|]. intros [= <-].
  pose proof (uword_range x). pose proof (uword_range y).
  rewrite uval_wrap_small; [done|]. split; [apply Z.div_pos; lia|].
  apply Z.div_lt_upper_bound; nia.
Qed.

Lemma u256_ltb_spec (x y : u256) : u256_ltb x y = (x <? y).
Proof.
  unfold u256_ltb. pose proof (subb_spec x y) as H. destruct (subb x y) as [v b].
  cbn [snd]. pose proof (uword_range v). pose proof (uword_range x). pose proof (uword_range y).
  destruct b; cbn [b2z] in H; destruct (Z.ltb_spec x y); try done; lia.
Qed.

(** C13: checked 256-bit arithmetic is exact.  The limb routines with their carry
    chains return the mathematical sum, difference and product when it fits in
    256 bits and report overflow or underflow exactly when it does not, and the
    comparisons, which look only at the borrow, are the order on integers. *)
Theorem checked_math_exact (x y : u256) :
  checked_add x y = (if x + y <? 2 ^ 256 then inl #(x + y) else inr Overflow) /\
  checked_sub x y = (if y <=? x then inl #(x - y) else inr Underflow) /\
  checked_mul x y = (if x * y <? 2 ^ 256 then inl #(x * y) else inr Overflow) /\
  u256_ltb x y = (x <? y) /\ u256_leb x y = (x <=? y).
Proof.
  split_and!; [apply checked_add_eq|apply checked_sub_eq|apply checked_mul_eq|apply u256_ltb_spec|].
  change (u256_leb x y) with (negb (u256_ltb y x)). rewrite u256_ltb_spec. symmetry. apply Z.leb_antisym.
Qed.
