(* ===== verification/UInt256Div.v ===== *)
(** * Division of 256-bit integers

    Models the division of src/category/core/runtime/uint256.hpp: the schoolbook
    loop for one-limb divisors ([long_div]), Knuth's algorithm D as the code has it
    ([knuth_div]: one test of the estimate, no second correction before the
    multiply-and-subtract), the normalisation around it ([udivrem]), and what is
    defined through it: [addmod], [mulmod], [sdivrem] and the operators.  Limbs are
    64-bit words; the products and borrows of the inner loop are 128-bit, with their
    wrap-around written out.  The theorems say that quotient and remainder are those
    of the integers, for every number of limbs. *)
From S2P Require Import Prelude UInt256.

Abbreviation u128 := (uword 128).

(** [static_cast<__int128>]. *)
Definition i128 (x : u128) : Z := if x <? 2 ^ 127 then x else x - 2 ^ 128.

Module portable_div.

(** The shift count is below 64. *)
Definition shld (high low : u64) (shift : Z) : u64 :=
  #(Z.lor (#(Z.shiftl high shift) : u64) (Z.shiftr (Z.shiftr low 1) (63 - shift))).

Definition shrd (high low : u64) (shift : Z) : u64 :=
  #(Z.lor (Z.shiftr low shift) (#(Z.shiftl (#(Z.shiftl high 1) : u64) (63 - shift)) : u64)).

(** [u_hi < v], so that the quotient fits in a limb. *)
Definition div (u_hi u_lo v : u64) : u64 * u64 :=
  let u := u_lo + B * u_hi in (#(u / v), #(u mod v)).

End portable_div.
Import portable_div.

(** [std::countl_zero] on a limb. *)
Definition countl_zero64 (w : u64) : Z := if w =? 0 then 64 else 63 - Z.log2 w.

Fixpoint count_significant_from (i : nat) (x : words) : nat :=
  match i with
  | O => O
  | S i' => if word_at x i' =? 0 then count_significant_from i' x else i
  end.

Definition count_significant_words (x : words) : nat := count_significant_from (length x) x.

(** ** One-limb divisors *)
Fixpoint long_div_loop (i : nat) (u : words) (v r : u64) (quot : words) : words * u64 :=
  match i with
  | O => (quot, r)
  | S ix =>
      let '(q, r) := div r (word_at u ix) v in
      long_div_loop ix u v r (<[ix := q]> quot)
  end.

Definition long_div (m : nat) (u : words) (v : u64) (quot : words) : words * u64 :=
  let '(q, r) := div #0 (word_at u (m - 1)) v in
  long_div_loop (m - 1) u v r (<[(m - 1)%nat := q]> quot).

(** ** Knuth's algorithm D *)

(** [u[ix+n .. ix] -= q_hat * v[n-1 .. 0]], [cnt] limbs from [j] on; returns the
    borrow [k]. *)
Fixpoint mul_sub (cnt j ix : nat) (v : words) (q_hat k : u128) (u : words) : words * u128 :=
  match cnt with
  | O => (u, k)
  | S cnt' =>
      let prod : u128 := #(q_hat * word_at v j) in
      let t : u128 := #(word_at u (j + ix) - k - Z.land prod 0xffffffffffffffff) in
      let u := <[(j + ix)%nat := #t]> u in
      let k : u128 := #(Z.shiftr prod 64 - (#(Z.shiftr (i128 t) 64) : u128)) in
      mul_sub cnt' (S j) ix v q_hat k u
  end.

(** [u[ix+n .. ix] += v[n-1 .. 0]]; returns the carry. *)
Fixpoint add_back (cnt j ix : nat) (v : words) (k : u128) (u : words) : words * u128 :=
  match cnt with
  | O => (u, k)
  | S cnt' =>
      let t : u128 := #(word_at u (ix + j) + word_at v j + k) in
      let u := <[(ix + j)%nat := #t]> u in
      add_back cnt' (S j) ix v #(Z.shiftr t 64) u
  end.

(** The estimate of a quotient digit; [None] is the [continue]. *)
Definition estimate (ix n : nat) (u v : words) : option u128 :=
  if word_at u (ix + n) =w? word_at v (n - 1) then Some #(B - 1)
  else
    let '(q_hat0, r_hat0) := div (word_at u (ix + n)) (word_at u (ix + n - 1)) (word_at v (n - 1)) in
    if q_hat0 =? 0 then None
    else
      let q_hat : u128 := #q_hat0 in
      let r_hat : u128 := #r_hat0 in
      if (#(Z.shiftl r_hat 64 + word_at u (ix + n - 2)) : u128) <? (#(q_hat * word_at v (n - 2)) : u128)
      then Some #(q_hat - 1) else Some q_hat.

Definition knuth_step (ix n : nat) (v : words) (s : words * words) : words * words :=
  let '(u, quot) := s in
  match estimate ix n u v with
  | None => (u, quot)
  | Some q_hat =>
      let '(u, k) := mul_sub n 0 ix v q_hat #0 u in
      let t : u128 := #(word_at u (ix + n) - k) in
      let u := <[(ix + n)%nat := #t]> u in
      if negb (Z.shiftr t 127 =? 0) then
        let q_hat : u128 := #(q_hat - 1) in
        let '(u, k) := add_back n 0 ix v #0 u in
        let u := <[(ix + n)%nat := #(word_at u (ix + n) + k)]> u in
        (u, <[ix := #q_hat]> quot)
      else (u, <[ix := #q_hat]> quot)
  end.

(** [i] iterations, from index [i - 1] down to 0. *)
Fixpoint knuth_loop (i n : nat) (v : words) (s : words * words) : words * words :=
  match i with
  | O => s
  | S ix => knuth_loop ix n v (knuth_step ix n v s)
  end.

(** Returns what is left in [u] and the quotient. *)
Definition knuth_div (m : nat) (u : words) (n : nat) (v : words) (quot : words) : words * words :=
  knuth_loop (S (m - n)) n v (u, quot).

(** ** Normalisation *)
Definition shl_words (u : words) (shift : Z) : words :=
  #(Z.shiftl (word_at u 0) shift)
    :: map (fun i => shld (word_at u i) (word_at u (i - 1)) shift) (seq 1 (length u - 1)).

Definition shr_words (N : nat) (u : words) (shift : Z) : words :=
  map (fun i => shrd (word_at u (i + 1)) (word_at u i) shift) (seq 0 (N - 1))
    ++ [ #(Z.shiftr (word_at u (N - 1)) shift) ].

(** The code asserts that [v] is not zero; [u] has at least as many limbs as [v]. *)
Definition udivrem (u v : words) : option (words * words) :=
  let M := length u in
  let N := length v in
  let m := count_significant_words u in
  let n := count_significant_words v in
  if (n =? 0)%nat then None
  else if (m <? n)%nat then Some (replicate M #0, take N u)
  else if (m =? 1)%nat then
    let '(q0, r0) := div #0 (word_at u 0) (word_at v 0) in
    Some (q0 :: replicate (M - 1) #0, r0 :: replicate (N - 1) #0)
  else if (n =? 1)%nat then
    let '(quot, r) := long_div m u (word_at v 0) (replicate M #0) in
    Some (quot, r :: replicate (N - 1) #0)
  else
    let normalize_shift := countl_zero64 (word_at v (n - 1)) in
    let u_norm := shl_words u normalize_shift
      ++ [ #(Z.shiftr (Z.shiftr (word_at u (M - 1)) 1) (63 - normalize_shift)) ] in
    let v_norm := shl_words v normalize_shift in
    let '(u_norm, quot) := knuth_div m u_norm n v_norm (replicate M #0) in
    Some (quot, shr_words N u_norm normalize_shift).

(** ** Limbs as digits *)
Lemma B_pos : 0 < B. Proof. done. Qed.
#[export] Hint Resolve B_pos : core.

Lemma Bpow_pos (k : nat) : 0 < B ^ Z.of_nat k.
Proof. apply Z.pow_pos_nonneg; [done|lia]. Qed.

Lemma Bpow_S (k : nat) : B ^ Z.of_nat (S k) = B * B ^ Z.of_nat k.
Proof. rewrite Nat2Z.inj_succ, Z.pow_succ_r by lia. done. Qed.

Lemma Bpow_add (a b : nat) : B ^ Z.of_nat (a + b) = B ^ Z.of_nat a * B ^ Z.of_nat b.
Proof. rewrite Nat2Z.inj_add, Z.pow_add_r by lia. done. Qed.

Lemma limb_range (w : u64) : 0 <= w < B.
Proof. exact (uword_range w). Qed.

Lemma word_at_val ws i : uval (word_at ws i) = (words_val ws / B ^ Z.of_nat i) mod B.
Proof.
  revert ws. induction i as [|i IH]; intros [|w ws]; unfold word_at; cbn [nth words_val].
  - done.
  - rewrite Z.pow_0_r, Z.div_1_r, (Z.mul_comm B), Z_mod_plus_full.
    symmetry. apply Z.mod_small, limb_range.
  - rewrite Zdiv_0_l. done.
  - fold (word_at ws i). rewrite IH, Bpow_S, <- Z.div_div by (pose proof (Bpow_pos i); done || lia).
    do 2 f_equal. rewrite (Z.mul_comm B), Z.div_add, (Z.div_small w) by (done || apply limb_range). lia.
Qed.

Lemma words_val_app a b : words_val (a ++ b) = words_val a + B ^ Z.of_nat (length a) * words_val b.
Proof.
  induction a as [|w a IH]; cbn [app words_val length].
  - rewrite Z.pow_0_r. lia.
  - rewrite IH, Bpow_S. ring.
Qed.

Lemma words_val_take_drop k ws :
  (k <= length ws)%nat -> words_val ws = words_val (take k ws) + B ^ Z.of_nat k * words_val (drop k ws).
Proof.
  intros Hk. rewrite <- (take_drop k ws) at 1. rewrite words_val_app, length_take.
  by replace (k `min` length ws)%nat with k by lia.
Qed.

Lemma words_val_take k ws : words_val (take k ws) = words_val ws mod B ^ Z.of_nat k.
Proof.
  destruct (decide (k <= length ws)%nat) as [Hk|Hk].
  - rewrite (words_val_take_drop k ws Hk). rewrite (Z.mul_comm (B ^ _)), Z_mod_plus_full.
    symmetry. apply Z.mod_small. split; [apply words_val_nonneg|].
    pose proof (words_val_bound (take k ws)) as Hb. rewrite length_take in Hb.
    by replace (k `min` length ws)%nat with k in Hb by lia.
  - rewrite take_ge by lia. symmetry. apply Z.mod_small. split; [apply words_val_nonneg|].
    eapply Z.lt_le_trans; [apply words_val_bound|]. apply Z.pow_le_mono_r; [done|lia].
Qed.

Lemma words_val_zeros n : words_val (replicate n #0) = 0.
Proof. induction n as [|n IH]; cbn [replicate words_val]; [done|]. rewrite IH, uval_wrap_0. lia. Qed.

Lemma word_at_zeros n i : word_at (replicate n #0) i = #0.
Proof. apply uval_inj. by rewrite word_at_val, words_val_zeros, Zdiv_0_l. Qed.

(** One more limb of a segment of [v]. *)
Lemma words_val_seg_S (c j : nat) v :
  words_val (take (S c) (drop j v)) = word_at v j + B * words_val (take c (drop (S j) v)).
Proof.
  destruct (v !! j) as [w|] eqn:E.
  - rewrite (drop_S v w j E). cbn [take words_val]. f_equal. unfold word_at. by rewrite (nth_lookup_Some _ _ _ _ E).
  - apply lookup_ge_None in E. rewrite !drop_ge by lia. rewrite !take_nil. cbn [words_val].
    unfold word_at. rewrite nth_overflow by lia. by rewrite uval_wrap_0.
Qed.

(** ** The inner loops *)
Lemma i128_wrap t : - 2 ^ 127 <= t < 2 ^ 127 -> i128 (wrap 128 t) = t.
Proof.
  intros H. unfold i128. rewrite uval_wrap. unfold modulus. simpl Z.of_N.
  destruct (decide (0 <= t)).
  - rewrite Z.mod_small by lia. destruct (Z.ltb_spec t (2 ^ 127)); lia.
  - replace (t mod 2 ^ 128) with (t + 2 ^ 128) by (Z.div_mod_to_equations; lia).
    destruct (Z.ltb_spec (t + 2 ^ 128) (2 ^ 127)); lia.
Qed.

Lemma wrap64_128 t : uval (wrap 64 (wrap 128 t)) = t mod B.
Proof.
  rewrite !uval_wrap. unfold modulus, B. simpl Z.of_N.
  change (2 ^ 128) with (2 ^ 64 * 2 ^ 64). rewrite Z.rem_mul_r by done.
  rewrite Z.mul_comm, Z_mod_plus_full, Z.mod_mod by done. done.
Qed.

(** One limb of [mul_sub]. *)
Lemma mul_sub_limb (q k : u128) (vj uj : u64) :
  0 <= q < B -> 0 <= k < B ->
  let prod : u128 := #(q * vj) in
  let t : u128 := #(uj - k - Z.land prod 0xffffffffffffffff) in
  let k' : u128 := #(Z.shiftr prod 64 - (#(Z.shiftr (i128 t) 64) : u128)) in
  0 <= k' < B /\ (#t : u64) = uj - k - q * vj + B * k' :> Z.
Proof.
  intros Hq Hk prod t k'. pose proof (limb_range vj) as Hv. pose proof (limb_range uj) as Hu.
  assert (Hp : uval prod = q * vj). { apply uval_wrap_small. unfold modulus, B in *. simpl Z.of_N. nia. }
  set (p := q * vj) in *. assert (0 <= p <= (B - 1) * (B - 1)) by nia.
  assert (Hl : Z.land prod 0xffffffffffffffff = p mod B).
  { rewrite Hp. change 0xffffffffffffffff with (Z.ones 64). by rewrite Z.land_ones. }
  set (tau := uj - k - p mod B).
  assert (Et : t = #tau) by (subst t tau; by rewrite Hl).
  assert (0 <= p mod B < B) by (apply Z.mod_pos_bound; done).
  assert (Ht : - 2 ^ 127 <= tau < 2 ^ 127) by (unfold B in *; lia).
  assert (Hk' : uval k' = p / B - tau / B).
  { subst k'. rewrite Hp, Et, i128_wrap by done. rewrite !Z.shiftr_div_pow2 by done. change (2 ^ 64) with B.
    assert (Hd : - 2 <= tau / B <= 0).
    { split; [apply Z.div_le_lower_bound|apply Z.lt_succ_r, Z.div_lt_upper_bound]; unfold B in *; lia. }
    assert (0 <= p / B <= B - 2).
    { split; [apply Z.div_pos; [lia|done]|]. apply Z.lt_succ_r, Z.div_lt_upper_bound; [done|]. unfold B in *. lia. }
    rewrite !uval_wrap. unfold modulus. simpl Z.of_N. rewrite Zminus_mod_idemp_r.
    apply Z.mod_small. unfold B in *. lia. }
  rewrite Et, wrap64_128, Hk'. pose proof (Z.div_mod tau B) as E. pose proof (Z.div_mod p B) as E'.
  assert (0 <= tau mod B < B) by (apply Z.mod_pos_bound; done).
  assert (Hb : B * (p / B - tau / B) = p - uj + k + tau mod B) by (unfold tau in *; lia).
  split; [|unfold tau in *; lia]. unfold B in *. split; nia.
Qed.

Lemma mul_sub_spec cnt j ix v q k u :
  0 <= uval q < B -> 0 <= uval k < B -> (j + cnt + ix <= length u)%nat ->
  let '(u', k') := mul_sub cnt j ix v q k u in
  length u' = length u /\ 0 <= uval k' < B /\
  words_val u' = words_val u
    + (k' * B ^ Z.of_nat cnt - k - q * words_val (take cnt (drop j v))) * B ^ Z.of_nat (j + ix) /\
  (forall i, (j + cnt + ix <= i)%nat -> word_at u' i = word_at u i).
Proof.
  revert j k u. induction cnt as [|c IH]; intros j k u Hq Hk Hl; cbn [mul_sub].
  - rewrite take_0. cbn [words_val]. rewrite Z.pow_0_r. split_and!; [done|lia|lia|ring|done].
  - pose proof (mul_sub_limb q k (word_at v j) (word_at u (j + ix)) Hq Hk) as [Hk' Hd].
    set (t := wrap 128 (word_at u (j + ix) - k - _)) in *. set (k1 := wrap 128 (Z.shiftr _ 64 - _)) in *.
    specialize (IH (S j) k1 (<[(j + ix)%nat := #t]> u) Hq Hk').
    rewrite length_insert in IH. specialize (IH ltac:(lia)).
    destruct (mul_sub c (S j) ix v q k1 _) as [u' k']. destruct IH as (L & Hr & E & Ho).
    split_and!; [done|lia|lia| |].
    + rewrite E, words_val_insert, Hd, words_val_seg_S by lia.
      replace (S j + ix)%nat with (S (j + ix)) by lia. rewrite !Bpow_S. ring.
    + intros i Hi. rewrite Ho by lia. apply word_at_insert_ne. lia.
Qed.

Lemma add_back_spec cnt j ix v k u :
  0 <= uval k <= 1 -> (j + cnt + ix <= length u)%nat ->
  let '(u', k') := add_back cnt j ix v k u in
  length u' = length u /\ 0 <= uval k' <= 1 /\
  words_val u' = words_val u
    + (words_val (take cnt (drop j v)) + k - k' * B ^ Z.of_nat cnt) * B ^ Z.of_nat (j + ix) /\
  (forall i, (j + cnt + ix <= i)%nat -> word_at u' i = word_at u i).
Proof.
  revert j k u. induction cnt as [|c IH]; intros j k u Hk Hl; cbn [add_back].
  - rewrite take_0. cbn [words_val]. rewrite Z.pow_0_r. split_and!; [done|lia|lia|ring|done].
  - pose proof (limb_range (word_at v j)). pose proof (limb_range (word_at u (ix + j))).
    set (s := word_at u (ix + j) + word_at v j + k) in *.
    assert (Hs : uval (wrap 128 s) = s) by (apply uval_wrap_small; unfold s, modulus, B in *; simpl Z.of_N; lia).
    assert (Hc : uval (wrap 128 (Z.shiftr (wrap 128 s) 64)) = s / B).
    { rewrite Hs, Z.shiftr_div_pow2 by done. apply uval_wrap_small. change (2 ^ 64) with B.
      split; [apply Z.div_pos; [unfold s; lia|done]|]. apply Z.div_lt_upper_bound; [done|].
      unfold s, modulus, B in *. simpl Z.of_N. lia. }
    assert (Hb : 0 <= s / B <= 1).
    { split; [apply Z.div_pos; [unfold s; lia|done]|]. apply Z.lt_succ_r, Z.div_lt_upper_bound; [done|]. unfold s, B in *. lia. }
    specialize (IH (S j) (wrap 128 (Z.shiftr (wrap 128 s) 64)) (<[(ix + j)%nat := #(wrap 128 s)]> u)).
    rewrite length_insert, Hc in IH. specialize (IH Hb ltac:(lia)).
    destruct (add_back c (S j) ix v _ _) as [u' k']. destruct IH as (L & Hr & E & Ho).
    split_and!; [done|lia|lia| |].
    + rewrite E, words_val_insert, wrap64_128, words_val_seg_S by lia.
      replace (S j + ix)%nat with (S (j + ix)) by lia. rewrite !Bpow_S.
      replace (ix + j)%nat with (j + ix)%nat by lia. rewrite (Z.mod_eq s B) by done. unfold s.
      replace (ix + j)%nat with (j + ix)%nat by lia. ring.
    + intros i Hi. rewrite Ho by lia. apply word_at_insert_ne. lia.
Qed.

(** ** The estimate of a quotient digit

    [U] and [V] are the top three and the top two digits of dividend and divisor,
    [s] the weight of the lowest of them. *)
Section estimate.
Context (b h s UU VV u2 u1 u0 v1 v0 : Z).
Hypotheses (Hb : b = 2 * h) (Hh : 2 <= h) (Hs : 0 < s).
Hypotheses (Hu1 : 0 <= u1 < b) (Hu0 : 0 <= u0 < b) (Hv0 : 0 <= v0 < b) (Hv1 : h <= v1 < b) (Hu2 : 0 <= u2).
Hypotheses (HU : ((u2 * b + u1) * b + u0) * s <= UU < ((u2 * b + u1) * b + u0 + 1) * s).
Hypotheses (HV : (v1 * b + v0) * s <= VV < (v1 * b + v0 + 1) * s).
Hypothesis (Hlt : UU < VV * b).

(** From bounds on the digits to bounds on the numbers. *)
Lemma below q : (u2 * b + u1) * b + u0 + 1 <= q * (v1 * b + v0) -> 0 <= q -> UU < q * VV.
Proof using All.
  intros H Hq. apply Z.lt_le_trans with (((u2 * b + u1) * b + u0 + 1) * s); [lia|].
  apply Z.le_trans with ((q * (v1 * b + v0)) * s); [nia|]. rewrite <- Z.mul_assoc. apply Z.mul_le_mono_nonneg_l; lia.
Qed.

Lemma above q : q * (v1 * b + v0 + 1) <= (u2 * b + u1) * b + u0 -> 0 <= q -> q * VV <= UU.
Proof using All.
  intros H Hq. apply Z.le_trans with (((u2 * b + u1) * b + u0) * s); [|lia].
  apply Z.le_trans with ((q * (v1 * b + v0 + 1)) * s); [|nia]. rewrite <- Z.mul_assoc. apply Z.mul_le_mono_nonneg_l; lia.
Qed.

Lemma estimate_digit : u2 <= v1.
Proof using All.
  destruct (Z_lt_le_dec v1 u2) as [H|H]; [exfalso|done].
  assert (H1 : v1 * b + v0 + 1 <= u2 * b) by nia.
  assert (H2 : (v1 * b + v0 + 1) * s <= u2 * b * s) by (apply Z.mul_le_mono_nonneg_r; lia).
  assert (H3 : VV * b < u2 * b * s * b) by (apply Z.mul_lt_mono_pos_r; lia).
  assert (H4 : u2 * b * b * s <= ((u2 * b + u1) * b + u0) * s) by (apply Z.mul_le_mono_nonneg_r; nia). lia.
Qed.

Lemma estimate_top : u2 = v1 -> UU < (b - 1 + 1) * VV /\ (b - 1 - 1) * VV <= UU.
Proof using All.
  intros E. split; [lia|]. apply above; [|lia]. rewrite E.
  assert ((b - 2) * (v1 + 1) <= b * v1) by nia.
  assert ((b - 2) * (v1 * b + v0 + 1) <= (b - 2) * (v1 + 1) * b) by nia. nia.
Qed.

Context (q r : Z).
Hypotheses (Hdiv : u2 * b + u1 = q * v1 + r) (Hr : 0 <= r < v1) (Hq0 : 0 <= q) (Hqb : q < b).

Lemma estimate_upper : UU < (q + 1) * VV.
Proof using All. apply below; [|lia]. rewrite Hdiv. nia. Qed.

Lemma estimate_corrected : r * b + u0 < q * v0 -> UU < (q - 1 + 1) * VV /\ (q - 1 - 1) * VV <= UU.
Proof using All.
  intros H. assert (1 <= q) by nia. split.
  - apply below; [|lia]. rewrite Hdiv. nia.
  - destruct (decide (q = 1)) as [->|].
    + assert (0 <= VV) by nia. assert (0 <= UU) by nia. lia.
    + apply above; [|lia]. rewrite Hdiv.
      assert ((q - 2) * (v1 * b + v0 + 1) <= (q - 2) * (v1 + 1) * b) by nia.
      assert ((q - 2) * (v1 + 1) <= q * v1) by nia. nia.
Qed.

Lemma estimate_kept : 1 <= q -> q * v0 <= r * b + u0 -> UU < (q + 1) * VV /\ (q - 1) * VV <= UU.
Proof using All.
  intros Hq1 H. split; [apply estimate_upper|]. apply above; [|lia]. rewrite Hdiv.
  assert (q - 1 <= v1 * b + v0) by nia. nia.
Qed.
End estimate.

Lemma digits3 X b : 0 < b -> 0 <= X < b * (b * b) ->
  X = (X / b / b * b + (X / b) mod b) * b + X mod b /\ 0 <= X / b / b < b.
Proof.
  intros Hb HX. pose proof (Z.div_mod X b). pose proof (Z.div_mod (X / b) b). split; [lia|].
  split; [apply Z.div_pos; [apply Z.div_pos|]; lia|].
  apply Z.div_lt_upper_bound; [lia|]. apply Z.div_lt_upper_bound; lia.
Qed.

(** The top three limbs at [k] of a number below [B^(k + 3)]. *)
Lemma top_three u (k : nat) :
  words_val u < B ^ Z.of_nat (k + 3) ->
  let U := (word_at u (k + 2) * B + word_at u (k + 1)) * B + word_at u k in
  U * B ^ Z.of_nat k <= words_val u < (U + 1) * B ^ Z.of_nat k.
Proof.
  intros H U. pose proof (words_val_nonneg u). pose proof (Bpow_pos k).
  set (s := B ^ Z.of_nat k) in *. set (X := words_val u / s).
  assert (HX : 0 <= X < B * (B * B)).
  { split; [by apply Z.div_pos; lia|]. apply Z.div_lt_upper_bound; [done|].
    rewrite Bpow_add in H. change (B ^ Z.of_nat 3) with (B * (B * B)) in H. fold s in H. lia. }
  destruct (digits3 X B B_pos HX) as [E E2].
  assert (HU : U = X).
  { unfold U. rewrite !word_at_val, !Bpow_add. change (B ^ Z.of_nat 1) with B.
    change (B ^ Z.of_nat 2) with (B * B). fold s. rewrite <- !Z.div_div by (done || lia). fold X.
    rewrite (Z.mod_small (X / B / B)) by done. lia. }
  rewrite HU. pose proof (Z.div_mod (words_val u) s). fold X in H2.
  pose proof (Z.mod_pos_bound (words_val u) s). lia.
Qed.

Lemma word_at_take n v i : (i < n)%nat -> word_at (take n v) i = word_at v i.
Proof. intros H. unfold word_at. rewrite !nth_lookup. by rewrite lookup_take_lt. Qed.

(** Two limbs make 128 bits. *)
Lemma u128_mul a b : 0 <= a < B -> 0 <= b < B -> 0 <= a * b < modulus 128.
Proof. intros. change (modulus 128) with (B * B). nia. Qed.
Lemma u128_cat a b : 0 <= a < B -> 0 <= b < B -> 0 <= a * B + b < modulus 128.
Proof. intros. change (modulus 128) with (B * B). nia. Qed.
Lemma u128_limb a : 0 <= a < B -> 0 <= a < modulus 128.
Proof. intros. change (modulus 128) with (B * B). unfold B in *. lia. Qed.

Lemma words_val_all_zero ws : (forall i, word_at ws i = #0) -> words_val ws = 0.
Proof.
  induction ws as [|w ws IH]; intros H; cbn [words_val]; [done|].
  pose proof (H 0%nat) as E. unfold word_at in E. cbn [nth] in E. rewrite E, uval_wrap_0.
  rewrite IH; [done|]. intros i. exact (H (S i)).
Qed.

(** A number is below [B^T] exactly when its limbs from [T] on are zero. *)
Lemma words_val_below T ws : words_val ws < B ^ Z.of_nat T <-> (forall i, (T <= i)%nat -> word_at ws i = #0).
Proof.
  split.
  - intros H i Hi. apply uval_inj. rewrite word_at_val, Z.div_small; [done|].
    split; [apply words_val_nonneg|]. eapply Z.lt_le_trans; [exact H|]. apply Z.pow_le_mono_r; [done|lia].
  - intros H. destruct (decide (T <= length ws)%nat) as [HT|HT].
    + rewrite (words_val_take_drop T ws HT), (words_val_all_zero (drop T ws)), Z.mul_0_r, Z.add_0_r, words_val_take.
      * apply Z.mod_pos_bound, Bpow_pos.
      * intros i. rewrite <- (H (T + i)%nat) by lia. unfold word_at. rewrite !nth_lookup. by rewrite lookup_drop.
    + eapply Z.lt_le_trans; [apply words_val_bound|]. apply Z.pow_le_mono_r; [done|lia].
Qed.

(** Two numbers in [0, T) that differ by a multiple of [T]. *)
Lemma same_residue T a x c : 0 <= a < T -> 0 <= x < T -> a = x + (1 - c) * T -> c = 1.
Proof. intros. destruct (Z_lt_le_dec c 1); [nia|]. destruct (Z_lt_le_dec 1 c); [nia|lia]. Qed.

Section knuth.
Context (n : nat) (v : words).
Hypotheses (Hn : (2 <= n)%nat) (Hlv : (n <= length v)%nat) (Hnorm : B / 2 <= word_at v (n - 1)).
#[local] Abbreviation V := (words_val (take n v)).

Lemma divisor_bound : V < B ^ Z.of_nat n.
Proof using Hn Hlv. pose proof (words_val_bound (take n v)) as H. by rewrite length_take, Nat.min_l in H by lia. Qed.

Lemma divisor_top2 : let V2 := word_at v (n - 1) * B + word_at v (n - 2) in
  V2 * B ^ Z.of_nat (n - 2) <= V < (V2 + 1) * B ^ Z.of_nat (n - 2).
Proof using Hn Hlv.
  pose proof (top_three (take n v) (n - 2)) as H. replace (n - 2 + 3)%nat with (S n) in H by lia.
  rewrite Bpow_S in H. pose proof divisor_bound. pose proof (Bpow_pos n).
  specialize (H ltac:(unfold B in *; lia)). replace (n - 2 + 2)%nat with n in H by lia.
  replace (n - 2 + 1)%nat with (n - 1)%nat in H by lia.
  assert (E : word_at (take n v) n = #0).
  { unfold word_at. apply nth_overflow. rewrite length_take. lia. }
  rewrite E, uval_wrap_0, !word_at_take in H by lia. exact H.
Qed.

Lemma divisor_pos : 0 < V.
Proof using Hn Hlv Hnorm.
  pose proof divisor_top2 as [H _]. pose proof (Bpow_pos (n - 2)). pose proof (limb_range (word_at v (n - 2))).
  unfold B in *. change (2 ^ 64 / 2) with (2 ^ 63) in *. nia.
Qed.

Lemma estimate_spec ix u :
  words_val u < V * B ^ Z.of_nat (S ix) ->
  match estimate ix n u v with
  | None => words_val u < V * B ^ Z.of_nat ix
  | Some q => 0 <= q < B /\ words_val u < (q + 1) * (V * B ^ Z.of_nat ix) /\
      (q - 1) * (V * B ^ Z.of_nat ix) <= words_val u
  end.
Proof using Hn Hlv Hnorm.
  intros Hlt. rewrite Bpow_S in Hlt. pose proof divisor_bound as Hvb. pose proof divisor_top2 as HV. cbv zeta in HV.
  pose proof (Bpow_pos ix) as Hix. pose proof (Bpow_pos (n - 2)) as Hn2.
  assert (HU : words_val u < B ^ Z.of_nat (ix + n - 2 + 3)).
  { replace (ix + n - 2 + 3)%nat with (n + S ix)%nat by lia. rewrite Bpow_add, Bpow_S.
    eapply Z.lt_le_trans; [exact Hlt|]. apply Z.mul_le_mono_nonneg_r; [|lia].
    by apply Z.mul_nonneg_nonneg; apply Z.lt_le_incl. }
  apply top_three in HU. cbv zeta in HU. replace (ix + n - 2 + 2)%nat with (ix + n)%nat in HU by lia.
  replace (ix + n - 2 + 1)%nat with (ix + n - 1)%nat in HU by lia.
  set (s := B ^ Z.of_nat (ix + n - 2)) in *.
  assert (Es : s = B ^ Z.of_nat (n - 2) * B ^ Z.of_nat ix) by (unfold s; rewrite <- Bpow_add; do 2 f_equal; lia).
  assert (Hs : 0 < s) by apply Bpow_pos.
  set (VV := V * B ^ Z.of_nat ix) in *.
  assert (HVV : (word_at v (n - 1) * B + word_at v (n - 2)) * s <= VV < (word_at v (n - 1) * B + word_at v (n - 2) + 1) * s)
    by (rewrite Es, !Z.mul_assoc; unfold VV; split; [apply Z.mul_le_mono_nonneg_r|apply Z.mul_lt_mono_pos_r]; lia).
  assert (Hlt' : words_val u < VV * B) by (unfold VV; lia).
  set (u2 := word_at u (ix + n)) in *. set (u1 := word_at u (ix + n - 1)) in *. set (u0 := word_at u (ix + n - 2)) in *.
  set (v1 := word_at v (n - 1)) in *. set (v0 := word_at v (n - 2)) in *.
  pose proof (limb_range u2) as R2. pose proof (limb_range u1) as R1. pose proof (limb_range u0) as R0.
  pose proof (limb_range v0) as S0. pose proof (limb_range v1) as S1.
  assert (HB : B = 2 * (B / 2)) by done. assert (Hh : 2 <= B / 2) by done.
  assert (T1 : B / 2 <= v1 < B) by exact (conj Hnorm (proj2 S1)).
  unfold estimate. fold u2 u1 u0 v1 v0. destruct (weqb_spec u2 v1) as [E|E].
  - change (uval (wrap 128 (B - 1))) with (B - 1). split; [done|].
    exact (estimate_top B (B / 2) s (words_val u) VV u2 u1 u0 v1 v0 HB Hh Hs R1 R0 S0 T1 (proj1 R2) HU HVV Hlt'
      (f_equal uval E)).
  - pose proof (estimate_digit B (B / 2) s (words_val u) VV u2 u1 u0 v1 v0 HB Hh Hs R1 R0 S0 T1 (proj1 R2) HU HVV Hlt') as D.
    assert (Hu2 : u2 < v1).
    { clear - D E. assert (u2 <> v1 :> Z) by (intros ?; by apply E, uval_inj). lia. }
    unfold div. set (w := u1 + B * u2). assert (Hv1 : 0 < v1) by (clear - T1 Hh; lia).
    assert (Hw : 0 <= w < v1 * B) by (clear - R1 R2 Hu2; unfold w, B in *; lia).
    assert (Hq : 0 <= w / v1 < B) by (clear - Hw Hv1; split; [apply Z.div_pos|apply Z.div_lt_upper_bound]; lia).
    pose proof (Z.mod_pos_bound w v1 Hv1) as Hr. 
    assert (Hd : u2 * B + u1 = w / v1 * v1 + w mod v1) by (clear - Hv1; pose proof (Z.div_mod w v1); unfold w in *; lia).
    assert (Hr' : 0 <= w mod v1 < B) by (clear - Hr S1; lia).
    set (q := w / v1) in *. set (r := w mod v1) in *.
    cbn beta iota zeta. rewrite (uval_wrap_small 64 q Hq), (uval_wrap_small 64 r Hr').
    destruct (Z.eqb_spec q 0) as [E0|E0].
    + pose proof (estimate_upper B (B / 2) s (words_val u) VV u2 u1 u0 v1 v0 HB Hh Hs R1 R0 S0
        T1 (proj1 R2) HU HVV Hlt' q r Hd Hr (proj1 Hq) (proj2 Hq)) as Hup. rewrite E0 in Hup. clear - Hup. lia.
    + rewrite (uval_wrap_small 128 q), (uval_wrap_small 128 r) by by apply u128_limb.
      rewrite Z.shiftl_mul_pow2 by done. change (2 ^ 64) with B.
      rewrite (uval_wrap_small 128 (_ * _)), (uval_wrap_small 128 (_ + _)) by (by apply u128_mul || by apply u128_cat).
      destruct (Z.ltb_spec (r * B + u0) (q * v0)) as [Ht|Ht].
      * assert (Hq1 : 0 <= q - 1 < B) by (clear - Hq E0; lia).
        rewrite (uval_wrap_small 128) by by apply u128_limb. split; [done|].
        exact (estimate_corrected B (B / 2) s (words_val u) VV u2 u1 u0 v1 v0 HB Hh Hs R1 R0 S0
          T1 (proj1 R2) HU HVV Hlt' q r Hd Hr (proj1 Hq) (proj2 Hq) Ht).
      * rewrite (uval_wrap_small 128) by by apply u128_limb. split; [done|].
        exact (estimate_kept B (B / 2) s (words_val u) VV u2 u1 u0 v1 v0 HB Hh Hs R1 R0 S0
          T1 (proj1 R2) HU HVV Hlt' q r Hd Hr (proj1 Hq) (proj2 Hq) ltac:(clear - Hq E0; lia) Ht).
Qed.

(** The dividend after the multiply-and-subtract: a borrow out of the top limb
    means that the estimate was too high. *)
Lemma subtracted_spec ix u q :
  0 <= uval q < B -> (ix + n < length u)%nat -> words_val u < B ^ Z.of_nat (S (ix + n)) ->
  let '(u', k) := mul_sub n 0 ix v q #0 u in
  let t : u128 := #(word_at u' (ix + n) - k) in
  let u'' := <[(ix + n)%nat := #t]> u' in
  length u'' = length u /\ words_val u'' < B ^ Z.of_nat (S (ix + n)) /\
  words_val u'' = words_val u - q * (V * B ^ Z.of_nat ix)
    + (if negb (Z.shiftr t 127 =? 0) then B ^ Z.of_nat (S (ix + n)) else 0).
Proof using Hn Hlv.
  intros Hq Hl Hu. pose proof (mul_sub_spec n 0 ix v q #0 u Hq ltac:(done) ltac:(lia)) as H.
  destruct (mul_sub n 0 ix v q #0 u) as [u' k]. destruct H as (L & Hk & E & Ho). rewrite drop_0 in E.
  cbv zeta. pose proof (limb_range (word_at u' (ix + n))) as R. set (a := word_at u' (ix + n)) in *.
  split_and!.
  - by rewrite length_insert.
  - rewrite words_val_below in Hu |- *. intros i Hi. rewrite word_at_insert_ne, Ho by lia. by apply Hu.
  - rewrite words_val_insert, wrap64_128 by lia. fold a.
    assert (Ht : Z.shiftr (wrap 128 (a - k)) 127 = if a <? k then 1 else 0).
    { rewrite Z.shiftr_div_pow2, uval_wrap by done. unfold modulus, B in *. simpl Z.of_N.
      destruct (Z.ltb_spec a k); Z.div_mod_to_equations; lia. }
    rewrite Ht. replace (Z.of_nat (0 + ix)) with (Z.of_nat ix) in E by lia.
    rewrite E, uval_wrap_0, Bpow_S, !Bpow_add. destruct (Z.ltb_spec a k); cbn [negb Z.eqb].
    + replace ((a - k) mod B) with (a - k + B) by (apply Zmod_unique with (-1); lia). ring.
    + rewrite Z.mod_small by lia. ring.
Qed.

Lemma added_back_spec ix u :
  (ix + n < length u)%nat -> words_val u < B ^ Z.of_nat (S (ix + n)) ->
  let '(u', k) := add_back n 0 ix v #0 u in
  let u'' := <[(ix + n)%nat := #(word_at u' (ix + n) + k)]> u' in
  length u'' = length u /\ words_val u'' < B ^ Z.of_nat (S (ix + n)) /\
  exists c, words_val u'' = words_val u + V * B ^ Z.of_nat ix - c * B ^ Z.of_nat (S (ix + n)).
Proof using Hn Hlv.
  intros Hl Hu. pose proof (add_back_spec n 0 ix v #0 u ltac:(done) ltac:(lia)) as H.
  destruct (add_back n 0 ix v #0 u) as [u' k]. destruct H as (L & Hk & E & Ho). rewrite drop_0 in E.
  cbv zeta. split_and!.
  - by rewrite length_insert.
  - rewrite words_val_below in Hu |- *. intros i Hi. rewrite word_at_insert_ne, Ho by lia. by apply Hu.
  - set (a := word_at u' (ix + n)). exists ((a + k) / B).
    rewrite words_val_insert by lia. fold a. rewrite uval_wrap. change (modulus 64) with B.
    rewrite Z.mod_eq by done. replace (Z.of_nat (0 + ix)) with (Z.of_nat ix) in E by lia.
    rewrite E, uval_wrap_0, Bpow_S, !Bpow_add. ring.
Qed.

Lemma knuth_step_spec ix u quot :
  (ix + n < length u)%nat -> (ix < length quot)%nat -> word_at quot ix = #0 ->
  words_val u < V * B ^ Z.of_nat (S ix) ->
  let '(u', quot') := knuth_step ix n v (u, quot) in
  length u' = length u /\ length quot' = length quot /\
  (forall i, (i < ix)%nat -> word_at quot' i = word_at quot i) /\
  exists d, words_val quot' = words_val quot + d * B ^ Z.of_nat ix /\
    words_val u = d * (V * B ^ Z.of_nat ix) + words_val u' /\ 0 <= words_val u' < V * B ^ Z.of_nat ix.
Proof using Hn Hlv Hnorm.
  intros Hu Hq Hq0 Hlt. unfold knuth_step. pose proof (estimate_spec ix u Hlt) as He.
  pose proof (words_val_nonneg u) as Hun.
  set (VV := V * B ^ Z.of_nat ix) in *.
  assert (HT : VV * B <= B ^ Z.of_nat (S (ix + n))).
  { unfold VV. rewrite Bpow_S, Bpow_add. pose proof divisor_bound. pose proof (Bpow_pos ix).
    rewrite (Z.mul_comm _ B), (Z.mul_comm V). apply Z.mul_le_mono_nonneg_l; [done|]. apply Z.mul_le_mono_nonneg_l; lia. }
  assert (HuT : words_val u < B ^ Z.of_nat (S (ix + n))) by (rewrite Bpow_S in Hlt; unfold VV in HT; lia).
  assert (HVV : 0 < VV) by (apply Z.mul_pos_pos; [apply divisor_pos|apply Bpow_pos]).
  destruct (estimate ix n u v) as [q|].
  2:{ split_and!; [done..|]. exists 0. lia. }
  destruct He as (Hqr & He1 & He2).
  pose proof (subtracted_spec ix u q Hqr Hu HuT) as Hs. destruct (mul_sub n 0 ix v q #0 u) as [u1 k].
  cbv zeta in Hs |- *. fold VV in Hs. set (u2 := <[_ := _]> u1) in *. destruct Hs as (L2 & B2 & E2).
  pose proof (words_val_nonneg u2).
  destruct (negb (Z.shiftr _ 127 =? 0)).
  - pose proof (added_back_spec ix u2 ltac:(lia) B2) as Ha. destruct (add_back n 0 ix v #0 u2) as [u3 k3].
    cbv zeta in Ha |- *. fold VV in Ha. set (u4 := <[_ := _]> u3) in *. destruct Ha as (L4 & B4 & c & E4).
    pose proof (words_val_nonneg u4) as N4. set (T := B ^ Z.of_nat (S (ix + n))) in *.
    assert (Hr : 0 <= words_val u - (q - 1) * VV < T) by (split; [lia|]; clear - He1 HT HVV E2 B2 He2; unfold B in HT; lia).
    assert (c = 1).
    { apply (same_residue T (words_val u4) (words_val u - (q - 1) * VV)); [lia|done|lia]. }
    subst c.
    assert (Hq1 : uval (wrap 64 (wrap 128 (q - 1))) = q - 1).
    { rewrite wrap64_128. apply Z.mod_small. clear - E2 B2 Hun Hqr HVV. nia. }
    split_and!; [lia|by rewrite length_insert|intros i Hi; apply word_at_insert_ne; lia|].
    exists (q - 1). rewrite words_val_insert, Hq0, Hq1, uval_wrap_0 by done. lia.
  - assert (Hq1 : uval (wrap 64 q) = q) by by apply uval_wrap_small.
    split_and!; [lia|by rewrite length_insert|intros i Hi; apply word_at_insert_ne; lia|].
    exists q. rewrite words_val_insert, Hq0, Hq1, uval_wrap_0 by done. lia.
Qed.
End knuth.

Lemma knuth_loop_spec n v i u quot :
  (2 <= n)%nat -> (n <= length v)%nat -> B / 2 <= word_at v (n - 1) ->
  (i + n <= length u)%nat -> (i <= length quot)%nat -> (forall j, (j < i)%nat -> word_at quot j = #0) ->
  words_val u < words_val (take n v) * B ^ Z.of_nat i ->
  let '(u', quot') := knuth_loop i n v (u, quot) in
  length u' = length u /\ length quot' = length quot /\
  words_val u' = words_val u mod words_val (take n v) /\
  words_val quot' = words_val quot + words_val u / words_val (take n v).
Proof.
  intros Hn Hlv Hnorm. set (V := words_val (take n v)).
  assert (HV : 0 < V) by by apply divisor_pos.
  revert u quot. induction i as [|ix IH]; intros u quot Hu Hq H0 Hlt; cbn [knuth_loop].
  - rewrite Z.pow_0_r, Z.mul_1_r in Hlt. pose proof (words_val_nonneg u).
    rewrite Z.mod_small, Z.div_small by lia. split_and!; [done..|lia].
  - pose proof (knuth_step_spec n v Hn Hlv Hnorm ix u quot ltac:(lia) ltac:(lia) (H0 ix ltac:(lia)) Hlt) as Hs.
    destruct (knuth_step ix n v (u, quot)) as [u1 quot1]. destruct Hs as (L1 & L2 & Hk & d & E1 & E2 & Hr).
    fold V in E2, Hr. specialize (IH u1 quot1 ltac:(lia) ltac:(lia)).
    destruct (knuth_loop ix n v (u1, quot1)) as [u' quot'].
    destruct IH as (L3 & L4 & E3 & E4); [intros j Hj; rewrite Hk by done; apply H0; lia|lia|].
    rewrite E3, E4, E1, E2. replace (d * (V * B ^ Z.of_nat ix) + words_val u1)
      with (words_val u1 + d * B ^ Z.of_nat ix * V) by ring.
    rewrite Z_mod_plus_full, Z.div_add by lia. split_and!; [lia|lia|done|ring].
Qed.

(** ** One limb *)
Lemma div_spec (u_hi u_lo w : u64) :
  u_hi < w -> let '(q, r) := div u_hi u_lo w in
  u_lo + B * u_hi = w * q + r /\ 0 <= r < w.
Proof.
  intros H. unfold div. pose proof (limb_range u_hi). pose proof (limb_range u_lo). pose proof (limb_range w).
  set (x := u_lo + B * u_hi). assert (Hx : 0 <= x < w * B) by (unfold x, B in *; lia).
  pose proof (Z.mod_pos_bound x w ltac:(lia)).
  rewrite (uval_wrap_small 64 (x / w)), (uval_wrap_small 64 (x mod w)).
  - split; [apply Z.div_mod; lia|done].
  - unfold modulus, B in *. simpl Z.of_N. lia.
  - split; [apply Z.div_pos; lia|]. apply Z.div_lt_upper_bound; [lia|exact (proj2 Hx)].
Qed.

Lemma long_div_loop_spec i u (w r : u64) quot :
  r < w -> (i <= length quot)%nat -> (forall j, (j < i)%nat -> word_at quot j = #0) -> (i <= length u)%nat ->
  let '(quot', r') := long_div_loop i u w r quot in
  length quot' = length quot /\ 0 <= r' < w /\
  words_val (take i u) + r * B ^ Z.of_nat i = w * (words_val quot' - words_val quot) + r'.
Proof.
  revert r quot. induction i as [|ix IH]; intros r quot Hr Hq H0 Hu; cbn [long_div_loop].
  - rewrite take_0, Z.pow_0_r. cbn [words_val]. pose proof (limb_range r). split_and!; [done|lia|done|lia].
  - pose proof (div_spec r (word_at u ix) w Hr) as Hd. destruct (div r (word_at u ix) w) as [q r1].
    destruct Hd as [Hd Hr1]. specialize (IH r1 (<[ix := q]> quot) ltac:(lia)). rewrite length_insert in IH.
    specialize (IH ltac:(lia)). destruct (long_div_loop ix u w r1 _) as [quot' r'].
    destruct IH as (L & Hr' & E); [intros j Hj; rewrite word_at_insert_ne by lia; apply H0; lia|lia|].
    split_and!; [done|lia|lia|]. rewrite words_val_insert, (H0 ix), uval_wrap_0 in E by lia.
    assert (Et : words_val (take (S ix) u) = words_val (take ix u) + word_at u ix * B ^ Z.of_nat ix).
    { rewrite (take_S_r u ix (word_at u ix)), words_val_app, length_take, Nat.min_l by
        (lia || (unfold word_at; rewrite nth_lookup; destruct (u !! ix) eqn:X; [done|apply lookup_ge_None in X; lia])).
      cbn [words_val]. lia. }
    rewrite Et, Bpow_S. replace (words_val (take ix u) + word_at u ix * B ^ Z.of_nat ix + r * (B * B ^ Z.of_nat ix))
      with (words_val (take ix u) + (word_at u ix + B * r) * B ^ Z.of_nat ix) by ring. rewrite Hd.
    replace (words_val (take ix u)) with (w * (words_val quot' - (words_val quot + (q - 0) * B ^ Z.of_nat ix)) + r'
      - r1 * B ^ Z.of_nat ix) by lia. ring.
Qed.

Lemma long_div_spec m u (w : u64) quot :
  (0 < m <= length u)%nat -> 0 < w -> (m <= length quot)%nat -> (forall j, (j < m)%nat -> word_at quot j = #0) ->
  words_val u < B ^ Z.of_nat m ->
  let '(quot', r) := long_div m u w quot in
  length quot' = length quot /\ 0 <= r < w /\ words_val u = w * (words_val quot' - words_val quot) + r.
Proof.
  intros Hm Hw Hq H0 Hu. pose proof (long_div_loop_spec m u w #0 quot) as H.
  rewrite uval_wrap_0, words_val_take, Z.mod_small in H by (split; [apply words_val_nonneg|done]).
  specialize (H Hw Hq H0 ltac:(lia)). destruct m as [|m]; [lia|]. unfold long_div. cbn [long_div_loop] in H.
  replace (S m - 1)%nat with m by lia. destruct (div #0 (word_at u m) w) as [q r].
  destruct (long_div_loop m u w r _) as [quot' r']. destruct H as (L & Hr & E). split_and!; [done|lia|lia|lia].
Qed.

(** ** Shifts of limb vectors *)
Lemma lor_add s k b : 0 <= s -> 0 <= b < 2 ^ s -> Z.lor (k * 2 ^ s) b = k * 2 ^ s + b.
Proof.
  intros Hs Hb. symmetry. apply Z.add_nocarry_lor. rewrite <- (Z.mod_small b (2 ^ s)) by done.
  rewrite <- Z.land_ones, <- Z.shiftl_mul_pow2 by done. apply Z.bits_inj'. intros i Hi.
  rewrite !Z.land_spec, Z.bits_0. destruct (Z_lt_le_dec i s).
  - by rewrite Z.shiftl_spec_low.
  - by rewrite Z.ones_spec_high, andb_false_r, andb_false_r by lia.
Qed.

(** [2^64 = 2^s * 2^(64 - s)]. *)
Lemma B_split s : 0 <= s <= 64 -> B = 2 ^ s * 2 ^ (64 - s).
Proof. intros. rewrite <- Z.pow_add_r by lia. by replace (s + (64 - s)) with 64 by lia. Qed.

Lemma mul_mod_pow2 a s : 0 <= s <= 64 -> (a * 2 ^ s) mod B = (a mod 2 ^ (64 - s)) * 2 ^ s.
Proof.
  intros Hs. rewrite (B_split s Hs), (Z.mul_comm (2 ^ s)), Z.mul_mod_distr_r; [done|..]; apply Z.pow_nonzero; lia.
Qed.

Lemma div_low (l : u64) s : 0 <= s <= 64 -> 0 <= l / 2 ^ (64 - s) < 2 ^ s.
Proof.
  intros Hs. pose proof (limb_range l) as H. split; [apply Z.div_pos; [lia|apply Z.pow_pos_nonneg; lia]|].
  apply Z.div_lt_upper_bound; [apply Z.pow_pos_nonneg; lia|]. rewrite (B_split s Hs) in H. lia.
Qed.

(** The limb at a bit position: part of one limb, part of the next. *)
Lemma funnel Y s : 0 <= s <= 64 ->
  (Y / 2 ^ (64 - s)) mod B = (((Y / B) mod B) * 2 ^ s) mod B + (Y mod B) / 2 ^ (64 - s).
Proof.
  intros Hs. pose proof (Z.pow_pos_nonneg 2 s ltac:(lia) ltac:(lia)). pose proof (Z.pow_pos_nonneg 2 (64 - s) ltac:(lia) ltac:(lia)).
  set (p := 2 ^ (64 - s)) in *. pose proof (div_low (wrap 64 Y) s Hs) as Hl. rewrite uval_wrap in Hl. fold p in Hl.
  change (modulus 64) with B in Hl.
  rewrite (Z.div_mod Y B) at 1 by done. rewrite (B_split s Hs) at 1. fold p.
  replace (2 ^ s * p * (Y / B) + Y mod B) with (Y mod B + Y / B * 2 ^ s * p) by ring.
  rewrite Z.div_add by lia. rewrite (Z.mul_mod_idemp_l (Y / B)) by done.
  rewrite Z.add_comm, <- Z.add_mod_idemp_l by done. apply Z.mod_small. rewrite (mul_mod_pow2 (Y / B) s Hs). fold p.
  pose proof (Z.mod_pos_bound (Y / B) p ltac:(lia)) as Hm.
  revert Hm Hl. generalize (Y mod B / p) ((Y / B) mod p). intros l m Hm Hl. rewrite (B_split s Hs). fold p. nia.
Qed.

Lemma shld_spec (h l : u64) s : 0 <= s < 64 -> shld h l s = (h * 2 ^ s) mod B + l / 2 ^ (64 - s) :> Z.
Proof.
  intros Hs. unfold shld. rewrite uval_wrap, Z.shiftl_mul_pow2, !Z.shiftr_div_pow2, uval_wrap by lia.
  change (modulus 64) with B. rewrite Z.div_div by (done || apply Z.pow_pos_nonneg; lia).
  rewrite <- Z.pow_add_r by lia. replace (1 + (63 - s)) with (64 - s) by lia.
  pose proof (div_low l s ltac:(lia)) as Hl. rewrite mul_mod_pow2, lor_add by lia.
  apply Z.mod_small. pose proof (Z.mod_pos_bound h (2 ^ (64 - s)) ltac:(apply Z.pow_pos_nonneg; lia)) as Hm.
  revert Hm Hl. generalize (l / 2 ^ (64 - s)) (h mod 2 ^ (64 - s)). intros x y Hm Hl. rewrite (B_split s) by lia. nia.
Qed.

Lemma shrd_spec (h l : u64) s : 0 <= s < 64 -> shrd h l s = (h * 2 ^ (64 - s)) mod B + l / 2 ^ s :> Z.
Proof.
  intros Hs. unfold shrd. rewrite uval_wrap, !Z.shiftl_mul_pow2, Z.shiftr_div_pow2, !uval_wrap by lia.
  change (modulus 64) with B. rewrite Z.mul_mod_idemp_l by done. rewrite <- Z.mul_assoc, <- Z.pow_add_r by lia.
  replace (1 + (63 - s)) with (64 - s) by lia.
  pose proof (div_low l (64 - s) ltac:(lia)) as Hl. replace (64 - (64 - s)) with s in Hl by lia.
  rewrite mul_mod_pow2, Z.lor_comm, lor_add by lia. replace (64 - (64 - s)) with s by lia.
  apply Z.mod_small. pose proof (Z.mod_pos_bound h (2 ^ s) ltac:(apply Z.pow_pos_nonneg; lia)) as Hm.
  revert Hm Hl. generalize (l / 2 ^ s) (h mod 2 ^ s). intros x y Hm Hl. rewrite (B_split s) by lia. nia.
Qed.

(** A vector whose limbs are the digits of [X]. *)
Lemma words_val_digits ws X :
  (forall i, (i < length ws)%nat -> uval (word_at ws i) = (X / B ^ Z.of_nat i) mod B) ->
  words_val ws = X mod B ^ Z.of_nat (length ws).
Proof.
  revert X. induction ws as [|w ws IH]; intros X H; cbn [words_val length].
  - by rewrite Z.pow_0_r, Z.mod_1_r.
  - rewrite (IH (X / B)).
    + pose proof (H 0%nat ltac:(simpl; lia)) as H0. unfold word_at in H0. cbn [nth] in H0.
      rewrite Z.pow_0_r, Z.div_1_r in H0. rewrite H0, Bpow_S, Z.rem_mul_r by (done || apply Bpow_pos). ring.
    + intros i Hi. pose proof (H (S i) ltac:(simpl; lia)) as Hs. unfold word_at in *. cbn [nth] in Hs.
      rewrite Hs, Bpow_S, Z.div_div by (done || apply Bpow_pos). done.
Qed.

Lemma shl_words_length u s : (0 < length u)%nat -> length (shl_words u s) = length u.
Proof. intros. unfold shl_words. cbn [length]. rewrite length_map, length_seq. lia. Qed.

Lemma digit_shl X s (i : nat) : 0 <= s <= 64 ->
  X * 2 ^ s / B ^ Z.of_nat (S i) = X / B ^ Z.of_nat i / 2 ^ (64 - s).
Proof.
  intros Hs. pose proof (Bpow_pos i). pose proof (Z.pow_pos_nonneg 2 s ltac:(lia) ltac:(lia)).
  pose proof (Z.pow_pos_nonneg 2 (64 - s) ltac:(lia) ltac:(lia)).
  rewrite Bpow_S, (B_split s Hs), Z.div_div, <- Z.mul_assoc, (Z.mul_comm X), Z.div_mul_cancel_l by lia.
  f_equal. rewrite <- (B_split s Hs). lia.
Qed.

Lemma shl_words_spec u s :
  0 <= s < 64 -> (0 < length u)%nat -> words_val (shl_words u s) = (words_val u * 2 ^ s) mod B ^ Z.of_nat (length u).
Proof.
  intros Hs Hu. rewrite <- (shl_words_length u s Hu). apply words_val_digits. rewrite shl_words_length by done.
  intros [|i] Hi; unfold shl_words, word_at at 1; cbn [nth].
  - rewrite uval_wrap, Z.shiftl_mul_pow2, word_at_val, Z.pow_0_r, !Z.div_1_r by lia.
    change (modulus 64) with B. by rewrite Z.mul_mod_idemp_l.
  - erewrite nth_lookup_Some by (rewrite list_lookup_fmap, lookup_seq_lt by lia; reflexivity).
    pose proof (words_val_nonneg u). rewrite shld_spec, !word_at_val by done.
    replace (1 + i - 1)%nat with i by lia. change (1 + i)%nat with (S i).
    rewrite digit_shl, funnel by lia.
    rewrite Bpow_S, (Z.mul_comm B), Z.div_div by (done || (apply Z.neq_sym, Z.lt_neq, Bpow_pos)). done.
Qed.

Lemma shr_words_spec N u s :
  0 <= s < 64 -> (0 < N)%nat -> words_val u < B ^ Z.of_nat N ->
  words_val (shr_words N u s) = words_val u / 2 ^ s /\ length (shr_words N u s) = N.
Proof.
  intros Hs HN Hu. pose proof (words_val_nonneg u). pose proof (Z.pow_pos_nonneg 2 s ltac:(lia) ltac:(lia)).
  assert (L : length (shr_words N u s) = N) by (unfold shr_words; rewrite length_app, length_map, length_seq; simpl; lia).
  split; [|done]. rewrite (words_val_digits _ (words_val u / 2 ^ s)), L.
  - apply Z.mod_small. split; [apply Z.div_pos; lia|]. apply Z.div_lt_upper_bound; [lia|]. nia.
  - intros i Hi. rewrite L in Hi. rewrite Z.div_div, (Z.mul_comm (2 ^ s)), <- Z.div_div by
      (try apply Bpow_pos; pose proof (Bpow_pos i); lia).
    replace s with (64 - (64 - s)) at 2 by lia. pose proof (Bpow_pos i).
    rewrite funnel by lia. replace (64 - (64 - s)) with s by lia.
    rewrite Z.div_div, (Z.mul_comm _ B), <- Bpow_S, <- !word_at_val by (done || lia).
    unfold word_at at 1, shr_words. destruct (decide (i < N - 1)%nat).
    + erewrite nth_lookup_Some by (rewrite lookup_app_l by (rewrite length_map, length_seq; lia);
        rewrite list_lookup_fmap, lookup_seq_lt by lia; reflexivity).
      rewrite shrd_spec by done. by replace (0 + i + 1)%nat with (S i) by lia.
    + replace i with (N - 1)%nat by lia. rewrite app_nth2, length_map, length_seq, Nat.sub_diag by (rewrite length_map, length_seq; lia).
      cbn [nth]. replace (S (N - 1)) with N by lia.
      rewrite (proj1 (words_val_below N u) Hu N) by lia. rewrite uval_wrap_0, Z.mul_0_l, Zmod_0_l, Z.shiftr_div_pow2 by lia.
      apply uval_wrap_small. pose proof (limb_range (word_at u (N - 1))).
      split; [apply Z.div_pos; lia|]. apply Z.div_lt_upper_bound; [lia|]. unfold modulus, B in *. simpl Z.of_N. nia.
Qed.

(** ** The whole division *)
Lemma count_significant_spec x (m := count_significant_words x) :
  (m <= length x)%nat /\ words_val x < B ^ Z.of_nat m /\ (m <> 0%nat -> word_at x (m - 1) <> #0) /\
  (m <> 0%nat -> B ^ Z.of_nat (m - 1) <= words_val x).
Proof.
  unfold count_significant_words in m.
  assert (H : forall i, words_val x < B ^ Z.of_nat i -> let k := count_significant_from i x in
    (k <= i)%nat /\ words_val x < B ^ Z.of_nat k /\ (k <> 0%nat -> word_at x (k - 1) <> #0)).
  { induction i as [|i IH]; intros Hi; cbn [count_significant_from]; [done|].
    destruct (Z.eqb_spec (word_at x i) 0) as [E|E].
    - destruct IH as (H1 & H2 & H3); [|split_and!; [lia|done|done]].
      apply words_val_below. intros j Hj. destruct (decide (j = i)) as [->|].
      + apply uval_inj. by rewrite E, uval_wrap_0.
      + apply (proj1 (words_val_below (S i) x) Hi). lia.
    - split_and!; [lia|done|]. intros _ E0. apply E. simpl in E0. rewrite Nat.sub_0_r in E0. by rewrite E0, uval_wrap_0. }
  destruct (H (length x) (words_val_bound x)) as (H1 & H2 & H3). fold m in H1, H2, H3. split_and!; [done..|].
  intros Hm. specialize (H3 Hm). destruct (Z_lt_le_dec (words_val x) (B ^ Z.of_nat (m - 1))) as [Hlt|]; [|done].
  destruct H3. exact (proj1 (words_val_below (m - 1) x) Hlt (m - 1)%nat ltac:(lia)).
Qed.

Lemma countl_zero64_spec (w : u64) : w <> #0 -> let s := countl_zero64 w in
  0 <= s < 64 /\ 2 ^ 63 <= w * 2 ^ s < B.
Proof.
  intros Hw. unfold countl_zero64. destruct (Z.eqb_spec w 0) as [E|E]; [by destruct Hw; apply uval_inj|].
  pose proof (limb_range w). assert (Hp : 0 < w) by lia. pose proof (Z.log2_spec w Hp) as [H1 H2].
  pose proof (Z.log2_nonneg w). assert (Z.log2 w < 64) by (apply Z.log2_lt_pow2; unfold B in *; lia).
  cbv zeta. split; [lia|].
  assert (E1 : 2 ^ 63 = 2 ^ Z.log2 w * 2 ^ (63 - Z.log2 w)) by (rewrite <- Z.pow_add_r by lia; f_equal; lia).
  assert (E2 : B = 2 ^ Z.succ (Z.log2 w) * 2 ^ (63 - Z.log2 w)) by (rewrite <- Z.pow_add_r by lia; unfold B; f_equal; lia).
  pose proof (Z.pow_pos_nonneg 2 (63 - Z.log2 w) ltac:(lia) ltac:(lia)). rewrite E1, E2. nia.
Qed.

(** The top limb of a number with [n] significant limbs. *)
Lemma top_limb ws (n : nat) : (0 < n)%nat -> words_val ws < B ^ Z.of_nat n ->
  words_val ws / B ^ Z.of_nat (n - 1) = word_at ws (n - 1).
Proof.
  intros Hn H. pose proof (words_val_nonneg ws). pose proof (Bpow_pos (n - 1)).
  rewrite word_at_val, Z.mod_small; [done|]. split; [apply Z.div_pos; lia|].
  apply Z.div_lt_upper_bound; [done|]. rewrite Z.mul_comm, <- Bpow_S. by replace (S (n - 1)) with n by lia.
Qed.

(** The shifted divisor still fits in its limbs, and its top bit is set. *)
Lemma divisor_normalised v (n := count_significant_words v) (s := countl_zero64 (word_at v (n - 1))) :
  n <> 0%nat ->
  0 <= s < 64 /\ words_val (take n (shl_words v s)) = words_val v * 2 ^ s /\
  words_val v * 2 ^ s < B ^ Z.of_nat n /\ B / 2 <= word_at (shl_words v s) (n - 1).
Proof.
  intros Hn. pose proof (count_significant_spec v) as (Hn1 & Hn2 & Hn3 & Hn4). fold n in Hn1, Hn2, Hn3, Hn4.
  specialize (Hn3 Hn). specialize (Hn4 Hn). pose proof (countl_zero64_spec _ Hn3) as [Hs Hw]. fold s in Hs, Hw.
  assert (H2s : 0 < 2 ^ s) by (apply Z.pow_pos_nonneg; lia). pose proof (Bpow_pos (n - 1)) as HB1.
  pose proof (top_limb v n ltac:(lia) Hn2) as Ht. set (P := B ^ Z.of_nat (n - 1)) in *.
  assert (EP : B ^ Z.of_nat n = B * P) by (unfold P; rewrite <- Bpow_S; do 2 f_equal; lia).
  pose proof (Z.div_mod (words_val v) P ltac:(lia)) as E. rewrite Ht in E.
  pose proof (Z.mod_pos_bound (words_val v) P HB1) as Hr. set (w := word_at v (n - 1)) in *.
  assert (Hfit : words_val v * 2 ^ s < B ^ Z.of_nat n).
  { assert (Hw1 : (w + 1) * 2 ^ s <= B).
    { pose proof (B_split s ltac:(lia)) as Eb. pose proof (Z.pow_pos_nonneg 2 (64 - s) ltac:(lia) ltac:(lia)).
      assert (w < 2 ^ (64 - s)) by nia. nia. }
    rewrite EP. assert (words_val v < (w + 1) * P) by lia. nia. }
  assert (Ev : words_val (shl_words v s) = words_val v * 2 ^ s).
  { rewrite shl_words_spec by lia. apply Z.mod_small. split; [nia|].
    eapply Z.lt_le_trans; [exact Hfit|]. apply Z.pow_le_mono_r; [done|lia]. }
  split_and!; [lia|lia| |done|].
  - rewrite words_val_take, Ev. apply Z.mod_small. nia.
  - rewrite <- Ev in Hfit. rewrite <- (top_limb _ n ltac:(lia) Hfit). fold P. rewrite Ev.
    apply Z.div_le_lower_bound; [done|]. change (B / 2) with (2 ^ 63). assert (w * P <= words_val v) by lia. nia.
Qed.

Lemma dividend_normalised u s :
  0 <= s < 64 -> (0 < length u)%nat ->
  words_val (shl_words u s ++ [ #(Z.shiftr (Z.shiftr (word_at u (length u - 1)) 1) (63 - s)) ]) = words_val u * 2 ^ s.
Proof.
  intros Hs Hu. pose proof (Bpow_pos (length u)). pose proof (words_val_nonneg u).
  rewrite words_val_app, shl_words_spec, shl_words_length by lia. cbn [words_val].
  pose proof (Z.div_mod (words_val u * 2 ^ s) (B ^ Z.of_nat (length u)) ltac:(lia)) as E.
  assert (Et : uval (wrap 64 (Z.shiftr (Z.shiftr (word_at u (length u - 1)) 1) (63 - s)))
    = words_val u * 2 ^ s / B ^ Z.of_nat (length u)); [|rewrite Et; lia].
  pose proof (div_low (word_at u (length u - 1)) s ltac:(lia)) as Hd.
  rewrite !Z.shiftr_div_pow2, Z.div_div, <- Z.pow_add_r by (lia || apply Z.pow_pos_nonneg; lia).
  replace (1 + (63 - s)) with (64 - s) by lia. rewrite uval_wrap_small.
  - replace (Z.of_nat (length u)) with (Z.of_nat (S (length u - 1))) by lia. rewrite digit_shl by lia. f_equal.
    symmetry. apply top_limb; [done|]. apply words_val_bound.
  - assert (2 ^ s < 2 ^ 64) by (apply Z.pow_lt_mono_r; lia). unfold modulus. simpl Z.of_N. lia.
Qed.

(** The Knuth branch. *)
Lemma udivrem_knuth u v (m := count_significant_words u) (n := count_significant_words v)
    (s := countl_zero64 (word_at v (n - 1))) :
  (length v <= length u)%nat -> (n <= m)%nat -> (2 <= n)%nat ->
  let u_norm := shl_words u s ++ [ #(Z.shiftr (Z.shiftr (word_at u (length u - 1)) 1) (63 - s)) ] in
  let '(u', quot) := knuth_div m u_norm n (shl_words v s) (replicate (length u) #0) in
  let rem := shr_words (length v) u' s in
  length quot = length u /\ length rem = length v /\
  words_val quot = words_val u / words_val v /\ words_val rem = words_val u mod words_val v.
Proof.
  intros Hl Hnm Hn. pose proof (count_significant_spec u) as (Hm1 & Hm2 & _ & _). fold m in Hm1, Hm2.
  pose proof (count_significant_spec v) as (Hn1 & _ & _ & Hn4). fold n in Hn1, Hn4. specialize (Hn4 ltac:(lia)).
  pose proof (divisor_normalised v ltac:(fold n; lia)) as (Hs & Etk & Hfit & Hnorm). fold n s in Hs, Etk, Hfit, Hnorm.
  pose proof (Bpow_pos (n - 1)) as HB1. assert (H2s : 0 < 2 ^ s) by (apply Z.pow_pos_nonneg; lia).
  cbv zeta. pose proof (dividend_normalised u s Hs ltac:(lia)) as Eun. set (un := shl_words u s ++ _) in *.
  assert (Lu : length un = S (length u)) by (unfold un; rewrite length_app, shl_words_length by lia; simpl; lia).
  assert (Lv : length (shl_words v s) = length v) by (apply shl_words_length; lia).
  unfold knuth_div. pose proof (knuth_loop_spec n (shl_words v s) (S (m - n)) un (replicate (length u) #0)) as H.
  specialize (H ltac:(lia) ltac:(lia) Hnorm ltac:(lia)). rewrite length_replicate in H.
  specialize (H ltac:(lia) ltac:(intros; apply word_at_zeros)).
  destruct (knuth_loop _ _ _ _) as [u' quot]. rewrite Etk, Eun, words_val_zeros in H.
  destruct H as (_ & L2 & E1 & E2).
  { assert (Hb : words_val u < words_val v * B ^ Z.of_nat (S (m - n))).
    { eapply Z.lt_le_trans; [exact Hm2|].
      replace (B ^ Z.of_nat m) with (B ^ Z.of_nat (n - 1) * B ^ Z.of_nat (S (m - n))) by (rewrite <- Bpow_add; do 2 f_equal; lia).
      apply Z.mul_le_mono_nonneg_r; [|done]. apply Z.lt_le_incl, Bpow_pos. }
    replace (words_val v * 2 ^ s * B ^ Z.of_nat (S (m - n))) with (words_val v * B ^ Z.of_nat (S (m - n)) * 2 ^ s) by ring.
    by apply Z.mul_lt_mono_pos_r. }
  rewrite Z.mul_mod_distr_r in E1 by lia. rewrite Z.div_mul_cancel_r in E2 by lia.
  pose proof (Z.mod_pos_bound (words_val u) (words_val v) ltac:(lia)) as Hr.
  assert (Hu' : words_val u' < B ^ Z.of_nat (length v)).
  { eapply Z.lt_le_trans; [|apply (Z.pow_le_mono_r B (Z.of_nat n)); [done|lia]]. rewrite E1. nia. }
  destruct (shr_words_spec (length v) u' s Hs ltac:(lia) Hu') as [E3 L3].
  split_and!; [done|done|lia|]. rewrite E3, E1. apply Z.div_mul. lia.
Qed.

Lemma words_val_one ws : words_val ws < B -> words_val ws = word_at ws 0.
Proof.
  intros H. rewrite word_at_val, Z.pow_0_r, Z.div_1_r. symmetry. apply Z.mod_small. split; [apply words_val_nonneg|done].
Qed.

(** The quotient and the remainder, for every number of limbs. *)
Lemma udivrem_spec u v :
  (0 < length v <= length u)%nat -> words_val v <> 0 ->
  exists q r, udivrem u v = Some (q, r) /\ length q = length u /\ length r = length v /\
    words_val q = words_val u / words_val v /\ words_val r = words_val u mod words_val v.
Proof.
  intros Hl Hv. unfold udivrem.
  pose proof (count_significant_spec u) as (Hm1 & Hm2 & Hm3 & Hm4).
  pose proof (count_significant_spec v) as (Hn1 & Hn2 & Hn3 & Hn4).
  set (m := count_significant_words u) in *. set (n := count_significant_words v) in *.
  pose proof (words_val_nonneg u). pose proof (words_val_nonneg v).
  destruct (Nat.eqb_spec n 0) as [E|En]; [rewrite E, Z.pow_0_r in Hn2; lia|].
  specialize (Hn4 En). destruct (Nat.ltb_spec m n) as [Hmn|Hmn].
  - assert (Hlt : words_val u < words_val v).
    { eapply Z.lt_le_trans; [exact Hm2|]. eapply Z.le_trans; [|exact Hn4]. apply Z.pow_le_mono_r; [done|lia]. }
    eexists _, _. split; [done|]. rewrite length_replicate, length_take, words_val_zeros, words_val_take, Z.div_small by lia.
    split_and!; [done|lia|done|]. rewrite !Z.mod_small; [done|lia|split; [done|]].
    eapply Z.lt_le_trans; [exact Hm2|]. apply Z.pow_le_mono_r; [done|lia].
  - assert (Hv1 : n = 1%nat -> words_val v = word_at v 0).
    { intros E. apply words_val_one. by rewrite E in Hn2. }
    destruct (Nat.eqb_spec m 1) as [Em|Em].
    + assert (n = 1%nat) by lia. rewrite Em in Hm2. rewrite (words_val_one u Hm2), Hv1 by done.
      rewrite Hv1 in Hv by done. pose proof (div_spec #0 (word_at u 0) (word_at v 0)) as Hd.
      pose proof (limb_range (word_at v 0)). rewrite uval_wrap_0 in Hd. specialize (Hd ltac:(lia)).
      destruct (div #0 (word_at u 0) (word_at v 0)) as [q0 r0]. destruct Hd as [Hd Hr].
      eexists _, _. split; [done|]. cbn [length words_val]. rewrite !length_replicate, !words_val_zeros, Z.mul_0_r, !Z.add_0_r.
      split_and!; [lia|lia|apply Z.div_unique with r0|apply Z.mod_unique with q0]; lia.
    + destruct (Nat.eqb_spec n 1) as [E1|E1].
      * pose proof (long_div_spec m u (word_at v 0) (replicate (length u) #0)) as H1.
        rewrite length_replicate, words_val_zeros in H1.
        specialize (H1 ltac:(lia) ltac:(pose proof (limb_range (word_at v 0)); specialize (Hv1 E1); lia)
          ltac:(lia) ltac:(intros; apply word_at_zeros) Hm2).
        destruct (long_div m u (word_at v 0) _) as [quot r]. destruct H1 as (L & Hr & E).
        eexists _, _. split; [done|]. cbn [length words_val]. rewrite length_replicate, words_val_zeros, Z.mul_0_r, Z.add_0_r.
        rewrite Hv1 by done.
        split_and!; [done|lia|apply Z.div_unique with r|apply Z.mod_unique with (words_val quot)]; lia.
      * pose proof (udivrem_knuth u v ltac:(lia) Hmn ltac:(fold n; lia)) as Hk. fold m n in Hk. cbv zeta in Hk.
        destruct (knuth_div _ _ _ _ _) as [u' quot]. destruct Hk as (L1 & L2 & E3 & E4).
        eexists _, _. split; [done|]. done.
Qed.
