(* ===== verification/UInt256Ops.v ===== *)
(** * The other operations on 256-bit integers

    Models the rest of src/category/core/runtime/uint256.hpp that the virtual
    machine uses: the truncated product, modular and signed arithmetic, exponentiation,
    the shifts, sign extension, byte selection and the counts of bits, limb by limb as
    the code computes them.  The theorems give each its meaning as an integer:
    [s256] reads a word as a signed number. *)
From S2P Require Import Prelude UInt256 UInt256Div.
Import portable_div.

(** The limb [x[i]]. *)
Definition limb (x : u256) (i : nat) : u64 := word_at (as_words x) i.

(** ** Products and remainders *)
Definition truncating_mul (x y : u256) : u256 :=
  of_words (portable.truncating_mul 4 (as_words x) (as_words y)).

Definition udivrem256 (u v : u256) : option (u256 * u256) :=
  match udivrem (as_words u) (as_words v) with
  | Some (quot, rem) => Some (of_words quot, of_words rem)
  | None => None
  end.

Definition op_div (x y : u256) : option u256 := fst <$> udivrem256 x y.
Definition op_mod (x y : u256) : option u256 := snd <$> udivrem256 x y.

(** The carry chain of the slow path of [addmod]. *)
Definition add_words (x y : u256) : words :=
  let '(s0, c0) := portable.addc (limb x 0) (limb y 0) false in
  let '(s1, c1) := portable.addc (limb x 1) (limb y 1) c0 in
  let '(s2, c2) := portable.addc (limb x 2) (limb y 2) c1 in
  let '(s3, c3) := portable.addc (limb x 3) (limb y 3) c2 in
  [s0; s1; s2; s3; #(b2z c3)].

Definition addmod (x y mod_ : u256) : option u256 :=
  if negb (limb mod_ 3 =? 0) && (limb x 3 <=? limb mod_ 3) && (limb y 3 <=? limb mod_ 3) then
    let '(x_sub, x_borrow) := subb x mod_ in
    let x_norm := if x_borrow : bool then x else x_sub in
    let '(y_sub, y_borrow) := subb y mod_ in
    let y_norm := if y_borrow : bool then y else y_sub in
    let '(xy_sum, xy_carry) := addc x_norm y_norm in
    let '(rem, rem_borrow) := subb xy_sum mod_ in
    Some (if xy_carry || negb rem_borrow then rem else xy_sum)
  else
    match udivrem (add_words x y) (as_words mod_) with
    | Some (_, rem) => Some (of_words rem)
    | None => None
    end.

Definition mulmod (u v mod_ : u256) : option u256 :=
  match udivrem (portable.truncating_mul 8 (as_words u) (as_words v)) (as_words mod_) with
  | Some (_, rem) => Some (of_words rem)
  | None => None
  end.

(** [operator-()], [operator~()]. *)
Definition op_neg (x : u256) : u256 := fst (subb #0 x).
Definition op_not (x : u256) : u256 := of_words (map (fun w : u64 => #(Z.lnot w)) (as_words x)).

Definition neg_bit (x : u256) : bool := negb (Z.land (limb x 3) (Z.shiftl 1 63) =? 0).

Definition sdivrem (x y : u256) : option (u256 * u256) :=
  let x_neg := neg_bit x in
  let y_neg := neg_bit y in
  let x_abs := if x_neg then op_neg x else x in
  let y_abs := if y_neg then op_neg y else y in
  let quot_neg := xorb x_neg y_neg in
  match udivrem256 x_abs y_abs with
  | Some (quot, rem) => Some (if quot_neg then op_neg quot else quot, if x_neg then op_neg rem else rem)
  | None => None
  end.

Definition slt (x y : u256) : bool :=
  let x_neg := negb (Z.shiftr (limb x 3) 63 =? 0) in
  let y_neg := negb (Z.shiftr (limb y 3) 63 =? 0) in
  let diff := xorb x_neg y_neg in
  (negb diff && u256_ltb x y) || (x_neg && negb y_neg).

(** ** Bitwise operators *)
Definition bitwise (f : Z -> Z -> Z) (x y : u256) : u256 :=
  of_words [ #(f (limb x 0) (limb y 0)); #(f (limb x 1) (limb y 1)); #(f (limb x 2) (limb y 2)); #(f (limb x 3) (limb y 3)) ].
Definition op_and := bitwise Z.land.
Definition op_or := bitwise Z.lor.
Definition op_xor := bitwise Z.lxor.

Definition op_eqb (x y : u256) : bool :=
  Z.lor (Z.lor (Z.lxor (limb x 0) (limb y 0)) (Z.lxor (limb x 1) (limb y 1)))
    (Z.lor (Z.lxor (limb x 2) (limb y 2)) (Z.lxor (limb x 3) (limb y 3))) =? 0.

(** [operator bool]. *)
Definition to_bool (x : u256) : bool :=
  negb (Z.lor (Z.lor (limb x 0) (limb x 1)) (Z.lor (limb x 2) (limb x 3)) =? 0).

(** ** Shifts *)
Definition shl64 (x : u256) (shift0 : u64) : u256 :=
  if 256 <=? shift0 then #0
  else
    let shift : Z := shift0 in
    if shift <? 128 then
      if shift <? 64 then
        of_words [ #(Z.shiftl (limb x 0) shift); shld (limb x 1) (limb x 0) shift;
                   shld (limb x 2) (limb x 1) shift; shld (limb x 3) (limb x 2) shift ]
      else
        let shift := Z.land shift 63 in
        of_words [ #0; #(Z.shiftl (limb x 0) shift); shld (limb x 1) (limb x 0) shift; shld (limb x 2) (limb x 1) shift ]
    else if shift <? 192 then
      let shift := Z.land shift 127 in
      of_words [ #0; #0; #(Z.shiftl (limb x 0) shift); shld (limb x 1) (limb x 0) shift ]
    else
      let shift := Z.land shift 63 in
      of_words [ #0; #0; #0; #(Z.shiftl (limb x 0) shift) ].

Definition op_shl (x shift : u256) : u256 :=
  if negb (Z.lor (Z.lor (limb shift 3) (limb shift 2)) (limb shift 1) =? 0) then #0 else shl64 x (limb shift 0).

Inductive RightShiftType := Arithmetic | Logical.

Definition shift_right (type : RightShiftType) (x shift0 : u256) : u256 :=
  let fill : u64 :=
    match type with
    | Logical => #0
    | Arithmetic => if Z.land (limb x 3) (2 ^ 63) =? 0 then #0 else #(-1)
    end in
  if negb (Z.lor (Z.lor (Z.lor (limb shift0 3) (limb shift0 2)) (limb shift0 1)) (b2z (256 <=? limb shift0 0)) =? 0)
  then of_words [fill; fill; fill; fill]
  else
    let shift : Z := limb shift0 0 in
    let tail : u64 :=
      match type with
      | Logical => #(Z.shiftr (limb x 3) (Z.land shift 63))
      | Arithmetic => shrd fill (limb x 3) (Z.land shift 63)
      end in
    if shift <? 128 then
      if shift <? 64 then
        of_words [shrd (limb x 1) (limb x 0) shift; shrd (limb x 2) (limb x 1) shift; shrd (limb x 3) (limb x 2) shift; tail]
      else
        let shift := Z.land shift 63 in
        of_words [shrd (limb x 2) (limb x 1) shift; shrd (limb x 3) (limb x 2) shift; tail; fill]
    else if shift <? 192 then
      let shift := Z.land shift 127 in
      of_words [shrd (limb x 3) (limb x 2) shift; tail; fill; fill]
    else of_words [tail; fill; fill; fill].

Definition op_shr (x shift : u256) : u256 := shift_right Logical x shift.
Definition sar (shift x : u256) : u256 := shift_right Arithmetic x shift.

(** ** Exponentiation by squaring, limb by limb of the exponent *)
Fixpoint exp_bits (significant_bits : nat) (word_exp : Z) (result base : u256) : u256 * u256 :=
  match significant_bits with
  | O => (result, base)
  | S bits =>
      let result := if Z.odd word_exp then truncating_mul result base else result in
      exp_bits bits (Z.shiftr word_exp 1) result (truncating_mul base base)
  end.

Fixpoint exp_words (cnt w sig_words : nat) (exponent : u256) (result base : u256) : u256 :=
  match cnt with
  | O => result
  | S cnt' =>
      let word_exp := limb exponent w in
      let significant_bits := if (w + 1 =? sig_words)%nat then Z.to_nat (64 - countl_zero64 word_exp) else 64%nat in
      let '(result, base) := exp_bits significant_bits word_exp result base in
      exp_words cnt' (S w) sig_words exponent result base
  end.

Definition exp (base exponent : u256) : u256 :=
  let result : u256 := #1 in
  if op_eqb base #2 then op_shl result exponent
  else
    let sig_words := count_significant_words (as_words exponent) in
    exp_words sig_words 0 sig_words exponent result base.

(** ** Bytes and bits *)
Definition signextend (byte_index_256 x : u256) : u256 :=
  if negb (u256_ltb byte_index_256 #31) then x
  else
    let byte_index : Z := limb byte_index_256 0 in
    let word_index := Z.to_nat (Z.shiftr byte_index 3) in
    let word := limb x word_index in
    let bit_index := Z.land byte_index 7 * 8 in
    (* the byte at [bit_index], as a signed number *)
    let b : u8 := #(Z.shiftr word bit_index) in
    let signed_byte := if b <? 128 then uval b else b - 256 in
    let upper : u64 := #(Z.shiftl (#signed_byte : u64) bit_index) in
    let signed_word := if word <? 2 ^ 63 then uval word else word - 2 ^ 64 in
    let lower : u64 := #(Z.land signed_word (Z.lnot (Z.shiftr (- 2 ^ 63) (63 - bit_index)))) in
    let sign_bits : u64 := #(Z.shiftr signed_byte 63) in
    of_words (map (fun j => if (j <? word_index)%nat then limb x j
                            else if (j =? word_index)%nat then #(Z.lor upper lower) else sign_bits) (seq 0 4)).

Definition byte (byte_index_256 x : u256) : u256 :=
  if negb (u256_ltb byte_index_256 #32) then #0
  else
    let byte_index := 31 - limb byte_index_256 0 in
    let word := limb x (Z.to_nat (Z.shiftr byte_index 3)) in
    let bit_index := Z.shiftl (Z.land byte_index 7) 3 in
    let b : u8 := #(Z.shiftr word bit_index) in
    of_words [ #b; #0; #0; #0 ].

(** [countl_zero]; the loop stops at the first limb that is not zero. *)
Fixpoint countl_zero_from (i : nat) (cnt : Z) (x : u256) : Z :=
  match i with
  | O => cnt
  | S i' =>
      let cnt := cnt + countl_zero64 (limb x i') in
      if cnt =? Z.of_nat (4 - i') * 64 then countl_zero_from i' cnt x else cnt
  end.
Definition countl_zero (x : u256) : Z := countl_zero_from 4 0 x.

Definition count_significant_bytes (x : u256) : Z :=
  let significant_words := count_significant_words (as_words x) in
  if (significant_words =? 0)%nat then 0
  else
    let leading_word := limb x (significant_words - 1) in
    (64 - countl_zero64 leading_word + 7) / 8 + (Z.of_nat significant_words - 1) * 8.

(** ** Digits *)
Definition dig (X : Z) (i : nat) : Z := (X / B ^ Z.of_nat i) mod B.

Lemma dig_range X i : 0 <= dig X i < B.
Proof. apply Z.mod_pos_bound. done. Qed.

Lemma limb_dig (x : u256) i : limb x i = dig x i :> Z.
Proof. unfold limb. by rewrite word_at_val, words_val_as_words. Qed.

Lemma of_words_dig (a b c d : u64) X :
  uval a = dig X 0 -> uval b = dig X 1 -> uval c = dig X 2 -> uval d = dig X 3 -> of_words [a; b; c; d] = #X.
Proof.
  intros Ha Hb Hc Hd. apply uval_inj. rewrite uval_of_words by done.
  rewrite (words_val_digits _ X); [done|]. intros i Hi. do 4 (destruct i as [|i]; [done|]). simpl in Hi. lia.
Qed.

Lemma of_words_val ws X : length ws = 4%nat -> words_val ws = X -> of_words ws = #X.
Proof. intros L <-. done. Qed.

Lemma dig_high (x : u256) i : (4 <= i)%nat -> dig x i = 0.
Proof.
  intros Hi. unfold dig. rewrite Z.div_small; [done|]. pose proof (uword_range x).
  assert (modulus 256 <= B ^ Z.of_nat i) by (change (modulus 256) with (B ^ 4); apply Z.pow_le_mono_r; [done|lia]). lia.
Qed.

(** ** The truncated product *)
Lemma mul_row_mod R x yj i j carry res :
  length res = R ->
  let '(res', carry') := portable.mul_row R x yj i j carry res in
  length res' = R /\
  (B ^ Z.of_nat R | words_val res' + carry' * B ^ Z.of_nat (i + j + length x)
    - (words_val res + (carry + words_val x * yj) * B ^ Z.of_nat (i + j))) /\
  (forall k, (i + j + length x <= k)%nat -> word_at res' k = word_at res k).
Proof.
  revert i carry res. induction x as [|xi x IH]; intros i carry res HR; cbn [portable.mul_row words_val length].
  - split; [done|]. split; [|done]. rewrite Nat.add_0_r. exists 0. ring.
  - destruct (Nat.ltb_spec (i + j) R) as [Hl|Hl].
    + pose proof (portable_mulx_spec xi yj) as Hm. destruct (portable.mulx xi yj) as [hi lo].
      pose proof (portable_addc_spec lo (word_at res (i + j)) false) as H0.
      destruct (portable.addc lo _ false) as [s0 c0].
      pose proof (portable_addc_spec s0 carry false) as H1. destruct (portable.addc s0 carry false) as [s1 c1].
      pose proof (portable_addc_spec hi #(b2z c0) c1) as H2. destruct (portable.addc hi _ c1) as [s2 c2].
      pose proof (mul_digit _ _ _ _ _ _ _ _ _ _ _ _ Hm H0 H1 H2) as Hd.
      specialize (IH (S i) s2 (<[(i + j)%nat:=s1]> res)). rewrite length_insert in IH. specialize (IH HR).
      destruct (portable.mul_row R x yj (S i) j s2 _) as [res' carry']. destruct IH as (L & [z Hz] & Ho).
      split_and!; [done| |].
      * exists z. rewrite <- Hz, words_val_insert by lia.
        replace (S i + j + length x)%nat with (i + j + S (length x))%nat by lia.
        replace (S i + j)%nat with (S (i + j)) by lia. rewrite Bpow_S.
        transitivity (words_val res' + carry' * B ^ Z.of_nat (i + j + S (length x)) - words_val res
          - (xi * yj + word_at res (i + j) + carry - word_at res (i + j) + B * words_val x * yj) * B ^ Z.of_nat (i + j)); [ring|].
        rewrite <- Hd. ring.
      * intros k Hk. rewrite Ho by lia. apply word_at_insert_ne. lia.
    + split; [done|]. split; [|done]. replace (i + j)%nat with (R + (i + j - R))%nat by lia.
      rewrite <- Nat.add_assoc, !Bpow_add.
      exists (carry * B ^ Z.of_nat (i + j - R + S (length x)) - (carry + (xi + B * words_val x) * yj) * B ^ Z.of_nat (i + j - R)).
      rewrite (Bpow_add (i + j - R)). ring.
Qed.

Lemma mul_rows_mod R x y j res :
  length res = R -> (forall k, (j + length x <= k)%nat -> word_at res k = #0) ->
  length (portable.mul_rows R x y j res) = R /\
  (B ^ Z.of_nat R | words_val (portable.mul_rows R x y j res)
    - (words_val res + words_val x * words_val y * B ^ Z.of_nat j)).
Proof.
  revert j res. induction y as [|yj y IH]; intros j res HR H0; cbn [portable.mul_rows words_val].
  - split; [done|]. exists 0. ring.
  - pose proof (mul_row_mod R x yj 0 j #0 res HR) as Hrow.
    destruct (portable.mul_row R x yj 0 j #0 res) as [res1 carry]. destruct Hrow as (L1 & [z1 H1] & Ho). cbn [Nat.add] in *.
    set (res2 := if (j + length x <? R)%nat then _ else _).
    assert (H2 : length res2 = R /\ (forall k, (S j + length x <= k)%nat -> word_at res2 k = #0) /\
      (B ^ Z.of_nat R | words_val res2 - (words_val res1 + carry * B ^ Z.of_nat (j + length x)))).
    { unfold res2. destruct (Nat.ltb_spec (j + length x) R) as [Hl|Hl].
      - rewrite length_insert. split_and!; [done| |].
        + intros k Hk. rewrite word_at_insert_ne, Ho by lia. apply H0. lia.
        + exists 0. rewrite words_val_insert, Ho, H0, uval_wrap_0 by lia. ring.
      - split_and!; [done| |].
        + intros k Hk. rewrite Ho by lia. apply H0. lia.
        + replace (j + length x)%nat with (R + (j + length x - R))%nat by lia. rewrite Bpow_add.
          exists (- carry * B ^ Z.of_nat (j + length x - R)). ring. }
    destruct H2 as (L2 & Hz & [z2 H2]). destruct (IH (S j) res2 L2 Hz) as [L [z3 H3]]. split; [done|].
    exists (z1 + z2 + z3). rewrite !Z.mul_add_distr_r, <- H1, <- H2, <- H3, Bpow_S, uval_wrap_0. ring.
Qed.

Lemma truncating_mul_mod R x y :
  length (portable.truncating_mul R x y) = R /\
  words_val (portable.truncating_mul R x y) = (words_val x * words_val y) mod B ^ Z.of_nat R.
Proof.
  unfold portable.truncating_mul.
  destruct (mul_rows_mod R x y 0 (replicate R #0)) as [L [z H]]; [apply length_replicate|intros; apply word_at_zeros|].
  split; [done|]. rewrite words_val_zeros, Z.pow_0_r in H.
  pose proof (words_val_bound (portable.mul_rows R x y 0 (replicate R #0))) as Hb. rewrite L in Hb.
  apply Z.mod_unique with (- z); [left; split; [apply words_val_nonneg|done]|]. lia.
Qed.

Lemma truncating_mul_eq x y : truncating_mul x y = #(x * y).
Proof.
  apply uval_inj. unfold truncating_mul. destruct (truncating_mul_mod 4 (as_words x) (as_words y)) as [L E].
  rewrite uval_of_words by done. by rewrite E, !words_val_as_words.
Qed.

(** ** Division and modular arithmetic *)
Lemma udivrem_words u (v : u256) :
  (4 <= length u)%nat -> uval v <> 0 ->
  exists q r, udivrem u (as_words v) = Some (q, r) /\ length q = length u /\ length r = 4%nat /\
    words_val q = words_val u / v /\ words_val r = words_val u mod v.
Proof. intros Hl Hv. rewrite <- (words_val_as_words v). apply udivrem_spec; [simpl; lia|]. by rewrite words_val_as_words. Qed.

Lemma udivrem256_eq (u v : u256) : uval v <> 0 -> udivrem256 u v = Some (#(u / v), #(u mod v)).
Proof.
  intros Hv. unfold udivrem256. destruct (udivrem_words (as_words u) v) as (q & r & -> & L1 & L2 & E1 & E2); [done..|].
  rewrite words_val_as_words in E1, E2. by rewrite (of_words_val q _ L1 E1), (of_words_val r _ L2 E2).
Qed.

Lemma add_words_val x y : words_val (add_words x y) = x + y /\ length (add_words x y) = 5%nat.
Proof.
  pose proof (words_val_as_words x) as Hx. pose proof (words_val_as_words y) as Hy.
  rewrite as_words_at in Hx, Hy. unfold add_words, limb. chain portable_addc_spec. cbn [words_val] in *.
  split; [|done]. assert (Hc : forall b, uval (wrap 64 (b2z b)) = b2z b) by by intros [].
  rewrite Hc. cbn [b2z] in *. lia.
Qed.

Lemma mulmod_eq (u v m : u256) : uval m <> 0 -> mulmod u v m = Some #((u * v) mod m).
Proof.
  intros Hm. unfold mulmod. destruct (truncating_mul_mod 8 (as_words u) (as_words v)) as [L E].
  destruct (udivrem_words (portable.truncating_mul 8 (as_words u) (as_words v)) m) as (q & r & -> & _ & L2 & _ & E2); [lia|done|].
  rewrite E, !words_val_as_words in E2. rewrite (of_words_val r _ L2 E2). do 3 f_equal. apply Z.mod_small.
  pose proof (uword_range u). pose proof (uword_range v). change (B ^ Z.of_nat 8) with (modulus 256 * modulus 256). nia.
Qed.

Lemma limb3 (x : u256) : limb x 3 = x / B ^ 3 :> Z.
Proof.
  rewrite limb_dig. unfold dig. apply Z.mod_small. pose proof (uword_range x) as H.
  change (modulus 256) with (B * B ^ 3) in H. split; [apply Z.div_pos; [lia|done]|]. apply Z.div_lt_upper_bound; [done|]. lia.
Qed.

(** What a conditional subtraction leaves. *)
Lemma cond_sub (x m : u256) : x < 2 * m ->
  let '(d, b) := subb x m in uval (if b : bool then x else d) = x mod m.
Proof.
  intros H. pose proof (subb_spec x m) as Hs. destruct (subb x m) as [d b].
  pose proof (uword_range x). pose proof (uword_range m). pose proof (uword_range d).
  destruct b; cbn [b2z] in Hs.
  - symmetry. apply Z.mod_small. lia.
  - apply Z.mod_unique with 1; lia.
Qed.

Lemma addmod_eq (x y m : u256) : uval m <> 0 -> addmod x y m = Some #((x + y) mod m).
Proof.
  intros Hm. unfold addmod. pose proof (uword_range m).
  assert (Hlt : forall z : u256, limb m 3 <> 0 :> Z -> limb z 3 <= limb m 3 -> z < 2 * m).
  { intros z. rewrite !limb3. intros H0 Hle. pose proof (Z.div_mod m (B ^ 3)). pose proof (Z.div_mod z (B ^ 3)).
    pose proof (Z.mod_pos_bound m (B ^ 3) ltac:(done)). pose proof (Z.mod_pos_bound z (B ^ 3) ltac:(done)).
    assert (0 <= m / B ^ 3) by (apply Z.div_pos; [lia|done]). unfold B in *. lia. }
  destruct (negb _ && _ && _) eqn:E.
  - apply andb_true_iff in E as [[E1%negb_true_iff%Z.eqb_neq E2%Z.leb_le]%andb_true_iff E3%Z.leb_le].
    pose proof (cond_sub x m (Hlt x E1 E2)) as Hx. destruct (subb x m) as [xs xb].
    pose proof (cond_sub y m (Hlt y E1 E3)) as Hy. destruct (subb y m) as [ys yb].
    set (xn := if xb then x else xs) in *. set (yn := if yb then y else ys) in *.
    pose proof (addc_spec xn yn) as Ha. destruct (addc xn yn) as [s c].
    pose proof (subb_spec s m) as Hs. destruct (subb s m) as [rem rb]. f_equal. apply uval_inj.
    pose proof (Z.mod_pos_bound x m ltac:(lia)). pose proof (Z.mod_pos_bound y m ltac:(lia)).
    pose proof (Z.mod_pos_bound (x + y) m ltac:(lia)).
    rewrite uval_wrap_small by lia. rewrite Z.add_mod, <- Hx, <- Hy by done. rewrite <- Hx, <- Hy in *.
    pose proof (uword_range s). pose proof (uword_range rem).
    destruct c, rb; cbn [b2z orb negb] in *; first [apply Z.mod_unique with 0; lia|apply Z.mod_unique with 1; lia].
  - clear E Hlt. destruct (add_words_val x y) as [Ev L].
    destruct (udivrem_words (add_words x y) m) as (q & r & -> & _ & L2 & _ & E2); [lia|done|].
    rewrite Ev in E2. by rewrite (of_words_val r _ L2 E2).
Qed.

(** ** Signed arithmetic *)
Definition s256 (x : u256) : Z := if x <? 2 ^ 255 then x else x - 2 ^ 256.

Lemma op_neg_eq x : op_neg x = #(- x).
Proof.
  unfold op_neg. pose proof (subb_spec #0 x) as H. destruct (subb #0 x) as [d b]. cbn [fst]. rewrite uval_wrap_0 in H.
  apply uval_inj. rewrite uval_wrap. pose proof (uword_range d). apply Z.mod_unique with (- b2z b); [lia|].
  destruct b; cbn [b2z] in *; lia.
Qed.

Lemma land_pow2_eqb l n : 0 <= n -> (Z.land l (2 ^ n) =? 0) = negb (Z.testbit l n).
Proof.
  intros Hn. assert (E : Z.land l (2 ^ n) = if Z.testbit l n then 2 ^ n else 0).
  { apply Z.bits_inj'. intros i Hi. rewrite Z.land_spec, Z.pow2_bits_eqb by done.
    destruct (Z.eqb_spec n i) as [<-|Hne].
    - destruct (Z.testbit l n); [by rewrite Z.pow2_bits_true|by rewrite Z.bits_0].
    - rewrite andb_false_r. destruct (Z.testbit l n); [by rewrite Z.pow2_bits_false|by rewrite Z.bits_0]. }
  rewrite E. destruct (Z.testbit l n); [|done]. pose proof (Z.pow_pos_nonneg 2 n ltac:(lia) Hn). by destruct (Z.eqb_spec (2 ^ n) 0); [lia|].
Qed.

Lemma top_half (x : u256) : Z.shiftr (limb x 3) 63 = if x <? 2 ^ 255 then 0 else 1.
Proof.
  rewrite limb3, Z.shiftr_div_pow2, Z.div_div by done. pose proof (uword_range x) as Hx. change (modulus 256) with (2 ^ 256) in Hx.
  change (B ^ 3 * 2 ^ 63) with (2 ^ 255). destruct (Z.ltb_spec x (2 ^ 255)); [apply Z.div_small; lia|].
  symmetry. apply Z.div_unique with (x - 2 ^ 255); lia.
Qed.

Lemma top_bit (x : u256) : Z.testbit (limb x 3) 63 = negb (x <? 2 ^ 255).
Proof. rewrite Z.testbit_odd, top_half. by destruct (_ <? _). Qed.

Lemma neg_bit_eq x : neg_bit x = negb (x <? 2 ^ 255).
Proof. unfold neg_bit. change (Z.shiftl 1 63) with (2 ^ 63). by rewrite land_pow2_eqb, top_bit, negb_involutive. Qed.

Lemma s256_range x : - 2 ^ 255 <= s256 x < 2 ^ 255.
Proof. unfold s256. pose proof (uword_range x) as H. change (modulus 256) with (2 ^ 256) in H. destruct (Z.ltb_spec x (2 ^ 255)); lia. Qed.

Lemma wrap_s256 x : #(s256 x) = x.
Proof.
  apply uval_inj. rewrite uval_wrap. unfold s256. pose proof (uword_range x). destruct (x <? 2 ^ 255).
  - by apply Z.mod_small.
  - change (2 ^ 256) with (modulus 256). rewrite <- (Z.mod_small x (modulus 256)) at 2 by done.
    replace (x - modulus 256) with (x + (-1) * modulus 256) by lia. apply Z_mod_plus_full.
Qed.

(** The absolute value, as an unsigned number. *)
Lemma abs_word x : uval (if neg_bit x then op_neg x else x) = Z.abs (s256 x).
Proof.
  rewrite neg_bit_eq, op_neg_eq. unfold s256. pose proof (uword_range x) as H.
  change (modulus 256) with (2 ^ 256) in H. destruct (Z.ltb_spec x (2 ^ 255)); cbn [negb]; [lia|].
  rewrite uval_wrap. change (modulus 256) with (2 ^ 256). rewrite Z.abs_neq by lia.
  symmetry. apply Z.mod_unique with (-1); lia.
Qed.

Lemma sdivrem_eq (x y : u256) : uval y <> 0 ->
  sdivrem x y = Some (#(Z.quot (s256 x) (s256 y)), #(Z.rem (s256 x) (s256 y))).
Proof.
  intros Hy. unfold sdivrem. pose proof (abs_word x) as Hxa. pose proof (abs_word y) as Hya.
  set (xa := if neg_bit x then _ else x) in *. set (ya := if neg_bit y then _ else y) in *.
  assert (Hy0 : s256 y <> 0).
  { intros E. pose proof (wrap_s256 y) as Hw. rewrite E in Hw. by rewrite <- Hw, uval_wrap_0 in Hy. }
  assert (Hxs : neg_bit x = (s256 x <? 0)).
  { rewrite neg_bit_eq. unfold s256. pose proof (uword_range x) as H. change (modulus 256) with (2 ^ 256) in H.
    destruct (Z.ltb_spec x (2 ^ 255)); symmetry; [apply Z.ltb_ge|apply Z.ltb_lt]; lia. }
  assert (Hys : neg_bit y = (s256 y <? 0)).
  { rewrite neg_bit_eq. unfold s256. pose proof (uword_range y) as H. change (modulus 256) with (2 ^ 256) in H.
    destruct (Z.ltb_spec y (2 ^ 255)); symmetry; [apply Z.ltb_ge|apply Z.ltb_lt]; lia. }
  rewrite udivrem256_eq by lia. rewrite Hxa, Hya, Hxs, Hys. generalize (s256 x) (s256 y) Hy0. clear. intros a b Hb.
  rewrite !op_neg_eq.
  assert (Hn : forall z, (#(- (#z : u256)) : u256) = #(- z)).
  { intros z. apply uval_inj. rewrite !uval_wrap. by rewrite <- (Z.sub_0_l (_ mod _)), Zminus_mod_idemp_r. }
  assert (Hq : Z.quot a b = if xorb (a <? 0) (b <? 0) then - (Z.abs a / Z.abs b) else Z.abs a / Z.abs b).
  { rewrite Z.quot_div by done. destruct (Z.ltb_spec a 0), (Z.ltb_spec b 0); cbn [xorb]; destruct (Z.eq_dec a 0) as [->|];
      rewrite ?Z.sgn_neg, ?Z.sgn_pos, ?Zdiv_0_l by lia; lia. }
  assert (Hr : Z.rem a b = if a <? 0 then - (Z.abs a mod Z.abs b) else Z.abs a mod Z.abs b).
  { rewrite Z.rem_mod by done. destruct (Z.ltb_spec a 0); destruct (Z.eq_dec a 0) as [->|];
      rewrite ?Z.sgn_neg, ?Z.sgn_pos, ?Zmod_0_l by lia; lia. }
  rewrite Hq, Hr. destruct (xorb _ _), (a <? 0); rewrite ?Hn; done.
Qed.

Lemma slt_eq x y : slt x y = (s256 x <? s256 y).
Proof.
  unfold slt. rewrite !top_half, u256_ltb_spec. pose proof (uword_range x) as Hx. pose proof (uword_range y) as Hy.
  change (modulus 256) with (2 ^ 256) in *. unfold s256.
  destruct (Z.ltb_spec x (2 ^ 255)), (Z.ltb_spec y (2 ^ 255)); cbn [Z.eqb negb xorb andb orb]; rewrite ?orb_false_r;
    symmetry; try (apply Z.ltb_lt; lia); try (apply Z.ltb_ge; lia).
  - done.
  - destruct (Z.ltb_spec x y); [apply Z.ltb_lt|apply Z.ltb_ge]; lia.
Qed.

(** ** Shifts *)
Lemma dig_S X i : (X / B ^ Z.of_nat i / B) mod B = dig X (S i).
Proof. unfold dig. rewrite Z.div_div, (Z.mul_comm _ B), <- Bpow_S by (done || (pose proof (Bpow_pos i); lia)). done. Qed.

Lemma pow2_limbs (k : nat) s : 0 <= s -> 2 ^ (64 * Z.of_nat k + s) = B ^ Z.of_nat k * 2 ^ s.
Proof. intros Hs. rewrite Z.pow_add_r, Z.pow_mul_r by lia. done. Qed.

Lemma dig_shr X (k : nat) s i : 0 <= s < 64 ->
  dig (X / 2 ^ (64 * Z.of_nat k + s)) i = (dig X (S (i + k)) * 2 ^ (64 - s)) mod B + dig X (i + k) / 2 ^ s.
Proof.
  intros Hs. pose proof (Bpow_pos i). pose proof (Bpow_pos k). pose proof (Bpow_pos (i + k)).
  pose proof (Z.pow_pos_nonneg 2 s ltac:(lia) ltac:(lia)).
  rewrite <- dig_S. unfold dig at 1 2. rewrite pow2_limbs, Z.div_div by nia.
  replace (B ^ Z.of_nat k * 2 ^ s * B ^ Z.of_nat i) with (B ^ Z.of_nat (i + k) * 2 ^ s) by (rewrite Bpow_add; ring).
  rewrite <- Z.div_div by lia. pose proof (funnel (X / B ^ Z.of_nat (i + k)) (64 - s) ltac:(lia)) as F.
  by replace (64 - (64 - s)) with s in F by lia.
Qed.

Lemma dig_shl_low X (k : nat) s i : 0 <= s -> (i < k)%nat -> dig (X * 2 ^ (64 * Z.of_nat k + s)) i = 0.
Proof.
  intros Hs Hi. unfold dig. rewrite pow2_limbs by done. replace k with (i + S (k - i - 1))%nat by lia.
  rewrite Bpow_add, Bpow_S. pose proof (Bpow_pos i).
  replace (X * (B ^ Z.of_nat i * (B * B ^ Z.of_nat (k - i - 1)) * 2 ^ s))
    with (X * B ^ Z.of_nat (k - i - 1) * 2 ^ s * B * B ^ Z.of_nat i) by ring.
  rewrite Z.div_mul by lia. by apply Z.mod_mul.
Qed.

Lemma dig_shl_first X (k : nat) s : 0 <= s -> dig (X * 2 ^ (64 * Z.of_nat k + s)) k = (dig X 0 * 2 ^ s) mod B.
Proof.
  intros Hs. unfold dig. rewrite pow2_limbs, Z.pow_0_r, Z.div_1_r by done. pose proof (Bpow_pos k).
  replace (X * (B ^ Z.of_nat k * 2 ^ s)) with (X * 2 ^ s * B ^ Z.of_nat k) by ring.
  rewrite Z.div_mul by lia. by rewrite Z.mul_mod_idemp_l.
Qed.

Lemma dig_shl_next X (k : nat) s i : 0 <= s < 64 ->
  dig (X * 2 ^ (64 * Z.of_nat k + s)) (S i + k) = (dig X (S i) * 2 ^ s) mod B + dig X i / 2 ^ (64 - s).
Proof.
  intros Hs. unfold dig at 1. rewrite pow2_limbs, Bpow_add by lia. pose proof (Bpow_pos k). pose proof (Bpow_pos (S i)).
  replace (X * (B ^ Z.of_nat k * 2 ^ s)) with (X * 2 ^ s * B ^ Z.of_nat k) by ring.
  rewrite Z.div_mul_cancel_r, digit_shl, funnel, dig_S by lia. done.
Qed.

(** The shift counts of the code: [64 k + s]. *)
Lemma land_mask k s n : 0 <= s < 2 ^ n -> 0 <= n -> 0 <= k -> Z.land (2 ^ n * k + s) (2 ^ n - 1) = s.
Proof.
  intros Hs Hn Hk. replace (2 ^ n - 1) with (Z.ones n) by (rewrite Z.ones_equiv; lia).
  rewrite Z.land_ones, Z.mul_comm, Z.add_comm, Z_mod_plus_full by done. by apply Z.mod_small.
Qed.

Lemma shift_count (w : u64) : exists (k : nat) s, uval w = 64 * Z.of_nat k + s /\ 0 <= s < 64.
Proof.
  pose proof (limb_range w). exists (Z.to_nat (w / 64)), (w mod 64). rewrite Z2Nat.id by (apply Z.div_pos; lia).
  split; [by apply Z.div_mod|by apply Z.mod_pos_bound].
Qed.

Lemma shl64_eq x (shift : u64) : shl64 x shift = #(x * 2 ^ shift).
Proof.
  unfold shl64. pose proof (limb_range shift) as Hr.
  destruct (Z.leb_spec 256 shift) as [Hb|Hb].
  { apply uval_inj. rewrite uval_wrap_0, uval_wrap. replace (uval shift) with (256 + (shift - 256)) by lia.
    rewrite Z.pow_add_r by lia. change (modulus 256) with (2 ^ 256).
    rewrite (Z.mul_comm (2 ^ 256)), Z.mul_assoc. symmetry. by apply Z.mod_mul. }
  destruct (shift_count shift) as (k & s & E & Hs).
  rewrite E in *. assert (Hk : (k < 4)%nat) by lia.
  assert (F : forall i, dig (x * 2 ^ (64 * Z.of_nat k + s)) (S i + k) = shld (limb x (S i)) (limb x i) s)
    by (intros i; by rewrite dig_shl_next, shld_spec, !limb_dig).
  assert (F0 : dig (x * 2 ^ (64 * Z.of_nat k + s)) k = (#(Z.shiftl (limb x 0) s) : u64)).
  { rewrite dig_shl_first, uval_wrap, Z.shiftl_mul_pow2, limb_dig by lia. done. }
  assert (Fl : forall i, (i < k)%nat -> dig (x * 2 ^ (64 * Z.of_nat k + s)) i = (#0 : u64))
    by (intros i Hi; by rewrite dig_shl_low, uval_wrap_0 by lia).
  destruct k as [|[|[|[|k]]]]; [..|lia].
  - change (64 * Z.of_nat 0 + s) with s in *. destruct (Z.ltb_spec s 128); [|lia]. destruct (Z.ltb_spec s 64); [|lia].
    apply of_words_dig; symmetry; [apply F0|apply (F 0%nat)|apply (F 1%nat)|apply (F 2%nat)].
  - change (Z.of_nat 1) with 1 in *. destruct (Z.ltb_spec (64 * 1 + s) 128); [|lia]. destruct (Z.ltb_spec (64 * 1 + s) 64); [lia|].
    change (Z.land (64 * 1 + s) 63) with (Z.land (2 ^ 6 * 1 + s) (2 ^ 6 - 1)). rewrite land_mask by lia.
    apply of_words_dig; symmetry; [apply (Fl 0%nat); lia|apply F0|apply (F 0%nat)|apply (F 1%nat)].
  - change (Z.of_nat 2) with 2 in *. destruct (Z.ltb_spec (64 * 2 + s) 128); [lia|]. destruct (Z.ltb_spec (64 * 2 + s) 192); [|lia].
    change (Z.land (64 * 2 + s) 127) with (Z.land (2 ^ 7 * 1 + s) (2 ^ 7 - 1)). rewrite land_mask by lia.
    apply of_words_dig; symmetry; [apply (Fl 0%nat); lia|apply (Fl 1%nat); lia|apply F0|apply (F 0%nat)].
  - change (Z.of_nat 3) with 3 in *. destruct (Z.ltb_spec (64 * 3 + s) 128); [lia|]. destruct (Z.ltb_spec (64 * 3 + s) 192); [lia|].
    change (Z.land (64 * 3 + s) 63) with (Z.land (2 ^ 6 * 3 + s) (2 ^ 6 - 1)). rewrite land_mask by lia.
    apply of_words_dig; symmetry; [apply (Fl 0%nat); lia|apply (Fl 1%nat); lia|apply (Fl 2%nat); lia|apply F0].
Qed.

Lemma low_limb (x : u256) : Z.lor (Z.lor (limb x 3) (limb x 2)) (limb x 1) = 0 -> uval x = limb x 0.
Proof.
  intros [[H3 H2]%Z.lor_eq_0_iff H1]%Z.lor_eq_0_iff. rewrite <- (words_val_as_words x) at 1. rewrite as_words_at.
  cbn [words_val]. fold (limb x 0) (limb x 1) (limb x 2) (limb x 3). lia.
Qed.

Lemma high_limbs (x : u256) : Z.lor (Z.lor (limb x 3) (limb x 2)) (limb x 1) <> 0 -> B <= x.
Proof.
  intros H. destruct (Z_lt_le_dec x B) as [Hx|]; [|done]. destruct H. pose proof (uword_range x).
  rewrite !limb_dig. unfold dig. rewrite !Z.div_small; [done|..]; unfold B in *; simpl Z.of_nat; lia.
Qed.

Lemma op_shl_eq x shift : op_shl x shift = #(x * 2 ^ shift).
Proof.
  unfold op_shl. destruct (Z.eqb_spec (Z.lor (Z.lor (limb shift 3) (limb shift 2)) (limb shift 1)) 0) as [E|E]; cbn [negb].
  - by rewrite shl64_eq, (low_limb shift E).
  - apply high_limbs in E. apply uval_inj. rewrite uval_wrap_0, uval_wrap.
    replace (uval shift) with (256 + (shift - 256)) by lia. rewrite Z.pow_add_r by (unfold B in E; lia).
    change (modulus 256) with (2 ^ 256). rewrite (Z.mul_comm (2 ^ 256)), Z.mul_assoc. symmetry. by apply Z.mod_mul.
Qed.

(** The number a right shift works on, and the limbs above its four. *)
Definition shifted (type : RightShiftType) (x : u256) : Z :=
  match type with Logical => x | Arithmetic => s256 x end.
Definition sign_limb (type : RightShiftType) (x : u256) : u64 :=
  match type with Logical => #0 | Arithmetic => if x <? 2 ^ 255 then #0 else #(-1) end.
Definition ext_limb type (x : u256) (i : nat) : u64 := if (i <? 4)%nat then limb x i else sign_limb type x.

Lemma dig_shifted type x i : dig (shifted type x) i = ext_limb type x i.
Proof.
  unfold ext_limb, sign_limb, shifted. destruct type.
  2:{ destruct (Nat.ltb_spec i 4); [by rewrite limb_dig|]. by rewrite dig_high, uval_wrap_0. }
  unfold s256. pose proof (uword_range x) as Hx. destruct (Z.ltb_spec x (2 ^ 255)) as [Hs|Hs].
  { destruct (Nat.ltb_spec i 4); [by rewrite limb_dig|]. by rewrite dig_high, uval_wrap_0. }
  change (2 ^ 256) with (B ^ 4). change (modulus 256) with (B ^ 4) in Hx. destruct (Nat.ltb_spec i 4) as [Hi|Hi].
  - rewrite limb_dig. unfold dig. replace (B ^ 4) with (B * B ^ Z.of_nat (3 - i) * B ^ Z.of_nat i).
    2:{ rewrite <- Bpow_S, <- Bpow_add. change 4 with (Z.of_nat 4). do 2 f_equal. lia. }
    rewrite <- Z.add_opp_r, Z.opp_eq_mul_m1, (Z.mul_comm _ (-1)), Z.mul_assoc, Z.div_add by (pose proof (Bpow_pos i); lia).
    rewrite Z.mul_assoc, (Z.mul_comm (-1)), <- Z.mul_assoc, (Z.mul_comm B), Z_mod_plus_full. done.
  - assert (B ^ 4 <= B ^ Z.of_nat i) by (apply Z.pow_le_mono_r; [done|lia]). unfold dig.
    replace ((x - B ^ 4) / B ^ Z.of_nat i) with (-1); [done|]. apply Z.div_unique with (B ^ Z.of_nat i + (x - B ^ 4)); lia.
Qed.

Lemma shrd_sign type x s : 0 <= s < 64 -> shrd (sign_limb type x) (sign_limb type x) s = sign_limb type x.
Proof.
  intros Hs. apply uval_inj. rewrite shrd_spec by done. pose proof (Z.pow_pos_nonneg 2 s ltac:(lia) ltac:(lia)).
  assert (Hd : sign_limb type x = #0 \/ sign_limb type x = #(-1)).
  { unfold sign_limb. destruct type; [|by left]. destruct (x <? 2 ^ 255); [by left|by right]. }
  destruct Hd as [->| ->]; [by rewrite uval_wrap_0, Z.mul_0_l, Zdiv_0_l|].
  change (uval (wrap 64 (-1))) with (B - 1). pose proof (Z.pow_pos_nonneg 2 (64 - s) ltac:(lia) ltac:(lia)).
  pose proof (B_split s ltac:(lia)) as E. set (p := 2 ^ s) in *. set (q := 2 ^ (64 - s)) in *. rewrite E.
  replace ((p * q - 1) / p) with (q - 1) by (apply Z.div_unique with (p - 1); lia).
  replace (((p * q - 1) * q) mod (p * q)) with (p * q - q); [lia|]. apply Z.mod_unique with (q - 1); [left|]; nia.
Qed.

(** Everything is shifted out. *)
Lemma dig_shifted_out type x (shift : Z) i : 256 <= shift -> dig (shifted type x / 2 ^ shift) i = sign_limb type x.
Proof.
  intros Hb. assert (Hp : 2 ^ 256 <= 2 ^ shift) by (apply Z.pow_le_mono_r; lia).
  unfold sign_limb, shifted. pose proof (uword_range x) as Hx. change (modulus 256) with (2 ^ 256) in Hx.
  pose proof (Bpow_pos i). unfold dig. destruct type; [unfold s256; destruct (Z.ltb_spec x (2 ^ 255))|].
  - rewrite (Z.div_small x) by lia. by rewrite Zdiv_0_l.
  - replace ((x - 2 ^ 256) / 2 ^ shift) with (-1) by (apply Z.div_unique with (2 ^ shift + (x - 2 ^ 256)); lia).
    replace (-1 / B ^ Z.of_nat i) with (-1); [done|]. apply Z.div_unique with (B ^ Z.of_nat i - 1); lia.
  - rewrite (Z.div_small x) by lia. by rewrite Zdiv_0_l.
Qed.

Lemma shift_right_eq type x shift : shift_right type x shift = #(shifted type x / 2 ^ shift).
Proof.
  unfold shift_right.
  assert (Hf : match type with Logical => #0 | Arithmetic => if Z.land (limb x 3) (2 ^ 63) =? 0 then #0 else #(-1) end
    = sign_limb type x).
  { unfold sign_limb. destruct type; [|done]. rewrite land_pow2_eqb, top_bit by done. by destruct (x <? 2 ^ 255). }
  rewrite Hf. clear Hf. set (fill := sign_limb type x). pose proof (uword_range shift) as Hr.
  destruct (Z.eqb_spec (Z.lor (Z.lor (Z.lor (limb shift 3) (limb shift 2)) (limb shift 1)) (b2z (256 <=? limb shift 0))) 0)
    as [E|E]; cbn [negb].
  - apply Z.lor_eq_0_iff in E as [E E']. apply low_limb in E. rewrite E. clear Hr. pose proof (limb_range (limb shift 0)) as Hr.
    destruct (Z.leb_spec 256 (limb shift 0)) as [Hb|Hb]; [done|]. clear E E'.
    destruct (shift_count (limb shift 0)) as (k & s & E & Hs).
    rewrite E in *. assert (Hk : (k < 4)%nat) by lia.
    assert (F : forall i, dig (shifted type x / 2 ^ (64 * Z.of_nat k + s)) i
      = shrd (ext_limb type x (S (i + k))) (ext_limb type x (i + k)) s)
      by (intros i; by rewrite dig_shr, shrd_spec, !dig_shifted).
    replace (Z.land (64 * Z.of_nat k + s) 63) with s.
    2:{ change 64 with (2 ^ 6). change 63 with (2 ^ 6 - 1). symmetry. apply land_mask; lia. }
    set (tail := match type with Arithmetic => _ | Logical => _ end).
    assert (Ft : tail = shrd fill (limb x 3) s).
    { unfold tail, fill. destruct type; [done|]. apply uval_inj. unfold sign_limb. rewrite shrd_spec, uval_wrap_0, Z.mul_0_l by done.
      rewrite Z.shiftr_div_pow2 by lia. pose proof (limb_range (limb x 3)). apply uval_wrap_small.
      pose proof (Z.pow_pos_nonneg 2 s ltac:(lia) ltac:(lia)). split; [apply Z.div_pos; lia|].
      apply Z.div_lt_upper_bound; [lia|]. unfold modulus, B in *. simpl Z.of_N. nia. }
    assert (Fs : shrd fill fill s = fill) by by apply shrd_sign. rewrite Ft. clearbody tail. clear Ft tail.
    assert (G : forall i w, shrd (ext_limb type x (S (i + k))) (ext_limb type x (i + k)) s = w ->
      uval w = dig (shifted type x / 2 ^ (64 * Z.of_nat k + s)) i) by (intros i w <-; by rewrite F).
    destruct k as [|[|[|[|k]]]]; [..|lia].
    + change (64 * Z.of_nat 0 + s) with s in *. destruct (Z.ltb_spec s 128); [|lia]. destruct (Z.ltb_spec s 64); [|lia].
      apply of_words_dig; by apply G.
    + change (Z.of_nat 1) with 1 in *. destruct (Z.ltb_spec (64 * 1 + s) 128); [|lia]. destruct (Z.ltb_spec (64 * 1 + s) 64); [lia|].
      apply of_words_dig; by apply G.
    + change (Z.of_nat 2) with 2 in *. destruct (Z.ltb_spec (64 * 2 + s) 128); [lia|]. destruct (Z.ltb_spec (64 * 2 + s) 192); [|lia].
      change (Z.land (64 * 2 + s) 127) with (Z.land (2 ^ 7 * 1 + s) (2 ^ 7 - 1)). rewrite land_mask by lia.
      apply of_words_dig; by apply G.
    + change (Z.of_nat 3) with 3 in *. destruct (Z.ltb_spec (64 * 3 + s) 128); [lia|]. destruct (Z.ltb_spec (64 * 3 + s) 192); [lia|].
      apply of_words_dig; by apply G.
  - assert (Hb : 256 <= shift).
    { destruct (Z.eq_dec (Z.lor (Z.lor (limb shift 3) (limb shift 2)) (limb shift 1)) 0) as [E0|E0].
      - rewrite (low_limb shift E0). rewrite E0 in E. destruct (Z.leb_spec 256 (limb shift 0)); [done|]. by destruct E.
      - apply high_limbs in E0. unfold B in E0. lia. }
    apply of_words_dig; by rewrite dig_shifted_out.
Qed.

(** ** Bitwise operators *)
Lemma dig_bits X i j : 0 <= j -> Z.testbit (dig X i) j = if j <? 64 then Z.testbit X (j + 64 * Z.of_nat i) else false.
Proof.
  intros Hj. unfold dig. change B with (2 ^ 64). rewrite <- Z.pow_mul_r, <- Z.shiftr_div_pow2 by lia.
  destruct (Z.ltb_spec j 64).
  - rewrite Z.mod_pow2_bits_low by lia. apply Z.shiftr_spec. done.
  - apply Z.mod_pow2_bits_high. lia.
Qed.

Lemma dig_bitwise f fb X Y i :
  (forall a b j, Z.testbit (f a b) j = fb (Z.testbit a j) (Z.testbit b j)) -> fb false false = false ->
  uval (wrap 64 (f (dig X i) (dig Y i))) = dig (f X Y) i.
Proof.
  intros Hf H0. apply Z.bits_inj'. intros j Hj. rewrite uval_wrap. change (modulus 64) with (2 ^ 64). rewrite dig_bits by done.
  destruct (Z.ltb_spec j 64).
  - rewrite Z.mod_pow2_bits_low by lia. rewrite !Hf, !dig_bits by done. by destruct (Z.ltb_spec j 64); [|lia].
  - apply Z.mod_pow2_bits_high. lia.
Qed.

Lemma bitwise_eq f fb x y :
  (forall a b j, Z.testbit (f a b) j = fb (Z.testbit a j) (Z.testbit b j)) -> fb false false = false ->
  bitwise f x y = #(f x y).
Proof. intros Hf H0. apply of_words_dig; rewrite !limb_dig; by apply dig_bitwise with fb. Qed.

Lemma op_and_eq x y : op_and x y = #(Z.land x y).
Proof. apply bitwise_eq with andb; [apply Z.land_spec|done]. Qed.
Lemma op_or_eq x y : op_or x y = #(Z.lor x y).
Proof. apply bitwise_eq with orb; [apply Z.lor_spec|done]. Qed.
Lemma op_xor_eq x y : op_xor x y = #(Z.lxor x y).
Proof. apply bitwise_eq with xorb; [apply Z.lxor_spec|done]. Qed.

Lemma op_not_eq x : op_not x = #(Z.lnot x).
Proof.
  unfold op_not, as_words. cbn [map].
  assert (H : forall i, uval (wrap 64 (Z.lnot (wrap 64 (x / B ^ Z.of_nat i)))) = dig (Z.lnot x) i).
  { intros i. apply Z.bits_inj'. intros j Hj. rewrite uval_wrap. change (modulus 64) with (2 ^ 64). rewrite dig_bits by done.
    destruct (Z.ltb_spec j 64); [|apply Z.mod_pow2_bits_high; lia].
    rewrite Z.mod_pow2_bits_low, !Z.lnot_spec by lia. f_equal. rewrite uval_wrap. change (modulus 64) with B.
    change ((x / B ^ Z.of_nat i) mod B) with (dig x i). rewrite dig_bits by done. by destruct (Z.ltb_spec j 64); [|lia]. }
  apply of_words_dig; [rewrite <- (H 0%nat)|apply (H 1%nat)|apply (H 2%nat)|apply (H 3%nat)].
  by rewrite Z.pow_0_r, Z.div_1_r.
Qed.

Lemma to_bool_eq x : to_bool x = negb (x =? 0).
Proof.
  unfold to_bool. f_equal. pose proof (words_val_as_words x) as E. rewrite as_words_at in E. cbn [words_val] in E.
  fold (limb x 0) (limb x 1) (limb x 2) (limb x 3) in E.
  pose proof (limb_range (limb x 0)). pose proof (limb_range (limb x 1)).
  pose proof (limb_range (limb x 2)). pose proof (limb_range (limb x 3)).
  destruct (Z.eqb_spec x 0) as [Hx|Hx].
  - apply Z.eqb_eq. rewrite !Z.lor_eq_0_iff. unfold B in *. lia.
  - apply Z.eqb_neq. rewrite !Z.lor_eq_0_iff. intros [[E0 E1] [E2 E3]]. rewrite E0, E1, E2, E3 in E. lia.
Qed.

Lemma op_eqb_eq x y : op_eqb x y = (x =? y).
Proof.
  unfold op_eqb. destruct (Z.eqb_spec x y) as [E|E].
  - apply uval_inj in E as ->. by rewrite !Z.lxor_nilpotent.
  - apply Z.eqb_neq. rewrite !Z.lor_eq_0_iff, !Z.lxor_eq_0_iff. intros [[E0 E1] [E2 E3]]. apply E.
    rewrite <- (words_val_as_words x), <- (words_val_as_words y), (as_words_at x), (as_words_at y). unfold limb in *.
    apply uval_inj in E0 as ->, E1 as ->, E2 as ->, E3 as ->. done.
Qed.

(** ** Exponentiation *)
Lemma mul_wrap a c : truncating_mul #a #c = #(a * c).
Proof.
  rewrite truncating_mul_eq. apply uval_inj. rewrite !uval_wrap, <- Z.mul_mod by (pose proof (modulus_pos 256); lia). done.
Qed.

Lemma pow_halve b w : 0 <= w -> b ^ w = (if Z.odd w then b else 1) * (b * b) ^ (w / 2).
Proof.
  intros Hw. pose proof (Z.div_mod w 2 ltac:(done)) as Ed. rewrite Zmod_odd in Ed.
  assert (Hp : 0 <= w / 2) by (apply Z.div_pos; lia).
  rewrite <- (Z.pow_2_r b), <- Z.pow_mul_r by lia. rewrite Ed at 1. rewrite Z.pow_add_r by (destruct (Z.odd w); lia).
  destruct (Z.odd w); rewrite ?Z.pow_1_r, ?Z.pow_0_r; ring.
Qed.

Lemma exp_bits_S n w r b :
  exp_bits (S n) w r b = exp_bits n (Z.shiftr w 1) (if Z.odd w then truncating_mul r b else r) (truncating_mul b b).
Proof. done. Qed.

Lemma exp_bits_spec bits w r b : 0 <= w < 2 ^ Z.of_nat bits ->
  exp_bits bits w #r #b = (#(r * b ^ w), #(b ^ (2 ^ Z.of_nat bits))).
Proof.
  revert w r b. induction bits as [|n IH]; intros w r b Hw.
  - cbn [exp_bits]. change (2 ^ Z.of_nat 0) with 1 in *. assert (w = 0) as -> by lia. by rewrite Z.pow_0_r, Z.mul_1_r, Z.pow_1_r.
  - rewrite exp_bits_S, !mul_wrap. rewrite Nat2Z.inj_succ, Z.pow_succ_r in Hw |- * by lia.
    assert (E : (if Z.odd w then #(r * b) else #r) = (#(r * if Z.odd w then b else 1) : u256))
      by (destruct (Z.odd w); [done|by rewrite Z.mul_1_r]).
    rewrite E, Z.shiftr_div_pow2, Z.pow_1_r by done.
    rewrite IH by (split; [apply Z.div_pos|apply Z.div_lt_upper_bound]; lia).
    rewrite (pow_halve b w), Z.mul_assoc by lia.
    rewrite (Z.pow_mul_r b 2), Z.pow_2_r by (try apply Z.pow_nonneg; lia). done.
Qed.

(** The exponent from limb [w] on, with [sig] significant limbs. *)
Lemma exp_words_spec cnt w sig (e : u256) r b :
  (w + cnt = sig)%nat -> sig = count_significant_words (as_words e) ->
  exp_words cnt w sig e (#r) (#b) = #(r * b ^ (e / B ^ Z.of_nat w)).
Proof.
  pose proof (count_significant_spec (as_words e)) as (Hl & Hb & Hn & _). rewrite words_val_as_words in Hb.
  intros Hc Hsig. rewrite <- Hsig in Hb, Hn, Hl. pose proof (uword_range e) as He.
  revert w r b Hc. induction cnt as [|c IH]; intros w r b Hc; cbn [exp_words].
  - rewrite Z.div_small, Z.pow_0_r, Z.mul_1_r; [done|]. split; [lia|]. by replace w with sig by lia.
  - set (bits := if (w + 1 =? sig)%nat then _ else _).
    assert (Hw : 0 <= limb e w < 2 ^ Z.of_nat bits /\ e / B ^ Z.of_nat w = limb e w + 2 ^ Z.of_nat bits * (e / B ^ Z.of_nat (S w))).
    { pose proof (limb_range (limb e w)) as Hr. pose proof (Bpow_pos w).
      assert (Ed : e / B ^ Z.of_nat w = limb e w + B * (e / B ^ Z.of_nat (S w))).
      { replace (e / B ^ Z.of_nat (S w)) with (e / B ^ Z.of_nat w / B) by (rewrite Bpow_S, Z.mul_comm, Z.div_div by (done || lia); done).
        rewrite limb_dig. unfold dig. pose proof (Z.div_mod (e / B ^ Z.of_nat w) B ltac:(done)). lia. }
      unfold bits. destruct (Nat.eqb_spec (w + 1) sig) as [E|E]; [|done].
      assert (H0 : e / B ^ Z.of_nat (S w) = 0) by (apply Z.div_small; split; [lia|]; by replace (S w) with sig by lia).
      rewrite H0 in Ed |- *. split; [|lia]. split; [lia|]. specialize (Hn ltac:(lia)).
      replace (sig - 1)%nat with w in Hn by lia. change (word_at (as_words e) w) with (limb e w) in Hn.
      pose proof (countl_zero64_spec _ Hn) as [Hs Hz]. rewrite Z2Nat.id by lia.
      pose proof (B_split (countl_zero64 (limb e w)) ltac:(lia)) as Eb.
      pose proof (Z.pow_pos_nonneg 2 (countl_zero64 (limb e w)) ltac:(lia) ltac:(lia)). nia. }
    destruct Hw as [Hw Ed]. rewrite exp_bits_spec by done. rewrite IH by lia. f_equal. pose proof (Bpow_pos (S w)).
    rewrite <- Z.pow_mul_r by (try apply Z.pow_nonneg; try apply Z.div_pos; lia). rewrite Ed, Z.pow_add_r.
    + ring.
    + lia.
    + apply Z.mul_nonneg_nonneg; [apply Z.pow_nonneg; lia|apply Z.div_pos; lia].
Qed.

Lemma exp_eq base exponent : exp base exponent = #(base ^ exponent).
Proof.
  unfold exp. rewrite op_eqb_eq. destruct (Z.eqb_spec base (#2 : u256)) as [E|E].
  - rewrite op_shl_eq, E. f_equal. change (uval (wrap 256 1)) with 1. change (uval (wrap 256 2)) with 2. lia.
  - rewrite <- (wrap_uval base). rewrite exp_words_spec by done. rewrite wrap_uval, Z.pow_0_r, Z.div_1_r. f_equal. lia.
Qed.

(** ** Bytes and bits *)
Lemma u256_ltb_small (x : u256) k : 0 <= k < 2 ^ 64 -> u256_ltb x #k = (x <? k).
Proof. intros Hk. rewrite u256_ltb_spec, uval_wrap_small; [done|]. unfold modulus. simpl Z.of_N. lia. Qed.

Lemma limb_small (x : u256) : x < B -> limb x 0 = x :> Z.
Proof. intros H. rewrite limb_dig. unfold dig. rewrite Z.pow_0_r, Z.div_1_r. apply Z.mod_small. pose proof (uword_range x). lia. Qed.

(** The byte [8 k + j] of a word is byte [j] of limb [k]. *)
Lemma limb_byte (x : u256) (k : nat) j : 0 <= j < 8 ->
  (limb x k / 2 ^ (8 * j)) mod 256 = (x / 2 ^ (64 * Z.of_nat k + 8 * j)) mod 256.
Proof.
  intros Hj. rewrite limb_dig. apply Z.bits_inj'. intros i Hi. change 256 with (2 ^ 8).
  destruct (Z_lt_le_dec i 8); [|rewrite !Z.mod_pow2_bits_high by lia; done].
  rewrite !Z.mod_pow2_bits_low by lia. rewrite <- !Z.shiftr_div_pow2, !Z.shiftr_spec, dig_bits by lia.
  destruct (Z.ltb_spec (i + 8 * j) 64); [|lia]. f_equal. lia.
Qed.

Lemma byte_eq i x : byte i x = if i <? 32 then #((x / 2 ^ (8 * (31 - i))) mod 256) else #0.
Proof.
  unfold byte. rewrite u256_ltb_small by done. pose proof (uword_range i).
  destruct (Z.ltb_spec i 32); cbn [negb]; [|done]. rewrite limb_small by (unfold B; lia).
  set (bi := 31 - i). assert (Hbi : 0 <= bi < 32) by lia.
  rewrite Z.shiftl_mul_pow2, Z.shiftr_div_pow2, Z.shiftr_div_pow2, uval_wrap by (try apply Z.mul_nonneg_nonneg; try apply Z.land_nonneg; lia).
  change 7 with (Z.ones 3). rewrite Z.land_ones by done. change (2 ^ 3) with 8. change (modulus 8) with 256.
  rewrite (Z.mul_comm (bi mod 8)), limb_byte by (by apply Z.mod_pos_bound).
  rewrite Z2Nat.id by (apply Z.div_pos; lia). pose proof (Z.div_mod bi 8 ltac:(done)).
  replace (64 * (bi / 8) + 8 * (bi mod 8)) with (8 * bi) by lia.
  set (b := (x / 2 ^ (8 * bi)) mod 256). assert (Hb : 0 <= b < 256) by by apply Z.mod_pos_bound.
  apply of_words_val; [done|]. cbn [words_val].
  rewrite !uval_wrap_0, (uval_wrap_small 64) by (unfold modulus; simpl Z.of_N; lia). lia.
Qed.

Lemma countl_zero64_bound (w : u64) : 0 <= countl_zero64 w <= 64 /\ (countl_zero64 w = 64 <-> uval w = 0).
Proof.
  destruct (decide (w = #0)) as [->|Hw]; [done|]. pose proof (countl_zero64_spec w Hw) as [Hs _]. cbv zeta in Hs.
  split; [lia|]. split; [lia|]. intros E. destruct Hw. apply uval_inj. by rewrite E, uval_wrap_0.
Qed.

Lemma scaled_bounds P w x p lo hi :
  0 < P -> 0 < p -> P * w <= x < P * (w + 1) -> lo <= w * p -> (w + 1) * p <= hi -> P * lo <= x * p < P * hi.
Proof.
  intros HP Hp [Hx Hx'] Hlo Hhi. split.
  - apply Z.le_trans with (P * w * p); [|by apply Z.mul_le_mono_nonneg_r; lia]. rewrite <- Z.mul_assoc. apply Z.mul_le_mono_nonneg_l; lia.
  - apply Z.lt_le_trans with (P * (w + 1) * p); [by apply Z.mul_lt_mono_pos_r|]. rewrite <- Z.mul_assoc. apply Z.mul_le_mono_nonneg_l; lia.
Qed.

(** A limb scaled by its leading zeros still fits, with one added. *)
Lemma scaled_limb (w : u64) s : 0 <= s < 64 -> w * 2 ^ s < B -> (w + 1) * 2 ^ s <= B.
Proof.
  intros Hs Hw. pose proof (B_split s ltac:(lia)) as Eb. pose proof (Z.pow_pos_nonneg 2 (64 - s) ltac:(lia) ltac:(lia)).
  pose proof (Z.pow_pos_nonneg 2 s ltac:(lia) ltac:(lia)).
  assert (w < 2 ^ (64 - s)) by nia. nia.
Qed.

(** [i] limbs are left to look at; the ones above are zero. *)
Lemma countl_zero_from_spec i (x : u256) : (i <= 4)%nat -> x < B ^ Z.of_nat i ->
  let r := countl_zero_from i (Z.of_nat (4 - i) * 64) x in 0 <= r <= 256 /\ (x = #0 -> r = 256) /\ (x <> #0 -> 2 ^ 255 <= x * 2 ^ r < 2 ^ 256).
Proof.
  induction i as [|i IH]; intros Hi Hx; cbn [countl_zero_from].
  - pose proof (uword_range x). simpl in *. assert (x = #0) as -> by (apply uval_inj; rewrite uval_wrap_0; lia). done.
  - pose proof (countl_zero64_bound (limb x i)) as [Hb Hz]. pose proof (uword_range x) as Hr.
    pose proof (top_limb (as_words x) (S i) ltac:(lia)) as Ht. rewrite words_val_as_words in Ht. specialize (Ht Hx).
    replace (S i - 1)%nat with i in Ht by lia. change (word_at (as_words x) i) with (limb x i) in Ht. pose proof (Bpow_pos i).
    destruct (Z.eqb_spec (Z.of_nat (4 - S i) * 64 + countl_zero64 (limb x i)) (Z.of_nat (4 - i) * 64)) as [E|E].
    + rewrite E. apply IH; [lia|]. assert (E0 : limb x i = 0 :> Z) by (apply Hz; lia). rewrite E0 in Ht.
      apply Z.div_small_iff in Ht; lia.
    + assert (Hl : limb x i <> #0) by (intros E0; apply E; rewrite (proj2 Hz) by (by rewrite E0, uval_wrap_0); lia).
      pose proof (countl_zero64_spec _ Hl) as [Hs Hw]. set (s := countl_zero64 (limb x i)) in *.
      split; [lia|]. split; [intros ->; destruct Hl; apply uval_inj; rewrite <- Ht, uval_wrap_0; apply Zdiv_0_l|]. intros _.
      replace (Z.of_nat (4 - S i) * 64 + s) with (64 * Z.of_nat (4 - S i) + s) by lia. rewrite pow2_limbs by lia.
      pose proof (Z.div_mod x (B ^ Z.of_nat i) ltac:(lia)) as Ed. rewrite Ht in Ed.
      pose proof (Z.mod_pos_bound x (B ^ Z.of_nat i) ltac:(lia)) as Hm. pose proof (Bpow_pos (4 - S i)).
      assert (E4 : B ^ Z.of_nat i * B ^ Z.of_nat (4 - S i) = B ^ 3) by (rewrite <- Bpow_add; change 3 with (Z.of_nat 3); do 2 f_equal; lia).
      assert (H2 : 0 < 2 ^ s) by (apply Z.pow_pos_nonneg; lia).
      pose proof (scaled_limb (limb x i) s Hs (proj2 Hw)) as Hu.
      change (2 ^ 255) with (B ^ 3 * 2 ^ 63). change (2 ^ 256) with (B ^ 3 * B). rewrite <- E4.
      set (P := B ^ Z.of_nat i) in *. set (Q := B ^ Z.of_nat (4 - S i)) in *. set (w := uval (limb x i)) in *.
      replace (x * (Q * 2 ^ s)) with (Q * (x * 2 ^ s)) by ring. replace (P * Q * 2 ^ 63) with (Q * (P * 2 ^ 63)) by ring.
      replace (P * Q * B) with (Q * (P * B)) by ring.
      destruct (scaled_bounds P w x (2 ^ s) (2 ^ 63) B) as [Hlo Hhi]; [lia|lia|lia|exact (proj1 Hw)|exact Hu|].
      split; [apply Z.mul_le_mono_nonneg_l|apply Z.mul_lt_mono_pos_l]; lia.
Qed.

Lemma countl_zero_spec x : let r := countl_zero x in
  0 <= r <= 256 /\ (x = #0 -> r = 256) /\ (x <> #0 -> 2 ^ 255 <= x * 2 ^ r < 2 ^ 256).
Proof. apply (countl_zero_from_spec 4 x); [lia|]. exact (proj2 (uword_range x)). Qed.

Lemma count_significant_bytes_spec x : let c := count_significant_bytes x in
  0 <= c <= 32 /\ x < 2 ^ (8 * c) /\ (x <> #0 -> 1 <= c /\ 2 ^ (8 * (c - 1)) <= x).
Proof.
  unfold count_significant_bytes. pose proof (count_significant_spec (as_words x)) as (Hl & Hb & Hn & Hlo).
  rewrite words_val_as_words in Hb, Hlo. set (n := count_significant_words (as_words x)) in *. pose proof (uword_range x) as Hr.
  destruct (Nat.eqb_spec n 0) as [E|E].
  { rewrite E in Hb. simpl in Hb. cbv zeta. split; [done|]. split; [done|]. intros Hx. destruct Hx. apply uval_inj. rewrite uval_wrap_0. lia. }
  specialize (Hn E). change (word_at (as_words x) (n - 1)) with (limb x (n - 1)) in Hn.
  pose proof (countl_zero64_spec _ Hn) as [Hs Hw]. set (s := countl_zero64 (limb x (n - 1))) in *.
  pose proof (top_limb (as_words x) n ltac:(lia)) as Ht. rewrite words_val_as_words in Ht. specialize (Ht Hb).
  change (word_at (as_words x) (n - 1)) with (limb x (n - 1)) in Ht. pose proof (Bpow_pos (n - 1)) as HP.
  pose proof (Z.div_mod x (B ^ Z.of_nat (n - 1)) ltac:(lia)) as Ed. rewrite Ht in Ed.
  pose proof (Z.mod_pos_bound x (B ^ Z.of_nat (n - 1)) ltac:(lia)) as Hm. simpl length in Hl.
  set (lb := (64 - s + 7) / 8). assert (Hlb : 8 * (lb - 1) <= 63 - s /\ 64 - s <= 8 * lb /\ 1 <= lb <= 8)
    by (unfold lb; Z.div_mod_to_equations; lia).
  assert (Hw1 : 2 ^ (63 - s) <= limb x (n - 1) /\ limb x (n - 1) + 1 <= 2 ^ (64 - s)).
  { pose proof (scaled_limb _ s Hs (proj2 Hw)) as Hu. pose proof (B_split s ltac:(lia)) as Eb.
    assert (E63 : 2 ^ 63 = 2 ^ s * 2 ^ (63 - s)) by (rewrite <- Z.pow_add_r by lia; f_equal; lia).
    pose proof (Z.pow_pos_nonneg 2 s ltac:(lia) ltac:(lia)). destruct Hw as [Hw _]. rewrite E63 in Hw. rewrite Eb in Hu.
    split; nia. }
  cbv zeta. split; [lia|]. replace (Z.of_nat n - 1) with (Z.of_nat (n - 1)) by lia.
  assert (Hpow : forall d, 0 <= d -> 2 ^ (8 * (Z.of_nat (n - 1) * 8) + d) = B ^ Z.of_nat (n - 1) * 2 ^ d).
  { intros d Hd. rewrite <- pow2_limbs by done. f_equal. lia. }
  set (P := B ^ Z.of_nat (n - 1)) in *. set (w := uval (limb x (n - 1))) in *. split; [|intros _; split; [lia|]].
  - replace (8 * (lb + Z.of_nat (n - 1) * 8)) with (8 * (Z.of_nat (n - 1) * 8) + 8 * lb) by lia. rewrite Hpow by lia.
    apply Z.lt_le_trans with (P * (w + 1)); [lia|]. apply Z.mul_le_mono_nonneg_l; [lia|].
    apply Z.le_trans with (2 ^ (64 - s)); [lia|]. apply Z.pow_le_mono_r; lia.
  - replace (8 * (lb + Z.of_nat (n - 1) * 8 - 1)) with (8 * (Z.of_nat (n - 1) * 8) + 8 * (lb - 1)) by lia. rewrite Hpow by lia.
    apply Z.le_trans with (P * w); [|lia]. apply Z.mul_le_mono_nonneg_l; [lia|].
    apply Z.le_trans with (2 ^ (63 - s)); [|lia]. apply Z.pow_le_mono_r; lia.
Qed.

(** *** Sign extension *)

(** The low [n] bits of [x], read as a signed number. *)
Definition signed (n x : Z) : Z := let y := x mod 2 ^ n in if y <? 2 ^ (n - 1) then y else y - 2 ^ n.

Lemma signed_bits n x m : 0 < n -> 0 <= m -> Z.testbit (signed n x) m = Z.testbit x (if m <? n then m else n - 1).
Proof.
  intros Hn Hm. unfold signed. pose proof (Z.pow_pos_nonneg 2 n ltac:(lia) ltac:(lia)) as Hp.
  pose proof (Z.mod_pos_bound x (2 ^ n) Hp) as Hy. set (y := x mod 2 ^ n) in *.
  set (z := if y <? 2 ^ (n - 1) then y else y - 2 ^ n).
  assert (Ez : z mod 2 ^ n = y).
  { unfold z. destruct (y <? 2 ^ (n - 1)); [by apply Z.mod_small|]. symmetry. apply Z.mod_unique with (-1); lia. }
  destruct (Z.ltb_spec m n).
  - rewrite <- (Z.mod_pow2_bits_low z n m), Ez by lia. unfold y. apply Z.mod_pow2_bits_low. lia.
  - assert (Hpm : 2 ^ n <= 2 ^ m) by (apply Z.pow_le_mono_r; lia).
    assert (En : 2 ^ n = 2 * 2 ^ (n - 1)) by (rewrite <- Z.pow_succ_r by lia; f_equal; lia).
    rewrite <- (Z.mod_pow2_bits_low x n (n - 1)) by lia. fold y.
    rewrite !Z.testbit_odd, !Z.shiftr_div_pow2 by lia. unfold z. destruct (Z.ltb_spec y (2 ^ (n - 1))).
    + by rewrite !Z.div_small by lia.
    + replace ((y - 2 ^ n) / 2 ^ m) with (-1) by (apply Z.div_unique with (2 ^ m + (y - 2 ^ n)); lia).
      by replace (y / 2 ^ (n - 1)) with 1 by (apply Z.div_unique with (y - 2 ^ (n - 1)); lia).
Qed.

Lemma signextend_eq b x : signextend b x = if b <? 31 then #(signed (8 * (b + 1)) x) else x.
Proof.
  unfold signextend. rewrite u256_ltb_small by done. pose proof (uword_range b) as Hb0.
  destruct (Z.ltb_spec b 31) as [Hb|]; cbn [negb]; [|done]. rewrite limb_small by (unfold B; lia).
  change 7 with (Z.ones 3). rewrite Z.land_ones, Z.shiftr_div_pow2 by done. change (2 ^ 3) with 8.
  pose proof (Z.div_mod b 8 ltac:(done)) as Ed. pose proof (Z.mod_pos_bound b 8 ltac:(done)) as Hm.
  set (wi := Z.to_nat (b / 8)). assert (Ewi : Z.of_nat wi = b / 8) by (apply Z2Nat.id, Z.div_pos; lia).
  rewrite <- Ewi in Ed. set (w := limb x wi). set (bi := b mod 8 * 8) in *. assert (Hbi : 0 <= bi < 64) by lia.
  set (sb := if _ <? 128 then _ else _).
  assert (Hsb : sb = signed 8 (Z.shiftr w bi)) by (unfold sb, signed; rewrite uval_wrap; by destruct (_ <? _)).
  set (sw := if w <? 2 ^ 63 then _ else _).
  assert (Hlow : Z.land sw (Z.lnot (Z.shiftr (- 2 ^ 63) (63 - bi))) = w mod 2 ^ bi).
  { replace (Z.lnot (Z.shiftr (- 2 ^ 63) (63 - bi))) with (Z.ones bi).
    - rewrite Z.land_ones by lia. unfold sw. destruct (w <? 2 ^ 63); [done|].
      replace (2 ^ 64) with (2 ^ (64 - bi) * 2 ^ bi) by (rewrite <- Z.pow_add_r by lia; f_equal; lia).
      rewrite <- (Z_mod_plus_full (w - 2 ^ (64 - bi) * 2 ^ bi) (2 ^ (64 - bi))). f_equal. ring.
    - rewrite Z.shiftr_div_pow2 by lia. replace (2 ^ 63) with (2 ^ bi * 2 ^ (63 - bi)) by (rewrite <- Z.pow_add_r by lia; f_equal; lia).
      rewrite <- Z.mul_opp_l, Z.div_mul by (apply Z.pow_nonzero; lia). rewrite Z.ones_equiv. unfold Z.lnot. lia. }
  rewrite Hlow. set (upper := wrap 64 (Z.shiftl (wrap 64 sb) bi)). set (lower := wrap 64 (w mod 2 ^ bi)).
  assert (Hwb : forall j, 0 <= j < 64 -> Z.testbit w j = Z.testbit x (j + 64 * Z.of_nat wi)).
  { intros j Hj. unfold w. rewrite limb_dig, dig_bits by lia. by destruct (Z.ltb_spec j 64); [|lia]. }
  assert (Hsbb : forall j, 0 <= j -> Z.testbit sb j = Z.testbit x (64 * Z.of_nat wi + bi + if j <? 8 then j else 7)).
  { intros j Hj. rewrite Hsb, signed_bits, Z.shiftr_spec, Hwb by (destruct (Z.ltb_spec j 8); lia). f_equal.
    destruct (Z.ltb_spec j 8); lia. }
  assert (D : forall i : nat, (i < 4)%nat -> uval (if (i <? wi)%nat then limb x i else
     if (i =? wi)%nat then #(Z.lor upper lower) else #(Z.shiftr sb 63)) = dig (signed (8 * (b + 1)) x) i).
  2:{ cbn [seq map]. apply of_words_dig; apply (D _); lia. }
  intros i Hi. apply Z.bits_inj'. intros j Hj. rewrite dig_bits by done.
  assert (Hhigh : forall v : u64, 64 <= j -> Z.testbit v j = false).
  { intros v Hj'. rewrite <- (Z.mod_small v (2 ^ 64)) by apply limb_range. apply Z.mod_pow2_bits_high. lia. }
  destruct (Z.ltb_spec j 64) as [Hj'|Hj']; [|by apply Hhigh].
  rewrite signed_bits by lia. destruct (Nat.ltb_spec i wi) as [Hiw|Hiw].
  - rewrite limb_dig, dig_bits by done. destruct (Z.ltb_spec j 64); [|lia].
    destruct (Z.ltb_spec (j + 64 * Z.of_nat i) (8 * (b + 1))); [done|lia].
  - destruct (Nat.eqb_spec i wi) as [->|Hne]; rewrite uval_wrap; change (modulus 64) with (2 ^ 64); rewrite Z.mod_pow2_bits_low by lia.
    + rewrite Z.lor_spec. unfold upper, lower. rewrite !uval_wrap. change (modulus 64) with (2 ^ 64).
      rewrite !Z.mod_pow2_bits_low, Z.shiftl_spec by lia. destruct (Z_lt_le_dec j bi).
      * rewrite (Z.testbit_neg_r _ (j - bi)), Z.mod_pow2_bits_low, Hwb by lia. cbn [orb].
        destruct (Z.ltb_spec (j + 64 * Z.of_nat wi) (8 * (b + 1))); [done|lia].
      * rewrite (Z.mod_pow2_bits_high w), orb_false_r, Z.mod_pow2_bits_low, Hsbb by lia. f_equal.
        destruct (Z.ltb_spec (j - bi) 8), (Z.ltb_spec (j + 64 * Z.of_nat wi) (8 * (b + 1))); lia.
    + rewrite Z.shiftr_spec, Hsbb by lia. f_equal.
      destruct (Z.ltb_spec (j + 63) 8), (Z.ltb_spec (j + 64 * Z.of_nat i) (8 * (b + 1))); lia.
Qed.

(** C40: division of 256-bit words is exact.  For a divisor other than zero, the limb
    algorithms (one-limb division, Knuth's algorithm with its single test of the estimate,
    the fast path of [addmod], the eight-limb product of [mulmod]) never fail and give the
    quotient and the remainder of the integers; signed division truncates towards zero, and
    its remainder has the sign of the dividend. *)
Theorem division_exact (x y m : u256) : uval m <> 0 ->
  op_div x m = Some #(x / m) /\ op_mod x m = Some #(x mod m) /\
  sdivrem x m = Some (#(Z.quot (s256 x) (s256 m)), #(Z.rem (s256 x) (s256 m))) /\
  addmod x y m = Some #((x + y) mod m) /\ mulmod x y m = Some #((x * y) mod m).
Proof.
  intros Hm. unfold op_div, op_mod. rewrite (udivrem256_eq x m Hm), (sdivrem_eq x m Hm), (addmod_eq x y m Hm), (mulmod_eq x y m Hm).
  done.
Qed.

(** A dividend of four limbs and a divisor of three. *)
Lemma division_exact_witness :
  let x : u256 := #(2 ^ 256 - 1) in let m : u256 := #(2 ^ 129 + 5) in
  uval m <> 0 /\ op_div x m = Some #(x / m) /\ mulmod x x m = Some #((x * x) mod m).
Proof.
  assert (Hm : uval (#(2 ^ 129 + 5) : u256) <> 0) by (vm_compute; discriminate).
  destruct (division_exact #(2 ^ 256 - 1) #(2 ^ 256 - 1) #(2 ^ 129 + 5) Hm) as (H1 & _ & _ & _ & H2).
  exact (conj Hm (conj H1 H2)).
Defined.
