(* ===== verification/Prog.v ===== *)
(** * Contract code as programs over the transaction state

    The built-in contracts (src/category/execution/monad/staking) reach the
    chain state only through a handful of operations of [State]
    (src/category/execution/ethereum/state3/state.cpp) and of the call tracer.
    [prog] is the type of such code: a tree of state operations that ends in a
    value, in an error of a [Result], in a [MonadException] thrown by
    [MONAD_ASSERT_THROW], or in the process abort of a failed [MONAD_ASSERT].

    [run] interprets a program with any handler of the operations.  [World] is
    the flat specification of the state (storage words, balances, logs); the
    versioned implementation is proved to refine it in StateRefine.v. *)
From S2P Require Import Prelude.

(** A log entry of a receipt. *)
Record Log : Set := mk_log {
  log_address : address;
  log_topics : list bytes32;
  log_data : list u8;
}.

(** The operations of [State] and [CallTracerBase] the contracts use. *)
Inductive stateE : Set -> Set :=
| GetStorage (a : address) (k : bytes32) : stateE bytes32
| SetStorage (a : address) (k v : bytes32) : stateE unit
| GetBalance (a : address) : stateE u256
| AddToBalance (a : address) (delta : u256) : stateE unit
| SubtractFromBalance (a : address) (delta : u256) : stateE unit
| StoreLog (l : Log) : stateE unit
| OnLog (l : Log) : stateE unit.

Inductive prog (E A : Type) : Type :=
| Ret (a : A)
| Fail (e : E)
| Throw (msg : string)
| Halt
| Vis {X : Set} (op : stateE X) (k : X -> prog E A).
Arguments Ret {E A} _.
Arguments Fail {E A} _.
Arguments Throw {E A} _.
Arguments Halt {E A}.
Arguments Vis {E A X} _ _.

Fixpoint bind {E A C} (p : prog E A) (f : A -> prog E C) : prog E C :=
  match p with
  | Ret a => f a
  | Fail e => Fail e
  | Throw m => Throw m
  | Halt => Halt
  | Vis op k => Vis op (fun x => bind (k x) f)
  end.

Declare Scope prog_scope.
Delimit Scope prog_scope with prog.
Bind Scope prog_scope with prog.
Notation "x <- c ;; k" := (bind c (fun x => k))
  (at level 100, c at next level, k at level 200, right associativity) : prog_scope.
Notation "'let*' p := c 'in' k" := (bind c (fun x => match x with p => k end))
  (at level 100, p pattern, c at level 99, k at level 200, right associativity) : prog_scope.
Notation "c ;; k" := (bind c (fun _ => k))
  (at level 100, k at level 200, right associativity) : prog_scope.
Global Open Scope prog_scope.

Definition trigger {E} {X : Set} (op : stateE X) : prog E X := Vis op Ret.

(** [MONAD_ASSERT] and [MONAD_ASSERT_THROW]. *)
Definition monad_assert {E} (b : bool) : prog E unit := if b then Ret tt else Halt.
Definition monad_assert_throw {E} (b : bool) (msg : string) : prog E unit :=
  if b then Ret tt else Throw msg.

(** An early return of an error. *)
Definition fail_if {E} (b : bool) (e : E) : prog E unit := if b then Fail e else Ret tt.

(** [BOOST_OUTCOME_TRY] of a pure result. *)
Definition lift {E F A} (inj : F -> E) (r : A + F) : prog E A :=
  match r with inl a => Ret a | inr e => Fail (inj e) end.

(** ** Running programs *)
Inductive res (E A : Type) : Type :=
| ROk (a : A)
| RErr (e : E)
| RThrow (msg : string)
| RHalt.
Arguments ROk {E A} _.
Arguments RErr {E A} _.
Arguments RThrow {E A} _.
Arguments RHalt {E A}.

Definition handler (S : Type) := forall X : Set, stateE X -> S -> res Empty_set X * S.

Fixpoint run_with {S E A} (h : handler S) (p : prog E A) (s : S) : res E A * S :=
  match p with
  | Ret a => (ROk a, s)
  | Fail e => (RErr e, s)
  | Throw m => (RThrow m, s)
  | Halt => (RHalt, s)
  | Vis op k =>
      match h _ op s with
      | (ROk x, s') => run_with h (k x) s'
      | (RErr e, s') => match e with end
      | (RThrow m, s') => (RThrow m, s')
      | (RHalt, s') => (RHalt, s')
      end
  end.

Lemma run_with_bind {S E A C} (h : handler S) (p : prog E A) (f : A -> prog E C) s :
  run_with h (bind p f) s =
  match run_with h p s with
  | (ROk a, s') => run_with h (f a) s'
  | (RErr e, s') => (RErr e, s')
  | (RThrow m, s') => (RThrow m, s')
  | (RHalt, s') => (RHalt, s')
  end.
Proof.
  revert s. induction p as [a|e|m| |X op k IH]; intros s; simpl; try done.
  destruct (h X op s) as [[x|[]|m|] s']; auto.
Qed.

(** ** The flat world *)
Record World := mk_world {
  w_storage : gmap (address * bytes32) bytes32;
  w_balance : gmap address u256;
  w_logs : list Log;
  w_traced : list Log;
}.

Definition slot (w : World) (a : address) (k : bytes32) : bytes32 :=
  default #0 (w_storage w !! (a, k)).
Definition balance (w : World) (a : address) : u256 := default #0 (w_balance w !! a).

Definition set_slot (w : World) (a : address) (k v : bytes32) : World :=
  mk_world (<[(a, k) := v]> (w_storage w)) (w_balance w) (w_logs w) (w_traced w).
Definition set_balance (w : World) (a : address) (v : u256) : World :=
  mk_world (w_storage w) (<[a := v]> (w_balance w)) (w_logs w) (w_traced w).

Definition handle_world : handler World := fun X op w =>
  match op in stateE X return res Empty_set X * World with
  | GetStorage a k => (ROk (slot w a k), w)
  | SetStorage a k v => (ROk tt, set_slot w a k v)
  | GetBalance a => (ROk (balance w a), w)
  | AddToBalance a delta =>
      if balance w a <=? modulus 256 - 1 - delta
      then (ROk tt, set_balance w a #(balance w a + delta))
      else (RThrow "balance overflow", w)
  | SubtractFromBalance a delta =>
      if delta <=? balance w a
      then (ROk tt, set_balance w a #(balance w a - delta))
      else (RThrow "balance underflow", w)
  | StoreLog l =>
      (ROk tt, mk_world (w_storage w) (w_balance w) (w_logs w ++ [l]) (w_traced w))
  | OnLog l =>
      (ROk tt, mk_world (w_storage w) (w_balance w) (w_logs w) (w_traced w ++ [l]))
  end.

Definition run {E A} (p : prog E A) (w : World) : res E A * World :=
  run_with handle_world p w.

Lemma run_bind {E A C} (p : prog E A) (f : A -> prog E C) w :
  run (bind p f) w =
  match run p w with
  | (ROk a, w') => run (f a) w'
  | (RErr e, w') => (RErr e, w')
  | (RThrow m, w') => (RThrow m, w')
  | (RHalt, w') => (RHalt, w')
  end.
Proof. apply run_with_bind. Qed.

Lemma run_ret {E A} (a : A) w : run (Ret a : prog E A) w = (ROk a, w).
Proof. done. Qed.
Lemma run_fail {E A} (e : E) w : run (Fail e : prog E A) w = (RErr e, w).
Proof. done. Qed.
Lemma run_throw {E A} m w : run (Throw m : prog E A) w = (RThrow m, w).
Proof. done. Qed.
#[export] Hint Rewrite @run_bind @run_ret @run_fail @run_throw : run.

Lemma run_bind_ok {E A C} (p : prog E A) (f : A -> prog E C) w a w' :
  run p w = (ROk a, w') -> run (bind p f) w = run (f a) w'.
Proof. intros H. by rewrite run_bind, H. Qed.

(** ** Postconditions

    [wp X p Q w]: if [p] run from [w] succeeds, its result and final world
    satisfy [Q]; if it throws, the message satisfies [X].  Nothing is said of
    calls that return an error: their caller rolls them back. *)
Definition wp {E A} (X : string -> Prop) (p : prog E A) (Q : A -> World -> Prop) (w : World)
    : Prop :=
  match run p w with
  | (ROk a, w') => Q a w'
  | (RThrow m, _) => X m
  | _ => True
  end.

Definition any_throw : string -> Prop := fun _ => True.

Section wp.
Context {E : Type} (X : string -> Prop).
Implicit Types w : World.

Lemma wp_ret {A} (a : A) Q w : Q a w -> wp X (Ret a : prog E A) Q w.
Proof. done. Qed.

Lemma wp_fail {A} (e : E) (Q : A -> World -> Prop) w : wp X (Fail e) Q w.
Proof. done. Qed.

Lemma wp_throw {A} m (Q : A -> World -> Prop) w : X m -> wp X (Throw m : prog E A) Q w.
Proof. done. Qed.

Lemma wp_halt {A} (Q : A -> World -> Prop) w : wp X (Halt : prog E A) Q w.
Proof. done. Qed.

Lemma wp_bind {A C} (p : prog E A) (f : A -> prog E C) Q w :
  wp X p (fun a => wp X (f a) Q) w -> wp X (bind p f) Q w.
Proof. unfold wp. rewrite run_bind. by destruct (run p w) as [[]]. Qed.

Lemma wp_mono {A} (p : prog E A) (Q Q' : A -> World -> Prop) w :
  wp X p Q w -> (forall a w', Q a w' -> Q' a w') -> wp X p Q' w.
Proof. unfold wp. destruct (run p w) as [[]]; auto. Qed.

Lemma wp_and {A} (p : prog E A) (Q Q' : A -> World -> Prop) w :
  wp X p Q w -> wp X p Q' w -> wp X p (fun a w' => Q a w' /\ Q' a w') w.
Proof. unfold wp. destruct (run p w) as [[]]; auto. Qed.

Lemma wp_run {A} (p : prog E A) Q w a w' : run p w = (ROk a, w') -> wp X p Q w -> Q a w'.
Proof. unfold wp. by intros ->. Qed.

Lemma wp_run_throw {A} (p : prog E A) Q w m w' :
  run p w = (RThrow m, w') -> wp X p Q w -> X m.
Proof. unfold wp. by intros ->. Qed.

Lemma wp_ok {A} (p : prog E A) Q w a w' : run p w = (ROk a, w') -> Q a w' -> wp X p Q w.
Proof. unfold wp. by intros ->. Qed.

Lemma wp_if {A} (b : bool) (p q : prog E A) Q w :
  (b = true -> wp X p Q w) -> (b = false -> wp X q Q w) -> wp X (if b then p else q) Q w.
Proof. destruct b; auto. Qed.

Lemma wp_fail_if (b : bool) (e : E) Q w :
  (b = false -> Q tt w) -> wp X (fail_if b e) Q w.
Proof. destruct b; [done|]. intros H. by apply H. Qed.

Lemma wp_assert_throw (b : bool) m Q w :
  (b = true -> Q tt w) -> (b = false -> X m) -> wp X (monad_assert_throw (E := E) b m) Q w.
Proof. destruct b; unfold wp; simpl; auto. Qed.

Lemma wp_assert (b : bool) Q w :
  (b = true -> Q tt w) -> wp X (monad_assert (E := E) b) Q w.
Proof. destruct b; [|done]. intros H. by apply H. Qed.

Lemma wp_lift {F A} (inj : F -> E) (r : A + F) Q w :
  (forall a, r = inl a -> Q a w) -> wp X (lift inj r) Q w.
Proof. destruct r; [|done]. intros H. by apply H. Qed.

Lemma wp_get_balance a Q w :
  Q (balance w a) w -> wp X (trigger (GetBalance a) : prog E _) Q w.
Proof. done. Qed.

Lemma wp_add_to_balance a (delta : u256) Q w :
  (balance w a + delta < modulus 256 -> Q tt (set_balance w a #(balance w a + delta))) ->
  X "balance overflow" -> wp X (trigger (AddToBalance a delta) : prog E _) Q w.
Proof.
  unfold wp, run. simpl. intros HQ HX.
  destruct (Z.leb_spec (balance w a) (modulus 256 - 1 - delta)); [|done]. apply HQ. lia.
Qed.

Lemma wp_subtract_from_balance a (delta : u256) Q w :
  (delta <= balance w a -> Q tt (set_balance w a #(balance w a - delta))) ->
  (balance w a < delta -> X "balance underflow") ->
  wp X (trigger (SubtractFromBalance a delta) : prog E _) Q w.
Proof.
  unfold wp, run. simpl. intros HQ HX.
  destruct (Z.leb_spec delta (balance w a)); auto.
Qed.
End wp.

(** ** Total correctness

    [twp p Q w]: [p] run from [w] succeeds, and its result and final world
    satisfy [Q]. *)
Definition twp {E A} (p : prog E A) (Q : A -> World -> Prop) (w : World) : Prop :=
  exists a w', run p w = (ROk a, w') /\ Q a w'.

Section twp.
Context {E : Type}.
Implicit Types w : World.

Lemma twp_ret {A} (a : A) Q w : Q a w -> twp (Ret a : prog E A) Q w.
Proof. intros HQ. by exists a, w. Qed.

Lemma twp_bind {A C} (p : prog E A) (f : A -> prog E C) Q w :
  twp p (fun a => twp (f a) Q) w -> twp (bind p f) Q w.
Proof.
  intros (a & w1 & Hp & c & w2 & Hf & HQ). exists c, w2. split; [|done]. by rewrite run_bind, Hp.
Qed.

Lemma twp_mono {A} (p : prog E A) (Q Q' : A -> World -> Prop) w :
  twp p Q w -> (forall a w', Q a w' -> Q' a w') -> twp p Q' w.
Proof. intros (a & w' & Hr & HQ) HQQ. exists a, w'. auto. Qed.

Lemma twp_run {A} (p : prog E A) Q w a w' : run p w = (ROk a, w') -> Q a w' -> twp p Q w.
Proof. intros Hr HQ. by exists a, w'. Qed.

Lemma twp_fail_if (b : bool) (e : E) Q w : b = false -> Q tt w -> twp (fail_if b e) Q w.
Proof. intros -> HQ. by apply twp_ret. Qed.
End twp.

Lemma balance_set_balance w a v b :
  balance (set_balance w a v) b = if decide (a = b) then v else balance w b.
Proof.
  unfold balance, set_balance. simpl. case_decide as E.
  - by rewrite E, lookup_insert_eq.
  - by rewrite lookup_insert_ne.
Qed.
