(* ===== verification/Storage.v ===== *)
(** * Contract storage: [StorageVariable] and [StorageArray]

    Models src/category/execution/ethereum/core/contract/storage_variable.hpp
    and storage_array.hpp.  [Layout T] states how the C++ type [T] is laid out
    in memory; [to_slots]/[from_slots] cut the zero-padded object into 32-byte
    words.  [load], [load_checked], [store] and [clear] are programs;
    [rd] and [wr] are what they do to a [World], with the read-over-write laws
    every client uses. *)
From S2P Require Import Prelude Prog.

(** The memory layout of a type with unique object representations: its size in
    bits, its bytes read as one big-endian number, and back. *)
Class Layout (T : Type) := {
  layout_bits : N;
  enc : T -> uword layout_bits;
  dec : uword layout_bits -> T;
  dec_enc : forall t, dec (enc t) = t;
  layout_some : (0 < layout_bits)%N;
  layout_small : (layout_bits <= 4096)%N;
}.
Arguments layout_bits T {_}.

(** [N], the number of slots: [(sizeof(T) + 31) / 32]. *)
Definition nslots (T : Type) `{Layout T} : nat := N.to_nat ((layout_bits T + 255) / 256).

Definition slot_pad (T : Type) `{Layout T} : N := 256 * N.of_nat (nslots T) - layout_bits T.

Fixpoint split_slots (n : nat) (z : Z) : list bytes32 :=
  match n with
  | O => []
  | S n' => #(z / modulus (256 * N.of_nat n')) :: split_slots n' z
  end.

Fixpoint join_slots (l : list bytes32) : Z :=
  match l with
  | [] => 0
  | s :: l' => s * modulus (256 * N.of_nat (length l')) + join_slots l'
  end.

Definition to_slots {T} `{Layout T} (t : T) : list bytes32 :=
  split_slots (nslots T) (enc t * modulus (slot_pad T)).

Definition from_slots {T} `{Layout T} (slots : list bytes32) : T :=
  dec #(join_slots slots / modulus (slot_pad T)).

Record StorageVariable (T : Type) := SV { sv_address : address; sv_offset : u256 }.
Arguments SV {T} _ _.
Arguments sv_address {T} _.
Arguments sv_offset {T} _.

(** The [i]-th slot of a variable: [store_be_as<bytes32_t>(offset_ + i)]. *)
Definition sv_slot {T} (v : StorageVariable T) (i : nat) : bytes32 :=
  #(sv_offset v + Z.of_nat i).

Section StorageVariable.
Context {E T : Type} `{Layout T}.
Implicit Types v : StorageVariable T.

Fixpoint get_slots v (i n : nat) : prog E (list bytes32) :=
  match n with
  | O => Ret []
  | S n' =>
      s <- trigger (GetStorage (sv_address v) (sv_slot v i)) ;;
      rest <- get_slots v (S i) n' ;;
      Ret (s :: rest)
  end.

Fixpoint store_ v (i : nat) (slots : list bytes32) : prog E unit :=
  match slots with
  | [] => Ret tt
  | s :: slots' =>
      trigger (SetStorage (sv_address v) (sv_slot v i) s) ;;
      store_ v (S i) slots'
  end.

Definition load v : prog E T :=
  slots <- get_slots v 0 (nslots T) ;;
  Ret (from_slots slots).

Definition has_data (slots : list bytes32) : bool :=
  existsb (fun s : bytes32 => negb (s =? 0)) slots.

Definition load_checked v : prog E (option T) :=
  slots <- get_slots v 0 (nslots T) ;;
  Ret (if has_data slots then Some (from_slots slots) else None).

Definition store v (value : T) : prog E unit := store_ v 0 (to_slots value).

Definition clear v : prog E unit := store_ v 0 (replicate (nslots T) #0).
End StorageVariable.

(** ** What the operations do to a world *)
Definition rd_slots {T} (w : World) (v : StorageVariable T) (i n : nat) : list bytes32 :=
  (fun j => slot w (sv_address v) (sv_slot v j)) <$> seq i n.

Definition rd {T} `{Layout T} (w : World) (v : StorageVariable T) : T :=
  from_slots (rd_slots w v 0 (nslots T)).

Definition rd_checked {T} `{Layout T} (w : World) (v : StorageVariable T) : option T :=
  let slots := rd_slots w v 0 (nslots T) in
  if has_data slots then Some (from_slots slots) else None.

Fixpoint wr_slots {T} (w : World) (v : StorageVariable T) (i : nat) (l : list bytes32) : World :=
  match l with
  | [] => w
  | s :: l' => wr_slots (set_slot w (sv_address v) (sv_slot v i) s) v (S i) l'
  end.

Definition wr {T} `{Layout T} (w : World) (v : StorageVariable T) (t : T) : World :=
  wr_slots w v 0 (to_slots t).

Definition wipe {T} `{Layout T} (w : World) (v : StorageVariable T) : World :=
  wr_slots w v 0 (replicate (nslots T) #0).

Lemma length_split_slots n z : length (split_slots n z) = n.
Proof. induction n; simpl; auto. Qed.

Lemma modulus_mul_succ n : modulus (256 * N.of_nat (S n)) = modulus 256 * modulus (256 * N.of_nat n).
Proof. rewrite <- modulus_add. f_equal. lia. Qed.

Lemma join_split_slots n z :
  join_slots (split_slots n z) = z mod modulus (256 * N.of_nat n).
Proof.
  induction n as [|n IH]; cbn [split_slots join_slots].
  - change (modulus (256 * N.of_nat 0)) with 1. by rewrite Z.mod_1_r.
  - rewrite IH, length_split_slots, modulus_mul_succ, uval_wrap.
    pose proof (modulus_pos (256 * N.of_nat n)). pose proof (modulus_pos 256).
    set (m := modulus (256 * N.of_nat n)) in *.
    rewrite (Z.mul_comm (modulus 256)), Z.rem_mul_r by lia. lia.
Qed.

Lemma nslots_spec T `{Layout T} :
  (256 * N.of_nat (nslots T) = layout_bits T + slot_pad T)%N.
Proof.
  unfold slot_pad. unfold nslots. rewrite N2Nat.id.
  pose proof (N.div_mod (layout_bits T + 255) 256 ltac:(done)) as E.
  pose proof (N.mod_lt (layout_bits T + 255) 256 ltac:(done)). lia.
Qed.

Lemma nslots_pos T `{Layout T} : (0 < nslots T)%nat.
Proof. pose proof (nslots_spec T). pose proof (layout_some (T := T)). lia. Qed.

Lemma nslots_small T `{Layout T} : (nslots T <= 16)%nat.
Proof.
  unfold nslots. pose proof (layout_small (T := T)).
  enough ((layout_bits T + 255) / 256 <= 16)%N by lia.
  apply N.lt_succ_r, N.Div0.div_lt_upper_bound. lia.
Qed.

(** Cutting an object into slots and reading it back is the identity. *)
Lemma from_to_slots {T} `{Layout T} (t : T) : from_slots (to_slots t) = t.
Proof.
  unfold from_slots, to_slots. rewrite join_split_slots, nslots_spec, modulus_add.
  pose proof (uword_range (enc t)). pose proof (modulus_pos (slot_pad T)).
  pose proof (modulus_pos (layout_bits T)).
  rewrite Z.mod_small by nia. rewrite Z.div_mul by lia.
  rewrite wrap_uval. apply dec_enc.
Qed.

Lemma length_to_slots {T} `{Layout T} (t : T) : length (to_slots t) = nslots T.
Proof. apply length_split_slots. Qed.

Lemma slot_set_slot w a k v a' k' :
  slot (set_slot w a k v) a' k' =
  if decide ((a, k) = (a', k')) then v else slot w a' k'.
Proof.
  unfold slot, set_slot. cbn [w_storage]. case_decide as E.
  - by rewrite E, lookup_insert_eq.
  - by rewrite lookup_insert_ne.
Qed.

Section laws.
Context {E T : Type} `{Layout T}.
Implicit Types (v : StorageVariable T) (w : World).

Lemma run_get_slots v w i n :
  run (get_slots (E := E) v i n) w = (ROk (rd_slots w v i n), w).
Proof.
  revert i. induction n as [|n IH]; intros i; simpl; [done|].
  unfold run in *. simpl. rewrite run_with_bind, IH. done.
Qed.

Lemma run_store_ v w i l :
  run (store_ (E := E) v i l) w = (ROk tt, wr_slots w v i l).
Proof.
  revert i w. induction l as [|s l IH]; intros i w; simpl; [done|].
  unfold run in *. simpl. apply IH.
Qed.

Lemma run_load v w : run (load (E := E) v) w = (ROk (rd w v), w).
Proof. unfold load. by rewrite run_bind, run_get_slots. Qed.

Lemma run_load_checked v w : run (load_checked (E := E) v) w = (ROk (rd_checked w v), w).
Proof. unfold load_checked. by rewrite run_bind, run_get_slots. Qed.

Lemma run_store v w t : run (store (E := E) v t) w = (ROk tt, wr w v t).
Proof. apply run_store_. Qed.

Lemma run_clear v w : run (clear (E := E) v) w = (ROk tt, wipe w v).
Proof. apply run_store_. Qed.

Lemma wp_load X v Q w : Q (rd w v) w -> wp X (load (E := E) v) Q w.
Proof. unfold wp. by rewrite run_load. Qed.

Lemma wp_load_checked X v Q w : Q (rd_checked w v) w -> wp X (load_checked (E := E) v) Q w.
Proof. unfold wp. by rewrite run_load_checked. Qed.

Lemma wp_store X v t Q w : Q tt (wr w v t) -> wp X (store (E := E) v t) Q w.
Proof. unfold wp. by rewrite run_store. Qed.

Lemma wp_clear X v Q w : Q tt (wipe w v) -> wp X (clear (E := E) v) Q w.
Proof. unfold wp. by rewrite run_clear. Qed.

Lemma twp_load v Q w : Q (rd w v) w -> twp (load (E := E) v) Q w.
Proof. intros HQ. eapply twp_run; [apply run_load|done]. Qed.

Lemma twp_load_checked v Q w : Q (rd_checked w v) w -> twp (load_checked (E := E) v) Q w.
Proof. intros HQ. eapply twp_run; [apply run_load_checked|done]. Qed.

Lemma twp_store v t Q w : Q tt (wr w v t) -> twp (store (E := E) v t) Q w.
Proof. intros HQ. eapply twp_run; [apply run_store|done]. Qed.

Lemma twp_clear v Q w : Q tt (wipe w v) -> twp (clear (E := E) v) Q w.
Proof. intros HQ. eapply twp_run; [apply run_clear|done]. Qed.
End laws.

(** ** Read over write *)

(** Two variables that share no slot. *)
Definition sv_disjoint {T U} `{Layout T} `{Layout U}
    (v : StorageVariable T) (v' : StorageVariable U) : Prop :=
  forall i j, (i < nslots T)%nat -> (j < nslots U)%nat ->
    (sv_address v, sv_slot v i) <> (sv_address v', sv_slot v' j).

Lemma sv_disjoint_sym {T U} `{Layout T} `{Layout U}
    (v : StorageVariable T) (v' : StorageVariable U) : sv_disjoint v v' -> sv_disjoint v' v.
Proof. intros D i j Hi Hj E. by apply (D j i). Qed.

Lemma sv_slot_inj {T} (v : StorageVariable T) i j :
  (i < 32)%nat -> (j < 32)%nat -> sv_slot v i = sv_slot v j -> i = j.
Proof.
  intros Hi Hj E%(f_equal uval). unfold sv_slot in E. rewrite !uval_wrap in E.
  pose proof (uword_range (sv_offset v)). unfold modulus in *. simpl Z.of_N in *.
  Z.div_mod_to_equations. lia.
Qed.

Section read_over_write.
Context {T : Type} `{Layout T}.
Implicit Types (v : StorageVariable T) (w : World) (t : T).

Lemma slot_wr_slots_ne w v i l a k :
  (forall j, (i <= j < i + length l)%nat -> (sv_address v, sv_slot v j) <> (a, k)) ->
  slot (wr_slots w v i l) a k = slot w a k.
Proof.
  revert w i. induction l as [|s l IH]; intros w i Hne; simpl; [done|].
  rewrite IH by (intros j Hj; apply Hne; simpl; lia).
  rewrite slot_set_slot, decide_False; [done|]. apply Hne. simpl. lia.
Qed.

Lemma rd_slots_wr_slots w v i l :
  (i + length l <= 32)%nat -> rd_slots (wr_slots w v i l) v i (length l) = l.
Proof.
  unfold rd_slots. revert w i. induction l as [|s l IH]; intros w i Hl; simpl in *; [done|].
  f_equal; [|apply IH; lia].
  rewrite slot_wr_slots_ne, slot_set_slot, decide_True; [done..|].
  intros j Hj E%(f_equal snd). apply sv_slot_inj in E; lia.
Qed.

Lemma rd_wr w v t : rd (wr w v t) v = t.
Proof.
  unfold rd, wr. rewrite <- (length_to_slots t) at 1.
  rewrite rd_slots_wr_slots; [apply from_to_slots|].
  rewrite length_to_slots. pose proof (nslots_small T). lia.
Qed.

Lemma rd_slots_ne {U} `{Layout U} w v (v' : StorageVariable U) l i n :
  sv_disjoint v v' -> length l = nslots T -> (i + n <= nslots U)%nat ->
  rd_slots (wr_slots w v 0 l) v' i n = rd_slots w v' i n.
Proof.
  intros D L Hn. unfold rd_slots. apply list_fmap_ext. intros j0 j [-> Hj]%lookup_seq.
  apply slot_wr_slots_ne. intros k Hk. apply D; lia.
Qed.

Lemma rd_wr_ne {U} `{Layout U} w v (v' : StorageVariable U) t :
  sv_disjoint v v' -> rd (wr w v t) v' = rd w v'.
Proof. intros D. unfold rd, wr. rewrite rd_slots_ne; auto using length_to_slots. Qed.

Lemma rd_wipe_ne {U} `{Layout U} w v (v' : StorageVariable U) :
  sv_disjoint v v' -> rd (wipe w v) v' = rd w v'.
Proof. intros D. unfold rd, wipe. rewrite rd_slots_ne; auto using length_replicate. Qed.

Lemma rd_checked_wr_ne {U} `{Layout U} w v (v' : StorageVariable U) t :
  sv_disjoint v v' -> rd_checked (wr w v t) v' = rd_checked w v'.
Proof. intros D. unfold rd_checked, wr. rewrite rd_slots_ne; auto using length_to_slots. Qed.

Lemma rd_checked_wipe_ne {U} `{Layout U} w v (v' : StorageVariable U) :
  sv_disjoint v v' -> rd_checked (wipe w v) v' = rd_checked w v'.
Proof. intros D. unfold rd_checked, wipe. rewrite rd_slots_ne; auto using length_replicate. Qed.

Lemma rd_slots_wipe w v : rd_slots (wipe w v) v 0 (nslots T) = replicate (nslots T) #0.
Proof.
  unfold wipe. rewrite <- (length_replicate (nslots T) (#0 : bytes32)) at 2.
  apply rd_slots_wr_slots. rewrite length_replicate. pose proof (nslots_small T). lia.
Qed.

Lemma has_data_zeros n : has_data (replicate n #0) = false.
Proof. induction n as [|n IH]; simpl; [done|]. by rewrite IH. Qed.

Lemma rd_checked_wipe w v : rd_checked (wipe w v) v = None.
Proof. unfold rd_checked. by rewrite rd_slots_wipe, has_data_zeros. Qed.

(** A cleared variable reads as the all-zero object. *)
Definition zero_obj : T := dec #0.

Lemma join_zeros n : join_slots (replicate n #0) = 0.
Proof.
  induction n as [|n IH]; simpl; [done|]. rewrite IH, uval_wrap_0. lia.
Qed.

Lemma rd_no_data w v : rd_checked w v = None -> rd w v = zero_obj.
Proof.
  unfold rd_checked, rd. set (l := rd_slots w v 0 (nslots T)).
  destruct (has_data l) eqn:E; [done|]. intros _.
  assert (l = replicate (length l) #0) as ->.
  { induction l as [|s l IH]; simpl in *; [done|].
    apply orb_false_iff in E as [E1%negb_false_iff%Z.eqb_eq E2].
    f_equal; [|by apply IH]. apply uval_inj. by rewrite uval_wrap_0. }
  unfold from_slots, zero_obj. rewrite join_zeros. by rewrite Zdiv_0_l.
Qed.

Lemma rd_wipe w v : rd (wipe w v) v = zero_obj.
Proof. apply rd_no_data, rd_checked_wipe. Qed.

Lemma rd_checked_Some w v t : rd_checked w v = Some t -> rd w v = t.
Proof. unfold rd_checked, rd. destruct (has_data _); [|done]. by intros [= ->]. Qed.

(** Writes touch neither balances nor logs. *)
Lemma wr_slots_frame w v i l :
  w_balance (wr_slots w v i l) = w_balance w /\ w_logs (wr_slots w v i l) = w_logs w /\
  w_traced (wr_slots w v i l) = w_traced w.
Proof.
  revert w i. induction l as [|s l IH]; intros w i; simpl; [done|].
  apply (IH (set_slot w (sv_address v) (sv_slot v i) s) (S i)).
Qed.

Lemma balance_wr w v t a : balance (wr w v t) a = balance w a.
Proof. unfold balance, wr. by destruct (wr_slots_frame w v 0 (to_slots t)) as [-> _]. Qed.

Lemma balance_wipe w v a : balance (wipe w v) a = balance w a.
Proof.
  unfold balance, wipe. by destruct (wr_slots_frame w v 0 (replicate (nslots T) #0)) as [-> _].
Qed.
End read_over_write.

#[export] Hint Rewrite @run_load @run_load_checked @run_store @run_clear : run.

(** ** Basic layouts *)
#[export, program] Instance layout_word n (H0 : TCEq (N.ltb 0 n) true) (H1 : TCEq (N.leb n 4096) true) :
  Layout (uword n) := {| layout_bits := n; enc := id; dec := id |}.
Next Obligation. done. Qed.
Next Obligation. intros n H0 H1. apply TCEq_eq in H0. by apply N.ltb_lt. Qed.
Next Obligation. intros n H0 H1. apply TCEq_eq in H1. by apply N.leb_le. Qed.

#[export, program] Instance layout_bool : Layout bool :=
  {| layout_bits := 8; enc b := if b then #1 else #0; dec x := negb (x =? 0) |}.
Next Obligation. by intros []. Qed.
Next Obligation. done. Qed.
Next Obligation. done. Qed.

(** ** Arrays: the length, then the elements *)
Record StorageArray (T : Type) := SA { sa_address : address; sa_slot : bytes32 }.
Arguments SA {T} _ _.
Arguments sa_address {T} _.
Arguments sa_slot {T} _.

Section StorageArray.
Context {E T : Type} `{Layout T}.
Implicit Types a : StorageArray T.

Definition sa_length_ a : StorageVariable u64 := SV (sa_address a) (sa_slot a).
Definition sa_start_index a : u256 := #(sa_slot a + 1).

Definition sa_length a : prog E u64 := load (sa_length_ a).

Definition sa_empty a : prog E bool :=
  len <- sa_length a ;; Ret (len =? 0).

Definition sa_get a (index : u64) : StorageVariable T :=
  SV (sa_address a) #(sa_start_index a + wrap 64 (index * Z.of_nat (nslots T))).

Definition sa_push a (value : T) : prog E unit :=
  len <- sa_length a ;;
  store (sa_get a len) value ;;
  store (sa_length_ a) #(len + 1).

Definition sa_pop a : prog E T :=
  len <- sa_length a ;;
  monad_assert (0 <? len) ;;
  let len : u64 := #(len - 1) in
  let var := sa_get a len in
  value <- load var ;;
  clear var ;;
  store (sa_length_ a) len ;;
  Ret value.
End StorageArray.

(** ** Single-word variables *)
Lemma to_slots_word (x : u256) : to_slots x = [x].
Proof.
  unfold to_slots. change (nslots u256) with 1%nat. change (slot_pad u256) with 0%N.
  cbn [split_slots]. change (modulus (256 * N.of_nat 0)) with 1. change (modulus 0) with 1.
  rewrite Z.mul_1_r, Z.div_1_r. f_equal. apply wrap_uval.
Qed.

Lemma sv_slot_0 {T} (v : StorageVariable T) : sv_slot v 0 = sv_offset v.
Proof. unfold sv_slot. rewrite Z.add_0_r. apply wrap_uval. Qed.

Lemma wr_word w (v : StorageVariable u256) x :
  wr w v x = set_slot w (sv_address v) (sv_offset v) x.
Proof. unfold wr. rewrite to_slots_word. simpl. by rewrite sv_slot_0. Qed.

Lemma wipe_word w (v : StorageVariable u256) :
  wipe w v = set_slot w (sv_address v) (sv_offset v) #0.
Proof. unfold wipe. simpl. by rewrite sv_slot_0. Qed.

Lemma rd_word w (v : StorageVariable u256) : rd w v = slot w (sv_address v) (sv_offset v).
Proof.
  unfold rd, rd_slots. change (nslots u256) with 1%nat. simpl. rewrite sv_slot_0.
  generalize (slot w (sv_address v) (sv_offset v)). intros s.
  rewrite <- (from_to_slots s) at 2. by rewrite to_slots_word.
Qed.

(** ** Worlds that agree on storage *)
Lemma rd_same_storage {T} `{Layout T} w w' (v : StorageVariable T) :
  w_storage w' = w_storage w -> rd w' v = rd w v.
Proof. intros Es. unfold rd, rd_slots, slot. by rewrite Es. Qed.

Lemma rd_checked_same_storage {T} `{Layout T} w w' (v : StorageVariable T) :
  w_storage w' = w_storage w -> rd_checked w' v = rd_checked w v.
Proof. intros Es. unfold rd_checked, rd_slots, slot. by rewrite Es. Qed.

Lemma rd_same_slots {T} `{Layout T} w w' (v : StorageVariable T) :
  (forall j, (j < nslots T)%nat ->
     slot w' (sv_address v) (sv_slot v j) = slot w (sv_address v) (sv_slot v j)) ->
  rd w' v = rd w v.
Proof.
  intros Heq. unfold rd, rd_slots. f_equal. apply list_fmap_ext. intros i j [-> Hj]%lookup_seq.
  by apply Heq.
Qed.

(** From here on worlds are manipulated through the laws above. *)
#[global] Opaque rd wr wipe rd_checked.

(** ** Arrays as lists *)
Section array_list.
Context {E T : Type} `{Layout T}.
Implicit Types (a : StorageArray T) (w : World).

Definition arr_len w a : u64 := rd w (sa_length_ a).

(** The elements of an array, in order. *)
Definition arr w a : list T :=
  (fun i => rd w (sa_get a #(Z.of_nat i))) <$> seq 0 (Z.to_nat (arr_len w a)).

(** There is room for one more element: no index computation wraps. *)
Definition room w a : Prop := (arr_len w a + 1) * Z.of_nat (nslots T) < 2 ^ 64.

Lemma length_arr w a : length (arr w a) = Z.to_nat (arr_len w a).
Proof. unfold arr. by rewrite length_fmap, length_seq. Qed.

(** Where the [j]-th slot of the element [i] lies. *)
Lemma sa_get_slot a i j :
  0 <= i -> (i + 1) * Z.of_nat (nslots T) < 2 ^ 64 -> (j < nslots T)%nat ->
  uval (sv_slot (sa_get a #i) j) =
  (sa_slot a + (1 + i * Z.of_nat (nslots T) + Z.of_nat j)) mod 2 ^ 256.
Proof.
  intros Hi Hr Hj. unfold sv_slot, sa_get, sa_start_index. cbn [sv_offset].
  rewrite !uval_wrap. change (modulus 64) with (2 ^ 64). change (modulus 256) with (2 ^ 256).
  rewrite (Z.mod_small i) by nia. rewrite (Z.mod_small (i * _)) by nia.
  rewrite Z.add_mod_idemp_l by lia. rewrite <- Z.add_assoc, Z.add_mod_idemp_l by lia.
  f_equal. lia.
Qed.

Lemma add_mod_inj (x a b : Z) :
  0 <= a < 2 ^ 256 -> 0 <= b < 2 ^ 256 -> (x + a) mod 2 ^ 256 = (x + b) mod 2 ^ 256 -> a = b.
Proof.
  intros Ha Hb E1. pose proof (Z.div_mod (x + a) (2 ^ 256) ltac:(lia)).
  pose proof (Z.div_mod (x + b) (2 ^ 256) ltac:(lia)). nia.
Qed.

Lemma sa_get_disjoint_length a i :
  0 <= i -> (i + 1) * Z.of_nat (nslots T) < 2 ^ 64 -> sv_disjoint (sa_get a #i) (sa_length_ a).
Proof.
  intros Hi Hr j k Hj Hk E1%(f_equal (fun p => uval (snd p))). cbn [snd] in E1. rewrite sa_get_slot in E1 by done.
  change (nslots u64) with 1%nat in Hk. assert (k = 0%nat) as -> by lia.
  unfold sv_slot, sa_length_ in E1. cbn [sv_offset] in E1. rewrite uval_wrap in E1.
  apply add_mod_inj in E1; nia.
Qed.

Lemma sa_get_disjoint a i i' :
  i <> i' -> 0 <= i -> 0 <= i' -> (i + 1) * Z.of_nat (nslots T) < 2 ^ 64 ->
  (i' + 1) * Z.of_nat (nslots T) < 2 ^ 64 -> sv_disjoint (sa_get a #i) (sa_get a #i').
Proof.
  intros Hne Hi Hi' Hr Hr' j k Hj Hk E1%(f_equal (fun p => uval (snd p))). cbn [snd] in E1. rewrite !sa_get_slot in E1 by done.
  apply add_mod_inj in E1; nia.
Qed.

Definition push_world w a (x : T) : World :=
  wr (wr w (sa_get a (arr_len w a)) x) (sa_length_ a) #(arr_len w a + 1).

Lemma run_sa_push w a x : run (sa_push (E := E) a x) w = (ROk tt, push_world w a x).
Proof.
  unfold sa_push, sa_length. rewrite run_bind, run_load.
  rewrite run_bind, run_store. by rewrite run_store.
Qed.
Lemma arr_len_range w a : room w a -> 0 <= arr_len w a /\ arr_len w a + 1 < 2 ^ 64.
Proof.
  unfold room. intros Hr. pose proof (uword_range (arr_len w a)).
  pose proof (nslots_pos T). nia.
Qed.

Lemma rd_elem_other w a i {U} `{Layout U} (v : StorageVariable U) (x : U) :
  sv_disjoint (sa_get a i) v -> rd (wr w v x) (sa_get a i) = rd w (sa_get a i).
Proof. intros D. by apply rd_wr_ne, sv_disjoint_sym. Qed.

Lemma arr_push w a x : room w a -> arr (push_world w a x) a = arr w a ++ [x].
Proof.
  intros Hr. destruct (arr_len_range w a Hr) as [H0 H1]. unfold room in Hr.
  unfold arr. replace (arr_len (push_world w a x) a) with (#(arr_len w a + 1) : u64)
    by (unfold push_world, arr_len at 2; by rewrite rd_wr).
  rewrite uval_wrap_small by (change (modulus 64) with (2 ^ 64); lia).
  rewrite Z2Nat.inj_add, Nat.add_1_r, seq_S, fmap_app by lia. simpl. f_equal.
  - apply list_fmap_ext. intros j i [-> Hi]%lookup_seq. unfold push_world.
    rewrite rd_elem_other by (apply sa_get_disjoint_length; nia).
    apply rd_elem_other. rewrite <- (wrap_uval (arr_len w a)). apply sa_get_disjoint; nia.
  - f_equal. unfold push_world. rewrite Z2Nat.id, wrap_uval by lia.
    rewrite rd_elem_other; [apply rd_wr|].
    rewrite <- (wrap_uval (arr_len w a)). apply sa_get_disjoint_length; lia.
Qed.

(** Overwriting an element in place; past the end, nothing is seen. *)
Lemma arr_store w a (i : nat) x :
  (Z.of_nat i + 1) * Z.of_nat (nslots T) < 2 ^ 64 ->
  arr_len w a * Z.of_nat (nslots T) < 2 ^ 64 ->
  arr (wr w (sa_get a #(Z.of_nat i)) x) a = <[i:=x]> (arr w a).
Proof.
  intros Hi Hl. pose proof (uword_range (arr_len w a)). pose proof (nslots_pos T).
  apply list_eq. intros j. unfold arr.
  replace (arr_len (wr w _ x) a) with (arr_len w a)
    by (unfold arr_len; by rewrite rd_wr_ne by (apply sa_get_disjoint_length; lia)).
  rewrite list_lookup_fmap. destruct (decide (j < Z.to_nat (arr_len w a))%nat) as [Hj|Hj].
  - rewrite lookup_seq_lt by done. simpl. destruct (decide (i = j)) as [->|Hne].
    + rewrite rd_wr, list_lookup_insert_eq; [done|]. by rewrite length_fmap, length_seq.
    + rewrite list_lookup_insert_ne, list_lookup_fmap, lookup_seq_lt by done. simpl.
      rewrite rd_wr_ne; [done|]. apply sa_get_disjoint; nia.
  - rewrite lookup_seq_ge by lia. symmetry. apply lookup_ge_None_2.
    rewrite length_insert, length_fmap, length_seq. lia.
Qed.

Lemma arr_lookup w a (i : nat) :
  (i < Z.to_nat (arr_len w a))%nat -> arr w a !! i = Some (rd w (sa_get a #(Z.of_nat i))).
Proof. intros Hi. unfold arr. by rewrite list_lookup_fmap, lookup_seq_lt. Qed.

Definition pop_world w a : World :=
  let len : u64 := #(arr_len w a - 1) in
  wr (wipe w (sa_get a len)) (sa_length_ a) len.

Lemma run_sa_pop w a :
  0 < arr_len w a ->
  run (sa_pop (E := E) a) w = (ROk (rd w (sa_get a #(arr_len w a - 1))), pop_world w a).
Proof.
  intros Hl. unfold sa_pop, sa_length. rewrite run_bind, run_load. fold (arr_len w a).
  unfold monad_assert. apply Z.ltb_lt in Hl. rewrite Hl.
  rewrite run_bind, run_ret. cbv zeta. rewrite run_bind, run_load.
  rewrite run_bind, run_clear, run_bind, run_store. by rewrite run_ret.
Qed.

Lemma arr_pop w a l x :
  (arr_len w a) * Z.of_nat (nslots T) < 2 ^ 64 -> arr w a = l ++ [x] ->
  0 < arr_len w a /\ rd w (sa_get a #(arr_len w a - 1)) = x /\ arr (pop_world w a) a = l.
Proof.
  intros Hr Ha. pose proof (length_arr w a) as HL. rewrite Ha, length_app in HL. simpl in HL.
  pose proof (uword_range (arr_len w a)). pose proof (nslots_pos T).
  assert (Hpos : 0 < arr_len w a) by lia. split; [done|].
  set (n := Z.to_nat (arr_len w a - 1)).
  assert (Hn : Z.to_nat (arr_len w a) = S n) by lia.
  unfold arr in Ha. rewrite Hn, seq_S, fmap_app in Ha. simpl in Ha.
  apply app_inj_tail in Ha as [<- <-]. unfold n. rewrite Z2Nat.id by lia. split; [done|].
  unfold arr. replace (arr_len (pop_world w a) a) with (#(arr_len w a - 1) : u64)
    by (unfold pop_world, arr_len at 2; by rewrite rd_wr).
  rewrite uval_wrap_small by (change (modulus 64) with (2 ^ 64) in *; lia).
  apply list_fmap_ext. intros j i [-> Hi]%lookup_seq. unfold pop_world.
  rewrite rd_elem_other by (apply sa_get_disjoint_length; nia).
  apply rd_wipe_ne, sa_get_disjoint; nia.
Qed.
End array_list.

(** ** Theorems *)

(** C14: storage round trip.  A stored object is read back, whatever its layout
    and however many slots it takes; a cleared one reads as absent; and neither
    write is seen through a variable that shares no slot with it. *)
Theorem storage_round_trip {E T U} `{Layout T} `{Layout U}
    (v : StorageVariable T) (v' : StorageVariable U) (t : T) w :
  sv_disjoint v v' ->
  (exists w', run (store (E := E) v t) w = (ROk tt, w') /\
     run (load (E := E) v) w' = (ROk t, w') /\
     fst (run (load_checked (E := E) v') w') = fst (run (load_checked v') w)) /\
  (exists w', run (clear (E := E) v) w = (ROk tt, w') /\
     run (load_checked (E := E) v) w' = (ROk None, w') /\
     fst (run (load_checked (E := E) v') w') = fst (run (load_checked v') w)).
Proof.
  intros D. split.
  - exists (wr w v t). autorewrite with run. rewrite rd_wr, rd_checked_wr_ne by done. done.
  - exists (wipe w v). autorewrite with run. rewrite rd_checked_wipe, rd_checked_wipe_ne by done. done.
Qed.

Lemma storage_round_trip_witness : exists w',
  run (store (E := unit) (SV (#5 : address) (#7 : u256)) true) (mk_world ∅ ∅ [] []) = (ROk tt, w') /\
  run (load (E := unit) (SV (T := bool) #5 #7)) w' = (ROk true, w').
Proof.
  destruct (storage_round_trip (E := unit) (SV (T := bool) #5 #7) (SV (T := u64) #5 #8) true
    (mk_world ∅ ∅ [] [])) as [(w' & Hs & Hl & _) _].
  { intros i j Hi Hj. change (nslots bool) with 1%nat in Hi. change (nslots u64) with 1%nat in Hj.
    assert (i = 0%nat) as -> by lia. assert (j = 0%nat) as -> by lia.
    intros E%(f_equal (fun p => uval (snd p))). discriminate E. }
  exists w'. split; [exact Hs|exact Hl].
Defined.

(** Arrays are stacks.  With room for one more element, [push] appends to
    the sequence of elements; [pop] of a non-empty array returns the last
    element and leaves the others; [pop] of an empty array is an assertion
    failure. *)
Theorem array_push_pop {E T} `{Layout T} (a : StorageArray T) (x : T) w :
  room w a ->
  (exists w1, run (sa_push (E := E) a x) w = (ROk tt, w1) /\ arr w1 a = arr w a ++ [x] /\
     exists w2, run (sa_pop (E := E) a) w1 = (ROk x, w2) /\ arr w2 a = arr w a) /\
  (arr w a = [] -> fst (run (sa_pop (E := E) a) w) = RHalt).
Proof.
  intros Hr. split.
  - exists (push_world w a x). rewrite run_sa_push, arr_push by done. split_and!; [done..|].
    destruct (arr_pop (push_world w a x) a (arr w a) x) as (H0 & Hx & Hl).
    + unfold push_world, arr_len at 1. rewrite rd_wr. destruct (arr_len_range w a Hr).
      rewrite uval_wrap_small by (change (modulus 64) with (2 ^ 64); lia). exact Hr.
    + by apply arr_push.
    + exists (pop_world (push_world w a x) a). rewrite run_sa_pop by done. by rewrite Hx.
  - intros Ha%(f_equal length). rewrite length_arr in Ha. cbn [length] in Ha.
    assert (Hz : (0 <? arr_len w a) = false) by (pose proof (uword_range (arr_len w a)); lia).
    unfold sa_pop, sa_length. rewrite run_bind, run_load. fold (arr_len w a).
    unfold monad_assert. by rewrite Hz.
Qed.

Lemma array_push_pop_witness : exists w1,
  run (sa_push (E := unit) (SA (T := u64) #5 #7) #42) (mk_world ∅ ∅ [] []) = (ROk tt, w1) /\
  arr w1 (SA (T := u64) #5 #7) = [ #42 ].
Proof.
  destruct (array_push_pop (E := unit) (SA (T := u64) #5 #7) #42 (mk_world ∅ ∅ [] []))
    as [(w1 & Hp & Ha & _) _]; [reflexivity|].
  exists w1. split; [exact Hp|exact Ha].
Defined.
