(* ===== verification/Abi.v ===== *)
(** * Solidity ABI encoding and decoding

    Models src/category/execution/ethereum/core/contract/abi_encode.hpp,
    abi_decode.hpp and big_endian.hpp.  Byte strings are lists of 8-bit words;
    a [bytes32_t], an [Address] and a [BigEndian<T>] are the number their bytes
    denote, most significant byte first.  [abi_tuple] is the head/tail encoding
    as the Solidity specification defines it, which the incremental
    [AbiEncoder] is proved to produce. *)
From S2P Require Import Prelude.

Abbreviation byte_string := (list u8).

(** Big-endian value of a byte string. *)
Fixpoint bytes_val (l : byte_string) : Z :=
  match l with
  | [] => 0
  | b :: l' => b * 256 ^ Z.of_nat (length l') + bytes_val l'
  end.

(** The [k] big-endian bytes of an integer. *)
Fixpoint to_bytes (k : nat) (z : Z) : byte_string :=
  match k with
  | O => []
  | S k' => #(z / 256 ^ Z.of_nat k') :: to_bytes k' z
  end.

(** The 32 bytes of a [bytes32_t], as appended to a [byte_string]. *)
Definition word_bytes (x : bytes32) : byte_string := to_bytes 32 x.

Definition round_up (n m : Z) : Z := ((n + (m - 1)) / m) * m.

(** ** Encoding *)
Definition abi_encode_address (a : address) : bytes32 := #a.
Definition abi_encode_uint {n} (i : uword n) : bytes32 := #i.
Definition abi_encode_bool (b : bool) : bytes32 :=
  let as_int : u64 := if b then #1 else #0 in
  abi_encode_uint as_int.

Definition zlen {A} (l : list A) : Z := Z.of_nat (length l).

Definition abi_encode_bytes (input : byte_string) : byte_string :=
  let size : u256 := #(zlen input) in
  let padding := round_up (zlen input) 32 - zlen input in
  word_bytes (abi_encode_uint size) ++ input ++ replicate (Z.to_nat padding) #0.

Definition abi_encode_uint_array {n} (arr : list (uword n)) : byte_string :=
  let len_be : u64 := #(zlen arr) in
  word_bytes (abi_encode_uint len_be) ++ (arr ≫= fun e => word_bytes (abi_encode_uint e)).

Definition abi_encode_address_array (arr : list address) : byte_string :=
  let len_be : u64 := #(zlen arr) in
  word_bytes (abi_encode_uint len_be) ++ (arr ≫= fun e => word_bytes (abi_encode_address e)).

Record AbiEncoder := mk_encoder {
  head_ : byte_string;
  tail_ : byte_string;
  unresolved_offsets_ : list (nat * nat);
}.

Definition new_encoder : AbiEncoder := mk_encoder [] [] [].

Definition add_static (data : bytes32) (e : AbiEncoder) : AbiEncoder :=
  mk_encoder (head_ e ++ word_bytes data) (tail_ e) (unresolved_offsets_ e).

Definition add_dynamic (data : byte_string) (e : AbiEncoder) : AbiEncoder :=
  mk_encoder (head_ e ++ word_bytes #0) (tail_ e ++ data)
    (unresolved_offsets_ e ++ [(length (head_ e), length (tail_ e))]).

Definition add_address (a : address) := add_static (abi_encode_address a).
Definition add_uint {n} (i : uword n) := add_static (abi_encode_uint i).
Definition add_bool (b : bool) := add_static (abi_encode_bool b).
Definition add_uint_array {n} (arr : list (uword n)) := add_dynamic (abi_encode_uint_array arr).
Definition add_address_array (arr : list address) := add_dynamic (abi_encode_address_array arr).
Definition add_bytes (data : byte_string) := add_dynamic (abi_encode_bytes data).

(** [memcpy] of [data] to offset [p]. *)
Definition memcpy_at (p : nat) (data dst : byte_string) : byte_string :=
  take p dst ++ data ++ drop (p + length data) dst.

Definition resolve (head : byte_string) (u : nat * nat) : byte_string :=
  let '(unresolved, tail_cumsum) := u in
  let offset : u256 := #(zlen head + Z.of_nat tail_cumsum) in
  memcpy_at unresolved (word_bytes (abi_encode_uint offset)) head.

Definition encode_final (e : AbiEncoder) : byte_string :=
  foldl resolve (head_ e) (unresolved_offsets_ e) ++ tail_ e.

(** An encoder to which the calls [ops] are made in order. *)
Definition encode_all (ops : list (AbiEncoder -> AbiEncoder)) : byte_string :=
  encode_final (foldl (fun e op => op e) new_encoder ops).

(** ** Decoding *)
Inductive AbiDecodeError := InputTooShort | LengthMismatch.

(** [abi_decode_fixed<T>]: the value and the rest of the input. *)
Definition abi_decode_fixed (n : N) (enc : byte_string)
    : (uword n * byte_string) + AbiDecodeError :=
  if (length enc <? 32)%nat then inr InputTooShort
  else
    let sizeof := N.to_nat (n / 8) in
    let output : uword n := #(bytes_val (take sizeof (drop (32 - sizeof) enc))) in
    inl (output, drop 32 enc).

Definition abi_decode_dynamic_bytes_tail (N : nat) (enc : byte_string)
    : (byte_string * byte_string) + AbiDecodeError :=
  match abi_decode_fixed 256 enc with
  | inr e => inr e
  | inl (length_word, enc) =>
      if negb (length_word =? Z.of_nat N) then inr LengthMismatch
      else
        let padded := round_up (Z.of_nat N) 32 in
        if zlen enc <? padded then inr InputTooShort
        else inl (take N enc, drop (Z.to_nat padded) enc)
  end.

Definition abi_decode_bytes_tail := abi_decode_dynamic_bytes_tail.

(** [load_be_unsafe<uint32_t>] of the first four bytes. *)
Definition load_be32 (l : byte_string) : u32 := #(bytes_val (take 4 l)).

(** ** Facts *)
Lemma length_to_bytes k z : length (to_bytes k z) = k.
Proof. induction k; simpl; auto. Qed.

Lemma length_word_bytes x : length (word_bytes x) = 32%nat.
Proof. apply length_to_bytes. Qed.

Lemma bytes_val_range l : 0 <= bytes_val l < 256 ^ zlen l.
Proof.
  unfold zlen. induction l as [|b l IH]; cbn [bytes_val length]; [done|].
  rewrite Nat2Z.inj_succ, Z.pow_succ_r by lia. pose proof (uword_range b).
  change (modulus 8) with 256 in *. nia.
Qed.

Lemma bytes_val_to_bytes k z : bytes_val (to_bytes k z) = z mod 256 ^ Z.of_nat k.
Proof.
  induction k as [|k IH]; cbn [to_bytes bytes_val].
  - by rewrite Z.mod_1_r.
  - rewrite IH, length_to_bytes, uval_wrap, Nat2Z.inj_succ, Z.pow_succ_r by lia.
    change (modulus 8) with 256.
    rewrite (Z.mul_comm 256), Z.rem_mul_r by lia. lia.
Qed.

Lemma bytes_val_app l1 l2 :
  bytes_val (l1 ++ l2) = bytes_val l1 * 256 ^ zlen l2 + bytes_val l2.
Proof.
  unfold zlen. induction l1 as [|b l1 IH]; cbn [bytes_val app]; [lia|].
  rewrite IH, length_app, Nat2Z.inj_add, Z.pow_add_r by lia. ring.
Qed.

Lemma bytes_val_drop k l :
  (k <= length l)%nat ->
  bytes_val (drop k l) = bytes_val l mod 256 ^ Z.of_nat (length l - k).
Proof.
  intros Hk. rewrite <- (take_drop k l) at 2. rewrite bytes_val_app.
  unfold zlen. rewrite length_drop, Z.add_comm, Z_mod_plus_full, Z.mod_small; [done|].
  pose proof (bytes_val_range (drop k l)) as Hr. unfold zlen in Hr. by rewrite length_drop in Hr.
Qed.

Lemma bytes_val_word_bytes (x : bytes32) : bytes_val (word_bytes x) = x.
Proof.
  unfold word_bytes. rewrite bytes_val_to_bytes.
  apply Z.mod_small, (uword_range x).
Qed.

(** [abi_decode_fixed] on an input that starts with a 32-byte word [x] returns
    the low-order bits of [x]: dirty high-order bits are ignored. *)
Lemma abi_decode_fixed_word (k : nat) (x : bytes32) rest :
  (k <= 32)%nat ->
  abi_decode_fixed (8 * N.of_nat k) (word_bytes x ++ rest) = inl (#x, rest).
Proof.
  intros Hk. unfold abi_decode_fixed.
  rewrite length_app, length_word_bytes. cbn [Nat.ltb Nat.leb Nat.add].
  rewrite (drop_app_length' (word_bytes x) rest 32) by (by rewrite length_word_bytes).
  do 2 f_equal. apply uval_inj. rewrite !uval_wrap.
  replace (N.to_nat (8 * N.of_nat k / 8)) with k
    by (rewrite N.mul_comm, N.div_mul by done; lia).
  rewrite drop_app_le, take_app_length', bytes_val_drop, bytes_val_word_bytes
    by (rewrite ?length_drop, ?length_word_bytes; lia).
  rewrite length_word_bytes. replace (32 - (32 - k))%nat with k by lia.
  replace (256 ^ Z.of_nat k) with (modulus (8 * N.of_nat k)).
  - apply Zmod_mod.
  - unfold modulus. replace 256 with (2 ^ 8) by done. rewrite <- Z.pow_mul_r by lia.
    f_equal. lia.
Qed.

(** ** The encoder against the Solidity specification

    enc(X1 .. Xk) = head(X1) .. head(Xk) tail(X1) .. tail(Xk), where a static
    component is its own head and a dynamic one has as its head the offset of
    its tail from the start of the tuple. *)
Inductive abi_item :=
| Static (x : bytes32)
| Dynamic (data : byte_string).

Definition add_item (e : AbiEncoder) (i : abi_item) : AbiEncoder :=
  match i with
  | Static x => add_static x e
  | Dynamic d => add_dynamic d e
  end.

Fixpoint abi_tails (items : list abi_item) : byte_string :=
  match items with
  | [] => []
  | Static _ :: items' => abi_tails items'
  | Dynamic d :: items' => d ++ abi_tails items'
  end.

(** [head_len] is the size of all heads, [cum] that of the tails before. *)
Fixpoint abi_heads (head_len cum : Z) (items : list abi_item) : byte_string :=
  match items with
  | [] => []
  | Static x :: items' => word_bytes x ++ abi_heads head_len cum items'
  | Dynamic d :: items' =>
      word_bytes #(head_len + cum) ++ abi_heads head_len (cum + zlen d) items'
  end.

Definition abi_tuple (items : list abi_item) : byte_string :=
  abi_heads (32 * zlen items) 0 items ++ abi_tails items.

Fixpoint placeholders (items : list abi_item) : byte_string :=
  match items with
  | [] => []
  | Static x :: items' => word_bytes x ++ placeholders items'
  | Dynamic _ :: items' => word_bytes #0 ++ placeholders items'
  end.

Fixpoint offsets (pos cum : nat) (items : list abi_item) : list (nat * nat) :=
  match items with
  | [] => []
  | Static _ :: items' => offsets (pos + 32) cum items'
  | Dynamic d :: items' => (pos, cum) :: offsets (pos + 32) (cum + length d) items'
  end.

Lemma add_items_eq items e :
  foldl add_item e items =
  mk_encoder (head_ e ++ placeholders items) (tail_ e ++ abi_tails items)
    (unresolved_offsets_ e ++ offsets (length (head_ e)) (length (tail_ e)) items).
Proof.
  revert e. induction items as [|[x|d] items IH]; intros e; cbn -[word_bytes].
  - rewrite !app_nil_r. by destruct e.
  - rewrite IH. unfold add_static. cbn -[word_bytes].
    by rewrite length_app, length_word_bytes, <- app_assoc.
  - rewrite IH. unfold add_dynamic. cbn -[word_bytes].
    by rewrite !length_app, length_word_bytes, <- !app_assoc.
Qed.

Lemma length_placeholders items : length (placeholders items) = (32 * length items)%nat.
Proof.
  induction items as [|[x|d] items IH]; cbn -[word_bytes Nat.mul]; [done|..];
    rewrite length_app, IH, length_word_bytes; lia.
Qed.

Lemma memcpy_at_app pre data old rest :
  length data = length old ->
  memcpy_at (length pre) data (pre ++ old ++ rest) = pre ++ data ++ rest.
Proof.
  intros L. unfold memcpy_at. rewrite take_app_length, <- drop_drop, drop_app_length, L.
  by rewrite drop_app_length.
Qed.

Lemma resolve_heads items pre cum :
  foldl resolve (pre ++ placeholders items) (offsets (length pre) cum items) =
  pre ++ abi_heads (zlen pre + 32 * zlen items) (Z.of_nat cum) items.
Proof.
  revert pre cum. induction items as [|[x|d] items IH]; intros pre cum;
    cbn [placeholders offsets foldl abi_heads]; [done|..].
  - rewrite app_assoc. replace (length pre + 32)%nat with (length (pre ++ word_bytes x))
      by (by rewrite length_app, length_word_bytes).
    rewrite IH, <- app_assoc. do 3 f_equal. unfold zlen.
    rewrite length_app, length_word_bytes. cbn [length]. lia.
  - unfold resolve at 2. rewrite memcpy_at_app by (by rewrite !length_word_bytes).
    set (o := abi_encode_uint _). rewrite app_assoc.
    replace (length pre + 32)%nat with (length (pre ++ word_bytes o))
      by (by rewrite length_app, length_word_bytes).
    rewrite IH, <- app_assoc. unfold zlen. do 2 f_equal.
    + f_equal. unfold o, abi_encode_uint. rewrite wrap_uval. f_equal. unfold zlen.
      rewrite !length_app, length_word_bytes, length_placeholders. cbn [length]. lia.
    + rewrite length_app, length_word_bytes, Nat2Z.inj_add. cbn [length]. f_equal; lia.
Qed.

(** C15: the encoder implements the Solidity tuple encoding.  Whatever static and
    dynamic components are added, the back-patched output of [encode_final] is
    the sequence of heads followed by the sequence of tails, with every dynamic
    head the offset of its tail. *)
Theorem encode_final_tuple items :
  encode_final (foldl add_item new_encoder items) = abi_tuple items.
Proof.
  rewrite add_items_eq. unfold encode_final, abi_tuple. cbn [head_ tail_ unresolved_offsets_ new_encoder app length].
  f_equal. apply (resolve_heads items [] 0).
Qed.

(** ** Round trips *)
Lemma round_up_bounds n : 0 <= n -> n <= round_up n 32 < n + 32 /\ round_up n 32 mod 32 = 0.
Proof. intros Hn. unfold round_up. Z.div_mod_to_equations. lia. Qed.

Lemma abi_decode_bytes_round_trip (bs rest : byte_string) :
  zlen bs < modulus 256 ->
  abi_decode_dynamic_bytes_tail (length bs) (abi_encode_bytes bs ++ rest) = inl (bs, rest).
Proof.
  intros Hl. unfold abi_decode_dynamic_bytes_tail, abi_encode_bytes.
  rewrite <- app_assoc. rewrite (abi_decode_fixed_word 32) by lia.
  unfold abi_encode_uint. rewrite !wrap_uval.
  rewrite uval_wrap_small by (unfold zlen in *; lia). unfold zlen.
  rewrite Z.eqb_refl. cbn [negb]. rewrite !length_app, length_replicate.
  pose proof (round_up_bounds (Z.of_nat (length bs)) ltac:(lia)) as [Hr _].
  set (r := round_up _ 32) in *.
  destruct (Z.ltb_spec (Z.of_nat (length bs + Z.to_nat (r - Z.of_nat (length bs)) + length rest)) r); [lia|].
  rewrite <- app_assoc, take_app_length.
  do 2 f_equal. rewrite app_assoc, drop_app_length'; [done|].
  rewrite length_app, length_replicate. lia.
Qed.

(** C16: what the contract encodes it decodes.  A word holding an integer or an
    address of [k] bytes, and a padded byte string, come back unchanged from the
    decoders, which leave the rest of the input to the next component. *)
Theorem abi_round_trip (k : nat) (x : uword (8 * N.of_nat k)) (bs rest : byte_string) :
  (k <= 32)%nat -> zlen bs < 2 ^ 256 ->
  abi_decode_fixed (8 * N.of_nat k) (word_bytes (abi_encode_uint x) ++ rest) = inl (x, rest) /\
  abi_decode_dynamic_bytes_tail (length bs) (abi_encode_bytes bs ++ rest) = inl (bs, rest).
Proof.
  intros Hk Hb. split; [|by apply abi_decode_bytes_round_trip].
  rewrite abi_decode_fixed_word by done. do 2 f_equal. apply uval_inj.
  unfold abi_encode_uint. pose proof (uword_range x) as Hx.
  assert (modulus (8 * N.of_nat k) <= modulus 256).
  { unfold modulus. apply Z.pow_le_mono_r; lia. }
  rewrite !uval_wrap, (Z.mod_small x (modulus 256)) by lia. by apply Z.mod_small.
Qed.

Lemma abi_round_trip_witness :
  abi_decode_fixed 64 (word_bytes (abi_encode_uint (#7 : u64)) ++ [ #1 ]) = inl (#7, [ #1 ]) /\
  abi_decode_dynamic_bytes_tail 2 (abi_encode_bytes [ #5; #6 ] ++ [ #1 ]) = inl ([ #5; #6 ], [ #1 ]).
Proof. apply (abi_round_trip 8 (#7 : u64) [ #5; #6 ] [ #1 ]); [lia|reflexivity]. Defined.
