(* ===== verification/StakingVars.v ===== *)
(** * The staking contract's storage layout

    Models the constants, enums and packed structs of
    src/category/execution/monad/staking/util and the [Variables] class of
    staking_contract.hpp: which storage variable lives at which key.
    [storage_disjoint] is the theorem that no two variables of the contract
    share a slot. *)
From S2P Require Import Prelude Prog Storage UInt256 Abi.

(** ** Revisions, constants and limits *)
Inductive monad_revision :=
| MONAD_ZERO | MONAD_ONE | MONAD_TWO | MONAD_THREE | MONAD_FOUR | MONAD_FIVE
| MONAD_SIX | MONAD_SEVEN | MONAD_EIGHT | MONAD_NINE | MONAD_NEXT.

Definition rev_num (r : monad_revision) : Z :=
  match r with
  | MONAD_ZERO => 0 | MONAD_ONE => 1 | MONAD_TWO => 2 | MONAD_THREE => 3
  | MONAD_FOUR => 4 | MONAD_FIVE => 5 | MONAD_SIX => 6 | MONAD_SEVEN => 7
  | MONAD_EIGHT => 8 | MONAD_NINE => 9 | MONAD_NEXT => 10
  end.

Definition rev_ge (r r' : monad_revision) : bool := rev_num r' <=? rev_num r.

Definition STAKING_CA : address := #0x1000.
Definition MON : u256 := #1000000000000000000.
Definition UNIT_BIAS : u256 := #1000000000000000000000000000000000000.

Definition SYSTEM_SENDER : address := #0x6f49a8F621353f12378d0046E7d7e4b9B249DC9e.

Module limits.
Definition dust_threshold : u256 := #1000000000.
Definition max_commission : u256 := MON.
Definition active_validator_stake (rev : monad_revision) : u256 :=
  if rev_ge rev MONAD_FIVE then #(10000000 * MON) else #(25000000 * MON).
Definition min_auth_address_stake : u256 := #(100000 * MON).
Definition min_external_reward : u256 := dust_threshold.
Definition max_external_reward : u256 := #10000000000000000000000000.
Definition active_valset_size : u64 := #200.
Definition array_pagination : u32 := #100.
Definition linked_list_pagination (rev : monad_revision) : u32 :=
  if negb (rev_ge rev MONAD_EIGHT) then #100 else #50.
Definition withdrawal_delay : u64 := #1.
End limits.

Definition ValidatorFlagsOk : Z := 0.
Definition ValidatorFlagsStakeTooLow : Z := Z.shiftl 1 0.
Definition ValidatorFlagWithdrawn : Z := Z.shiftl 1 1.
Definition ValidatorFlagsDoubleSign : Z := Z.shiftl 1 2.

(** The errors; [Success] is the value case of a result. *)
Inductive StakingError :=
| InternalError | MethodNotSupported | InvalidInput | ValidatorExists | UnknownValidator
| UnknownDelegator | WithdrawalIdExists | UnknownWithdrawalId | WithdrawalNotReady
| InsufficientStake | InvalidSecpPubkey | InvalidBlsPubkey | InvalidSecpSignature
| InvalidBlsSignature | SecpSignatureVerificationFailed | BlsSignatureVerificationFailed
| NotInValidatorSet | SolvencyError | SnapshotInBoundary | InvalidEpochChange
| RequiresAuthAddress | CommissionTooHigh | ValueNonZero | DelegationTooSmall
| ExternalRewardTooSmall | ExternalRewardTooLarge.

(** The errors a contract call can return: its own, or one passed on from the
    arithmetic or the decoder. *)
Inductive error :=
| EStaking (e : StakingError)
| EMath (e : MathError)
| EAbi (e : AbiDecodeError).

Abbreviation P := (prog error).

(** ** Packed structs *)
Record WithdrawalRequest := mk_withdrawal {
  wr_amount : u256; wr_acc : u256; wr_epoch : u64 }.
Record RefCountedAccumulator := mk_acc { acc_value : u256; acc_refcount : u256 }.
Record Epochs := mk_epochs { delta_epoch : u64; next_delta_epoch : u64 }.
Record ListNode := mk_node { inext : u64; iprev : u64; anext : address; aprev : address }.
Record KeysPacked := mk_keys { secp_pubkey : uword 264; bls_pubkey : uword 384 }.
Record AddressFlags := mk_af { auth_address : address; flags : u64 }.

Ltac solve_layout := intros []; simpl; autorewrite with words; reflexivity.

#[export, program] Instance layout_withdrawal : Layout WithdrawalRequest := {|
  layout_bits := 256 + (256 + 64);
  enc r := wcat (wr_amount r) (wcat (wr_acc r) (wr_epoch r));
  dec x := mk_withdrawal (whi x) (whi (wlo (m := 256) x)) (wlo (m := 256) (wlo (m := 256) x)) |}.
Next Obligation. solve_layout. Qed.
Next Obligation. done. Qed.
Next Obligation. done. Qed.

#[export, program] Instance layout_acc : Layout RefCountedAccumulator := {|
  layout_bits := 256 + 256;
  enc r := wcat (acc_value r) (acc_refcount r);
  dec x := mk_acc (whi x) (wlo (m := 256) x) |}.
Next Obligation. solve_layout. Qed.
Next Obligation. done. Qed.
Next Obligation. done. Qed.

#[export, program] Instance layout_epochs : Layout Epochs := {|
  layout_bits := 64 + 64;
  enc r := wcat (delta_epoch r) (next_delta_epoch r);
  dec x := mk_epochs (whi x) (wlo (m := 64) x) |}.
Next Obligation. solve_layout. Qed.
Next Obligation. done. Qed.
Next Obligation. done. Qed.

#[export, program] Instance layout_node : Layout ListNode := {|
  layout_bits := 64 + (64 + (160 + 160));
  enc r := wcat (inext r) (wcat (iprev r) (wcat (anext r) (aprev r)));
  dec x := mk_node (whi x) (whi (wlo (m := 64) x))
    (whi (wlo (m := 64) (wlo (m := 64) x)))
    (wlo (m := 160) (wlo (m := 64) (wlo (m := 64) x))) |}.
Next Obligation. solve_layout. Qed.
Next Obligation. done. Qed.
Next Obligation. done. Qed.

#[export, program] Instance layout_keys : Layout KeysPacked := {|
  layout_bits := 264 + 384;
  enc r := wcat (secp_pubkey r) (bls_pubkey r);
  dec x := mk_keys (whi x) (wlo (m := 264) x) |}.
Next Obligation. solve_layout. Qed.
Next Obligation. done. Qed.
Next Obligation. done. Qed.

#[export, program] Instance layout_af : Layout AddressFlags := {|
  layout_bits := 160 + 64;
  enc r := wcat (auth_address r) (flags r);
  dec x := mk_af (whi x) (wlo (m := 160) x) |}.
Next Obligation. solve_layout. Qed.
Next Obligation. done. Qed.
Next Obligation. done. Qed.

(** ** Namespaces and keys *)
Inductive Valset := ValsetExecution | ValsetConsensus | ValsetSnapshot.

(** The storage objects of the contract: single slots, arrays, and the entries
    of the mappings. *)
Inductive object :=
| OEpoch | OInBoundary | OLastValId | OProposerValId
| OValset (v : Valset)
| OConsensusStake (id : u64)
| OSnapshotStake (id : u64)
| OValIdSecp (a : address)
| OValIdBls (a : address)
| OValBitset (bucket : u64)
| OValExecution (id : u64)
| OAccumulator (epoch id : u64)
| ODelegator (id : u64) (a : address)
| OWithdrawalRequest (id : u64) (a : address) (withdrawal_id : u8).

#[export] Instance Valset_eq_dec : EqDecision Valset.
Proof. solve_decision. Defined.
#[export] Instance object_eq_dec : EqDecision object.
Proof. solve_decision. Defined.

Definition zeros (n : N) : uword n := #0.

(** [std::bit_cast<bytes32_t>] of a 32-byte struct. *)
Definition bit_cast {n} (x : uword n) : bytes32 := #x.

Lemma uval_bit_cast {n} (x : uword n) : n = 256%N -> uval (bit_cast x) = x.
Proof. intros ->. apply uval_wrap_small, uword_range. Qed.

Definition storage_key (o : object) : u256 :=
  match o with
  | OEpoch => #1
  | OInBoundary => #2
  | OLastValId => #3
  | OProposerValId => #4
  | OValset ValsetExecution => bit_cast (wcat (#0x01 : u8) (zeros 248))
  | OValset ValsetConsensus => bit_cast (wcat (#0x02 : u8) (zeros 248))
  | OValset ValsetSnapshot => bit_cast (wcat (#0x03 : u8) (zeros 248))
  | OConsensusStake id => bit_cast (wcat (#0x04 : u8) (wcat id (zeros 184)))
  | OSnapshotStake id => bit_cast (wcat (#0x05 : u8) (wcat id (zeros 184)))
  | OValIdSecp a => bit_cast (wcat (#0x06 : u8) (wcat a (zeros 88)))
  | OValIdBls a => bit_cast (wcat (#0x07 : u8) (wcat a (zeros 88)))
  | OValBitset b => bit_cast (wcat (#0x08 : u8) (wcat b (zeros 184)))
  | OValExecution id => bit_cast (wcat (#0x09 : u8) (wcat id (zeros 184)))
  | OAccumulator e id => bit_cast (wcat (#0x0A : u8) (wcat e (wcat id (zeros 120))))
  | ODelegator id a => bit_cast (wcat (#0x0B : u8) (wcat id (wcat a (zeros 24))))
  | OWithdrawalRequest id a w => bit_cast (wcat (#0x0C : u8) (wcat id (wcat a (wcat w (zeros 16)))))
  end.

(** How many consecutive slots an object may use from its key on. *)
Definition capacity (o : object) : Z :=
  match o with
  | OEpoch | OInBoundary | OLastValId | OProposerValId => 1
  | OValset _ => 2 ^ 248
  | OConsensusStake _ | OSnapshotStake _ | OValBitset _ | OValExecution _ => 2 ^ 184
  | OValIdSecp _ | OValIdBls _ => 2 ^ 88
  | OAccumulator _ _ => 2 ^ 120
  | ODelegator _ _ => 2 ^ 24
  | OWithdrawalRequest _ _ _ => 2 ^ 16
  end.

(** The [i]-th slot of an object. *)
Definition skey (o : object) (i : Z) : bytes32 := #(storage_key o + i).

(** A variable of type [T] at offset [i] of an object. *)
Definition svar {T} (o : object) (i : Z) : StorageVariable T := SV STAKING_CA (skey o i).

Definition namespace (o : object) : Z :=
  match o with
  | OEpoch | OInBoundary | OLastValId | OProposerValId => 0
  | OValset ValsetExecution => 1 | OValset ValsetConsensus => 2 | OValset ValsetSnapshot => 3
  | OConsensusStake _ => 4 | OSnapshotStake _ => 5 | OValIdSecp _ => 6 | OValIdBls _ => 7
  | OValBitset _ => 8 | OValExecution _ => 9 | OAccumulator _ _ => 10
  | ODelegator _ _ => 11 | OWithdrawalRequest _ _ _ => 12
  end.

(** The part of the key below the namespace byte. *)
Definition key_index (o : object) : Z :=
  match o with
  | OEpoch => 1 | OInBoundary => 2 | OLastValId => 3 | OProposerValId => 4
  | OValset _ => 0
  | OConsensusStake x | OSnapshotStake x | OValBitset x | OValExecution x => x * 2 ^ 184
  | OValIdSecp a | OValIdBls a => a * 2 ^ 88
  | OAccumulator e id => e * 2 ^ 184 + id * 2 ^ 120
  | ODelegator id a => id * 2 ^ 184 + a * 2 ^ 24
  | OWithdrawalRequest id a w => id * 2 ^ 184 + a * 2 ^ 24 + w * 2 ^ 16
  end.

Lemma storage_key_eq o : uval (storage_key o) = namespace o * 2 ^ 248 + key_index o.
Proof.
  destruct o as [| | | |[]| | | | | | | | |]; cbn [storage_key namespace key_index]; try done;
    rewrite uval_bit_cast by done; rewrite !uval_wcat; unfold zeros, modulus; simpl Z.of_N;
    repeat match goal with |- context [uval (wrap ?n ?z)] =>
      rewrite (uval_wrap_small n z) by done end; lia.
Qed.

Lemma key_index_range o i :
  0 <= i < capacity o -> 0 <= key_index o + i < 2 ^ 248.
Proof.
  intros Hi. destruct o; cbn [capacity key_index] in *; word_lia.
Qed.

Lemma skey_eq o i : 0 <= i < capacity o -> uval (skey o i) = namespace o * 2 ^ 248 + (key_index o + i).
Proof.
  intros Hi%key_index_range. unfold skey. rewrite storage_key_eq.
  rewrite uval_wrap_small; [lia|].
  assert (0 <= namespace o <= 12) by (destruct o as [| | | |[]| | | | | | | | |]; simpl; lia).
  unfold modulus. simpl Z.of_N. lia.
Qed.

(** No two slots of the contract coincide unless they are the same slot of the
    same object. *)
Lemma skey_inj o o' i j :
  0 <= i < capacity o -> 0 <= j < capacity o' -> skey o i = skey o' j -> o = o' /\ i = j.
Proof.
  intros Hi Hj E%(f_equal uval). rewrite !skey_eq in E by done.
  pose proof (key_index_range o i Hi) as Ri. pose proof (key_index_range o' j Hj) as Rj.
  assert (namespace o = namespace o') as En by lia.
  rewrite En in E. assert (key_index o + i = key_index o' + j) as Ek by lia. clear E Ri Rj.
  destruct o as [| | | |[]| | | | | | | | |], o' as [| | | |[]| | | | | | | | |];
    cbn [namespace capacity key_index] in *; try lia; clear En; word_ranges; unfold modulus in *;
    simpl Z.of_N in *; repeat match goal with
    | |- _ /\ _ => split
    | |- ?f ?x = ?f ?y => f_equal; apply uval_inj; lia
    | |- ?f ?x ?u = ?f ?y ?v => f_equal; apply uval_inj; lia
    | |- ?f ?x ?u ?z = ?f ?y ?v ?z' => f_equal; apply uval_inj; lia
    | |- _ = _ => first [reflexivity | lia]
    end.
Qed.

Lemma sv_slot_svar {T} o i j : sv_slot (svar (T := T) o i) j = skey o (i + Z.of_nat j).
Proof.
  apply uval_inj. unfold sv_slot, svar, skey. cbn [sv_offset]. rewrite !uval_wrap.
  rewrite Zplus_mod_idemp_l. f_equal. lia.
Qed.

(** Variables at different objects, or at non-overlapping offsets of one
    object, are disjoint. *)
Lemma svar_disjoint {T U} `{Layout T} `{Layout U} o i o' j :
  0 <= i -> i + Z.of_nat (nslots T) <= capacity o ->
  0 <= j -> j + Z.of_nat (nslots U) <= capacity o' ->
  o <> o' \/ i + Z.of_nat (nslots T) <= j \/ j + Z.of_nat (nslots U) <= i ->
  sv_disjoint (svar (T := T) o i) (svar (T := U) o' j).
Proof.
  intros Hi Ci Hj Cj D a b Ha Hb E%(f_equal snd). cbn [snd] in E.
  rewrite !sv_slot_svar in E. apply skey_inj in E as [-> E]; [|lia..].
  destruct D as [D|D]; [done|lia].
Qed.

(** ** The storage variables *)
Module vars.

Definition epoch : StorageVariable u64 := svar OEpoch 0.
Definition in_epoch_delay_period : StorageVariable bool := svar OInBoundary 0.
Definition last_val_id : StorageVariable u64 := svar OLastValId 0.
Definition proposer_val_id : StorageVariable u64 := svar OProposerValId 0.

Definition valset (v : Valset) : StorageArray u64 := SA STAKING_CA (storage_key (OValset v)).
Definition valset_execution := valset ValsetExecution.
Definition valset_consensus := valset ValsetConsensus.
Definition valset_snapshot := valset ValsetSnapshot.

Definition this_epoch_valset : P (StorageArray u64) :=
  b <- load_checked in_epoch_delay_period ;;
  Ret (if has_value b then valset_snapshot else valset_consensus).

Definition val_id (secp_eth_address : address) : StorageVariable u64 :=
  svar (OValIdSecp secp_eth_address) 0.
Definition val_id_bls (bls_eth_address : address) : StorageVariable u64 :=
  svar (OValIdBls bls_eth_address) 0.

(** The top 56 bits of a validator id select a bucket. *)
Definition val_bitset_bucket (val_id : u64) : StorageVariable u256 :=
  svar (OValBitset #(Z.shiftr val_id 8)) 0.

Definition val_execution (id : u64) : object := OValExecution id.
Definition consensus_view (id : u64) : object := OConsensusStake id.
Definition snapshot_view (id : u64) : object := OSnapshotStake id.

Definition this_epoch_view (id : u64) : P object :=
  b <- load_checked in_epoch_delay_period ;;
  Ret (if has_value b then snapshot_view id else consensus_view id).

Definition delegator (val_id : u64) (a : address) : object := ODelegator val_id a.

Definition withdrawal_request (val_id : u64) (delegator : address) (withdrawal_id : u8)
    : StorageVariable WithdrawalRequest :=
  svar (OWithdrawalRequest val_id delegator withdrawal_id) 0.

Definition accumulated_reward_per_token (epoch val_id : u64)
    : StorageVariable RefCountedAccumulator :=
  svar (OAccumulator epoch val_id) 0.

End vars.

(** The views on a validator, [ValExecution] and [ConsensusView]: each getter is
    the variable at its offset from the view's key. *)
Module ValExecution.

Definition stake (val : object) : StorageVariable u256 := svar val 0.
Definition accumulated_reward_per_token (val : object) : StorageVariable u256 := svar val 1.
Definition commission (val : object) : StorageVariable u256 := svar val 2.
Definition keys (val : object) : StorageVariable KeysPacked := svar val 3.
Definition address_flags (val : object) : StorageVariable AddressFlags := svar val 6.
Definition unclaimed_rewards (val : object) : StorageVariable u256 := svar val 7.

Definition get_auth_address (val : object) : P address :=
  af <- load (address_flags val) ;; Ret (auth_address af).

Definition get_flags (val : object) : P u64 :=
  af <- load (address_flags val) ;; Ret (flags af).

Definition set_flag (val : object) (flag : Z) : P unit :=
  af <- load (address_flags val) ;;
  store (address_flags val) (mk_af (auth_address af) #(Z.lor (flags af) flag)).

Definition clear_flag (val : object) (flag : Z) : P unit :=
  af <- load (address_flags val) ;;
  store (address_flags val) (mk_af (auth_address af) #(Z.land (flags af) (Z.lnot flag))).

(** [exists()]: the auth address is set. *)
Definition exists_ (val : object) : P bool :=
  a <- get_auth_address val ;; Ret (negb (a =? 0)).

End ValExecution.

Module ConsensusView.

Definition stake (view : object) : StorageVariable u256 := svar view 0.
Definition commission (view : object) : StorageVariable u256 := svar view 1.

End ConsensusView.

Module Delegator.

Definition stake (del : object) : StorageVariable u256 := svar del 0.
Definition accumulated_reward_per_token (del : object) : StorageVariable u256 := svar del 1.
Definition rewards (del : object) : StorageVariable u256 := svar del 2.
Definition delta_stake (del : object) : StorageVariable u256 := svar del 3.
Definition next_delta_stake (del : object) : StorageVariable u256 := svar del 4.
Definition epochs (del : object) : StorageVariable Epochs := svar del 5.
Definition list_node (del : object) : StorageVariable ListNode := svar del 6.

Definition get_delta_epoch (del : object) : P u64 :=
  e <- load (epochs del) ;; Ret (delta_epoch e).

Definition get_next_delta_epoch (del : object) : P u64 :=
  e <- load (epochs del) ;; Ret (next_delta_epoch e).

(** The sum is unchecked [uint256_t] addition. *)
Definition get_next_epoch_stake (del : object) : P u256 :=
  stake <- load (stake del) ;;
  delta_stake <- load (delta_stake del) ;;
  next_delta_stake <- load (next_delta_stake del) ;;
  Ret (#(wrap 256 (stake + delta_stake) + next_delta_stake)).

Definition set_delta_epoch (del : object) (e' : u64) : P unit :=
  e <- load (epochs del) ;;
  store (epochs del) (mk_epochs e' (next_delta_epoch e)).

Definition set_next_delta_epoch (del : object) (e' : u64) : P unit :=
  e <- load (epochs del) ;;
  store (epochs del) (mk_epochs (delta_epoch e) e').

End Delegator.

(** ** Theorems *)

(** No two variables of the contract share a slot.  A write to a variable of
    one object is invisible through a variable of any other object, and through
    any variable of the same object at offsets it does not overlap, as long as
    both stay within the slots their keys leave room for. *)
Theorem storage_disjoint {T U} `{Layout T} `{Layout U} o i o' j (t : T) w :
  0 <= i -> i + Z.of_nat (nslots T) <= capacity o ->
  0 <= j -> j + Z.of_nat (nslots U) <= capacity o' ->
  o <> o' \/ i + Z.of_nat (nslots T) <= j \/ j + Z.of_nat (nslots U) <= i ->
  run (_ <- store (svar o i) t ;; load (svar (T := U) o' j) : P U) w =
  (fst (run (load (svar (T := U) o' j) : P U) w), snd (run (store (svar o i) t : P unit) w)).
Proof.
  intros Hi Ci Hj Cj D. rewrite run_bind. autorewrite with run. cbn [fst snd].
  by rewrite rd_wr_ne by (apply svar_disjoint; assumption).
Qed.

Module vars_demo.
Definition blank : World := mk_world ∅ ∅ [] [].
Definition a : address := #0xa11ce.
Definition d : object := vars.delegator #1 a.
Definition node : ListNode := mk_node #1 #2 #3 #4.
End vars_demo.
Import vars_demo.

(** Adjacent fields of one delegator, and a delegator against its withdrawal
    request. *)
Lemma storage_disjoint_witness :
  run (_ <- store (Delegator.rewards d) #5 ;; load (Delegator.delta_stake d) : P u256) blank =
  (ROk #0, snd (run (store (Delegator.rewards d) #5 : P unit) blank)) /\
  run (_ <- store (Delegator.list_node d) node ;;
       load (vars.withdrawal_request #1 a #0) : P WithdrawalRequest) blank =
  (ROk (mk_withdrawal #0 #0 #0), snd (run (store (Delegator.list_node d) node : P unit) blank)).
Proof.
  split.
  - rewrite (storage_disjoint (T := u256) (U := u256) d 2 d 3 #5 blank); try done.
    right. left. done.
  - rewrite (storage_disjoint (T := ListNode) (U := WithdrawalRequest) d 6
      (OWithdrawalRequest #1 a #0) 0 node blank); try done. by left.
Defined.
