(* ===== verification/StakingHelpers.v ===== *)
(** * Staking contract: events and helpers

    Models the anonymous-namespace functions, the event emitters and the
    private helpers of src/category/execution/monad/staking/staking_contract.cpp
    up to [apply_reward], and the event builder of
    src/category/execution/ethereum/core/contract/events.hpp. *)
From S2P Require Import Prelude Prog Storage UInt256 Abi StakingVars.

Definition math {A} (r : A + MathError) : P A := lift EMath r.
Definition abi {A} (r : A + AbiDecodeError) : P A := lift EAbi r.
Definition staking_fail {A} (e : StakingError) : P A := Fail (EStaking e).
Definition require_not (b : bool) (e : StakingError) : P unit := fail_if b (EStaking e).

(** ** Pure helpers *)
Definition consume_bytes (data : byte_string) (num_bytes : nat) : byte_string * byte_string :=
  (take num_bytes data, drop num_bytes data).

Definition checked_mul_div (x y z : u256) : u256 + MathError :=
  match checked_mul x y with
  | inl p => checked_div p z
  | inr e => inr e
  end.

Definition calculate_rewards (stake current_acc last_checked_acc : u256) : u256 + MathError :=
  match checked_sub current_acc last_checked_acc with
  | inl delta => checked_mul_div delta stake UNIT_BIAS
  | inr e => inr e
  end.

Definition function_not_payable (value : u256) : P unit :=
  require_not (negb (forallb (fun b : u8 => b =? 0) (word_bytes value))) ValueNonZero.

(** ** Events *)
Definition EventBuilder (account : address) (signature : bytes32) : Log :=
  mk_log account [signature] [].
Definition add_topic (topic : bytes32) (e : Log) : Log :=
  mk_log (log_address e) (log_topics e ++ [topic]) (log_data e).
Definition add_data (data : bytes32) (e : Log) : Log :=
  mk_log (log_address e) (log_topics e) (log_data e ++ word_bytes data).

Definition emit_log (log : Log) : P unit :=
  trigger (StoreLog log) ;;
  trigger (OnLog log).

Definition emit_validator_rewarded_event (val_id : u64) (from : address) (amount : u256) : P unit :=
  let signature : bytes32 := #0x3a420a01486b6b28d6ae89c51f5c3bde3e0e74eecbb646a0c481ccba3aae3754 in
  epoch <- load vars.epoch ;;
  emit_log (add_data (abi_encode_uint epoch) (add_data (abi_encode_uint amount)
    (add_topic (abi_encode_address from) (add_topic (abi_encode_uint val_id)
    (EventBuilder STAKING_CA signature))))).

Definition emit_validator_created_event (val_id : u64) (auth_delegator : address)
    (commission : u256) : P unit :=
  let signature : bytes32 := #0x6f8045cd38e512b8f12f6f02947c632e5f25af03aad132890ecf50015d97c1b2 in
  emit_log (add_data (abi_encode_uint commission)
    (add_topic (abi_encode_address auth_delegator) (add_topic (abi_encode_uint val_id)
    (EventBuilder STAKING_CA signature)))).

Definition emit_validator_status_changed_event (val_id flags : u64) : P unit :=
  let signature : bytes32 := #0xc95966754e882e03faffaf164883d98986dda088d09471a35f9e55363daf0c53 in
  emit_log (add_data (abi_encode_uint flags) (add_topic (abi_encode_uint val_id)
    (EventBuilder STAKING_CA signature))).

Definition emit_delegation_event (val_id : u64) (delegator : address) (amount : u256)
    (active_epoch : u64) : P unit :=
  let signature : bytes32 := #0xe4d4df1e1827dd28252fd5c3cd7ebccd3da6e0aa31f74c828f3c8542af49d840 in
  emit_log (add_data (abi_encode_uint active_epoch) (add_data (abi_encode_uint amount)
    (add_topic (abi_encode_address delegator) (add_topic (abi_encode_uint val_id)
    (EventBuilder STAKING_CA signature))))).

Definition emit_undelegate_event (val_id : u64) (delegator : address) (withdrawal_id : u8)
    (amount : u256) (activation_epoch : u64) : P unit :=
  let signature : bytes32 := #0x3e53c8b91747e1b72a44894db10f2a45fa632b161fdcdd3a17bd6be5482bac62 in
  emit_log (add_data (abi_encode_uint activation_epoch) (add_data (abi_encode_uint amount)
    (add_data (abi_encode_uint withdrawal_id) (add_topic (abi_encode_address delegator)
    (add_topic (abi_encode_uint val_id) (EventBuilder STAKING_CA signature)))))).

Definition emit_withdraw_event (val_id : u64) (delegator : address) (withdrawal_id : u8)
    (amount : u256) : P unit :=
  let signature : bytes32 := #0x63030e4238e1146c63f38f4ac81b2b23c8be28882e68b03f0887e50d0e9bb18f in
  withdraw_epoch <- load vars.epoch ;;
  emit_log (add_data (abi_encode_uint withdraw_epoch) (add_data (abi_encode_uint amount)
    (add_data (abi_encode_uint withdrawal_id) (add_topic (abi_encode_address delegator)
    (add_topic (abi_encode_uint val_id) (EventBuilder STAKING_CA signature)))))).

Definition emit_claim_rewards_event (val_id : u64) (delegator : address) (amount : u256) : P unit :=
  let signature : bytes32 := #0xcb607e6b63c89c95f6ae24ece9fe0e38a7971aa5ed956254f1df47490921727b in
  epoch <- load vars.epoch ;;
  emit_log (add_data (abi_encode_uint epoch) (add_data (abi_encode_uint amount)
    (add_topic (abi_encode_address delegator) (add_topic (abi_encode_uint val_id)
    (EventBuilder STAKING_CA signature))))).

Definition emit_commission_changed_event (val_id : u64) (old_commission new_commission : u256)
    : P unit :=
  let signature : bytes32 := #0xd1698d3454c5b5384b70aaae33f1704af7c7e055f0c75503ba3146dc28995920 in
  emit_log (add_data (abi_encode_uint new_commission) (add_data (abi_encode_uint old_commission)
    (add_topic (abi_encode_uint val_id) (EventBuilder STAKING_CA signature)))).

Definition emit_epoch_changed_event (old_epoch new_epoch : u64) : P unit :=
  let signature : bytes32 := #0x4fae4dbe0ed659e8ce6637e3c273cd8e4d3bf029b9379a9e8b3f3f27dbef809b in
  emit_log (add_data (abi_encode_uint new_epoch) (add_data (abi_encode_uint old_epoch)
    (EventBuilder STAKING_CA signature))).

(** ** Tokens, epochs and accumulators *)
Definition mint_tokens (amount : u256) : P unit :=
  trigger (AddToBalance STAKING_CA amount).

Definition send_tokens (to : address) (amount : u256) : P unit :=
  trigger (AddToBalance to amount) ;;
  trigger (SubtractFromBalance STAKING_CA amount).

Definition get_activation_epoch : P u64 :=
  epoch <- load vars.epoch ;;
  b <- load_checked vars.in_epoch_delay_period ;;
  Ret (if has_value b then #(epoch + 2) else #(epoch + 1)).

Definition is_epoch_active (active_epoch : u64) : P bool :=
  current_epoch <- load vars.epoch ;;
  Ret (negb (active_epoch =? 0) && (active_epoch <=? current_epoch)).

Definition increment_accumulator_refcount (val_id : u64) : P unit :=
  epoch <- get_activation_epoch ;;
  let acc_storage := vars.accumulated_reward_per_token epoch val_id in
  acc <- load acc_storage ;;
  value <- load (ValExecution.accumulated_reward_per_token (vars.val_execution val_id)) ;;
  store acc_storage (mk_acc value #(acc_refcount acc + 1)).

Definition decrement_accumulator_refcount (epoch val_id : u64) : P u256 :=
  let acc_storage := vars.accumulated_reward_per_token epoch val_id in
  acc <- load acc_storage ;;
  let value := acc_value acc in
  let refcount := acc_refcount acc in
  if refcount =? 0 then Ret #0
  else
    let new_refcount : u256 := #(refcount - 1) in
    (if new_refcount =? 0 then clear acc_storage
     else store acc_storage (mk_acc (acc_value acc) new_refcount)) ;;
    Ret value.

(** ** The execution valset's membership bits *)
Definition add_to_valset (val_id : u64) : P bool :=
  set <- load (vars.val_bitset_bucket val_id) ;;
  let mask : u256 := #(Z.shiftl 1 (Z.land val_id 0xFF)) in
  let inserted := Z.land set mask =? 0 in
  store (vars.val_bitset_bucket val_id) #(Z.lor set mask) ;;
  Ret inserted.

Definition remove_from_valset (val_id : u64) : P unit :=
  set <- load (vars.val_bitset_bucket val_id) ;;
  let mask : u256 := #(Z.lnot (wrap 256 (Z.shiftl 1 (Z.land val_id 0xFF)))) in
  store (vars.val_bitset_bucket val_id) #(Z.land set mask).

(** ** Bringing a delegator up to date *)
Definition can_promote_delta (del : object) (epoch : u64) : P bool :=
  d <- Delegator.get_delta_epoch del ;;
  n <- Delegator.get_next_delta_epoch del ;;
  Ret ((d =? 0) && (n <=? wrap 64 (epoch + 1))).

Definition promote_delta (del : object) : P unit :=
  next <- load (Delegator.next_delta_stake del) ;;
  store (Delegator.delta_stake del) next ;;
  clear (Delegator.next_delta_stake del) ;;
  n <- Delegator.get_next_delta_epoch del ;;
  Delegator.set_delta_epoch del n ;;
  Delegator.set_next_delta_epoch del #0.

Definition apply_compound (val_id : u64) (del : object) : P u256 :=
  delta_epoch <- Delegator.get_delta_epoch del ;;
  epoch_acc <- decrement_accumulator_refcount delta_epoch val_id ;;
  stake <- load (Delegator.stake del) ;;
  delta_stake <- load (Delegator.delta_stake del) ;;
  acc <- load (Delegator.accumulated_reward_per_token del) ;;
  rewards <- math (calculate_rewards stake epoch_acc acc) ;;
  store (Delegator.accumulated_reward_per_token del) epoch_acc ;;
  compounded_stake <- math (checked_add stake delta_stake) ;;
  store (Delegator.stake del) compounded_stake ;;
  promote_delta del ;;
  Ret rewards.

Definition reward_invariant (val : object) (rewards : u256) : P unit :=
  unclaimed <- load (ValExecution.unclaimed_rewards val) ;;
  require_not (negb (rewards <=? unclaimed)) SolvencyError ;;
  old_unclaimed <- load (ValExecution.unclaimed_rewards val) ;;
  unclaimed_rewards <- math (checked_sub old_unclaimed rewards) ;;
  store (ValExecution.unclaimed_rewards val) unclaimed_rewards.

(** The compound step that [pull_delegator_up_to_date] performs for the boundary
    window and for the current one. *)
Definition compound_window (val_id : u64) (del : object) : P unit :=
  rewards <- apply_compound val_id del ;;
  reward_invariant (vars.val_execution val_id) rewards ;;
  old <- load (Delegator.rewards del) ;;
  new_rewards <- math (checked_add old rewards) ;;
  store (Delegator.rewards del) new_rewards.

Definition pull_delegator_up_to_date (val_id : u64) (del : object) : P unit :=
  epoch <- load vars.epoch ;;
  promote <- can_promote_delta del epoch ;;
  (if promote : bool then promote_delta del else Ret tt) ;;
  let val := vars.val_execution val_id in
  delta_epoch <- Delegator.get_delta_epoch del ;;
  can_compound <- is_epoch_active delta_epoch ;;
  next_delta_epoch <- Delegator.get_next_delta_epoch del ;;
  can_compound_boundary <- is_epoch_active next_delta_epoch ;;
  (if can_compound_boundary : bool then
     monad_assert_throw can_compound "staking compound logic error" ;;
     compound_window val_id del
   else Ret tt) ;;
  (if can_compound : bool then compound_window val_id del else Ret tt) ;;
  stake <- load (Delegator.stake del) ;;
  if stake =? 0 then Ret tt
  else
    val_acc <- load (ValExecution.accumulated_reward_per_token val) ;;
    del_acc <- load (Delegator.accumulated_reward_per_token del) ;;
    rewards <- math (calculate_rewards stake val_acc del_acc) ;;
    reward_invariant val rewards ;;
    old <- load (Delegator.rewards del) ;;
    new_rewards <- math (checked_add old rewards) ;;
    store (Delegator.rewards del) new_rewards ;;
    acc <- load (ValExecution.accumulated_reward_per_token val) ;;
    store (Delegator.accumulated_reward_per_token del) acc.

Definition apply_reward (val_id : u64) (from : address) (new_rewards active_stake : u256)
    : P unit :=
  reward_acc <- math (checked_mul_div new_rewards UNIT_BIAS active_stake) ;;
  let val_execution := vars.val_execution val_id in
  old_acc <- load (ValExecution.accumulated_reward_per_token val_execution) ;;
  acc <- math (checked_add old_acc reward_acc) ;;
  store (ValExecution.accumulated_reward_per_token val_execution) acc ;;
  old_unclaimed <- load (ValExecution.unclaimed_rewards val_execution) ;;
  unclaimed_rewards <- math (checked_add old_unclaimed new_rewards) ;;
  store (ValExecution.unclaimed_rewards val_execution) unclaimed_rewards ;;
  emit_validator_rewarded_event val_id from new_rewards.
