(* ===== verification/ListSpec.v ===== *)
(** * Doubly linked lists over link functions

    The abstract side of StakingList.v: a doubly linked list is a pair of
    functions [nxt] and [prv] on pointers, a sentinel, and the sequence of
    pointers they link.  Pure lemmas: what inserting at the head and unlinking a
    member do to the functions, and to the sequence. *)
From S2P Require Import Prelude.

Lemma filter_ne_notin {n} (p : uword n) (l : list (uword n)) : p ∉ l -> filter (fun q => q <> p) l = l.
Proof.
  induction l as [|x l IH]; intros Hp; [done|].
  rewrite filter_cons_True by set_solver. rewrite IH by set_solver. done.
Qed.

Section is_dll.
Context {n : N}.
Abbreviation Ptr := (uword n).
Implicit Types (nxt prv : Ptr -> Ptr) (l : list Ptr) (p q s e : Ptr).

(** [chain nxt prv s l e]: from [s], the links run through [l] and end at [e]. *)
Fixpoint chain nxt prv s l e : Prop :=
  match l with
  | [] => nxt s = e
  | x :: l' => nxt s = x /\ prv x = s /\ chain nxt prv x l' e
  end.

(** The last pointer before the end of the chain. *)
Definition last_from s l : Ptr := default s (last l).

Record is_dll sentinel nxt prv l : Prop := {
  dll_nodup : NoDup l;
  dll_valid : forall p, p ∈ l -> p <> #0 /\ p <> sentinel;
  dll_chain : chain nxt prv sentinel l #0;
  dll_absent : forall p, p ∉ l -> p <> sentinel -> prv p = #0;
}.

Lemma chain_ext nxt nxt' prv prv' s l e :
  (forall q, q ∈ s :: l -> nxt' q = nxt q) -> (forall q, q ∈ l -> prv' q = prv q) ->
  chain nxt prv s l e -> chain nxt' prv' s l e.
Proof.
  revert s. induction l as [|x l IH]; intros s Hn Hp; simpl.
  - intros <-. apply Hn. set_solver.
  - intros (Ex & Ep & Hc). split; [|split].
    + rewrite Hn by set_solver. done.
    + rewrite Hp by set_solver. done.
    + apply IH; [..|done]; intros q Hq; [apply Hn|apply Hp]; set_solver.
Qed.

Lemma last_from_cons s x l : last_from s (x :: l) = last_from x l.
Proof. unfold last_from. rewrite last_cons. by destruct (last l). Qed.

Lemma last_from_in s l : last_from s l ∈ s :: l.
Proof.
  unfold last_from. destruct (last l) as [x|] eqn:E; simpl; [|set_solver].
  apply last_Some in E as [l' ->]. set_solver.
Qed.

Lemma chain_app nxt prv s l1 x l2 e :
  chain nxt prv s (l1 ++ x :: l2) e <->
  chain nxt prv s l1 x /\ prv x = last_from s l1 /\ chain nxt prv x l2 e.
Proof.
  revert s. induction l1 as [|y l1 IH]; intros s; cbn [app chain].
  - unfold last_from. simpl. tauto.
  - rewrite IH, last_from_cons. tauto.
Qed.

(** Redirecting the last link of a chain. *)
Lemma chain_redirect nxt nxt' prv prv' s l e e' :
  NoDup (s :: l) ->
  (forall q, q ∈ s :: l -> q <> last_from s l -> nxt' q = nxt q) ->
  nxt' (last_from s l) = e' ->
  (forall q, q ∈ l -> prv' q = prv q) ->
  chain nxt prv s l e -> chain nxt' prv' s l e'.
Proof.
  revert s. induction l as [|x l IH]; intros s ND Hn He Hp; simpl.
  - done.
  - intros (Ex & Ep & Hc). rewrite last_from_cons in *.
    apply NoDup_cons in ND as [Hs ND]. split; [|split].
    + rewrite Hn; [done|set_solver|]. intros ->. apply Hs, last_from_in.
    + rewrite Hp by set_solver. done.
    + apply IH; [done| |done| |done]; intros q Hq; [|apply Hp; set_solver].
      intros. apply Hn; set_solver.
Qed.

Lemma is_dll_ext sentinel nxt nxt' prv prv' l :
  (forall q, nxt' q = nxt q) -> (forall q, prv' q = prv q) ->
  is_dll sentinel nxt prv l -> is_dll sentinel nxt' prv' l.
Proof.
  intros Hn Hp [ND V C A]. split; [done..| |].
  - eapply chain_ext; [..|done]; auto.
  - intros. rewrite Hp. auto.
Qed.

(** A member is recognised by its nonzero back link. *)
Lemma is_dll_member sentinel nxt prv l p :
  is_dll sentinel nxt prv l -> sentinel <> #0 -> p <> sentinel ->
  prv p <> #0 <-> p ∈ l.
Proof.
  intros [ND V C A] Hs Hp. split.
  - intros Hne. destruct (decide (p ∈ l)); [done|]. exfalso. auto.
  - intros Hin. apply list_elem_of_split in Hin as (l1 & l2 & ->).
    apply chain_app in C as (_ & -> & _).
    pose proof (last_from_in sentinel l1) as [->|Hl]%elem_of_cons; [done|].
    apply V. set_solver.
Qed.

Lemma is_dll_next_sentinel sentinel nxt prv l :
  is_dll sentinel nxt prv l -> nxt sentinel = default #0 (head l).
Proof. intros [_ _ C _]. destruct l; simpl in *; tauto. Qed.

Lemma is_dll_insert sentinel nxt nxt' prv prv' l p h :
  is_dll sentinel nxt prv l -> p ∉ l -> p <> #0 -> p <> sentinel -> nxt sentinel = h ->
  (forall q, nxt' q = if decide (q = sentinel) then p else if decide (q = p) then h else nxt q) ->
  (forall q, prv' q = if decide (q = p) then sentinel
                      else if decide (q = h /\ h <> #0) then p else prv q) ->
  is_dll sentinel nxt' prv' (p :: l).
Proof.
  intros D Hp H0 Hs Hh Hn Hv. pose proof (is_dll_next_sentinel _ _ _ _ D) as Eh.
  rewrite Hh in Eh. destruct D as [ND V C A]. split.
  - by constructor.
  - intros q [->|Hq]%elem_of_cons; auto.
  - cbn [chain]. rewrite Hn, decide_True by done. rewrite Hv, (decide_True (P := p = p)) by done.
    split; [done|]. split; [done|]. destruct l as [|x l]; simpl in *.
    + rewrite Hn, decide_False, decide_True by done. done.
    + destruct (V x) as [Vx Vx']; [apply elem_of_cons; auto|]. destruct C as (_ & _ & C).
      apply NoDup_cons in ND as [Hx ND]. apply not_elem_of_cons in Hp as [Hpx Hp].
      rewrite Hn, (decide_False (P := p = sentinel)), (decide_True (P := p = p)) by done.
      rewrite Hv, decide_False, decide_True by (subst; auto). split; [done|]. split; [done|].
      assert (forall q, q ∈ x :: l -> q <> p /\ q <> sentinel) as Hq'.
      { intros q Hq. split; [|by apply V]. intros ->. apply elem_of_cons in Hq as [?|?]; auto. }
      eapply chain_ext; [..|exact C].
      * intros q [? ?]%Hq'. by rewrite Hn, decide_False, decide_False.
      * intros q Hq. destruct (Hq' q) as [? ?]; [apply elem_of_cons; auto|].
        rewrite Hv, decide_False, decide_False; [done| |done]. intros [-> _]. congruence.
  - intros q [Hqp Hq]%not_elem_of_cons Hqs. rewrite Hv, decide_False by done.
    rewrite decide_False; [by apply A|]. intros [-> Hh0].
    destruct l as [|x l]; simpl in *; [done|]. apply not_elem_of_cons in Hq as [? ?]. done.
Qed.

Lemma is_dll_remove sentinel nxt nxt' prv prv' l1 l2 p a b :
  is_dll sentinel nxt prv (l1 ++ p :: l2) -> prv p = a -> nxt p = b ->
  (forall q, nxt' q = if decide (q = p) then #0 else if decide (q = a) then b else nxt q) ->
  (forall q, prv' q = if decide (q = p) then #0
                      else if decide (q = b /\ b <> #0) then a else prv q) ->
  is_dll sentinel nxt' prv' (l1 ++ l2).
Proof.
  intros [ND V C A] Ha Hb Hn Hv.
  apply chain_app in C as (C1 & Ea & C2). rewrite Ha in Ea.
  assert (Hs : sentinel ∉ l1 ++ p :: l2) by (intros Hin; by apply V in Hin as [_ ?]).
  apply not_elem_of_app in Hs as [Hs1 [Hsp Hs2]%not_elem_of_cons].
  destruct (V p) as [Vp Vp']; [apply elem_of_app; right; apply elem_of_cons; auto|].
  pose proof ND as ND0. rewrite <- Permutation_middle in ND0.
  apply NoDup_cons in ND0 as [[Hp1 Hp2]%not_elem_of_app ND'].
  apply NoDup_app in ND' as (ND1 & Hd & ND2).
  assert (NDs : NoDup (sentinel :: l1)) by by constructor.
  pose proof (last_from_in sentinel l1) as Hl. rewrite <- Ea in Hl.
  assert (Hap : a <> p) by (intros ->; apply elem_of_cons in Hl as [?|?]; auto).
  assert (Ha2 : a ∉ l2) by (apply elem_of_cons in Hl as [->|?]; auto).
  assert (Hq1 : forall q, q ∈ sentinel :: l1 -> q <> p)
    by (intros q [->|Hq]%elem_of_cons; [auto|by intros ->]).
  assert (Hb2 : b = default #0 (head l2)) by (rewrite <- Hb; destruct l2; simpl in C2; tauto).
  assert (Hb1 : forall q, q ∈ l1 -> ~ (q = b /\ b <> #0)).
  { intros q Hq [-> Hb0]. destruct l2 as [|x l2]; simpl in Hb2; [done|].
    apply (Hd b Hq). rewrite Hb2. apply elem_of_cons; auto. }
  assert (C1' : chain nxt' prv' sentinel l1 b).
  { eapply chain_redirect; [done|..|exact C1].
    - intros q Hq Hne. rewrite Hn, decide_False, decide_False; [done|congruence|by apply Hq1].
    - rewrite <- Ea, Hn, decide_False, decide_True by done. done.
    - intros q Hq. rewrite Hv, decide_False, decide_False; [done|by apply Hb1|].
      apply Hq1, elem_of_cons; auto. }
  split.
  - apply NoDup_app. auto.
  - intros q Hq. apply V. rewrite elem_of_app, elem_of_cons. apply elem_of_app in Hq. tauto.
  - destruct l2 as [|x l2]; simpl in Hb2; [rewrite app_nil_r, <- Hb2; done|].
    destruct C2 as (_ & Ex & C2). apply not_elem_of_cons in Hp2 as [Hpx Hp2].
    apply NoDup_cons in ND2 as [Hx2 _]. apply not_elem_of_cons in Ha2 as [Hax Ha2].
    destruct (V x) as [Hx0 _]; [apply elem_of_app; right; right; left|].
    apply chain_app. rewrite <- Hb2, <- Ea. split; [done|]. split.
    + rewrite Hv, decide_False, decide_True; [done|split; congruence|congruence].
    + rewrite Hb2. eapply chain_ext; [..|exact C2].
      * intros q Hq. rewrite Hn, decide_False, decide_False; [done|..];
          intros ->; apply elem_of_cons in Hq as [?|?]; auto.
      * intros q Hq. rewrite Hv, decide_False, decide_False; [done| |by intros ->].
        intros [-> _]. rewrite Hb2 in Hq. done.
  - intros q [Hq1' Hq2']%not_elem_of_app Hqs. rewrite Hv. destruct (decide (q = p)); [done|].
    rewrite decide_False.
    + apply A; [|done]. rewrite elem_of_app, elem_of_cons. tauto.
    + intros [-> Hb0]. destruct l2 as [|x l2]; simpl in Hb2; [done|].
      apply Hq2'. rewrite Hb2. apply elem_of_cons; auto.
Qed.
End is_dll.
