(* ===== verification/StakingList.v ===== *)
(** * Staking contract: the intrusive delegator/validator lists

    Models [LinkedListTrait] and [linked_list_insert], [linked_list_remove] and
    [linked_list_traverse] of
    src/category/execution/monad/staking/staking_contract.cpp.  The nodes live
    inside the delegator records: each record carries one pair of links for its
    validator's list of delegators and one for its delegator's list of
    validators.  The two instances of the class are the two C++ trait
    specialisations, and every theorem is proved once, for the class. *)
From S2P Require Import Prelude Prog Storage UInt256 Abi StakingVars StakingHelpers ListSpec.

(** ** The trait *)
Class LinkedListTrait (Key : Type) (n : N) := {
  ll_sentinel : uword n;
  ll_prev : ListNode -> uword n;
  ll_next : ListNode -> uword n;
  ll_set_prev : uword n -> ListNode -> ListNode;
  ll_set_next : uword n -> ListNode -> ListNode;
  ll_node : Key -> uword n -> StorageVariable ListNode;
  (** The laws the list operations rely on. *)
  ll_sentinel_nonzero : ll_sentinel <> #0;
  ll_prev_set_prev : forall p x, ll_prev (ll_set_prev p x) = p;
  ll_next_set_next : forall p x, ll_next (ll_set_next p x) = p;
  ll_prev_set_next : forall p x, ll_prev (ll_set_next p x) = ll_prev x;
  ll_next_set_prev : forall p x, ll_next (ll_set_prev p x) = ll_next x;
  ll_node_disjoint : forall k p k' p', (k, p) <> (k', p') ->
    sv_disjoint (ll_node k p) (ll_node k' p');
}.

(** [LinkedListTrait<Address, u64_be>]: the validators of a delegator. *)
#[export, program] Instance validators_of_delegator : LinkedListTrait address 64 := {|
  ll_sentinel := #0xFFFFFFFFFFFFFFFF;
  ll_prev := iprev;
  ll_next := inext;
  ll_set_prev p x := mk_node (inext x) p (anext x) (aprev x);
  ll_set_next p x := mk_node p (iprev x) (anext x) (aprev x);
  ll_node k p := Delegator.list_node (vars.delegator p k) |}.
Solve Obligations with try done.
Next Obligation.
  intros k p k' p' Hne. apply svar_disjoint; [done..|]. left. intros [= -> ->]. done.
Qed.

(** [LinkedListTrait<u64_be, Address>]: the delegators of a validator. *)
#[export, program] Instance delegators_of_validator : LinkedListTrait u64 160 := {|
  ll_sentinel := #0xFFFFFFFFFFFFFFFFFFFFFFFFFFFFFFFFFFFFFFFF;
  ll_prev := aprev;
  ll_next := anext;
  ll_set_prev p x := mk_node (inext x) (iprev x) (anext x) p;
  ll_set_next p x := mk_node (inext x) (iprev x) p (aprev x);
  ll_node k p := Delegator.list_node (vars.delegator k p) |}.
Solve Obligations with try done.
Next Obligation.
  intros k p k' p' Hne. apply svar_disjoint; [done..|]. left. intros [= -> ->]. done.
Qed.

Section LinkedList.
Context {Key : Type} {n : N} `{LinkedListTrait Key n}.
Abbreviation Ptr := (uword n).
Implicit Types (key : Key) (p : Ptr).

Definition ll_empty : Ptr := #0.

Definition load_node key p : P ListNode := load (ll_node key p).
Definition store_node key p (x : ListNode) : P unit := store (ll_node key p) x.

Definition linked_list_insert key (this_ptr : Ptr) : P unit :=
  require_not ((this_ptr =w? ll_empty) || (this_ptr =w? ll_sentinel)) InvalidInput ;;
  this_node <- load_node key this_ptr ;;
  if negb (ll_prev this_node =w? ll_empty) then Ret tt
  else
    sentinel_node <- load_node key ll_sentinel ;;
    let next_ptr := ll_next sentinel_node in
    (if negb (next_ptr =w? ll_empty) then
       next <- load_node key next_ptr ;;
       store_node key next_ptr (ll_set_prev this_ptr next)
     else Ret tt) ;;
    let this_node := ll_set_next next_ptr (ll_set_prev ll_sentinel this_node) in
    let sentinel_node := ll_set_next this_ptr sentinel_node in
    store_node key this_ptr this_node ;;
    store_node key ll_sentinel sentinel_node.

Definition linked_list_remove key (this_ptr : Ptr) : P unit :=
  monad_assert_throw (negb (this_ptr =w? ll_empty) && negb (this_ptr =w? ll_sentinel))
    "invalid list entry" ;;
  this_node <- load_node key this_ptr ;;
  if ll_prev this_node =w? ll_empty then Ret tt
  else
    let prev_ptr := ll_prev this_node in
    let next_ptr := ll_next this_node in
    prev_node <- load_node key prev_ptr ;;
    store_node key prev_ptr (ll_set_next next_ptr prev_node) ;;
    (if negb (next_ptr =w? ll_empty) then
       next_node <- load_node key next_ptr ;;
       store_node key next_ptr (ll_set_prev prev_ptr next_node)
     else Ret tt) ;;
    store_node key this_ptr (ll_set_next ll_empty (ll_set_prev ll_empty this_node)).

(** The loop of [linked_list_traverse]; [fuel] is [limit - nodes_read]. *)
Fixpoint traverse_loop key (ptr : Ptr) (fuel : nat) (results : list Ptr)
    : P (Ptr * list Ptr) :=
  match fuel with
  | O => Ret (ptr, results)
  | S fuel' =>
      if ptr =w? ll_empty then Ret (ptr, results)
      else
        node <- load_node key ptr ;;
        traverse_loop key (ll_next node) fuel' (results ++ [ptr])
  end.

Definition linked_list_traverse key (start_ptr : Ptr) (limit : u32)
    : P (bool * Ptr * list Ptr) :=
  ptr <- (if start_ptr =w? ll_empty then
            sentinel_node <- load_node key ll_sentinel ;;
            Ret (ll_next sentinel_node)
          else Ret start_ptr) ;;
  node <- load_node key ptr ;;
  if ll_prev node =w? ll_empty then Ret (true, ptr, [])
  else
    let* (ptr, results) := traverse_loop key ptr (Z.to_nat limit) [] in
    Ret (ptr =w? ll_empty, ptr, results).
End LinkedList.

(** ** Correctness *)
Section LinkedListCorrect.
Context {Key : Type} {n : N} `{LinkedListTrait Key n}.
Abbreviation Ptr := (uword n).
Implicit Types (key : Key) (p q : Ptr) (w : World) (l : list Ptr).

Definition node w key p : ListNode := rd w (ll_node key p).
Definition nxt w key p : Ptr := ll_next (node w key p).
Definition prv w key p : Ptr := ll_prev (node w key p).

(** In world [w], the list of [key] is [l]. *)
Definition is_list w key l : Prop := is_dll ll_sentinel (nxt w key) (prv w key) l.

Lemma node_wr w key p x q :
  node (wr w (ll_node key p) x) key q = if decide (q = p) then x else node w key q.
Proof.
  unfold node. case_decide as E; [by rewrite E, rd_wr|].
  apply rd_wr_ne, ll_node_disjoint. congruence.
Qed.

Lemma node_wr_other w key p x key' q :
  key <> key' -> node (wr w (ll_node key p) x) key' q = node w key' q.
Proof. intros Hk. apply rd_wr_ne, ll_node_disjoint. congruence. Qed.

(** The worlds the two updates end in. *)
Definition insert_world w key p : World :=
  let h := nxt w key ll_sentinel in
  let w1 := if h =w? #0 then w
            else wr w (ll_node key h) (ll_set_prev p (node w key h)) in
  let w2 := wr w1 (ll_node key p) (ll_set_next h (ll_set_prev ll_sentinel (node w key p))) in
  wr w2 (ll_node key ll_sentinel) (ll_set_next p (node w key ll_sentinel)).

Definition remove_world w key p : World :=
  let a := prv w key p in
  let b := nxt w key p in
  let w1 := wr w (ll_node key a) (ll_set_next b (node w key a)) in
  let w2 := if b =w? #0 then w1
            else wr w1 (ll_node key b) (ll_set_prev a (node w1 key b)) in
  wr w2 (ll_node key p) (ll_set_next #0 (ll_set_prev #0 (node w key p))).

Lemma ptr_guard p : p <> #0 -> p <> ll_sentinel ->
  (p =w? ll_empty) || (p =w? ll_sentinel) = false.
Proof. intros. destruct (weqb_spec p ll_empty), (weqb_spec p ll_sentinel); done. Qed.

Lemma run_insert_new w key p :
  p <> #0 -> p <> ll_sentinel -> prv w key p = #0 ->
  run (linked_list_insert key p) w = (ROk tt, insert_world w key p).
Proof.
  intros H0 Hs Hp. unfold linked_list_insert, require_not, fail_if. rewrite ptr_guard by done.
  unfold load_node, store_node. autorewrite with run. fold (node w key p).
  fold (prv w key p). rewrite Hp. unfold ll_empty. rewrite weqb_refl. cbn [negb].
  autorewrite with run. unfold insert_world.
  fold (node w key ll_sentinel). fold (nxt w key ll_sentinel).
  destruct (nxt w key ll_sentinel =w? #0); cbn [negb]; by autorewrite with run.
Qed.

Lemma run_insert_present w key p :
  p <> #0 -> p <> ll_sentinel -> prv w key p <> #0 ->
  run (linked_list_insert key p) w = (ROk tt, w).
Proof.
  intros H0 Hs Hp. unfold linked_list_insert, require_not, fail_if. rewrite ptr_guard by done.
  unfold load_node. autorewrite with run. fold (node w key p). fold (prv w key p).
  destruct (weqb_spec (prv w key p) ll_empty); done.
Qed.

Lemma run_insert_invalid w key p :
  p = #0 \/ p = ll_sentinel ->
  run (linked_list_insert key p) w = (RErr (EStaking InvalidInput), w).
Proof.
  intros Hp. unfold linked_list_insert, require_not, fail_if.
  destruct (weqb_spec p ll_empty), (weqb_spec p ll_sentinel); try done.
  by destruct Hp.
Qed.

Lemma run_remove_member w key p :
  p <> #0 -> p <> ll_sentinel -> prv w key p <> #0 ->
  run (linked_list_remove key p) w = (ROk tt, remove_world w key p).
Proof.
  intros H0 Hs Hp. unfold linked_list_remove, monad_assert_throw.
  rewrite <- negb_orb, ptr_guard by done. cbn [negb]. unfold load_node, store_node.
  autorewrite with run. fold (node w key p). fold (prv w key p). fold (nxt w key p).
  destruct (weqb_spec (prv w key p) ll_empty); [done|].
  autorewrite with run. unfold remove_world.
  fold (node w key (prv w key p)). unfold ll_empty.
  destruct (nxt w key p =w? #0); cbn [negb]; by autorewrite with run.
Qed.

Lemma run_remove_absent w key p :
  p <> #0 -> p <> ll_sentinel -> prv w key p = #0 ->
  run (linked_list_remove key p) w = (ROk tt, w).
Proof.
  intros H0 Hs Hp. unfold linked_list_remove, monad_assert_throw.
  rewrite <- negb_orb, ptr_guard by done. cbn [negb]. unfold load_node.
  autorewrite with run. fold (node w key p). fold (prv w key p). rewrite Hp.
  unfold ll_empty. by rewrite weqb_refl.
Qed.

Create Rewrite HintDb links.
Hint Rewrite ll_prev_set_prev ll_next_set_next ll_prev_set_next ll_next_set_prev : links.

Ltac links := unfold nxt, prv in *; rewrite !node_wr; repeat case_decide; subst;
  autorewrite with links; try done; try congruence.

Lemma insert_world_is_list w key p l :
  is_list w key l -> p ∉ l -> p <> #0 -> p <> ll_sentinel ->
  is_list (insert_world w key p) key (p :: l).
Proof.
  intros D Hp H0 Hs. pose proof (is_dll_next_sentinel _ _ _ _ D) as Eh.
  assert (Hh : nxt w key ll_sentinel <> p /\ nxt w key ll_sentinel <> ll_sentinel).
  { rewrite Eh. destruct l as [|x l]; simpl; [split; [done|]|].
    - intros E. by apply ll_sentinel_nonzero.
    - split; [intros ->; apply Hp, elem_of_cons; auto|].
      by apply (dll_valid _ _ _ _ D), elem_of_cons; left. }
  destruct Hh as [Hh1 Hh2]. clear Eh.
  eapply is_dll_insert; [exact D|done..| |]; intros q; unfold insert_world;
    destruct (weqb_spec (nxt w key ll_sentinel) #0) as [E|E]; links.
  all: intuition congruence.
Qed.

Lemma remove_world_is_list w key p l1 l2 :
  is_list w key (l1 ++ p :: l2) -> is_list (remove_world w key p) key (l1 ++ l2).
Proof.
  intros D. assert (Hin : p ∈ l1 ++ p :: l2) by (apply elem_of_app; right; left).
  destruct (dll_valid _ _ _ _ D p Hin) as [H0 Hs].
  assert (Hab : prv w key p <> p /\ nxt w key p <> p /\
                (nxt w key p <> #0 -> nxt w key p <> prv w key p)).
  { pose proof (dll_nodup _ _ _ _ D) as ND. pose proof (dll_valid _ _ _ _ D) as V.
    pose proof (dll_chain _ _ _ _ D) as C. apply chain_app in C as (_ & Ea & C).
    pose proof (last_from_in ll_sentinel l1) as Hl. rewrite <- Ea in Hl.
    apply NoDup_app in ND as (_ & Hd & [Hp2 _]%NoDup_cons).
    assert (Hb : nxt w key p = #0 \/ nxt w key p ∈ l2).
    { destruct l2 as [|x l2]; simpl in C; [by left|right]. destruct C as [-> _].
      apply elem_of_cons; auto. }
    split; [|split].
    - intros E. rewrite E in Hl. apply elem_of_cons in Hl as [?|Hl]; [done|].
      apply (Hd p Hl), elem_of_cons; auto.
    - intros E. rewrite E in Hb. destruct Hb; done.
    - intros Hb0 E. destruct Hb as [?|Hb]; [done|]. rewrite E in Hb.
      apply elem_of_cons in Hl as [Hl|Hl].
      + rewrite Hl in Hb. destruct (V ll_sentinel) as [_ ?]; [|done].
        apply elem_of_app; right; apply elem_of_cons; auto.
      + apply (Hd _ Hl), elem_of_cons; auto. }
  destruct Hab as (Ha & Hb & Hab).
  eapply is_dll_remove; [exact D|reflexivity|reflexivity|..]; intros q; unfold remove_world;
    destruct (weqb_spec (nxt w key p) #0) as [E|E]; links.
  all: intuition congruence.
Qed.

(** Updates of one key's list leave the other keys' lists alone. *)
Lemma insert_world_other w key p key' q :
  key <> key' -> node (insert_world w key p) key' q = node w key' q.
Proof.
  intros Hk. unfold insert_world. rewrite !node_wr_other by done.
  destruct (_ =w? _); [done|]. by rewrite node_wr_other.
Qed.

Lemma remove_world_other w key p key' q :
  key <> key' -> node (remove_world w key p) key' q = node w key' q.
Proof.
  intros Hk. unfold remove_world. rewrite node_wr_other by done.
  destruct (_ =w? _); by rewrite !node_wr_other.
Qed.

(** ** Traversal *)
Lemma run_traverse_loop w key s l fuel results :
  chain (nxt w key) (prv w key) s l #0 -> (forall p, p ∈ l -> p <> #0) ->
  run (traverse_loop key (nxt w key s) fuel results) w =
    (ROk (default #0 (head (drop fuel l)), results ++ take fuel l), w).
Proof.
  revert s l results. induction fuel as [|fuel IH]; intros s l results C V.
  - cbn [traverse_loop]. rewrite app_nil_r, drop_0, run_ret.
    destruct l; simpl in *; [by rewrite C|by destruct C as [-> _]].
  - cbn [traverse_loop]. destruct l as [|x l]; simpl in C.
    + rewrite C. unfold ll_empty. rewrite weqb_refl, run_ret. by rewrite app_nil_r.
    + destruct C as (Ex & _ & C). rewrite Ex.
      destruct (weqb_spec x ll_empty) as [->|_].
      { exfalso. apply (V ll_empty); [left|done]. }
      unfold load_node. autorewrite with run. fold (node w key x). fold (nxt w key x).
      rewrite IH with (l := l); [|done|intros p Hp; apply V; by right].
      cbn [drop take]. by rewrite <- app_assoc.
Qed.

(** What a page of the list starting with the nodes [l] is. *)
Definition page (limit : u32) l : bool * Ptr * list Ptr :=
  let k := Z.to_nat limit in
  let next := default #0 (head (drop k l)) in
  (next =w? #0, next, take k l).

Lemma run_traverse_from w key l1 p l2 limit :
  is_list w key (l1 ++ p :: l2) ->
  run (linked_list_traverse key p limit) w = (ROk (page limit (p :: l2)), w).
Proof.
  intros D. assert (Hin : p ∈ l1 ++ p :: l2) by (apply elem_of_app; right; left).
  pose proof (dll_valid _ _ _ _ D) as V. destruct (V p Hin) as [H0 Hs].
  unfold linked_list_traverse. destruct (weqb_spec p ll_empty) as [|_]; [done|].
  unfold load_node. autorewrite with run. fold (node w key p). fold (prv w key p).
  destruct (weqb_spec (prv w key p) ll_empty) as [E|_].
  { exfalso. by apply (proj2 (is_dll_member _ _ _ _ p D ll_sentinel_nonzero Hs)) in Hin. }
  pose proof (dll_chain _ _ _ _ D) as C. apply chain_app in C as (_ & _ & C).
  rewrite run_bind. unfold page. destruct (Z.to_nat limit) as [|k].
  - cbn [traverse_loop]. by autorewrite with run.
  - cbn [traverse_loop]. destruct (weqb_spec p ll_empty) as [|_]; [done|].
    unfold load_node. autorewrite with run. fold (node w key p). fold (nxt w key p).
    rewrite run_traverse_loop with (l := l2); [done..|].
    intros q Hq. apply V, elem_of_app. right. by right.
Qed.

Lemma run_traverse_start w key l limit :
  is_list w key l ->
  run (linked_list_traverse key #0 limit) w =
    (ROk (match l with [] => (true, #0, []) | _ => page limit l end), w).
Proof.
  intros D. pose proof (is_dll_next_sentinel _ _ _ _ D) as Eh. destruct l as [|p l]; simpl in Eh.
  - unfold linked_list_traverse. unfold ll_empty. rewrite weqb_refl. unfold load_node.
    autorewrite with run. fold (node w key ll_sentinel). fold (nxt w key ll_sentinel).
    rewrite Eh. fold (node w key #0). fold (prv w key #0).
    rewrite (dll_absent _ _ _ _ D); [by rewrite weqb_refl|apply not_elem_of_nil|].
    intros E. by apply ll_sentinel_nonzero.
  - pose proof (run_traverse_from w key [] p l limit D) as Hrun.
    destruct (dll_valid _ _ _ _ D p) as [H0 Hs]; [by left|].
    unfold linked_list_traverse in *. unfold ll_empty in *. rewrite weqb_refl.
    destruct (weqb_spec p #0) as [|_]; [done|]. rewrite run_bind in *.
    unfold load_node at 1. autorewrite with run.
    fold (node w key ll_sentinel). fold (nxt w key ll_sentinel). rewrite Eh.
    autorewrite with run in Hrun. exact Hrun.
Qed.
End LinkedListCorrect.

(** ** The two lists share their nodes but not their links *)
Definition same_links {X} (f : ListNode -> X) (w w' : World) : Prop :=
  forall id a, f (rd w' (Delegator.list_node (ODelegator id a))) =
               f (rd w (Delegator.list_node (ODelegator id a))).

Lemma same_links_wr {X} (f : ListNode -> X) w w1 id a x :
  same_links f w w1 -> f x = f (rd w (Delegator.list_node (ODelegator id a))) ->
  same_links f w (wr w1 (Delegator.list_node (ODelegator id a)) x).
Proof.
  intros H1 Hx id' a'.
  destruct (decide (ODelegator id a = ODelegator id' a')) as [E|E].
  - injection E as <- <-. by rewrite rd_wr.
  - rewrite rd_wr_ne; [apply H1|]. apply svar_disjoint; [done..|by left].
Qed.

Lemma same_links_refl {X} (f : ListNode -> X) w : same_links f w w.
Proof. done. Qed.

(** Inserting a delegator into a validator's list, or removing it, keeps every
    delegator's list of validators; and the other way round. *)
Lemma insert_delegator_links w (id : u64) (a : address) :
  same_links (fun x => (inext x, iprev x)) w (insert_world w id a).
Proof.
  unfold insert_world. repeat apply same_links_wr; try done.
  destruct (_ =w? _); [done|]. by apply same_links_wr.
Qed.

Lemma insert_validator_links w (id : u64) (a : address) :
  same_links (fun x => (anext x, aprev x)) w (insert_world w a id).
Proof.
  unfold insert_world. repeat apply same_links_wr; try done.
  destruct (_ =w? _); [done|]. by apply same_links_wr.
Qed.

Lemma is_list_same_validators w w' (a : address) (l : list u64) :
  same_links (fun x => (inext x, iprev x)) w w' -> is_list w a l -> is_list w' a l.
Proof.
  intros S. apply is_dll_ext; intros q; specialize (S q a); (exact (f_equal fst S) || exact (f_equal snd S)).
Qed.

Lemma is_list_same_delegators w w' (id : u64) (l : list address) :
  same_links (fun x => (anext x, aprev x)) w w' -> is_list w id l -> is_list w' id l.
Proof.
  intros S. apply is_dll_ext; intros q; specialize (S id q); (exact (f_equal fst S) || exact (f_equal snd S)).
Qed.

(** What one kind of list promises to another whose links are in the same nodes: its
    writes keep the links of the other. *)
Class SharesNodes (Key : Type) (n : N) (Key' : Type) (n' : N)
    `{LinkedListTrait Key n} `{LinkedListTrait Key' n'} : Prop := {
  sn_node : forall (k : Key) (p : uword n), exists (k' : Key') (p' : uword n'), ll_node k p = ll_node k' p';
  sn_prev : forall (p : uword n) x, ll_next (n := n') (ll_set_prev p x) = ll_next x /\
    ll_prev (n := n') (ll_set_prev p x) = ll_prev x;
  sn_next : forall (p : uword n) x, ll_next (n := n') (ll_set_next p x) = ll_next x /\
    ll_prev (n := n') (ll_set_next p x) = ll_prev x;
}.

#[export] Instance validators_share : SharesNodes address 64 u64 160.
Proof. split; [intros k p; by exists p, k|done..]. Qed.
#[export] Instance delegators_share : SharesNodes u64 160 address 64.
Proof. split; [intros k p; by exists p, k|done..]. Qed.

Section shared.
Context {Key : Type} {n : N} {Key' : Type} {n' : N}.
Context `{HK : !LinkedListTrait Key n} `{HK' : !LinkedListTrait Key' n'} `{HS : !SharesNodes Key n Key' n'}.
Context `{HE : !EqDecision Key'}.

(** Every node has the links of the other kind it had. *)
Definition links_kept (w w' : World) : Prop :=
  forall (k : Key') (q : uword n'), nxt w' k q = nxt w k q /\ prv w' k q = prv w k q.

Lemma links_kept_wr w w1 (key : Key) (p : uword n) x :
  links_kept w w1 ->
  (ll_next (n := n') x = ll_next (node w key p) /\ ll_prev (n := n') x = ll_prev (node w key p)) ->
  links_kept w (wr w1 (ll_node key p) x).
Proof using HS HE.
  intros H1 Hx k q. destruct (sn_node key p) as (k' & p' & E). unfold nxt, prv, node in *. rewrite E in *.
  destruct (decide ((k', p') = (k, q))) as [[= <- <-]|Hne]; [by rewrite rd_wr|].
  rewrite rd_wr_ne by (by apply ll_node_disjoint). apply H1.
Qed.

(** The links of a node in a world that has kept them. *)
Lemma links_kept_node w w1 (key : Key) (p : uword n) :
  links_kept w w1 -> ll_next (n := n') (node w1 key p) = ll_next (node w key p) /\
    ll_prev (n := n') (node w1 key p) = ll_prev (node w key p).
Proof using HS HE.
  intros H1. destruct (sn_node key p) as (k' & p' & E). unfold node. rewrite E. apply (H1 k' p').
Qed.

Lemma remove_links_kept w (key : Key) (p : uword n) : links_kept w (remove_world w key p).
Proof using HS HE.
  unfold remove_world.
  assert (H1 : links_kept w (wr w (ll_node key (prv w key p)) (ll_set_next (nxt w key p) (node w key (prv w key p)))))
    by (apply links_kept_wr; [done|apply sn_next]).
  apply links_kept_wr.
  - destruct (_ =w? _); [done|]. apply links_kept_wr; [done|].
    pose proof (links_kept_node _ _ key (nxt w key p) H1) as [<- <-]. apply sn_prev.
  - match goal with |- context [ll_set_next ?q (ll_set_prev ?r ?x)] =>
      destruct (sn_next q (ll_set_prev r x)) as [-> ->]; apply sn_prev end.
Qed.

Lemma is_list_links w w' (key : Key') (l : list (uword n')) :
  links_kept w w' -> is_list w key l -> is_list w' key l.
Proof using Type. intros S. apply is_dll_ext; intros q; apply S. Qed.
End shared.

(** ** Reading a whole list page by page *)
Section pages.
Context {Key : Type} {n : N} `{LinkedListTrait Key n}.

(** What a client does with [getDelegators] and [getDelegations]: start at the
    empty pointer, follow the returned pointer until a page is the last. *)
Fixpoint read_pages (key : Key) (ptr : uword n) (limit : u32) (calls : nat) : P (list (uword n)) :=
  match calls with
  | O => Halt
  | S calls' =>
      let* (done, next, results) := linked_list_traverse key ptr limit in
      if done : bool then Ret results
      else rest <- read_pages key next limit calls' ;; Ret (results ++ rest)
  end.

Lemma read_pages_from w key l1 l2 (limit : u32) calls :
  is_list w key (l1 ++ l2) -> l2 <> [] -> 0 < limit -> (length l2 <= calls)%nat ->
  run (read_pages key (default #0 (head l2)) limit calls) w = (ROk l2, w).
Proof.
  intros D Hne Hlim. revert l1 l2 D Hne. induction calls as [|calls IH]; intros l1 l2 D Hne Hc;
    (destruct l2 as [|p l2]; [done|]); simpl in Hc; [lia|].
  cbn [read_pages head default]. rewrite run_bind.
  cbn [from_option id]. rewrite (run_traverse_from w key l1 p l2 limit D). unfold page.
  set (k := Z.to_nat limit). set (tl := drop k (p :: l2)).
  assert (Hk : (0 < k)%nat) by (unfold k; lia).
  pose proof (take_drop k (p :: l2)) as Hsplit. fold tl in Hsplit.
  assert (Htl : (length tl < length (p :: l2))%nat)
    by (unfold tl; rewrite length_drop; simpl; lia).
  destruct tl as [|q tl'] eqn:Etl; cbn [head default from_option id].
  - rewrite weqb_refl, run_ret. by rewrite app_nil_r in Hsplit; rewrite Hsplit.
  - destruct (weqb_spec q #0) as [->|Hq].
    + exfalso. destruct (dll_valid _ _ _ _ D #0); [|done].
      rewrite <- Hsplit, !elem_of_app. right. right. by left.
    + rewrite run_bind.
      change (read_pages key q) with (read_pages key (default #0 (head (q :: tl')))).
      rewrite (IH (l1 ++ take k (p :: l2)) (q :: tl')).
      * rewrite run_ret. by rewrite Hsplit.
      * by rewrite <- app_assoc, Hsplit.
      * done.
      * simpl in *. lia.
Qed.
End pages.

(** ** Theorems *)
Section theorems.
Context {Key : Type} {n : N} `{LinkedListTrait Key n}.
Implicit Types (key : Key) (p : uword n) (w : World) (l : list (uword n)).

(** Inserting into a list.  If the storage holds the list [l] for [key],
    inserting a valid pointer succeeds; the storage then holds [l] with the
    pointer in front (or [l] itself if it was there), and the lists of all
    other keys are untouched. *)
Theorem insert_correct w key l p :
  is_list w key l -> p <> #0 -> p <> ll_sentinel ->
  exists w', run (linked_list_insert key p) w = (ROk tt, w') /\
    is_list w' key (if decide (p ∈ l) then l else p :: l) /\
    forall key' l', key' <> key -> is_list w key' l' -> is_list w' key' l'.
Proof.
  intros D H0 Hs. pose proof (is_dll_member _ _ _ _ p D ll_sentinel_nonzero Hs) as Hm.
  case_decide as Hin.
  - exists w. split; [|done]. by apply run_insert_present; [..|apply Hm].
  - exists (insert_world w key p). split_and!.
    + apply run_insert_new; try done. by apply (dll_absent _ _ _ _ D).
    + by apply insert_world_is_list.
    + intros key' l' Hk. apply is_dll_ext; intros q; unfold nxt, prv;
        by rewrite insert_world_other.
Qed.

(** C10: removing from a list.  Removing a valid pointer succeeds; the storage then
    holds the list of the key without it, and every other list is untouched: the
    lists of the other keys, and all the lists of the other kind, whose links are in
    the same nodes. *)
Theorem remove_correct `{HK : !LinkedListTrait Key' n'} `{!SharesNodes Key n Key' n', !EqDecision Key'} w key l p :
  is_list w key l -> p <> #0 -> p <> ll_sentinel ->
  exists w', run (linked_list_remove key p) w = (ROk tt, w') /\
    is_list w' key (filter (fun q => q <> p) l) /\
    (forall key' l', key' <> key -> is_list w key' l' -> is_list w' key' l') /\
    (forall (key' : Key') (l' : list (uword n')), is_list w key' l' -> is_list w' key' l').
Proof.
  intros D H0 Hs. pose proof (is_dll_member _ _ _ _ p D ll_sentinel_nonzero Hs) as Hm.
  destruct (decide (p ∈ l)) as [Hin|Hin].
  - exists (remove_world w key p). split_and!.
    + by apply run_remove_member; [..|apply Hm].
    + apply list_elem_of_split in Hin as (l1 & l2 & ->).
      pose proof (dll_nodup _ _ _ _ D) as ND. apply NoDup_app in ND as (_ & Hd & [Hp _]%NoDup_cons).
      rewrite filter_app, filter_cons_False by (by intros []).
      rewrite !filter_ne_notin.
      * by apply remove_world_is_list.
      * done.
      * intros Hq. apply (Hd p Hq). by left.
    + intros key' l' Hk. apply is_dll_ext; intros q; unfold nxt, prv;
        by rewrite remove_world_other.
    + intros key' l'. apply is_list_links, remove_links_kept.
  - exists w. split_and!; [|by rewrite filter_ne_notin|done..].
    apply run_remove_absent; try done. by apply (dll_absent _ _ _ _ D).
Qed.

(** C12: pagination is complete.  Following the pages of [linked_list_traverse]
    from the empty pointer, with any positive page size, returns exactly the
    list, in order, in at most as many calls as it has elements (one if it is
    empty), and changes nothing. *)
Theorem pages_complete w key l (limit : u32) calls :
  is_list w key l -> 0 < limit -> (0 < calls)%nat -> (length l <= calls)%nat ->
  run (read_pages key #0 limit calls) w = (ROk l, w).
Proof.
  intros D Hlim Hc0 Hc. destruct calls as [|calls]; [lia|].
  destruct l as [|p l].
  - cbn [read_pages]. rewrite run_bind, (run_traverse_start w key [] limit D). by rewrite run_ret.
  - pose proof (read_pages_from w key [] (p :: l) limit (S calls) D ltac:(done) Hlim Hc) as Hr.
    cbn [read_pages] in *. rewrite run_bind in *. cbn [head default from_option id] in Hr.
    rewrite (run_traverse_from w key [] p l limit D) in Hr.
    by rewrite (run_traverse_start w key (p :: l) limit D).
Qed.
End theorems.

(** ** Witnesses: the two lists of a concrete world *)
Module lists_demo.
Definition owner : address := #0xa11ce.
Definition blank : World := mk_world ∅ ∅ [] [].
Definition linked : World := insert_world (insert_world blank owner (#3 : u64)) owner (#7 : u64).

Lemma blank_list : is_list blank owner ([] : list u64).
Proof. split; [constructor|set_solver|reflexivity|intros p _ _; reflexivity]. Qed.

Lemma linked_list : is_list linked owner ([ #7; #3] : list u64).
Proof.
  refine (insert_world_is_list _ _ _ _ (insert_world_is_list _ _ _ _ blank_list _ _ _) _ _ _);
    rewrite ?list_elem_of_singleton; solve [intros E; inversion E | set_solver].
Qed.
End lists_demo.
Import lists_demo.

Lemma insert_correct_witness : exists w',
  run (linked_list_insert owner (#9 : u64)) linked = (ROk tt, w') /\
  is_list w' owner ([ #9; #7; #3] : list u64).
Proof.
  destruct (insert_correct linked owner [ #7; #3] #9 linked_list) as (w' & Hr & Hl & _);
    [intros E; inversion E..|].
  exists w'. split; [exact Hr|exact Hl].
Defined.

Lemma remove_correct_witness : exists w',
  run (linked_list_remove owner (#7 : u64)) linked = (ROk tt, w') /\
  is_list w' owner ([ #3] : list u64) /\
  forall (id : u64) (l : list address), is_list linked id l -> is_list w' id l.
Proof.
  destruct (remove_correct (Key' := u64) (n' := 160) linked owner [ #7; #3] #7 linked_list) as (w' & Hr & Hl & _ & Ho);
    [intros E; inversion E..|].
  exists w'. exact (conj Hr (conj Hl Ho)).
Defined.

Lemma pages_complete_witness :
  run (read_pages owner (#0 : u64) #1 2) linked = (ROk [ #7; #3], linked).
Proof. apply (pages_complete linked owner [ #7; #3] #1 2 linked_list); [done|lia|simpl; lia]. Defined.
