(* ===== verification/StakingContract.v ===== *)
(** * Staking contract: precompiles

    Models the rest of src/category/execution/monad/staking/staking_contract.cpp:
    the selectors and gas costs, [precompile_dispatch] and every [precompile_*]
    method (the system calls are in StakingSyscalls.v), with the key wrappers of
    util/secp256k1.{hpp,cpp} and util/bls.{hpp,cpp}.  The cryptographic
    libraries (libsecp256k1, blst, blake3, keccak) are not part of this
    repository; they are the operations of the class [Crypto]. *)
From S2P Require Import Prelude Prog Storage UInt256 Abi StakingVars StakingHelpers StakingList.

(** ** External cryptography *)
Class Crypto := {
  secp256k1_pubkey : Type;
  secp256k1_signature : Type;
  (** [secp256k1_ec_pubkey_parse], [None] for a result other than 1. *)
  secp256k1_ec_pubkey_parse : uword 264 -> option secp256k1_pubkey;
  (** [secp256k1_ec_pubkey_serialize] with [SECP256K1_EC_UNCOMPRESSED]. *)
  secp256k1_ec_pubkey_serialize : secp256k1_pubkey -> byte_string;
  secp256k1_ecdsa_signature_parse_compact : byte_string -> option secp256k1_signature;
  secp256k1_ecdsa_verify : secp256k1_signature -> bytes32 -> secp256k1_pubkey -> bool;
  blst_p1_affine : Type;
  blst_p2_affine : Type;
  blst_p1_uncompress : uword 384 -> option blst_p1_affine;
  blst_p1_affine_in_g1 : blst_p1_affine -> bool;
  blst_p1_affine_is_inf : blst_p1_affine -> bool;
  blst_p1_affine_serialize : blst_p1_affine -> byte_string;
  blst_p2_uncompress : byte_string -> option blst_p2_affine;
  blst_p2_affine_in_g2 : blst_p2_affine -> bool;
  blst_p2_affine_is_inf : blst_p2_affine -> bool;
  blst_core_verify_pk_in_g1 : blst_p1_affine -> blst_p2_affine -> byte_string -> bool;
  blake3 : byte_string -> bytes32;
  keccak256 : byte_string -> bytes32;
}.

(** ** Selectors *)
Module PrecompileSelector.
Definition ADD_VALIDATOR : u32 := #0xf145204c.
Definition DELEGATE : u32 := #0x84994fec.
Definition UNDELEGATE : u32 := #0x5cf41514.
Definition COMPOUND : u32 := #0xb34fea67.
Definition WITHDRAW : u32 := #0xaed2ee73.
Definition CLAIM_REWARDS : u32 := #0xa76e2ca5.
Definition CHANGE_COMMISSION : u32 := #0x9bdcc3c8.
Definition EXTERNAL_REWARD : u32 := #0xe4b3303b.
Definition GET_EPOCH : u32 := #0x757991a8.
Definition GET_PROPOSER_VAL_ID : u32 := #0xfbacb0be.
Definition GET_VALIDATOR : u32 := #0x2b6d639a.
Definition GET_DELEGATOR : u32 := #0x573c1ce0.
Definition GET_WITHDRAWAL_REQUEST : u32 := #0x56fa2045.
Definition GET_CONSENSUS_VALIDATOR_SET : u32 := #0xfb29b729.
Definition GET_SNAPSHOT_VALIDATOR_SET : u32 := #0xde66a368.
Definition GET_EXECUTION_VALIDATOR_SET : u32 := #0x7cb074df.
Definition GET_DELEGATIONS : u32 := #0x4fd66050.
Definition GET_DELEGATORS : u32 := #0xa0843a26.
End PrecompileSelector.

(** ** Gas costs *)
Definition WARM_SLOAD : Z := 100.
Definition COLD_SLOAD : Z := 8100.
Definition WARM_SSTORE : Z := 2900.
Definition WARM_SSTORE_NONZERO : Z := 2900.
Definition COLD_SSTORE : Z := 2900 + 8000.
Definition EVENT_COSTS : Z := 4275.
Definition TRANSFER_COSTS : Z := 11800.
Definition EC_RECOVER_COST : Z := 3000.
Definition BLS_VERIFY_COST : Z := 150000.
Definition MEMORY_EXPANSION_COST : Z := 4000.

Record OpCount := mk_ops {
  warm_sloads : Z; cold_sloads : Z; warm_sstores : Z; warm_sstore_nonzero : Z;
  cold_sstores : Z; events : Z; transfers : Z }.

Definition compute_costs (ops : OpCount) : u64 :=
  #(WARM_SLOAD * warm_sloads ops + COLD_SLOAD * cold_sloads ops +
    WARM_SSTORE * warm_sstores ops + WARM_SSTORE_NONZERO * warm_sstore_nonzero ops +
    COLD_SSTORE * cold_sstores ops + EVENT_COSTS * events ops + TRANSFER_COSTS * transfers ops).

Definition ADD_VALIDATOR_OP_COST : u64 :=
  #(compute_costs (mk_ops 21 22 6 15 9 3 0) + EC_RECOVER_COST + BLS_VERIFY_COST).
Definition DELEGATE_OP_COST : u64 := compute_costs (mk_ops 21 17 6 14 5 2 0).
Definition UNDELEGATE_OP_COST : u64 := compute_costs (mk_ops 15 11 8 5 1 2 0).
Definition WITHDRAW_OP_COST : u64 := compute_costs (mk_ops 11 6 1 0 0 1 1).
Definition COMPOUND_OP_COST : u64 := compute_costs (mk_ops 46 17 6 29 3 3 0).
Definition CLAIM_REWARDS_OP_COST : u64 := compute_costs (mk_ops 16 11 2 11 1 1 1).
Definition CHANGE_COMMISSION_OP_COST : u64 := compute_costs (mk_ops 0 3 0 0 1 1 0).
Definition EXTERNAL_REWARDS_OP_COST : u64 := compute_costs (mk_ops 0 5 0 0 2 1 0).
Definition GET_PROPOSER_VAL_ID_OP_COST : u64 := compute_costs (mk_ops 1 0 0 0 0 0 0).
Definition GET_EPOCH_OP_COST : u64 := compute_costs (mk_ops 2 0 0 0 0 0 0).
Definition GET_VALIDATOR_OP_COST : u64 := compute_costs (mk_ops 0 12 0 0 0 0 0).
Definition GET_DELEGATOR_OP_COST : u64 := compute_costs (mk_ops 15 17 1 11 1 0 0).
Definition GET_WITHDRAWAL_REQUEST_OP_COST : u64 := compute_costs (mk_ops 0 3 0 0 0 0 0).
Definition GET_VALIDATOR_SET_OP_COST : u64 :=
  #(compute_costs (mk_ops 0 100 0 0 0 0 0) + MEMORY_EXPANSION_COST).
Definition LINKED_LIST_GETTER_OP_COST : u64 :=
  #(compute_costs (mk_ops 0 100 0 0 0 0 0) + MEMORY_EXPANSION_COST).

(** ** Dispatch *)
Inductive PrecompileFunc :=
| precompile_fallback_ | precompile_add_validator_ | precompile_delegate_
| precompile_undelegate_ | precompile_compound_ | precompile_withdraw_
| precompile_claim_rewards_ | precompile_change_commission_ | precompile_external_reward_
| precompile_get_epoch_ | precompile_get_proposer_val_id_ | precompile_get_validator_
| precompile_get_delegator_ | precompile_get_withdrawal_request_
| precompile_get_consensus_valset_ | precompile_get_snapshot_valset_
| precompile_get_execution_valset_ | precompile_get_delegations_ | precompile_get_delegators_.

(** The method, its cost, and the input without the selector. *)
Definition precompile_dispatch (rev : monad_revision) (input : byte_string)
    : PrecompileFunc * u64 * byte_string :=
  if (length input <? 4)%nat then (precompile_fallback_, #40000, input)
  else
    let signature := load_be32 input in
    let input := drop 4 input in
    let ret f cost := (f, cost, input) in
    if signature =w? PrecompileSelector.ADD_VALIDATOR then
      ret precompile_add_validator_ ADD_VALIDATOR_OP_COST
    else if signature =w? PrecompileSelector.DELEGATE then
      ret precompile_delegate_ DELEGATE_OP_COST
    else if signature =w? PrecompileSelector.UNDELEGATE then
      ret precompile_undelegate_ UNDELEGATE_OP_COST
    else if signature =w? PrecompileSelector.COMPOUND then
      ret precompile_compound_ COMPOUND_OP_COST
    else if signature =w? PrecompileSelector.WITHDRAW then
      ret precompile_withdraw_ WITHDRAW_OP_COST
    else if signature =w? PrecompileSelector.CLAIM_REWARDS then
      ret precompile_claim_rewards_ CLAIM_REWARDS_OP_COST
    else if signature =w? PrecompileSelector.CHANGE_COMMISSION then
      ret precompile_change_commission_ CHANGE_COMMISSION_OP_COST
    else if signature =w? PrecompileSelector.EXTERNAL_REWARD then
      ret precompile_external_reward_ EXTERNAL_REWARDS_OP_COST
    else if signature =w? PrecompileSelector.GET_EPOCH then
      ret precompile_get_epoch_ GET_EPOCH_OP_COST
    else if signature =w? PrecompileSelector.GET_PROPOSER_VAL_ID then
      if rev_ge rev MONAD_FIVE then
        ret precompile_get_proposer_val_id_ GET_PROPOSER_VAL_ID_OP_COST
      else ret precompile_fallback_ #40000
    else if signature =w? PrecompileSelector.GET_VALIDATOR then
      ret precompile_get_validator_ GET_VALIDATOR_OP_COST
    else if signature =w? PrecompileSelector.GET_DELEGATOR then
      ret precompile_get_delegator_ GET_DELEGATOR_OP_COST
    else if signature =w? PrecompileSelector.GET_WITHDRAWAL_REQUEST then
      ret precompile_get_withdrawal_request_ GET_WITHDRAWAL_REQUEST_OP_COST
    else if signature =w? PrecompileSelector.GET_CONSENSUS_VALIDATOR_SET then
      ret precompile_get_consensus_valset_ GET_VALIDATOR_SET_OP_COST
    else if signature =w? PrecompileSelector.GET_SNAPSHOT_VALIDATOR_SET then
      ret precompile_get_snapshot_valset_ GET_VALIDATOR_SET_OP_COST
    else if signature =w? PrecompileSelector.GET_EXECUTION_VALIDATOR_SET then
      ret precompile_get_execution_valset_ GET_VALIDATOR_SET_OP_COST
    else if signature =w? PrecompileSelector.GET_DELEGATIONS then
      ret precompile_get_delegations_ LINKED_LIST_GETTER_OP_COST
    else if signature =w? PrecompileSelector.GET_DELEGATORS then
      ret precompile_get_delegators_ LINKED_LIST_GETTER_OP_COST
    else ret precompile_fallback_ #40000.

(** ** Getters *)
Definition require_empty (input : byte_string) : P unit :=
  require_not (negb (length input =? 0)%nat) InvalidInput.

(** The loop of [get_valset]: [fuel] elements from index [i] on. *)
Fixpoint get_valset_loop (valset : StorageArray u64) (i : u64) (fuel : nat)
    (valids : list u64) : P (u64 * list u64) :=
  match fuel with
  | O => Ret (i, valids)
  | S fuel' =>
      v <- load (sa_get valset i) ;;
      get_valset_loop valset #(i + 1) fuel' (valids ++ [v])
  end.

Definition get_valset_page (valset : StorageArray u64) (start_index limit : u32)
    : P (bool * u32 * list u64) :=
  len <- sa_length valset ;;
  let end_ := Z.min len (wrap 64 (start_index + limit)) in
  let* (i, valids) :=
    get_valset_loop valset #start_index (Z.to_nat (end_ - start_index)) [] in
  Ret (end_ =? len, #i, valids).

Definition get_delegators_for_validator (val_id : u64) (start_delegator : address) (limit : u32)
    : P (bool * address * list address) :=
  linked_list_traverse val_id start_delegator limit.

Definition get_validators_for_delegator (delegator : address) (start_val_id : u64) (limit : u32)
    : P (bool * u64 * list u64) :=
  linked_list_traverse delegator start_val_id limit.

Definition precompile_get_validator (input : byte_string) (_ : address) (msg_value : u256)
    : P byte_string :=
  function_not_payable msg_value ;;
  let* (val_id, input) := abi (abi_decode_fixed 64 input) in
  require_empty input ;;
  let val := vars.val_execution val_id in
  let consensus_view := vars.consensus_view val_id in
  let snapshot_view := vars.snapshot_view val_id in
  af <- load (ValExecution.address_flags val) ;;
  stake <- load (ValExecution.stake val) ;;
  acc <- load (ValExecution.accumulated_reward_per_token val) ;;
  commission <- load (ValExecution.commission val) ;;
  unclaimed <- load (ValExecution.unclaimed_rewards val) ;;
  cstake <- load (ConsensusView.stake consensus_view) ;;
  ccomm <- load (ConsensusView.commission consensus_view) ;;
  sstake <- load (ConsensusView.stake snapshot_view) ;;
  scomm <- load (ConsensusView.commission snapshot_view) ;;
  k <- load (ValExecution.keys val) ;;
  Ret (encode_all [
    add_address (auth_address af); add_uint (flags af); add_uint stake; add_uint acc;
    add_uint commission; add_uint unclaimed; add_uint cstake; add_uint ccomm;
    add_uint sstake; add_uint scomm;
    add_bytes (to_bytes 33 (secp_pubkey k)); add_bytes (to_bytes 48 (bls_pubkey k))]).

Definition precompile_get_delegator (input : byte_string) (_ : address) (msg_value : u256)
    : P byte_string :=
  function_not_payable msg_value ;;
  let* (val_id, input) := abi (abi_decode_fixed 64 input) in
  let* (a, input) := abi (abi_decode_fixed 160 input) in
  require_empty input ;;
  let del := vars.delegator val_id a in
  pull_delegator_up_to_date val_id del ;;
  stake <- load (Delegator.stake del) ;;
  acc <- load (Delegator.accumulated_reward_per_token del) ;;
  rewards <- load (Delegator.rewards del) ;;
  delta_stake <- load (Delegator.delta_stake del) ;;
  next_delta_stake <- load (Delegator.next_delta_stake del) ;;
  e <- load (Delegator.epochs del) ;;
  Ret (encode_all [
    add_uint stake; add_uint acc; add_uint rewards; add_uint delta_stake;
    add_uint next_delta_stake; add_uint (delta_epoch e); add_uint (next_delta_epoch e)]).

Definition get_valset (input : byte_string) (valset : StorageArray u64) : P byte_string :=
  let* (start_index, input) := abi (abi_decode_fixed 32 input) in
  require_empty input ;;
  len <- sa_length valset ;;
  require_not (2 ^ 32 - 1 <? len) InternalError ;;
  let* (done, next_index, valids) :=
    get_valset_page valset start_index limits.array_pagination in
  Ret (encode_all [add_bool done; add_uint next_index; add_uint_array valids]).

Definition precompile_get_consensus_valset (input : byte_string) (_ : address) (msg_value : u256)
    : P byte_string :=
  function_not_payable msg_value ;; get_valset input vars.valset_consensus.

Definition precompile_get_snapshot_valset (input : byte_string) (_ : address) (msg_value : u256)
    : P byte_string :=
  function_not_payable msg_value ;; get_valset input vars.valset_snapshot.

Definition precompile_get_execution_valset (input : byte_string) (_ : address) (msg_value : u256)
    : P byte_string :=
  function_not_payable msg_value ;; get_valset input vars.valset_execution.

Definition precompile_get_delegations (rev : monad_revision) (input : byte_string) (_ : address)
    (msg_value : u256) : P byte_string :=
  function_not_payable msg_value ;;
  let* (delegator, input) := abi (abi_decode_fixed 160 input) in
  let* (start_val_id, input) := abi (abi_decode_fixed 64 input) in
  require_empty input ;;
  let* (done, next_val_id, vals_page) :=
    get_validators_for_delegator delegator start_val_id (limits.linked_list_pagination rev) in
  Ret (encode_all [add_bool done; add_uint next_val_id; add_uint_array vals_page]).

Definition precompile_get_delegators (rev : monad_revision) (input : byte_string) (_ : address)
    (msg_value : u256) : P byte_string :=
  function_not_payable msg_value ;;
  let* (val_id, input) := abi (abi_decode_fixed 64 input) in
  let* (start_delegator_address, input) := abi (abi_decode_fixed 160 input) in
  require_empty input ;;
  let* (done, next_del_addr, dels_page) :=
    get_delegators_for_validator val_id start_delegator_address
      (limits.linked_list_pagination rev) in
  Ret (encode_all [add_bool done; add_address next_del_addr; add_address_array dels_page]).

Definition precompile_get_epoch (_ : byte_string) (_ : address) (msg_value : u256)
    : P byte_string :=
  function_not_payable msg_value ;;
  epoch <- load vars.epoch ;;
  b <- load vars.in_epoch_delay_period ;;
  Ret (encode_all [add_uint epoch; add_bool b]).

Definition precompile_get_proposer_val_id (_ : byte_string) (_ : address) (msg_value : u256)
    : P byte_string :=
  function_not_payable msg_value ;;
  id <- load vars.proposer_val_id ;;
  Ret (encode_all [add_uint id]).

Definition precompile_get_withdrawal_request (input : byte_string) (_ : address)
    (msg_value : u256) : P byte_string :=
  function_not_payable msg_value ;;
  let* (val_id, input) := abi (abi_decode_fixed 64 input) in
  let* (delegator, input) := abi (abi_decode_fixed 160 input) in
  let* (withdrawal_id, input) := abi (abi_decode_fixed 8 input) in
  require_empty input ;;
  request <- load (vars.withdrawal_request val_id delegator withdrawal_id) ;;
  Ret (encode_all [add_uint (wr_amount request); add_uint (wr_acc request);
    add_uint (wr_epoch request)]).

Definition precompile_fallback (_ : byte_string) (_ : address) (_ : u256) : P byte_string :=
  staking_fail MethodNotSupported.

Definition abi_true : byte_string := word_bytes (abi_encode_bool true).

(** ** Delegation *)
(** The code that adds to the pending stake, on either side of the boundary. *)
Definition add_pending (in_delay : bool) (del : object) (stake : u256) (active_epoch : u64)
    : P bool :=
  if in_delay then
    n <- Delegator.get_next_delta_epoch del ;;
    old <- load (Delegator.next_delta_stake del) ;;
    delta <- math (checked_add old stake) ;;
    store (Delegator.next_delta_stake del) delta ;;
    Delegator.set_next_delta_epoch del active_epoch ;;
    Ret (n =? 0)
  else
    d <- Delegator.get_delta_epoch del ;;
    old <- load (Delegator.delta_stake del) ;;
    delta <- math (checked_add old stake) ;;
    store (Delegator.delta_stake del) delta ;;
    Delegator.set_delta_epoch del active_epoch ;;
    Ret (d =? 0).

Definition delegate (rev : monad_revision) (val_id : u64) (stake : u256) (a : address) : P unit :=
  let val := vars.val_execution val_id in
  ex <- ValExecution.exists_ val ;;
  require_not (negb ex) UnknownValidator ;;
  require_not (stake <? limits.dust_threshold) DelegationTooSmall ;;
  let del := vars.delegator val_id a in
  pull_delegator_up_to_date val_id del ;;
  active_epoch <- get_activation_epoch ;;
  in_delay <- load vars.in_epoch_delay_period ;;
  need_future_accumulator <- add_pending in_delay del stake active_epoch ;;
  (if need_future_accumulator : bool then increment_accumulator_refcount val_id else Ret tt) ;;
  emit_delegation_event val_id a stake active_epoch ;;
  val_stake <- load (ValExecution.stake val) ;;
  new_val_stake <- math (checked_add val_stake stake) ;;
  store (ValExecution.stake val) new_val_stake ;;
  oldflags <- ValExecution.get_flags val ;;
  (if limits.active_validator_stake rev <=? new_val_stake
   then ValExecution.clear_flag val ValidatorFlagsStakeTooLow else Ret tt) ;;
  auth <- ValExecution.get_auth_address val ;;
  (if auth =w? a then
     next_stake <- Delegator.get_next_epoch_stake del ;;
     if limits.min_auth_address_stake <=? next_stake
     then ValExecution.clear_flag val ValidatorFlagWithdrawn else Ret tt
   else Ret tt) ;;
  newflags <- ValExecution.get_flags val ;;
  (if negb (newflags =w? oldflags)
   then emit_validator_status_changed_event val_id newflags else Ret tt) ;;
  (if newflags =? ValidatorFlagsOk then
     inserted <- add_to_valset val_id ;;
     if inserted : bool then sa_push vars.valset_execution val_id else Ret tt
   else Ret tt) ;;
  linked_list_insert val_id a ;;
  linked_list_insert a val_id.

Definition precompile_delegate (rev : monad_revision) (input : byte_string)
    (msg_sender : address) (msg_value : u256) : P byte_string :=
  let* (val_id, input) := abi (abi_decode_fixed 64 input) in
  require_empty input ;;
  let stake := msg_value in
  (if negb (stake =? 0) then delegate rev val_id stake msg_sender else Ret tt) ;;
  Ret abi_true.

Definition precompile_undelegate (rev : monad_revision) (input : byte_string)
    (msg_sender : address) (msg_value : u256) : P byte_string :=
  function_not_payable msg_value ;;
  let* (val_id, input) := abi (abi_decode_fixed 64 input) in
  let* (stake, input) := abi (abi_decode_fixed 256 input) in
  let* (withdrawal_id, input) := abi (abi_decode_fixed 8 input) in
  require_empty input ;;
  let amount := stake in
  if amount =? 0 then Ret abi_true
  else
  let val := vars.val_execution val_id in
  ex <- ValExecution.exists_ val ;;
  require_not (negb ex) UnknownValidator ;;
  withdrawal_request <- load_checked (vars.withdrawal_request val_id msg_sender withdrawal_id) ;;
  require_not (has_value withdrawal_request) WithdrawalIdExists ;;
  let del := vars.delegator val_id msg_sender in
  pull_delegator_up_to_date val_id del ;;
  val_stake <- load (ValExecution.stake val) ;;
  del_stake <- load (Delegator.stake del) ;;
  require_not (del_stake <? amount) InsufficientStake ;;
  val_stake <- math (checked_sub val_stake amount) ;;
  del_stake <- math (checked_sub del_stake amount) ;;
  let* (amount, val_stake, del_stake) :=
    (if del_stake <? limits.dust_threshold then
       amount <- math (checked_add amount del_stake) ;;
       val_stake <- math (checked_sub val_stake del_stake) ;;
       Ret (amount, val_stake, #0)
     else Ret (amount, val_stake, del_stake)) in
  store (ValExecution.stake val) val_stake ;;
  store (Delegator.stake del) del_stake ;;
  withdrawal_epoch <- get_activation_epoch ;;
  oldflags <- ValExecution.get_flags val ;;
  auth <- ValExecution.get_auth_address val ;;
  (if msg_sender =w? auth then
     next_stake <- Delegator.get_next_epoch_stake del ;;
     if next_stake <? limits.min_auth_address_stake
     then ValExecution.set_flag val ValidatorFlagWithdrawn else Ret tt
   else Ret tt) ;;
  (if val_stake <? limits.active_validator_stake rev
   then ValExecution.set_flag val ValidatorFlagsStakeTooLow else Ret tt) ;;
  newflags <- ValExecution.get_flags val ;;
  (if negb (newflags =w? oldflags)
   then emit_validator_status_changed_event val_id newflags else Ret tt) ;;
  emit_undelegate_event val_id msg_sender withdrawal_id amount withdrawal_epoch ;;
  acc <- load (Delegator.accumulated_reward_per_token del) ;;
  store (vars.withdrawal_request val_id msg_sender withdrawal_id)
    (mk_withdrawal amount acc withdrawal_epoch) ;;
  increment_accumulator_refcount val_id ;;
  stake_left <- load (Delegator.stake del) ;;
  (if stake_left =? 0 then clear (Delegator.accumulated_reward_per_token del) else Ret tt) ;;
  next_stake <- Delegator.get_next_epoch_stake del ;;
  (if next_stake =? 0 then
     linked_list_remove val_id msg_sender ;;
     linked_list_remove msg_sender val_id
   else Ret tt) ;;
  Ret abi_true.

Definition precompile_compound (rev : monad_revision) (input : byte_string)
    (msg_sender : address) (msg_value : u256) : P byte_string :=
  function_not_payable msg_value ;;
  let* (val_id, input) := abi (abi_decode_fixed 64 input) in
  require_empty input ;;
  let del := vars.delegator val_id msg_sender in
  pull_delegator_up_to_date val_id del ;;
  let rewards_slot := Delegator.rewards del in
  rewards <- load rewards_slot ;;
  clear rewards_slot ;;
  (if negb (rewards =? 0) then
     emit_claim_rewards_event val_id msg_sender rewards ;;
     delegate rev val_id rewards msg_sender
   else Ret tt) ;;
  Ret abi_true.

Definition precompile_withdraw (input : byte_string) (msg_sender : address) (msg_value : u256)
    : P byte_string :=
  function_not_payable msg_value ;;
  let* (val_id, input) := abi (abi_decode_fixed 64 input) in
  let* (withdrawal_id, input) := abi (abi_decode_fixed 8 input) in
  require_empty input ;;
  let withdrawal_request_storage := vars.withdrawal_request val_id msg_sender withdrawal_id in
  withdrawal_request <- load_checked withdrawal_request_storage ;;
  match withdrawal_request with
  | None => staking_fail UnknownWithdrawalId
  | Some request =>
      clear withdrawal_request_storage ;;
      ready <- is_epoch_active #(wr_epoch request + limits.withdrawal_delay) ;;
      require_not (negb ready) WithdrawalNotReady ;;
      withdraw_acc <- decrement_accumulator_refcount (wr_epoch request) val_id ;;
      let withdrawal_amount := wr_amount request in
      rewards <- math (calculate_rewards withdrawal_amount withdraw_acc (wr_acc request)) ;;
      let val := vars.val_execution val_id in
      reward_invariant val rewards ;;
      withdrawal_amount <- math (checked_add withdrawal_amount rewards) ;;
      contract_balance <- trigger (GetBalance STAKING_CA) ;;
      monad_assert_throw (withdrawal_amount <=? contract_balance) "withdrawal insolvent" ;;
      send_tokens msg_sender withdrawal_amount ;;
      emit_withdraw_event val_id msg_sender withdrawal_id withdrawal_amount ;;
      Ret abi_true
  end.

Definition precompile_claim_rewards (input : byte_string) (msg_sender : address)
    (msg_value : u256) : P byte_string :=
  function_not_payable msg_value ;;
  let* (val_id, input) := abi (abi_decode_fixed 64 input) in
  require_empty input ;;
  let del := vars.delegator val_id msg_sender in
  pull_delegator_up_to_date val_id del ;;
  rewards <- load (Delegator.rewards del) ;;
  (if negb (rewards =? 0) then
     send_tokens msg_sender rewards ;;
     clear (Delegator.rewards del) ;;
     emit_claim_rewards_event val_id msg_sender rewards
   else Ret tt) ;;
  Ret abi_true.

Definition precompile_change_commission (input : byte_string) (msg_sender : address)
    (msg_value : u256) : P byte_string :=
  function_not_payable msg_value ;;
  let* (val_id, input) := abi (abi_decode_fixed 64 input) in
  let* (new_commission, input) := abi (abi_decode_fixed 256 input) in
  require_empty input ;;
  let validator := vars.val_execution val_id in
  ex <- ValExecution.exists_ validator ;;
  require_not (negb ex) UnknownValidator ;;
  auth <- ValExecution.get_auth_address validator ;;
  require_not (negb (msg_sender =w? auth)) RequiresAuthAddress ;;
  require_not (limits.max_commission <? new_commission) CommissionTooHigh ;;
  old_commission <- load (ValExecution.commission validator) ;;
  (if negb (old_commission =w? new_commission) then
     store (ValExecution.commission validator) new_commission ;;
     emit_commission_changed_event val_id old_commission new_commission
   else Ret tt) ;;
  Ret abi_true.

Definition precompile_external_reward (input : byte_string) (sender : address)
    (msg_value : u256) : P byte_string :=
  let external_reward := msg_value in
  let* (val_id, input) := abi (abi_decode_fixed 64 input) in
  require_empty input ;;
  let val_execution := vars.val_execution val_id in
  ex <- ValExecution.exists_ val_execution ;;
  require_not (negb ex) UnknownValidator ;;
  consensus_view <- vars.this_epoch_view val_id ;;
  active_stake <- load (ConsensusView.stake consensus_view) ;;
  require_not (active_stake =? 0) NotInValidatorSet ;;
  require_not (external_reward <? limits.min_external_reward) ExternalRewardTooSmall ;;
  require_not (limits.max_external_reward <? external_reward) ExternalRewardTooLarge ;;
  apply_reward val_id sender external_reward active_stake ;;
  Ret abi_true.

(** ** Registration *)
Section Registration.
Context `{Crypto}.

(** [address_from_secpkey] and [address_from_bls_key]: the last 20 bytes of
    the key's hash. *)
Definition address_from_secpkey (serialized_pubkey : byte_string) : P address :=
  monad_assert (nth 0 serialized_pubkey #0 =? 4) ;;
  Ret (#(keccak256 (take 64 (drop 1 serialized_pubkey)))).

Definition address_from_bls_key (serialized_pubkey : byte_string) : address :=
  #(keccak256 serialized_pubkey).

Definition secp_verify (sig : secp256k1_signature) (pubkey : secp256k1_pubkey)
    (message : byte_string) : bool :=
  secp256k1_ecdsa_verify sig (blake3 message) pubkey.

Definition bls_pubkey_valid (p : blst_p1_affine) : bool :=
  blst_p1_affine_in_g1 p && negb (blst_p1_affine_is_inf p).
Definition bls_sig_valid (s : blst_p2_affine) : bool :=
  blst_p2_affine_in_g2 s && negb (blst_p2_affine_is_inf s).

(** The signature checks of [precompile_add_validator], in its order. *)
Definition verify_keys (secp_pubkey_compressed : uword 264) (bls_pubkey_compressed : uword 384)
    (commission : u256) (message secp_sig bls_sig : byte_string)
    : P (secp256k1_pubkey * blst_p1_affine) :=
  match secp256k1_ec_pubkey_parse secp_pubkey_compressed with
  | None => staking_fail InvalidSecpPubkey
  | Some secp_pubkey =>
  match secp256k1_ecdsa_signature_parse_compact secp_sig with
  | None => staking_fail InvalidSecpSignature
  | Some sig =>
  require_not (negb (secp_verify sig secp_pubkey message)) SecpSignatureVerificationFailed ;;
  match blst_p1_uncompress bls_pubkey_compressed with
  | None => staking_fail InvalidBlsPubkey
  | Some bls_pubkey =>
  require_not (negb (bls_pubkey_valid bls_pubkey)) InvalidBlsPubkey ;;
  match blst_p2_uncompress bls_sig with
  | None => staking_fail InvalidBlsSignature
  | Some bsig =>
  require_not (negb (bls_sig_valid bsig)) InvalidBlsSignature ;;
  require_not (negb (blst_core_verify_pk_in_g1 bls_pubkey bsig message))
    BlsSignatureVerificationFailed ;;
  require_not (limits.max_commission <? commission) CommissionTooHigh ;;
  Ret (secp_pubkey, bls_pubkey)
  end end end end.

Definition MESSAGE_SIZE : nat := 33 + 48 + 20 + 32 + 32.

Definition precompile_add_validator (rev : monad_revision) (input : byte_string)
    (_ : address) (msg_value : u256) : P byte_string :=
  let* (_, input) := abi (abi_decode_fixed 256 input) in
  let* (_, input) := abi (abi_decode_fixed 256 input) in
  let* (_, input) := abi (abi_decode_fixed 256 input) in
  let* (message, input) := abi (abi_decode_bytes_tail MESSAGE_SIZE input) in
  let* (secp_signature_compressed, input) := abi (abi_decode_bytes_tail 64 input) in
  let* (bls_signature_compressed, input) := abi (abi_decode_bytes_tail 96 input) in
  require_empty input ;;
  let '(secp_bytes, reader) := consume_bytes message 33 in
  let '(bls_bytes, reader) := consume_bytes reader 48 in
  let '(auth_bytes, reader) := consume_bytes reader 20 in
  let '(stake_bytes, reader) := consume_bytes reader 32 in
  let '(commission_bytes, reader) := consume_bytes reader 32 in
  let secp_pubkey_compressed : uword 264 := #(bytes_val secp_bytes) in
  let bls_pubkey_compressed : uword 384 := #(bytes_val bls_bytes) in
  let auth_address : address := #(bytes_val auth_bytes) in
  let signed_stake : u256 := #(bytes_val stake_bytes) in
  let commission : u256 := #(bytes_val commission_bytes) in
  require_not (negb (signed_stake =w? msg_value)) InvalidInput ;;
  let stake := msg_value in
  require_not (stake <? limits.min_auth_address_stake) InsufficientStake ;;
  let* (secp_pubkey, bls_pubkey) :=
    verify_keys secp_pubkey_compressed bls_pubkey_compressed commission message
      secp_signature_compressed bls_signature_compressed in
  secp_eth_address <- address_from_secpkey (secp256k1_ec_pubkey_serialize secp_pubkey) ;;
  let bls_eth_address := address_from_bls_key (blst_p1_affine_serialize bls_pubkey) in
  let val_id_storage := vars.val_id secp_eth_address in
  let val_id_bls_storage := vars.val_id_bls bls_eth_address in
  id1 <- load_checked val_id_storage ;;
  id2 <- (if has_value id1 then Ret None else load_checked val_id_bls_storage) ;;
  require_not (has_value id1 || has_value id2) ValidatorExists ;;
  last_val_id <- load vars.last_val_id ;;
  let val_id : u64 := #(last_val_id + 1) in
  store val_id_storage val_id ;;
  store val_id_bls_storage val_id ;;
  store vars.last_val_id val_id ;;
  let val := vars.val_execution val_id in
  store (ValExecution.keys val) (mk_keys secp_pubkey_compressed bls_pubkey_compressed) ;;
  store (ValExecution.address_flags val) (mk_af auth_address #ValidatorFlagsStakeTooLow) ;;
  store (ValExecution.commission val) commission ;;
  emit_validator_created_event val_id auth_address commission ;;
  delegate rev val_id stake auth_address ;;
  Ret (word_bytes (abi_encode_uint val_id)).

(** Calling the method [precompile_dispatch] selected. *)
Definition call_method (rev : monad_revision) (f : PrecompileFunc)
    : byte_string -> address -> u256 -> P byte_string :=
  match f with
  | precompile_fallback_ => precompile_fallback
  | precompile_add_validator_ => precompile_add_validator rev
  | precompile_delegate_ => precompile_delegate rev
  | precompile_undelegate_ => precompile_undelegate rev
  | precompile_compound_ => precompile_compound rev
  | precompile_withdraw_ => precompile_withdraw
  | precompile_claim_rewards_ => precompile_claim_rewards
  | precompile_change_commission_ => precompile_change_commission
  | precompile_external_reward_ => precompile_external_reward
  | precompile_get_epoch_ => precompile_get_epoch
  | precompile_get_proposer_val_id_ => precompile_get_proposer_val_id
  | precompile_get_validator_ => precompile_get_validator
  | precompile_get_delegator_ => precompile_get_delegator
  | precompile_get_withdrawal_request_ => precompile_get_withdrawal_request
  | precompile_get_consensus_valset_ => precompile_get_consensus_valset
  | precompile_get_snapshot_valset_ => precompile_get_snapshot_valset
  | precompile_get_execution_valset_ => precompile_get_execution_valset
  | precompile_get_delegations_ => precompile_get_delegations rev
  | precompile_get_delegators_ => precompile_get_delegators rev
  end.
End Registration.
