(* ===== verification/StakingSyscalls.v ===== *)
(** * Staking contract: system calls and entry points

    Models [syscall_on_epoch_change], [syscall_reward] and [syscall_snapshot] of
    src/category/execution/monad/staking/staking_contract.cpp and the code that
    enters the contract: [execute_staking_syscall] of
    monad/execute_system_transaction.cpp, [check_call_monad_precompile] of
    monad/monad_precompiles.cpp with the error messages of
    util/staking_error.cpp, and [read_valset] of staking/read_valset.cpp. *)
From stdpp Require Import sorting.
From S2P Require Import Prelude Prog Storage UInt256 Abi StakingVars StakingHelpers StakingList StakingContract.

(** ** Loops *)

(** [for (uint64_t i = 0; i < n; ++i) body(i)], from index [i] on, with [n]
    iterations left. *)
Fixpoint for_range (i : Z) (n : nat) (body : u64 -> P unit) : P unit :=
  match n with
  | O => Ret tt
  | S n' => body #i ;; for_range (i + 1) n' body
  end.

(** [while (!a.empty()) body(a.pop())]; running out of [fuel] is an outcome of
    its own, and the array's length is enough fuel ([twp_drain] of StakingSnapshot.v). *)
Fixpoint drain (a : StorageArray u64) (body : u64 -> P unit) (fuel : nat) : P unit :=
  empty <- sa_empty a ;;
  if empty : bool then Ret tt
  else match fuel with
  | O => Halt
  | S fuel' => val_id <- sa_pop a ;; body val_id ;; drain a body fuel'
  end.

Definition drain_all (a : StorageArray u64) (body : u64 -> P unit) : P unit :=
  len <- sa_length a ;; drain a body (Z.to_nat len).

(** ** Epoch change *)

(** Refresh the accumulator of [epoch] if some delegation refers to it. *)
Definition refresh_accumulator (epoch val_id : u64) : P unit :=
  let acc_storage := vars.accumulated_reward_per_token epoch val_id in
  acc <- load_checked acc_storage ;;
  match acc with
  | None => Ret tt
  | Some acc =>
      value <- load (ValExecution.accumulated_reward_per_token (vars.val_execution val_id)) ;;
      store acc_storage (mk_acc value (acc_refcount acc))
  end.

Definition syscall_on_epoch_change (input : byte_string) (value : u256) : P unit :=
  require_not (negb (value =? 0)) ValueNonZero ;;
  let* (next_epoch, input) := abi (abi_decode_fixed 64 input) in
  require_empty input ;;
  let next_next_epoch : u64 := #(next_epoch + 1) in
  last_epoch <- load vars.epoch ;;
  require_not (next_epoch <=? last_epoch) InvalidEpochChange ;;
  emit_epoch_changed_event last_epoch next_epoch ;;
  num_active_vals <- sa_length vars.valset_snapshot ;;
  for_range 0 (Z.to_nat num_active_vals) (fun i =>
    val_id <- load (sa_get vars.valset_snapshot i) ;;
    refresh_accumulator next_epoch val_id ;;
    refresh_accumulator next_next_epoch val_id) ;;
  clear vars.in_epoch_delay_period ;;
  store vars.epoch next_epoch.

(** ** Block reward *)
Definition syscall_reward (rev : monad_revision) (input : byte_string) (raw_reward : u256)
    : P unit :=
  let* (block_author, input) := abi (abi_decode_fixed 160 input) in
  require_empty input ;;
  val_id <- load_checked (vars.val_id block_author) ;;
  match val_id with
  | None => staking_fail NotInValidatorSet
  | Some val_id =>
      consensus_view <- vars.this_epoch_view val_id ;;
      active_stake <- load (ConsensusView.stake consensus_view) ;;
      require_not (active_stake =? 0) NotInValidatorSet ;;
      mint_tokens raw_reward ;;
      commission_rate <- load (ConsensusView.commission consensus_view) ;;
      commission <- math (checked_mul_div raw_reward commission_rate MON) ;;
      auth_address <- ValExecution.get_auth_address (vars.val_execution val_id) ;;
      let auth := vars.delegator val_id auth_address in
      old <- load (Delegator.rewards auth) ;;
      auth_reward <- math (checked_add old commission) ;;
      store (Delegator.rewards auth) auth_reward ;;
      del_reward <- math (checked_sub raw_reward commission) ;;
      apply_reward val_id SYSTEM_SENDER del_reward active_stake ;;
      if rev_ge rev MONAD_FIVE then store vars.proposer_val_id val_id else Ret tt
  end.

(** ** Snapshot *)
Definition Candidate : Type := u64 * u256.

(** Stake descending, then id ascending. *)
Definition cmp (a b : Candidate) : bool :=
  if negb (a.2 =w? b.2) then b.2 <? a.2 else a.1 <? b.1.

(** Not ordered after: the preorder [cmp] sorts by. *)
Definition cand_le (a b : Candidate) : Prop := cmp b a = false.

#[export] Instance cand_le_dec : RelDecision cand_le.
Proof. intros a b. unfold cand_le. apply _. Defined.

(** The first [n] elements after [std::partial_sort]: those of the sorted
    sequence. *)
Definition partial_sort (n : nat) (candidates : list Candidate) : list Candidate :=
  take n (merge_sort cand_le candidates).

(** Throw out a view and its valset. *)
Definition throw_out_view (valset : StorageArray u64) (view : u64 -> object) : P unit :=
  drain_all valset (fun val_id =>
    clear (ConsensusView.stake (view val_id)) ;;
    clear (ConsensusView.commission (view val_id))).

(** Copy the consensus view to the snapshot view. *)
Definition copy_view (i : u64) : P unit :=
  val_id <- load (sa_get vars.valset_consensus i) ;;
  sa_push vars.valset_snapshot val_id ;;
  stake <- load (ConsensusView.stake (vars.consensus_view val_id)) ;;
  store (ConsensusView.stake (vars.snapshot_view val_id)) stake ;;
  commission <- load (ConsensusView.commission (vars.consensus_view val_id)) ;;
  store (ConsensusView.commission (vars.snapshot_view val_id)) commission.

(** The scan of the execution set: candidates and indices of removals. *)
Fixpoint scan_execution (i : Z) (n : nat) (candidates : list Candidate) (removals : list u64)
    : P (list Candidate * list u64) :=
  match n with
  | O => Ret (candidates, removals)
  | S n' =>
      val_id <- load (sa_get vars.valset_execution #i) ;;
      let val_execution := vars.val_execution val_id in
      flags <- ValExecution.get_flags val_execution ;;
      if flags =? ValidatorFlagsOk then
        stake <- load (ValExecution.stake val_execution) ;;
        scan_execution (i + 1) n' (candidates ++ [(val_id, stake)]) removals
      else scan_execution (i + 1) n' candidates (removals ++ [ #i ])
  end.

Fixpoint push_consensus (candidates : list Candidate) : P unit :=
  match candidates with
  | [] => Ret tt
  | (id, stake) :: rest =>
      sa_push vars.valset_consensus id ;;
      store (ConsensusView.stake (vars.consensus_view id)) stake ;;
      commission <- load (ValExecution.commission (vars.val_execution id)) ;;
      store (ConsensusView.commission (vars.consensus_view id)) commission ;;
      push_consensus rest
  end.

(** The removals, in the order they are processed. *)
Fixpoint process_removals (indices : list u64) : P unit :=
  match indices with
  | [] => Ret tt
  | i :: rest =>
      let slot_to_replace := sa_get vars.valset_execution i in
      id_to_remove <- load slot_to_replace ;;
      remove_from_valset id_to_remove ;;
      swapped_id <- sa_pop vars.valset_execution ;;
      store slot_to_replace swapped_id ;;
      process_removals rest
  end.

Definition syscall_snapshot (input : byte_string) (value : u256) : P unit :=
  require_not (negb (value =? 0)) ValueNonZero ;;
  require_empty input ;;
  in_delay <- load vars.in_epoch_delay_period ;;
  require_not in_delay SnapshotInBoundary ;;
  throw_out_view vars.valset_snapshot vars.snapshot_view ;;
  consensus_valset_length <- sa_length vars.valset_consensus ;;
  for_range 0 (Z.to_nat consensus_valset_length) copy_view ;;
  throw_out_view vars.valset_consensus vars.consensus_view ;;
  execution_valset_length <- sa_length vars.valset_execution ;;
  let* (candidates, removals) := scan_execution 0 (Z.to_nat execution_valset_length) [] [] in
  let n := Nat.min (length candidates) (Z.to_nat limits.active_valset_size) in
  push_consensus (partial_sort n candidates) ;;
  process_removals (reverse removals) ;;
  store vars.in_epoch_delay_period true.

(** ** System transactions *)
Module selector.
Definition REWARD : u32 := #0x791bdcf3.
Definition SNAPSHOT : u32 := #0x157eeb21.
Definition ON_EPOCH_CHANGE : u32 := #0x1d4e9f02.
End selector.

Definition execute_staking_syscall (rev : monad_revision) (calldata : byte_string) (value : u256)
    : P unit :=
  trigger (AddToBalance STAKING_CA #0) ;;
  require_not (length calldata <? 4)%nat InvalidInput ;;
  let signature := load_be32 calldata in
  let calldata := drop 4 calldata in
  if signature =w? selector.REWARD then syscall_reward rev calldata value
  else if signature =w? selector.SNAPSHOT then syscall_snapshot calldata value
  else if signature =w? selector.ON_EPOCH_CHANGE then syscall_on_epoch_change calldata value
  else staking_fail MethodNotSupported.

(** ** Precompile calls *)
Definition error_message (e : error) : string :=
  match e with
  | EStaking e =>
      match e with
      | InternalError => "internal error"
      | MethodNotSupported => "method not supported"
      | InvalidInput => "invalid input"
      | ValidatorExists => "validator exists"
      | UnknownValidator => "unknown validator"
      | UnknownDelegator => "unknown delegator"
      | WithdrawalIdExists => "withdrawal id exists"
      | UnknownWithdrawalId => "unknown withdrawal id"
      | WithdrawalNotReady => "withdrawal not ready"
      | InsufficientStake => "insufficient stake"
      | InvalidSecpPubkey => "invalid secp pubkey"
      | InvalidBlsPubkey => "invalid bls pubkey"
      | InvalidSecpSignature => "invalid secp signature"
      | InvalidBlsSignature => "invalid bls signature"
      | SecpSignatureVerificationFailed => "secp signature verification failed"
      | BlsSignatureVerificationFailed => "bls signature verification failed"
      | NotInValidatorSet => "not in validator set"
      | SolvencyError => "solvency error"
      | SnapshotInBoundary => "called snapshot while in boundary"
      | InvalidEpochChange => "invalid epoch change"
      | RequiresAuthAddress => "requires auth address"
      | CommissionTooHigh => "commission too high"
      | ValueNonZero => "value is nonzero"
      | DelegationTooSmall => "delegation is too small"
      | ExternalRewardTooSmall => "external reward too small"
      | ExternalRewardTooLarge => "external reward too large"
      end
  | EMath e =>
      match e with
      | Overflow => "overflow"
      | Underflow => "underflow"
      | DivisionByZero => "division by zero"
      end
  | EAbi e =>
      match e with
      | InputTooShort => "input too short"
      | LengthMismatch => "length mismatch"
      end
  end.

Definition message_bytes (s : string) : byte_string :=
  (fun c => #(Z.of_nat (Ascii.nat_of_ascii c))) <$> String.list_ascii_of_string s.

Inductive evmc_status_code := EVMC_SUCCESS | EVMC_REVERT | EVMC_OUT_OF_GAS | EVMC_REJECTED.

(** The fields of [evmc_message] the precompile reads; [is_call] is
    [kind == EVMC_CALL]. *)
Record evmc_message := mk_msg {
  msg_is_call : bool; msg_flags : u32; msg_gas : Z;
  msg_sender_ : address; msg_code_address : address;
  msg_value_ : u256; msg_input : byte_string }.

Record evmc_result := mk_result {
  status_code : evmc_status_code; gas_left : Z; gas_refund : Z; output : byte_string }.

(** A program that catches the error of another. *)
Fixpoint attempt {E A} (p : prog E A) : prog Empty_set (A + E) :=
  match p with
  | Ret a => Ret (inl a)
  | Fail e => Ret (inr e)
  | Throw m => Throw m
  | Halt => Halt
  | Vis op k => Vis op (fun x => attempt (k x))
  end.

Section precompile_call.
Context `{Crypto}.

Definition check_call_monad_precompile (rev : monad_revision) (msg : evmc_message)
    : prog Empty_set (option evmc_result) :=
  if negb (msg_code_address msg =w? STAKING_CA) then Ret None
  else if negb (msg_is_call msg) || negb (msg_flags msg =? 0) then
    Ret (Some (mk_result EVMC_REJECTED 0 0 []))
  else
    let '(method, cost, input) := precompile_dispatch rev (msg_input msg) in
    if msg_gas msg <? cost then Ret (Some (mk_result EVMC_OUT_OF_GAS 0 0 []))
    else
      r <- attempt (call_method rev method input (msg_sender_ msg) (msg_value_ msg)) ;;
      match r with
      | inl out => Ret (Some (mk_result EVMC_SUCCESS (msg_gas msg - cost) 0 out))
      | inr e => Ret (Some (mk_result EVMC_REVERT 0 0 (message_bytes (error_message e))))
      end.
End precompile_call.

(** ** Reading the valset of an epoch *)
Record Validator := mk_validator { v_secp_pubkey : uword 264; v_bls_pubkey : uword 384; v_stake : u256 }.

Fixpoint read_valset_loop (valset : StorageArray u64) (get_stake : u64 -> P (StorageVariable u256))
    (i : Z) (n : nat) (acc : list Validator) : P (list Validator) :=
  match n with
  | O => Ret acc
  | S n' =>
      val_id <- load (sa_get valset #i) ;;
      v <- get_stake val_id ;;
      stake <- load v ;;
      keys <- load (ValExecution.keys (vars.val_execution val_id)) ;;
      read_valset_loop valset get_stake (i + 1) n'
        (acc ++ [mk_validator (secp_pubkey keys) (bls_pubkey keys) stake])
  end.

Definition read_valset (requested_epoch : u64) : P (option (list Validator)) :=
  trigger (AddToBalance STAKING_CA #0) ;;
  contract_epoch <- load vars.epoch ;;
  let next_epoch : u64 := #(contract_epoch + 1) in
  early <- (if requested_epoch =w? next_epoch then
              in_delay <- load vars.in_epoch_delay_period ;; Ret (negb in_delay)
            else Ret false) ;;
  if early : bool then Ret None
  else if requested_epoch <? contract_epoch then Ret None
  else if next_epoch <? requested_epoch then Ret None
  else
    let get_next_epoch := requested_epoch =w? next_epoch in
    contract_valset <- (if get_next_epoch then Ret vars.valset_consensus
                        else vars.this_epoch_valset) ;;
    let get_stake id :=
      view <- (if get_next_epoch then Ret (vars.consensus_view id)
               else vars.this_epoch_view id) ;;
      Ret (ConsensusView.stake view) in
    length <- sa_length contract_valset ;;
    monad_assert (length <=? limits.active_valset_size) ;;
    valset <- read_valset_loop contract_valset get_stake 0 (Z.to_nat length) [] ;;
    Ret (Some valset).
