(* ===== verification/Demo.v ===== *)
(** * A concrete run of the staking contract

    A small instance used to evaluate the model: cryptography that accepts
    everything, a funded account, and the calls of a validator's life from
    registration to withdrawal.  The worlds are named so that theorems about
    reachable worlds can be applied to them. *)
From S2P Require Import Prelude Prog Storage UInt256 Abi StakingVars StakingHelpers StakingList StakingContract StakingSyscalls.

Definition empty_world : World := mk_world ∅ ∅ [] [].

(** Keys are their own parsed form, every signature verifies, and a hash is the
    number its input denotes. *)
#[export] Instance demo_crypto : Crypto := {|
  secp256k1_pubkey := uword 264;
  secp256k1_signature := unit;
  secp256k1_ec_pubkey_parse k := Some k;
  secp256k1_ec_pubkey_serialize k := #4 :: to_bytes 64 k;
  secp256k1_ecdsa_signature_parse_compact _ := Some tt;
  secp256k1_ecdsa_verify _ _ _ := true;
  blst_p1_affine := uword 384;
  blst_p2_affine := unit;
  blst_p1_uncompress k := Some k;
  blst_p1_affine_in_g1 _ := true;
  blst_p1_affine_is_inf _ := false;
  blst_p1_affine_serialize k := to_bytes 96 k;
  blst_p2_uncompress _ := Some tt;
  blst_p2_affine_in_g2 _ := true;
  blst_p2_affine_is_inf _ := false;
  blst_core_verify_pk_in_g1 _ _ _ := true;
  blake3 l := #(bytes_val l);
  keccak256 l := #(bytes_val l) |}.

Definition alice : address := #0xa11ce.
Definition mon (n : Z) : u256 := #(n * MON).

(** ** Calldata *)
Definition call_data (selector : u32) (args : list bytes32) : byte_string :=
  to_bytes 4 selector ++ mbind word_bytes args.

Definition register_message (stake commission : u256) : byte_string :=
  to_bytes 33 7 ++ to_bytes 48 9 ++ to_bytes 20 alice ++ word_bytes stake ++ word_bytes commission.

Definition register_data (stake commission : u256) : byte_string :=
  call_data PrecompileSelector.ADD_VALIDATOR [ #0; #0; #0 ] ++
  abi_encode_bytes (register_message stake commission) ++
  abi_encode_bytes (to_bytes 64 0) ++ abi_encode_bytes (to_bytes 96 0).

Definition message (value : u256) (input : byte_string) : evmc_message :=
  mk_msg true #0 1000000 alice STAKING_CA value input.

Definition snapshot_data : byte_string := call_data selector.SNAPSHOT [].
Definition epoch_data (e : bytes32) : byte_string := call_data selector.ON_EPOCH_CHANGE [e].
Definition reward_data : byte_string := call_data selector.REWARD [ #7 ].

(** ** Worlds *)
Definition funded : World := set_balance empty_world alice (mon 20000000).
