(* ===== verification/StakingWp.v ===== *)
(** * Symbolic execution of the staking contract

    The rules that step through the contract's programs and the rewriting of
    reads over writes: the tactics [wstep], [wsteps] and [worlds].  The proofs
    about the contract's methods use only these. *)
From S2P Require Import Prelude Prog Storage UInt256 Abi StakingVars StakingHelpers StakingList StakingContract StakingSyscalls.

(** ** Variables as slots of objects *)
Lemma sa_get_valset v (i : u64) : sa_get (vars.valset v) i = svar (OValset v) (1 + i).
Proof.
  unfold sa_get, vars.valset, svar, skey, sa_start_index. cbn [sa_address sa_slot]. f_equal.
  change (Z.of_nat (nslots u64)) with 1. rewrite Z.mul_1_r, wrap_uval.
  apply uval_inj. rewrite !uval_wrap, Zplus_mod_idemp_l. f_equal. lia.
Qed.

Lemma sa_length_valset v : sa_length_ (vars.valset v) = svar (OValset v) 0.
Proof.
  unfold sa_length_, vars.valset, svar, skey. cbn [sa_address sa_slot]. f_equal.
  by rewrite Z.add_0_r, wrap_uval.
Qed.

(** Replace the getters by the slot of the object they denote. *)
Ltac unfold_vars :=
  cbv [vars.epoch vars.in_epoch_delay_period vars.last_val_id vars.proposer_val_id
    vars.valset_execution vars.valset_consensus vars.valset_snapshot
    vars.val_id vars.val_id_bls vars.val_bitset_bucket vars.val_execution vars.consensus_view
    vars.snapshot_view vars.delegator vars.withdrawal_request vars.accumulated_reward_per_token
    ValExecution.stake ValExecution.accumulated_reward_per_token ValExecution.commission
    ValExecution.keys ValExecution.address_flags ValExecution.unclaimed_rewards
    ConsensusView.stake ConsensusView.commission
    Delegator.stake Delegator.accumulated_reward_per_token Delegator.rewards
    Delegator.delta_stake Delegator.next_delta_stake Delegator.epochs Delegator.list_node
    ll_node validators_of_delegator delegators_of_validator] in *;
  rewrite ?sa_get_valset, ?sa_length_valset in *.

(** ** Disjointness of two such slots *)
Ltac slot_bound :=
  cbn [capacity];
  lazymatch goal with
  | |- context [uval ?x] => change (nslots u64) with 1%nat; pose proof (uword_range x); word_lia
  | |- _ => vm_compute; first [reflexivity | let H := fresh in intros H; discriminate H]
  end.

Ltac sv_disj :=
  apply svar_disjoint; [slot_bound..|];
  first [ left; let H := fresh in intros H; first [discriminate H | congruence]
        | right; left; slot_bound
        | right; right; slot_bound ].

(** ** Logs *)
Definition add_log (w : World) (l : Log) : World :=
  mk_world (w_storage w) (w_balance w) (w_logs w ++ [l]) (w_traced w ++ [l]).

Lemma wp_emit_log X l Q w : Q tt (add_log w l) -> wp X (emit_log l) Q w.
Proof. done. Qed.

Lemma rd_add_log {T} `{Layout T} w l (v : StorageVariable T) : rd (add_log w l) v = rd w v.
Proof. by apply rd_same_storage. Qed.
Lemma rd_set_balance {T} `{Layout T} w a x (v : StorageVariable T) :
  rd (set_balance w a x) v = rd w v.
Proof. by apply rd_same_storage. Qed.
Lemma rd_checked_add_log {T} `{Layout T} w l (v : StorageVariable T) :
  rd_checked (add_log w l) v = rd_checked w v.
Proof. by apply rd_checked_same_storage. Qed.
Lemma rd_checked_set_balance {T} `{Layout T} w a x (v : StorageVariable T) :
  rd_checked (set_balance w a x) v = rd_checked w v.
Proof. by apply rd_checked_same_storage. Qed.
Lemma balance_add_log w l a : balance (add_log w l) a = balance w a.
Proof. done. Qed.

Create Rewrite HintDb worlds.
#[export] Hint Rewrite @rd_wr @rd_wipe @rd_checked_wipe @rd_add_log @rd_set_balance
  @rd_checked_add_log @rd_checked_set_balance @balance_add_log @balance_wr @balance_wipe : worlds.
#[export] Hint Rewrite @rd_wr_ne @rd_wipe_ne @rd_checked_wr_ne @rd_checked_wipe_ne
  using solve [sv_disj] : worlds.

Ltac worlds := autorewrite with worlds.
Tactic Notation "worlds" "in" hyp(H) := autorewrite with worlds in H.

(** ** Stepping *)
Lemma wp_require_not X b e Q w : (b = false -> Q tt w) -> wp X (require_not b e) Q w.
Proof. apply wp_fail_if. Qed.
Lemma wp_math {A} X (r : A + MathError) Q w :
  (forall a, r = inl a -> Q a w) -> wp X (math r) Q w.
Proof. apply wp_lift. Qed.
Lemma wp_abi {A} X (r : A + AbiDecodeError) Q w :
  (forall a, r = inl a -> Q a w) -> wp X (abi r) Q w.
Proof. apply wp_lift. Qed.

Ltac wstep :=
  cbv beta;
  lazymatch goal with
  | |- wp _ (bind _ _) _ _ => apply wp_bind
  | |- wp _ (Ret _) _ _ => apply wp_ret
  | |- wp _ (Fail _) _ _ => apply wp_fail
  | |- wp _ (staking_fail _) _ _ => apply wp_fail
  | |- wp _ (Halt) _ _ => apply wp_halt
  | |- wp _ (load _) _ _ => apply wp_load
  | |- wp _ (load_checked _) _ _ => apply wp_load_checked
  | |- wp _ (store _ _) _ _ => apply wp_store
  | |- wp _ (clear _) _ _ => apply wp_clear
  | |- wp _ (require_not _ _) _ _ => apply wp_require_not; intros ?
  | |- wp _ (monad_assert _) _ _ => apply wp_assert; intros ?
  | |- wp _ (monad_assert_throw _ _) _ _ => apply wp_assert_throw; intros ?
  | |- wp _ (math _) _ _ => apply wp_math; intros ? ?
  | |- wp _ (abi _) _ _ => apply wp_abi; intros ? ?
  | |- wp _ (emit_log _) _ _ => apply wp_emit_log
  | |- wp _ (match ?x with inl _ => _ | inr _ => _ end) _ _ => destruct x eqn:?
  | |- wp _ (match ?x with Some _ => _ | None => _ end) _ _ => destruct x eqn:?
  | |- wp _ (match ?x with (_, _) => _ end) _ _ => destruct x eqn:?
  | |- wp _ (let _ := _ in _) _ _ => cbv zeta
  end; cbv beta.
Ltac wcase :=
  cbv beta; lazymatch goal with
  | |- wp _ (if _ then _ else _) _ _ => apply wp_if; intros ?
  end.

(** Straight-line code; all paths. *)
Ltac wline := repeat wstep.
Ltac wsteps := repeat first [wstep | wcase].
