(* ===== verification/StakingSnapshot.v ===== *)
(** * The snapshot: choosing the next validator set

    What [syscall_snapshot] does to the three validator sets and the two views:
    the consensus set becomes the snapshot set, the top of the execution set by
    stake becomes the consensus set, and validators that are not eligible leave
    the execution set.  Everything is total correctness: the loops over storage
    arrays terminate without an error, whatever the arrays hold. *)
From stdpp Require Import sorting.
From S2P Require Import Prelude Prog Storage UInt256 Abi StakingVars StakingHelpers StakingList StakingContract StakingSyscalls StakingWp.

(** ** Worlds that agree outside some objects *)
Definition same_outside (O : object -> Prop) (w w' : World) : Prop :=
  forall o i, ~ O o -> 0 <= i < capacity o ->
    slot w' STAKING_CA (skey o i) = slot w STAKING_CA (skey o i).

Section same_outside.
Implicit Types (O : object -> Prop) (w : World) (o : object).

Lemma same_outside_refl O w : same_outside O w w.
Proof. by intros o i. Qed.

Lemma same_outside_trans O w1 w2 w3 :
  same_outside O w1 w2 -> same_outside O w2 w3 -> same_outside O w1 w3.
Proof. intros H12 H23 o i Ho Hi. by rewrite H23, H12. Qed.

Lemma same_outside_mono O O' w w' :
  (forall o, O o -> O' o) -> same_outside O w w' -> same_outside O' w w'.
Proof. intros HO H o i Ho. apply H. auto. Qed.

Context {T : Type} `{Layout T}.

Lemma rd_outside O w w' o i :
  same_outside O w w' -> ~ O o -> 0 <= i -> i + Z.of_nat (nslots T) <= capacity o ->
  rd w' (svar (T := T) o i) = rd w (svar o i).
Proof.
  intros Hs Ho Hi Hc. apply rd_same_slots. intros j Hj. rewrite sv_slot_svar. apply Hs; [done|lia].
Qed.

Lemma wr_slots_outside O w o i l :
  O o -> 0 <= i -> i + Z.of_nat (nslots T) <= capacity o -> length l = nslots T ->
  same_outside O w (wr_slots w (svar (T := T) o i) 0 l).
Proof.
  intros Ho Hi Hc Hl o' j Ho' Hj. apply slot_wr_slots_ne. intros k Hk E%(f_equal snd).
  cbn [snd] in E. rewrite sv_slot_svar in E. apply skey_inj in E as [-> _]; [done|lia..].
Qed.

#[local] Transparent wr wipe.
Lemma wr_outside O w o i (t : T) :
  O o -> 0 <= i -> i + Z.of_nat (nslots T) <= capacity o ->
  same_outside O w (wr w (svar o i) t).
Proof. intros. apply wr_slots_outside; auto using length_to_slots. Qed.

Lemma wipe_outside O w o i :
  O o -> 0 <= i -> i + Z.of_nat (nslots T) <= capacity o ->
  same_outside O w (wipe w (svar (T := T) o i)).
Proof. intros. apply wr_slots_outside; auto using length_replicate. Qed.
End same_outside.

(** ** The validator sets as lists *)
Definition valset_of (w : World) (v : Valset) : list u64 := arr w (vars.valset v).

(** The stake and the commission in a view. *)
Definition view_of (w : World) (view : object) : u256 * u256 :=
  (rd w (ConsensusView.stake view), rd w (ConsensusView.commission view)).

(** The execution set's membership bit of a validator. *)
Definition in_bitset (w : World) (id : u64) : bool :=
  Z.testbit (rd w (vars.val_bitset_bucket id)) (Z.land id 0xFF).

Section valsets.
Implicit Types (w : World) (v : Valset) (id : u64) (l : list u64).

Lemma arr_len_bound w v : Z.of_nat (length (valset_of w v)) < 2 ^ 64.
Proof.
  unfold valset_of. rewrite length_arr. pose proof (uword_range (arr_len w (vars.valset v))).
  change (modulus 64) with (2 ^ 64) in *. lia.
Qed.

Lemma arr_len_length w v : Z.of_nat (length (valset_of w v)) = arr_len w (vars.valset v).
Proof.
  unfold valset_of. rewrite length_arr. pose proof (uword_range (arr_len w (vars.valset v))). lia.
Qed.

Lemma elem_outside O w w' v (i : Z) :
  same_outside O w w' -> ~ O (OValset v) ->
  rd w' (sa_get (vars.valset v) #i) = rd w (sa_get (vars.valset v) #i).
Proof. intros Hs Ho. rewrite sa_get_valset. apply (rd_outside O); [done|done|slot_bound..]. Qed.

Lemma valset_outside O w w' v :
  same_outside O w w' -> ~ O (OValset v) -> valset_of w' v = valset_of w v.
Proof.
  intros Hs Ho. unfold valset_of, arr, arr_len. rewrite sa_length_valset.
  rewrite (rd_outside O w w' (OValset v) 0) by (done || slot_bound).
  apply list_fmap_ext. intros j i _. by apply (elem_outside O).
Qed.

Lemma view_outside O w w' o :
  same_outside O w w' -> ~ O o -> 2 <= capacity o -> view_of w' o = view_of w o.
Proof.
  intros Hs Ho Hc. unfold view_of, ConsensusView.stake, ConsensusView.commission.
  change (nslots u256) with 1%nat in *.
  by rewrite !(rd_outside O w w' o) by (change (nslots u256) with 1%nat; (done || lia)).
Qed.

(** *** Pushing, popping, overwriting *)
Lemma twp_push {E} v x w Q :
  Z.of_nat (length (valset_of w v)) + 1 < 2 ^ 64 ->
  (forall w', valset_of w' v = valset_of w v ++ [x] ->
     same_outside (eq (OValset v)) w w' -> Q tt w') ->
  twp (sa_push (E := E) (vars.valset v) x) Q w.
Proof.
  rewrite arr_len_length. intros Hr HQ. eapply twp_run; [apply run_sa_push|]. apply HQ.
  - apply arr_push. unfold room. change (Z.of_nat (nslots u64)) with 1. lia.
  - unfold push_world. rewrite sa_get_valset, sa_length_valset.
    eapply same_outside_trans; apply (wr_outside (T := u64)); (done || slot_bound).
Qed.

Lemma twp_pop {E} v l x w Q :
  valset_of w v = l ++ [x] ->
  (forall w', valset_of w' v = l -> same_outside (eq (OValset v)) w w' -> Q x w') ->
  twp (sa_pop (E := E) (vars.valset v)) Q w.
Proof.
  intros Hl HQ. pose proof (arr_len_bound w v) as Hb. rewrite arr_len_length in Hb.
  destruct (arr_pop w (vars.valset v) l x) as (Hpos & Hx & Hl').
  { change (Z.of_nat (nslots u64)) with 1. lia. }
  { done. }
  eapply twp_run; [by apply run_sa_pop|]. rewrite Hx. apply HQ; [done|].
  unfold pop_world. rewrite sa_get_valset, sa_length_valset.
  eapply same_outside_trans; [apply (wipe_outside (T := u64))|apply (wr_outside (T := u64))]; (done || slot_bound).
Qed.

Lemma valset_store w v (i : nat) x :
  Z.of_nat i + 1 < 2 ^ 64 ->
  valset_of (wr w (sa_get (vars.valset v) #(Z.of_nat i)) x) v = <[i:=x]> (valset_of w v).
Proof.
  intros Hi. pose proof (arr_len_bound w v) as Hb. rewrite arr_len_length in Hb.
  apply arr_store; change (Z.of_nat (nslots u64)) with 1; lia.
Qed.

Lemma valset_lookup w v (i : nat) id :
  valset_of w v !! i = Some id -> rd w (sa_get (vars.valset v) #(Z.of_nat i)) = id.
Proof.
  intros Hi. pose proof (lookup_lt_Some _ _ _ Hi) as Hlt. unfold valset_of in *.
  rewrite length_arr in Hlt. rewrite arr_lookup in Hi by done. by injection Hi.
Qed.
End valsets.

(** Total-correctness steps. *)
Ltac tstep :=
  cbv beta;
  lazymatch goal with
  | |- twp (bind _ _) _ _ => apply twp_bind
  | |- twp (Ret _) _ _ => apply twp_ret
  | |- twp (load _) _ _ => apply twp_load
  | |- twp (load_checked _) _ _ => apply twp_load_checked
  | |- twp (store _ _) _ _ => apply twp_store
  | |- twp (clear _) _ _ => apply twp_clear
  | |- twp (let _ := _ in _) _ _ => cbv zeta
  end; cbv beta.
Ltac tsteps := repeat tstep.

(** Worlds that differ in a valset and in the views of some validators. *)
Definition set_and_views (v : Valset) (view : u64 -> object) (l : list u64) (o : object) : Prop :=
  o = OValset v \/ exists id, id ∈ l /\ o = view id.

(** The two families of views. *)
Class ViewOf (view : u64 -> object) := {
  view_inj : forall id id', view id = view id' -> id = id';
  view_valset : forall id v, view id <> OValset v;
  view_execution : forall id id', view id <> OValExecution id';
  view_capacity : forall id, 2 <= capacity (view id);
}.
#[export] Instance consensus_is_view : ViewOf vars.consensus_view.
Proof. by split; try (intros ? ? [=]). Qed.
#[export] Instance snapshot_is_view : ViewOf vars.snapshot_view.
Proof. by split; try (intros ? ? [=]). Qed.

Section views.
Context (v : Valset) (view : u64 -> object) `{!ViewOf view}.
#[local] Set Default Proof Using "Type*".
Implicit Types (w : World) (id : u64) (l : list u64).

Lemma not_set_and_views l id : id ∉ l -> ~ set_and_views v view l (view id).
Proof. intros Hid [E|(id' & Hin & E)]; [by apply view_valset in E|]. apply view_inj in E. by subst. Qed.

Lemma set_and_views_valset l v' : v' <> v -> ~ set_and_views v view l (OValset v').
Proof. intros Hv [[= E]|(id' & _ & E)]; [done|]. symmetry in E. by apply view_valset in E. Qed.

Lemma set_and_views_cons l x o : set_and_views v view l o -> set_and_views v view (x :: l) o.
Proof using. intros [->|(id & Hid & ->)]; [by left|right]. exists id. split; [by right|done]. Qed.

Lemma view_capacity1 id i :
  0 <= i < 2 -> 0 <= i /\ i + Z.of_nat (nslots u256) <= capacity (view id).
Proof. pose proof (view_capacity id). change (Z.of_nat (nslots u256)) with 1. lia. Qed.

(** Writing both fields of a view. *)
Lemma view_write w id (s c : u256) :
  let w' := wr (wr w (ConsensusView.stake (view id)) s) (ConsensusView.commission (view id)) c in
  view_of w' (view id) = (s, c) /\ same_outside (eq (view id)) w w'.
Proof.
  pose proof (view_capacity1 id 0). pose proof (view_capacity1 id 1). split.
  - unfold view_of. rewrite rd_wr. f_equal.
    rewrite rd_wr_ne; [by rewrite rd_wr|]. apply svar_disjoint; try lia.
    right. change (Z.of_nat (nslots u256)) with 1. lia.
  - unfold ConsensusView.stake, ConsensusView.commission.
    eapply same_outside_trans; apply (wr_outside (T := u256)); (done || lia).
Qed.

Lemma view_wipe w id :
  let w' := wipe (wipe w (ConsensusView.stake (view id))) (ConsensusView.commission (view id)) in
  view_of w' (view id) = (#0, #0) /\ same_outside (eq (view id)) w w'.
Proof.
  pose proof (view_capacity1 id 0). pose proof (view_capacity1 id 1). split.
  - unfold view_of. rewrite rd_wipe. f_equal.
    rewrite rd_wipe_ne; [by rewrite rd_wipe|]. apply svar_disjoint; try lia.
    right. change (Z.of_nat (nslots u256)) with 1. lia.
  - unfold ConsensusView.stake, ConsensusView.commission.
    eapply same_outside_trans; apply (wipe_outside (T := u256)); (done || lia).
Qed.

(** *** Throwing out a view *)
Lemma run_sa_empty {E} w :
  run (sa_empty (E := E) (vars.valset v)) w = (ROk (length (valset_of w v) =? 0)%nat, w).
Proof.
  unfold sa_empty, sa_length. rewrite run_bind, run_load, run_ret. do 2 f_equal.
  fold (arr_len w (vars.valset v)). rewrite <- arr_len_length.
  destruct (length (valset_of w v)); [done|]. simpl. lia.
Qed.

Lemma twp_drain l : forall w fuel, valset_of w v = l -> (length l <= fuel)%nat ->
  twp (drain (vars.valset v) (fun val_id =>
      clear (ConsensusView.stake (view val_id)) ;;
      clear (ConsensusView.commission (view val_id))) fuel)
    (fun _ w' => valset_of w' v = [] /\ (forall id, id ∈ l -> view_of w' (view id) = (#0, #0)) /\
       same_outside (set_and_views v view l) w w') w.
Proof.
  induction l as [|x l IH] using rev_ind; intros w fuel Hl Hf.
  - destruct fuel; cbn [drain]; apply twp_bind; (eapply twp_run; [apply run_sa_empty|]);
      rewrite Hl; apply twp_ret; (split_and!; [done|set_solver|apply same_outside_refl]).
  - rewrite length_app in Hf. destruct fuel as [|fuel]; [simpl in Hf; lia|]. cbn [drain].
    apply twp_bind. eapply twp_run; [apply run_sa_empty|]. rewrite Hl, length_app. simpl.
    rewrite Nat.add_1_r. cbn [Nat.eqb]. apply twp_bind. apply (twp_pop v l x); [done|].
    intros w1 Hl1 Hs1. tsteps. destruct (view_wipe w1 x) as [Hz Hs2].
    set (w2 := wipe _ _) in *.
    assert (Hl2 : valset_of w2 v = l).
    { rewrite (valset_outside _ w1 w2 v Hs2); [done|apply view_valset]. }
    eapply twp_mono; [apply (IH w2 fuel Hl2); simpl in Hf; lia|].
    intros _ w3 (He & Hzs & Hs3). split; [done|]. split.
    + intros id Hid. destruct (decide (id ∈ l)) as [Hin|Hin]; [by apply Hzs|].
      assert (id = x) as -> by set_solver.
      rewrite (view_outside _ w2 w3 (view x) Hs3); [done|by apply not_set_and_views|apply view_capacity].
    + apply (same_outside_trans _ w w1); [|apply (same_outside_trans _ w1 w2)];
        [eapply same_outside_mono, Hs1|eapply same_outside_mono, Hs2|eapply same_outside_mono, Hs3].
      * intros o <-. by left.
      * intros o <-. right. exists x. set_solver.
      * intros o [->|(id & Hid & ->)]; [by left|]. right. exists id. set_solver.
Qed.

Lemma twp_throw_out w :
  twp (throw_out_view (vars.valset v) view)
    (fun _ w' => valset_of w' v = [] /\
       (forall id, id ∈ valset_of w v -> view_of w' (view id) = (#0, #0)) /\
       same_outside (set_and_views v view (valset_of w v)) w w') w.
Proof.
  unfold throw_out_view, drain_all, sa_length. tsteps.
  apply (twp_drain (valset_of w v)); [done|]. fold (arr_len w (vars.valset v)).
  rewrite <- arr_len_length. lia.
Qed.
End views.

(** ** Copying the consensus view *)
Abbreviation snapshot_part := (set_and_views ValsetSnapshot vars.snapshot_view).
Abbreviation consensus_part := (set_and_views ValsetConsensus vars.consensus_view).

Lemma snapshot_part_consensus l id : ~ snapshot_part l (vars.consensus_view id).
Proof. intros [[=]|(? & _ & [=])]. Qed.

Lemma set_and_views_execution v view `{!ViewOf view} l id :
  ~ set_and_views v view l (OValExecution id).
Proof. intros [[=]|(id' & _ & E)]. symmetry in E. by apply view_execution in E. Qed.

Lemma twp_copy (C : list u64) : forall n i w,
  (i + n = length C)%nat -> valset_of w ValsetConsensus = C ->
  length (valset_of w ValsetSnapshot) = i ->
  twp (for_range (Z.of_nat i) n copy_view) (fun _ w' =>
    valset_of w' ValsetSnapshot = valset_of w ValsetSnapshot ++ drop i C /\
    (forall id, id ∈ drop i C ->
       view_of w' (vars.snapshot_view id) = view_of w (vars.consensus_view id)) /\
    same_outside (snapshot_part (drop i C)) w w') w.
Proof.
  induction n as [|n IH]; intros i w Hn HC Hi; cbn [for_range].
  { rewrite drop_ge by lia. rewrite app_nil_r. apply twp_ret.
    split_and!; [done|set_solver|apply same_outside_refl]. }
  destruct (lookup_lt_is_Some_2 C i ltac:(lia)) as [id Hid].
  pose proof (arr_len_bound w ValsetConsensus) as Hb. rewrite HC in Hb.
  unfold copy_view at 1, vars.valset_consensus, vars.valset_snapshot. tsteps.
  rewrite (valset_lookup w ValsetConsensus i id) by by rewrite HC.
  apply (twp_push ValsetSnapshot); [lia|]. intros w1 Hl1 Hs1. tsteps.
  rewrite (rd_wr_ne _ _ (ConsensusView.commission _)) by sv_disj.
  destruct (view_write vars.snapshot_view w1 id (rd w1 (ConsensusView.stake (vars.consensus_view id)))
    (rd w1 (ConsensusView.commission (vars.consensus_view id)))) as [Hv Hs2].
  set (w2 := wr _ _ _) in *.
  assert (Hv1 : view_of w1 (vars.consensus_view id) = view_of w (vars.consensus_view id))
    by (by apply (view_outside _ w w1 _ Hs1)).
  change (_, _) with (view_of w1 (vars.consensus_view id)) in Hv. rewrite Hv1 in Hv.
  assert (Hl2 : valset_of w2 ValsetSnapshot = valset_of w ValsetSnapshot ++ [id])
    by (rewrite (valset_outside _ w1 w2 _ Hs2); done).
  assert (HC2 : valset_of w2 ValsetConsensus = C).
  { rewrite (valset_outside _ w1 w2 _ Hs2), (valset_outside _ w w1 _ Hs1); done. }
  replace (Z.of_nat i + 1) with (Z.of_nat (S i)) by lia.
  eapply twp_mono; [apply (IH (S i) w2); [lia|done|by rewrite Hl2, length_app, Nat.add_comm; simpl; lia]|].
  rewrite (drop_S C id i Hid). intros _ w3 (Hl3 & Hv3 & Hs3).
  assert (Hw2 : same_outside (snapshot_part (id :: drop (S i) C)) w w2).
  { apply (same_outside_trans _ w w1); [eapply same_outside_mono, Hs1|eapply same_outside_mono, Hs2].
    - intros o <-. by left.
    - intros o <-. right. exists id. set_solver. }
  split_and!.
  - by rewrite Hl3, Hl2, <- app_assoc.
  - intros id' Hid'. destruct (decide (id' ∈ drop (S i) C)) as [Hin|Hin].
    + rewrite Hv3 by done. apply (view_outside _ w w2 _ Hw2); [|done]. apply snapshot_part_consensus.
    + assert (id' = id) as -> by set_solver.
      rewrite (view_outside _ w2 w3 _ Hs3); [done|by apply not_set_and_views; [apply _|]|done].
  - apply (same_outside_trans _ w w2 w3 Hw2). eapply same_outside_mono, Hs3.
    intros o. apply set_and_views_cons.
Qed.

(** ** Candidates and removals *)
Definition flags_of (w : World) (id : u64) : u64 :=
  flags (rd w (ValExecution.address_flags (vars.val_execution id))).
Definition eligible (w : World) (id : u64) : Prop := uval (flags_of w id) = 0.
#[export] Instance eligible_dec w id : Decision (eligible w id).
Proof. unfold eligible. apply _. Defined.

Definition stake_of (w : World) (id : u64) : u256 :=
  rd w (ValExecution.stake (vars.val_execution id)).
Definition commission_of (w : World) (id : u64) : u256 :=
  rd w (ValExecution.commission (vars.val_execution id)).

Definition candidates_of (w : World) (l : list u64) : list Candidate :=
  (fun id => (id, stake_of w id)) <$> filter (eligible w) l.

(** The positions, from [i] on, of the validators of [l] that are not eligible. *)
Fixpoint removals_of (w : World) (i : nat) (l : list u64) : list nat :=
  match l with
  | [] => []
  | id :: l' =>
      if decide (eligible w id) then removals_of w (S i) l' else i :: removals_of w (S i) l'
  end.

Definition as_index (i : nat) : u64 := #(Z.of_nat i).

Lemma run_scan w : forall n i cs rs,
  (i + n = length (valset_of w ValsetExecution))%nat ->
  run (scan_execution (Z.of_nat i) n cs rs) w =
  (ROk (cs ++ candidates_of w (drop i (valset_of w ValsetExecution)),
        rs ++ (as_index <$> removals_of w i (drop i (valset_of w ValsetExecution)))), w).
Proof.
  induction n as [|n IH]; intros i cs rs Hn; cbn [scan_execution].
  { rewrite drop_ge by lia. change (candidates_of w []) with (@nil Candidate).
    cbn [removals_of]. rewrite fmap_nil, !app_nil_r. apply run_ret. }
  destruct (lookup_lt_is_Some_2 (valset_of w ValsetExecution) i ltac:(lia)) as [id Hid].
  unfold vars.valset_execution. rewrite run_bind, run_load, (valset_lookup w _ i id Hid).
  unfold ValExecution.get_flags. rewrite run_bind, run_bind, run_load, run_ret.
  fold (flags_of w id). rewrite (drop_S _ id i Hid).
  replace (Z.of_nat i + 1) with (Z.of_nat (S i)) by lia.
  unfold candidates_of. cbn [removals_of]. rewrite filter_cons.
  destruct (Z.eqb_spec (flags_of w id) ValidatorFlagsOk) as [Hf|Hf].
  - rewrite !decide_True by done. rewrite run_bind, run_load. fold (stake_of w id).
    rewrite IH by lia. by rewrite <- app_assoc.
  - rewrite !decide_False by done. rewrite IH by lia. by rewrite fmap_cons, <- app_assoc.
Qed.

Lemma twp_push_consensus (f : u64 -> u256) (cs : list Candidate) : forall w,
  (forall id st, (id, st) ∈ cs -> st = f id) ->
  Z.of_nat (length (valset_of w ValsetConsensus) + length cs) < 2 ^ 64 ->
  twp (push_consensus cs) (fun _ w' =>
    valset_of w' ValsetConsensus = valset_of w ValsetConsensus ++ cs.*1 /\
    (forall id, id ∈ cs.*1 -> view_of w' (vars.consensus_view id) = (f id, commission_of w id)) /\
    same_outside (consensus_part cs.*1) w w') w.
Proof.
  induction cs as [|[id st] cs IH]; intros w Hf Hl; cbn [push_consensus].
  { apply twp_ret. rewrite app_nil_r. split_and!; [done|set_solver|apply same_outside_refl]. }
  assert (st = f id) as -> by (apply Hf; by left).
  unfold vars.valset_consensus. cbn [length fmap list_fmap fst] in *. tsteps.
  apply (twp_push ValsetConsensus); [lia|]. intros w1 Hl1 Hs1. tsteps.
  rewrite (rd_wr_ne _ _ (ValExecution.commission _)) by sv_disj.
  fold (commission_of w1 id).
  destruct (view_write vars.consensus_view w1 id (f id) (commission_of w1 id)) as [Hv Hs2].
  set (w2 := wr _ _ _) in *.
  assert (Hl2 : valset_of w2 ValsetConsensus = valset_of w ValsetConsensus ++ [id])
    by (rewrite (valset_outside _ w1 w2 _ Hs2); done).
  assert (Hw2 : same_outside (consensus_part (id :: cs.*1)) w w2).
  { apply (same_outside_trans _ w w1); [eapply same_outside_mono, Hs1|eapply same_outside_mono, Hs2].
    - intros o <-. by left.
    - intros o <-. right. exists id. set_solver. }
  assert (Hc : forall id', commission_of w2 id' = commission_of w id').
  { intros id'. apply (rd_outside _ w w2 _ _ Hw2); [|done..].
    by apply set_and_views_execution, consensus_is_view. }
  assert (Hc1 : commission_of w1 id = commission_of w id)
    by (by apply (rd_outside _ w w1 _ _ Hs1)).
  eapply twp_mono; [apply (IH w2)|].
  - intros id' st' Hin. apply Hf. by right.
  - rewrite Hl2, length_app. simpl. lia.
  - intros _ w3 (Hl3 & Hv3 & Hs3). split_and!.
    + by rewrite Hl3, Hl2, <- app_assoc.
    + intros id' Hid'. destruct (decide (id' ∈ cs.*1)) as [Hin|Hin].
      * rewrite Hv3 by done. by rewrite Hc.
      * assert (id' = id) as -> by set_solver.
        rewrite (view_outside _ w2 w3 _ Hs3); [by rewrite Hv, Hc1| |done].
        apply not_set_and_views; [apply _|done].
    + apply (same_outside_trans _ w w2 w3 Hw2). eapply same_outside_mono, Hs3.
      intros o. apply set_and_views_cons.
Qed.

(** ** The membership bits *)
Section bits.
Implicit Types (w : World) (id : u64).

Lemma testbit_wrap (z : Z) j : 0 <= j < 256 -> Z.testbit (wrap 256 z) j = Z.testbit z j.
Proof. intros Hj. rewrite uval_wrap. apply Z.mod_pow2_bits_low. simpl. lia. Qed.

Lemma low_bits_range id : 0 <= Z.land id 0xFF < 256.
Proof. change 0xFF with (Z.ones 8). rewrite Z.land_ones by lia. apply Z.mod_pos_bound. lia. Qed.

(** The bucket and the low bits determine a validator id. *)
Lemma bucket_inj id id' :
  OValBitset #(Z.shiftr id 8) = OValBitset #(Z.shiftr id' 8) ->
  Z.land id 0xFF = Z.land id' 0xFF -> id = id'.
Proof.
  intros Eb El. assert (E : wrap 64 (Z.shiftr id 8) = wrap 64 (Z.shiftr id' 8)) by congruence.
  apply (f_equal uval) in E. rewrite !uval_wrap in E.
  pose proof (uword_range id). pose proof (uword_range id').
  rewrite !Z.shiftr_div_pow2 in E by lia. change (2 ^ 8) with 256 in *.
  assert (forall x : u64, 0 <= x / 256 < modulus 64).
  { intros x. pose proof (uword_range x). split; [apply Z.div_pos; lia|].
    apply Z.div_lt_upper_bound; lia. }
  rewrite !Z.mod_small in E by done.
  change 0xFF with (Z.ones 8) in El. rewrite !Z.land_ones in El by lia. change (2 ^ 8) with 256 in El.
  apply uval_inj. rewrite (Z.div_mod id 256), (Z.div_mod id' 256) by lia. lia.
Qed.

(** Writing a bucket that differs in the bit of [y] only. *)
Lemma in_bitset_write w (y : u64) (x : u256) b id :
  (forall j, 0 <= j < 256 -> Z.testbit x j =
     if decide (j = Z.land y 0xFF) then b else Z.testbit (rd w (vars.val_bitset_bucket y)) j) ->
  in_bitset (wr w (vars.val_bitset_bucket y) x) id =
  if decide (id = y) then b else in_bitset w id.
Proof.
  intros Hx. unfold in_bitset. pose proof (low_bits_range id).
  destruct (decide (OValBitset #(Z.shiftr y 8) = OValBitset #(Z.shiftr id 8))) as [Eb|Eb].
  - assert (Ev : vars.val_bitset_bucket id = vars.val_bitset_bucket y)
      by (unfold vars.val_bitset_bucket; by rewrite Eb).
    rewrite Ev, rd_wr, Hx by done. case_decide as E1; case_decide as E2; try done.
    + destruct E2. by apply bucket_inj.
    + destruct E1. by rewrite E2.
  - rewrite rd_wr_ne by (apply svar_disjoint; [done..|by left]).
    rewrite decide_False; [done|]. intros ->. by destruct Eb.
Qed.

Lemma run_add_to_valset w y :
  exists w', run (add_to_valset y) w = (ROk (negb (in_bitset w y)), w') /\
    (forall id, in_bitset w' id = if decide (id = y) then true else in_bitset w id) /\
    same_outside (eq (OValBitset #(Z.shiftr y 8))) w w'.
Proof.
  pose proof (low_bits_range y) as Hk. unfold add_to_valset.
  eexists. split; [|split].
  - rewrite run_bind, run_load. cbv zeta. rewrite run_bind, run_store, run_ret.
    do 2 f_equal. unfold in_bitset. rewrite Z.shiftl_1_l.
    set (s := rd w _). set (k := Z.land y 0xFF) in *.
    rewrite uval_wrap_small by (change (modulus 256) with (2 ^ 256);
      split; [lia|apply Z.pow_lt_mono_r; lia]).
    destruct (Z.testbit s k) eqn:Es; cbn [negb].
    + apply Z.eqb_neq. intros E. apply (f_equal (fun z => Z.testbit z k)) in E.
      rewrite Z.land_spec, Es, Z.pow2_bits_true, Z.bits_0 in E by lia. done.
    + apply Z.eqb_eq. apply Z.bits_inj'. intros j Hj. rewrite Z.land_spec, Z.bits_0.
      rewrite Z.pow2_bits_eqb by lia. destruct (Z.eqb_spec k j) as [<-|]; [by rewrite Es|].
      apply andb_false_r.
  - intros id. apply in_bitset_write. intros j Hj.
    rewrite testbit_wrap, Z.lor_spec, testbit_wrap, Z.shiftl_1_l, Z.pow2_bits_eqb by lia.
    case_decide as E.
    + rewrite E, Z.eqb_refl. apply orb_true_r.
    + rewrite (proj2 (Z.eqb_neq _ _)) by lia. apply orb_false_r.
  - apply (wr_outside (T := u256)); done.
Qed.

Lemma run_remove_from_valset w y :
  exists w', run (remove_from_valset y) w = (ROk tt, w') /\
    (forall id, in_bitset w' id = if decide (id = y) then false else in_bitset w id) /\
    same_outside (eq (OValBitset #(Z.shiftr y 8))) w w'.
Proof.
  pose proof (low_bits_range y) as Hk. unfold remove_from_valset.
  eexists. split; [|split].
  - rewrite run_bind, run_load. cbv zeta. apply run_store.
  - intros id. apply in_bitset_write. intros j Hj.
    rewrite testbit_wrap, Z.land_spec, testbit_wrap, Z.lnot_spec, testbit_wrap, Z.shiftl_1_l,
      Z.pow2_bits_eqb by lia.
    case_decide as E.
    + rewrite E, Z.eqb_refl. apply andb_false_r.
    + rewrite (proj2 (Z.eqb_neq _ _)) by lia. apply andb_true_r.
  - apply (wr_outside (T := u256)); done.
Qed.
End bits.

(** ** Pop-and-swap removal *)
Definition swap_remove (l : list u64) (i : nat) : list u64 :=
  match last l with
  | None => l
  | Some x => <[i:=x]> (take (length l - 1) l)
  end.

Section swap_remove.
Implicit Types (l : list u64) (i : nat).

Lemma swap_remove_snoc l x i : swap_remove (l ++ [x]) i = <[i:=x]> l.
Proof.
  unfold swap_remove. rewrite last_snoc, length_app. simpl. f_equal.
  replace (length l + 1 - 1)%nat with (length l) by lia. by rewrite take_app_length.
Qed.

(** The element at [i], and only it, is gone. *)
Lemma swap_remove_perm l i y : l !! i = Some y -> l ≡ₚ y :: swap_remove l i.
Proof.
  destruct l as [|x l _] using rev_ind; [done|]. rewrite swap_remove_snoc. intros Hi.
  destruct (decide (i < length l)%nat) as [Hlt|Hge].
  - rewrite lookup_app_l in Hi by done. rewrite (Permutation_app_comm l [x]). simpl.
    rewrite insert_take_drop by done. rewrite <- (take_drop_middle l i y Hi) at 1.
    rewrite <- !Permutation_middle. apply perm_swap.
  - pose proof (lookup_lt_Some _ _ _ Hi) as HL. rewrite length_app in HL. simpl in HL.
    assert (i = length l) as -> by lia. rewrite list_lookup_middle in Hi by done.
    injection Hi as ->. rewrite list_insert_ge by lia. by rewrite (Permutation_app_comm l [y]).
Qed.

Lemma swap_remove_below l i k :
  (k < i)%nat -> (i < length l)%nat -> swap_remove l i !! k = l !! k.
Proof.
  destruct l as [|x l _] using rev_ind; [done|]. rewrite swap_remove_snoc, length_app.
  simpl. intros Hk Hi. rewrite list_lookup_insert_ne by lia. by rewrite lookup_app_l by lia.
Qed.

Lemma length_swap_remove l i : length (swap_remove l i) = (length l - 1)%nat.
Proof.
  destruct l as [|x l _] using rev_ind; [done|].
  rewrite swap_remove_snoc, length_insert, length_app. simpl. lia.
Qed.
End swap_remove.

(** What the removals touch. *)
Definition execution_part (o : object) : Prop :=
  o = OValset ValsetExecution \/ exists b, o = OValBitset b.

Lemma twp_remove_one (i : nat) y rest Q w :
  valset_of w ValsetExecution !! i = Some y ->
  (forall w', valset_of w' ValsetExecution = swap_remove (valset_of w ValsetExecution) i ->
     (forall id, in_bitset w' id = if decide (id = y) then false else in_bitset w id) ->
     same_outside execution_part w w' -> twp (process_removals rest) Q w') ->
  twp (process_removals (as_index i :: rest)) Q w.
Proof.
  intros Hi HQ. pose proof (lookup_lt_Some _ _ _ Hi) as Hlt.
  pose proof (arr_len_bound w ValsetExecution) as Hb.
  cbn [process_removals]. unfold vars.valset_execution, as_index. cbv zeta. tsteps.
  rewrite (valset_lookup w _ i y Hi).
  destruct (run_remove_from_valset w y) as (w1 & Hr & Hbits & Hs1).
  eapply twp_run; [exact Hr|]. tsteps.
  assert (Hl1 : valset_of w1 ValsetExecution = valset_of w ValsetExecution)
    by (by apply (valset_outside _ w w1 _ Hs1)).
  destruct (valset_of w ValsetExecution) as [|x l _] eqn:El using rev_ind; [done|].
  apply (twp_pop ValsetExecution l x); [done|]. intros w2 Hl2 Hs2. tsteps.
  rewrite length_app in *. simpl in *. apply HQ.
  - rewrite valset_store by lia. by rewrite Hl2, swap_remove_snoc.
  - intros id. rewrite <- Hbits. unfold in_bitset. rewrite sa_get_valset.
    rewrite rd_wr_ne by sv_disj. unfold vars.val_bitset_bucket.
    by rewrite (rd_outside _ w1 w2 _ _ Hs2).
  - apply (same_outside_trans _ w w1), (same_outside_trans _ w1 w2);
      [eapply same_outside_mono, Hs1|eapply same_outside_mono, Hs2|].
    + intros o <-. right. eauto.
    + intros o <-. by left.
    + rewrite sa_get_valset. apply (wr_outside (T := u64)); [by left|slot_bound..].
Qed.

(** Removing at descending positions removes exactly the elements that were
    there in the first place. *)
Lemma twp_process_removals (idx : list nat) : forall w E,
  valset_of w ValsetExecution = E -> StronglySorted (fun i j => j < i)%nat idx ->
  forall ys, Forall2 (fun i y => E !! i = Some y) idx ys ->
  twp (process_removals (as_index <$> idx)) (fun _ w' =>
    E ≡ₚ ys ++ valset_of w' ValsetExecution /\
    (forall id, in_bitset w' id = if decide (id ∈ ys) then false else in_bitset w id) /\
    same_outside execution_part w w') w.
Proof.
  induction idx as [|i idx IH]; intros w E HE Hs ys Hys.
  { apply Forall2_nil_inv_l in Hys as ->. apply twp_ret. rewrite HE.
    split_and!; [done|by intros id|apply same_outside_refl]. }
  apply Forall2_cons_inv_l in Hys as (y & ys' & Hy & Hys & ->).
  apply StronglySorted_inv in Hs as [Hs Hlt].
  rewrite fmap_cons. apply (twp_remove_one i y); [by rewrite HE|].
  intros w1 Hl1 Hb1 Hs1. rewrite HE in Hl1.
  eapply twp_mono; [apply (IH w1 _ Hl1 Hs ys')|].
  - pose proof (lookup_lt_Some _ _ _ Hy).
    apply Forall2_same_length_lookup_2; [by eapply Forall2_length|].
    intros k j y' Hj Hy'. rewrite swap_remove_below; [|by apply (Forall_lookup_1 _ _ _ _ Hlt Hj)|done].
    by apply (Forall2_lookup_lr _ _ _ _ _ _ Hys Hj Hy').
  - intros _ w2 (Hp & Hb2 & Hs2). split_and!.
    + rewrite (swap_remove_perm E i y Hy), Hp. done.
    + intros id. rewrite Hb2, Hb1. clear. destruct (decide (id ∈ ys')) as [Hin|Hin].
      * rewrite decide_True by (by right). done.
      * destruct (decide (id = y)) as [->|Hne].
        -- rewrite decide_True by (by left). done.
        -- rewrite decide_False; [done|]. by intros [?|?]%elem_of_cons.
    + by apply (same_outside_trans _ w w1 w2).
Qed.

(** ** Positions of the removals *)
Lemma removals_of_spec w l : forall pre,
  Forall2 (fun i y => (pre ++ l) !! i = Some y) (removals_of w (length pre) l)
    (filter (fun id => ~ eligible w id) l) /\
  StronglySorted lt (removals_of w (length pre) l) /\
  Forall (fun i => length pre <= i)%nat (removals_of w (length pre) l).
Proof.
  induction l as [|x l IH]; intros pre; cbn [removals_of]; [split_and!; constructor|].
  destruct (IH (pre ++ [x])) as (Hf & Hs & Hg). rewrite <- app_assoc, length_app in *. simpl in *.
  rewrite Nat.add_1_r in *. rewrite filter_cons.
  assert (Hg' : Forall (fun i => length pre <= i)%nat (removals_of w (S (length pre)) l)).
  { eapply Forall_impl; [exact Hg|]. simpl. lia. }
  destruct (decide (eligible w x)) as [He|He].
  - rewrite decide_False by (intros Hn; by apply Hn). done.
  - rewrite decide_True by done. split_and!.
    + constructor; [by apply list_lookup_middle|done].
    + constructor; [done|]. eapply Forall_impl; [exact Hg|]. simpl. lia.
    + constructor; [lia|done].
Qed.

Lemma StronglySorted_reverse {A} (R : relation A) l :
  StronglySorted R l -> StronglySorted (flip R) (reverse l).
Proof.
  induction 1 as [|x l Hs IH Hx]; [constructor|]. rewrite reverse_cons. apply StronglySorted_app_2.
  - intros y z Hy ->%list_elem_of_singleton. rewrite elem_of_reverse in Hy.
    rewrite Forall_forall in Hx. exact (Hx y Hy).
  - done.
  - repeat constructor.
Qed.

(** ** The selection *)

(** [a] ranks at least as high as [b]: more stake, or as much and a lower id. *)
Definition ranks (a b : Candidate) : Prop :=
  b.2 < a.2 \/ (uval a.2 = b.2 /\ a.1 <= b.1).

Lemma cand_le_ranks a b : cand_le a b <-> ranks a b.
Proof.
  unfold cand_le, cmp, ranks. destruct (weqb_spec b.2 a.2) as [E|E]; cbn [negb].
  - rewrite E, Z.ltb_ge. lia.
  - rewrite Z.ltb_ge. assert (uval b.2 <> a.2) by (intros E'%uval_inj; done). lia.
Qed.

#[export] Instance cand_le_total : Total cand_le.
Proof. intros a b. rewrite !cand_le_ranks. unfold ranks. lia. Qed.
#[export] Instance cand_le_trans : Transitive cand_le.
Proof. intros a b c. rewrite !cand_le_ranks. unfold ranks. lia. Qed.

(** [sel] are the [n] highest-ranking candidates, in order. *)
Definition top_of (n : nat) (cands sel : list Candidate) : Prop :=
  exists rest, cands ≡ₚ sel ++ rest /\ length sel = Nat.min n (length cands) /\
    StronglySorted ranks sel /\ forall a b, a ∈ sel -> b ∈ rest -> ranks a b.

Lemma StronglySorted_weaken {A} (R R' : relation A) l :
  (forall x y, R x y -> R' x y) -> StronglySorted R l -> StronglySorted R' l.
Proof.
  intros HR. induction 1 as [|x l Hs IH Hx]; constructor; [done|].
  eapply Forall_impl; [exact Hx|]. auto.
Qed.

Lemma partial_sort_top n cands :
  top_of n cands (partial_sort (Nat.min (length cands) n) cands).
Proof.
  unfold partial_sort. set (m := Nat.min _ n). set (s := merge_sort cand_le cands).
  pose proof (merge_sort_Permutation cand_le cands) as Hp. fold s in Hp.
  pose proof (StronglySorted_merge_sort cand_le cands) as Hs. fold s in Hs.
  rewrite <- (take_drop m s) in Hs. apply StronglySorted_app in Hs as (Hlt & Hs1 & _).
  exists (drop m s). split_and!.
  - by rewrite take_drop.
  - rewrite length_take, (Permutation_length Hp). lia.
  - eapply StronglySorted_weaken, Hs1. intros a b. apply cand_le_ranks.
  - intros a b Ha Hb. apply cand_le_ranks. by apply Hlt.
Qed.

(** ** The whole system call *)

(** What the call may write, from the world it starts in and the new consensus set. *)
Definition snapshot_writes (w : World) (consensus : list u64) (o : object) : Prop :=
  match o with
  | OInBoundary | OValset _ | OValBitset _ => True
  | OConsensusStake id => id ∈ valset_of w ValsetConsensus \/ id ∈ consensus
  | OSnapshotStake id => id ∈ valset_of w ValsetSnapshot \/ id ∈ valset_of w ValsetConsensus
  | _ => False
  end.

Record snapshot_result (w w' : World) : Prop := {
  sr_delay : rd w' vars.in_epoch_delay_period = true;
  (** the consensus set becomes the snapshot set, *)
  sr_snapshot : valset_of w' ValsetSnapshot = valset_of w ValsetConsensus;
  sr_snapshot_view : forall id, id ∈ valset_of w ValsetConsensus ->
    view_of w' (vars.snapshot_view id) = view_of w (vars.consensus_view id);
  sr_snapshot_out : forall id, id ∈ valset_of w ValsetSnapshot ->
    id ∉ valset_of w ValsetConsensus -> view_of w' (vars.snapshot_view id) = (#0, #0);
  (** the selected candidates become the consensus set, *)
  sr_consensus : valset_of w' ValsetConsensus =
    (partial_sort (Nat.min (length (candidates_of w (valset_of w ValsetExecution))) 200)
      (candidates_of w (valset_of w ValsetExecution))).*1;
  sr_consensus_view : forall id, id ∈ valset_of w' ValsetConsensus ->
    view_of w' (vars.consensus_view id) = (stake_of w id, commission_of w id);
  sr_consensus_out : forall id, id ∈ valset_of w ValsetConsensus ->
    id ∉ valset_of w' ValsetConsensus -> view_of w' (vars.consensus_view id) = (#0, #0);
  (** and the others leave the execution set. *)
  sr_execution : valset_of w ValsetExecution ≡ₚ
    reverse (filter (fun id => ~ eligible w id) (valset_of w ValsetExecution)) ++
    valset_of w' ValsetExecution;
  sr_bits : forall id, in_bitset w' id =
    if decide (id ∈ reverse (filter (fun id => ~ eligible w id) (valset_of w ValsetExecution)))
    then false else in_bitset w id;
  sr_frame : same_outside (snapshot_writes w (valset_of w' ValsetConsensus)) w w';
}.

(** Everything the first four phases leave alone. *)
Lemma execution_outside O w w' :
  same_outside O w w' -> (forall id, ~ O (OValExecution id)) ->
  (forall id, stake_of w' id = stake_of w id) /\ (forall id, commission_of w' id = commission_of w id) /\
  (forall id, eligible w' id <-> eligible w id).
Proof.
  intros Hs Ho. unfold stake_of, commission_of, eligible, flags_of. unfold_vars.
  split_and!; intros id;
    rewrite (rd_outside O w w' (OValExecution id)) by (first [done | apply Ho]); done.
Qed.

Lemma candidates_outside O w w' l :
  same_outside O w w' -> (forall id, ~ O (OValExecution id)) ->
  candidates_of w' l = candidates_of w l /\ removals_of w' 0 l = removals_of w 0 l.
Proof.
  intros Hs Ho. destruct (execution_outside O w w' Hs Ho) as (Hst & _ & He). split.
  - unfold candidates_of. rewrite (list_filter_iff (eligible w') (eligible w)) by done.
    apply list_fmap_ext. intros _ id _. by rewrite Hst.
  - generalize 0%nat. induction l as [|id l IH]; intros i; [done|]. cbn [removals_of].
    destruct (decide (eligible w' id)) as [H|H]; rewrite He in H;
      [rewrite decide_True by done|rewrite decide_False by done]; by rewrite IH.
Qed.

(** The objects the first three phases write: [S] and [C] are the snapshot and the
    consensus set before them. *)
Definition views_only (S C : list u64) (o : object) : Prop :=
  match o with
  | OValset ValsetConsensus | OValset ValsetSnapshot => True
  | OConsensusStake id => id ∈ C
  | OSnapshotStake id => id ∈ S \/ id ∈ C
  | _ => False
  end.

Lemma snapshot_part_views S C l o : (forall id, id ∈ l -> id ∈ S \/ id ∈ C) -> snapshot_part l o -> views_only S C o.
Proof. intros H [->|(id & Hid & ->)]; [done|by apply H]. Qed.
Lemma consensus_part_views S C o : consensus_part C o -> views_only S C o.
Proof. by intros [->|(id & Hid & ->)]. Qed.

Record rotated (w w' : World) : Prop := {
  ro_snapshot : valset_of w' ValsetSnapshot = valset_of w ValsetConsensus;
  ro_snapshot_view : forall id, id ∈ valset_of w ValsetConsensus ->
    view_of w' (vars.snapshot_view id) = view_of w (vars.consensus_view id);
  ro_snapshot_out : forall id, id ∈ valset_of w ValsetSnapshot ->
    id ∉ valset_of w ValsetConsensus -> view_of w' (vars.snapshot_view id) = (#0, #0);
  ro_consensus : valset_of w' ValsetConsensus = [];
  ro_consensus_out : forall id, id ∈ valset_of w ValsetConsensus ->
    view_of w' (vars.consensus_view id) = (#0, #0);
  ro_frame : same_outside (views_only (valset_of w ValsetSnapshot) (valset_of w ValsetConsensus)) w w';
}.

(** Phases 1 to 3: throw out the snapshot view, copy the consensus view to it,
    throw out the consensus view. *)
Lemma twp_rotate {A} (k : P A) Q w :
  (forall w', rotated w w' -> twp k Q w') ->
  twp (throw_out_view vars.valset_snapshot vars.snapshot_view ;;
       len <- sa_length vars.valset_consensus ;;
       for_range 0 (Z.to_nat len) copy_view ;;
       throw_out_view vars.valset_consensus vars.consensus_view ;; k) Q w.
Proof.
  intros Hk. set (C := valset_of w ValsetConsensus).
  apply twp_bind. eapply twp_mono; [apply (twp_throw_out ValsetSnapshot vars.snapshot_view)|].
  intros _ w1 (Hl1 & Hv1 & Hs1).
  assert (HC1 : valset_of w1 ValsetConsensus = C)
    by (apply (valset_outside _ w w1 _ Hs1), set_and_views_valset; [apply _|done]).
  unfold sa_length, vars.valset_consensus, vars.valset_snapshot. tsteps.
  fold (arr_len w1 (vars.valset ValsetConsensus)). rewrite <- arr_len_length, Nat2Z.id, HC1.
  eapply twp_mono; [apply (twp_copy C (length C) 0 w1); [lia|done|by rewrite Hl1]|].
  rewrite drop_0. intros _ w2 (Hl2 & Hv2 & Hs2). rewrite Hl1 in Hl2. simpl in Hl2.
  assert (HC2 : valset_of w2 ValsetConsensus = C).
  { rewrite <- HC1. apply (valset_outside _ w1 w2 _ Hs2), set_and_views_valset; [apply _|done]. }
  apply twp_bind.
  eapply twp_mono; [apply (twp_throw_out ValsetConsensus vars.consensus_view)|].
  rewrite HC2. intros _ w3 (Hl3 & Hv3 & Hs3).
  assert (Hsnap : forall id, view_of w3 (vars.snapshot_view id) = view_of w2 (vars.snapshot_view id)).
  { intros id. apply (view_outside _ w2 w3 _ Hs3); [|done]. intros [[=]|(? & _ & [=])]. }
  apply Hk. split; fold C.
  - rewrite (valset_outside _ w2 w3 _ Hs3); [done|]. apply set_and_views_valset; [apply _|done].
  - intros id Hid. rewrite Hsnap, Hv2 by done.
    apply (view_outside _ w w1 _ Hs1); [apply snapshot_part_consensus|done].
  - intros id Hid Hout. rewrite Hsnap, (view_outside _ w1 w2 _ Hs2); [by apply Hv1| |done].
    apply not_set_and_views; [apply _|done].
  - done.
  - done.
  - apply (same_outside_trans _ w w1), (same_outside_trans _ w1 w2);
      [eapply same_outside_mono, Hs1|eapply same_outside_mono, Hs2|eapply same_outside_mono, Hs3];
      [intros o; apply snapshot_part_views; auto..|apply consensus_part_views].
Qed.

Lemma in_bitset_outside O w w' id :
  same_outside O w w' -> (forall b, ~ O (OValBitset b)) -> in_bitset w' id = in_bitset w id.
Proof.
  intros Hs Ho. unfold in_bitset, vars.val_bitset_bucket.
  by rewrite (rd_outside O w w' _ _ Hs (Ho _)).
Qed.

(** Phase 5, after the rotation. *)
Record selected (w w' : World) (sel : list Candidate) : Prop := {
  se_rotated : exists w3, rotated w w3 /\ same_outside (consensus_part sel.*1) w3 w';
  se_consensus : valset_of w' ValsetConsensus = sel.*1;
  se_view : forall id, id ∈ sel.*1 ->
    view_of w' (vars.consensus_view id) = (stake_of w id, commission_of w id);
}.

Lemma twp_select w w3 (cands := candidates_of w (valset_of w ValsetExecution))
    (sel := partial_sort (Nat.min (length cands) 200) cands) :
  rotated w w3 -> twp (push_consensus sel) (fun _ w' => selected w w' sel) w3.
Proof.
  intros R. destruct (partial_sort_top 200 cands) as (rest & Hperm & Hlen & _). fold sel in Hperm, Hlen.
  destruct (execution_outside _ w w3 (ro_frame _ _ R) ltac:(by intros id [])) as (Hst & Hco & _).
  eapply twp_mono; [apply (twp_push_consensus (stake_of w) sel)|].
  - intros id st Hin. assert (Hc : (id, st) ∈ cands) by (rewrite Hperm; set_solver).
    apply list_elem_of_fmap in Hc as (id' & [= -> ->] & _). done.
  - rewrite (ro_consensus _ _ R), Hlen. simpl length. lia.
  - rewrite (ro_consensus _ _ R). simpl app. intros _ w4 (Hl4 & Hv4 & Hs4). split; [eauto|done|].
    intros id Hid. rewrite Hv4 by done. by rewrite Hco.
Qed.

Lemma valset_delay w v b : valset_of (wr w vars.in_epoch_delay_period b) v = valset_of w v.
Proof.
  apply (valset_outside (eq OInBoundary) w); [|done]. by apply (wr_outside (T := bool)).
Qed.

(** Phase 6 and the end. *)
Lemma finish_snapshot w w4 w5 (cands := candidates_of w (valset_of w ValsetExecution))
    (sel := partial_sort (Nat.min (length cands) 200) cands)
    (out := reverse (filter (fun id => ~ eligible w id) (valset_of w ValsetExecution))) :
  selected w w4 sel ->
  valset_of w ValsetExecution ≡ₚ out ++ valset_of w5 ValsetExecution ->
  (forall id, in_bitset w5 id = if decide (id ∈ out) then false else in_bitset w4 id) ->
  same_outside execution_part w4 w5 ->
  snapshot_result w (wr w5 vars.in_epoch_delay_period true).
Proof.
  intros [(w3 & R & Hs4) Hcons Hview] Hperm Hbits Hs5. set (w6 := wr w5 _ _).
  assert (Hs6 : same_outside (fun o => execution_part o \/ o = OInBoundary) w4 w6).
  { apply (same_outside_trans _ w4 w5); [eapply same_outside_mono, Hs5; by left|].
    unfold w6, vars.in_epoch_delay_period. apply (wr_outside (T := bool)); [by right|done..]. }
  assert (Hview6 : forall view id, ViewOf view ->
    (forall b, view id <> OValBitset b) -> view id <> OInBoundary ->
    view_of w6 (view id) = view_of w4 (view id)).
  { intros view id V Hb Hi. apply (view_outside _ w4 w6 _ Hs6); [|apply view_capacity].
    intros [[E|[b E]]|E]; [by apply view_valset in E|by apply Hb in E|done]. }
  assert (Hset6 : forall v, v <> ValsetExecution -> valset_of w6 v = valset_of w4 v).
  { intros v Hv. apply (valset_outside _ w4 w6 _ Hs6). intros [[[=]|[b [=]]]|[=]]. done. }
  assert (Hsnap4 : forall id, view_of w4 (vars.snapshot_view id) = view_of w3 (vars.snapshot_view id)).
  { intros id. apply (view_outside _ w3 w4 _ Hs4); [|done]. intros [[=]|(? & _ & [=])]. }
  split.
  - unfold w6. apply rd_wr.
  - rewrite Hset6 by done. rewrite (valset_outside _ w3 w4 _ Hs4); [apply R|].
    by intros [[=]|(? & _ & [=])].
  - intros id Hid. rewrite Hview6, Hsnap4 by (done || apply _). by apply R.
  - intros id Hin Hout. rewrite Hview6, Hsnap4 by (done || apply _). by apply R.
  - by rewrite Hset6, Hcons by done.
  - intros id. rewrite Hset6, Hcons by done. intros Hid. rewrite Hview6 by (done || apply _). auto.
  - intros id Hin. rewrite Hset6, Hcons by done. intros Hout. rewrite Hview6 by (done || apply _).
    rewrite (view_outside _ w3 w4 _ Hs4); [apply (ro_consensus_out _ _ R id Hin)| |apply view_capacity].
    exact (not_set_and_views _ _ _ _ Hout).
  - fold out. unfold w6. by rewrite valset_delay.
  - intros id. unfold w6, in_bitset at 1. rewrite rd_wr_ne by sv_disj. fold (in_bitset w5 id).
    rewrite Hbits. fold out. destruct (decide (id ∈ out)); [reflexivity|].
    rewrite (in_bitset_outside _ w3 w4 id Hs4) by (by intros b [[=]|(? & _ & [=])]).
    apply (in_bitset_outside _ w w3 id (ro_frame _ _ R)). intros b [].
  - apply (same_outside_trans _ w w3), (same_outside_trans _ w3 w4);
      [eapply same_outside_mono, (ro_frame _ _ R)|eapply same_outside_mono, Hs4
      |eapply same_outside_mono, Hs6].
    + intros o. destruct o as [| | | |v| | | | | | | | |]; try destruct v; simpl; tauto.
    + rewrite Hset6, Hcons by done. intros o [->|(id & Hid & ->)]; [done|by right].
    + intros o [[->|[b ->]] | ->]; exact I.
Qed.

(** The call succeeds, in every world outside the delay period. *)
Lemma snapshot_spec w :
  rd w vars.in_epoch_delay_period = false ->
  twp (syscall_snapshot [] #0) (fun _ w' => snapshot_result w w') w.
Proof.
  intros Hd. unfold syscall_snapshot, require_empty, require_not.
  apply twp_bind, twp_fail_if; [done|]. apply twp_bind, twp_fail_if; [done|].
  tsteps. rewrite Hd. apply twp_fail_if; [done|]. apply twp_rotate. intros w3 R.
  pose proof (ro_frame _ _ R) as Hs3.
  assert (HE : valset_of w3 ValsetExecution = valset_of w ValsetExecution)
    by (apply (valset_outside _ w w3 _ Hs3); by intros []).
  destruct (candidates_outside _ w w3 (valset_of w ValsetExecution) Hs3 ltac:(by intros id []))
    as [Hcand Hrem].
  unfold sa_length, vars.valset_execution. tsteps.
  fold (arr_len w3 (vars.valset ValsetExecution)). rewrite <- arr_len_length, Nat2Z.id.
  eapply twp_run; [apply (run_scan w3 _ 0); lia|]. rewrite drop_0, HE, Hcand, Hrem.
  simpl app. change (Z.to_nat limits.active_valset_size) with 200%nat. apply twp_bind.
  eapply twp_mono; [apply (twp_select w w3 R)|]. intros [] w4 Hsel.
  assert (HE4 : valset_of w4 ValsetExecution = valset_of w ValsetExecution).
  { destruct (se_rotated _ _ _ Hsel) as (w3' & R' & Hs4).
    rewrite (valset_outside _ w3' w4 _ Hs4) by (by intros [[=]|(? & _ & [=])]).
    apply (valset_outside _ w w3' _ (ro_frame _ _ R')). by intros []. }
  destruct (removals_of_spec w (valset_of w ValsetExecution) []) as (Hf & Hsort & _).
  simpl length in *. simpl app in Hf. rewrite <- fmap_reverse. apply twp_bind.
  eapply twp_mono; [apply (twp_process_removals _ w4 _ HE4)|].
  - by apply StronglySorted_reverse.
  - by apply Forall2_reverse.
  - intros _ w5 (Hperm & Hbits & Hs5). tsteps. by apply (finish_snapshot w w4 w5).
Qed.

(** ** Theorems *)
Lemma execution_kept w w' : snapshot_result w w' ->
  valset_of w' ValsetExecution ≡ₚ filter (eligible w) (valset_of w ValsetExecution).
Proof.
  intros R. pose proof (sr_execution _ _ R) as Hp. set (l := valset_of w ValsetExecution) in *.
  assert (Hsplit : l ≡ₚ filter (fun id => ~ eligible w id) l ++ filter (eligible w) l).
  { clear. induction l as [|x l IH]; [done|]. rewrite !filter_cons.
    destruct (decide (eligible w x)) as [He|He].
    - rewrite decide_False by (intros Hn; exact (Hn He)). by rewrite <- Permutation_middle, <- IH.
    - rewrite decide_True by exact He. simpl. by rewrite <- IH. }
  apply (Permutation_app_inv_l (reverse (filter (fun id => ~ eligible w id) l))).
  rewrite <- Hp. rewrite Hsplit at 1. by rewrite reverse_Permutation.
Qed.

(** C8: the snapshot selects the next consensus set.  Outside the delay period
    the call always succeeds, whatever the validator sets hold; the new
    consensus set is the (at most) 200 eligible validators of the execution set
    with the most stake, ties broken by the lower id, in that order, and its view
    records their stake and commission at that moment. *)
Theorem snapshot_selects_top w :
  rd w vars.in_epoch_delay_period = false ->
  exists w' sel, run (syscall_snapshot [] #0) w = (ROk tt, w') /\
    top_of 200 (candidates_of w (valset_of w ValsetExecution)) sel /\
    valset_of w' ValsetConsensus = sel.*1 /\
    forall id, id ∈ sel.*1 ->
      view_of w' (vars.consensus_view id) = (stake_of w id, commission_of w id).
Proof.
  intros Hd. destruct (snapshot_spec w Hd) as ([] & w' & Hr & R).
  eexists w', _. split_and!; [exact Hr|apply partial_sort_top|exact (sr_consensus _ _ R)|].
  intros id. rewrite <- (sr_consensus _ _ R). apply (sr_consensus_view _ _ R).
Qed.

(** C11: the snapshot rotates the sets.  The former consensus set with its stakes
    and commissions becomes the snapshot set, and a validator of the former snapshot
    set that is not in it has an empty snapshot view; validators of the new consensus
    set have their stake and commission in its view, those that left it an empty
    view; the execution set keeps exactly its eligible validators and the membership
    bits of the others are cleared; the delay period begins.  Nothing else of the
    storage changes: no slot of any variable but the arrays and the bits of the sets,
    the delay flag, the consensus views of members of the old or new consensus set
    and the snapshot views of members of the old snapshot or consensus set. *)
Theorem snapshot_rotates w :
  rd w vars.in_epoch_delay_period = false ->
  exists w', run (syscall_snapshot [] #0) w = (ROk tt, w') /\
    rd w' vars.in_epoch_delay_period = true /\
    valset_of w' ValsetSnapshot = valset_of w ValsetConsensus /\
    (forall id, id ∈ valset_of w ValsetConsensus ->
       view_of w' (vars.snapshot_view id) = view_of w (vars.consensus_view id)) /\
    (forall id, id ∈ valset_of w ValsetSnapshot -> id ∉ valset_of w ValsetConsensus ->
       view_of w' (vars.snapshot_view id) = (#0, #0)) /\
    (forall id, id ∈ valset_of w' ValsetConsensus ->
       view_of w' (vars.consensus_view id) = (stake_of w id, commission_of w id)) /\
    (forall id, id ∈ valset_of w ValsetConsensus -> id ∉ valset_of w' ValsetConsensus ->
       view_of w' (vars.consensus_view id) = (#0, #0)) /\
    valset_of w' ValsetExecution ≡ₚ filter (eligible w) (valset_of w ValsetExecution) /\
    (forall id, in_bitset w' id = in_bitset w id &&
       bool_decide (~ (id ∈ valset_of w ValsetExecution /\ ~ eligible w id))) /\
    (forall o i, 0 <= i < capacity o -> match o with
       | OInBoundary | OValset _ | OValBitset _ => False
       | OConsensusStake id => (id ∉ valset_of w ValsetConsensus) /\ (id ∉ valset_of w' ValsetConsensus)
       | OSnapshotStake id => (id ∉ valset_of w ValsetSnapshot) /\ (id ∉ valset_of w ValsetConsensus)
       | _ => True end ->
       slot w' STAKING_CA (skey o i) = slot w STAKING_CA (skey o i)).
Proof.
  intros Hd. destruct (snapshot_spec w Hd) as ([] & w' & Hr & R). exists w'.
  split_and!; [exact Hr|apply R|apply R|apply R|apply R|apply R|apply R|by apply execution_kept|..].
  - intros id. rewrite (sr_bits _ _ R). case_decide as E;
      rewrite elem_of_reverse, list_elem_of_filter in E.
    + rewrite bool_decide_eq_false_2, andb_false_r; [done|]. intros Hn. apply Hn. tauto.
    + rewrite bool_decide_eq_true_2, andb_true_r; [done|tauto].
  - intros o i Hi Ho. apply (sr_frame _ _ R); [|done]. destruct o; simpl in *; tauto.
Qed.

(** Three validators of the execution set, the second with the most stake, the
    third withdrawn. *)
Module snapshot_demo.
Definition enlist (id : u64) (stake : u256) (flags : u64) : P unit :=
  _ <- add_to_valset id ;;
  sa_push vars.valset_execution id ;;
  store (ValExecution.stake (vars.val_execution id)) stake ;;
  store (ValExecution.address_flags (vars.val_execution id)) (mk_af #7 flags).
Definition staked : World :=
  snd (run (enlist #1 #500 #0 ;; enlist #2 #900 #0 ;; enlist #3 #999 #2) (mk_world ∅ ∅ [] [])).
End snapshot_demo.
Import snapshot_demo.

Lemma snapshot_selects_top_witness : exists w' sel,
  run (syscall_snapshot [] #0) staked = (ROk tt, w') /\
  top_of 200 [(#1, #500); (#2, #900)] sel /\ valset_of w' ValsetConsensus = sel.*1.
Proof.
  destruct (snapshot_selects_top staked) as (w' & sel & Hr & Ht & Hc & _); [vm_compute; reflexivity|].
  exists w', sel. split; [exact Hr|]. split; [|exact Hc].
  replace (candidates_of _ _) with [(#1 : u64, #500 : u256); (#2, #900)] in Ht
    by (vm_compute; reflexivity).
  exact Ht.
Defined.

Lemma snapshot_rotates_witness : exists w',
  run (syscall_snapshot [] #0) staked = (ROk tt, w') /\
  valset_of w' ValsetExecution ≡ₚ [ #1; #2 ].
Proof.
  destruct (snapshot_rotates staked) as (w' & Hr & _ & _ & _ & _ & _ & _ & He & _);
    [vm_compute; reflexivity|].
  exists w'. split; [exact Hr|].
  replace (filter _ _) with [ #1 : u64; #2 ] in He by (vm_compute; reflexivity).
  exact He.
Defined.
