(* ===== verification/Solvency.v ===== *)
(** * Solvency of the staking contract

    What the contract owes is written in its storage: the active and pending
    stakes and the rewards of every delegator, the amounts of the open
    withdrawal requests and the unclaimed rewards of every validator.
    [liabilities] sums them over the whole storage; [surplus] is the contract's
    balance less that sum.  No operation lowers the surplus, so the contract
    can always pay what it owes. *)
From S2P Require Import Prelude Prog Storage UInt256 Abi StakingVars StakingHelpers StakingList StakingContract StakingSyscalls StakingWp.

(** ** Liabilities *)

(** The slots of an object that hold an amount owed. *)
Definition owed (o : object) (i : Z) : bool :=
  match o with
  | OValExecution _ => i =? 7
  | ODelegator _ _ => (i =? 0) || (i =? 2) || (i =? 3) || (i =? 4)
  | OWithdrawalRequest _ _ _ => i =? 0
  | _ => false
  end.

(** The same, read off the storage key. *)
Definition owed_key (k : bytes32) : bool :=
  let ns := k / 2 ^ 248 in
  if ns =? 9 then k mod 2 ^ 184 =? 7
  else if ns =? 11 then
    let i := k mod 2 ^ 24 in (i =? 0) || (i =? 2) || (i =? 3) || (i =? 4)
  else if ns =? 12 then k mod 2 ^ 16 =? 0
  else false.

Definition owed_term (p : address * bytes32) (v : bytes32) : Z :=
  if (p.1 =w? STAKING_CA) && owed_key p.2 then v else 0.

Definition liabilities (w : World) : Z := msum owed_term (w_storage w).

Definition surplus (w : World) : Z := balance w STAKING_CA - liabilities w.

Definition solvent (w : World) : Prop := 0 <= surplus w.

Lemma owed_skey o i : 0 <= i < capacity o -> owed_key (skey o i) = owed o i.
Proof.
  intros Hi. unfold owed_key. rewrite skey_eq by done.
  pose proof (key_index_range o i Hi).
  assert (En : (namespace o * 2 ^ 248 + (key_index o + i)) / 2 ^ 248 = namespace o).
  { rewrite Z.add_comm, Z.div_add by lia. rewrite Z.div_small; lia. }
  rewrite En. clear En.
  destruct o as [| | | |[]| | | | | | | | |]; cbn [namespace key_index capacity owed] in *; try done; simpl (_ =? _) in |- *; cbv match.
  - replace ((9 * 2 ^ 248 + (id * 2 ^ 184 + i)) mod 2 ^ 184) with i; [done|].
    replace (9 * 2 ^ 248 + (id * 2 ^ 184 + i)) with (i + (9 * 2 ^ 64 + id) * 2 ^ 184) by lia.
    rewrite Z.mod_add by lia. rewrite Z.mod_small; lia.
  - replace ((11 * 2 ^ 248 + (id * 2 ^ 184 + a * 2 ^ 24 + i)) mod 2 ^ 24) with i; [done|].
    replace (11 * 2 ^ 248 + (id * 2 ^ 184 + a * 2 ^ 24 + i))
      with (i + (11 * 2 ^ 224 + id * 2 ^ 160 + a) * 2 ^ 24) by lia.
    rewrite Z.mod_add by lia. rewrite Z.mod_small; lia.
  - set (wid := uval withdrawal_id).
    replace ((12 * 2 ^ 248 + (id * 2 ^ 184 + a * 2 ^ 24 + wid * 2 ^ 16 + i)) mod 2 ^ 16) with i; [done|].
    replace (12 * 2 ^ 248 + (id * 2 ^ 184 + a * 2 ^ 24 + wid * 2 ^ 16 + i))
      with (i + (12 * 2 ^ 232 + id * 2 ^ 168 + a * 2 ^ 8 + wid) * 2 ^ 16) by lia.
    rewrite Z.mod_add by lia. rewrite Z.mod_small; lia.
Qed.

Lemma owed_term_nonneg p v : 0 <= owed_term p v.
Proof. unfold owed_term. pose proof (uword_range v). destruct (_ && _); lia. Qed.

Lemma liabilities_set_slot w k v :
  liabilities (set_slot w STAKING_CA k v) =
  liabilities w + if owed_key k then v - slot w STAKING_CA k else 0.
Proof.
  unfold liabilities, set_slot, slot. cbn [w_storage]. rewrite msum_insert.
  unfold owed_term at 2 3. cbn [fst snd]. rewrite weqb_refl. cbn [andb].
  destruct (owed_key k), (w_storage w !! (STAKING_CA, k)); simpl; rewrite ?uval_wrap_0; lia.
Qed.

(** The liabilities only depend on the contract's slots. *)
Lemma liabilities_ext w w' :
  (forall k, slot w' STAKING_CA k = slot w STAKING_CA k) -> liabilities w' = liabilities w.
Proof.
  intros E. apply msum_ext. intros [a k]. unfold owed_term. cbn [fst snd].
  destruct (weqb_spec a STAKING_CA) as [->|Ha]; cbn [andb];
    [|by destruct (w_storage w' !! _), (w_storage w !! _)].
  specialize (E k). unfold slot in E.
  destruct (owed_key k), (w_storage w' !! _), (w_storage w !! _); simpl in *; subst; auto.
Qed.

(** An amount owed is part of the liabilities. *)
Lemma liabilities_slot_le w k :
  owed_key k = true -> slot w STAKING_CA k <= liabilities w.
Proof.
  intros Hk. unfold slot. destruct (w_storage w !! (STAKING_CA, k)) as [v|] eqn:E; simpl.
  - pose proof (msum_lookup_le owed_term _ _ _ owed_term_nonneg E) as H.
    unfold owed_term in H at 1. cbn [fst snd] in H. by rewrite weqb_refl, Hk in H.
  - rewrite uval_wrap_0. apply msum_nonneg, owed_term_nonneg.
Qed.

Lemma slot_liab_le w (o : object) i :
  0 <= i < capacity o -> owed o i = true -> uval (rd w (svar (T := u256) o i)) <= liabilities w.
Proof.
  intros Hi Ho. rewrite rd_word. apply liabilities_slot_le. cbn [sv_offset svar].
  by rewrite owed_skey.
Qed.

Lemma liabilities_wr w o i (t : u256) :
  0 <= i < capacity o ->
  liabilities (wr w (svar o i) t) =
  liabilities w + if owed o i then t - rd w (svar (T := u256) o i) else 0.
Proof.
  intros Hi. rewrite wr_word, rd_word. cbn [svar sv_address sv_offset].
  by rewrite liabilities_set_slot, owed_skey.
Qed.

Lemma liabilities_wipe w o i :
  0 <= i < capacity o ->
  liabilities (wipe w (svar (T := u256) o i)) =
  liabilities w - if owed o i then uval (rd w (svar (T := u256) o i)) else 0.
Proof.
  intros Hi. rewrite wipe_word, rd_word. cbn [svar sv_address sv_offset].
  rewrite liabilities_set_slot, owed_skey, uval_wrap_0 by done. destruct (owed o i); lia.
Qed.

(** Writing slots that hold nothing owed. *)
Lemma liabilities_wr_slots {T} w o i k l :
  0 <= i -> i + Z.of_nat (k + length l) <= capacity o ->
  (forall j, (k <= j < k + length l)%nat -> owed o (i + Z.of_nat j) = false) ->
  liabilities (wr_slots w (svar (T := T) o i) k l) = liabilities w.
Proof.
  intros Hi. revert w k. induction l as [|s l IH]; intros w k Hc Ho; simpl; [done|].
  cbn [length] in *. rewrite IH; [|lia|intros j Hj; apply Ho; lia].
  cbn [svar sv_address]. rewrite liabilities_set_slot, sv_slot_svar, owed_skey by lia.
  rewrite Ho by lia. lia.
Qed.

Section other.
Context {T : Type} `{Layout T}.
#[local] Transparent wr wipe.

Definition none_owed (o : object) (i : Z) (n : nat) : bool :=
  forallb (fun j => negb (owed o (i + Z.of_nat j))) (seq 0 n).

Lemma none_owed_spec o i n j :
  none_owed o i n = true -> (j < n)%nat -> owed o (i + Z.of_nat j) = false.
Proof.
  unfold none_owed. rewrite forallb_forall. intros Hn Hj.
  apply negb_true_iff, Hn, in_seq. lia.
Qed.

Lemma liabilities_wr_other w o i (t : T) :
  0 <= i -> i + Z.of_nat (nslots T) <= capacity o -> none_owed o i (nslots T) = true ->
  liabilities (wr w (svar o i) t) = liabilities w.
Proof.
  intros Hi Hc Hn. unfold wr. apply liabilities_wr_slots; rewrite ?length_to_slots; try done.
  intros j Hj. apply (none_owed_spec _ _ _ _ Hn). lia.
Qed.

Lemma liabilities_wipe_other w o i :
  0 <= i -> i + Z.of_nat (nslots T) <= capacity o -> none_owed o i (nslots T) = true ->
  liabilities (wipe w (svar (T := T) o i)) = liabilities w.
Proof.
  intros Hi Hc Hn. unfold wipe. apply liabilities_wr_slots; rewrite ?length_replicate; try done.
  intros j Hj. apply (none_owed_spec _ _ _ _ Hn). lia.
Qed.
End other.

(** The first slot of a withdrawal request is its amount. *)
Section request.
Context (id : u64) (a : address) (wid : u8).
#[local] Transparent rd wr wipe.
Abbreviation req := (vars.withdrawal_request id a wid).

Lemma to_slots_request r : exists s1 s2, to_slots r = [wr_amount r; s1; s2].
Proof.
  unfold to_slots. change (nslots WithdrawalRequest) with 3%nat. cbn [split_slots].
  eexists _, _. f_equal. apply uval_inj. rewrite uval_wrap.
  change (modulus (slot_pad WithdrawalRequest)) with (2 ^ 192).
  change (modulus (256 * N.of_nat 2)) with (2 ^ 512).
  change (uval (enc r)) with (uval (wcat (wr_amount r) (wcat (wr_acc r) (wr_epoch r)))).
  rewrite !uval_wcat. word_ranges. unfold modulus in *.
  simpl Z.of_N in *. Z.div_mod_to_equations. lia.
Qed.

Lemma rd_request_amount w :
  wr_amount (rd w req) = slot w STAKING_CA (skey (OWithdrawalRequest id a wid) 0).
Proof.
  unfold rd, rd_slots. change (nslots WithdrawalRequest) with 3%nat.
  cbn [seq fmap list_fmap]. unfold vars.withdrawal_request. rewrite !sv_slot_svar.
  cbn [svar sv_address]. generalize (slot w STAKING_CA). intros f.
  change (0 + Z.of_nat 0) with 0. set (s0 := f (skey _ 0)).
  set (s1 := f (skey _ (0 + Z.of_nat 1))). set (s2 := f (skey _ (0 + Z.of_nat 2))).
  unfold from_slots. cbn [join_slots length].
  change (modulus (slot_pad WithdrawalRequest)) with (2 ^ 192).
  change (modulus (256 * N.of_nat 2)) with (2 ^ 512).
  change (modulus (256 * N.of_nat 1)) with (2 ^ 256).
  change (modulus (256 * N.of_nat 0)) with 1.
  cbn [dec layout_withdrawal wr_amount]. unfold whi. apply uval_inj. rewrite !uval_wrap.
  change (layout_bits WithdrawalRequest) with 576%N.
  word_ranges. unfold modulus in *. simpl Z.of_N in *. Z.div_mod_to_equations. lia.
Qed.

Lemma liabilities_wr_request w r :
  liabilities (wr w req r) = liabilities w + wr_amount r - wr_amount (rd w req).
Proof.
  rewrite rd_request_amount. unfold wr. destruct (to_slots_request r) as (s1 & s2 & ->).
  cbn [wr_slots]. unfold vars.withdrawal_request. rewrite !sv_slot_svar.
  cbn [svar sv_address]. rewrite !liabilities_set_slot, !owed_skey by done.
  cbn [owed]. change (0 + Z.of_nat 2 =? 0) with false. change (0 + Z.of_nat 1 =? 0) with false.
  change (0 + Z.of_nat 0) with 0. cbn [Z.eqb]. lia.
Qed.

Lemma liabilities_wipe_request w :
  liabilities (wipe w req) = liabilities w - wr_amount (rd w req).
Proof.
  rewrite rd_request_amount. unfold wipe. change (nslots WithdrawalRequest) with 3%nat.
  cbn [wr_slots replicate]. unfold vars.withdrawal_request. rewrite !sv_slot_svar.
  cbn [svar sv_address]. rewrite !liabilities_set_slot, !owed_skey by done.
  cbn [owed]. change (0 + Z.of_nat 2 =? 0) with false. change (0 + Z.of_nat 1 =? 0) with false.
  change (0 + Z.of_nat 0) with 0. cbn [Z.eqb].
  rewrite uval_wrap_0. lia.
Qed.
End request.

(** ** How writes change the surplus *)
Lemma surplus_wr_owed w o i (t : u256) :
  0 <= i < capacity o -> owed o i = true ->
  surplus (wr w (svar o i) t) = surplus w - t + rd w (svar (T := u256) o i).
Proof. intros Hi Ho. unfold surplus. rewrite liabilities_wr, Ho, balance_wr by done. lia. Qed.

Lemma surplus_wipe_owed w o i :
  0 <= i < capacity o -> owed o i = true ->
  surplus (wipe w (svar (T := u256) o i)) = surplus w + rd w (svar (T := u256) o i).
Proof. intros Hi Ho. unfold surplus. rewrite liabilities_wipe, Ho, balance_wipe by done. lia. Qed.

Lemma surplus_wr_other {T} `{Layout T} w o i (t : T) :
  0 <= i -> i + Z.of_nat (nslots T) <= capacity o -> none_owed o i (nslots T) = true ->
  surplus (wr w (svar o i) t) = surplus w.
Proof. intros. unfold surplus. by rewrite liabilities_wr_other, balance_wr. Qed.

Lemma surplus_wipe_other {T} `{Layout T} w o i :
  0 <= i -> i + Z.of_nat (nslots T) <= capacity o -> none_owed o i (nslots T) = true ->
  surplus (wipe w (svar (T := T) o i)) = surplus w.
Proof. intros. unfold surplus. by rewrite liabilities_wipe_other, balance_wipe. Qed.

Lemma surplus_wr_request w id a wid r :
  surplus (wr w (svar (OWithdrawalRequest id a wid) 0) r) =
  surplus w - wr_amount r + wr_amount (rd w (svar (OWithdrawalRequest id a wid) 0)).
Proof.
  unfold surplus. rewrite balance_wr.
  pose proof (liabilities_wr_request id a wid w r) as E. unfold vars.withdrawal_request in E. lia.
Qed.

Lemma surplus_wipe_request w id a wid :
  surplus (wipe w (svar (T := WithdrawalRequest) (OWithdrawalRequest id a wid) 0)) =
  surplus w + wr_amount (rd w (svar (OWithdrawalRequest id a wid) 0)).
Proof.
  unfold surplus. rewrite balance_wipe.
  pose proof (liabilities_wipe_request id a wid w) as E. unfold vars.withdrawal_request in E. lia.
Qed.

Lemma surplus_add_log w l : surplus (add_log w l) = surplus w.
Proof. done. Qed.

Lemma surplus_set_balance w a v :
  surplus (set_balance w a v) =
  surplus w + if decide (a = STAKING_CA) then v - balance w STAKING_CA else 0.
Proof.
  unfold surplus. rewrite balance_set_balance. change (liabilities (set_balance w a v)) with (liabilities w).
  case_decide; lia.
Qed.

Lemma surplus_le_balance w : surplus w <= balance w STAKING_CA.
Proof.
  unfold surplus, liabilities. pose proof (msum_nonneg owed_term (w_storage w) owed_term_nonneg). lia.
Qed.

Lemma surplus_ext w w' :
  (forall k, slot w' STAKING_CA k = slot w STAKING_CA k) ->
  surplus w' = surplus w + balance w' STAKING_CA - balance w STAKING_CA.
Proof. intros E. unfold surplus. rewrite (liabilities_ext w w' E). lia. Qed.

Lemma surplus_same w w' :
  w_storage w' = w_storage w -> w_balance w' = w_balance w -> surplus w' = surplus w.
Proof.
  intros Es Eb. rewrite (surplus_ext w w') by (intros k; unfold slot; by rewrite Es).
  unfold balance. rewrite Eb. lia.
Qed.

Lemma solvent_fresh w : (forall k, slot w STAKING_CA k = #0) -> solvent w.
Proof.
  intros Hz. unfold solvent, surplus.
  assert (liabilities w = 0) as ->; [|pose proof (uword_range (balance w STAKING_CA)); lia].
  apply msum_zero. intros [a k]. unfold owed_term. cbn [fst snd].
  destruct (weqb_spec a STAKING_CA) as [->|Ha]; cbn [andb];
    [|by destruct (w_storage w !! _)].
  specialize (Hz k). unfold slot in Hz.
  destruct (owed_key k), (w_storage w !! _); simpl in *; subst; auto.
Qed.

Lemma owed_le_balance w o i :
  0 <= i < capacity o -> owed o i = true ->
  surplus w + rd w (svar (T := u256) o i) <= balance w STAKING_CA.
Proof.
  intros Hi Ho. pose proof (slot_liab_le w o i Hi Ho). unfold surplus. lia.
Qed.

Lemma solvent_iff w : solvent w <-> liabilities w <= balance w STAKING_CA.
Proof. unfold solvent, surplus. lia. Qed.

#[global] Opaque surplus liabilities.

Ltac owed_side :=
  lazymatch goal with
  | |- _ = true => vm_compute; reflexivity
  | |- _ /\ _ => split; slot_bound
  | |- _ => slot_bound
  end.

Ltac surplus_step :=
  match goal with
  | |- context [surplus (add_log ?w ?l)] => rewrite (surplus_add_log w l)
  | |- context [surplus (wr ?w (svar (OWithdrawalRequest ?id ?a ?wid) ?i) ?t)] =>
      rewrite (surplus_wr_request w id a wid t)
  | |- context [surplus (wipe ?w (svar (OWithdrawalRequest ?id ?a ?wid) ?i))] =>
      rewrite (surplus_wipe_request w id a wid)
  | |- context [surplus (wr ?w (svar ?o ?i) ?t)] =>
      first [ rewrite (surplus_wr_other w o i t) by owed_side
            | rewrite (surplus_wr_owed w o i t) by owed_side ]
  | |- context [surplus (wipe ?w (svar ?o ?i))] =>
      first [ rewrite (surplus_wipe_other w o i) by owed_side
            | rewrite (surplus_wipe_owed w o i) by owed_side ]
  end.

(** Evaluate the surplus of the goal's worlds and finish with arithmetic. *)
Ltac words_facts :=
  repeat match goal with
  | H : checked_add _ _ = inl _ |- _ => apply checked_add_inl in H
  | H : checked_sub _ _ = inl _ |- _ => apply checked_sub_inl in H as [H ?]
  end.

Ltac surplus :=
  unfold_vars; words_facts;
  repeat match goal with H : context [surplus _] |- _ => revert H end;
  repeat surplus_step; intros; autorewrite with worlds in *; cbn [wr_amount] in *;
  try lia; word_lia.

(** Throws that do not report an insolvent contract. *)
Definition benign (m : string) : Prop := m <> "withdrawal insolvent" /\ m <> "balance underflow".

(** A successful run of [p] lowers the surplus by at most [c]. *)
Definition spends {A} (c : Z) (p : P A) : Prop :=
  forall w, wp benign p (fun _ w' => surplus w - c <= surplus w') w.

(** Continue after a program with a known [spends]. *)
Ltac spend H :=
  eapply wp_mono; [eapply H|];
  let w' := fresh "w" in let Hw := fresh "Hw" in intros ? w' Hw; cbv beta in Hw |- *.

Lemma apply_compound_spends id a : spends 0 (apply_compound id (vars.delegator id a)).
Proof.
  intros w. unfold apply_compound, Delegator.get_delta_epoch, decrement_accumulator_refcount,
    promote_delta, Delegator.get_next_delta_epoch, Delegator.set_delta_epoch,
    Delegator.set_next_delta_epoch.
  wsteps; surplus.
Qed.

Lemma spends_when b (p : P unit) : spends 0 p -> spends 0 (if b : bool then p else Ret tt).
Proof. intros Hp. destruct b; [done|]. intros w. wsteps. lia. Qed.

Lemma promote_delta_spends id a : spends 0 (promote_delta (vars.delegator id a)).
Proof.
  intros w. unfold promote_delta, Delegator.get_next_delta_epoch, Delegator.set_delta_epoch,
    Delegator.set_next_delta_epoch. wsteps; surplus.
Qed.

Lemma reward_invariant_spends id (rewards : u256) :
  spends (- rewards) (reward_invariant (vars.val_execution id) rewards).
Proof. intros w. unfold reward_invariant. wsteps; surplus. Qed.

Lemma compound_window_spends id a : spends 0 (compound_window id (vars.delegator id a)).
Proof.
  intros w. unfold compound_window. wstep. spend apply_compound_spends.
  wstep. spend reward_invariant_spends. wsteps; surplus.
Qed.

Lemma boundary_spends id a b c :
  spends 0 (if b : bool then
     monad_assert_throw c "staking compound logic error" ;; compound_window id (vars.delegator id a)
   else Ret tt).
Proof. apply spends_when. intros w. wline; [apply compound_window_spends|by split]. Qed.

Lemma spends_when_promote b id a :
  spends 0 (if b : bool then promote_delta (vars.delegator id a) else Ret tt).
Proof. apply spends_when, promote_delta_spends. Qed.

Lemma spends_when_compound b id a :
  spends 0 (if b : bool then compound_window id (vars.delegator id a) else Ret tt).
Proof. apply spends_when, compound_window_spends. Qed.

Lemma pull_spends id a : spends 0 (pull_delegator_up_to_date id (vars.delegator id a)).
Proof.
  intros w. unfold pull_delegator_up_to_date, can_promote_delta, is_epoch_active,
    Delegator.get_delta_epoch, Delegator.get_next_delta_epoch.
  wline. spend spends_when_promote.
  wline. spend (boundary_spends id a). wline. spend spends_when_compound.
  wline. wcase; [wline; lia|]. wline. spend reward_invariant_spends. wsteps; surplus.
Qed.

(** ** Code that moves nothing owed *)
Section quiet.
Context {A C : Type}.

Lemma quiet_bind (p : P A) (f : A -> P C) :
  spends 0 p -> (forall a, spends 0 (f a)) -> spends 0 (bind p f).
Proof. intros Hp Hf w. wstep. spend Hp. spend Hf. lia. Qed.
Lemma quiet_ret (a : A) : spends 0 (Ret a).
Proof. intros w. wline. lia. Qed.
Lemma quiet_fail e : spends 0 (Fail e : P A).
Proof. done. Qed.
Lemma quiet_halt : spends 0 (Halt : P A).
Proof. done. Qed.
Lemma quiet_lift {F} (inj : F -> error) (r : A + F) : spends 0 (lift inj r).
Proof. intros w. apply wp_lift. intros. lia. Qed.
Lemma quiet_require b e : spends 0 (require_not b e).
Proof. intros w. wline. lia. Qed.
Lemma quiet_assert b : spends 0 (monad_assert b : P unit).
Proof. intros w. wline. lia. Qed.
Lemma quiet_emit l : spends 0 (emit_log l).
Proof. intros w. wline. rewrite surplus_add_log. lia. Qed.
Lemma quiet_assert_throw b m : benign m -> spends 0 (monad_assert_throw b m : P unit).
Proof. intros Hm w. wline; [lia|done]. Qed.

Context {T : Type} `{Layout T}.
Lemma quiet_load (v : StorageVariable T) : spends 0 (load v).
Proof. intros w. wline. lia. Qed.
Lemma quiet_load_checked (v : StorageVariable T) : spends 0 (load_checked v).
Proof. intros w. wline. lia. Qed.
Lemma quiet_store o i (t : T) :
  0 <= i -> i + Z.of_nat (nslots T) <= capacity o -> none_owed o i (nslots T) = true ->
  spends 0 (store (svar o i) t).
Proof. intros ??? w. wline. rewrite surplus_wr_other by done. lia. Qed.
Lemma quiet_clear o i :
  0 <= i -> i + Z.of_nat (nslots T) <= capacity o -> none_owed o i (nslots T) = true ->
  spends 0 (clear (svar (T := T) o i)).
Proof. intros ??? w. wline. rewrite surplus_wipe_other by done. lia. Qed.
End quiet.

Create HintDb quiet discriminated.
#[export] Hint Resolve pull_spends : quiet.

Ltac quiet_step :=
  cbv beta zeta;
  lazymatch goal with
  | |- spends 0 (bind _ _) => apply quiet_bind; [|intros ?]
  | |- spends 0 (Ret _) => apply quiet_ret
  | |- spends 0 (Fail _) => apply quiet_fail
  | |- spends 0 (staking_fail _) => apply quiet_fail
  | |- spends 0 Halt => apply quiet_halt
  | |- spends 0 (math _) => apply quiet_lift
  | |- spends 0 (abi _) => apply quiet_lift
  | |- spends 0 (require_not _ _) => apply quiet_require
  | |- spends 0 (monad_assert _) => apply quiet_assert
  | |- spends 0 (monad_assert_throw _ _) => apply quiet_assert_throw; by split
  | |- spends 0 (emit_log _) => apply quiet_emit
  | |- spends 0 (load _) => apply quiet_load
  | |- spends 0 (load_checked _) => apply quiet_load_checked
  | |- spends 0 (store _ _) => unfold_vars; apply quiet_store; owed_side
  | |- spends 0 (clear _) => unfold_vars; apply quiet_clear; owed_side
  | |- spends 0 (if ?b then _ else _) => destruct b
  | |- spends 0 (match ?x with Some _ => _ | None => _ end) => destruct x
  | |- spends 0 (match ?x with (_, _) => _ end) => destruct x
  | |- _ => solve [auto with quiet]
  end.
Ltac quiet := repeat quiet_step.

Lemma increment_refcount_quiet id : spends 0 (increment_accumulator_refcount id).
Proof. unfold increment_accumulator_refcount, get_activation_epoch. quiet. Qed.
Lemma decrement_refcount_quiet e id : spends 0 (decrement_accumulator_refcount e id).
Proof. unfold decrement_accumulator_refcount. quiet. Qed.
Lemma set_flag_quiet id f : spends 0 (ValExecution.set_flag (vars.val_execution id) f).
Proof. unfold ValExecution.set_flag. quiet. Qed.
Lemma clear_flag_quiet id f : spends 0 (ValExecution.clear_flag (vars.val_execution id) f).
Proof. unfold ValExecution.clear_flag. quiet. Qed.
Lemma add_to_valset_quiet id : spends 0 (add_to_valset id).
Proof. unfold add_to_valset. quiet. Qed.
Lemma remove_from_valset_quiet id : spends 0 (remove_from_valset id).
Proof. unfold remove_from_valset. quiet. Qed.
Lemma sa_push_quiet v id : spends 0 (sa_push (vars.valset v) id).
Proof. unfold sa_push, sa_length. quiet. Qed.
Lemma sa_pop_quiet v : spends 0 (sa_pop (vars.valset v)).
Proof. unfold sa_pop, sa_length. quiet. Qed.

#[export] Hint Resolve increment_refcount_quiet decrement_refcount_quiet set_flag_quiet
  clear_flag_quiet add_to_valset_quiet remove_from_valset_quiet : quiet.
#[export] Hint Extern 0 (spends 0 (sa_push _ _)) => apply sa_push_quiet : quiet.
#[export] Hint Extern 0 (spends 0 (sa_pop _)) => apply sa_pop_quiet : quiet.

Lemma insert_delegator_quiet (id : u64) (a : address) : spends 0 (linked_list_insert id a).
Proof. unfold linked_list_insert, load_node, store_node. quiet. Qed.
Lemma insert_validator_quiet (a : address) (id : u64) : spends 0 (linked_list_insert a id).
Proof. unfold linked_list_insert, load_node, store_node. quiet. Qed.
Lemma remove_delegator_quiet (id : u64) (a : address) : spends 0 (linked_list_remove id a).
Proof. unfold linked_list_remove, load_node, store_node. quiet. Qed.
Lemma remove_validator_quiet (a : address) (id : u64) : spends 0 (linked_list_remove a id).
Proof. unfold linked_list_remove, load_node, store_node. quiet. Qed.
#[export] Hint Resolve insert_delegator_quiet insert_validator_quiet remove_delegator_quiet
  remove_validator_quiet : quiet.

(** The next part of the program moves nothing owed. *)
Ltac quiet_piece :=
  cbv beta zeta;
  lazymatch goal with
  | |- wp _ ?p _ _ =>
      let Hp := fresh "Hp" in
      assert (Hp : spends 0 p) by quiet; eapply wp_mono; [apply Hp|]; clear Hp;
      let w' := fresh "w" in let Hw := fresh "Hw" in
      intros ? w' Hw; cbv beta in Hw |- *
  end.

(** Events. *)
Lemma emit_validator_rewarded_quiet id a x : spends 0 (emit_validator_rewarded_event id a x).
Proof. unfold emit_validator_rewarded_event. quiet. Qed.
Lemma emit_validator_created_quiet id a x : spends 0 (emit_validator_created_event id a x).
Proof. unfold emit_validator_created_event. quiet. Qed.
Lemma emit_validator_status_changed_quiet id f : spends 0 (emit_validator_status_changed_event id f).
Proof. unfold emit_validator_status_changed_event. quiet. Qed.
Lemma emit_delegation_quiet id a x e : spends 0 (emit_delegation_event id a x e).
Proof. unfold emit_delegation_event. quiet. Qed.
Lemma emit_undelegate_quiet id a i x e : spends 0 (emit_undelegate_event id a i x e).
Proof. unfold emit_undelegate_event. quiet. Qed.
Lemma emit_withdraw_quiet id a i x : spends 0 (emit_withdraw_event id a i x).
Proof. unfold emit_withdraw_event. quiet. Qed.
Lemma emit_claim_rewards_quiet id a x : spends 0 (emit_claim_rewards_event id a x).
Proof. unfold emit_claim_rewards_event. quiet. Qed.
Lemma emit_commission_changed_quiet id x y : spends 0 (emit_commission_changed_event id x y).
Proof. unfold emit_commission_changed_event. quiet. Qed.
Lemma emit_epoch_changed_quiet x y : spends 0 (emit_epoch_changed_event x y).
Proof. unfold emit_epoch_changed_event. quiet. Qed.
#[export] Hint Resolve emit_validator_rewarded_quiet emit_validator_created_quiet emit_validator_status_changed_quiet emit_delegation_quiet emit_undelegate_quiet emit_withdraw_quiet emit_claim_rewards_quiet emit_commission_changed_quiet emit_epoch_changed_quiet : quiet.

(** ** The methods *)

(** The rest of the program moves nothing owed. *)
Ltac quiet_rest := quiet_piece; surplus.

Lemma add_pending_spends b id a (stake : u256) e :
  spends stake (add_pending b (vars.delegator id a) stake e).
Proof.
  intros w. unfold add_pending, Delegator.get_next_delta_epoch, Delegator.get_delta_epoch,
    Delegator.set_next_delta_epoch, Delegator.set_delta_epoch. wsteps; surplus.
Qed.

Lemma delegate_spends rev id (stake : u256) a : spends stake (delegate rev id stake a).
Proof.
  intros w. unfold delegate, ValExecution.exists_, ValExecution.get_auth_address,
    get_activation_epoch. wline. spend pull_spends. wline.
  spend add_pending_spends.
  unfold ValExecution.get_flags, Delegator.get_next_epoch_stake. quiet_rest.
Qed.

Lemma claim_and_delegate_spends rev id a (rewards : u256) :
  spends rewards (if negb (rewards =? 0) then
     emit_claim_rewards_event id a rewards ;; delegate rev id rewards a else Ret tt).
Proof.
  intros w. wcase.
  - wstep. spend emit_claim_rewards_quiet. spend delegate_spends. lia.
  - wline. word_lia.
Qed.

Section methods.
Context (rev : monad_revision) (input : byte_string) (sender : address) (value : u256).

Lemma precompile_delegate_spends : spends value (precompile_delegate rev input sender value).
Proof.
  intros w. unfold precompile_delegate, require_empty. wline. wcase.
  - spend delegate_spends. wline. lia.
  - wline. word_lia.
Qed.

Lemma precompile_compound_spends : spends 0 (precompile_compound rev input sender value).
Proof.
  intros w. unfold precompile_compound, require_empty, function_not_payable. wline.
  spend pull_spends. wline. spend claim_and_delegate_spends. wline. surplus.
Qed.

(** Sweeping up a remainder below the dust threshold. *)
Lemma dust_sum (amount val_stake del_stake : u256) w :
  wp benign (if del_stake <? limits.dust_threshold then
     amount <- math (checked_add amount del_stake) ;;
     val_stake <- math (checked_sub val_stake del_stake) ;;
     Ret (amount, val_stake, #0)
   else Ret (amount, val_stake, del_stake))
    (fun x w' => w' = w /\ uval x.1.1 + uval x.2 = amount + del_stake) w.
Proof. wsteps; cbn [fst snd]; (split; [done|]); words_facts; rewrite ?uval_wrap_0; lia. Qed.

Lemma precompile_undelegate_spends : spends 0 (precompile_undelegate rev input sender value).
Proof.
  intros w. unfold precompile_undelegate, require_empty, function_not_payable,
    ValExecution.exists_, ValExecution.get_auth_address, ValExecution.get_flags,
    Delegator.get_next_epoch_stake, get_activation_epoch.
  wline. wcase; [wline; lia|]. wline. spend pull_spends. wline.
  eapply wp_mono; [apply dust_sum|]. intros [[amt vs] ds] w1 [-> Hsum]. cbn [fst snd] in Hsum.
  wline. quiet_piece. wline. quiet_piece. wline. quiet_piece. wline. quiet_piece. wline.
  quiet_piece. quiet_rest.
Qed.
Lemma precompile_change_commission_quiet :
  spends 0 (precompile_change_commission input sender value).
Proof.
  unfold precompile_change_commission, require_empty, function_not_payable,
    ValExecution.exists_, ValExecution.get_auth_address. quiet.
Qed.

Lemma apply_reward_spends id a (r s : u256) : spends r (apply_reward id a r s).
Proof.
  intros w. unfold apply_reward. wline. quiet_rest.
Qed.

Lemma precompile_external_reward_spends :
  spends value (precompile_external_reward input sender value).
Proof.
  intros w. unfold precompile_external_reward, require_empty, ValExecution.exists_,
    ValExecution.get_auth_address, vars.this_epoch_view. wline.
  spend apply_reward_spends. wline. lia.
Qed.

(** Paying out: what the storage records as owed is there. *)
Lemma send_tokens_ok (to : address) (amount : u256) w :
  uval amount <= balance w STAKING_CA ->
  wp benign (send_tokens to amount)
    (fun _ w' => surplus w - amount <= surplus w' /\ w_storage w' = w_storage w) w.
Proof.
  intros Hb. unfold send_tokens. wstep. apply wp_add_to_balance; [|by split]. intros Hto.
  apply wp_subtract_from_balance.
  - intros Hle. split; [|done]. rewrite surplus_set_balance, decide_True by done.
    rewrite surplus_set_balance. revert Hle. rewrite !balance_set_balance.
    pose proof (uword_range (balance w STAKING_CA)). pose proof (uword_range amount).
    case_decide; [subst to|]; intros Hle.
    + rewrite (uval_wrap_small 256 (balance w STAKING_CA + amount)) in * by lia.
      rewrite uval_wrap_small; lia.
    + rewrite uval_wrap_small; lia.
  - intros Hlt. exfalso. revert Hlt. rewrite balance_set_balance. case_decide as E; [|lia].
    subst to. pose proof (uword_range (balance w STAKING_CA)). pose proof (uword_range amount).
    rewrite uval_wrap_small; lia.
Qed.

Lemma precompile_claim_rewards_ok w :
  solvent w ->
  wp benign (precompile_claim_rewards input sender value)
    (fun _ w' => surplus w <= surplus w') w.
Proof.
  unfold solvent. intros Hs.
  unfold precompile_claim_rewards, require_empty, function_not_payable. wline.
  spend pull_spends. wline. wcase; [|wline; lia]. wstep.
  eapply wp_mono; [apply send_tokens_ok|].
  - unfold_vars. pose proof (owed_le_balance w0 (ODelegator u sender) 2 ltac:(done) eq_refl). lia.
  - cbv beta. intros _ w1 [Hw1 Hst]. wline. spend emit_claim_rewards_quiet. wline.
    pose proof (f_equal uval
      (rd_same_storage w0 w1 (Delegator.rewards (vars.delegator u sender)) Hst)).
    surplus.
Qed.

Lemma precompile_withdraw_ok w :
  solvent w ->
  wp benign (precompile_withdraw input sender value) (fun _ w' => surplus w <= surplus w') w.
Proof.
  unfold solvent. intros Hs.
  unfold precompile_withdraw, require_empty, function_not_payable, is_epoch_active. wline.
  quiet_piece. wline. spend reward_invariant_spends. wline. apply wp_get_balance.
  apply rd_checked_Some in Heqo. subst.
  assert (Hpay : surplus w + uval a4 <= surplus w2) by surplus.
  pose proof (surplus_le_balance w2). wstep. wstep; [|lia].
  wstep. eapply wp_mono; [apply send_tokens_ok; lia|]. cbv beta. intros _ w3 [Hw3 _].
  quiet_rest.
Qed.

Lemma getters_quiet :
  spends 0 (precompile_get_epoch input sender value) /\
  spends 0 (precompile_get_proposer_val_id input sender value) /\
  spends 0 (precompile_get_validator input sender value) /\
  spends 0 (precompile_get_delegator input sender value) /\
  spends 0 (precompile_get_withdrawal_request input sender value) /\
  spends 0 (precompile_fallback input sender value).
Proof.
  unfold precompile_get_epoch, precompile_get_proposer_val_id, precompile_get_validator,
    precompile_get_delegator, precompile_get_withdrawal_request, precompile_fallback,
    require_empty, function_not_payable. repeat split; quiet.
Qed.

Lemma get_valset_loop_quiet a i n l : spends 0 (get_valset_loop a i n l).
Proof.
  revert i l. induction n as [|n IH]; intros i l; cbn [get_valset_loop]; quiet.
Qed.

Lemma get_valset_quiet a : spends 0 (get_valset input a).
Proof.
  unfold get_valset, require_empty, get_valset_page, sa_length.
  quiet; apply get_valset_loop_quiet || quiet.
Qed.

Lemma traverse_quiet {Key n} `{LinkedListTrait Key n} key start limit :
  spends 0 (linked_list_traverse key start limit).
Proof.
  assert (Hl : forall fuel p l, spends 0 (traverse_loop key p fuel l)).
  { induction fuel as [|fuel IH]; intros p l; cbn [traverse_loop]; unfold load_node; quiet. }
  unfold linked_list_traverse, load_node. quiet; apply Hl.
Qed.

End methods.

Section registration.
Context `{Crypto}.

Lemma verify_keys_quiet k1 k2 c m s1 s2 : spends 0 (verify_keys k1 k2 c m s1 s2).
Proof. unfold verify_keys. quiet. Qed.

Lemma precompile_add_validator_spends rev input sender (value : u256) :
  spends value (precompile_add_validator rev input sender value).
Proof.
  intros w. unfold precompile_add_validator, require_empty. wline. spend verify_keys_quiet.
  unfold address_from_secpkey. wline. quiet_piece. wline.
  spend emit_validator_created_quiet. wline. spend delegate_spends. wline. surplus.
Qed.

(** Every method spends at most the value sent along with it. *)
Lemma call_method_ok rev f input sender (value : u256) w :
  solvent w ->
  wp benign (call_method rev f input sender value)
    (fun _ w' => surplus w - value <= surplus w') w.
Proof.
  intros Hs. pose proof (uword_range value).
  assert (Hq : forall p, spends 0 p -> wp benign p (fun (_ : byte_string) w' => surplus w - value <= surplus w') w).
  { intros p Hp. spend Hp. lia. }
  destruct (getters_quiet input sender value) as (G1 & G2 & G3 & G4 & G5 & G6).
  destruct f; cbn [call_method]; try (apply Hq; assumption).
  - apply precompile_add_validator_spends.
  - apply precompile_delegate_spends.
  - apply Hq, precompile_undelegate_spends.
  - apply Hq, precompile_compound_spends.
  - eapply wp_mono; [by apply precompile_withdraw_ok|]. cbv beta. intros. lia.
  - eapply wp_mono; [by apply precompile_claim_rewards_ok|]. cbv beta. intros. lia.
  - apply Hq, precompile_change_commission_quiet.
  - apply precompile_external_reward_spends.
  - apply Hq. unfold precompile_get_consensus_valset, function_not_payable.
    quiet. apply get_valset_quiet.
  - apply Hq. unfold precompile_get_snapshot_valset, function_not_payable.
    quiet. apply get_valset_quiet.
  - apply Hq. unfold precompile_get_execution_valset, function_not_payable.
    quiet. apply get_valset_quiet.
  - apply Hq. unfold precompile_get_delegations, function_not_payable, require_empty,
      get_validators_for_delegator. quiet; apply traverse_quiet.
  - apply Hq. unfold precompile_get_delegators, function_not_payable, require_empty,
      get_delegators_for_validator. quiet; apply traverse_quiet.
Qed.
End registration.

(** ** System calls *)
Lemma for_range_quiet i n body : (forall j, spends 0 (body j)) -> spends 0 (for_range i n body).
Proof.
  intros Hb. revert i. induction n as [|n IH]; intros i; cbn [for_range]; quiet.
Qed.

Lemma drain_quiet v body fuel :
  (forall j, spends 0 (body j)) -> spends 0 (drain (vars.valset v) body fuel).
Proof.
  intros Hb. induction fuel as [|fuel IH]; cbn [drain]; unfold sa_empty, sa_length; quiet.
Qed.

Lemma epoch_change_quiet input value : spends 0 (syscall_on_epoch_change input value).
Proof.
  unfold syscall_on_epoch_change, require_empty, sa_length. quiet.
  apply for_range_quiet. intros j. unfold refresh_accumulator. quiet.
Qed.

Lemma throw_out_quiet v view :
  view = vars.snapshot_view \/ view = vars.consensus_view ->
  spends 0 (throw_out_view (vars.valset v) view).
Proof.
  intros Hv. unfold throw_out_view, drain_all, sa_length. quiet.
  apply drain_quiet. intros j. destruct Hv; subst; quiet.
Qed.

Lemma scan_execution_quiet i n c r : spends 0 (scan_execution i n c r).
Proof.
  revert i c r. induction n as [|n IH]; intros i c r; cbn [scan_execution];
    unfold ValExecution.get_flags; quiet.
Qed.

Lemma push_consensus_quiet l : spends 0 (push_consensus l).
Proof. induction l as [|[id st] l IH]; cbn [push_consensus]; quiet. Qed.

Lemma process_removals_quiet l : spends 0 (process_removals l).
Proof. induction l as [|i l IH]; cbn [process_removals]; quiet. Qed.

Lemma snapshot_quiet input value : spends 0 (syscall_snapshot input value).
Proof.
  unfold syscall_snapshot, require_empty, sa_length.
  quiet; first [apply throw_out_quiet; auto | apply scan_execution_quiet
    | apply push_consensus_quiet | apply process_removals_quiet | apply for_range_quiet].
  intros j. unfold copy_view. quiet.
Qed.

(** The minted reward is split between the commission and the pool. *)
Lemma reward_spends rev input raw : spends 0 (syscall_reward rev input raw).
Proof.
  intros w. unfold syscall_reward, require_empty, vars.this_epoch_view, mint_tokens,
    ValExecution.get_auth_address. wline.
  apply wp_add_to_balance; [|by split]. intros Hmint. wline.
  spend apply_reward_spends. quiet_piece.
  assert (Hs : surplus (set_balance w STAKING_CA #(balance w STAKING_CA + raw)) = surplus w + raw).
  { rewrite surplus_set_balance, decide_True by done. word_ranges. rewrite uval_wrap_small; lia. }
  surplus.
Qed.
