(* ===== verification/StakingSteps.v ===== *)
(** * The staking contract as a state machine

    The ways the chain reaches the contract, as a step relation on worlds:
    successful precompile calls (with the value transfer of
    src/category/execution/ethereum/evm.cpp before them), successful system
    transactions, and everything else, which neither writes the contract's
    storage nor takes from its balance.  Failed calls are rolled back by the
    caller and are no steps. *)
From S2P Require Import Prelude Prog Storage UInt256 Abi StakingVars StakingHelpers StakingList StakingContract StakingSyscalls StakingWp Solvency.

(** [EvmcHost::emit_native_transfer_event]; the host's [log_native_transfers_]
    flag is an argument. *)
Definition emit_native_transfer_event {E} (log_native_transfers : bool)
    (from to : address) (value : u256) : prog E unit :=
  if log_native_transfers && (0 <? value) && negb (from =w? to) then
    let native_token_address : address := #0xeeeeeeeeeeeeeeeeeeeeeeeeeeeeeeeeeeeeeeee in
    let signature : bytes32 :=
      #0xddf252ad1be2c89b69c2b068fc378daa952ba7f163c4a11628f55a4df523b3ef in
    let event :=
      add_data (abi_encode_uint value) (add_topic (abi_encode_address to)
        (add_topic (abi_encode_address from) (EventBuilder native_token_address signature))) in
    trigger (StoreLog event) ;;
    trigger (OnLog event)
  else Ret tt.

(** [transfer_balances] of evm.cpp. *)
Definition transfer_balances {E} (log_native_transfers : bool) (sender to : address)
    (value : u256) : prog E unit :=
  trigger (SubtractFromBalance sender value) ;;
  trigger (AddToBalance to value) ;;
  emit_native_transfer_event log_native_transfers sender to value.

(** The event changes only the logs. *)
Lemma wp_native_transfer_event {E} X log from to value Q w :
  (forall w', w_storage w' = w_storage w -> w_balance w' = w_balance w -> Q tt w') ->
  wp (E := E) X (emit_native_transfer_event log from to value) Q w.
Proof. intros HQ. unfold emit_native_transfer_event. destruct (_ && _); by apply HQ. Qed.

Section steps.
Context `{Crypto} (rev : monad_revision).

(** A call of the precompile: value first, then the contract. *)
Definition call_staking (log : bool) (msg : evmc_message)
    : prog Empty_set (option evmc_result) :=
  transfer_balances log (msg_sender_ msg) (msg_code_address msg) (msg_value_ msg) ;;
  check_call_monad_precompile rev msg.

Inductive step (w : World) : World -> Prop :=
| step_call log msg r w' :
    msg_sender_ msg <> STAKING_CA -> msg_code_address msg = STAKING_CA ->
    run (call_staking log msg) w = (ROk (Some r), w') -> status_code r = EVMC_SUCCESS ->
    step w w'
| step_syscall calldata value w' :
    run (execute_staking_syscall rev calldata value) w = (ROk tt, w') -> step w w'
| step_other w' :
    (forall k, slot w' STAKING_CA k = slot w STAKING_CA k) ->
    balance w STAKING_CA <= balance w' STAKING_CA -> step w w'.

Lemma run_attempt {E A} (p : prog E A) w :
  run (attempt p) w =
  match run p w with
  | (ROk a, w') => (ROk (inl a), w')
  | (RErr e, w') => (ROk (inr e), w')
  | (RThrow m, w') => (RThrow m, w')
  | (RHalt, w') => (RHalt, w')
  end.
Proof.
  revert w. induction p as [a|e|m| |X op k IH]; intros w; try done.
  unfold run in *. simpl. by destruct (handle_world X op w) as [[x|[]|m|] w'].
Qed.

(** A successful call runs the dispatched method. *)
Lemma check_call_success msg r w w' :
  run (check_call_monad_precompile rev msg) w = (ROk (Some r), w') ->
  status_code r = EVMC_SUCCESS ->
  exists f cost input out,
    precompile_dispatch rev (msg_input msg) = (f, cost, input) /\
    run (call_method rev f input (msg_sender_ msg) (msg_value_ msg)) w = (ROk out, w') /\
    uval cost <= msg_gas msg /\ r = mk_result EVMC_SUCCESS (msg_gas msg - cost) 0 out.
Proof.
  unfold check_call_monad_precompile.
  destruct (msg_code_address msg =w? STAKING_CA); cbn [negb]; [|done].
  destruct (negb (msg_is_call msg) || _).
  { rewrite run_ret. by intros [= <- _]. }
  destruct (precompile_dispatch rev (msg_input msg)) as [[f cost] input].
  destruct (Z.ltb_spec (msg_gas msg) cost) as [Hg|Hg].
  { rewrite run_ret. by intros [= <- _]. }
  rewrite run_bind, run_attempt.
  destruct (run (call_method _ _ _ _ _) w) as [[out|e|m|] w1] eqn:E; try done;
    rewrite run_ret; intros [= <- <-]; [|done].
  intros _. by exists f, cost, input, out.
Qed.

Lemma transfer_surplus {E} log (sender : address) (value : u256) Q w :
  sender <> STAKING_CA ->
  (forall w', surplus w' = surplus w + value -> Q tt w') ->
  wp (E := E) any_throw (transfer_balances log sender STAKING_CA value) Q w.
Proof.
  intros Hs HQ. unfold transfer_balances. wstep. apply wp_subtract_from_balance; [|done].
  intros Hle. wstep. apply wp_add_to_balance; [|done]. rewrite balance_set_balance.
  rewrite decide_False by done. intros Hlt. apply wp_native_transfer_event.
  intros w' Es Eb. apply HQ.
  rewrite (surplus_same _ w' Es Eb).
  rewrite surplus_set_balance, decide_True by done.
  rewrite surplus_set_balance, balance_set_balance, !decide_False by done. word_ranges. rewrite uval_wrap_small; lia.
Qed.

Lemma execute_syscall_spends calldata value :
  spends 0 (execute_staking_syscall rev calldata value).
Proof.
  intros w. unfold execute_staking_syscall. wstep. apply wp_add_to_balance; [|by split].
  intros _. rewrite uval_wrap_0, Z.add_0_r, wrap_uval. wline.
  assert (Hs : surplus (set_balance w STAKING_CA (balance w STAKING_CA)) = surplus w).
  { rewrite surplus_set_balance, decide_True by done. lia. }
  repeat wcase; [spend reward_spends|spend snapshot_quiet|spend epoch_change_quiet|wline]; lia.
Qed.

Lemma step_surplus w w' : step w w' -> solvent w -> surplus w <= surplus w'.
Proof.
  intros Hstep Hs.
  destruct Hstep as [log msg r w' Hsender Hca Hrun Hok | calldata value w' Hrun | w' Hslots Hbal].
  - unfold call_staking in Hrun. rewrite Hca in Hrun.
    refine (wp_run any_throw _ (fun o w' => o = Some r -> surplus w <= surplus w')
      _ _ _ Hrun _ eq_refl).
    wstep. apply transfer_surplus; [done|]. intros w1 Hw1. unfold wp.
    destruct (run (check_call_monad_precompile rev msg) w1) as [[o|e|m|] w2] eqn:E; try done.
    intros ->. destruct (check_call_success _ _ _ _ E Hok) as (f & c & i & out & _ & Hm & _).
    assert (Hs1 : solvent w1) by (unfold solvent in *; word_ranges; lia).
    pose proof (wp_run _ _ _ _ _ _ Hm (call_method_ok _ _ _ _ _ _ Hs1)) as Hw2.
    cbv beta in Hw2. lia.
  - pose proof (wp_run _ _ _ _ _ _ Hrun (execute_syscall_spends calldata value w)) as Hw.
    cbv beta in Hw. lia.
  - rewrite (surplus_ext w w' Hslots). lia.
Qed.
End steps.
