(* ===== verification/Invariants.v ===== *)
(** * Invariants of the staking contract's storage

    A calculus for properties of selected slots ([watched]) of the contract's
    storage: code that writes no watched slot keeps them, so only the few places
    that do need an argument.  Two instances: the epoch never decreases, and no
    commission rate ever exceeds 100%. *)
From S2P Require Import Prelude Prog Storage UInt256 Abi StakingVars StakingHelpers StakingList StakingContract StakingSyscalls Demo StakingWp Solvency StakingSteps.

(** A successful run of [p] keeps [I]. *)
Definition keeps {E A} (I : World -> Prop) (p : prog E A) : Prop :=
  forall w, I w -> wp any_throw p (fun _ => I) w.

(** A property of the watched slots of the contract. *)
Definition about (watched : object -> Z -> bool) (I : World -> Prop) : Prop :=
  forall w w',
    (forall o i, 0 <= i < capacity o -> watched o i = true ->
      slot w' STAKING_CA (skey o i) = slot w STAKING_CA (skey o i)) -> I w -> I w'.

Section rules.
Context (I : World -> Prop).

Lemma keeps_bind {E A C} (p : prog E A) (f : A -> prog E C) :
  keeps I p -> (forall a, keeps I (f a)) -> keeps I (bind p f).
Proof. intros Hp Hf w Hw. wstep. eapply wp_mono; [by apply Hp|]. intros a w' Hw'. by apply Hf. Qed.

Lemma keeps_ret {E A} (a : A) : keeps I (Ret a : prog E A).
Proof. intros w Hw. exact Hw. Qed.
Lemma keeps_fail {E A} (e : E) : keeps I (Fail e : prog E A).
Proof. by intros w Hw. Qed.
Lemma keeps_halt {E A} : keeps I (Halt : prog E A).
Proof. by intros w Hw. Qed.
Lemma keeps_lift {E F A} (inj : F -> E) (r : A + F) : keeps I (lift inj r).
Proof. intros w Hw. by apply wp_lift. Qed.
Lemma keeps_require b e : keeps I (require_not b e).
Proof. intros w Hw. by wline. Qed.
Lemma keeps_assert {E} b : keeps I (monad_assert b : prog E unit).
Proof. intros w Hw. by apply wp_assert. Qed.
Lemma keeps_assert_throw {E} b m : keeps I (monad_assert_throw b m : prog E unit).
Proof. intros w Hw. by apply wp_assert_throw. Qed.

Lemma keeps_get_balance {E} a : keeps I (trigger (GetBalance a) : prog E _).
Proof. intros w Hw. exact Hw. Qed.
Lemma keeps_load {T} `{Layout T} (v : StorageVariable T) : keeps I (load v : P T).
Proof. intros w Hw. by wline. Qed.
Lemma keeps_load_checked {T} `{Layout T} (v : StorageVariable T) : keeps I (load_checked v : P _).
Proof. intros w Hw. by wline. Qed.
End rules.

Section calculus.
Context (watched : object -> Z -> bool) (I : World -> Prop) (HI : about watched I).
#[local] Set Default Proof Using "Type*".

Definition unwatched (o : object) (i : Z) (n : nat) : bool :=
  forallb (fun j => negb (watched o (i + Z.of_nat j))) (seq 0 n).

Lemma keeps_same_storage w w' : w_storage w' = w_storage w -> I w -> I w'.
Proof. intros Es. apply HI. intros. unfold slot. by rewrite Es. Qed.

Lemma keeps_emit l : keeps I (emit_log l).
Proof. intros w Hw. wline. by apply (keeps_same_storage w). Qed.
Lemma keeps_add {E} a d : keeps I (trigger (AddToBalance a d) : prog E _).
Proof. intros w Hw. apply wp_add_to_balance; [intros _|done]. by apply (keeps_same_storage w). Qed.
Lemma keeps_sub {E} a d : keeps I (trigger (SubtractFromBalance a d) : prog E _).
Proof.
  intros w Hw. apply wp_subtract_from_balance; [intros _|done]. by apply (keeps_same_storage w).
Qed.

Context {T : Type} `{Layout T}.
#[local] Transparent wr wipe.

Lemma about_wr_slots w o i (l : list bytes32) :
  0 <= i -> i + Z.of_nat (nslots T) <= capacity o -> unwatched o i (nslots T) = true ->
  length l = nslots T -> I w -> I (wr_slots w (svar (T := T) o i) 0 l).
Proof.
  intros Hi Hc Hu Hl. apply HI. intros o' j Hj Hw. apply slot_wr_slots_ne.
  intros k Hk E%(f_equal snd). cbn [snd] in E. rewrite sv_slot_svar in E.
  apply skey_inj in E as [-> E]; [|lia..]. unfold unwatched in Hu. rewrite forallb_forall in Hu.
  specialize (Hu k ltac:(apply in_seq; lia)). rewrite E, Hw in Hu. done.
Qed.

Lemma about_wr w o i (t : T) :
  0 <= i -> i + Z.of_nat (nslots T) <= capacity o -> unwatched o i (nslots T) = true ->
  I w -> I (wr w (svar o i) t).
Proof. intros. apply about_wr_slots; auto using length_to_slots. Qed.

Lemma keeps_store o i (t : T) :
  0 <= i -> i + Z.of_nat (nslots T) <= capacity o -> unwatched o i (nslots T) = true ->
  keeps I (store (svar o i) t : P unit).
Proof. intros ??? w Hw. wline. by apply about_wr. Qed.

Lemma keeps_clear o i :
  0 <= i -> i + Z.of_nat (nslots T) <= capacity o -> unwatched o i (nslots T) = true ->
  keeps I (clear (svar (T := T) o i) : P unit).
Proof. intros ??? w Hw. wline. apply about_wr_slots; auto using length_replicate. Qed.

Lemma keeps_clear_world o i w :
  0 <= i -> i + Z.of_nat (nslots T) <= capacity o -> unwatched o i (nslots T) = true ->
  I w -> I (wipe w (svar (T := T) o i)).
Proof. intros. apply about_wr_slots; auto using length_replicate. Qed.
End calculus.

Create HintDb keeps discriminated.

Ltac keeps_step :=
  cbv beta zeta;
  lazymatch goal with
  | |- keeps _ (bind _ _) => apply keeps_bind; [|intros ?]
  | |- keeps _ (Ret _) => apply keeps_ret
  | |- keeps _ (Fail _) => apply keeps_fail
  | |- keeps _ (staking_fail _) => apply keeps_fail
  | |- keeps _ Halt => apply keeps_halt
  | |- keeps _ (math _) => apply keeps_lift
  | |- keeps _ (abi _) => apply keeps_lift
  | |- keeps _ (require_not _ _) => apply keeps_require
  | |- keeps _ (monad_assert _) => apply keeps_assert
  | |- keeps _ (monad_assert_throw _ _) => apply keeps_assert_throw
  | |- keeps _ (emit_log _) => eapply keeps_emit; eassumption
  | |- keeps _ (trigger (GetBalance _)) => apply keeps_get_balance
  | |- keeps _ (trigger (AddToBalance _ _)) => eapply keeps_add; eassumption
  | |- keeps _ (trigger (SubtractFromBalance _ _)) => eapply keeps_sub; eassumption
  | |- keeps _ (load _) => apply keeps_load
  | |- keeps _ (load_checked _) => apply keeps_load_checked
  | |- keeps _ (store _ _) => unfold_vars; eapply keeps_store; [eassumption|owed_side..]
  | |- keeps _ (clear _) => unfold_vars; eapply keeps_clear; [eassumption|owed_side..]
  | |- keeps _ (if ?b then _ else _) => destruct b
  | |- keeps _ (match ?x with Some _ => _ | None => _ end) => destruct x
  | |- keeps _ (match ?x with (_, _) => _ end) => destruct x
  | |- _ => solve [auto with keeps]
  end.
Ltac keeps := repeat keeps_step.

(** ** The whole contract

    [I] is a property of slots among those below; the places that write them
    are the hypotheses. *)
Definition sensitive (o : object) (i : Z) : bool :=
  match o with
  | OEpoch | OLastValId | OValIdSecp _ | OValIdBls _ => true
  | OValExecution _ => i =? 2
  | OConsensusStake _ | OSnapshotStake _ => i =? 1
  | _ => false
  end.

Lemma keeps_refresh_loop (J : World -> Prop) (HJ : about sensitive J) i n (e e' : u64) :
  keeps J (for_range i n (fun i =>
    val_id <- load (sa_get vars.valset_snapshot i) ;;
    refresh_accumulator e val_id ;; refresh_accumulator e' val_id)).
Proof.
  revert i. induction n as [|n IH]; intros i; cbn [for_range]; unfold refresh_accumulator; keeps.
Qed.

Section contract.
Context `{Crypto} (rev : monad_revision) (I : World -> Prop) (HI : about sensitive I).
Implicit Types (id : u64) (a : address).
#[local] Set Default Proof Using "Type*".

Lemma keeps_when b (p : P unit) : keeps I p -> keeps I (if b : bool then p else Ret tt).
Proof using. destruct b; [done|]. intros _. apply keeps_ret. Qed.

Lemma keeps_promote id a : keeps I (promote_delta (vars.delegator id a)).
Proof.
  unfold promote_delta, Delegator.get_next_delta_epoch, Delegator.set_delta_epoch,
    Delegator.set_next_delta_epoch. keeps.
Qed.
#[local] Hint Resolve keeps_promote : keeps.

Lemma keeps_window id a : keeps I (compound_window id (vars.delegator id a)).
Proof.
  unfold compound_window, apply_compound, decrement_accumulator_refcount, reward_invariant,
    Delegator.get_delta_epoch. keeps.
Qed.
#[local] Hint Resolve keeps_window : keeps.

Lemma keeps_pull id a : keeps I (pull_delegator_up_to_date id (vars.delegator id a)).
Proof.
  unfold pull_delegator_up_to_date, can_promote_delta, is_epoch_active, reward_invariant,
    Delegator.get_delta_epoch, Delegator.get_next_delta_epoch. keeps.
Qed.
#[local] Hint Resolve keeps_pull : keeps.

Lemma keeps_push v id : keeps I (sa_push (E := error) (vars.valset v) id).
Proof. unfold sa_push, sa_length. keeps. Qed.
Lemma keeps_pop v : keeps I (sa_pop (E := error) (vars.valset v)).
Proof. unfold sa_pop, sa_length. keeps. Qed.
#[local] Hint Extern 0 (keeps _ (sa_push _ _)) => apply keeps_push : keeps.
#[local] Hint Extern 0 (keeps _ (sa_pop _)) => apply keeps_pop : keeps.

Lemma keeps_lists id a :
  keeps I (linked_list_insert id a) /\ keeps I (linked_list_insert a id) /\
  keeps I (linked_list_remove id a) /\ keeps I (linked_list_remove a id).
Proof.
  unfold linked_list_insert, linked_list_remove, load_node, store_node. split_and!; keeps.
Qed.
#[local] Hint Extern 0 (keeps _ (linked_list_insert _ _)) => apply keeps_lists : keeps.
#[local] Hint Extern 0 (keeps _ (linked_list_remove _ _)) => apply keeps_lists : keeps.

Lemma keeps_increment id : keeps I (increment_accumulator_refcount id).
Proof. unfold increment_accumulator_refcount, get_activation_epoch. keeps. Qed.
#[local] Hint Resolve keeps_increment : keeps.

Lemma keeps_delegate id stake a : keeps I (delegate rev id stake a).
Proof.
  unfold delegate, add_pending, ValExecution.exists_, ValExecution.get_auth_address,
    get_activation_epoch, Delegator.get_next_delta_epoch, Delegator.get_delta_epoch,
    Delegator.set_next_delta_epoch, Delegator.set_delta_epoch, emit_delegation_event,
    ValExecution.get_flags, ValExecution.clear_flag, Delegator.get_next_epoch_stake,
    emit_validator_status_changed_event, add_to_valset. keeps.
Qed.
#[local] Hint Resolve keeps_delegate : keeps.

(** The writes of sensitive slots. *)
Context (Hset : forall id (c : u256), uval c <= MON ->
  keeps I (store (ValExecution.commission (vars.val_execution id)) c : P unit)).
Context (Hsnap : forall id,
  keeps I (c <- load (ConsensusView.commission (vars.consensus_view id)) ;;
           store (ConsensusView.commission (vars.snapshot_view id)) c : P unit)).
Context (Hcons : forall id,
  keeps I (c <- load (ValExecution.commission (vars.val_execution id)) ;;
           store (ConsensusView.commission (vars.consensus_view id)) c : P unit)).
Context (Hclear_s : forall id,
  keeps I (clear (ConsensusView.commission (vars.snapshot_view id)) : P unit)).
Context (Hclear_c : forall id,
  keeps I (clear (ConsensusView.commission (vars.consensus_view id)) : P unit)).
Context (Hsecp : forall a (id : u64), keeps I (store (vars.val_id a) id : P unit)).
Context (Hbls : forall a (id : u64), keeps I (store (vars.val_id_bls a) id : P unit)).
Context (Hlast : forall id : u64, keeps I (store vars.last_val_id id : P unit)).
Context (Hepoch : forall w (e : u64), I w -> uval (rd w vars.epoch) <= e -> I (wr w vars.epoch e)).

Lemma keeps_verify {A} k1 k2 (c : u256) m s1 s2 (k : _ -> P A) :
  (uval c <= MON -> forall x, keeps I (k x)) ->
  keeps I (bind (verify_keys k1 k2 c m s1 s2) k).
Proof using.
  intros Hk w Hw. wstep. unfold verify_keys. wsteps.
  apply Hk; [|done]. change (uval limits.max_commission) with (uval MON) in *. lia.
Qed.

Lemma keeps_require_bind {A} b e (k : P A) :
  (b = false -> keeps I k) -> keeps I (bind (require_not b e) (fun _ => k)).
Proof using. intros Hk w Hw. wline. by apply Hk. Qed.

Lemma keeps_add_validator input sender value :
  keeps I (precompile_add_validator rev input sender value).
Proof.
  unfold precompile_add_validator, require_empty, address_from_secpkey,
    emit_validator_created_event.
  repeat lazymatch goal with
  | |- keeps _ (bind (verify_keys _ _ _ _ _ _) _) =>
      apply keeps_verify; intros Hc x
  | |- keeps _ (store (ValExecution.commission _) _) => by apply Hset
  | |- keeps _ (store (vars.val_id _) _) => apply Hsecp
  | |- keeps _ (store (vars.val_id_bls _) _) => apply Hbls
  | |- keeps _ (store vars.last_val_id _) => apply Hlast
  | |- _ => keeps_step
  end.
Qed.

Lemma keeps_change_commission input sender value :
  keeps I (precompile_change_commission input sender value).
Proof.
  unfold precompile_change_commission, require_empty, function_not_payable,
    ValExecution.exists_, ValExecution.get_auth_address, emit_commission_changed_event.
  repeat lazymatch goal with
  | |- keeps _ (bind (require_not _ _) _) => apply keeps_require_bind; intros ?
  | |- keeps _ (store (ValExecution.commission _) _) => apply Hset
  | |- _ => keeps_step
  end.
  change (uval limits.max_commission) with (uval MON) in *. lia.
Qed.

Lemma keeps_get_valset input v : keeps I (get_valset input (vars.valset v)).
Proof using.
  assert (Hl : forall n i l, keeps I (get_valset_loop (vars.valset v) i n l)).
  { induction n as [|n IH]; intros i l; cbn [get_valset_loop]; keeps. }
  unfold get_valset, require_empty, get_valset_page, sa_length. keeps.
Qed.

Lemma keeps_traverse {Key n} `{LinkedListTrait Key n} key start limit :
  keeps I (linked_list_traverse key start limit).
Proof using.
  assert (Hl : forall n p l, keeps I (traverse_loop key p n l)).
  { induction n0 as [|m IH]; intros p l; cbn [traverse_loop]; unfold load_node; keeps. }
  unfold linked_list_traverse, load_node. keeps.
Qed.

Lemma keeps_method f input sender value : keeps I (call_method rev f input sender value).
Proof.
  destruct f; cbn [call_method];
    try solve [apply keeps_add_validator | apply keeps_change_commission];
    cbv beta delta [precompile_fallback precompile_delegate
      precompile_undelegate precompile_compound precompile_withdraw precompile_claim_rewards
      precompile_external_reward precompile_get_epoch
      precompile_get_proposer_val_id precompile_get_validator precompile_get_delegator
      precompile_get_withdrawal_request precompile_get_consensus_valset
      precompile_get_snapshot_valset precompile_get_execution_valset precompile_get_delegations
      precompile_get_delegators function_not_payable require_empty
      emit_validator_status_changed_event emit_undelegate_event
      emit_claim_rewards_event emit_withdraw_event emit_validator_rewarded_event
      get_validators_for_delegator get_delegators_for_validator
      ValExecution.exists_ ValExecution.get_auth_address ValExecution.get_flags
      ValExecution.set_flag get_activation_epoch Delegator.get_next_epoch_stake
      is_epoch_active decrement_accumulator_refcount reward_invariant send_tokens
      vars.this_epoch_view apply_reward];
    keeps; first [apply keeps_get_valset | apply keeps_traverse | idtac].
Qed.

Lemma keeps_assoc {A C D} (p : P A) (f : A -> P C) (g : C -> P D) :
  keeps I (bind (bind p f) g) -> keeps I (bind p (fun x => bind (f x) g)).
Proof using.
  intros Hk w Hw. specialize (Hk w Hw). unfold wp in *. rewrite !run_bind in *.
  destruct (run p w) as [[x|e|m|] w1]; try done. by rewrite run_bind.
Qed.

Lemma keeps_for_range i n body : (forall j, keeps I (body j)) -> keeps I (for_range i n body).
Proof using. intros Hb. revert i. induction n as [|n IH]; intros i; cbn [for_range]; keeps. Qed.

Lemma keeps_throw_out v view :
  (forall id, keeps I (clear (ConsensusView.stake (view id)) : P unit)) ->
  (forall id, keeps I (clear (ConsensusView.commission (view id)) : P unit)) ->
  keeps I (throw_out_view (vars.valset v) view).
Proof.
  intros H1 H2. unfold throw_out_view, drain_all, sa_length.
  apply keeps_bind; [apply keeps_load|]. intros len.
  generalize (Z.to_nat len). intros n.
  induction n as [|n IH]; cbn [drain]; unfold sa_empty, sa_length;
    repeat lazymatch goal with
    | |- keeps _ (clear (ConsensusView.stake _)) => apply H1
    | |- keeps _ (clear (ConsensusView.commission _)) => apply H2
    | |- _ => keeps_step
    end.
Qed.

Lemma keeps_copy_view i : keeps I (copy_view i).
Proof.
  unfold copy_view.
  repeat lazymatch goal with
  | |- keeps _ (bind (load (ConsensusView.commission _)) _) => apply Hsnap
  | |- _ => keeps_step
  end.
Qed.

Lemma keeps_push_consensus l : keeps I (push_consensus l).
Proof.
  induction l as [|[id st] l IH]; cbn [push_consensus]; [apply keeps_ret|].
  apply keeps_bind; [apply keeps_push|]. intros _.
  apply keeps_bind; [keeps|]. intros _. apply keeps_assoc.
  apply keeps_bind; [apply Hcons|]. intros _. exact IH.
Qed.

Lemma keeps_snapshot input value : keeps I (syscall_snapshot input value).
Proof.
  assert (Hs : forall n i c r, keeps I (scan_execution i n c r)).
  { induction n as [|n IH]; intros i c r; cbn [scan_execution]; unfold ValExecution.get_flags;
      keeps. }
  assert (Hr : forall l, keeps I (process_removals l)).
  { induction l as [|i l IH]; cbn [process_removals]; unfold remove_from_valset; keeps. }
  unfold syscall_snapshot, require_empty, sa_length.
  keeps; first [apply keeps_throw_out; intros id; [keeps|]; auto
    | apply keeps_for_range, keeps_copy_view | apply keeps_push_consensus].
Qed.

Lemma keeps_reward input raw : keeps I (syscall_reward rev input raw).
Proof.
  unfold syscall_reward, require_empty, vars.this_epoch_view, mint_tokens,
    ValExecution.get_auth_address, apply_reward, emit_validator_rewarded_event. keeps.
Qed.

Lemma about_epoch (e : u64) : about sensitive (fun w => I w /\ rd w vars.epoch = e).
Proof.
  intros w1 w2 Heq [K1 K2]. split; [exact (HI w1 w2 Heq K1)|]. rewrite <- K2.
  apply (rd_same_slots w1 w2). intros j Hj. change (nslots u64) with 1%nat in Hj.
  unfold vars.epoch. rewrite sv_slot_svar. apply Heq; [cbn [capacity]; lia|done].
Qed.

Lemma keeps_epoch_change input value : keeps I (syscall_on_epoch_change input value).
Proof.
  intros w Hw. unfold syscall_on_epoch_change, require_empty, emit_epoch_changed_event, sa_length.
  wline. pose proof (about_epoch (rd w vars.epoch)) as HJ.
  eapply wp_mono; [apply (keeps_refresh_loop _ HJ)|].
  - split; [apply (keeps_same_storage sensitive I HI w); [reflexivity|exact Hw]|apply rd_add_log].
  - cbv beta. intros _ w1 K1.
    pose proof (keeps_clear_world (T := bool) sensitive _ HJ OInBoundary 0 w1
      ltac:(slot_bound) ltac:(slot_bound) eq_refl K1) as [K2 K3].
    wline. apply Hepoch; [exact K2|]. change (svar OInBoundary 0) with vars.in_epoch_delay_period in K3.
    rewrite K3. lia.
Qed.

Lemma keeps_syscall calldata value : keeps I (execute_staking_syscall rev calldata value).
Proof.
  unfold execute_staking_syscall.
  keeps; first [apply keeps_reward | apply keeps_snapshot | apply keeps_epoch_change].
Qed.

(** Every step of the contract keeps [I]. *)
Lemma keeps_steps w w' : step rev w w' -> I w -> I w'.
Proof.
  intros Hstep Hw.
  destruct Hstep as [log msg r w' Hsender Hca Hrun Hok | calldata value w' Hrun | w' Hslots Hbal].
  - unfold call_staking in Hrun. rewrite run_bind in Hrun.
    destruct (run (transfer_balances _ _ _ _) w) as [[[]|[]|m|] w1] eqn:Et; try done.
    assert (H1 : I w1).
    { refine (wp_run any_throw _ (fun _ => I) _ _ _ Et _). unfold transfer_balances.
      apply (keeps_bind I); [eapply keeps_sub, HI|intros _|exact Hw].
      apply (keeps_bind I); [eapply keeps_add, HI|intros _ w2 Hw2].
      apply wp_native_transfer_event. intros w3 Es _. by apply (keeps_same_storage _ _ HI w2). }
    destruct (check_call_success _ _ _ _ _ Hrun Hok) as (f & c & i & out & _ & Hm & _).
    by refine (wp_run any_throw _ (fun _ => I) _ _ _ Hm (keeps_method _ _ _ _ _ H1)).
  - by refine (wp_run any_throw _ (fun _ => I) _ _ _ Hrun (keeps_syscall _ _ _ Hw)).
  - by apply (HI w w').
Qed.
End contract.

(** ** Steps under any revision *)
Section reachable.
Context `{Crypto}.

Definition any_step (w w' : World) : Prop := exists rev, step rev w w'.

Lemma rtc_invariant (I : World -> Prop) w w' :
  (forall rev w w', step rev w w' -> I w -> I w') -> rtc any_step w w' -> I w -> I w'.
Proof. intros Hs. induction 1 as [|w1 w2 w3 [rev H12] _ IH]; [done|]. intros H1. eauto. Qed.

(** *** The epoch *)
Definition epoch_from (e : Z) (w : World) : Prop := e <= rd w vars.epoch.

Lemma epoch_about e : about sensitive (epoch_from e).
Proof.
  intros w w' Heq. unfold epoch_from.
  assert (rd w' vars.epoch = rd w vars.epoch) as ->; [|done].
  apply rd_same_slots. intros j Hj. change (nslots u64) with 1%nat in Hj.
  unfold vars.epoch. rewrite sv_slot_svar. apply Heq; [cbn [capacity]; lia|done].
Qed.

Lemma epoch_step e rev w w' : step rev w w' -> epoch_from e w -> epoch_from e w'.
Proof.
  apply keeps_steps; [apply epoch_about|intros..|].
  1-8: intros w0 Hw0; unfold epoch_from in *; unfold_vars; wline; by worlds.
  intros w0 e0 H1 H2. unfold epoch_from in *. worlds. lia.
Qed.

(** *** Commission rates *)
Definition commissions_ok (w : World) : Prop := forall id,
  uval (rd w (ValExecution.commission (vars.val_execution id))) <= MON /\
  uval (rd w (ConsensusView.commission (vars.consensus_view id))) <= MON /\
  uval (rd w (ConsensusView.commission (vars.snapshot_view id))) <= MON.

Lemma commissions_about : about sensitive commissions_ok.
Proof.
  intros w w' Heq Hok id. specialize (Hok id).
  assert (E : forall o i, 0 <= i < capacity o -> sensitive o i = true ->
    rd w' (svar (T := u256) o i) = rd w (svar o i)).
  { intros o i Hi Hs. apply rd_same_slots. intros j Hj. change (nslots u256) with 1%nat in Hj.
    assert (j = 0%nat) as -> by lia. rewrite sv_slot_svar. change (Z.of_nat 0) with 0.
    rewrite Z.add_0_r. by apply Heq. }
  unfold_vars. by rewrite !E.
Qed.

(** A word written at one slot is read back there and nowhere else. *)
Lemma rd_wr_cases w o i o' i' (c : u256) :
  0 <= i < capacity o -> 0 <= i' < capacity o' ->
  rd (wr w (svar o i) c) (svar (T := u256) o' i') = c \/
  rd (wr w (svar o i) c) (svar (T := u256) o' i') = rd w (svar o' i').
Proof.
  intros Hi Hi'. rewrite wr_word, !rd_word. cbn [svar sv_address sv_offset].
  rewrite slot_set_slot. case_decide; auto.
Qed.

(** Rates are only ever copied, cleared, or checked against the maximum. *)
Lemma commissions_wr w o i (c : u256) :
  0 <= i < capacity o -> uval c <= MON -> commissions_ok w -> commissions_ok (wr w (svar o i) c).
Proof.
  intros Hi Hc Hok id. destruct (Hok id) as (H1 & H2 & H3). unfold_vars.
  assert (Hcase : forall o' i', 0 <= i' < capacity o' -> uval (rd w (svar (T := u256) o' i')) <= MON ->
    uval (rd (wr w (svar o i) c) (svar (T := u256) o' i')) <= MON).
  { intros o' i' Hi' Hle. destruct (rd_wr_cases w o i o' i' c Hi Hi') as [E|E]; rewrite E;
      assumption. }
  split_and!; (apply Hcase; [owed_side|assumption]).
Qed.

Lemma commissions_wipe w o i :
  0 <= i < capacity o -> commissions_ok w -> commissions_ok (wipe w (svar (T := u256) o i)).
Proof.
  intros Hi Hok. rewrite wipe_word, <- wr_word. apply commissions_wr; [done| |done].
  rewrite uval_wrap_0. vm_compute. discriminate.
Qed.

Lemma commission_step rev w w' : step rev w w' -> commissions_ok w -> commissions_ok w'.
Proof.
  apply keeps_steps; [apply commissions_about|..].
  - intros id c Hc w0 Hw0. wline. unfold_vars. by apply commissions_wr; [owed_side|..].
  - intros id w0 Hw0. wline. unfold_vars. apply commissions_wr; [owed_side| |assumption].
    exact (proj1 (proj2 (Hw0 id))).
  - intros id w0 Hw0. wline. unfold_vars. apply commissions_wr; [owed_side| |assumption].
    exact (proj1 (Hw0 id)).
  - intros id w0 Hw0. wline. unfold_vars. by apply commissions_wipe; [owed_side|].
  - intros id w0 Hw0. wline. unfold_vars. by apply commissions_wipe; [owed_side|].
  - intros a id w0 Hw0. wline. intros id'. specialize (Hw0 id'). unfold_vars. by worlds.
  - intros a id w0 Hw0. wline. intros id'. specialize (Hw0 id'). unfold_vars. by worlds.
  - intros id w0 Hw0. wline. intros id'. specialize (Hw0 id'). unfold_vars. by worlds.
  - intros w0 e Hw0 _ id'. specialize (Hw0 id'). unfold_vars. by worlds.
Qed.

Lemma solvent_step rev w w' : step rev w w' -> solvent w -> solvent w'.
Proof. intros Hs Hw. pose proof (step_surplus rev w w' Hs Hw). unfold solvent in *. lia. Qed.

(** ** Playing a sequence of calls *)
Inductive action :=
| ASys (calldata : byte_string) (value : u256)
| ACall (msg : evmc_message).

Definition act (rev : monad_revision) (x : action) (w : World) : option World :=
  match x with
  | ASys calldata value =>
      match run (execute_staking_syscall rev calldata value) w with
      | (ROk _, w') => Some w'
      | _ => None
      end
  | ACall msg =>
      if negb (msg_sender_ msg =w? STAKING_CA) && (msg_code_address msg =w? STAKING_CA) then
        match run (call_staking rev false msg) w with
        | (ROk (Some r), w') =>
            match status_code r with EVMC_SUCCESS => Some w' | _ => None end
        | _ => None
        end
      else None
  end.

Fixpoint play (rev : monad_revision) (l : list action) (w : World) : option World :=
  match l with
  | [] => Some w
  | x :: l' => match act rev x w with Some w' => play rev l' w' | None => None end
  end.

Lemma play_steps rev l w w' : play rev l w = Some w' -> rtc any_step w w'.
Proof.
  revert w. induction l as [|x l IH]; intros w; simpl; [intros [= <-]; apply rtc_refl|].
  destruct (act rev x w) as [w1|] eqn:E; [|discriminate]. intros Hp.
  apply rtc_l with w1; [|by apply IH]. exists rev. destruct x as [d v|msg]; simpl in E.
  - destruct (run _ w) as [[[]|e|m|] w2] eqn:Er; try discriminate. injection E as <-.
    by apply (step_syscall rev w d v).
  - destruct (weqb_spec (msg_sender_ msg) STAKING_CA); [discriminate|].
    destruct (weqb_spec (msg_code_address msg) STAKING_CA); [|discriminate]. simpl in E.
    destruct (run _ w) as [[[r|]|e'|m|] w2] eqn:Er; try discriminate.
    destruct (status_code r) eqn:Es; try discriminate. injection E as <-.
    by apply (step_call rev w false msg r).
Qed.
End reachable.

(** ** A validator's life, as a sequence of calls *)
Definition life : list action := [
  ACall (message (mon 10000000) (register_data (mon 10000000) #100000000000000000));
  ASys snapshot_data #0; ASys (epoch_data #1) #0; ASys reward_data (mon 25);
  ACall (message #0 (call_data PrecompileSelector.CLAIM_REWARDS [ #1 ]));
  ACall (message #0 (call_data PrecompileSelector.UNDELEGATE [ #1; mon 4000000; #0 ]));
  ASys snapshot_data #0; ASys (epoch_data #2) #0; ASys (epoch_data #3) #0;
  ACall (message #0 (call_data PrecompileSelector.WITHDRAW [ #1; #0 ]))].

Definition retired : World := default funded (play MONAD_FIVE life funded).

Lemma life_plays : has_value (play MONAD_FIVE life funded) = true.
Proof. vm_compute. reflexivity. Qed.

Lemma play_life : play MONAD_FIVE life funded = Some retired.
Proof.
  unfold retired. pose proof life_plays as Hv.
  destruct (play MONAD_FIVE life funded) as [w|]; [reflexivity|discriminate Hv].
Qed.

Lemma funded_fresh k : slot funded STAKING_CA k = #0.
Proof. reflexivity. Qed.

(** The stake and the reward come back in full. *)
Example retired_balance :
  (uval (balance retired alice) =? mon 14000025) && (uval (balance retired STAKING_CA) =? mon 6000000)
  = true.
Proof. vm_compute. reflexivity. Qed.

(** ** Theorems *)

(** C3: solvency.  Start from a world in which the contract's storage is empty;
    then, after any sequence of successful precompile calls, system transactions
    and unrelated activity, under any revisions, the contract's balance covers
    the sum of all stakes, pending stakes, rewards, withdrawal requests and
    unclaimed rewards its storage records. *)
Theorem solvency_reachable `{Crypto} (w0 w : World) :
  (forall k, slot w0 STAKING_CA k = #0) -> rtc any_step w0 w ->
  liabilities w <= balance w STAKING_CA.
Proof.
  intros Hz Hs. apply solvent_iff.
  apply (rtc_invariant solvent w0); [apply solvent_step|done|by apply solvent_fresh].
Qed.

Lemma solvency_reachable_witness : liabilities retired <= balance retired STAKING_CA.
Proof.
  apply (solvency_reachable funded); [exact funded_fresh|].
  apply (play_steps MONAD_FIVE life). exact play_life.
Defined.

(** C6: a solvent contract can always pay.  In a world where the balance covers
    the liabilities, no method of the contract, with any input, ends in the
    "withdrawal insolvent" assertion of withdraw or in a balance underflow. *)
Theorem payouts_never_insolvent `{Crypto} rev f input sender value (w : World) :
  solvent w ->
  (run (call_method rev f input sender value) w).1 <> RThrow "withdrawal insolvent" /\
  (run (call_method rev f input sender value) w).1 <> RThrow "balance underflow".
Proof.
  intros Hs. pose proof (call_method_ok rev f input sender value w Hs) as Hok. unfold wp in Hok.
  destruct (run (call_method rev f input sender value) w) as [[out|e|m|] w']; simpl; try done.
  destruct Hok as [H1 H2]. split; congruence.
Qed.

Lemma payouts_never_insolvent_witness :
  solvent funded /\ (run (call_method MONAD_FIVE precompile_withdraw_ [] alice #0) funded).1 <>
    RThrow "withdrawal insolvent".
Proof.
  assert (Hs : solvent funded) by exact (solvent_fresh funded funded_fresh).
  split; [exact Hs|].
  exact (proj1 (payouts_never_insolvent MONAD_FIVE precompile_withdraw_ [] alice #0 funded Hs)).
Defined.

(** The epoch never goes back, whatever is called. *)
Theorem epoch_monotone `{Crypto} (w w' : World) :
  rtc any_step w w' -> uval (rd w vars.epoch) <= rd w' vars.epoch.
Proof.
  intros Hs. apply (rtc_invariant (epoch_from (rd w vars.epoch)) w); [|done|by unfold epoch_from].
  intros rev w1 w2. apply epoch_step.
Qed.

Lemma epoch_monotone_witness :
  uval (rd funded vars.epoch) <= rd retired vars.epoch.
Proof.
  apply epoch_monotone, (play_steps MONAD_FIVE life). exact play_life.
Defined.

(** No commission rate, of a validator or of a view used for rewards, ever
    exceeds 100% (1e18); so a commission never exceeds the reward it is taken
    from. *)
Theorem commission_bounded `{Crypto} (w0 w : World) :
  (forall k, slot w0 STAKING_CA k = #0) -> rtc any_step w0 w -> commissions_ok w.
Proof.
  intros Hz Hs. apply (rtc_invariant commissions_ok w0); [apply commission_step|done|].
  intros id. unfold_vars. rewrite !rd_word. cbn [svar sv_address sv_offset]. rewrite !Hz, uval_wrap_0.
  split_and!; vm_compute; discriminate.
Qed.

Lemma commission_bounded_witness : commissions_ok retired.
Proof.
  apply (commission_bounded funded); [exact funded_fresh|].
  apply (play_steps MONAD_FIVE life). exact play_life.
Defined.
