(* ===== verification/Rlp.v ===== *)
(** * RLP

    Models src/category/execution/ethereum/rlp/{encode2,decode}.hpp and the
    primitive encodings of ethereum/core/rlp/{int,address,bytes}_rlp.hpp.  A
    decoder takes the input by reference and advances it: it returns the value and
    the rest of the input, a [DecodeError], or the abort of a failed
    [MONAD_ASSERT].  Parsing inverts encoding, and only canonical encodings parse. *)
From S2P Require Import Prelude Abi.

Inductive DecodeError :=
| TypeUnexpected | Overflow | InputTooLong | InputTooShort | ArrayLengthUnexpected
| InvalidTxnType | LeadingZero | PathTooShort | PathTooLong.

Inductive decoded (A : Type) :=
| Decoded (x : A) (enc : byte_string)
| DecodeFail (e : DecodeError)
| DecodeAbort.
Arguments Decoded {A} _ _.
Arguments DecodeFail {A} _.
Arguments DecodeAbort {A}.

(** A decoder reads from the front of its input. *)
Definition decoder (A : Type) : Type := byte_string -> decoded A.

Definition dret {A} (x : A) : decoder A := fun enc => Decoded x enc.
Definition dfail {A} (e : DecodeError) : decoder A := fun _ => DecodeFail e.
Definition dassert (b : bool) : decoder unit := fun enc => if b then Decoded tt enc else DecodeAbort.
Definition dbind {A C} (m : decoder A) (k : A -> decoder C) : decoder C := fun enc =>
  match m enc with
  | Decoded x rest => k x rest
  | DecodeFail e => DecodeFail e
  | DecodeAbort => DecodeAbort
  end.
(** [if (MONAD_UNLIKELY(b)) return e]. *)
Definition dreject (b : bool) (e : DecodeError) : decoder unit := if b then dfail e else dret tt.
(** Run a decoder on a payload of its own. *)
Definition dwithin {A} (payload : byte_string) (m : decoder A) : decoder A := fun enc =>
  match m payload with
  | Decoded x _ => Decoded x enc
  | DecodeFail e => DecodeFail e
  | DecodeAbort => DecodeAbort
  end.
(** [payload.empty()] at the end of a list. *)
Definition dend : decoder unit := fun enc =>
  match enc with [] => Decoded tt enc | _ => DecodeFail InputTooLong end.

Declare Scope dec_scope.
Delimit Scope dec_scope with dec.
Notation "x <- c ;; k" := (dbind c (fun x => k))
  (at level 100, c at next level, k at level 200, right associativity) : dec_scope.
Notation "c ;; k" := (dbind c (fun _ => k))
  (at level 100, k at level 200, right associativity) : dec_scope.
#[local] Open Scope dec_scope.

(** ** Encoding *)
Fixpoint zeroless_view (l : byte_string) : byte_string :=
  match l with
  | [] => []
  | b :: rest => if b =? 0 then zeroless_view rest else l
  end.

(** [bswap] and [zeroless_view] of the bytes of an [n]-bit integer. *)
Definition to_big_compact {n} (x : uword n) : byte_string :=
  zeroless_view (to_bytes (N.to_nat (n / 8)) x).

Definition encode_string2 (s : byte_string) : byte_string :=
  let size : u32 := #(zlen s) in
  if (size =? 1) && (default #0 (head s) <=? 0x7f) then s
  else if 55 <? size then
    let size_str := to_big_compact size in
    #(0xb7 + zlen size_str) :: size_str ++ s
  else #(0x80 + size) :: s.

(** [encode_list2(args...)] depends on its arguments through what they append to. *)
Definition encode_list2 (args : byte_string) : byte_string :=
  let size : u64 := #(zlen args) in
  if 55 <? size then
    let size_str := to_big_compact size in
    #(0xf7 + zlen size_str) :: size_str ++ args
  else #(0xc0 + size) :: args.

Definition encode_unsigned {n} (x : uword n) : byte_string := encode_string2 (to_big_compact x).

(** The bytes of an [Address] and of a [bytes32_t]. *)
Definition encode_address (a : option address) : byte_string :=
  match a with
  | None => [ #0x80 ]
  | Some a => encode_string2 (to_bytes 20 a)
  end.

Definition encode_bytes32 (x : bytes32) : byte_string := encode_string2 (to_bytes 32 x).

(** ** Decoding *)
Definition decode_raw_num (n : N) (enc : byte_string) : uword n + DecodeError :=
  if Z.of_N (n / 8) <? zlen enc then inr Overflow
  else match enc with
  | [] => inl #0
  | b :: _ => if b =? 0 then inr LeadingZero else inl #(bytes_val enc)
  end.

Definition decode_length (enc : byte_string) : u64 + DecodeError := decode_raw_num 64 enc.

Inductive RlpType := RlpString | RlpList.

Definition substr (pos n : Z) (l : byte_string) : byte_string := take (Z.to_nat n) (drop (Z.to_nat pos) l).

(** [keep] is [should_keep_rlp_header]. *)
Definition extract_payload (keep : bool) (i length : u64) : decoder byte_string := fun enc =>
  let end_ : u64 := #(i + length) in
  if (zlen enc <? end_) || (end_ <? i) then DecodeFail InputTooShort
  else Decoded (if keep then substr 0 end_ enc else substr i length enc) (drop (Z.to_nat end_) enc).

(** The length of a long string or list: [n] bytes of length follow the header. *)
Definition long_payload (keep : bool) (length_of_length : u8) : decoder byte_string := fun enc =>
  if zlen enc <=? 1 + length_of_length then DecodeFail InputTooShort
  else match decode_length (substr 1 length_of_length enc) with
  | inr e => DecodeFail e
  | inl length =>
      if length <? 56 then DecodeFail TypeUnexpected
      else extract_payload keep #(1 + length_of_length) length enc
  end.

Definition byte_at (i : nat) (enc : byte_string) : u8 := default #0 (enc !! i).

Module detail.
Definition parse_string_metadata : decoder byte_string := fun enc =>
  let b0 := byte_at 0 enc in
  if b0 <? 0x80 then extract_payload false #0 #1 enc
  else if b0 <? 0xb8 then
    let length : u64 := #(b0 - 0x80) in
    if length =? 1 then
      if zlen enc <? 2 then DecodeFail InputTooShort
      else if byte_at 1 enc <? 0x80 then DecodeFail TypeUnexpected
      else extract_payload false #1 length enc
    else extract_payload false #1 length enc
  else long_payload false #(b0 - 0xb7) enc.

Definition parse_list_metadata (keep : bool) : decoder byte_string := fun enc =>
  let b0 := byte_at 0 enc in
  if b0 <? 0xf8 then extract_payload keep #1 #(b0 - 0xc0) enc
  else long_payload keep #(b0 - 0xf7) enc.
End detail.

Definition parse_metadata : decoder (RlpType * byte_string) := fun enc =>
  match enc with
  | [] => DecodeFail InputTooShort
  | b0 :: _ =>
      if b0 <? 0xc0
      then (p <- detail.parse_string_metadata ;; dret (RlpString, p)) enc
      else (p <- detail.parse_list_metadata false ;; dret (RlpList, p)) enc
  end.

Definition parse_string_metadata : decoder byte_string := fun enc =>
  match enc with
  | [] => DecodeFail InputTooShort
  | b0 :: _ => if 0xc0 <=? b0 then DecodeFail TypeUnexpected else detail.parse_string_metadata enc
  end.

Definition parse_list_metadata_ (keep : bool) : decoder byte_string := fun enc =>
  match enc with
  | [] => DecodeFail InputTooShort
  | b0 :: _ => if b0 <? 0xc0 then DecodeFail TypeUnexpected else detail.parse_list_metadata keep enc
  end.
Definition parse_list_metadata : decoder byte_string := parse_list_metadata_ false.
Definition parse_list_metadata_raw : decoder byte_string := parse_list_metadata_ true.

Definition decode_string : decoder byte_string := parse_string_metadata.

Definition decode_byte_string_fixed (N : nat) : decoder byte_string :=
  payload <- parse_string_metadata ;;
  dreject (negb (length payload =? N)%nat) ArrayLengthUnexpected ;;
  dret payload.

Definition decode_unsigned (n : N) : decoder (uword n) :=
  payload <- parse_string_metadata ;;
  match decode_raw_num n payload with
  | inl x => dret x
  | inr e => dfail e
  end.

Definition decode_bool : decoder bool :=
  i <- decode_unsigned 64 ;;
  dreject (1 <? i) Overflow ;;
  dret (negb (i =? 0)).

Definition decode_address : decoder address :=
  b <- decode_byte_string_fixed 20 ;; dret #(bytes_val b).

Definition decode_optional_address : decoder (option address) :=
  payload <- parse_string_metadata ;;
  if (length payload =? 20)%nat then dret (Some #(bytes_val payload))
  else if (20 <? length payload)%nat then dfail InputTooLong
  else match payload with
  | [] => dret None
  | _ => dfail InputTooShort
  end.

Definition decode_bytes32 : decoder bytes32 :=
  b <- decode_byte_string_fixed 32 ;; dret #(bytes_val b).

(** ** Compact integers *)

(** No leading zero. *)
Definition compact (l : byte_string) : Prop := forall b rest, l = b :: rest -> uval b <> 0.

Lemma zeroless_compact l : compact (zeroless_view l).
Proof.
  induction l as [|b l IH]; simpl; [done|]. destruct (Z.eqb_spec b 0); [done|].
  by intros c rest [= -> ->].
Qed.

Lemma bytes_val_zeroless l : bytes_val (zeroless_view l) = bytes_val l.
Proof.
  induction l as [|b l IH]; simpl; [done|]. destruct (Z.eqb_spec b 0) as [E|]; [|done].
  rewrite IH, E. lia.
Qed.

Lemma length_zeroless l : zlen (zeroless_view l) <= zlen l.
Proof.
  unfold zlen. induction l as [|b l IH]; simpl; [done|]. destruct (b =? 0); simpl; lia.
Qed.

Lemma zeroless_compact_id l : compact l -> zeroless_view l = l.
Proof.
  destruct l as [|b l]; [done|]. intros H. simpl. destruct (Z.eqb_spec b 0) as [E|]; [|done].
  by destruct (H b l eq_refl).
Qed.

Lemma bytes_val_inj l l' : length l = length l' -> bytes_val l = bytes_val l' -> l = l'.
Proof.
  revert l'. induction l as [|b l IH]; intros [|b' l'] Hlen Hv; simpl in *; try done.
  injection Hlen as Hlen. rewrite Hlen in Hv. pose proof (bytes_val_range l) as H1.
  pose proof (bytes_val_range l') as H2. unfold zlen in *. rewrite Hlen in H1.
  assert (Hb : uval b = uval b').
  { apply (f_equal (fun z => z / 256 ^ Z.of_nat (length l'))) in Hv.
    by rewrite !Z.div_add_l, !Z.div_small, !Z.add_0_r in Hv by lia. }
  f_equal; [by apply uval_inj|]. apply IH; [done|]. rewrite Hb in Hv. lia.
Qed.

Lemma to_bytes_val l : to_bytes (length l) (bytes_val l) = l.
Proof.
  apply bytes_val_inj; [apply length_to_bytes|]. rewrite bytes_val_to_bytes.
  apply Z.mod_small, bytes_val_range.
Qed.

(** Compact strings are the compact form of their value. *)
Lemma zeroless_to_bytes k l :
  compact l -> (length l <= k)%nat -> zeroless_view (to_bytes k (bytes_val l)) = l.
Proof.
  intros Hc Hk. remember (k - length l)%nat as j eqn:Ej.
  assert (k = j + length l)%nat as -> by lia. clear Hk Ej.
  induction j as [|j IH]; [cbn [Nat.add]; by rewrite to_bytes_val, zeroless_compact_id|].
  cbn [Nat.add to_bytes]. cbn [zeroless_view].
  destruct (Z.eqb_spec (wrap 8 (bytes_val l / 256 ^ Z.of_nat (j + length l))) 0) as [_|Hn]; [done|].
  destruct Hn. pose proof (bytes_val_range l) as Hr. unfold zlen in Hr.
  rewrite Z.div_small; [apply uval_wrap_0|]. split; [lia|].
  eapply Z.lt_le_trans; [apply Hr|]. apply Z.pow_le_mono_r; lia.
Qed.

Lemma zlen_nonneg {A} (l : list A) : 0 <= zlen l.
Proof. unfold zlen. lia. Qed.

(** An [n]-bit integer, [n] a number of whole bytes. *)
Section compact.
Context (k : nat).
Abbreviation n := (8 * N.of_nat k)%N.

Lemma bytes_of_width : N.to_nat (n / 8) = k.
Proof. rewrite N.mul_comm, N.div_mul by done. lia. Qed.

Lemma modulus_bytes : modulus n = 256 ^ Z.of_nat k.
Proof. unfold modulus. replace 256 with (2 ^ 8) by done. rewrite <- Z.pow_mul_r by lia. f_equal. lia. Qed.

Lemma length_compact (x : uword n) : zlen (to_big_compact x) <= Z.of_nat k.
Proof.
  unfold to_big_compact. rewrite bytes_of_width. etrans; [apply length_zeroless|].
  unfold zlen. by rewrite length_to_bytes.
Qed.

Lemma bytes_val_compact (x : uword n) : bytes_val (to_big_compact x) = x.
Proof.
  unfold to_big_compact. rewrite bytes_of_width, bytes_val_zeroless, bytes_val_to_bytes, <- modulus_bytes.
  apply Z.mod_small, uword_range.
Qed.

Lemma decode_raw_num_compact (x : uword n) : decode_raw_num n (to_big_compact x) = inl x.
Proof.
  unfold decode_raw_num. pose proof (length_compact x) as Hl.
  replace (Z.of_N (n / 8)) with (Z.of_nat k) by (rewrite <- bytes_of_width at 1; lia).
  destruct (Z.ltb_spec (Z.of_nat k) (zlen (to_big_compact x))); [lia|].
  pose proof (bytes_val_compact x) as Hv. destruct (to_big_compact x) as [|b l] eqn:E.
  - simpl in Hv. f_equal. apply uval_inj. by rewrite uval_wrap_0, Hv.
  - destruct (Z.eqb_spec b 0) as [Hb|_].
    + exfalso. by apply (zeroless_compact (to_bytes (N.to_nat (n / 8)) x) b l E).
    + f_equal. rewrite Hv. apply wrap_uval.
Qed.

(** The inverse: what decodes is compact and is the compact form of its value. *)
Lemma decode_raw_num_inv l (x : uword n) :
  decode_raw_num n l = inl x -> compact l /\ bytes_val l = x /\ zlen l <= Z.of_nat k.
Proof.
  unfold decode_raw_num. replace (Z.of_N (n / 8)) with (Z.of_nat k) by (rewrite <- bytes_of_width at 1; lia).
  destruct (Z.ltb_spec (Z.of_nat k) (zlen l)) as [|Hl]; [done|]. destruct l as [|b l].
  - intros [= <-]. split_and!; [done|by rewrite uval_wrap_0|done].
  - destruct (Z.eqb_spec b 0) as [|Hb]; [done|]. intros [= <-]. split_and!; [by intros ?? [= -> _]| |done].
    symmetry. apply uval_wrap_small. pose proof (bytes_val_range (b :: l)) as Hr. split; [lia|].
    rewrite modulus_bytes. eapply Z.lt_le_trans; [apply Hr|]. apply Z.pow_le_mono_r; lia.
Qed.
End compact.

(** ** Headers *)
Lemma zlen_cons {A} (x : A) l : zlen (x :: l) = 1 + zlen l.
Proof. unfold zlen. simpl. lia. Qed.
Lemma zlen_app {A} (l l' : list A) : zlen (l ++ l') = zlen l + zlen l'.
Proof. unfold zlen. rewrite length_app. lia. Qed.
Lemma to_nat_zlen {A} (l : list A) : Z.to_nat (zlen l) = length l.
Proof. unfold zlen. lia. Qed.

Lemma extract_run (hd p rest : byte_string) (i length : u64) :
  uval i = zlen hd -> uval length = zlen p -> zlen hd + zlen p < modulus 64 ->
  extract_payload false i length (hd ++ p ++ rest) = Decoded p rest.
Proof.
  intros Ei El Hf. pose proof (zlen_nonneg hd). pose proof (zlen_nonneg p). pose proof (zlen_nonneg rest).
  unfold extract_payload. rewrite Ei, El, uval_wrap_small by lia. rewrite !zlen_app.
  destruct (Z.ltb_spec (zlen hd + (zlen p + zlen rest)) (zlen hd + zlen p)); [lia|].
  destruct (Z.ltb_spec (zlen hd + zlen p) (zlen hd)); [lia|]. cbn [orb]. unfold substr.
  rewrite !to_nat_zlen, Z2Nat.inj_add, !to_nat_zlen by lia. f_equal.
  - by rewrite drop_app_length, take_app_length.
  - by rewrite app_assoc, drop_app_length' by (by rewrite length_app).
Qed.

Lemma extract_inv (enc p rest : byte_string) (i length : u64) :
  extract_payload false i length enc = Decoded p rest ->
  exists hd, enc = hd ++ p ++ rest /\ zlen hd = i /\ zlen p = length.
Proof.
  unfold extract_payload. set (e := wrap 64 (i + length)).
  destruct (Z.ltb_spec (zlen enc) e) as [|He]; [done|]. destruct (Z.ltb_spec e i) as [|Hi]; [done|].
  cbn [orb]. intros [= <- <-]. pose proof (uword_range i). pose proof (uword_range length).
  assert (Ee : uval e = i + length).
  { unfold e in *. rewrite uval_wrap in *.
    destruct (Z.lt_ge_cases (i + length) (modulus 64)) as [Hl|Hg]; [by rewrite Z.mod_small by lia|].
    exfalso. replace ((i + length) mod modulus 64) with (i + length - modulus 64) in Hi; [lia|].
    apply Z.mod_unique with 1; lia. }
  rewrite Ee in *. unfold zlen in *.
  exists (take (Z.to_nat i) enc). unfold substr. split_and!.
  - rewrite <- (take_drop (Z.to_nat i) enc) at 1. f_equal.
    rewrite <- (take_drop (Z.to_nat length) (drop (Z.to_nat i) enc)) at 1. f_equal.
    rewrite drop_drop. f_equal. lia.
  - rewrite length_take. lia.
  - rewrite length_take, length_drop. lia.
Qed.

Lemma substr_1 n b l : substr 1 n (b :: l) = take (Z.to_nat n) l.
Proof. done. Qed.

Lemma long_run (b0 : u8) (size_str p rest : byte_string) (lol : u8) :
  compact size_str -> bytes_val size_str = zlen p -> zlen size_str <= 8 -> uval lol = zlen size_str ->
  56 <= zlen p -> 9 + zlen p < modulus 64 ->
  long_payload false lol (b0 :: size_str ++ p ++ rest) = Decoded p rest.
Proof.
  intros Hc Hv Hl El Hp Hf. pose proof (zlen_nonneg size_str). pose proof (zlen_nonneg rest).
  unfold long_payload. rewrite El, zlen_cons, !zlen_app.
  destruct (Z.leb_spec (1 + (zlen size_str + (zlen p + zlen rest))) (1 + zlen size_str)); [lia|].
  replace (substr 1 (zlen size_str) (b0 :: size_str ++ p ++ rest)) with size_str.
  2:{ by rewrite substr_1, to_nat_zlen, take_app_length. }
  unfold decode_length, decode_raw_num. change (Z.of_N (64 / 8)) with 8.
  destruct (Z.ltb_spec 8 (zlen size_str)); [lia|].
  destruct size_str as [|b l]; [simpl in Hv; lia|].
  destruct (Z.eqb_spec b 0) as [Eb|_]; [by destruct (Hc b l eq_refl)|].
  rewrite Hv, uval_wrap_small by lia. destruct (Z.ltb_spec (zlen p) 56); [lia|].
  change (b0 :: (b :: l) ++ p ++ rest) with ((b0 :: b :: l) ++ p ++ rest).
  rewrite <- Hv. apply extract_run.
  - rewrite uval_wrap_small, !zlen_cons; [done|]. rewrite zlen_cons in *. unfold modulus. simpl. lia.
  - rewrite Hv. apply uval_wrap_small. lia.
  - rewrite !zlen_cons in *. lia.
Qed.

Lemma long_inv (enc p rest : byte_string) (lol : u8) b0 :
  1 <= uval lol <= 8 ->
  long_payload false lol (b0 :: enc) = Decoded p rest ->
  exists size_str, enc = size_str ++ p ++ rest /\ compact size_str /\ bytes_val size_str = zlen p /\
    zlen size_str = lol /\ 56 <= zlen p.
Proof.
  intros Hlol. unfold long_payload. rewrite zlen_cons.
  destruct (Z.leb_spec (1 + zlen enc) (1 + lol)) as [|He]; [done|].
  destruct (decode_length _) as [len|e] eqn:Ed; [|done].
  destruct (Z.ltb_spec len 56) as [|Hlen]; [done|]. intros (hd & E & Eh & Ep)%extract_inv.
  apply (decode_raw_num_inv 8) in Ed as (Hc & Hv & Hl).
  assert (Eq1 : uval (wrap 64 (1 + lol)) = 1 + lol) by (apply uval_wrap_small; unfold modulus; simpl; lia).
  rewrite Eq1 in Eh. destruct hd as [|b hd]; [unfold zlen in Eh; simpl in Eh; lia|].
  simpl in E. injection E as <- ->. rewrite zlen_cons in Eh.
  rewrite substr_1 in *.
  assert (Et : take (Z.to_nat lol) (hd ++ p ++ rest) = hd).
  { apply take_app_length'. rewrite <- (to_nat_zlen hd). f_equal. lia. }
  rewrite Et in Hc, Hv, Hl. exists hd. split_and!; try done; [by rewrite Hv, Ep|lia..].
Qed.

(** ** Strings and lists *)
Lemma wrap8_small z : 0 <= z < 256 -> uval (wrap 8 z) = z.
Proof. intros H. apply uval_wrap_small. exact H. Qed.

Lemma byte_at_0 b l : byte_at 0 (b :: l) = b.
Proof. done. Qed.

Lemma compact_size k (x : uword (8 * N.of_nat k)) :
  uval x <> 0 -> 1 <= zlen (to_big_compact x) <= Z.of_nat k.
Proof.
  intros Hx. split; [|apply length_compact]. pose proof (bytes_val_compact k x) as Hv.
  destruct (to_big_compact x) as [|b l]; [simpl in Hv; lia|]. rewrite zlen_cons.
  pose proof (zlen_nonneg l). lia.
Qed.

Lemma parse_encode_string s rest :
  zlen s < modulus 32 -> parse_string_metadata (encode_string2 s ++ rest) = Decoded s rest.
Proof.
  intros Hs. unfold encode_string2. pose proof (zlen_nonneg s) as H0.
  assert (Esz : uval (wrap 32 (zlen s)) = zlen s) by (apply uval_wrap_small; lia). rewrite Esz.
  assert (H32 : modulus 32 < modulus 64 - 9) by done.
  destruct (Z.eqb_spec (zlen s) 1) as [E1|N1]; [destruct (Z.leb_spec (default (wrap 8 0) (head s)) 0x7f) as [Hb|Hb]|];
    cbn [andb]; [| |destruct (Z.ltb_spec 55 (zlen s)) as [Hl|Hl]].
  - destruct s as [|b [|? ?]]; [done| |unfold zlen in E1; simpl in E1; lia]. simpl in Hb |- *.
    unfold parse_string_metadata, detail.parse_string_metadata, byte_at. simpl.
    destruct (Z.leb_spec 192 b); [lia|]. destruct (Z.ltb_spec b 128); [|lia].
    by apply (extract_run [] [b] rest).
  - destruct s as [|b [|? ?]]; [done| |unfold zlen in E1; simpl in E1; lia]. simpl in Hb |- *.
    unfold parse_string_metadata, detail.parse_string_metadata, byte_at. simpl.
    rewrite !zlen_cons. pose proof (zlen_nonneg rest).
    destruct (Z.ltb_spec (1 + (1 + zlen rest)) 2); [lia|]. destruct (Z.ltb_spec b 128); [lia|].
    by apply (extract_run [ #129 ] [b] rest).
  - pose proof (compact_size 4 (wrap 32 (zlen s))) as Hc.
    change (8 * N.of_nat 4)%N with 32%N in Hc. rewrite Esz in Hc. specialize (Hc ltac:(lia)).
    set (str := to_big_compact (wrap 32 (zlen s))) in *.
    assert (Eb : uval (wrap 8 (0xb7 + zlen str)) = 0xb7 + zlen str) by (apply wrap8_small; lia).
    rewrite <- app_comm_cons, <- app_assoc. unfold parse_string_metadata. rewrite Eb.
    destruct (Z.leb_spec 192 (0xb7 + zlen str)); [lia|].
    unfold detail.parse_string_metadata. cbv zeta. rewrite !byte_at_0, Eb.
    destruct (Z.ltb_spec (0xb7 + zlen str) 0x80); [lia|]. destruct (Z.ltb_spec (0xb7 + zlen str) 0xb8); [lia|].
    apply long_run; try lia.
    + apply zeroless_compact.
    + etrans; [apply (bytes_val_compact 4)|exact Esz].
    + rewrite wrap8_small; lia.
  - assert (Eb : uval (wrap 8 (0x80 + zlen s)) = 0x80 + zlen s) by (apply wrap8_small; lia).
    rewrite <- app_comm_cons. unfold parse_string_metadata. rewrite Eb.
    destruct (Z.leb_spec 192 (0x80 + zlen s)); [lia|].
    unfold detail.parse_string_metadata. cbv zeta. rewrite !byte_at_0, Eb.
    destruct (Z.ltb_spec (0x80 + zlen s) 0x80); [lia|]. destruct (Z.ltb_spec (0x80 + zlen s) 0xb8); [|lia].
    replace (0x80 + zlen s - 0x80) with (zlen s) by lia.
    rewrite (uval_wrap_small 64 (zlen s)) by lia. destruct (Z.eqb_spec (zlen s) 1); [done|].
    apply (extract_run [ wrap 8 (0x80 + zlen s) ] s rest); [done| |].
    + apply uval_wrap_small. lia.
    + unfold zlen at 1. simpl. lia.
Qed.

Lemma parse_encode_list p rest :
  9 + zlen p < modulus 64 -> parse_list_metadata (encode_list2 p ++ rest) = Decoded p rest.
Proof.
  intros Hs. unfold encode_list2. pose proof (zlen_nonneg p) as H0.
  assert (Esz : uval (wrap 64 (zlen p)) = zlen p) by (apply uval_wrap_small; lia). rewrite Esz.
  destruct (Z.ltb_spec 55 (zlen p)) as [Hl|Hl].
  - pose proof (compact_size 8 (wrap 64 (zlen p))) as Hc.
    change (8 * N.of_nat 8)%N with 64%N in Hc. rewrite Esz in Hc. specialize (Hc ltac:(lia)).
    set (str := to_big_compact (wrap 64 (zlen p))) in *.
    assert (Eb : uval (wrap 8 (0xf7 + zlen str)) = 0xf7 + zlen str) by (apply wrap8_small; lia).
    rewrite <- app_comm_cons, <- app_assoc. unfold parse_list_metadata, parse_list_metadata_. rewrite Eb.
    destruct (Z.ltb_spec (0xf7 + zlen str) 192); [lia|].
    unfold detail.parse_list_metadata. cbv zeta. rewrite !byte_at_0, Eb.
    destruct (Z.ltb_spec (0xf7 + zlen str) 0xf8); [lia|].
    apply long_run; try lia.
    + apply zeroless_compact.
    + etrans; [apply (bytes_val_compact 8)|exact Esz].
    + rewrite wrap8_small; lia.
  - assert (Eb : uval (wrap 8 (0xc0 + zlen p)) = 0xc0 + zlen p) by (apply wrap8_small; lia).
    rewrite <- app_comm_cons. unfold parse_list_metadata, parse_list_metadata_. rewrite Eb.
    destruct (Z.ltb_spec (0xc0 + zlen p) 192); [lia|].
    unfold detail.parse_list_metadata. cbv zeta. rewrite !byte_at_0, Eb.
    destruct (Z.ltb_spec (0xc0 + zlen p) 0xf8); [|lia].
    replace (0xc0 + zlen p - 0xc0) with (zlen p) by lia.
    apply (extract_run [ wrap 8 (0xc0 + zlen p) ] p rest); [done|done|].
    unfold zlen at 1. simpl. lia.
Qed.

(** The header of a long payload is the compact form of its length. *)
Lemma long_header k (b0 : u8) str (p : byte_string) base :
  compact str -> bytes_val str = zlen p -> zlen p < modulus (8 * N.of_nat k) ->
  uval (wrap 8 (b0 - base)) = zlen str -> 0 <= b0 - base -> (length str <= k)%nat ->
  to_big_compact (wrap (8 * N.of_nat k) (zlen p)) = str /\ b0 = wrap 8 (base + zlen str).
Proof.
  intros Hc Hv Hp Hb Hbb Hk. pose proof (zlen_nonneg p). pose proof (uword_range b0). split.
  - unfold to_big_compact. rewrite bytes_of_width, uval_wrap_small, <- Hv by lia. by apply zeroless_to_bytes.
  - rewrite <- Hb. apply uval_inj. rewrite !uval_wrap, Zplus_mod_idemp_r.
    replace (base + (b0 - base)) with (uval b0) by lia. symmetry. by apply Z.mod_small.
Qed.

(** A compact string that denotes less than [256 ^ k] has at most [k] bytes. *)
Lemma compact_short k str :
  compact str -> bytes_val str < 256 ^ Z.of_nat k -> (length str <= k)%nat.
Proof.
  intros Hc Hv. destruct str as [|b l]; [simpl; lia|]. destruct (le_lt_dec (length (b :: l)) k) as [|Hlt]; [done|].
  exfalso. simpl in *. pose proof (Hc b l eq_refl). pose proof (uword_range b).
  pose proof (bytes_val_range l). assert (256 ^ Z.of_nat k <= 256 ^ Z.of_nat (length l)) by (apply Z.pow_le_mono_r; lia).
  nia.
Qed.

Lemma encode_parse_string enc p rest :
  zlen p < modulus 32 -> parse_string_metadata enc = Decoded p rest -> enc = encode_string2 p ++ rest.
Proof.
  intros Hp. unfold parse_string_metadata. destruct enc as [|b0 enc]; [done|].
  destruct (Z.leb_spec 0xc0 b0) as [|Hb0]; [done|]. pose proof (uword_range b0) as Hr0.
  unfold detail.parse_string_metadata. cbv zeta. rewrite !byte_at_0. pose proof (zlen_nonneg p) as H0.
  assert (Esz : uval (wrap 32 (zlen p)) = zlen p) by (apply uval_wrap_small; lia).
  unfold encode_string2. rewrite Esz. destruct (Z.ltb_spec b0 0x80) as [Hs|Hs].
  { intros (hd & E & Eh & Ep)%extract_inv. rewrite uval_wrap_small in Eh, Ep by done.
    destruct hd as [|? ?]; [|rewrite zlen_cons in Eh; pose proof (zlen_nonneg hd); lia].
    destruct p as [|b [|? p]]; [done| |rewrite !zlen_cons in Ep; pose proof (zlen_nonneg p); lia].
    simpl in E. injection E as <- ->. simpl. by destruct (Z.leb_spec b0 127); [|lia]. }
  destruct (Z.ltb_spec b0 0xb8) as [Hm|Hm].
  - assert (Elen : uval (wrap 64 (b0 - 128)) = b0 - 128) by (apply uval_wrap_small; unfold modulus; simpl; lia).
    rewrite Elen.
    assert (Hgo : (b0 - 128 = 1 -> 128 <= byte_at 1 (b0 :: enc)) ->
      extract_payload false (wrap 64 1) (wrap 64 (b0 - 128)) (b0 :: enc) = Decoded p rest ->
      b0 :: enc = (if (zlen p =? 1) && (default (wrap 8 0) (head p) <=? 127) then p
        else if 55 <? zlen p
             then wrap 8 (183 + zlen (to_big_compact (wrap 32 (zlen p)))) :: to_big_compact (wrap 32 (zlen p)) ++ p
             else wrap 8 (128 + zlen p) :: p) ++ rest).
    { intros H1 (hd & E & Eh & Ep)%extract_inv. rewrite Elen in Ep. rewrite uval_wrap_small in Eh by done.
      destruct hd as [|b [|? hd]]; [done| |rewrite !zlen_cons in Eh; pose proof (zlen_nonneg hd); lia].
      simpl in E. injection E as <- ->.
      replace ((zlen p =? 1) && (default (wrap 8 0) (head p) <=? 127)) with false.
      2:{ destruct (Z.eqb_spec (zlen p) 1) as [E1|]; [|done]. specialize (H1 ltac:(lia)).
          destruct p as [|c p]; [done|]. change (128 <= c) in H1. simpl. by destruct (Z.leb_spec c 127); [lia|]. }
      destruct (Z.ltb_spec 55 (zlen p)); [lia|]. simpl. f_equal. apply uval_inj. rewrite wrap8_small; lia. }
    destruct (Z.eqb_spec (b0 - 128) 1) as [E1|N1]; [|by apply Hgo].
    destruct (zlen (b0 :: enc) <? 2); [done|]. destruct (Z.ltb_spec (byte_at 1 (b0 :: enc)) 128); [done|].
    by apply Hgo.
  - assert (El : uval (wrap 8 (b0 - 183)) = b0 - 183) by (apply wrap8_small; unfold modulus in Hr0; simpl in Hr0; lia).
    intros (str & -> & Hc & Hv & Hl & H56)%long_inv; [|lia].
    destruct (Z.eqb_spec (zlen p) 1); [lia|]. cbn [andb]. destruct (Z.ltb_spec 55 (zlen p)); [|lia].
    destruct (long_header 4 b0 str p 183) as [E1 E2]; try done; try lia.
    { apply compact_short; [done|]. by rewrite Hv. }
    change (8 * N.of_nat 4)%N with 32%N in E1. rewrite E1, <- E2, <- app_comm_cons, <- app_assoc. done.
Qed.

Lemma encode_parse_list enc p rest :
  parse_list_metadata enc = Decoded p rest -> enc = encode_list2 p ++ rest.
Proof.
  unfold parse_list_metadata, parse_list_metadata_. destruct enc as [|b0 enc]; [done|].
  destruct (Z.ltb_spec b0 0xc0) as [|Hb0]; [done|]. pose proof (uword_range b0) as Hr0.
  unfold detail.parse_list_metadata. cbv zeta. rewrite !byte_at_0. pose proof (zlen_nonneg p) as H0.
  unfold encode_list2. destruct (Z.ltb_spec b0 0xf8) as [Hm|Hm].
  - assert (Elen : uval (wrap 64 (b0 - 192)) = b0 - 192) by (apply uval_wrap_small; unfold modulus; simpl; lia).
    intros (hd & E & Eh & Ep)%extract_inv. rewrite Elen in Ep. rewrite uval_wrap_small in Eh by done.
    destruct hd as [|b [|? hd]]; [done| |rewrite !zlen_cons in Eh; pose proof (zlen_nonneg hd); lia].
    simpl in E. injection E as <- ->. rewrite Ep, Elen. destruct (Z.ltb_spec 55 (b0 - 192)); [lia|].
    simpl. f_equal. apply uval_inj. rewrite wrap8_small; lia.
  - assert (El : uval (wrap 8 (b0 - 247)) = b0 - 247) by (apply wrap8_small; unfold modulus in Hr0; simpl in Hr0; lia).
    intros (str & -> & Hc & Hv & Hl & H56)%long_inv; [|change (modulus 8) with 256 in Hr0; lia].
    assert (Hlen : (length str <= 8)%nat) by (change (modulus 8) with 256 in Hr0; unfold zlen in Hl; lia).
    assert (Hp : zlen p < modulus 64).
    { rewrite <- Hv. eapply Z.lt_le_trans; [apply bytes_val_range|]. change (modulus 64) with (256 ^ 8).
      apply Z.pow_le_mono_r; unfold zlen; lia. }
    rewrite (uval_wrap_small 64 (zlen p)) by lia. destruct (Z.ltb_spec 55 (zlen p)); [|lia].
    destruct (long_header 8 b0 str p 247) as [E1 E2]; try done; try lia.
    change (8 * N.of_nat 8)%N with 64%N in E1. rewrite E1, <- E2, <- app_comm_cons, <- app_assoc. done.
Qed.

(** C24: RLP is canonical.  An input parses as a string (a list) with payload [p]
    and rest [rest] exactly if it is the encoding of [p] followed by [rest]: every
    encoding parses back and no second encoding of the same payload is accepted.  Payloads are shorter than 2^32
    bytes. *)
Theorem rlp_canonical enc p rest :
  zlen p < modulus 32 ->
  (parse_string_metadata enc = Decoded p rest <-> enc = encode_string2 p ++ rest) /\
  (parse_list_metadata enc = Decoded p rest <-> enc = encode_list2 p ++ rest).
Proof.
  intros Hp. assert (9 + zlen p < modulus 64) by (assert (modulus 32 < modulus 64 - 9) by done; lia).
  split; (split; [|intros ->]).
  - by apply encode_parse_string.
  - by apply parse_encode_string.
  - by apply encode_parse_list.
  - by apply parse_encode_list.
Qed.

Lemma rlp_canonical_witness :
  (parse_string_metadata [ #0x82; #1; #2; #9 ] = Decoded [ #1; #2 ] [ #9 ] <->
    [ #0x82; #1; #2; #9 ] = encode_string2 [ #1; #2 ] ++ [ #9 ]) /\
  (parse_list_metadata [ #0x82; #1; #2; #9 ] = Decoded [ #1; #2 ] [ #9 ] <->
    [ #0x82; #1; #2; #9 ] = encode_list2 [ #1; #2 ] ++ [ #9 ]).
Proof. apply rlp_canonical. vm_compute. reflexivity. Defined.
