(* ===== verification/Transaction.v ===== *)
(** * Transactions: data, gas and static validation

    Models the data of src/category/execution/ethereum/core/{transaction,
    signature}.{hpp,cpp}, the revision flags of src/category/vm/evm/traits.hpp,
    the gas rules of ethereum/transaction_gas.{hpp,cpp} and
    monad/monad_transaction_gas.cpp, and [static_validate_transaction] of
    ethereum/validate_transaction.cpp.  A [MONAD_ASSERT] that fails is [None]. *)
From S2P Require Import Prelude UInt256 Abi StakingVars.

(** ** Revisions and traits *)
Inductive monad_eth_revision :=
| MONAD_ETH_FRONTIER | MONAD_ETH_HOMESTEAD | MONAD_ETH_TANGERINE_WHISTLE
| MONAD_ETH_SPURIOUS_DRAGON | MONAD_ETH_BYZANTIUM | MONAD_ETH_CONSTANTINOPLE
| MONAD_ETH_PETERSBURG | MONAD_ETH_ISTANBUL | MONAD_ETH_BERLIN | MONAD_ETH_LONDON
| MONAD_ETH_PARIS | MONAD_ETH_SHANGHAI | MONAD_ETH_CANCUN | MONAD_ETH_PRAGUE
| MONAD_ETH_OSAKA | MONAD_ETH_EXPERIMENTAL.

Definition eth_num (r : monad_eth_revision) : Z :=
  match r with
  | MONAD_ETH_FRONTIER => 0 | MONAD_ETH_HOMESTEAD => 1 | MONAD_ETH_TANGERINE_WHISTLE => 2
  | MONAD_ETH_SPURIOUS_DRAGON => 3 | MONAD_ETH_BYZANTIUM => 4 | MONAD_ETH_CONSTANTINOPLE => 5
  | MONAD_ETH_PETERSBURG => 6 | MONAD_ETH_ISTANBUL => 7 | MONAD_ETH_BERLIN => 8
  | MONAD_ETH_LONDON => 9 | MONAD_ETH_PARIS => 10 | MONAD_ETH_SHANGHAI => 11
  | MONAD_ETH_CANCUN => 12 | MONAD_ETH_PRAGUE => 13 | MONAD_ETH_OSAKA => 14
  | MONAD_ETH_EXPERIMENTAL => 15
  end.

Definition eth_ge (r r' : monad_eth_revision) : bool := eth_num r' <=? eth_num r.

Inductive Traits :=
| EvmTraits (Rev : monad_eth_revision)
| MonadTraits (Rev : monad_revision).

Definition evm_rev (t : Traits) : monad_eth_revision :=
  match t with
  | EvmTraits Rev => Rev
  | MonadTraits Rev =>
      if rev_ge Rev MONAD_NINE then MONAD_ETH_OSAKA
      else if rev_ge Rev MONAD_FOUR then MONAD_ETH_PRAGUE
      else MONAD_ETH_CANCUN
  end.

Definition eip_4844_active (t : Traits) : bool :=
  match t with EvmTraits Rev => eth_ge Rev MONAD_ETH_CANCUN | MonadTraits _ => false end.

Definition eip_7691_active (t : Traits) : bool :=
  match t with EvmTraits Rev => eth_ge Rev MONAD_ETH_PRAGUE | MonadTraits _ => false end.

Definition MAX_CODE_SIZE_EIP170 : Z := 24 * 1024.
Definition MAX_CODE_SIZE_MONAD_TWO : Z := 128 * 1024.

Definition max_code_size (t : Traits) : Z :=
  match t with
  | EvmTraits _ => MAX_CODE_SIZE_EIP170
  | MonadTraits Rev =>
      if rev_ge Rev MONAD_TWO then MAX_CODE_SIZE_MONAD_TWO else MAX_CODE_SIZE_EIP170
  end.

(** ** Data *)
Record SignatureAndChain := mk_sc {
  sc_r : u256; sc_s : u256; sc_chain_id : option u256; sc_y_parity : u8 }.

Definition secp256k1_order : Z :=
  0xfffffffffffffffffffffffffffffffebaaedce6af48a03bbfd25e8cd0364141.
Definition secp256k1_order_half : Z := secp256k1_order / 2.

Definition has_upper_s (sc : SignatureAndChain) : bool := secp256k1_order_half <? sc_s sc.

Definition sc_is_valid (sc : SignatureAndChain) : bool :=
  if (sc_r sc =? 0) || (sc_s sc =? 0) then false
  else if (secp256k1_order <=? sc_r sc) || (secp256k1_order <=? sc_s sc) then false
  else if has_upper_s sc then false
  else true.

Definition from_v (v : u256) (sc : SignatureAndChain) : SignatureAndChain :=
  if v =? 28 then mk_sc (sc_r sc) (sc_s sc) (sc_chain_id sc) #1
  else if v =? 27 then mk_sc (sc_r sc) (sc_s sc) (sc_chain_id sc) #0
  else
    let tmp : u256 := #(v - 35) in
    let '(y_parity, tmp) :=
      if negb (Z.land tmp 1 =? 0) then (#1, #(Z.lxor tmp 1)) else (sc_y_parity sc, tmp) : u8 * u256 in
    mk_sc (sc_r sc) (sc_s sc) (Some #(Z.shiftr tmp 1)) y_parity.

(** [None]: the chain id is out of bounds, and [get_v] throws. *)
Definition get_v (sc : SignatureAndChain) : option u256 :=
  match sc_chain_id sc with
  | Some chain_id =>
      let max_chain_id := (modulus 256 - 1 - 36) / 2 in
      if chain_id <=? max_chain_id then Some #(wrap 256 (wrap 256 (chain_id * 2) + 35) + sc_y_parity sc)
      else None
  | None => Some (if sc_y_parity sc =? 0 then #27 else #28)
  end.

Inductive TransactionType := legacy | eip2930 | eip1559 | eip4844 | eip7702.

#[export] Instance TransactionType_eq_dec : EqDecision TransactionType.
Proof. solve_decision. Defined.

Record AccessEntry := mk_access { ae_a : address; ae_keys : list bytes32 }.

Record AuthorizationEntry := mk_auth {
  auth_sc : SignatureAndChain; auth_address : address; auth_nonce : u64 }.

Record Transaction := mk_tx {
  tx_sc : SignatureAndChain;
  tx_nonce : u64;
  tx_max_fee_per_gas : u256;
  tx_gas_limit : u64;
  tx_value : u256;
  tx_to : option address;
  tx_type : TransactionType;
  tx_data : byte_string;
  tx_access_list : list AccessEntry;
  tx_max_priority_fee_per_gas : u256;
  tx_max_fee_per_blob_gas : u256;
  tx_blob_versioned_hashes : list bytes32;
  tx_authorization_list : list AuthorizationEntry }.

(** ** Intrinsic gas *)
Definition ulen {A} (l : list A) : u64 := #(Z.of_nat (length l)).

Definition g_txn_create (tx : Transaction) : u64 :=
  if has_value (tx_to tx) then #0 else #32000.

Definition g_access_and_storage (tx : Transaction) : u64 :=
  fold_left (fun (g : u64) i => #(g + wrap 64 (ulen (ae_keys i) * 1900)))
    (tx_access_list tx) #(ulen (tx_access_list tx) * 2400).

Definition g_authorization (tx : Transaction) : u64 := #(25000 * ulen (tx_authorization_list tx)).

Definition g_extra_cost_init (tx : Transaction) : u64 :=
  if has_value (tx_to tx) then #0
  else #(wrap 64 (ulen (tx_data tx) + 31) / 32 * 2).

Definition tokens_in_calldata (tx : Transaction) : u64 * u64 :=
  let zeros : u64 := ulen (List.filter (fun c : u8 => c =? 0) (tx_data tx)) in
  (zeros, #(ulen (tx_data tx) - zeros)).

Definition g_data (t : Traits) (tx : Transaction) : u64 :=
  let '(zeros, nonzeros) := tokens_in_calldata tx in
  if negb (eth_ge (evm_rev t) MONAD_ETH_ISTANBUL) then #(zeros * 4 + nonzeros * 68)
  else #(zeros * 4 + nonzeros * 16).

Definition intrinsic_gas (t : Traits) (tx : Transaction) : u64 :=
  let gas : u64 := #(21000 + g_data t tx + g_txn_create tx) in
  let gas : u64 := if eth_ge (evm_rev t) MONAD_ETH_BERLIN then #(gas + g_access_and_storage tx) else gas in
  let gas : u64 := if eth_ge (evm_rev t) MONAD_ETH_SHANGHAI then #(gas + g_extra_cost_init tx) else gas in
  if eth_ge (evm_rev t) MONAD_ETH_PRAGUE then #(gas + g_authorization tx) else gas.

Definition floor_data_gas (tx : Transaction) : u64 :=
  let '(zeros, nonzeros) := tokens_in_calldata tx in
  #(21000 + (zeros * 10 + nonzeros * 40)).

(** ** Prices *)
Definition umin {n} (x y : uword n) : uword n := if y <? x then y else x.

Definition priority_fee_per_gas (tx : Transaction) (base_fee_per_gas : u256) : option u256 :=
  if base_fee_per_gas <=? tx_max_fee_per_gas tx then
    let max_priority_fee_per_gas : u256 := #(tx_max_fee_per_gas tx - base_fee_per_gas) in
    Some (match tx_type tx with
          | eip1559 | eip4844 | eip7702 => umin (tx_max_priority_fee_per_gas tx) max_priority_fee_per_gas
          | legacy | eip2930 => max_priority_fee_per_gas
          end)
  else None.

Definition gas_price (t : Traits) (tx : Transaction) (base_fee_per_gas : u256) : option u256 :=
  if negb (eth_ge (evm_rev t) MONAD_ETH_LONDON) then Some (tx_max_fee_per_gas tx)
  else (fun p : u256 => #(p + base_fee_per_gas)) <$> priority_fee_per_gas tx base_fee_per_gas.

Definition g_star (t : Traits) (tx : Transaction) (gas_remaining refund : u64) : u64 :=
  let max_refund_quotient := if eth_ge (evm_rev t) MONAD_ETH_LONDON then 5 else 2 in
  let refund_allowance : u64 := #(wrap 64 (tx_gas_limit tx - gas_remaining) / max_refund_quotient) in
  #(gas_remaining + umin refund_allowance refund).

Definition compute_gas_refund (t : Traits) (tx : Transaction) (gas_remaining refund : u64) : u64 :=
  match t with
  | EvmTraits _ => g_star t tx gas_remaining refund
  | MonadTraits Rev => if rev_ge Rev MONAD_ONE then #0 else g_star t tx gas_remaining refund
  end.

Definition calculate_txn_award (t : Traits) (tx : Transaction) (base_fee_per_gas : u256)
    (gas_used : u64) : option u256 :=
  if negb (eth_ge (evm_rev t) MONAD_ETH_LONDON) then
    (fun p : u256 => #(gas_used * p)) <$> gas_price t tx base_fee_per_gas
  else (fun p : u256 => #(gas_used * p)) <$> priority_fee_per_gas tx base_fee_per_gas.

(** ** Blob gas *)

(** [operator/] of [uint256_t], whose assertion fails on a zero divisor. *)
Definition u256_div (x y : u256) : option u256 := if y =? 0 then None else Some #(x / y).

Definition INT_MAX : Z := 2 ^ 31 - 1.

(** The loop of [fake_exponential], whose counter is an [int].  [None]: a division
    by zero, [++i] past the largest [int], or out of fuel. *)
Fixpoint fake_exponential_loop (fuel : nat) (i : Z) (output acc n d : u256) : option u256 :=
  match fuel with
  | O => None
  | S fuel =>
      if 0 <? acc then
        acc' ← u256_div #(acc * n) #(d * i);
        if i =? INT_MAX then None
        else fake_exponential_loop fuel (i + 1) #(output + acc) acc' n d
      else u256_div output d
  end.

(** Enough fuel: past [2 n / d] steps every step at least halves [acc]. *)
Definition fake_exponential_fuel (n d : u256) : nat := Z.to_nat (2 * n / d + 260).

Definition fake_exponential (factor n d : u256) : option u256 :=
  fake_exponential_loop (fake_exponential_fuel n d) 1 #0 #(factor * d) n d.

Definition GAS_PER_BLOB : Z := 131072.
Definition max_blobs_per_block (t : Traits) : Z := if eip_7691_active t then 9 else 6.
Definition max_blob_gas_per_block (t : Traits) : u64 := #(max_blobs_per_block t * GAS_PER_BLOB).
Definition blob_base_fee_update_fraction (t : Traits) : u64 :=
  if eip_7691_active t then #5007716 else #3338477.

Definition get_base_fee_per_blob_gas (t : Traits) (excess_blob_gas : u64) : option u256 :=
  fake_exponential #1 #(excess_blob_gas) #(blob_base_fee_update_fraction t).
Definition get_total_blob_gas (tx : Transaction) : u64 :=
  #(GAS_PER_BLOB * ulen (tx_blob_versioned_hashes tx)).
Definition calc_blob_fee (t : Traits) (tx : Transaction) (excess_blob_gas : u64) : option u256 :=
  (fun p : u256 => #(p * get_total_blob_gas tx)) <$> get_base_fee_per_blob_gas t excess_blob_gas.

Definition max_gas_cost (gas_limit : u64) (max_fee_per_gas : u256) : u256 + MathError :=
  checked_mul #(gas_limit) max_fee_per_gas.

(** ** Static validation *)
Inductive TransactionError :=
| InsufficientBalance | IntrinsicGasGreaterThanLimit | BadNonce | SenderNotEoa | TypeNotSupported
| MaxFeeLessThanBase | PriorityFeeGreaterThanMax | NonceExceedsMax | InitCodeLimitExceeded
| GasLimitReached | WrongChainId | MissingSender | GasLimitOverflow | InvalidSignature
| InvalidBlobHash | EmptyAuthorizationList.

#[export] Instance TransactionError_eq_dec : EqDecision TransactionError.
Proof. solve_decision. Defined.

(** The types a revision supports. *)
Definition type_supported (t : Traits) (ty : TransactionType) : bool :=
  let r := evm_rev t in
  if negb (eth_ge r MONAD_ETH_BERLIN) then bool_decide (ty = legacy)
  else if negb (eth_ge r MONAD_ETH_LONDON) then bool_decide (ty = legacy \/ ty = eip2930)
  else if negb (eth_ge r MONAD_ETH_CANCUN) then
    bool_decide (ty = legacy \/ ty = eip2930 \/ ty = eip1559)
  else if negb (eth_ge r MONAD_ETH_PRAGUE) then
    bool_decide (ty = legacy \/ ty = eip2930 \/ ty = eip1559 \/ ty = eip4844)
  else bool_decide (ty = legacy \/ ty = eip2930 \/ ty = eip1559 \/ ty = eip4844 \/ ty = eip7702).

Definition hash_version (h : bytes32) : Z := Z.shiftr h 248.

(** The checks of an EIP-4844 transaction; the outer [None] is a loop out of fuel. *)
Definition validate_blobs (t : Traits) (tx : Transaction) (excess_blob_gas : option u64)
    : option (option TransactionError) :=
  if eth_ge (evm_rev t) MONAD_ETH_CANCUN && bool_decide (tx_type tx = eip4844) then
    if (length (tx_blob_versioned_hashes tx) =? 0)%nat then Some (Some InvalidBlobHash)
    else if negb (forallb (fun h => hash_version h =? 1) (tx_blob_versioned_hashes tx)) then
      Some (Some InvalidBlobHash)
    else
      (fun p : u256 => if tx_max_fee_per_blob_gas tx <? p then Some GasLimitOverflow else None) <$>
        get_base_fee_per_blob_gas t (default #0 excess_blob_gas)
  else Some None.

(** [Some None] is success. *)
Definition static_validate_transaction (t : Traits) (tx : Transaction)
    (base_fee_per_gas : option u256) (excess_blob_gas : option u64) (chain_id : u256)
    : option (option TransactionError) :=
  let r := evm_rev t in
  if from_option (fun id => negb (id =w? chain_id)) false (sc_chain_id (tx_sc tx)) then
    Some (Some WrongChainId)
  else if negb (eip_4844_active t) && bool_decide (tx_type tx = eip4844) then
    Some (Some TypeNotSupported)
  else if negb (type_supported t (tx_type tx)) then Some (Some TypeNotSupported)
  else if tx_max_fee_per_gas tx <? default #0 base_fee_per_gas then Some (Some MaxFeeLessThanBase)
  else if tx_max_fee_per_gas tx <? tx_max_priority_fee_per_gas tx then
    Some (Some PriorityFeeGreaterThanMax)
  else if eth_ge r MONAD_ETH_SHANGHAI && negb (has_value (tx_to tx)) &&
          (2 * max_code_size t <? ulen (tx_data tx)) then Some (Some InitCodeLimitExceeded)
  else if tx_gas_limit tx <? intrinsic_gas t tx then Some (Some IntrinsicGasGreaterThanLimit)
  else if eth_ge r MONAD_ETH_PRAGUE && (tx_gas_limit tx <? floor_data_gas tx) then
    Some (Some IntrinsicGasGreaterThanLimit)
  else if eth_ge r MONAD_ETH_PRAGUE && bool_decide (tx_type tx = eip7702) &&
          (length (tx_authorization_list tx) =? 0)%nat then Some (Some EmptyAuthorizationList)
  else if modulus 64 - 1 <=? tx_nonce tx then Some (Some NonceExceedsMax)
  else match checked_mul #(tx_gas_limit tx) (tx_max_fee_per_gas tx) with
       | inr _ => Some (Some GasLimitOverflow)
       | inl _ =>
           if negb (sc_is_valid (tx_sc tx)) then Some (Some InvalidSignature)
           else validate_blobs t tx excess_blob_gas
       end.

(** ** Lemmas *)
Lemma uval_umin {n} (x y : uword n) : uval (umin x y) = Z.min x y.
Proof. unfold umin. destruct (Z.ltb_spec y x); lia. Qed.

Lemma priority_fee_spec tx base p :
  priority_fee_per_gas tx base = Some p -> uval p + base <= tx_max_fee_per_gas tx.
Proof.
  unfold priority_fee_per_gas. destruct (Z.leb_spec base (tx_max_fee_per_gas tx)) as [H|]; [|done].
  assert (Hs : uval (wrap 256 (tx_max_fee_per_gas tx - base)) = tx_max_fee_per_gas tx - base)
    by (apply uval_wrap_small; word_lia).
  destruct (tx_type tx); intros [= <-]; rewrite ?uval_umin, ?Hs; lia.
Qed.

Lemma gas_price_spec t tx base p :
  eth_ge (evm_rev t) MONAD_ETH_LONDON = true -> gas_price t tx base = Some p ->
  exists pr, priority_fee_per_gas tx base = Some pr /\ uval p = pr + base /\
    uval p <= tx_max_fee_per_gas tx.
Proof.
  unfold gas_price. intros ->. simpl. destruct (priority_fee_per_gas tx base) as [pr|] eqn:E; [|done].
  intros [= <-]. pose proof (priority_fee_spec _ _ _ E).
  exists pr. rewrite uval_wrap_small by word_lia. done.
Qed.

Lemma validate_inv t tx base excess chain :
  static_validate_transaction t tx base excess chain = Some None ->
  uval (default #0 base) <= tx_max_fee_per_gas tx /\
  tx_max_priority_fee_per_gas tx <= tx_max_fee_per_gas tx /\
  intrinsic_gas t tx <= tx_gas_limit tx /\
  (eth_ge (evm_rev t) MONAD_ETH_PRAGUE = true -> floor_data_gas tx <= tx_gas_limit tx) /\
  tx_nonce tx < modulus 64 - 1 /\
  tx_gas_limit tx * tx_max_fee_per_gas tx < modulus 256 /\
  sc_is_valid (tx_sc tx) = true /\ type_supported t (tx_type tx) = true /\
  (eip_4844_active t = false -> tx_type tx <> eip4844).
Proof.
  unfold static_validate_transaction.
  destruct (from_option _ _ _); [done|].
  destruct (negb (eip_4844_active t) && _) eqn:E1; [done|].
  destruct (negb (type_supported t (tx_type tx))) eqn:E2; [done|].
  destruct (Z.ltb_spec (tx_max_fee_per_gas tx) (default #0 base)) as [|H3]; [done|].
  destruct (Z.ltb_spec (tx_max_fee_per_gas tx) (tx_max_priority_fee_per_gas tx)) as [|H4]; [done|].
  destruct (_ && _ && _); [done|].
  destruct (Z.ltb_spec (tx_gas_limit tx) (intrinsic_gas t tx)) as [|H5]; [done|].
  destruct (_ && (tx_gas_limit tx <? _)) eqn:E6; [done|]. destruct (_ && _ && _); [done|].
  destruct (Z.leb_spec (modulus 64 - 1) (tx_nonce tx)) as [|H7]; [done|].
  destruct (checked_mul _ _) as [m|] eqn:E8; [|done].
  destruct (sc_is_valid (tx_sc tx)); [|done]. intros _.
  apply checked_mul_inl in E8. rewrite uval_wrap_small in E8 by word_lia.
  split_and!; try done.
  - intros Hp. rewrite Hp in E6. simpl in E6. by apply Z.ltb_ge in E6.
  - pose proof (uword_range m). lia.
  - by apply negb_false_iff in E2.
  - intros H4844 Ht. rewrite H4844, Ht in E1. done.
Qed.

(** A transaction that passes static validation has a well-defined price:
    [gas_price] does not abort, it lies between the base fee and the maximum fee,
    and [gas_limit * gas_price] does not overflow 256 bits, so the upfront cost
    is exact. *)
Theorem validated_price_exact t tx base excess chain :
  eth_ge (evm_rev t) MONAD_ETH_LONDON = true ->
  static_validate_transaction t tx base excess chain = Some None ->
  exists p, gas_price t tx (default #0 base) = Some p /\
    uval (default #0 base) <= p <= tx_max_fee_per_gas tx /\
    uval (wrap 256 (tx_gas_limit tx * p)) = tx_gas_limit tx * p.
Proof.
  intros Hr Hv. destruct (validate_inv _ _ _ _ _ Hv) as (H1 & _ & _ & _ & _ & H6 & _).
  destruct (gas_price t tx (default #0 base)) as [p|] eqn:E.
  - destruct (gas_price_spec _ _ _ _ Hr E) as (pr & _ & Hp & Hle). exists p.
    split; [done|]. split; [word_lia|]. apply uval_wrap_small. pose proof (uword_range p).
    pose proof (uword_range (tx_gas_limit tx)). nia.
  - exfalso. unfold gas_price, priority_fee_per_gas in E. rewrite Hr in E. simpl in E.
    destruct (Z.leb_spec (default #0 base) (tx_max_fee_per_gas tx)); [by destruct (tx_type tx)|lia].
Qed.

Lemma g_star_bounds t tx (remaining refund : u64) :
  remaining <= tx_gas_limit tx ->
  remaining <= g_star t tx remaining refund <= tx_gas_limit tx.
Proof.
  intros H. unfold g_star. set (q := if eth_ge _ _ then 5 else 2).
  assert (Hq : 2 <= q <= 5) by (unfold q; destruct (eth_ge _ _); lia). clearbody q.
  set (al := (tx_gas_limit tx - remaining) / q).
  assert (Ha : 0 <= al <= tx_gas_limit tx - remaining).
  { unfold al. split; [apply Z.div_pos; lia|]. apply Z.div_le_upper_bound; [lia|]. nia. }
  assert (Ew : uval (wrap 64 (wrap 64 (tx_gas_limit tx - remaining) / q)) = al).
  { rewrite (uval_wrap_small 64 (tx_gas_limit tx - remaining)) by word_lia.
    apply uval_wrap_small. fold al. word_lia. }
  pose proof (uval_umin (wrap 64 (wrap 64 (tx_gas_limit tx - remaining) / q)) refund) as Hm.
  rewrite Ew in Hm. rewrite uval_wrap_small; word_lia.
Qed.

Lemma refund_bounds t tx (remaining refund : u64) :
  uval remaining <= tx_gas_limit tx ->
  0 <= compute_gas_refund t tx remaining refund <= tx_gas_limit tx.
Proof.
  intros H. pose proof (g_star_bounds t tx remaining refund H). unfold compute_gas_refund.
  destruct t as [r|r]; [word_lia|]. destruct (rev_ge r MONAD_ONE); [|word_lia].
  rewrite uval_wrap_0. word_lia.
Qed.

(** The gas refund never exceeds what is left of the limit: it is at least
    the gas remaining on Ethereum revisions, zero from MONAD_ONE on, and in
    every case at most the gas limit, so [gas_limit - refund] does not wrap. *)
Theorem gas_refund_bounded t tx (remaining refund : u64) :
  uval remaining <= tx_gas_limit tx ->
  compute_gas_refund t tx remaining refund <= tx_gas_limit tx /\
  uval (wrap 64 (tx_gas_limit tx - compute_gas_refund t tx remaining refund)) =
    tx_gas_limit tx - compute_gas_refund t tx remaining refund /\
  match t with
  | EvmTraits _ => remaining <= compute_gas_refund t tx remaining refund
  | MonadTraits r => rev_ge r MONAD_ONE = true -> uval (compute_gas_refund t tx remaining refund) = 0
  end.
Proof.
  intros H. pose proof (refund_bounds t tx remaining refund H) as Hb. split; [lia|]. split.
  - apply uval_wrap_small. word_lia.
  - unfold compute_gas_refund. destruct t as [r|r]; [by apply g_star_bounds|].
    intros ->. apply uval_wrap_0.
Qed.

(** ** Signatures *)
Lemma from_v_odd (c : Z) (y : bool) (sc : SignatureAndChain) :
  0 <= c -> 2 * c + 36 < modulus 256 -> uval (sc_y_parity sc) = 0 ->
  from_v #(2 * c + 35 + b2z y) sc = mk_sc (sc_r sc) (sc_s sc) (Some #c) #(b2z y).
Proof.
  intros Hc Hm Hy. unfold from_v.
  assert (Ev : uval (wrap 256 (2 * c + 35 + b2z y)) = 2 * c + 35 + b2z y)
    by (apply uval_wrap_small; destruct y; simpl; lia).
  rewrite Ev. destruct (Z.eqb_spec (2 * c + 35 + b2z y) 28); [destruct y; simpl in *; lia|].
  destruct (Z.eqb_spec (2 * c + 35 + b2z y) 27); [destruct y; simpl in *; lia|].
  assert (Et : uval (wrap 256 (2 * c + 35 + b2z y - 35)) = 2 * c + b2z y).
  { rewrite uval_wrap_small; [lia|]. destruct y; simpl; lia. }
  rewrite Et. assert (El : Z.land (2 * c + b2z y) 1 = b2z y).
  { change (Z.land (2 * c + b2z y) (Z.ones 1) = b2z y). rewrite Z.land_ones by lia. change (2 ^ 1) with 2.
    rewrite Z.add_comm, Z.mul_comm, Z_mod_plus_full. by destruct y. }
  rewrite El. destruct y; simpl.
  - assert (Ex : Z.lxor (2 * c + 1) 1 = 2 * c).
    { by replace (2 * c + 1) with (Z.succ_double c) by (rewrite Z.succ_double_spec; lia);
        rewrite <- Z.double_spec; destruct c. }
    rewrite Ex. rewrite uval_wrap_small by lia.
    by rewrite Z.shiftr_div_pow2, Z.pow_1_r, Z.mul_comm, Z_div_mult by lia.
  - change (uval (wrap 256 (2 * c + 35 + 0 - 35)) = 2 * c + 0) in Et. rewrite Et.
    rewrite Z.add_0_r, Z.shiftr_div_pow2, Z.pow_1_r, Z.mul_comm, Z_div_mult by lia.
    f_equal. apply uval_inj. by rewrite Hy, uval_wrap_0.
Qed.

Lemma from_get_v (sc : SignatureAndChain) (v : u256) :
  uval (sc_y_parity sc) <= 1 -> get_v sc = Some v ->
  from_v v (mk_sc (sc_r sc) (sc_s sc) None #0) = sc.
Proof.
  intros Hy. unfold get_v. destruct sc as [r s id y]. cbn [sc_r sc_s sc_chain_id sc_y_parity] in *.
  assert (Hb : exists b, y = #(b2z b)).
  { exists (negb (y =? 0)). apply uval_inj. destruct (Z.eqb_spec y 0) as [->|]; [done|].
    rewrite uval_wrap_small by (simpl; word_lia). simpl. word_lia. }
  destruct Hb as [b ->]. destruct id as [id|].
  - destruct (Z.leb_spec id ((modulus 256 - 1 - 36) / 2)) as [Hid|]; [|done]. intros [= <-].
    assert (Hm : 2 * id + 36 < modulus 256).
    { apply Z.le_lt_trans with (modulus 256 - 1 - 36 + 36); [|unfold modulus; simpl; lia].
      pose proof (Z.mul_div_le (modulus 256 - 1 - 36) 2). lia. }
    pose proof (uword_range id).
    assert (Eb : uval (wrap 8 (b2z b)) = b2z b) by (by destruct b).
    rewrite (uval_wrap_small 256 (id * 2)), (uval_wrap_small 256 (id * 2 + 35)), Eb by lia.
    rewrite (Z.mul_comm id 2). rewrite from_v_odd; [|lia..|apply uval_wrap_0].
    simpl. by rewrite wrap_uval.
  - intros [= <-]. by destruct b.
Qed.

(** [from_v] inverts [get_v]: decoding the [v] of a signature gives back its
    chain id and parity. *)
Theorem v_round_trip (sc : SignatureAndChain) (v : u256) :
  uval (sc_y_parity sc) <= 1 -> get_v sc = Some v ->
  from_v v (mk_sc (sc_r sc) (sc_s sc) None #0) = sc.
Proof. apply from_get_v. Qed.

(** ** The Taylor series terminates *)
Lemma exponential_halves (acc n d : u256) (i : Z) :
  0 < d -> 0 < i -> 2 * n <= d * i -> d * i < modulus 256 ->
  2 * uval (wrap 256 (wrap 256 (acc * n) / wrap 256 (d * i))) <= acc.
Proof.
  intros Hd Hi Hn Hm. rewrite (uval_wrap_small 256 (d * i)) by nia. rewrite (uval_wrap 256 (acc * n)).
  assert (Hle : 0 <= (acc * n) mod modulus 256 <= acc * n).
  { pose proof (Z.mod_pos_bound (acc * n) _ (modulus_pos 256)). split; [lia|].
    apply Z.mod_le; [|apply modulus_pos]. word_ranges. nia. }
  set (x := (acc * n) mod modulus 256) in *.
  assert (Hx : 2 * (x / (d * i)) <= acc).
  { assert (x / (d * i) * (d * i) <= x) by (rewrite Z.mul_comm; apply Z.mul_div_le; nia).
    word_ranges. nia. }
  pose proof (Z.div_pos x (d * i) ltac:(lia) ltac:(nia)).
  rewrite uval_wrap_small; word_lia.
Qed.

Lemma u256_div_pos (x y : u256) : 0 < y -> u256_div x y = Some #(x / y).
Proof. unfold u256_div. destruct (Z.eqb_spec y 0); [lia|done]. Qed.

(** A round whose counter is neither too large for the divisor nor for an [int]. *)
Lemma loop_round k i (output acc n d : u256) :
  0 < d -> 0 < i -> d * i < modulus 256 -> i < INT_MAX -> 0 < acc ->
  fake_exponential_loop (S k) i output acc n d =
  fake_exponential_loop k (i + 1) #(output + acc) #(wrap 256 (acc * n) / wrap 256 (d * i)) n d.
Proof.
  intros Hd Hi Hm Hx Ha. cbn [fake_exponential_loop]. destruct (Z.ltb_spec 0 acc); [|lia].
  rewrite u256_div_pos by (rewrite uval_wrap_small; nia). cbn [mbind option_bind].
  by destruct (Z.eqb_spec i INT_MAX); [lia|].
Qed.

Lemma loop_end k i (output acc n d : u256) :
  0 < d -> ~ 0 < acc -> fake_exponential_loop (S k) i output acc n d = Some #(output / d).
Proof.
  intros Hd Ha. cbn [fake_exponential_loop]. destruct (Z.ltb_spec 0 acc); [done|]. by apply u256_div_pos.
Qed.

Lemma loop_halving (k : nat) (i : Z) (output acc n d : u256) :
  0 < d -> 0 < i -> 2 * n <= d * i -> d * (i + Z.of_nat k) < modulus 256 -> i + Z.of_nat k <= INT_MAX ->
  acc < 2 ^ Z.of_nat k -> exists r, fake_exponential_loop (S k) i output acc n d = Some r.
Proof.
  revert i output acc. induction k as [|k IH]; intros i output acc Hd Hi Hn Hm Hx Ha.
  - change (2 ^ Z.of_nat 0) with 1 in Ha. rewrite loop_end by lia. eauto.
  - destruct (Z_lt_le_dec 0 acc); [|rewrite loop_end by lia; eauto].
    rewrite loop_round by nia. apply IH; [lia..|nia|nia|lia|].
    pose proof (exponential_halves acc n d i Hd Hi Hn ltac:(nia)).
    rewrite Nat2Z.inj_succ, Z.pow_succ_r in Ha by lia. lia.
Qed.

Lemma loop_total (m : nat) (i : Z) (output acc n d : u256) :
  0 < d -> 0 < i -> 2 * n <= d * (i + Z.of_nat m) -> d * (i + Z.of_nat m + 256) < modulus 256 ->
  i + Z.of_nat m + 256 <= INT_MAX ->
  exists r, fake_exponential_loop (m + 257) i output acc n d = Some r.
Proof.
  revert i output acc. induction m as [|m IH]; intros i output acc Hd Hi Hn Hm Hx.
  - apply (loop_halving 256); [lia..|nia|nia|lia|]. apply (proj2 (uword_range acc)).
  - change (S m + 257)%nat with (S (m + 257)). destruct (Z_lt_le_dec 0 acc); [|rewrite loop_end by lia; eauto].
    rewrite loop_round by nia. apply IH; [lia..|nia|nia|lia].
Qed.

Lemma loop_fuel_mono k k' i output acc n d r :
  fake_exponential_loop k i output acc n d = Some r -> (k <= k')%nat ->
  fake_exponential_loop k' i output acc n d = Some r.
Proof.
  revert k' i output acc. induction k as [|k IH]; intros k' i output acc; [done|].
  destruct k' as [|k']; [lia|]. cbn [fake_exponential_loop]. destruct (0 <? acc); [|done].
  destruct (u256_div _ _); [|done]. cbn [mbind option_bind]. destruct (i =? INT_MAX); [done|].
  intros H Hk. apply (IH k'); [done|lia].
Qed.

(** C19: the Taylor series behind the blob base fee terminates with a result, without
    a division by zero and before its [int] counter overflows, for every 64-bit
    excess [n] and positive 64-bit fraction [d] with [2 n / d + 260 < 2 ^ 31]: the
    loop runs at most [2 n / d + 260] times, and more fuel does not change its
    result.  (With the fractions of the code the condition is an excess below
    [3.5 * 10 ^ 15].) *)
Theorem fake_exponential_total (factor n d : u256) :
  n < modulus 64 -> 0 < d < modulus 64 -> 2 * n / d + 260 < 2 ^ 31 ->
  exists r, fake_exponential factor n d = Some r /\
    forall k, (fake_exponential_fuel n d <= k)%nat ->
      fake_exponential_loop k 1 #0 #(factor * d) n d = Some r.
Proof.
  intros Hn Hd Hx. unfold fake_exponential, fake_exponential_fuel.
  pose proof (uword_range n) as Hn0. pose proof (Z.mul_div_le (2 * n) d ltac:(lia)) as Hq.
  pose proof (Z.mod_pos_bound (2 * n) d ltac:(lia)) as Hr.
  pose proof (Z.div_mod (2 * n) d ltac:(lia)) as Hdm.
  set (q := 2 * n / d) in *. assert (0 <= q) by (apply Z.div_pos; lia).
  destruct (loop_total (Z.to_nat (q + 3)) 1 #0 #(factor * d) n d) as [r Hrun]; [lia..|nia| | |].
  - assert (d * (1 + Z.of_nat (Z.to_nat (q + 3)) + 256) <= 2 * n + 260 * d) by nia.
    unfold modulus in *. simpl Z.of_N in *. lia.
  - unfold INT_MAX. lia.
  - exists r. replace (Z.to_nat (q + 260)) with (Z.to_nat (q + 3) + 257)%nat by lia.
    split; [done|]. intros k Hk. by apply (loop_fuel_mono _ _ _ _ _ _ _ _ Hrun).
Qed.

(** ** A concrete transaction *)
Definition demo_tx : Transaction :=
  mk_tx (mk_sc #1 #1 (Some #143) #0) #0 #100 #100000 #0 (Some #7) eip1559 [ #0; #1 ]
    [mk_access #5 [ #1; #2 ]] #2 #0 [] [].

Lemma demo_tx_valid :
  static_validate_transaction (MonadTraits MONAD_NINE) demo_tx (Some #50) (Some #0) #143 = Some None.
Proof. vm_compute. reflexivity. Qed.

Lemma validated_price_exact_witness :
  exists p, gas_price (MonadTraits MONAD_NINE) demo_tx (default #0 (Some #50)) = Some p /\
    uval (default #0 (Some (wrap 256 50))) <= p <= tx_max_fee_per_gas demo_tx /\
    uval (wrap 256 (tx_gas_limit demo_tx * p)) = tx_gas_limit demo_tx * p.
Proof.
  exact (validated_price_exact (MonadTraits MONAD_NINE) demo_tx (Some #50) (Some #0) #143
    eq_refl demo_tx_valid).
Defined.

Lemma gas_refund_bounded_witness :
  compute_gas_refund (EvmTraits MONAD_ETH_PRAGUE) demo_tx #7000 #90000 <= tx_gas_limit demo_tx /\
  uval (wrap 64 (tx_gas_limit demo_tx -
      compute_gas_refund (EvmTraits MONAD_ETH_PRAGUE) demo_tx #7000 #90000)) =
    tx_gas_limit demo_tx - compute_gas_refund (EvmTraits MONAD_ETH_PRAGUE) demo_tx #7000 #90000 /\
  uval (wrap 64 7000) <= compute_gas_refund (EvmTraits MONAD_ETH_PRAGUE) demo_tx #7000 #90000.
Proof.
  exact (gas_refund_bounded (EvmTraits MONAD_ETH_PRAGUE) demo_tx #7000 #90000
    ltac:(vm_compute; discriminate)).
Defined.

Lemma v_round_trip_witness :
  from_v #322 (mk_sc #1 #2 None #0) = mk_sc #1 #2 (Some #143) #1.
Proof.
  apply (v_round_trip (mk_sc #1 #2 (Some #143) #1) #322); [vm_compute; discriminate|].
  vm_compute. reflexivity.
Defined.

Lemma fake_exponential_total_witness :
  exists r, fake_exponential #1 #10000000 #3338477 = Some r /\
    forall k, (fake_exponential_fuel #10000000 #3338477 <= k)%nat ->
      fake_exponential_loop k 1 #0 #(wrap 256 1 * wrap 256 3338477) #10000000 #3338477 = Some r.
Proof.
  apply (fake_exponential_total #1 #10000000 #3338477); vm_compute; repeat split; discriminate.
Defined.
