(* ===== verification/Opcodes.v ===== *)
(** * Opcodes

    Models src/category/vm/evm/opcodes.hpp: the opcodes, the table that gives for each
    the stack it needs and leaves and the gas it costs at least, and the changes of
    each revision to it; and the revision flags of src/category/vm/evm/traits.hpp that
    the virtual machine asks for.  The table exists from Petersburg to Osaka
    ([supported]).  The theorems compare all revisions with the newest one: an opcode
    keeps its effect on the stack once it is defined, and an opcode that does not end
    the execution costs gas. *)
From S2P Require Import Prelude StakingVars Transaction.
From Stdlib Require Import String.

(** ** Revision flags *)
Definition supported (t : Traits) : bool :=
  eth_ge (evm_rev t) MONAD_ETH_PETERSBURG && negb (eth_ge (evm_rev t) MONAD_ETH_EXPERIMENTAL).

Definition eip_2929_active (t : Traits) : bool := eth_ge (evm_rev t) MONAD_ETH_BERLIN.

Definition mip_3_active (t : Traits) : bool :=
  match t with EvmTraits _ => false | MonadTraits Rev => rev_ge Rev MONAD_NINE end.

Definition can_create_inside_delegated (t : Traits) : bool :=
  match t with EvmTraits _ => true | MonadTraits _ => false end.

Definition monad_pricing_version (Rev : monad_revision) : Z := if rev_ge Rev MONAD_SEVEN then 1 else 0.

Definition MAX_INITCODE_SIZE_EIP3860 : Z := 2 * MAX_CODE_SIZE_EIP170.
Definition MAX_INITCODE_SIZE_MONAD_FOUR : Z := 2 * MAX_CODE_SIZE_MONAD_TWO.

Definition max_initcode_size (t : Traits) : Z :=
  match t with
  | EvmTraits Rev => if eth_ge Rev MONAD_ETH_SHANGHAI then MAX_INITCODE_SIZE_EIP3860 else 2 ^ 64 - 1
  | MonadTraits Rev => if rev_ge Rev MONAD_FOUR then MAX_INITCODE_SIZE_MONAD_FOUR else MAX_INITCODE_SIZE_EIP3860
  end.

(** The costs are used only when [eip_2929_active]. *)
Definition cold_account_cost (t : Traits) : Z :=
  match t with
  | EvmTraits _ => 2500
  | MonadTraits Rev => if 1 <=? monad_pricing_version Rev then 10000 else 2500
  end.

Definition cold_storage_cost (t : Traits) : Z :=
  match t with
  | EvmTraits _ => 2000
  | MonadTraits Rev => if 1 <=? monad_pricing_version Rev then 8000 else 2000
  end.

(** ** Opcodes *)
Record OpCodeInfo := mk_opcode {
  op_name : string; num_args : Z; min_stack : Z; stack_increase : Z; dynamic_gas : bool; min_gas : Z; index : Z }.

Definition unknown_opcode_info : OpCodeInfo := mk_opcode "UNKNOWN" 0 0 0 false 0 0.

Inductive EvmOpCode : Set :=
  | STOP | ADD | MUL | SUB | DIV | SDIV | MOD | SMOD | ADDMOD | MULMOD | EXP | SIGNEXTEND | LT | GT | SLT | SGT
  | EQ | ISZERO | AND | OR | XOR | NOT | BYTE | SHL | SHR | SAR | CLZ | SHA3 | ADDRESS | BALANCE | ORIGIN
  | CALLER | CALLVALUE | CALLDATALOAD | CALLDATASIZE | CALLDATACOPY | CODESIZE | CODECOPY | GASPRICE
  | EXTCODESIZE | EXTCODECOPY | RETURNDATASIZE | RETURNDATACOPY | EXTCODEHASH | BLOCKHASH | COINBASE | TIMESTAMP
  | NUMBER | DIFFICULTY | GASLIMIT | CHAINID | SELFBALANCE | BASEFEE | BLOBHASH | BLOBBASEFEE | POP | MLOAD
  | MSTORE | MSTORE8 | SLOAD | SSTORE | JUMP | JUMPI | PC | MSIZE | GAS | JUMPDEST | TLOAD | TSTORE | MCOPY
  | PUSH0 | PUSH1 | PUSH2 | PUSH3 | PUSH4 | PUSH5 | PUSH6 | PUSH7 | PUSH8 | PUSH9 | PUSH10 | PUSH11 | PUSH12
  | PUSH13 | PUSH14 | PUSH15 | PUSH16 | PUSH17 | PUSH18 | PUSH19 | PUSH20 | PUSH21 | PUSH22 | PUSH23 | PUSH24
  | PUSH25 | PUSH26 | PUSH27 | PUSH28 | PUSH29 | PUSH30 | PUSH31 | PUSH32 | DUP1 | DUP2 | DUP3 | DUP4 | DUP5
  | DUP6 | DUP7 | DUP8 | DUP9 | DUP10 | DUP11 | DUP12 | DUP13 | DUP14 | DUP15 | DUP16 | SWAP1 | SWAP2 | SWAP3
  | SWAP4 | SWAP5 | SWAP6 | SWAP7 | SWAP8 | SWAP9 | SWAP10 | SWAP11 | SWAP12 | SWAP13 | SWAP14 | SWAP15 | SWAP16
  | LOG0 | LOG1 | LOG2 | LOG3 | LOG4 | CREATE | CALL | CALLCODE | RETURN | DELEGATECALL | CREATE2 | STATICCALL
  | REVERT | SELFDESTRUCT.

Definition opcode_byte (op : EvmOpCode) : Z :=
  match op with
  | STOP => 0x00 | ADD => 0x01 | MUL => 0x02 | SUB => 0x03 | DIV => 0x04 | SDIV => 0x05 | MOD => 0x06
  | SMOD => 0x07 | ADDMOD => 0x08 | MULMOD => 0x09 | EXP => 0x0A | SIGNEXTEND => 0x0B | LT => 0x10 | GT => 0x11
  | SLT => 0x12 | SGT => 0x13 | EQ => 0x14 | ISZERO => 0x15 | AND => 0x16 | OR => 0x17 | XOR => 0x18
  | NOT => 0x19 | BYTE => 0x1A | SHL => 0x1B | SHR => 0x1C | SAR => 0x1D | CLZ => 0x1E | SHA3 => 0x20
  | ADDRESS => 0x30 | BALANCE => 0x31 | ORIGIN => 0x32 | CALLER => 0x33 | CALLVALUE => 0x34
  | CALLDATALOAD => 0x35 | CALLDATASIZE => 0x36 | CALLDATACOPY => 0x37 | CODESIZE => 0x38 | CODECOPY => 0x39
  | GASPRICE => 0x3A | EXTCODESIZE => 0x3B | EXTCODECOPY => 0x3C | RETURNDATASIZE => 0x3D
  | RETURNDATACOPY => 0x3E | EXTCODEHASH => 0x3F | BLOCKHASH => 0x40 | COINBASE => 0x41 | TIMESTAMP => 0x42
  | NUMBER => 0x43 | DIFFICULTY => 0x44 | GASLIMIT => 0x45 | CHAINID => 0x46 | SELFBALANCE => 0x47
  | BASEFEE => 0x48 | BLOBHASH => 0x49 | BLOBBASEFEE => 0x4A | POP => 0x50 | MLOAD => 0x51 | MSTORE => 0x52
  | MSTORE8 => 0x53 | SLOAD => 0x54 | SSTORE => 0x55 | JUMP => 0x56 | JUMPI => 0x57 | PC => 0x58 | MSIZE => 0x59
  | GAS => 0x5A | JUMPDEST => 0x5B | TLOAD => 0x5C | TSTORE => 0x5D | MCOPY => 0x5E | PUSH0 => 0x5F
  | PUSH1 => 0x60 | PUSH2 => 0x61 | PUSH3 => 0x62 | PUSH4 => 0x63 | PUSH5 => 0x64 | PUSH6 => 0x65 | PUSH7 => 0x66
  | PUSH8 => 0x67 | PUSH9 => 0x68 | PUSH10 => 0x69 | PUSH11 => 0x6A | PUSH12 => 0x6B | PUSH13 => 0x6C
  | PUSH14 => 0x6D | PUSH15 => 0x6E | PUSH16 => 0x6F | PUSH17 => 0x70 | PUSH18 => 0x71 | PUSH19 => 0x72
  | PUSH20 => 0x73 | PUSH21 => 0x74 | PUSH22 => 0x75 | PUSH23 => 0x76 | PUSH24 => 0x77 | PUSH25 => 0x78
  | PUSH26 => 0x79 | PUSH27 => 0x7A | PUSH28 => 0x7B | PUSH29 => 0x7C | PUSH30 => 0x7D | PUSH31 => 0x7E
  | PUSH32 => 0x7F | DUP1 => 0x80 | DUP2 => 0x81 | DUP3 => 0x82 | DUP4 => 0x83 | DUP5 => 0x84 | DUP6 => 0x85
  | DUP7 => 0x86 | DUP8 => 0x87 | DUP9 => 0x88 | DUP10 => 0x89 | DUP11 => 0x8A | DUP12 => 0x8B | DUP13 => 0x8C
  | DUP14 => 0x8D | DUP15 => 0x8E | DUP16 => 0x8F | SWAP1 => 0x90 | SWAP2 => 0x91 | SWAP3 => 0x92 | SWAP4 => 0x93
  | SWAP5 => 0x94 | SWAP6 => 0x95 | SWAP7 => 0x96 | SWAP8 => 0x97 | SWAP9 => 0x98 | SWAP10 => 0x99
  | SWAP11 => 0x9A | SWAP12 => 0x9B | SWAP13 => 0x9C | SWAP14 => 0x9D | SWAP15 => 0x9E | SWAP16 => 0x9F
  | LOG0 => 0xA0 | LOG1 => 0xA1 | LOG2 => 0xA2 | LOG3 => 0xA3 | LOG4 => 0xA4 | CREATE => 0xF0 | CALL => 0xF1
  | CALLCODE => 0xF2 | RETURN => 0xF3 | DELEGATECALL => 0xF4 | CREATE2 => 0xF5 | STATICCALL => 0xFA
  | REVERT => 0xFD | SELFDESTRUCT => 0xFF
  end.
Coercion opcode_byte : EvmOpCode >-> Z.

(** ** The table *)
Abbreviation opcode_array := (list OpCodeInfo).

#[local] Abbreviation I := mk_opcode.
#[local] Abbreviation u := unknown_opcode_info.

Definition make_opcode_table_petersburg : opcode_array :=
  [
    I "STOP" 0 0 0 false 0 0; I "ADD" 0 2 1 false 3 0; I "MUL" 0 2 1 false 5 0; I "SUB" 0 2 1 false 3 0;
    I "DIV" 0 2 1 false 5 0; I "SDIV" 0 2 1 false 5 0; I "MOD" 0 2 1 false 5 0; I "SMOD" 0 2 1 false 5 0;
    I "ADDMOD" 0 3 1 false 8 0; I "MULMOD" 0 3 1 false 8 0; I "EXP" 0 2 1 true 10 0;
    I "SIGNEXTEND" 0 2 1 false 5 0; u; u; u; u;
    I "LT" 0 2 1 false 3 0; I "GT" 0 2 1 false 3 0; I "SLT" 0 2 1 false 3 0; I "SGT" 0 2 1 false 3 0;
    I "EQ" 0 2 1 false 3 0; I "ISZERO" 0 1 1 false 3 0; I "AND" 0 2 1 false 3 0; I "OR" 0 2 1 false 3 0;
    I "XOR" 0 2 1 false 3 0; I "NOT" 0 1 1 false 3 0; I "BYTE" 0 2 1 false 3 0; I "SHL" 0 2 1 false 3 0;
    I "SHR" 0 2 1 false 3 0; I "SAR" 0 2 1 false 3 0; u; u;
    I "SHA3" 0 2 1 true 30 0; u; u; u; u; u; u; u; u; u; u; u; u; u; u; u;
    I "ADDRESS" 0 0 1 false 2 0; I "BALANCE" 0 1 1 true 400 0; I "ORIGIN" 0 0 1 false 2 0;
    I "CALLER" 0 0 1 false 2 0; I "CALLVALUE" 0 0 1 false 2 0; I "CALLDATALOAD" 0 1 1 false 3 0;
    I "CALLDATASIZE" 0 0 1 false 2 0; I "CALLDATACOPY" 0 3 0 true 3 0; I "CODESIZE" 0 0 1 false 2 0;
    I "CODECOPY" 0 3 0 true 3 0; I "GASPRICE" 0 0 1 false 2 0; I "EXTCODESIZE" 0 1 1 true 700 0;
    I "EXTCODECOPY" 0 4 0 true 700 0; I "RETURNDATASIZE" 0 0 1 false 2 0; I "RETURNDATACOPY" 0 3 0 true 3 0;
    I "EXTCODEHASH" 0 1 1 true 400 0;
    I "BLOCKHASH" 0 1 1 false 20 0; I "COINBASE" 0 0 1 false 2 0; I "TIMESTAMP" 0 0 1 false 2 0;
    I "NUMBER" 0 0 1 false 2 0; I "DIFFICULTY" 0 0 1 false 2 0; I "GASLIMIT" 0 0 1 false 2 0; u; u; u; u; u; u; u;
    u; u; u;
    I "POP" 0 1 0 false 2 0; I "MLOAD" 0 1 1 true 3 0; I "MSTORE" 0 2 0 true 3 0; I "MSTORE8" 0 2 0 true 3 0;
    I "SLOAD" 0 1 1 true 200 0; I "SSTORE" 0 2 0 true 5000 0; I "JUMP" 0 1 0 false 8 0; I "JUMPI" 0 2 0 false 10 0;
    I "PC" 0 0 1 false 2 0; I "MSIZE" 0 0 1 false 2 0; I "GAS" 0 0 1 false 2 0; I "JUMPDEST" 0 0 0 false 1 0; u; u;
    u; u;
    I "PUSH1" 1 0 1 false 3 1; I "PUSH2" 2 0 1 false 3 2; I "PUSH3" 3 0 1 false 3 3; I "PUSH4" 4 0 1 false 3 4;
    I "PUSH5" 5 0 1 false 3 5; I "PUSH6" 6 0 1 false 3 6; I "PUSH7" 7 0 1 false 3 7; I "PUSH8" 8 0 1 false 3 8;
    I "PUSH9" 9 0 1 false 3 9; I "PUSH10" 10 0 1 false 3 10; I "PUSH11" 11 0 1 false 3 11;
    I "PUSH12" 12 0 1 false 3 12; I "PUSH13" 13 0 1 false 3 13; I "PUSH14" 14 0 1 false 3 14;
    I "PUSH15" 15 0 1 false 3 15; I "PUSH16" 16 0 1 false 3 16;
    I "PUSH17" 17 0 1 false 3 17; I "PUSH18" 18 0 1 false 3 18; I "PUSH19" 19 0 1 false 3 19;
    I "PUSH20" 20 0 1 false 3 20; I "PUSH21" 21 0 1 false 3 21; I "PUSH22" 22 0 1 false 3 22;
    I "PUSH23" 23 0 1 false 3 23; I "PUSH24" 24 0 1 false 3 24; I "PUSH25" 25 0 1 false 3 25;
    I "PUSH26" 26 0 1 false 3 26; I "PUSH27" 27 0 1 false 3 27; I "PUSH28" 28 0 1 false 3 28;
    I "PUSH29" 29 0 1 false 3 29; I "PUSH30" 30 0 1 false 3 30; I "PUSH31" 31 0 1 false 3 31;
    I "PUSH32" 32 0 1 false 3 32;
    I "DUP1" 0 1 2 false 3 1; I "DUP2" 0 2 3 false 3 2; I "DUP3" 0 3 4 false 3 3; I "DUP4" 0 4 5 false 3 4;
    I "DUP5" 0 5 6 false 3 5; I "DUP6" 0 6 7 false 3 6; I "DUP7" 0 7 8 false 3 7; I "DUP8" 0 8 9 false 3 8;
    I "DUP9" 0 9 10 false 3 9; I "DUP10" 0 10 11 false 3 10; I "DUP11" 0 11 12 false 3 11;
    I "DUP12" 0 12 13 false 3 12; I "DUP13" 0 13 14 false 3 13; I "DUP14" 0 14 15 false 3 14;
    I "DUP15" 0 15 16 false 3 15; I "DUP16" 0 16 17 false 3 16;
    I "SWAP1" 0 (1 + 1) 2 false 3 1; I "SWAP2" 0 (1 + 2) 3 false 3 2; I "SWAP3" 0 (1 + 3) 4 false 3 3;
    I "SWAP4" 0 (1 + 4) 5 false 3 4; I "SWAP5" 0 (1 + 5) 6 false 3 5; I "SWAP6" 0 (1 + 6) 7 false 3 6;
    I "SWAP7" 0 (1 + 7) 8 false 3 7; I "SWAP8" 0 (1 + 8) 9 false 3 8; I "SWAP9" 0 (1 + 9) 10 false 3 9;
    I "SWAP10" 0 (1 + 10) 11 false 3 10; I "SWAP11" 0 (1 + 11) 12 false 3 11; I "SWAP12" 0 (1 + 12) 13 false 3 12;
    I "SWAP13" 0 (1 + 13) 14 false 3 13; I "SWAP14" 0 (1 + 14) 15 false 3 14; I "SWAP15" 0 (1 + 15) 16 false 3 15;
    I "SWAP16" 0 (1 + 16) 17 false 3 16;
    I "LOG0" 0 (2 + 0) 0 true 375 0; I "LOG1" 0 (2 + 1) 0 true 750 1; I "LOG2" 0 (2 + 2) 0 true 1125 2;
    I "LOG3" 0 (2 + 3) 0 true 1500 3; I "LOG4" 0 (2 + 4) 0 true 1875 4; u; u; u; u; u; u; u; u; u; u; u;
    u; u; u; u; u; u; u; u; u; u; u; u; u; u; u; u;
    u; u; u; u; u; u; u; u; u; u; u; u; u; u; u; u;
    u; u; u; u; u; u; u; u; u; u; u; u; u; u; u; u;
    u; u; u; u; u; u; u; u; u; u; u; u; u; u; u; u;
    I "CREATE" 0 3 1 true 32000 0; I "CALL" 0 7 1 true 700 0; I "CALLCODE" 0 7 1 true 700 0;
    I "RETURN" 0 2 0 true 0 0; I "DELEGATECALL" 0 6 1 true 700 0; I "CREATE2" 0 4 1 true 32000 0; u; u; u; u;
    I "STATICCALL" 0 6 1 true 700 0; u; u; I "REVERT" 0 2 0 true 0 0; u; I "SELFDESTRUCT" 0 1 0 true 5000 0 ].

Definition add_opcode (opcode : Z) (info : OpCodeInfo) (table : opcode_array) : opcode_array :=
  <[Z.to_nat opcode := info]> table.

Definition with_gas (info : OpCodeInfo) (g : Z) : OpCodeInfo :=
  mk_opcode (op_name info) (num_args info) (min_stack info) (stack_increase info) (dynamic_gas info) g (index info).

(** [table[opcode].min_gas = g]. *)
Definition set_min_gas (opcode g : Z) (table : opcode_array) : opcode_array :=
  alter (fun info => with_gas info g) (Z.to_nat opcode) table.

Definition make_opcode_table_istanbul : opcode_array :=
  set_min_gas EXTCODEHASH 700 (set_min_gas BALANCE 700 (set_min_gas SSTORE 800 (set_min_gas SLOAD 800
    (add_opcode 0x47 (I "SELFBALANCE" 0 0 1 false 5 0) (add_opcode 0x46 (I "CHAINID" 0 0 1 false 2 0)
      make_opcode_table_petersburg))))).

Definition make_opcode_table_berlin : opcode_array :=
  foldr (fun (op : EvmOpCode) table => set_min_gas op 100 table) make_opcode_table_istanbul
    [SLOAD; SSTORE; BALANCE; EXTCODECOPY; EXTCODEHASH; EXTCODESIZE; CALL; CALLCODE; DELEGATECALL; STATICCALL].

Definition make_opcode_table_london : opcode_array :=
  add_opcode 0x48 (I "BASEFEE" 0 0 1 false 2 0) make_opcode_table_berlin.

Definition rename_opcode (name : string) (info : OpCodeInfo) : OpCodeInfo :=
  mk_opcode name (num_args info) (min_stack info) (stack_increase info) (dynamic_gas info) (min_gas info) (index info).

Definition make_opcode_table_paris : opcode_array :=
  alter (rename_opcode "PREVRANDAO") (Z.to_nat 0x44) make_opcode_table_london.

Definition make_opcode_table_shanghai : opcode_array :=
  add_opcode 0x5F (I "PUSH0" 0 0 1 false 2 0) make_opcode_table_paris.

Definition make_opcode_table_cancun : opcode_array :=
  add_opcode 0x5E (I "MCOPY" 0 3 0 true 3 0) (add_opcode 0x5D (I "TSTORE" 0 2 0 false 100 0)
    (add_opcode 0x5C (I "TLOAD" 0 1 1 false 100 0) (add_opcode 0x4A (I "BLOBBASEFEE" 0 0 1 false 2 0)
      (add_opcode 0x49 (I "BLOBHASH" 0 1 1 false 3 0) make_opcode_table_shanghai)))).

Definition make_opcode_table_osaka : opcode_array :=
  add_opcode 0x1E (I "CLZ" 0 1 1 false 5 0) make_opcode_table_cancun.

(** The specialisations of [make_opcode_table]; the primary template is deleted. *)
Definition make_opcode_table (r : monad_eth_revision) : opcode_array :=
  match r with
  | MONAD_ETH_PETERSBURG => make_opcode_table_petersburg
  | MONAD_ETH_ISTANBUL => make_opcode_table_istanbul
  | MONAD_ETH_BERLIN => make_opcode_table_berlin
  | MONAD_ETH_LONDON => make_opcode_table_london
  | MONAD_ETH_PARIS => make_opcode_table_paris
  | MONAD_ETH_SHANGHAI => make_opcode_table_shanghai
  | MONAD_ETH_CANCUN | MONAD_ETH_PRAGUE => make_opcode_table_cancun
  | MONAD_ETH_OSAKA => make_opcode_table_osaka
  | _ => []
  end.

(** A Monad revision has the table of its [evm_base]. *)
Definition opcode_table (t : Traits) (op : Z) : OpCodeInfo :=
  nth (Z.to_nat op) (make_opcode_table (evm_rev t)) unknown_opcode_info.

(** ** Families of opcodes *)
Definition is_push_opcode (opcode : Z) : bool := (PUSH0 <=? opcode) && (opcode <=? PUSH32).
Definition is_swap_opcode (opcode : Z) : bool := (SWAP1 <=? opcode) && (opcode <=? SWAP16).
Definition is_dup_opcode (opcode : Z) : bool := (DUP1 <=? opcode) && (opcode <=? DUP16).
Definition is_log_opcode (opcode : Z) : bool := (LOG0 <=? opcode) && (opcode <=? LOG4).
Definition get_push_opcode_index (opcode : Z) : Z := opcode - PUSH0.

(** ** The revisions compared with the newest one *)

(** [opcode] is an instruction at this revision. *)
Definition is_known (t : Traits) (opcode : Z) : bool := negb (op_name (opcode_table t opcode) =? "UNKNOWN")%string.

Definition osaka (opcode : Z) : OpCodeInfo := nth (Z.to_nat opcode) make_opcode_table_osaka unknown_opcode_info.

(** The opcodes that end the execution, for nothing. *)
Definition free_opcode (opcode : Z) : bool :=
  (opcode =? STOP) || (opcode =? RETURN) || (opcode =? REVERT).

Definition row_ok (info last : OpCodeInfo) (opcode : Z) : bool :=
  (op_name info =? "UNKNOWN")%string ||
  ((min_stack info =? min_stack last) && (stack_increase info =? stack_increase last)
    && (free_opcode opcode || (1 <=? min_gas info)) && (0 <=? min_gas info)).

Definition table_ok (table : opcode_array) : bool :=
  forallb (fun k => row_ok (nth k table unknown_opcode_info) (nth k make_opcode_table_osaka unknown_opcode_info) (Z.of_nat k))
    (seq 0 256).

Lemma tables_ok r : table_ok (make_opcode_table r) = true.
Proof. destruct r; vm_compute; reflexivity. Qed.

Lemma opcode_row t (op : Z) : 0 <= op < 256 -> is_known t op = true ->
  min_stack (opcode_table t op) = min_stack (osaka op) /\
  stack_increase (opcode_table t op) = stack_increase (osaka op) /\
  (free_opcode op = true \/ 1 <= min_gas (opcode_table t op)) /\ 0 <= min_gas (opcode_table t op).
Proof.
  intros Hop Hk. pose proof (tables_ok (evm_rev t)) as H. unfold table_ok in H. rewrite forallb_forall in H.
  specialize (H (Z.to_nat op)). rewrite in_seq in H. specialize (H ltac:(lia)). rewrite Z2Nat.id in H by lia.
  fold (opcode_table t op) (osaka op) in H. unfold row_ok in H. unfold is_known in Hk. apply negb_true_iff in Hk.
  rewrite Hk in H. cbn [orb] in H. rewrite !andb_true_iff, orb_true_iff, !Z.eqb_eq, !Z.leb_le in H. tauto.
Qed.

Lemma opcode_byte_range (op : EvmOpCode) : 0 <= op < 256.
Proof. destruct op; vm_compute; split; congruence. Qed.

(** The revision that introduced an opcode. *)
Definition introduced (op : Z) : monad_eth_revision :=
  if (op =? CHAINID) || (op =? SELFBALANCE) then MONAD_ETH_ISTANBUL
  else if op =? BASEFEE then MONAD_ETH_LONDON
  else if op =? PUSH0 then MONAD_ETH_SHANGHAI
  else if (op =? BLOBHASH) || (op =? BLOBBASEFEE) || (op =? TLOAD) || (op =? TSTORE) || (op =? MCOPY) then MONAD_ETH_CANCUN
  else if op =? CLZ then MONAD_ETH_OSAKA
  else MONAD_ETH_PETERSBURG.

Lemma known_since t (op : EvmOpCode) : supported t = true -> eth_ge (evm_rev t) (introduced op) = true -> is_known t op = true.
Proof.
  unfold supported, is_known, opcode_table. destruct (evm_rev t); intros Hs; try discriminate Hs;
    destruct op; intros Hi; first [discriminate Hi|vm_compute; reflexivity].
Qed.
