(* ===== verification/Intercode.v ===== *)
(** * Code as the interpreter reads it

    Models src/category/vm/interpreter/intercode.{hpp,cpp}, the padded copy of the
    code with its map of jump destinations, and the two readers of push data of
    src/category/vm/interpreter/push.hpp: limb by limb ([generic_push]) and with one
    32-byte load and a byte shuffle ([avx2_push]).  A read outside the padded buffer is
    [None].  The theorems say that the map marks exactly the JUMPDEST bytes that start
    an instruction, and that both readers return the big-endian value of the bytes
    after the opcode. *)
From S2P Require Import Prelude UInt256 Abi StakingVars Transaction UInt256Div UInt256Ops Opcodes.

(** ** The padded buffer *)
Definition start_padding_size : nat := 30.
Definition end_padding_size : nat := 32 + 1.

Definition pad (code : byte_string) : byte_string :=
  replicate start_padding_size #0 ++ code ++ replicate end_padding_size #0.

(** [for (i = 0; i < code.size(); ++i)]; every round moves on. *)
Fixpoint find_jumpdests_loop (fuel i : nat) (code : byte_string) (jumpdests : list bool) : list bool :=
  match fuel with
  | O => jumpdests
  | S fuel' =>
      match (code !! i : option u8) with
      | None => jumpdests
      | Some op =>
          let jumpdests := if op =? JUMPDEST then <[i := true]> jumpdests else jumpdests in
          let i := if is_push_opcode op then (i + Z.to_nat (get_push_opcode_index op))%nat else i in
          find_jumpdests_loop fuel' (S i) code jumpdests
      end
  end.

Definition find_jumpdests (code : byte_string) : list bool :=
  find_jumpdests_loop (length code) 0 code (replicate (length code) false).

Record Intercode := mk_intercode { padded_code_ : byte_string; code_size_ : Z; jumpdest_map_ : list bool }.

(** The constructor asserts that the size fits in 20 bits. *)
Definition code_size_max : Z := 2 ^ 20 - 1.
Definition new_intercode (code : byte_string) : option Intercode :=
  if zlen code <=? code_size_max then Some (mk_intercode (pad code) (zlen code) (find_jumpdests code)) else None.

Definition is_jumpdest (ic : Intercode) (pc : Z) : bool :=
  (0 <=? pc) && (pc <? code_size_ ic) && nth (Z.to_nat pc) (jumpdest_map_ ic) false.

(** [n] bytes from [code() + off] on. *)
Definition code_bytes (ic : Intercode) (off : Z) (n : nat) : option byte_string :=
  let i := Z.of_nat start_padding_size + off in
  if (0 <=? i) && (i + Z.of_nat n <=? zlen (padded_code_ ic)) then Some (take n (drop (Z.to_nat i) (padded_code_ ic))) else None.

(** [*instr_ptr]. *)
Definition code_at (ic : Intercode) (ip : Z) : option u8 :=
  match code_bytes ic ip 1 with Some [b] => Some b | _ => None end.

(** ** Push data *)

(** A limb from eight bytes in big-endian order: [read_unaligned]. *)
Definition be_limb (l : byte_string) : u64 := #(bytes_val l).

(** The [N] bytes after [instr_ptr], limb by limb. *)
Definition generic_push (N : nat) (ic : Intercode) (ip : Z) : option u256 :=
  let whole_words := (N / 8)%nat in
  let leading_part := (N mod 8)%nat in
  let word_at_off off := be_limb <$> code_bytes ic (ip + 1 + Z.of_nat off) 8 in
  match code_bytes ic (ip + 1) leading_part with
  | None => None
  | Some leading =>
      (* [memcpy] to the end of a zero word, then [byteswap] *)
      let leading_word := be_limb (replicate (8 - leading_part) #0 ++ leading) in
      match whole_words with
      | 0%nat => Some (of_words [leading_word; #0; #0; #0])
      | 1%nat => w0 ← word_at_off leading_part; Some (of_words [w0; leading_word; #0; #0])
      | 2%nat => w0 ← word_at_off (8 + leading_part)%nat; w1 ← word_at_off leading_part;
             Some (of_words [w0; w1; leading_word; #0])
      | 3%nat => w0 ← word_at_off (16 + leading_part)%nat; w1 ← word_at_off (8 + leading_part)%nat;
             w2 ← word_at_off leading_part; Some (of_words [w0; w1; w2; leading_word])
      | _ => w0 ← word_at_off 24%nat; w1 ← word_at_off 16%nat; w2 ← word_at_off 8%nat; w3 ← word_at_off 0%nat;
             Some (of_words [w0; w1; w2; w3])
      end
  end.

(** *** The vector version *)

(** [_mm256_permute4x64_epi64(y, 27)]: the four lanes of 8 bytes in reverse order. *)
Definition permute4x64_27 (y : byte_string) : byte_string :=
  take 8 (drop 24 y) ++ take 8 (drop 16 y) ++ take 8 (drop 8 y) ++ take 8 y.

(** [_mm256_shuffle_epi8]: each byte of the result is a byte of the same 16-byte lane,
    or zero when the control byte has its top bit set. *)
Definition shuffle_epi8 (y control : byte_string) : byte_string :=
  imap (fun i (c : u8) => if Z.testbit c 7 then #0
                          else nth (16 * (i / 16) + Z.to_nat (Z.land c 15))%nat y #0) control.

(** The little-endian bytes of a 64-bit control word. *)
Definition le_bytes (k : nat) (z : Z) : byte_string := rev (to_bytes k z).

Definition push_mask (leading_part : nat) : Z :=
  Z.lnot (Z.shiftr (2 ^ 63 - 1) (63 - Z.of_nat leading_part * 8)).

Definition push_control (N : nat) : byte_string :=
  let whole_words := (N / 8)%nat in
  let m := push_mask (N mod 8) in
  let s lane c := (#(Z.lor c (if (whole_words =? lane)%nat then m else if (whole_words <? lane)%nat then -1 else 0)) : u64) in
  le_bytes 8 (s 0%nat 0x0001020304050607) ++ le_bytes 8 (s 1%nat 0x08090a0b0c0d0e0f)
    ++ le_bytes 8 (s 2%nat 0x0001020304050607) ++ le_bytes 8 (s 3%nat 0x08090a0b0c0d0e0f).

Definition avx2_shuffle (N : nat) (y : byte_string) : byte_string := shuffle_epi8 (permute4x64_27 y) (push_control N).

(** [0 < N]; a word in memory is its bytes in little-endian order. *)
Definition avx2_push (N : nat) (ic : Intercode) (ip : Z) : option u256 :=
  y ← (if (N =? 32)%nat then code_bytes ic (ip + 1) 32 else code_bytes ic (ip - (31 - Z.of_nat N)) 32);
  Some #(bytes_val (rev (avx2_shuffle N y))).

(** [push_impl]. *)
Definition push_value (N : nat) (ic : Intercode) (ip : Z) : option u256 :=
  match N with O => Some #0 | _ => avx2_push N ic ip end.

(** ** The map of jump destinations *)

(** The start of the instruction after the one at [i]. *)
Definition next_instr (op : u8) (i : nat) : nat :=
  S (if is_push_opcode op then (i + Z.to_nat (get_push_opcode_index op))%nat else i).

(** [starts code i j]: from an instruction at [i], execution order in the text reaches
    an instruction that starts at [j]. *)
Inductive starts (code : byte_string) : nat -> nat -> Prop :=
| starts_here i : starts code i i
| starts_next i j op : code !! i = Some op -> starts code (next_instr op i) j -> starts code i j.

Lemma starts_ge code i j : starts code i j -> (i <= j)%nat.
Proof. induction 1 as [|i j op _ _ IH]; [done|]. unfold next_instr in IH. destruct (is_push_opcode op); lia. Qed.

Lemma find_jumpdests_loop_length fuel : forall i code jd,
  length (find_jumpdests_loop fuel i code jd) = length jd.
Proof.
  induction fuel as [|fuel IH]; intros i code jd; cbn [find_jumpdests_loop]; [done|].
  destruct (code !! i); [|done]. rewrite IH. destruct (_ =? _); by rewrite ?length_insert.
Qed.

(** The loop adds the JUMPDEST bytes at the starts from [i] on. *)
Lemma find_jumpdests_loop_spec fuel : forall i code jd j,
  length jd = length code -> (length code <= fuel + i)%nat ->
  find_jumpdests_loop fuel i code jd !! j = Some true <->
  jd !! j = Some true \/ (starts code i j /\ code !! j = Some #JUMPDEST).
Proof.
  induction fuel as [|fuel IH]; intros i code jd j Hl Hf; cbn [find_jumpdests_loop].
  - split; [by left|]. intros [?|[Hs Hj]]; [done|]. apply starts_ge in Hs. apply lookup_lt_Some in Hj. lia.
  - destruct (code !! i) as [op|] eqn:Ei.
    2:{ split; [by left|]. intros [?|[Hs Hj]]; [done|]. apply starts_ge in Hs. apply lookup_lt_Some in Hj.
        apply lookup_ge_None in Ei. lia. }
    fold (next_instr op i). pose proof (lookup_lt_Some _ _ _ Ei) as Hi.
    rewrite IH; [|destruct (_ =? _); by rewrite ?length_insert|unfold next_instr; destruct (is_push_opcode op); lia].
    destruct (op =? JUMPDEST) eqn:Eo; cycle 1.
    + split; intros [?|[Hs Hj]]; auto; [right; split; [by eapply starts_next|done]|].
      inversion Hs; subst; [|by simplify_eq; right].
      by simplify_eq.
    + apply Z.eqb_eq in Eo.
      assert (op = #JUMPDEST) as -> by (apply uval_inj; rewrite Eo; reflexivity).
      destruct (decide (i = j)) as [->|Hne].
      * rewrite list_lookup_insert_eq by lia. split; [intros _; right; split; [constructor|done]|by left].
      * rewrite list_lookup_insert_ne by done.
        split; intros [?|[Hs Hj]]; auto; [right; split; [by eapply starts_next|done]|].
        inversion Hs; subst; [done|by simplify_eq; right].
Qed.

Lemma find_jumpdests_spec code j :
  nth j (find_jumpdests code) false = true <-> starts code 0 j /\ code !! j = Some #JUMPDEST.
Proof.
  transitivity (find_jumpdests code !! j = Some true).
  - rewrite nth_lookup. destruct (_ !! j) as [[]|]; cbn; split; congruence.
  - unfold find_jumpdests. rewrite find_jumpdests_loop_spec by (rewrite ?length_replicate; lia).
    split; [|by right]. intros [Hr|?]; [|done]. by apply lookup_replicate in Hr as [? _].
Qed.

(** C38: The map of jump destinations of the interpreter marks a position exactly when a
    JUMPDEST byte stands there and an instruction starts there: push data is skipped, and
    positions outside the code are never destinations. *)
Theorem jumpdests_exact code ic pc :
  new_intercode code = Some ic ->
  is_jumpdest ic pc = true <->
  exists j, pc = Z.of_nat j /\ starts code 0 j /\ code !! j = Some #JUMPDEST.
Proof.
  unfold new_intercode. destruct (zlen code <=? _); [|done]. intros [= <-].
  unfold is_jumpdest. cbn [code_size_ jumpdest_map_]. rewrite !andb_true_iff, find_jumpdests_spec. split.
  - intros [[H0 _] Hs]. exists (Z.to_nat pc). split; [lia|done].
  - intros (j & -> & Hs & Hj). rewrite Nat2Z.id. pose proof (lookup_lt_Some _ _ _ Hj). unfold zlen.
    split; [split|]; [lia|lia|done].
Qed.

(** PUSH1 0x5b JUMPDEST: only the second 0x5b is a destination. *)
Lemma jumpdests_exact_witness :
  exists ic, new_intercode [ #0x60; #0x5b; #0x5b ] = Some ic /\
    (is_jumpdest ic 2 = true <->
     exists j, 2 = Z.of_nat j /\ starts [ #0x60; #0x5b; #0x5b ] 0 j /\ ([ #0x60; #0x5b; #0x5b ] : byte_string) !! j = Some #JUMPDEST) /\
    is_jumpdest ic 2 = true /\ is_jumpdest ic 1 = false.
Proof.
  eexists. split; [reflexivity|]. split; [|done].
  by apply (jumpdests_exact [ #0x60; #0x5b; #0x5b ]).
Defined.

(** ** Push data *)

(** The code that follows position [k], padded with zeros. *)
Definition code_from (code : byte_string) (k n : nat) : byte_string :=
  take n (drop k (code ++ replicate end_padding_size #0)).

Section push.
Context (code : byte_string) (ic : Intercode).
Hypothesis Hic : new_intercode code = Some ic.

Lemma code_bytes_at k n :
  (k + n <= length code + end_padding_size)%nat -> code_bytes ic (Z.of_nat k) n = Some (code_from code k n).
Proof using Hic.
  unfold new_intercode in Hic. destruct (zlen code <=? _); [|done]. injection Hic as <-. intros Hk.
  unfold code_bytes, code_from. cbn [padded_code_]. unfold pad, zlen.
  rewrite !length_app, !length_replicate. unfold start_padding_size, end_padding_size in *.
  change (Z.of_nat 30) with 30. rewrite (proj2 (Z.leb_le 0 _)), (proj2 (Z.leb_le _ _)) by lia. cbn [andb].
  replace (Z.to_nat (30 + Z.of_nat k)) with (30 + k)%nat by lia. by rewrite drop_app_add'.
Qed.

Lemma length_code_from k n :
  (k + n <= length code + end_padding_size)%nat -> length (code_from code k n) = n.
Proof. intros. unfold code_from. rewrite length_take, length_drop, length_app, length_replicate. lia. Qed.

Lemma code_from_app k n m : code_from code k (n + m) = code_from code k n ++ code_from code (k + n) m.
Proof. unfold code_from. by rewrite <- drop_drop, take_take_drop. Qed.

Lemma uval_be_limb l : zlen l = 8 -> uval (be_limb l) = bytes_val l.
Proof.
  intros Hl. unfold be_limb. apply uval_wrap_small.
  pose proof (bytes_val_range l) as Hb. rewrite Hl in Hb. exact Hb.
Qed.

Lemma bytes_val_zeros k l : bytes_val (replicate k #0 ++ l) = bytes_val l.
Proof.
  induction k as [|k IH]; [done|]. cbn [replicate app bytes_val]. rewrite IH. reflexivity.
Qed.

Lemma bytes_val_8 l l' : zlen l' = 8 -> bytes_val (l ++ l') = bytes_val l * 2 ^ 64 + bytes_val l'.
Proof. intros H. by rewrite bytes_val_app, H. Qed.

(** The 32 bytes that end [N] bytes after [ip] may start in the padding. *)
Lemma code_bytes_before N ip :
  (1 <= N < 32)%nat -> (ip < length code)%nat ->
  exists y, code_bytes ic (Z.of_nat ip - (31 - Z.of_nat N)) 32 = Some y /\ length y = 32%nat /\
    drop (32 - N) y = code_from code (S ip) N.
Proof using Hic.
  unfold new_intercode in Hic. destruct (zlen code <=? _); [|done]. injection Hic as <-. intros HN Hip.
  unfold code_bytes, code_from. cbn [padded_code_]. unfold pad, zlen.
  rewrite !length_app, !length_replicate. unfold start_padding_size, end_padding_size in *.
  change (Z.of_nat 30) with 30. change (Z.of_nat 32) with 32.
  rewrite (proj2 (Z.leb_le 0 _)), (proj2 (Z.leb_le _ _)) by lia. cbn [andb]. eexists. split; [done|].
  split; [rewrite length_take, length_drop, !length_app, !length_replicate; lia|].
  replace 32%nat with ((32 - N) + N)%nat at 2 by lia. rewrite <- take_drop_commute, drop_drop.
  replace (Z.to_nat (30 + (Z.of_nat ip - (31 - Z.of_nat N))) + (32 - N))%nat with (30 + S ip)%nat by lia.
  by rewrite drop_app_add'.
Qed.

Context (N ip : nat).
Hypothesis HN : (1 <= N <= 32)%nat.
Hypothesis Hip : (ip < length code)%nat.

Lemma code_from_8 k m : (m + 8 <= 32)%nat -> (k <= S ip)%nat ->
  zlen (code_from code (k + m) 8) = 8.
Proof using Hip. clear HN. intros. unfold zlen. rewrite length_code_from; [done|unfold end_padding_size; lia]. Qed.

Lemma generic_push_eq : generic_push N ic (Z.of_nat ip) = Some #(bytes_val (code_from code (S ip) N)).
Proof using All.
  pose proof (Nat.div_mod N 8 ltac:(lia)) as HNd. pose proof (Nat.mod_upper_bound N 8 ltac:(lia)) as Hr.
  assert (N / 8 <= 4)%nat as Hq by (apply Nat.Div0.div_le_upper_bound; lia).
  unfold generic_push. set (q := (N / 8)%nat) in *. set (r := (N mod 8)%nat) in *. clearbody q r.
  replace (Z.of_nat ip + 1) with (Z.of_nat (S ip)) by lia. rewrite code_bytes_at by (unfold end_padding_size; lia).
  assert (forall off, (off + 8 <= 32)%nat ->
    be_limb <$> code_bytes ic (Z.of_nat (S ip) + Z.of_nat off) 8 = Some (be_limb (code_from code (S ip + off) 8))) as Hw.
  { intros off Hoff. rewrite <- Nat2Z.inj_add, code_bytes_at by (unfold end_padding_size; lia). done. }
  assert (uval (be_limb (replicate (8 - r) #0 ++ code_from code (S ip) r)) = bytes_val (code_from code (S ip) r)) as Hlead.
  { rewrite uval_be_limb; [apply bytes_val_zeros|]. unfold zlen.
    rewrite length_app, length_replicate, length_code_from by (unfold end_padding_size; lia). lia. }
  assert (forall n m, (n + 8)%nat = m -> (m <= 32)%nat ->
    bytes_val (code_from code (S ip) m) =
    bytes_val (code_from code (S ip) n) * B + uval (be_limb (code_from code (S ip + n) 8))) as Hs.
  { intros n m <- Hm. rewrite uval_be_limb by (apply code_from_8; lia).
    by rewrite code_from_app, bytes_val_8 by (apply code_from_8; lia). }
  subst N. destruct q as [|[|[|[|[|]]]]]; [..|lia]; rewrite ?Hw by lia; cbn [mbind option_bind].
  all: f_equal; apply of_words_val; [done|].
  all: cbn [words_val]; rewrite ?Hlead, ?(uval_wrap_0 64).
  - rewrite Nat.mul_0_r, Nat.add_0_l. ring.
  - rewrite (Hs r (8 * 1 + r)%nat) by lia. ring.
  - rewrite (Hs (8 + r) (8 * 2 + r))%nat, (Hs r (8 + r))%nat by lia. ring.
  - rewrite (Hs (16 + r) (8 * 3 + r))%nat, (Hs (8 + r) (16 + r))%nat, (Hs r (8 + r))%nat by lia. ring.
  - rewrite (Hs 24 (8 * 4 + r))%nat, (Hs 16 24)%nat, (Hs 8 16)%nat, (Hs 0 8)%nat by lia.
    change (bytes_val (code_from code (S ip) 0)) with 0. ring.
Qed.

(** The shuffle reverses the bytes of the push data and clears the others. *)
Lemma avx2_shuffle_eq y :
  length y = 32%nat -> rev (avx2_shuffle N y) = replicate (32 - N) #0 ++ drop (32 - N) y.
Proof using HN.
  clear - HN. intros Hy. do 32 (destruct y as [|? y]; [discriminate Hy|]). destruct y; [|discriminate Hy]. clear Hy.
  destruct N as [|n]; [lia|]. do 32 (destruct n as [|n]; [vm_compute; reflexivity|]). lia.
Qed.

Lemma avx2_push_eq : avx2_push N ic (Z.of_nat ip) = Some #(bytes_val (code_from code (S ip) N)).
Proof using All.
  unfold avx2_push. destruct (Nat.eqb_spec N 32) as [E|E].
  - replace (Z.of_nat ip + 1) with (Z.of_nat (S ip)) by lia. rewrite code_bytes_at by (unfold end_padding_size; lia).
    cbn [mbind option_bind]. rewrite avx2_shuffle_eq by (apply length_code_from; unfold end_padding_size; lia).
    by rewrite E.
  - destruct (code_bytes_before N ip) as (y & -> & Hl & Hd); [lia|done|].
    cbn [mbind option_bind]. by rewrite avx2_shuffle_eq, bytes_val_zeros, Hd.
Qed.
End push.

(** C39: Both readers of push data return the [N] bytes after the opcode, in big-endian
    order, with zeros beyond the end of the code: the one that reads limb by limb and the
    one that loads 32 bytes, possibly from before the code, and shuffles them. *)
Theorem push_exact code ic N ip :
  new_intercode code = Some ic -> (1 <= N <= 32)%nat -> (ip < length code)%nat ->
  avx2_push N ic (Z.of_nat ip) = Some #(bytes_val (code_from code (S ip) N)) /\
  generic_push N ic (Z.of_nat ip) = avx2_push N ic (Z.of_nat ip).
Proof. intros Hic HN Hip. by rewrite (avx2_push_eq code ic Hic N ip), (generic_push_eq code ic Hic N ip). Qed.

(** A PUSH3 whose data is cut short after two bytes. *)
Lemma push_exact_witness :
  exists ic, new_intercode [ #0x62; #0x12; #0x34 ] = Some ic /\
    avx2_push 3 ic (Z.of_nat 0) = Some #(bytes_val (code_from [ #0x62; #0x12; #0x34 ] 1 3)) /\
    bytes_val (code_from [ #0x62; #0x12; #0x34 ] 1 3) = 0x123400.
Proof.
  eexists. split; [reflexivity|]. split; [|reflexivity].
  apply (push_exact [ #0x62; #0x12; #0x34 ]); [reflexivity|lia|simpl; lia].
Defined.
