(* ===== verification/TransactionRlp.v ===== *)
(** * Transactions on the wire

    Models src/category/execution/ethereum/core/rlp/{transaction_rlp,
    signature_rlp}.cpp: the RLP encodings of legacy and typed transactions, for
    the wire and for signing, and their decoders.  Decoding inverts encoding, and
    decoding a single transaction never aborts the process, whatever the input;
    decoding a list of transactions does, on an empty item. *)
From S2P Require Import Prelude Abi Transaction Rlp.
#[local] Open Scope dec_scope.

(** ** Encoding *)
Definition encode_access_list (access_list : list AccessEntry) : byte_string :=
  encode_list2 (mjoin ((fun e =>
    encode_list2 (encode_address (Some (ae_a e)) ++ encode_list2 (mjoin (encode_bytes32 <$> ae_keys e))))
    <$> access_list)).

(** [None]: the assertion that the chain id is there fails. *)
Definition encode_authorization_entry_for_signing (e : AuthorizationEntry) : option byte_string :=
  chain_id ← sc_chain_id (auth_sc e);
  Some (#0x05 :: encode_list2 (encode_unsigned chain_id ++ encode_address (Some (auth_address e)) ++
    encode_unsigned (auth_nonce e))).

Definition encode_authorization_entry (e : AuthorizationEntry) : option byte_string :=
  chain_id ← sc_chain_id (auth_sc e);
  Some (encode_list2 (encode_unsigned chain_id ++ encode_address (Some (auth_address e)) ++
    encode_unsigned (auth_nonce e) ++ encode_unsigned (sc_y_parity (auth_sc e)) ++
    encode_unsigned (sc_r (auth_sc e)) ++ encode_unsigned (sc_s (auth_sc e)))).

Definition encode_authorization_list (auth_list : list AuthorizationEntry) : option byte_string :=
  entries ← mapM encode_authorization_entry auth_list;
  Some (encode_list2 (mjoin entries)).

Definition encode_legacy_base (txn : Transaction) : byte_string :=
  encode_unsigned (tx_nonce txn) ++ encode_unsigned (tx_max_fee_per_gas txn) ++
  encode_unsigned (tx_gas_limit txn) ++ encode_address (tx_to txn) ++
  encode_unsigned (tx_value txn) ++ encode_string2 (tx_data txn).

(** The types that carry a priority fee. *)
Definition has_priority_fee (ty : TransactionType) : bool :=
  match ty with eip1559 | eip4844 | eip7702 => true | _ => false end.

Definition encode_eip2718_base (txn : Transaction) : option byte_string :=
  let ty := tx_type txn in
  authorizations ← (if bool_decide (ty = eip7702)
                    then encode_authorization_list (tx_authorization_list txn) else Some []);
  Some (encode_unsigned (default #0 (sc_chain_id (tx_sc txn))) ++ encode_unsigned (tx_nonce txn) ++
    (if has_priority_fee ty then encode_unsigned (tx_max_priority_fee_per_gas txn) else []) ++
    encode_unsigned (tx_max_fee_per_gas txn) ++ encode_unsigned (tx_gas_limit txn) ++
    encode_address (tx_to txn) ++ encode_unsigned (tx_value txn) ++ encode_string2 (tx_data txn) ++
    encode_access_list (tx_access_list txn) ++
    (if bool_decide (ty = eip4844)
     then encode_unsigned (tx_max_fee_per_blob_gas txn) ++
       encode_list2 (mjoin (encode_bytes32 <$> tx_blob_versioned_hashes txn))
     else []) ++ authorizations).

Definition type_byte (ty : TransactionType) : u8 :=
  match ty with legacy => #0 | eip2930 => #1 | eip1559 => #2 | eip4844 => #3 | eip7702 => #4 end.

(** [None]: [get_v] throws or an assertion fails. *)
Definition encode_transaction (txn : Transaction) : option byte_string :=
  if bool_decide (tx_type txn = legacy) then
    v ← get_v (tx_sc txn);
    Some (encode_list2 (encode_legacy_base txn ++ encode_unsigned v ++
      encode_unsigned (sc_r (tx_sc txn)) ++ encode_unsigned (sc_s (tx_sc txn))))
  else
    base ← encode_eip2718_base txn;
    Some (type_byte (tx_type txn) :: encode_list2 (base ++ encode_unsigned (sc_y_parity (tx_sc txn)) ++
      encode_unsigned (sc_r (tx_sc txn)) ++ encode_unsigned (sc_s (tx_sc txn)))).

Definition encode_transaction_for_signing (txn : Transaction) : option byte_string :=
  if bool_decide (tx_type txn = legacy) then
    match sc_chain_id (tx_sc txn) with
    | Some chain_id =>
        Some (encode_list2 (encode_legacy_base txn ++ encode_unsigned chain_id ++
          encode_unsigned (#0 : u32) ++ encode_unsigned (#0 : u32)))
    | None => Some (encode_list2 (encode_legacy_base txn))
    end
  else
    base ← encode_eip2718_base txn;
    Some (type_byte (tx_type txn) :: encode_list2 base).

(** ** Decoding *)

(** [while (payload.size() > 0)]: an item takes at least one byte, so the length
    of the input is enough fuel. *)
Fixpoint decode_items {A} (m : decoder A) (fuel : nat) : decoder (list A) := fun enc =>
  match enc with
  | [] => Decoded [] []
  | _ =>
      match fuel with
      | O => DecodeAbort
      | S fuel' => (x <- m ;; xs <- decode_items m fuel' ;; dret (x :: xs)) enc
      end
  end.
Definition decode_while {A} (m : decoder A) : decoder (list A) := fun enc =>
  decode_items m (length enc) enc.

(** [while (payload.size() >= 32)]. *)
Fixpoint decode_hashes (fuel : nat) : decoder (list bytes32) := fun enc =>
  if (32 <=? length enc)%nat then
    match fuel with
    | O => DecodeAbort
    | S fuel' => (x <- decode_bytes32 ;; xs <- decode_hashes fuel' ;; dret (x :: xs)) enc
    end
  else Decoded [] enc.

Definition decode_access_entry_keys : decoder (list bytes32) :=
  payload <- parse_list_metadata ;;
  keys <- dwithin payload (decode_while decode_bytes32) ;;
  dassert (length payload =? length keys * 33)%nat ;;
  dret keys.

Definition decode_access_entry : decoder AccessEntry :=
  payload <- parse_list_metadata ;;
  dwithin payload (
    a <- decode_address ;;
    keys <- decode_access_entry_keys ;;
    dend ;;
    dret (mk_access a keys)).

Definition decode_access_list : decoder (list AccessEntry) :=
  payload <- parse_list_metadata ;;
  dwithin payload (decode_while decode_access_entry).

Definition decode_authorization_entry : decoder AuthorizationEntry :=
  payload <- parse_list_metadata ;;
  dwithin payload (
    chain_id <- decode_unsigned 256 ;;
    a <- decode_address ;;
    nonce <- decode_unsigned 64 ;;
    y_parity <- decode_unsigned 8 ;;
    r <- decode_unsigned 256 ;;
    s <- decode_unsigned 256 ;;
    dend ;;
    dret (mk_auth (mk_sc r s (Some chain_id) y_parity) a nonce)).

Definition decode_authorization_list : decoder (list AuthorizationEntry) :=
  payload <- parse_list_metadata ;;
  dwithin payload (decode_while decode_authorization_entry).

Definition new_sc : SignatureAndChain := mk_sc #0 #0 None #0.

Definition decode_sc : decoder SignatureAndChain :=
  v <- decode_unsigned 256 ;;
  dret (from_v v new_sc).

Definition decode_transaction_legacy : decoder Transaction :=
  payload <- parse_list_metadata ;;
  dwithin payload (
    nonce <- decode_unsigned 64 ;;
    max_fee_per_gas <- decode_unsigned 256 ;;
    gas_limit <- decode_unsigned 64 ;;
    to <- decode_optional_address ;;
    value <- decode_unsigned 256 ;;
    data <- decode_string ;;
    sc <- decode_sc ;;
    r <- decode_unsigned 256 ;;
    s <- decode_unsigned 256 ;;
    dend ;;
    dret (mk_tx (mk_sc r s (sc_chain_id sc) (sc_y_parity sc)) nonce max_fee_per_gas gas_limit value to
      legacy data [] #0 #0 [] [])).

Definition type_of_byte (b : u8) : option TransactionType :=
  if b =? 0 then Some legacy else if b =? 1 then Some eip2930 else if b =? 2 then Some eip1559
  else if b =? 3 then Some eip4844 else if b =? 4 then Some eip7702 else None.

(** The fields of the types with blobs and with authorizations. *)
Definition decode_blobs (to : option address) : decoder (u256 * list bytes32) :=
  dreject (negb (bool_decide (is_Some to))) InputTooShort ;;
  max_fee_per_blob_gas <- decode_unsigned 256 ;;
  hashes_payload <- parse_list_metadata ;;
  hashes <- dwithin hashes_payload (decode_hashes (length hashes_payload)) ;;
  dret (max_fee_per_blob_gas, hashes).

Definition decode_eip2718_payload (ty : TransactionType) : decoder Transaction :=
  chain_id <- decode_unsigned 256 ;;
  nonce <- decode_unsigned 64 ;;
  max_priority_fee_per_gas <- (if has_priority_fee ty then decode_unsigned 256 else dret #0) ;;
  max_fee_per_gas <- decode_unsigned 256 ;;
  gas_limit <- decode_unsigned 64 ;;
  to <- decode_optional_address ;;
  value <- decode_unsigned 256 ;;
  data <- decode_string ;;
  access_list <- decode_access_list ;;
  blobs <- (if bool_decide (ty = eip4844) then decode_blobs to else dret (#0, [])) ;;
  authorization_list <-
    (if bool_decide (ty = eip7702) then
       dreject (negb (bool_decide (is_Some to))) InputTooShort ;;
       decode_authorization_list
     else dret []) ;;
  y_parity <- decode_unsigned 8 ;;
  r <- decode_unsigned 256 ;;
  s <- decode_unsigned 256 ;;
  dend ;;
  dret (mk_tx (mk_sc r s (Some chain_id) y_parity) nonce max_fee_per_gas gas_limit value to ty data
    access_list max_priority_fee_per_gas blobs.1 blobs.2 authorization_list).

Definition decode_transaction_eip2718 : decoder Transaction := fun enc =>
  match enc with
  | [] => DecodeAbort
  | b :: enc =>
      match type_of_byte b with
      | None => DecodeFail InvalidTxnType
      | Some ty => (payload <- parse_list_metadata ;; dwithin payload (decode_eip2718_payload ty)) enc
      end
  end.

Definition decode_transaction : decoder Transaction := fun enc =>
  match enc with
  | [] => DecodeFail InputTooShort
  | b :: _ => if 0xc0 <=? b then decode_transaction_legacy enc else decode_transaction_eip2718 enc
  end.

Definition decode_transaction_item : decoder Transaction := fun enc =>
  if 0xc0 <=? byte_at 0 enc then decode_transaction_legacy enc
  else (str <- parse_string_metadata ;; dwithin str decode_transaction_eip2718) enc.

Definition decode_transaction_list : decoder (list Transaction) :=
  ls <- parse_list_metadata ;;
  dwithin ls (decode_while decode_transaction_item).

(** ** Reading back what was written *)

(** [m] reads [l] off the front of any input, as [x]; [closes m x l]: it reads all
    of [l]. *)
Definition reads {A} (m : decoder A) (x : A) (l : byte_string) : Prop :=
  forall rest, m (l ++ rest) = Decoded x rest.
Definition closes {A} (m : decoder A) (x : A) (l : byte_string) : Prop := m l = Decoded x [].

(** Well below the range of [size_t]. *)
Definition small (l : byte_string) : Prop := zlen l < modulus 63.

Lemma small_app l l' : small (l ++ l') -> small l /\ small l'.
Proof. unfold small. rewrite zlen_app. pose proof (zlen_nonneg l). pose proof (zlen_nonneg l'). lia. Qed.

Lemma small_cons b l : small (b :: l) -> small l.
Proof. unfold small. rewrite zlen_cons. lia. Qed.

Lemma small_list l : small (encode_list2 l) -> small l.
Proof.
  unfold small, encode_list2. destruct (55 <? _); rewrite zlen_cons, ?zlen_app; [|lia].
  pose proof (zlen_nonneg (to_big_compact (wrap 64 (zlen l)))). lia.
Qed.

Lemma small_mjoin {A} (f : A -> byte_string) xs x : small (mjoin (f <$> xs)) -> x ∈ xs -> small (f x).
Proof.
  induction xs as [|y xs IH]; [by intros _ []%elem_of_nil|].
  change (mjoin (f <$> y :: xs)) with (f y ++ mjoin (f <$> xs)).
  intros [H1 H2]%small_app [->|Hx]%elem_of_cons; [done|by apply IH].
Qed.

Section calculus.
Context {A C : Type}.

Lemma reads_bind (m : decoder A) (k : A -> decoder C) x y l l' :
  reads m x l -> reads (k x) y l' -> reads (dbind m k) y (l ++ l').
Proof. intros H1 H2 rest. unfold dbind. rewrite <- app_assoc, H1. apply H2. Qed.

Lemma reads_bind_last (m : decoder A) (k : A -> decoder C) x y l :
  reads m x l -> reads (k x) y [] -> reads (dbind m k) y l.
Proof. intros H1 H2. rewrite <- (app_nil_r l). by apply (reads_bind m k x). Qed.

Lemma closes_bind (m : decoder A) (k : A -> decoder C) x y l l' :
  reads m x l -> closes (k x) y l' -> closes (dbind m k) y (l ++ l').
Proof. intros H1 H2. unfold closes, dbind. rewrite H1. apply H2. Qed.

Lemma closes_bind_last (m : decoder A) (k : A -> decoder C) x y l :
  reads m x l -> closes (k x) y [] -> closes (dbind m k) y l.
Proof. intros H1 H2. rewrite <- (app_nil_r l). by apply (closes_bind m k x). Qed.

Lemma reads_dret (x : A) : reads (dret x) x [].
Proof. done. Qed.
Lemma closes_end (x : A) : closes (dbind dend (fun _ => dret x)) x [].
Proof. done. Qed.

Lemma reads_within (p : byte_string) (m : decoder A) x :
  (exists l, m p = Decoded x l) -> reads (dwithin p m) x [].
Proof. intros [l E] rest. unfold dwithin. by rewrite E. Qed.
End calculus.

Lemma reads_list {A} (body : byte_string -> decoder A) (x : A) p :
  small p -> reads (body p) x [] -> reads (dbind parse_list_metadata body) x (encode_list2 p).
Proof.
  intros Hs H. apply (reads_bind_last _ _ p); [|done]. intros rest. apply parse_encode_list.
  unfold small in Hs. assert (modulus 63 < modulus 64 - 9) by done. lia.
Qed.

Lemma reads_items {A} (m : decoder A) (f : A -> byte_string) xs fuel :
  (forall x, x ∈ xs -> reads m x (f x) /\ f x <> []) -> (length xs <= fuel)%nat ->
  closes (decode_items m fuel) xs (mjoin (f <$> xs)).
Proof.
  revert fuel. induction xs as [|x xs IH]; intros fuel H Hf; [by destruct fuel|].
  destruct fuel as [|fuel]; [simpl in Hf; lia|].
  destruct (H x) as [Hx Hn]; [by left|]. unfold closes.
  change (mjoin (f <$> x :: xs)) with (f x ++ mjoin (f <$> xs)). cbn [decode_items].
  destruct (f x ++ mjoin (f <$> xs)) as [|b l] eqn:E; [by apply app_nil in E as []|].
  rewrite <- E. apply (closes_bind _ _ x); [done|].
  unfold closes, dbind. rewrite (IH fuel); [done| |simpl in Hf; lia]. intros y Hy. apply H. by right.
Qed.

Lemma length_mjoin {A} (f : A -> byte_string) xs :
  (forall x, x ∈ xs -> f x <> []) -> (length xs <= length (mjoin (f <$> xs)))%nat.
Proof.
  induction xs as [|x xs IH]; intros H; [done|].
  change (mjoin (f <$> x :: xs)) with (f x ++ mjoin (f <$> xs)). cbn [length]. rewrite length_app. assert (Hn : f x <> []) by (apply H; by left). destruct (f x); [done|]. cbn [length].
  specialize (IH (fun y Hy => H y (list_elem_of_further y x xs Hy))). lia.
Qed.

Lemma closes_while {A} (m : decoder A) (f : A -> byte_string) xs :
  (forall x, x ∈ xs -> reads m x (f x) /\ f x <> []) -> closes (decode_while m) xs (mjoin (f <$> xs)).
Proof.
  intros H. apply reads_items; [done|]. apply length_mjoin. intros x Hx. by apply H.
Qed.

(** *** Primitive encodings *)
Lemma reads_string s : zlen s < modulus 32 -> reads decode_string s (encode_string2 s).
Proof. intros H rest. by apply parse_encode_string. Qed.

Lemma small_compact k (x : uword (8 * N.of_nat k)) :
  (k <= 32)%nat -> zlen (to_big_compact x) < modulus 32.
Proof. intros Hk. pose proof (length_compact k x). assert (32 < modulus 32) by done. lia. Qed.

Lemma reads_unsigned_k k (x : uword (8 * N.of_nat k)) :
  (k <= 32)%nat -> reads (decode_unsigned (8 * N.of_nat k)) x (encode_unsigned x).
Proof.
  intros Hk. apply (reads_bind_last _ _ (to_big_compact x)).
  - intros rest. by apply parse_encode_string, small_compact.
  - intros rest. by rewrite decode_raw_num_compact.
Qed.
Lemma reads_u256 (x : u256) : reads (decode_unsigned 256) x (encode_unsigned x).
Proof. apply (reads_unsigned_k 32). lia. Qed.
Lemma reads_u64 (x : u64) : reads (decode_unsigned 64) x (encode_unsigned x).
Proof. apply (reads_unsigned_k 8). lia. Qed.
Lemma reads_u8 (x : u8) : reads (decode_unsigned 8) x (encode_unsigned x).
Proof. apply (reads_unsigned_k 1). lia. Qed.

Lemma parse_fixed k (x : uword (8 * N.of_nat k)) rest :
  (k <= 32)%nat -> parse_string_metadata (encode_string2 (to_bytes k x) ++ rest) = Decoded (to_bytes k x) rest.
Proof.
  intros Hk. apply parse_encode_string. unfold zlen. rewrite length_to_bytes.
  assert (32 < modulus 32) by done. lia.
Qed.

Lemma fixed_val k (x : uword (8 * N.of_nat k)) : wrap (8 * N.of_nat k) (bytes_val (to_bytes k x)) = x.
Proof.
  apply uval_inj. rewrite bytes_val_to_bytes, <- modulus_bytes, uval_wrap, Zmod_mod.
  apply Z.mod_small, uword_range.
Qed.

Lemma reads_fixed k (x : uword (8 * N.of_nat k)) :
  (k <= 32)%nat -> reads (decode_byte_string_fixed k) (to_bytes k x) (encode_string2 (to_bytes k x)).
Proof.
  intros Hk rest. unfold decode_byte_string_fixed, dbind. rewrite (parse_fixed k x) by done.
  by rewrite length_to_bytes, Nat.eqb_refl.
Qed.

Lemma reads_address (a : address) : reads decode_address a (encode_address (Some a)).
Proof.
  apply (reads_bind_last _ _ (to_bytes 20 a)); [by apply (reads_fixed 20); lia|]. intros rest.
  unfold dret. f_equal. apply (fixed_val 20).
Qed.
Lemma reads_bytes32 (x : bytes32) : reads decode_bytes32 x (encode_bytes32 x).
Proof.
  apply (reads_bind_last _ _ (to_bytes 32 x)); [by apply (reads_fixed 32); lia|]. intros rest.
  unfold dret. f_equal. apply (fixed_val 32).
Qed.

Lemma reads_optional_address (a : option address) : reads decode_optional_address a (encode_address a).
Proof.
  intros rest. unfold decode_optional_address, dbind. destruct a as [a|].
  2:{ change (encode_address None) with (encode_string2 []). by rewrite parse_encode_string. }
  simpl encode_address.
  rewrite (parse_fixed 20 a) by lia. rewrite length_to_bytes, Nat.eqb_refl. unfold dret. do 2 f_equal.
  apply (fixed_val 20).
Qed.

Lemma encode_string_nonempty s : encode_string2 s <> [].
Proof.
  unfold encode_string2. destruct s as [|b s]; [done|].
  by destruct (_ && _); [|destruct (55 <? _)].
Qed.
Lemma encode_list_nonempty l : encode_list2 l <> [].
Proof. unfold encode_list2. by destruct (55 <? _). Qed.

(** *** Lists *)
Create HintDb rlp discriminated.
#[export] Hint Resolve reads_u256 reads_u64 reads_u8 reads_address reads_bytes32 reads_optional_address : rlp.

(** Read the fields in order. *)
Ltac read_fields :=
  repeat first
    [ eapply closes_bind; [solve [eauto with rlp]|]
    | eapply reads_bind; [solve [eauto with rlp]|]
    | eapply closes_bind_last; [solve [eauto with rlp]|] ].

Lemma closes_reads_within {A} (m : decoder A) x p : closes m x p -> reads (dwithin p m) x [].
Proof. intros H. apply reads_within. eauto. Qed.

Lemma length_encode_bytes32 (x : bytes32) : length (encode_bytes32 x) = 33%nat.
Proof.
  assert (E : zlen (to_bytes 32 x) = 32) by (unfold zlen; by rewrite length_to_bytes).
  unfold encode_bytes32, encode_string2. rewrite E. change (uval (wrap 32 32)) with 32.
  cbn [Z.eqb Z.ltb Z.compare Pos.eqb Pos.compare Pos.compare_cont andb length]. by rewrite length_to_bytes.
Qed.

Lemma length_hashes (xs : list bytes32) : length (mjoin (encode_bytes32 <$> xs)) = (length xs * 33)%nat.
Proof.
  induction xs as [|x xs IH]; [done|].
  change (mjoin (encode_bytes32 <$> x :: xs)) with (encode_bytes32 x ++ mjoin (encode_bytes32 <$> xs)).
  rewrite length_app, length_encode_bytes32, IH. done.
Qed.

Lemma reads_keys keys :
  small (encode_list2 (mjoin (encode_bytes32 <$> keys))) ->
  reads decode_access_entry_keys keys (encode_list2 (mjoin (encode_bytes32 <$> keys))).
Proof.
  intros Hs%small_list. apply reads_list; [done|]. apply (reads_bind_last _ _ keys).
  - apply closes_reads_within, closes_while. intros x _. split; [apply reads_bytes32|apply encode_string_nonempty].
  - intros rest. unfold dbind, dassert. by rewrite length_hashes, Nat.eqb_refl.
Qed.

Definition encode_access_entry (e : AccessEntry) : byte_string :=
  encode_list2 (encode_address (Some (ae_a e)) ++ encode_list2 (mjoin (encode_bytes32 <$> ae_keys e))).

Lemma reads_access_entry e : small (encode_access_entry e) -> reads decode_access_entry e (encode_access_entry e).
Proof.
  intros Hs%small_list. pose proof Hs as [_ Hk]%small_app. apply reads_list; [done|].
  apply closes_reads_within. eapply closes_bind; [apply reads_address|].
  eapply closes_bind_last; [by apply reads_keys|]. by destruct e.
Qed.

Lemma reads_access_list l : small (encode_access_list l) -> reads decode_access_list l (encode_access_list l).
Proof.
  intros Hs%small_list. apply reads_list; [done|]. apply closes_reads_within.
  apply (closes_while _ encode_access_entry). intros e He. split; [|apply encode_list_nonempty].
  apply reads_access_entry. by apply (small_mjoin _ l).
Qed.

Lemma reads_authorization e enc :
  encode_authorization_entry e = Some enc -> small enc -> reads decode_authorization_entry e enc.
Proof.
  unfold encode_authorization_entry. destruct (sc_chain_id (auth_sc e)) as [id|] eqn:E; [|done].
  cbn [mbind option_bind]. intros <-%(inj Some) Hs%small_list. apply reads_list; [done|]. apply closes_reads_within.
  read_fields. destruct e as [[r s c y] a n]. cbn in E. by subst.
Qed.

Lemma reads_authorizations l enc :
  encode_authorization_list l = Some enc -> small enc -> reads decode_authorization_list l enc.
Proof.
  unfold encode_authorization_list. intros (entries & E & <-%(inj Some))%bind_Some.
  intros Hs%small_list. apply reads_list; [done|]. apply closes_reads_within.
  assert (Hen : mjoin entries = mjoin ((fun e => default [] (encode_authorization_entry e)) <$> l)).
  { clear Hs. apply mapM_Some in E. induction E as [|e x l entries He _ IH]; [done|].
    simpl. f_equal; [|exact IH]. by rewrite He. }
  rewrite Hen in Hs |- *. apply closes_while. intros e He.
  pose proof (small_mjoin _ _ _ Hs He) as Hse.
  assert (Hall : is_Some (mapM encode_authorization_entry l)) by eauto.
  rewrite mapM_is_Some, Forall_forall in Hall. destruct (Hall e He) as [x Ex]. cbv beta in Hse |- *.
  rewrite Ex in Hse |- *. change (small x) in Hse. change (default [] (Some x)) with x.
  split; [by apply reads_authorization|]. revert Ex. unfold encode_authorization_entry.
  destruct (sc_chain_id _); [|done]. intros [= <-]. apply encode_list_nonempty.
Qed.

Lemma closes_hashes hs fuel :
  (length hs <= fuel)%nat -> closes (decode_hashes fuel) hs (mjoin (encode_bytes32 <$> hs)).
Proof.
  revert fuel. induction hs as [|h hs IH]; intros fuel Hf; [by destruct fuel|].
  destruct fuel as [|fuel]; [simpl in Hf; lia|]. unfold closes.
  change (mjoin (encode_bytes32 <$> h :: hs)) with (encode_bytes32 h ++ mjoin (encode_bytes32 <$> hs)).
  cbn [decode_hashes]. rewrite length_app, length_encode_bytes32. cbn [Nat.leb Nat.add].
  apply (closes_bind _ _ h); [apply reads_bytes32|]. unfold closes, dbind.
  by rewrite (IH fuel) by (simpl in Hf; lia).
Qed.

Lemma reads_blobs to fee hs :
  is_Some to -> small (encode_list2 (mjoin (encode_bytes32 <$> hs))) ->
  reads (decode_blobs to) (fee, hs) (encode_unsigned fee ++ encode_list2 (mjoin (encode_bytes32 <$> hs))).
Proof.
  intros Ht Hs%small_list. unfold decode_blobs. rewrite bool_decide_eq_true_2 by done.
  apply (reads_bind (dreject (negb true) InputTooShort) _ tt _ []); [done|].
  eapply reads_bind; [apply reads_u256|]. apply reads_list; [done|].
  apply (reads_bind_last _ _ hs); [|done]. apply closes_reads_within, closes_hashes.
  rewrite length_hashes. lia.
Qed.

(** ** Transactions *)

(** The fields a transaction's type does not have are unset. *)
Record wire_ok (tx : Transaction) : Prop := mk_wire_ok {
  wo_data : zlen (tx_data tx) < modulus 32;
  wo_parity : tx_type tx = legacy -> uval (sc_y_parity (tx_sc tx)) <= 1;
  wo_chain : tx_type tx <> legacy -> is_Some (sc_chain_id (tx_sc tx));
  wo_access : tx_type tx = legacy -> tx_access_list tx = [];
  wo_priority : has_priority_fee (tx_type tx) = false -> tx_max_priority_fee_per_gas tx = #0;
  wo_blobs : tx_type tx <> eip4844 -> tx_max_fee_per_blob_gas tx = #0 /\ tx_blob_versioned_hashes tx = [];
  wo_auths : tx_type tx <> eip7702 -> tx_authorization_list tx = [];
  wo_to : tx_type tx = eip4844 \/ tx_type tx = eip7702 -> is_Some (tx_to tx);
}.

Lemma from_v_new v r s :
  mk_sc r s (sc_chain_id (from_v v new_sc)) (sc_y_parity (from_v v new_sc)) = from_v v (mk_sc r s None #0).
Proof.
  unfold from_v, new_sc. destruct (v =? 28); [done|]. destruct (v =? 27); [done|]. cbv zeta.
  by destruct (negb _).
Qed.

Lemma reads_legacy tx v :
  wire_ok tx -> tx_type tx = legacy -> get_v (tx_sc tx) = Some v ->
  let enc := encode_legacy_base tx ++ encode_unsigned v ++
    encode_unsigned (sc_r (tx_sc tx)) ++ encode_unsigned (sc_s (tx_sc tx)) in
  small enc -> reads decode_transaction_legacy tx (encode_list2 enc).
Proof.
  intros Hw Hl Hv enc Hs. apply reads_list; [done|]. apply closes_reads_within. subst enc.
  unfold encode_legacy_base. rewrite <- !app_assoc.
  read_fields. eapply closes_bind; [apply reads_string, Hw|].
  eapply closes_bind; [apply (reads_bind_last _ _ v); [apply reads_u256|apply reads_dret]|].
  read_fields. rewrite from_v_new, (from_get_v _ _ (wo_parity _ Hw Hl) Hv).
  destruct Hw as [_ _ _ Ha Hp Hb Hau _]. rewrite Hl in *. destruct (Hb ltac:(done)) as [Hb1 Hb2].
  specialize (Ha eq_refl). specialize (Hp eq_refl). specialize (Hau ltac:(done)).
  destruct tx; cbn in *; by subst.
Qed.

Lemma reads_priority tx :
  wire_ok tx ->
  reads (if has_priority_fee (tx_type tx) then decode_unsigned 256 else dret #0) (tx_max_priority_fee_per_gas tx)
    (if has_priority_fee (tx_type tx) then encode_unsigned (tx_max_priority_fee_per_gas tx) else []).
Proof.
  intros Hw. destruct (has_priority_fee (tx_type tx)) eqn:E; [apply reads_u256|].
  rewrite (wo_priority _ Hw E). apply reads_dret.
Qed.

Lemma reads_blob_fields tx :
  wire_ok tx ->
  let enc := if bool_decide (tx_type tx = eip4844)
     then encode_unsigned (tx_max_fee_per_blob_gas tx) ++
       encode_list2 (mjoin (encode_bytes32 <$> tx_blob_versioned_hashes tx))
     else [] in
  small enc ->
  reads (if bool_decide (tx_type tx = eip4844) then decode_blobs (tx_to tx) else dret (#0, []))
    (tx_max_fee_per_blob_gas tx, tx_blob_versioned_hashes tx) enc.
Proof.
  intros Hw. cbv zeta. case_bool_decide as E.
  - intros [_ Hs]%small_app. apply reads_blobs; [apply Hw; by left|done].
  - intros _. destruct (wo_blobs _ Hw E) as [-> ->]. apply reads_dret.
Qed.

Lemma reads_auth_fields tx enc :
  wire_ok tx ->
  (if bool_decide (tx_type tx = eip7702)
   then encode_authorization_list (tx_authorization_list tx) else Some []) = Some enc -> small enc ->
  reads (if bool_decide (tx_type tx = eip7702) then
       dreject (negb (bool_decide (is_Some (tx_to tx)))) InputTooShort ;;
       decode_authorization_list
     else dret []) (tx_authorization_list tx) enc.
Proof.
  intros Hw. case_bool_decide as E; intros He Hs.
  - rewrite (bool_decide_eq_true_2 (is_Some _)) by (apply Hw; by right).
    apply (reads_bind (dreject (negb true) InputTooShort) _ tt _ []); [done|]. by apply reads_authorizations.
  - apply (inj Some) in He as <-. rewrite (wo_auths _ Hw E). apply reads_dret.
Qed.

Lemma reads_eip2718 tx base :
  wire_ok tx -> tx_type tx <> legacy -> encode_eip2718_base tx = Some base ->
  let enc := base ++ encode_unsigned (sc_y_parity (tx_sc tx)) ++
      encode_unsigned (sc_r (tx_sc tx)) ++ encode_unsigned (sc_s (tx_sc tx)) in
  small enc ->
  reads (payload <- parse_list_metadata ;; dwithin payload (decode_eip2718_payload (tx_type tx))) tx
    (encode_list2 enc).
Proof.
  intros Hw Ht Hb enc Hs. apply reads_list; [done|]. apply closes_reads_within. subst enc.
  unfold encode_eip2718_base in Hb. apply bind_Some in Hb as (auths & Hau & <-%(inj Some)).
  destruct (wo_chain _ Hw Ht) as [cid Hid]. rewrite Hid in *. change (default (wrap 256 0) (Some cid)) with cid in *.
  rewrite <- !app_assoc in *.
  do 8 apply small_app in Hs as [_ Hs]. apply small_app in Hs as [Hs1 Hs]. apply small_app in Hs as [Hs2 Hs].
  apply small_app in Hs as [Hs3 _]. unfold decode_eip2718_payload.
  read_fields. eapply closes_bind; [by apply reads_priority|]. read_fields.
  eapply closes_bind; [apply reads_string, Hw|]. eapply closes_bind; [by apply reads_access_list|].
  eapply closes_bind; [by apply reads_blob_fields|]. eapply closes_bind; [by apply reads_auth_fields|].
  read_fields. cbn [fst snd]. destruct tx as [[r s c y] ? ? ? ? ? ? ? ? ? ? ? ?]. cbn in *. by subst.
Qed.

Lemma type_of_type_byte ty : type_of_byte (type_byte ty) = Some ty.
Proof. by destruct ty. Qed.

(** The first byte of a list. *)
Lemma list_head p : exists b l, encode_list2 p = b :: l /\ 192 <= b.
Proof.
  unfold encode_list2. destruct (Z.ltb_spec 55 (wrap 64 (zlen p))); eexists _, _; (split; [done|]).
  - pose proof (length_compact 8 (wrap 64 (zlen p))) as Hl.
    pose proof (zlen_nonneg (to_big_compact (wrap 64 (zlen p)))).
    rewrite wrap8_small; [lia|]. change (8 * N.of_nat 8)%N with 64%N in Hl. lia.
  - pose proof (uword_range (wrap 64 (zlen p))). rewrite wrap8_small; lia.
Qed.

(** C22: what [encode_transaction] writes of a well-formed transaction ([wire_ok]), of
    any type, [decode_transaction] reads back as the same transaction, leaving the rest of
    the input. *)
Theorem transaction_round_trip tx enc rest :
  wire_ok tx -> encode_transaction tx = Some enc -> zlen enc < modulus 63 ->
  decode_transaction (enc ++ rest) = Decoded tx rest.
Proof.
  intros Hw He Hs. unfold encode_transaction in He. case_bool_decide as Hl.
  - apply bind_Some in He as (v & Hv & <-%(inj Some)). apply small_list in Hs as Hs'.
    pose proof (reads_legacy tx v Hw Hl Hv Hs' rest) as Hr. revert Hr. unfold decode_transaction.
    set (p := encode_legacy_base tx ++ _). clearbody p.
    destruct (list_head p) as (b & l & -> & Hb). cbn [app]. by destruct (Z.leb_spec 192 b); [|lia].
  - apply bind_Some in He as (base & Hb & <-%(inj Some)). apply small_cons, small_list in Hs as Hs'.
    pose proof (reads_eip2718 tx base Hw Hl Hb Hs' rest) as Hr.
    unfold decode_transaction. cbn [app]. rewrite (proj2 (Z.leb_gt _ _)) by (by destruct (tx_type tx)).
    unfold decode_transaction_eip2718. rewrite type_of_type_byte. exact Hr.
Qed.

Definition demo_encoding : byte_string := default [] (encode_transaction demo_tx).

Lemma transaction_round_trip_witness :
  decode_transaction (demo_encoding ++ [ #1 ]) = Decoded demo_tx [ #1 ].
Proof.
  apply transaction_round_trip; [|vm_compute; reflexivity..].
  split; simpl; try done; try (intros [|]; done).
Defined.

(** ** Decoding never aborts *)
Definition safe {A} (m : decoder A) : Prop := forall enc, m enc <> DecodeAbort.
(** Every success takes something off the input. *)
Definition eats {A} (m : decoder A) : Prop :=
  forall enc x rest, m enc = Decoded x rest -> (length rest < length enc)%nat.

Create HintDb safe discriminated.

Lemma safe_bind {A C} (m : decoder A) (k : A -> decoder C) : safe m -> (forall x, safe (k x)) -> safe (dbind m k).
Proof. intros H1 H2 enc. unfold dbind. specialize (H1 enc). destruct (m enc); [apply H2|done|done]. Qed.
Lemma safe_within {A} p (m : decoder A) : safe m -> safe (dwithin p m).
Proof. intros H enc. unfold dwithin. specialize (H p). by destruct (m p). Qed.
Lemma safe_ret {A} (x : A) : safe (dret x).
Proof. done. Qed.
Lemma safe_fail {A} e : safe (dfail e : decoder A).
Proof. done. Qed.
Lemma safe_end : safe dend.
Proof. by intros []. Qed.
Lemma safe_reject b e : safe (dreject b e).
Proof. by destruct b. Qed.
Lemma safe_extract i n : safe (extract_payload false i n).
Proof. intros enc. unfold extract_payload. by destruct (_ || _). Qed.
Lemma safe_long b : safe (long_payload false b).
Proof.
  intros enc. unfold long_payload. destruct (_ <=? _); [done|]. destruct (decode_length _); [|done].
  destruct (_ <? _); [done|]. apply safe_extract.
Qed.
Lemma safe_parse_string : safe parse_string_metadata.
Proof.
  intros [|b enc]; [done|]. unfold parse_string_metadata, detail.parse_string_metadata. cbv zeta.
  repeat match goal with |- (if ?c then _ else _) <> _ => destruct c end; try done;
    first [apply safe_extract|apply safe_long].
Qed.
Lemma safe_parse_list : safe parse_list_metadata.
Proof.
  intros [|b enc]; [done|]. unfold parse_list_metadata, parse_list_metadata_, detail.parse_list_metadata. cbv zeta.
  repeat match goal with |- (if ?c then _ else _) <> _ => destruct c end; try done;
    first [apply safe_extract|apply safe_long].
Qed.
#[export] Hint Resolve safe_ret safe_fail safe_end safe_reject safe_parse_string safe_parse_list : safe.

Ltac safe_step :=
  cbv beta;
  lazymatch goal with
  | |- safe (dbind _ _) => apply safe_bind; [|intros ?]
  | |- safe (dwithin _ _) => apply safe_within
  | |- safe (match ?x with _ => _ end) => destruct x
  | |- safe _ => solve [auto with safe nocore]
  end.
Ltac safe := repeat safe_step.

Lemma safe_unsigned n : safe (decode_unsigned n).
Proof. unfold decode_unsigned. safe. Qed.
Lemma safe_fixed n : safe (decode_byte_string_fixed n).
Proof. unfold decode_byte_string_fixed. safe. Qed.
#[export] Hint Resolve safe_unsigned safe_fixed : safe.
Lemma safe_address : safe decode_address.
Proof. unfold decode_address. safe. Qed.
Lemma safe_bytes32 : safe decode_bytes32.
Proof. unfold decode_bytes32. safe. Qed.
Lemma safe_optional_address : safe decode_optional_address.
Proof. unfold decode_optional_address. safe. Qed.
Lemma safe_string : safe decode_string.
Proof. apply safe_parse_string. Qed.
#[export] Hint Resolve safe_address safe_bytes32 safe_optional_address safe_string : safe.

Lemma eats_parse_list : eats parse_list_metadata.
Proof.
  intros enc p rest ->%encode_parse_list. rewrite length_app.
  pose proof (encode_list_nonempty p). destruct (encode_list2 p); [done|]. simpl. lia.
Qed.
Lemma eats_list {A} (body : byte_string -> decoder A) :
  (forall p enc x rest, body p enc = Decoded x rest -> (length rest <= length enc)%nat) ->
  eats (dbind parse_list_metadata body).
Proof.
  intros Hb enc x rest. unfold dbind. destruct (parse_list_metadata enc) as [p rest'| |] eqn:E; [|done|done].
  intros H%Hb. apply eats_parse_list in E. lia.
Qed.
Lemma within_rest {A} p (m : decoder A) enc x rest : dwithin p m enc = Decoded x rest -> rest = enc.
Proof. unfold dwithin. destruct (m p); [|done|done]. by intros [= _ ->]. Qed.
Lemma eats_list_within {A} (body : byte_string -> decoder A) :
  eats (dbind parse_list_metadata (fun p => dwithin p (body p))).
Proof. apply eats_list. intros p enc x rest ->%within_rest. done. Qed.

Lemma bytes32_takes enc x rest : decode_bytes32 enc = Decoded x rest -> length enc = (33 + length rest)%nat.
Proof.
  unfold decode_bytes32, decode_byte_string_fixed, dbind, dreject.
  destruct (parse_string_metadata enc) as [p rest'| |] eqn:E; [|done|done].
  destruct (Nat.eqb_spec (length p) 32) as [Hp|]; [|done]. cbn [negb]. unfold dret. intros [= _ <-].
  apply encode_parse_string in E; [|unfold zlen; by rewrite Hp]. subst enc. rewrite length_app. f_equal.
  assert (Hz : zlen p = 32) by (unfold zlen; by rewrite Hp). unfold encode_string2. rewrite Hz.
  change (uval (wrap 32 32)) with 32. cbn [Z.eqb Z.ltb Z.compare Pos.eqb Pos.compare Pos.compare_cont andb length].
  by rewrite Hp.
Qed.

Lemma items_safe {A} (m : decoder A) fuel enc :
  safe m -> eats m -> (length enc <= fuel)%nat -> decode_items m fuel enc <> DecodeAbort.
Proof.
  intros Hs He. revert enc. induction fuel as [|fuel IH]; intros enc Hf.
  - by destruct enc; [|simpl in Hf; lia].
  - cbn [decode_items]. destruct enc as [|b enc]; [done|]. unfold dbind.
    specialize (Hs (b :: enc)). specialize (He (b :: enc)). destruct (m (b :: enc)) as [x rest| |]; [|done|done].
    specialize (IH rest). specialize (He x rest eq_refl).
    destruct (decode_items m fuel rest); [done|done|]. intros _. apply IH; [simpl in *; lia|done].
Qed.
Lemma safe_while {A} (m : decoder A) : safe m -> eats m -> safe (decode_while m).
Proof. intros Hs He enc. by apply items_safe. Qed.

Lemma keys_take fuel enc xs rest :
  decode_items decode_bytes32 fuel enc = Decoded xs rest -> length enc = (length xs * 33)%nat.
Proof.
  revert enc xs rest. induction fuel as [|fuel IH]; intros enc xs rest; cbn [decode_items];
    destruct enc as [|b enc]; try done; [by intros [= <- <-]..|].
  unfold dbind. destruct (decode_bytes32 (b :: enc)) as [x rest'| |] eqn:E; [|done|done].
  destruct (decode_items decode_bytes32 fuel rest') as [ys r| |] eqn:E'; [|done|done]. unfold dret. intros [= <- <-].
  apply bytes32_takes in E. apply IH in E'. simpl in *. lia.
Qed.

Lemma safe_keys : safe decode_access_entry_keys.
Proof.
  unfold decode_access_entry_keys. apply safe_bind; [apply safe_parse_list|]. intros p enc.
  unfold dbind, dwithin, decode_while. destruct (decode_items decode_bytes32 (length p) p) as [ks r| |] eqn:E.
  - unfold dassert. by rewrite (keys_take _ _ _ _ E), Nat.eqb_refl.
  - done.
  - exfalso. revert E. apply items_safe; [apply safe_bytes32| |done].
    intros e x rest H%bytes32_takes. lia.
Qed.
#[export] Hint Resolve safe_keys : safe.

Lemma safe_access_entry : safe decode_access_entry.
Proof. unfold decode_access_entry. safe. Qed.
Lemma safe_authorization_entry : safe decode_authorization_entry.
Proof. unfold decode_authorization_entry. safe. Qed.
Lemma safe_access_list : safe decode_access_list.
Proof.
  unfold decode_access_list. safe. apply safe_while; [apply safe_access_entry|apply eats_list_within].
Qed.
Lemma safe_authorization_list : safe decode_authorization_list.
Proof.
  unfold decode_authorization_list. safe. apply safe_while; [apply safe_authorization_entry|apply eats_list_within].
Qed.

Lemma hashes_safe fuel enc : (length enc <= fuel)%nat -> decode_hashes fuel enc <> DecodeAbort.
Proof.
  revert enc. induction fuel as [|fuel IH]; intros enc Hf; cbn [decode_hashes].
  - by destruct enc; [|simpl in Hf; lia].
  - destruct (32 <=? length enc)%nat; [|done]. unfold dbind.
    pose proof (safe_bytes32 enc) as Hs. destruct (decode_bytes32 enc) as [x rest| |] eqn:E; [|done|done].
    apply bytes32_takes in E. specialize (IH rest). destruct (decode_hashes fuel rest); [done|done|].
    intros _. apply IH; [lia|done].
Qed.

Lemma safe_blobs to : safe (decode_blobs to).
Proof.
  unfold decode_blobs. do 2 (apply safe_bind; [auto with safe|intros ?]). apply safe_bind; [auto with safe|].
  intros p. apply safe_bind; [|intros ?; apply safe_ret]. intros enc. unfold dwithin.
  pose proof (hashes_safe (length p) p ltac:(done)). by destruct (decode_hashes (length p) p).
Qed.
Lemma safe_sc : safe decode_sc.
Proof. unfold decode_sc. safe. Qed.
#[export] Hint Resolve safe_access_list safe_authorization_list safe_blobs safe_sc : safe.

Lemma safe_legacy : safe decode_transaction_legacy.
Proof. unfold decode_transaction_legacy. safe. Qed.
Lemma safe_payload ty : safe (decode_eip2718_payload ty).
Proof. unfold decode_eip2718_payload. safe. Qed.

(** C23: no input makes [decode_transaction] fail an assertion: it returns a
    transaction or a decode error. *)
Theorem decode_transaction_safe enc : decode_transaction enc <> DecodeAbort.
Proof.
  destruct enc as [|b enc]; [done|]. unfold decode_transaction. destruct (0xc0 <=? b); [apply safe_legacy|].
  unfold decode_transaction_eip2718. destruct (type_of_byte b) as [ty|]; [|done].
  apply (safe_bind _ _ safe_parse_list). intros p. apply safe_within, safe_payload.
Qed.

(** ** What the decoders accept and should not *)

(** A list of transactions with an empty item fails the assertion of
    [decode_transaction_eip2718] that its input is not empty. *)
Lemma transaction_list_abort : decode_transaction_list [ #0xc1; #0x80 ] = DecodeAbort.
Proof. vm_compute. reflexivity. Qed.

(** Stray bytes after the blob hashes are dropped: one transaction, two encodings. *)
Lemma stray_blob_bytes to :
  is_Some to -> decode_blobs to ([ #0x80 ] ++ encode_list2 []) = Decoded (#0, []) [] /\
  decode_blobs to ([ #0x80 ] ++ encode_list2 [ #7 ]) = Decoded (#0, []) [].
Proof. intros [a ->]. split; vm_compute; reflexivity. Qed.

(** The type byte 0 is accepted in front of a typed payload; the result is a legacy
    transaction that encodes differently. *)
Lemma type_byte_zero_accepted :
  exists tx enc, decode_transaction ([ #0; #0xcb ] ++ repeat #0x80 7 ++ [ #0xc0; #0x80; #0x80; #0x80 ]) =
      Decoded tx [] /\ tx_type tx = legacy /\ encode_transaction tx = Some enc /\ default #0 (head enc) = #0xc9.
Proof. eexists _, _. split_and!; [vm_compute; reflexivity..|]. vm_compute. reflexivity. Qed.
