(* ===== verification/VersionStack.v ===== *)
(** * Version stacks

    Models src/category/execution/ethereum/state3/version_stack.hpp: the stack
    of versioned values behind each account of the transaction state and behind
    its logs.  The deque is a list whose head is the back of the deque.
    [below j] is what the frames up to [j] of the call stack see; the laws say
    how [current], [pop_accept] and [pop_reject] change it. *)
From S2P Require Import Prelude.

Abbreviation VersionStack T := (list (nat * T)).

Section ops.
Context {T : Type}.
Implicit Types (vs : VersionStack T) (v : nat) (x : T).

Definition vs_new (value : T) (version : nat) : VersionStack T := [(version, value)].

(** The accessors; [None] is the failed [MONAD_ASSERT(stack_.size())]. *)
Definition vs_version vs : option nat := fst <$> head vs.
Definition vs_recent vs : option T := snd <$> head vs.

(** [current]: the stack after it; the reference it returns is the head. *)
Definition vs_current v vs : option (VersionStack T) :=
  match vs with
  | [] => None
  | (u, x) :: _ => Some (if (u <? v)%nat then (v, x) :: vs else vs)
  end.

(** Assigning through a reference to the most recent value. *)
Definition vs_set_recent x vs : VersionStack T :=
  match vs with
  | [] => []
  | (u, _) :: rest => (u, x) :: rest
  end.

Definition vs_pop_accept v vs : option (VersionStack T) :=
  if (v =? 0)%nat then None
  else match vs with
  | [] => None
  | (u, x) :: rest =>
      Some (if (v =? u)%nat then
              match rest with
              | (u', x') :: rest' =>
                  if (u' + 1 =? u)%nat then (u', x) :: rest' else (v - 1, x)%nat :: rest
              | [] => (v - 1, x)%nat :: rest
              end
            else vs)
  end.

(** The stack after [pop_reject]; its result is whether it is empty. *)
Definition vs_pop_reject v vs : option (VersionStack T) :=
  if (v =? 0)%nat then None
  else match vs with
  | [] => None
  | (u, _) :: rest => Some (if (v =? u)%nat then rest else vs)
  end.
End ops.

(** ** Invariant and views *)
Section laws.
Context {T : Type}.
Implicit Types (vs : VersionStack T) (v j : nat) (x : T).

(** Versions strictly decrease from the head. *)
Fixpoint descending vs : Prop :=
  match vs with
  | [] => True
  | (u, _) :: rest => (forall y, head rest = Some y -> (y.1 < u)%nat) /\ descending rest
  end.

Definition vs_bounded v vs : Prop := forall y, head vs = Some y -> (y.1 <= v)%nat.

(** The entries frames up to [j] made. *)
Fixpoint below j vs : VersionStack T :=
  match vs with
  | [] => []
  | (u, x) :: rest => if (u <=? j)%nat then vs else below j rest
  end.

Lemma below_head j vs : vs_bounded j vs -> below j vs = vs.
Proof.
  destruct vs as [|[u x] rest]; [done|]. intros Hb. simpl.
  specialize (Hb _ eq_refl). simpl in Hb. by destruct (Nat.leb_spec u j); [|lia].
Qed.

Lemma below_bounded j vs : vs_bounded j (below j vs).
Proof.
  induction vs as [|[u x] rest IH]; [done|]. simpl.
  destruct (Nat.leb_spec u j); [|done]. by intros y [= <-].
Qed.

Lemma below_descending j vs : descending vs -> descending (below j vs).
Proof.
  induction vs as [|[u x] rest IH]; [done|]. intros [H1 H2]. simpl.
  destruct (u <=? j)%nat; [done|auto].
Qed.

Lemma below_below j v vs : (j <= v)%nat -> below j (below v vs) = below j vs.
Proof.
  intros Hjv. induction vs as [|[u x] rest IH]; [done|]. simpl.
  destruct (Nat.leb_spec u v); [done|]. destruct (Nat.leb_spec u j); [lia|done].
Qed.

Lemma descending_tail_bounded u x rest :
  descending ((u, x) :: rest) -> vs_bounded (u - 1) rest.
Proof. intros [H1 _] y Hy. specialize (H1 y Hy). lia. Qed.

Lemma vs_set_recent_descending x vs : descending vs -> descending (vs_set_recent x vs).
Proof. by destruct vs as [|[u y] rest]. Qed.

Lemma vs_set_recent_bounded v x vs : vs_bounded v vs -> vs_bounded v (vs_set_recent x vs).
Proof.
  destruct vs as [|[u y] rest]; [done|]. intros Hb z [= <-]. by apply (Hb (u, y)).
Qed.

(** What [current] at version [v] gives: the head has version [v] when the
    stack was within [v], nothing of a lower frame changes. *)
Lemma vs_current_spec v vs :
  vs <> [] -> descending vs -> vs_bounded v vs ->
  exists vs', vs_current v vs = Some vs' /\ descending vs' /\ vs_version vs' = Some v /\
    vs_recent vs' = vs_recent vs /\ forall j, (j < v)%nat -> below j vs' = below j vs.
Proof.
  destruct vs as [|[u x] rest]; [done|]. intros _ Hd Hb. simpl.
  specialize (Hb _ eq_refl). simpl in Hb.
  destruct (Nat.ltb_spec u v) as [Hlt|Hge]; eexists; (split; [done|]).
  - split_and!; [|done..| ].
    + split; [|done]. by intros y [= <-].
    + intros j Hj. simpl. by destruct (Nat.leb_spec v j); [lia|].
  - assert (u = v) as -> by lia. done.
Qed.

Lemma below_set_recent v x vs j :
  vs_version vs = Some v -> (j < v)%nat -> below j (vs_set_recent x vs) = below j vs.
Proof.
  destruct vs as [|[u y] rest]; [done|]. intros [= ->] Hj. simpl.
  by destruct (Nat.leb_spec v j); [lia|].
Qed.

(** [pop_reject] forgets exactly what frame [v] did. *)
Lemma vs_pop_reject_spec v vs :
  v <> 0%nat -> vs <> [] -> descending vs -> vs_bounded v vs ->
  vs_pop_reject v vs = Some (below (v - 1) vs).
Proof.
  intros Hv Hne Hd Hb. unfold vs_pop_reject. destruct (Nat.eqb_spec v 0); [done|].
  destruct vs as [|[u x] rest]; [done|]. specialize (Hb _ eq_refl). simpl in Hb |- *.
  destruct (Nat.eqb_spec v u) as [<-|Hvu].
  - destruct (Nat.leb_spec v (v - 1)); [lia|].
    rewrite below_head; [done|]. by apply (descending_tail_bounded v x).
  - by destruct (Nat.leb_spec u (v - 1)); [|lia].
Qed.

(** [pop_accept] hands frame [v]'s value to frame [v - 1] and leaves the lower
    frames alone. *)
Lemma vs_pop_accept_spec v vs :
  v <> 0%nat -> vs <> [] -> descending vs -> vs_bounded v vs ->
  exists vs', vs_pop_accept v vs = Some vs' /\ vs' <> [] /\ descending vs' /\
    vs_bounded (v - 1) vs' /\ vs_recent vs' = vs_recent vs /\
    (forall j, (j < v - 1)%nat -> below j vs' = below j vs) /\
    (vs_version vs = Some v -> vs_version vs' = Some (v - 1)%nat) /\
    (vs_version vs <> Some v -> vs' = vs).
Proof.
  intros Hv Hne Hd Hb. unfold vs_pop_accept. destruct (Nat.eqb_spec v 0); [done|].
  destruct vs as [|[u x] rest]; [done|]. pose proof (Hb _ eq_refl) as Hu. simpl in Hu.
  destruct (Nat.eqb_spec v u) as [<-|Hvu]; (eexists; split; [done|]).
  - destruct rest as [|[u' x'] rest'].
    + split_and!; try done; [by intros y [= <-]|].
      intros j Hj. simpl.
      destruct (Nat.leb_spec (v - 1) j), (Nat.leb_spec v j); done || lia.
    + destruct Hd as [H1 [H2 H3]]. specialize (H1 _ eq_refl). simpl in H1.
      destruct (Nat.eqb_spec (u' + 1) v) as [<-|Hn].
      * split_and!; try done.
        -- intros y [= <-]. simpl. lia.
        -- intros j Hj. simpl.
           destruct (Nat.leb_spec u' j), (Nat.leb_spec (u' + 1) j); done || lia.
        -- intros _. by replace (u' + 1 - 1)%nat with u' by lia.
      * split_and!; try done.
        -- split; [|done]. intros y [= <-]. simpl. lia.
        -- by intros y [= <-].
        -- intros j Hj. simpl.
           destruct (Nat.leb_spec (v - 1) j), (Nat.leb_spec v j); done || lia.
  - split_and!; try done.
    + intros y [= <-]. simpl. lia.
    + intros [= ->]. done.
Qed.

(** No operation on a stack makes up a value. *)
Lemma vs_current_values v vs vs' x : vs_current v vs = Some vs' -> x ∈ vs'.*2 -> x ∈ vs.*2.
Proof.
  destruct vs as [|[u y] rest]; [done|]. simpl. intros [= <-].
  destruct (u <? v)%nat; simpl; [|done]. intros [->|H]%elem_of_cons; [by left|done].
Qed.

Lemma vs_pop_accept_values v vs vs' x : vs_pop_accept v vs = Some vs' -> x ∈ vs'.*2 -> x ∈ vs.*2.
Proof.
  unfold vs_pop_accept. destruct (v =? 0)%nat; [done|]. destruct vs as [|[u y] rest]; [done|].
  intros [= <-]. destruct (v =? u)%nat; [|done]. destruct rest as [|[u' y'] rest]; [done|].
  destruct (u' + 1 =? u)%nat; simpl; [|done]. rewrite !elem_of_cons. tauto.
Qed.

Lemma below_values j vs x : x ∈ (below j vs).*2 -> x ∈ vs.*2.
Proof.
  induction vs as [|[u y] vs IH]; [done|]. simpl. destruct (u <=? j)%nat; [done|].
  intros H. apply elem_of_cons. auto.
Qed.
End laws.
