(* ===== verification/State3.v ===== *)
(** * The transaction state

    Models src/category/execution/ethereum/state3/{account_substate,
    account_state,state}.{hpp,cpp} with the account types of core/account.hpp
    and types/incarnation.hpp.  [State] keeps, for every account a transaction
    touched, the value it read first ([original_]) and a version stack of the
    values its call frames gave it ([current_]).  The block state it reads from
    is the record [BlockReads].  The reserve-balance tracker
    ([ReserveBalance] of monad/reserve_balance.{hpp,cpp}) is part of the state:
    the operations call its hooks, and the hooks read the state. *)
From S2P Require Import Prelude Prog Abi StakingVars VersionStack.

(** ** Accounts *)
Record Incarnation := mk_incarnation { inc_block : uword 40; inc_tx : uword 24 }.

#[export] Instance incarnation_eq_dec : EqDecision Incarnation.
Proof. solve_decision. Defined.

Definition LAST_TX : Z := Z.shiftl 1 24 - 1.

Definition new_incarnation (block tx : Z) : Incarnation :=
  mk_incarnation #(Z.land block 0xFFFFFFFFFF) #(Z.land tx 0xFFFFFF).

Definition inc_eqb (i j : Incarnation) : bool :=
  (inc_block i =w? inc_block j) && (inc_tx i =w? inc_tx j).

Definition NULL_HASH : bytes32 :=
  #0xc5d2460186f7233c927e7db2dcc703c0e500b653ca82273b7bfad8045d85a470.

Record Account := mk_account {
  acct_balance : u256; acct_code_hash : bytes32; acct_nonce : u64; acct_incarnation : Incarnation }.

#[export] Instance account_eq_dec : EqDecision Account.
Proof. solve_decision. Defined.

(** [Account{.incarnation = i}]. *)
Definition new_account (i : Incarnation) : Account := mk_account #0 NULL_HASH #0 i.

Definition is_empty (a : Account) : bool :=
  (acct_code_hash a =w? NULL_HASH) && (acct_nonce a =? 0) && (acct_balance a =? 0).

Definition is_dead (a : option Account) : bool :=
  match a with None => true | Some a => is_empty a end.

(** ** Account substate and state *)
Record AccountSubstate := mk_substate {
  destructed_ : bool; touched_ : bool; accessed_ : bool; accessed_storage_ : gset bytes32 }.

Definition new_substate : AccountSubstate := mk_substate false false false ∅.

Inductive evmc_access_status := EVMC_ACCESS_COLD | EVMC_ACCESS_WARM.

Module substate.
Definition destruct (s : AccountSubstate) : bool * AccountSubstate :=
  (negb (destructed_ s), mk_substate true (touched_ s) (accessed_ s) (accessed_storage_ s)).
Definition touch (s : AccountSubstate) : AccountSubstate :=
  mk_substate (destructed_ s) true (accessed_ s) (accessed_storage_ s).
Definition access (s : AccountSubstate) : evmc_access_status * AccountSubstate :=
  let inserted := negb (accessed_ s) in
  (if inserted then EVMC_ACCESS_COLD else EVMC_ACCESS_WARM,
   mk_substate (destructed_ s) (touched_ s) true (accessed_storage_ s)).
Definition access_storage (key : bytes32) (s : AccountSubstate)
    : evmc_access_status * AccountSubstate :=
  if bool_decide (key ∉ accessed_storage_ s) then
    (EVMC_ACCESS_COLD,
     mk_substate (destructed_ s) (touched_ s) (accessed_ s) (accessed_storage_ s ∪ {[key]}))
  else (EVMC_ACCESS_WARM, s).
End substate.

Inductive evmc_storage_status :=
| EVMC_STORAGE_ASSIGNED | EVMC_STORAGE_ADDED | EVMC_STORAGE_DELETED | EVMC_STORAGE_MODIFIED
| EVMC_STORAGE_DELETED_ADDED | EVMC_STORAGE_MODIFIED_DELETED | EVMC_STORAGE_DELETED_RESTORED
| EVMC_STORAGE_ADDED_DELETED | EVMC_STORAGE_MODIFIED_RESTORED.

Abbreviation StorageMap := (gmap bytes32 bytes32).

Record AccountState := mk_as {
  as_sub : AccountSubstate; account_ : option Account;
  storage_ : StorageMap; transient_storage_ : StorageMap }.

Definition new_account_state (account : option Account) : AccountState :=
  mk_as new_substate account ∅ ∅.

Definition with_sub (s : AccountSubstate) (x : AccountState) : AccountState :=
  mk_as s (account_ x) (storage_ x) (transient_storage_ x).
Definition with_account (a : option Account) (x : AccountState) : AccountState :=
  mk_as (as_sub x) a (storage_ x) (transient_storage_ x).
Definition with_storage (m : StorageMap) (x : AccountState) : AccountState :=
  mk_as (as_sub x) (account_ x) m (transient_storage_ x).
Definition with_transient (m : StorageMap) (x : AccountState) : AccountState :=
  mk_as (as_sub x) (account_ x) (storage_ x) m.

Module account_state.
Definition get_transient_storage (key : bytes32) (x : AccountState) : bytes32 :=
  default #0 (transient_storage_ x !! key).

Definition set_transient_storage (key value : bytes32) (x : AccountState) : AccountState :=
  with_transient (<[key := value]> (transient_storage_ x)) x.

Definition zero_out_key (key original_value current_value : bytes32) (x : AccountState)
    : evmc_storage_status * AccountState :=
  (if current_value =? 0 then EVMC_STORAGE_ASSIGNED
   else if original_value =w? current_value then EVMC_STORAGE_DELETED
   else if original_value =? 0 then EVMC_STORAGE_ADDED_DELETED
   else EVMC_STORAGE_MODIFIED_DELETED,
   with_storage (<[key := #0]> (storage_ x)) x).

Definition set_current_value (key value original_value current_value : bytes32)
    (x : AccountState) : evmc_storage_status * AccountState :=
  (if current_value =? 0 then
     if original_value =? 0 then EVMC_STORAGE_ADDED
     else if value =w? original_value then EVMC_STORAGE_DELETED_RESTORED
     else EVMC_STORAGE_DELETED_ADDED
   else if (original_value =w? current_value) && negb (original_value =w? value) then
     EVMC_STORAGE_MODIFIED
   else if (original_value =w? value) && negb (original_value =w? current_value) then
     EVMC_STORAGE_MODIFIED_RESTORED
   else EVMC_STORAGE_ASSIGNED,
   with_storage (<[key := value]> (storage_ x)) x).

Definition set_storage (key value original_value : bytes32) (x : AccountState)
    : evmc_storage_status * AccountState :=
  let current_value := default original_value (storage_ x !! key) in
  if value =? 0 then zero_out_key key original_value current_value x
  else set_current_value key value original_value current_value x.
End account_state.

Record OriginalAccountState := mk_original {
  o_state : AccountState; validate_exact_balance_ : bool; min_balance_ : u256 }.

Definition new_original (account : option Account) : OriginalAccountState :=
  mk_original (new_account_state account) false #0.

Definition with_o_state (x : AccountState) (o : OriginalAccountState) : OriginalAccountState :=
  mk_original x (validate_exact_balance_ o) (min_balance_ o).

Definition set_validate_exact_balance (o : OriginalAccountState) : OriginalAccountState :=
  mk_original (o_state o) true (min_balance_ o).

(** ** The reserve-balance tracker

    [violation_thresholds_] maps to an optional threshold, as the C++ map does:
    [operator[]] inserts an unset one.  [has_state_tracer_] is
    [state_tracer_ != nullptr]; the trace itself is not modelled. *)
Record ReserveBalance := mk_rb {
  has_state_tracer_ : bool;
  tracking_enabled_ : bool;
  use_recent_code_hash_ : bool;
  allow_init_selfdestruct_exemption_ : bool;
  sender_ : address;
  sender_gas_fees_ : u256;
  sender_can_dip_ : bool;
  failed_ : gset address;
  violation_thresholds_ : gmap address (option u256);
  get_max_reserve_ : option (address -> u256) }.

Definition new_reserve_balance : ReserveBalance :=
  mk_rb false false false false #0 #0 false ∅ ∅ None.

Definition set_failed_ (f : gset address) (rb : ReserveBalance) : ReserveBalance :=
  mk_rb (has_state_tracer_ rb) (tracking_enabled_ rb) (use_recent_code_hash_ rb)
    (allow_init_selfdestruct_exemption_ rb) (sender_ rb) (sender_gas_fees_ rb) (sender_can_dip_ rb)
    f (violation_thresholds_ rb) (get_max_reserve_ rb).
Definition set_thresholds_ t (rb : ReserveBalance) : ReserveBalance :=
  mk_rb (has_state_tracer_ rb) (tracking_enabled_ rb) (use_recent_code_hash_ rb)
    (allow_init_selfdestruct_exemption_ rb) (sender_ rb) (sender_gas_fees_ rb) (sender_can_dip_ rb)
    (failed_ rb) t (get_max_reserve_ rb).

Definition has_violation (rb : ReserveBalance) : bool := negb (bool_decide (failed_ rb = ∅)).
Definition failed_contains (a : address) (rb : ReserveBalance) : bool :=
  bool_decide (a ∈ failed_ rb).

(** [vm::evm::is_delegated]: the code is a delegation indicator. *)
Definition delegation_indicator_prefix : byte_string := [ #0xef; #0x01; #0x00 ].
Definition evm_is_delegated (code : byte_string) : bool :=
  (length code =? 23)%nat && bool_decide (take 3 code = delegation_indicator_prefix).
Definition is_smart_contract_code (code : byte_string) : bool :=
  negb (length code =? 0)%nat && negb (evm_is_delegated code).

(** ** The state *)
Record State := mk_state {
  incarnation_ : Incarnation;
  original_ : gmap address OriginalAccountState;
  current_ : gmap address (VersionStack AccountState);
  logs_ : VersionStack (list Log);
  code_ : gmap bytes32 byte_string;
  version_ : nat;
  dirty_ : list (gset address);  (** head = back of the deque *)
  relaxed_validation_ : bool;
  rb_ : ReserveBalance }.

Definition new_state (incarnation : Incarnation) (relaxed_validation : bool) : State :=
  mk_state incarnation ∅ ∅ (vs_new [] 0) ∅ 0 [] relaxed_validation new_reserve_balance.

Definition set_original_ m (st : State) : State :=
  mk_state (incarnation_ st) m (current_ st) (logs_ st) (code_ st) (version_ st) (dirty_ st)
    (relaxed_validation_ st) (rb_ st).
Definition set_current_ m (st : State) : State :=
  mk_state (incarnation_ st) (original_ st) m (logs_ st) (code_ st) (version_ st) (dirty_ st)
    (relaxed_validation_ st) (rb_ st).
Definition set_logs_ l (st : State) : State :=
  mk_state (incarnation_ st) (original_ st) (current_ st) l (code_ st) (version_ st) (dirty_ st)
    (relaxed_validation_ st) (rb_ st).
Definition set_code_ c (st : State) : State :=
  mk_state (incarnation_ st) (original_ st) (current_ st) (logs_ st) c (version_ st) (dirty_ st)
    (relaxed_validation_ st) (rb_ st).
Definition set_frame v d (st : State) : State :=
  mk_state (incarnation_ st) (original_ st) (current_ st) (logs_ st) (code_ st) v d
    (relaxed_validation_ st) (rb_ st).

Definition set_rb_ rb (st : State) : State :=
  mk_state (incarnation_ st) (original_ st) (current_ st) (logs_ st) (code_ st) (version_ st)
    (dirty_ st) (relaxed_validation_ st) rb.

(** The reads of [BlockState] a transaction makes. *)
Record BlockReads := mk_reads {
  read_account : address -> option Account;
  read_storage : address -> Incarnation -> bytes32 -> bytes32;
  read_code : bytes32 -> byte_string }.

(** Stateful code that may fail an assertion or throw. *)
Definition SM (A : Type) : Type := State -> res Empty_set A * State.

Definition sret {A} (a : A) : SM A := fun st => (ROk a, st).
Definition shalt {A} : SM A := fun st => (RHalt, st).
Definition sbind {A C} (m : SM A) (f : A -> SM C) : SM C := fun st =>
  match m st with
  | (ROk a, st') => f a st'
  | (RErr e, st') => match e with end
  | (RThrow msg, st') => (RThrow msg, st')
  | (RHalt, st') => (RHalt, st')
  end.
Definition sget {A} (f : State -> A) : SM A := fun st => (ROk (f st), st).
Definition smodify (f : State -> State) : SM unit := fun st => (ROk tt, f st).
Definition sassert (b : bool) : SM unit := if b then sret tt else shalt.
Definition sthrow {A} (m : string) : SM A := fun st => (RThrow m, st).
Definition sassert_throw (b : bool) (m : string) : SM unit := if b then sret tt else sthrow m.
(** A dereference that asserts presence. *)
Definition sopt {A} (o : option A) : SM A := match o with Some a => sret a | None => shalt end.

Declare Scope sm_scope.
Delimit Scope sm_scope with sm.
Notation "x <- c ;; k" := (sbind c (fun x => k))
  (at level 100, c at next level, k at level 200, right associativity) : sm_scope.
Notation "c ;; k" := (sbind c (fun _ => k))
  (at level 100, k at level 200, right associativity) : sm_scope.

Section State.
Context (bs : BlockReads).
#[local] Open Scope sm_scope.
Implicit Types (a : address) (key value : bytes32).

Definition original_account_state a : SM OriginalAccountState :=
  o <- sget (fun st => original_ st !! a) ;;
  match o with
  | Some o => sret o
  | None =>
      let o := new_original (read_account bs a) in
      smodify (fun st => set_original_ (<[a := o]> (original_ st)) st) ;;
      sret o
  end.

Definition set_original a (o : OriginalAccountState) : SM unit :=
  smodify (fun st => set_original_ (<[a := o]> (original_ st)) st).

Definition recent_account_state a : SM AccountState :=
  vs <- sget (fun st => current_ st !! a) ;;
  match vs with
  | Some vs => sopt (vs_recent vs)
  | None => o <- original_account_state a ;; sret (o_state o)
  end.

(** Returns the value the reference denotes; [set_current] assigns through
    that reference. *)
Definition current_account_state a : SM AccountState :=
  vs <- sget (fun st => current_ st !! a) ;;
  vs <- match vs with
        | Some vs => sret vs
        | None =>
            o <- original_account_state a ;;
            version <- sget version_ ;;
            sret (vs_new (o_state o) version)
        end ;;
  smodify (fun st => match dirty_ st with
                     | [] => st
                     | d :: rest => set_frame (version_ st) ((d ∪ {[a]}) :: rest) st
                     end) ;;
  version <- sget version_ ;;
  vs <- sopt (vs_current version vs) ;;
  smodify (fun st => set_current_ (<[a := vs]> (current_ st)) st) ;;
  sopt (vs_recent vs).

Definition set_current a (x : AccountState) : SM unit :=
  smodify (fun st => set_current_ (alter (vs_set_recent x) a (current_ st)) st).

Definition recent_account a : SM (option Account) :=
  x <- recent_account_state a ;; sret (account_ x).

(** *** Frames *)
Definition push : SM unit :=
  st <- sget id ;;
  sassert (length (dirty_ st) =? version_ st)%nat ;;
  smodify (fun st => set_frame (version_ st + 1) (∅ :: dirty_ st) st).

Fixpoint pop_accept_loop (accounts : list address) : SM unit :=
  match accounts with
  | [] => sret tt
  | a :: rest =>
      vs <- sget (fun st => current_ st !! a) ;;
      vs <- sopt vs ;;
      version <- sget version_ ;;
      vs <- sopt (vs_pop_accept version vs) ;;
      smodify (fun st => set_current_ (<[a := vs]> (current_ st)) st) ;;
      smodify (fun st => match dirty_ st with
                         | [] => st
                         | d :: rest => set_frame (version_ st) ((d ∪ {[a]}) :: rest) st
                         end) ;;
      pop_accept_loop rest
  end.

Definition pop_accept : SM unit :=
  st <- sget id ;;
  sassert (negb (version_ st =? 0)%nat) ;;
  sassert (length (dirty_ st) =? version_ st)%nat ;;
  accounts <- sopt (head (dirty_ st)) ;;
  smodify (fun st => set_frame (version_ st) (tail (dirty_ st)) st) ;;
  pop_accept_loop (elements accounts) ;;
  logs <- sopt (vs_pop_accept (version_ st) (logs_ st)) ;;
  smodify (set_logs_ logs) ;;
  smodify (fun st => set_frame (version_ st - 1) (dirty_ st) st).

Definition current_frame_dirty_accounts : SM (gset address) :=
  st <- sget id ;;
  sassert (negb (version_ st =? 0)%nat) ;;
  sassert (length (dirty_ st) =? version_ st)%nat ;;
  sopt (head (dirty_ st)).

(** *** Readers *)
Definition set_original_nonce a (nonce : u64) : SM unit :=
  o <- original_account_state a ;;
  let account := default (new_account (mk_incarnation #0 #0)) (account_ (o_state o)) in
  set_original a (with_o_state (with_account (Some (mk_account (acct_balance account)
    (acct_code_hash account) nonce (acct_incarnation account))) (o_state o)) o).

Definition account_exists a : SM bool :=
  x <- recent_account a ;; sret (has_value x).

Definition account_is_dead a : SM bool :=
  x <- recent_account a ;; sret (is_dead x).

Definition get_nonce a : SM u64 :=
  x <- recent_account a ;; sret (from_option acct_nonce #0 x).

Definition get_balance a : SM u256 :=
  x <- recent_account a ;;
  o <- original_account_state a ;;
  set_original a (set_validate_exact_balance o) ;;
  sret (from_option acct_balance #0 x).

Definition get_original_balance a : SM u256 :=
  o <- original_account_state a ;;
  set_original a (set_validate_exact_balance o) ;;
  sret (from_option acct_balance #0 (account_ (o_state o))).

Definition get_code_hash a : SM bytes32 :=
  x <- recent_account a ;; sret (from_option acct_code_hash NULL_HASH x).

Definition is_destructed a : SM bool :=
  x <- recent_account_state a ;; sret (destructed_ (as_sub x)).

Definition is_current_incarnation a : SM bool :=
  x <- recent_account a ;;
  inc <- sget incarnation_ ;;
  sret (from_option (fun acct => inc_eqb (acct_incarnation acct) inc) false x).

(** Read a slot of the original account, through its cache. *)
Definition read_original_storage a (o : OriginalAccountState) (inc : Incarnation) key
    : SM bytes32 :=
  match storage_ (o_state o) !! key with
  | Some value => sret value
  | None =>
      let value := read_storage bs a inc key in
      set_original a (with_o_state
        (with_storage (<[key := value]> (storage_ (o_state o))) (o_state o)) o) ;;
      sret value
  end.

Definition get_storage a key : SM bytes32 :=
  vs <- sget (fun st => current_ st !! a) ;;
  match vs with
  | None =>
      o <- sget (fun st => original_ st !! a) ;;
      o <- sopt o ;;
      account <- sopt (account_ (o_state o)) ;;
      read_original_storage a o (acct_incarnation account) key
  | Some vs =>
      x <- sopt (vs_recent vs) ;;
      account <- sopt (account_ x) ;;
      match storage_ x !! key with
      | Some value => sret value
      | None =>
          o <- sget (fun st => original_ st !! a) ;;
          o <- sopt o ;;
          match account_ (o_state o) with
          | None => sret #0
          | Some original_account =>
              if negb (inc_eqb (acct_incarnation account) (acct_incarnation original_account))
              then sret #0
              else read_original_storage a o (acct_incarnation account) key
          end
      end
  end.

Definition get_transient_storage a key : SM bytes32 :=
  x <- recent_account_state a ;; sret (account_state.get_transient_storage key x).

Definition is_touched a : SM bool :=
  vs <- sget (fun st => current_ st !! a) ;;
  match vs with
  | None => sret false
  | Some vs => x <- sopt (vs_recent vs) ;; sret (touched_ (as_sub x))
  end.

(** Code by hash: this transaction's, or the block's. *)
Definition read_code_ (code_hash : bytes32) : SM byte_string :=
  c <- sget (fun st => code_ st !! code_hash) ;;
  sret (default (read_code bs code_hash) c).

(** *** Reserve-balance hooks *)
Definition modify_rb (f : ReserveBalance -> ReserveBalance) : SM unit :=
  smodify (fun st => set_rb_ (f (rb_ st)) st).

Definition rb_set_threshold a (t : option u256) : SM unit :=
  modify_rb (fun rb => set_thresholds_ (<[a := t]> (violation_thresholds_ rb)) rb).
Definition rb_fail a : SM unit := modify_rb (fun rb => set_failed_ (failed_ rb ∪ {[a]}) rb).
Definition rb_pass a : SM unit := modify_rb (fun rb => set_failed_ (failed_ rb ∖ {[a]}) rb).

Definition is_delegated (code_hash : bytes32) : SM bool :=
  if code_hash =w? NULL_HASH then sret false
  else c <- read_code_ code_hash ;; sret (evm_is_delegated c).

Definition subject_account a : SM bool :=
  if a =w? STAKING_CA then sret false
  else
    o <- original_account_state a ;;
    rb <- sget rb_ ;;
    effective_code_hash <-
      (if use_recent_code_hash_ rb then get_code_hash a
       else sret (from_option acct_code_hash NULL_HASH (account_ (o_state o)))) ;;
    if effective_code_hash =w? NULL_HASH then sret true
    else
      sassert (has_state_tracer_ rb) ;;
      is_delegated effective_code_hash.

Definition pretx_reserve a : SM u256 :=
  rb <- sget rb_ ;;
  get_max_reserve <- sopt (get_max_reserve_ rb) ;;
  let max_reserve := get_max_reserve a in
  original_balance <- get_original_balance a ;;
  sret (if original_balance <? max_reserve then original_balance else max_reserve).

(** Compute an unset threshold; [None] is an early return. *)
Definition compute_threshold a : SM (option u256) :=
  rb <- sget rb_ ;;
  subject <- subject_account a ;;
  if negb subject then
    rb_set_threshold a (Some #0) ;; rb_pass a ;; sret None
  else
    reserve <- pretx_reserve a ;;
    if a =w? sender_ rb then
      if sender_can_dip_ rb then
        rb_set_threshold a (Some #0) ;; rb_pass a ;; sret None
      else if reserve <? sender_gas_fees_ rb then
        rb_set_threshold a None ;; rb_fail a ;; sret None
      else
        let reserve : u256 := #(reserve - sender_gas_fees_ rb) in
        rb_set_threshold a (Some reserve) ;; sret (Some reserve)
    else rb_set_threshold a (Some reserve) ;; sret (Some reserve).

Definition update_violation_status a : SM unit :=
  rb <- sget rb_ ;;
  if negb (tracking_enabled_ rb) then sret tt
  else
    let violation_threshold := default None (violation_thresholds_ rb !! a) in
    rb_set_threshold a violation_threshold ;;
    exempt <- (if allow_init_selfdestruct_exemption_ rb then
                 d <- is_destructed a ;;
                 if d : bool then is_current_incarnation a else sret false
               else sret false) ;;
    if exempt : bool then rb_set_threshold a (Some #0) ;; rb_pass a
    else
      threshold <- match violation_threshold with
                   | Some t => sret (Some t)
                   | None => compute_threshold a
                   end ;;
      match threshold with
      | None => sret tt
      | Some t =>
          if t =? 0 then rb_pass a
          else
            balance <- get_balance a ;;
            if balance <? t then rb_fail a else rb_pass a
      end.

Definition rb_on_credit a : SM unit :=
  rb <- sget rb_ ;;
  if negb (tracking_enabled_ rb) then sret tt
  else if failed_contains a rb then update_violation_status a else sret tt.

Definition rb_on_debit a : SM unit := update_violation_status a.

Fixpoint rb_pop_reject_loop (accounts : list address) : SM unit :=
  match accounts with
  | [] => sret tt
  | a :: rest =>
      rb_set_threshold a None ;;
      update_violation_status a ;;
      rb_pop_reject_loop rest
  end.

Definition rb_on_pop_reject (accounts : list address) : SM unit :=
  rb <- sget rb_ ;;
  if negb (tracking_enabled_ rb) then sret tt else rb_pop_reject_loop accounts.

Definition rb_on_set_code a (code : byte_string) : SM unit :=
  rb <- sget rb_ ;;
  if negb (tracking_enabled_ rb) then sret tt
  else if negb (use_recent_code_hash_ rb) then sret tt
  else if is_smart_contract_code code then rb_set_threshold a (Some #0) ;; rb_pass a
  else rb_set_threshold a None ;; update_violation_status a.

(** *** Rejecting a frame *)
(** Returns the accounts whose stack became empty. *)
Fixpoint pop_reject_loop (accounts : list address) (removals : list address)
    : SM (list address) :=
  match accounts with
  | [] => sret removals
  | a :: rest =>
      vs <- sget (fun st => current_ st !! a) ;;
      vs <- sopt vs ;;
      version <- sget version_ ;;
      vs <- sopt (vs_pop_reject version vs) ;;
      smodify (fun st => set_current_ (<[a := vs]> (current_ st)) st) ;;
      pop_reject_loop rest (match vs with [] => removals ++ [a] | _ => removals end)
  end.

Definition pop_reject : SM unit :=
  st <- sget id ;;
  sassert (negb (version_ st =? 0)%nat) ;;
  sassert (length (dirty_ st) =? version_ st)%nat ;;
  accounts <- sopt (head (dirty_ st)) ;;
  smodify (fun st => set_frame (version_ st) (tail (dirty_ st)) st) ;;
  removals <- pop_reject_loop (elements accounts) [] ;;
  logs <- sopt (vs_pop_reject (version_ st) (logs_ st)) ;;
  smodify (set_logs_ logs) ;;
  smodify (fun st => set_current_ (foldr delete (current_ st) removals) st) ;;
  rb_on_pop_reject (elements accounts) ;;
  smodify (fun st => set_frame (version_ st - 1) (dirty_ st) st).

(** *** Writers *)

(** The account, created with this transaction's incarnation if absent. *)
Definition ensure_account (x : AccountState) : SM Account :=
  inc <- sget incarnation_ ;;
  sret (default (new_account inc) (account_ x)).

Definition set_nonce a (nonce : u64) : SM unit :=
  x <- current_account_state a ;;
  acct <- ensure_account x ;;
  set_current a (with_account (Some (mk_account (acct_balance acct) (acct_code_hash acct) nonce
    (acct_incarnation acct))) x).

Definition with_balance (b : u256) (acct : Account) : Account :=
  mk_account b (acct_code_hash acct) (acct_nonce acct) (acct_incarnation acct).

Definition touch_ (x : AccountState) : AccountState :=
  with_sub (substate.touch (as_sub x)) x.

(** The account is created before the check that may throw. *)
Definition add_to_balance a (delta : u256) : SM unit :=
  x <- current_account_state a ;;
  acct <- ensure_account x ;;
  set_current a (with_account (Some acct) x) ;;
  sassert_throw (acct_balance acct <=? modulus 256 - 1 - delta) "balance overflow" ;;
  set_current a (touch_ (with_account
    (Some (with_balance #(acct_balance acct + delta) acct)) x)) ;;
  rb_on_credit a.

Definition subtract_from_balance a (delta : u256) : SM unit :=
  x <- current_account_state a ;;
  acct <- ensure_account x ;;
  set_current a (with_account (Some acct) x) ;;
  sassert_throw (delta <=? acct_balance acct) "balance underflow" ;;
  set_current a (touch_ (with_account
    (Some (with_balance #(acct_balance acct - delta) acct)) x)) ;;
  rb_on_debit a.

Definition set_storage a key value : SM evmc_storage_status :=
  x <- current_account_state a ;;
  account <- sopt (account_ x) ;;
  o <- original_account_state a ;;
  original_value <- read_original_storage a o (acct_incarnation account) key ;;
  let '(status, x) := account_state.set_storage key value original_value x in
  set_current a x ;;
  sret status.

Definition set_transient_storage a key value : SM unit :=
  x <- current_account_state a ;;
  set_current a (account_state.set_transient_storage key value x).

Definition touch a : SM unit :=
  x <- current_account_state a ;; set_current a (touch_ x).

Definition access_account a : SM evmc_access_status :=
  x <- current_account_state a ;;
  let '(status, s) := substate.access (as_sub x) in
  set_current a (with_sub s x) ;; sret status.

Definition access_storage a key : SM evmc_access_status :=
  x <- current_account_state a ;;
  let '(status, s) := substate.access_storage key (as_sub x) in
  set_current a (with_sub s x) ;; sret status.

(** [cancun] is [traits::evm_rev() >= MONAD_ETH_CANCUN].  The reference taken
    first is read again after the transfers. *)
Definition selfdestruct (cancun : bool) a (beneficiary : address) : SM (bool * u256) :=
  current_account_state a ;;
  balance <- get_balance a ;;
  move <- (if negb cancun then sret true
           else if negb (a =w? beneficiary) then sret true else is_current_incarnation a) ;;
  (if move : bool then
     (if negb (a =w? beneficiary) then add_to_balance beneficiary balance else sret tt) ;;
     subtract_from_balance a balance
   else sret tt) ;;
  x <- current_account_state a ;;
  let '(inserted, s) := substate.destruct (as_sub x) in
  set_current a (with_sub s x) ;;
  rb_on_debit a ;;
  sret (inserted, balance).

(** Both clean-ups run over every current account after the last frame; [ok] says
    that the step is defined on an account. *)
Definition for_all_current (ok : AccountState -> bool) (f : AccountState -> AccountState) : SM unit :=
  st <- sget id ;;
  sassert (version_ st =? 0)%nat ;;
  sassert (forallb (fun p => match p.2 with [(0%nat, x)] => ok x | _ => false end)
    (map_to_list (current_ st))) ;;
  smodify (set_current_ ((fun vs => match vs with
                                    | [(v, x)] => [(v, f x)]
                                    | _ => vs
                                    end) <$> current_ st)).

(** From Cancun on the incarnation of a destructed account is read without a check
    that the account is there. *)
Definition destruct_suicides (cancun : bool) : SM unit :=
  inc <- sget incarnation_ ;;
  for_all_current (fun x => negb (destructed_ (as_sub x)) || negb cancun || has_value (account_ x)) (fun x =>
    if destructed_ (as_sub x) then
      if negb cancun then with_account None x
      else match account_ x with
           | Some acct => if inc_eqb (acct_incarnation acct) inc then with_account None x else x
           | None => x
           end
    else x).

Definition destruct_touched_dead : SM unit :=
  for_all_current (fun _ => true) (fun x =>
    if negb (touched_ (as_sub x)) then x
    else if is_dead (account_ x) then with_account None x else x).

(** *** Code *)
Definition get_code a : SM byte_string :=
  x <- recent_account a ;;
  match x with
  | None => sret (read_code bs NULL_HASH)
  | Some acct => read_code_ (acct_code_hash acct)
  end.

Definition get_code_size a : SM nat :=
  x <- recent_account a ;;
  match x with
  | None => sret 0%nat
  | Some acct => c <- read_code_ (acct_code_hash acct) ;; sret (length c)
  end.

(** What [copy_code] writes to the buffer; its result is the length. *)
Definition copy_code a (offset buffer_size : nat) : SM byte_string :=
  x <- recent_account a ;;
  match x with
  | None => sret []
  | Some acct =>
      c <- read_code_ (acct_code_hash acct) ;; sret (take buffer_size (drop offset c))
  end.

Definition set_code (keccak256 : byte_string -> bytes32) a (code : byte_string) : SM unit :=
  x <- current_account_state a ;;
  match account_ x with
  | None => sret tt
  | Some acct =>
      let code_hash := keccak256 code in
      smodify (fun st => set_code_ (<[code_hash := code]> (code_ st)) st) ;;
      set_current a (with_account (Some (mk_account (acct_balance acct) code_hash
        (acct_nonce acct) (acct_incarnation acct))) x) ;;
      rb_on_set_code a code
  end.

(** *** Creation *)
Definition with_incarnation (i : Incarnation) (acct : Account) : Account :=
  mk_account (acct_balance acct) (acct_code_hash acct) (acct_nonce acct) i.

Definition create_contract a : SM unit :=
  x <- current_account_state a ;;
  inc <- sget incarnation_ ;;
  match account_ x with
  | Some acct =>
      sassert (acct_nonce acct =? 0) ;;
      sassert (acct_code_hash acct =w? NULL_HASH) ;;
      set_current a (with_account (Some (with_incarnation inc acct)) x)
  | None => set_current a (with_account (Some (new_account inc)) x)
  end.

Definition create_account_no_rollback a : SM unit :=
  x <- current_account_state a ;;
  sassert (negb (has_value (account_ x))) ;;
  inc <- sget incarnation_ ;;
  set_current a (with_account (Some (new_account (new_incarnation (inc_block inc) LAST_TX))) x).

Definition set_to_state_incarnation a : SM unit :=
  x <- current_account_state a ;;
  acct <- ensure_account x ;;
  inc <- sget incarnation_ ;;
  set_current a (with_account (Some (with_incarnation inc acct)) x).

(** *** Logs *)
Definition logs : SM (list Log) :=
  l <- sget logs_ ;; sopt (vs_recent l).

Definition store_log (log : Log) : SM unit :=
  st <- sget id ;;
  vs <- sopt (vs_current (version_ st) (logs_ st)) ;;
  l <- sopt (vs_recent vs) ;;
  smodify (set_logs_ (vs_set_recent (l ++ [log]) vs)).

(** *** Relaxed merge *)

(** [OriginalAccountState::set_min_balance]. *)
Definition set_min_balance a (o : OriginalAccountState) (value : u256) : SM unit :=
  account <- sopt (account_ (o_state o)) ;;
  sassert (value <=? acct_balance account) ;;
  if min_balance_ o <? value
  then set_original a (mk_original (o_state o) (validate_exact_balance_ o) value)
  else sret tt.

Definition record_balance_constraint_for_debit a (debit : u256) : SM bool :=
  account <- recent_account a ;;
  let balance : u256 := from_option acct_balance #0 account in
  o <- original_account_state a ;;
  if debit <=? balance then
    let diff : u256 := #(balance - debit) in
    let original_balance : u256 := from_option acct_balance #0 (account_ (o_state o)) in
    (if diff <? original_balance
     then set_min_balance a o #(original_balance - diff) else sret tt) ;;
    sret true
  else
    set_original a (set_validate_exact_balance o) ;;
    sret false.

(** The adjustment of the current balance; [None] is the early [return false]. *)
Definition adjust_current a (original actual : u256) : SM (option unit) :=
  vs <- sget (fun st => current_ st !! a) ;;
  match vs with
  | None => sret (Some tt)
  | Some vs =>
      sassert (length vs =? 1)%nat ;;
      x <- sopt (vs_recent vs) ;;
      match account_ x with
      | None => sret None
      | Some recent =>
          (if original <? actual then
             set_current a (with_account (Some (with_balance
               #(acct_balance recent + wrap 256 (actual - original)) recent)) x)
           else
             sassert (wrap 256 (original - actual) <=? acct_balance recent) ;;
             set_current a (with_account (Some (with_balance
               #(acct_balance recent - wrap 256 (original - actual)) recent)) x)) ;;
          sret (Some tt)
      end
  end.

Definition try_fix_account_mismatch a (actual : option Account) : SM bool :=
  o <- sget (fun st => original_ st !! a) ;;
  o <- sopt o ;;
  relaxed <- sget relaxed_validation_ ;;
  match account_ (o_state o), actual with
  | Some original, Some actual =>
      if is_empty original then sret false
      else if is_empty actual then sret false
      else if negb (acct_code_hash original =w? acct_code_hash actual) then sret false
      else if negb (inc_eqb (acct_incarnation original) (acct_incarnation actual)) then sret false
      else if negb (acct_nonce original =w? acct_nonce actual) then sret false
      else
        sassert (negb (acct_balance original =w? acct_balance actual)) ;;
        if negb relaxed then sret false
        else if validate_exact_balance_ o then sret false
        else if acct_balance actual <? min_balance_ o then sret false
        else
          fixed <- adjust_current a (acct_balance original) (acct_balance actual) ;;
          match fixed with
          | None => sret false
          | Some _ =>
              set_original a (set_validate_exact_balance (with_o_state
                (with_account (Some (with_balance (acct_balance actual) original)) (o_state o))
                o)) ;;
              sret true
          end
  | _, _ => sret false
  end.
End State.
