(* ===== verification/StateHooks.v ===== *)
(** * The reserve-balance hooks are observers

    The hooks of the reserve-balance tracker run in the middle of state
    operations and read the state through its own getters.  They never fail on a
    state whose version stacks are non-empty, and they change only the tracker
    and the cache of original accounts: nothing a transaction can see. *)
From S2P Require Import Prelude Prog Abi StakingVars VersionStack State3.

Create HintDb calm discriminated.

Section hooks.
Context (bs : BlockReads).

(** The original value of an account, loaded or still to be loaded. *)
Definition orig_view (st : State) (a : address) : AccountState :=
  match original_ st !! a with
  | Some o => o_state o
  | None => new_account_state (read_account bs a)
  end.

(** The parameters of the tracker, without its verdicts. *)
Definition rb_static (rb : ReserveBalance) : ReserveBalance := set_failed_ ∅ (set_thresholds_ ∅ rb).

(** The parts of the state outside the tracker's verdicts and the cache. *)
Record same_core (st st' : State) : Prop := mk_same_core {
  sc_incarnation : incarnation_ st' = incarnation_ st;
  sc_current : current_ st' = current_ st;
  sc_logs : logs_ st' = logs_ st;
  sc_code : code_ st' = code_ st;
  sc_version : version_ st' = version_ st;
  sc_dirty : dirty_ st' = dirty_ st;
  sc_relaxed : relaxed_validation_ st' = relaxed_validation_ st;
  sc_static : rb_static (rb_ st') = rb_static (rb_ st);
  sc_orig : forall a, orig_view st' a = orig_view st a;
  sc_loaded : forall a, is_Some (original_ st !! a) -> is_Some (original_ st' !! a);
}.

#[export] Instance same_core_preorder : PreOrder same_core.
Proof.
  split; [by split|]. intros st1 st2 st3 [] []. split; [congruence..| |by auto].
  intros a. etrans; eauto.
Qed.

Lemma sc_tracking st st' :
  same_core st st' -> tracking_enabled_ (rb_ st') = tracking_enabled_ (rb_ st).
Proof. intros Hc. exact (f_equal tracking_enabled_ (sc_static _ _ Hc)). Qed.
Lemma sc_tracer st st' :
  same_core st st' -> has_state_tracer_ (rb_ st') = has_state_tracer_ (rb_ st).
Proof. intros Hc. exact (f_equal has_state_tracer_ (sc_static _ _ Hc)). Qed.
Lemma sc_max st st' :
  same_core st st' -> get_max_reserve_ (rb_ st') = get_max_reserve_ (rb_ st).
Proof. intros Hc. exact (f_equal get_max_reserve_ (sc_static _ _ Hc)). Qed.

(** A tracker that tracks was initialised. *)
Definition rb_ok (rb : ReserveBalance) : Prop :=
  tracking_enabled_ rb = true -> has_state_tracer_ rb = true /\ is_Some (get_max_reserve_ rb).

Record hook_ok (st : State) : Prop := mk_hook_ok {
  ho_stacks : forall a vs, current_ st !! a = Some vs -> vs <> [];
  ho_rb : rb_ok (rb_ st);
}.

Lemma hook_ok_core st st' : same_core st st' -> hook_ok st -> hook_ok st'.
Proof.
  intros Hc [H1 H2]. split; [by rewrite (sc_current _ _ Hc)|].
  unfold rb_ok in *. by rewrite (sc_tracking _ _ Hc), (sc_tracer _ _ Hc), (sc_max _ _ Hc).
Qed.

(** [m] returns and leaves the core alone; [calm_tracking], provided the tracker
    is on. *)
Definition calm {A} (m : SM A) : Prop :=
  forall st, hook_ok st -> exists x st', m st = (ROk x, st') /\ same_core st st'.
Definition calm_tracking {A} (m : SM A) : Prop :=
  forall st, hook_ok st -> tracking_enabled_ (rb_ st) = true ->
    exists x st', m st = (ROk x, st') /\ same_core st st'.

Lemma calm_weaken {A} (m : SM A) : calm m -> calm_tracking m.
Proof. intros H st Hok _. by apply H. Qed.


Lemma calm_ret {A} (x : A) : calm (sret x).
Proof. intros st _. by exists x, st. Qed.
Lemma calm_get {A} (f : State -> A) : calm (sget f).
Proof. intros st _. by eexists _, st. Qed.

Lemma calm_assert_true : calm (sassert true).
Proof. intros st _. by exists tt, st. Qed.
Lemma calm_opt_Some {A} (x : A) : calm (sopt (Some x)).
Proof. intros st _. by exists x, st. Qed.

Lemma calm_bind {A C} (m : SM A) (f : A -> SM C) :
  calm m -> (forall x, calm (f x)) -> calm (sbind m f).
Proof.
  intros Hm Hf st Hok. destruct (Hm st Hok) as (x & st1 & E & Hc).
  destruct (Hf x st1 (hook_ok_core _ _ Hc Hok)) as (y & st2 & E2 & Hc2).
  exists y, st2. unfold sbind. rewrite E. split; [done|by etrans].
Qed.

Lemma calm_tracking_bind {A C} (m : SM A) (f : A -> SM C) :
  calm_tracking m -> (forall x, calm_tracking (f x)) -> calm_tracking (sbind m f).
Proof.
  intros Hm Hf st Hok Ht. destruct (Hm st Hok Ht) as (x & st1 & E & Hc).
  destruct (Hf x st1 (hook_ok_core _ _ Hc Hok)) as (y & st2 & E2 & Hc2).
  { by rewrite (sc_tracking _ _ Hc). }
  exists y, st2. unfold sbind. rewrite E. split; [done|by etrans].
Qed.

#[local] Hint Resolve calm_ret calm_get calm_assert_true calm_opt_Some : calm.

Ltac calm_step :=
  cbv beta zeta;
  lazymatch goal with
  | |- calm (sbind _ _) => apply calm_bind; [|intros ?]
  | |- calm_tracking (sbind _ _) => apply calm_tracking_bind; [|intros ?]
  | |- calm (match ?x with _ => _ end) => destruct x
  | |- calm_tracking (match ?x with _ => _ end) => destruct x
  | |- calm_tracking _ => first [solve [auto with calm] | apply calm_weaken]
  | |- calm _ => solve [auto with calm]
  end.
Ltac calm := repeat calm_step.

Implicit Types a : address.

Lemma original_load a st :
  exists o st', original_account_state bs a st = (ROk o, st') /\ o_state o = orig_view st a /\
    original_ st' !! a = Some o /\ rb_ st' = rb_ st /\ same_core st st' /\
    (forall b, b <> a -> original_ st' !! b = original_ st !! b).
Proof.
  unfold original_account_state, sbind, sget, smodify, sret, orig_view.
  destruct (original_ st !! a) as [o|] eqn:E.
  - exists o, st. rewrite E. by split_and!.
  - eexists _, _. split; [done|]. simpl. split_and!; try done.
    + by rewrite lookup_insert_eq.
    + split; try done; simpl; intros b; unfold orig_view; simpl;
        destruct (decide (a = b)) as [<-|Hb]; rewrite ?lookup_insert_eq, ?lookup_insert_ne, ?E by done;
        eauto.
    + intros b Hb. by rewrite lookup_insert_ne.
Qed.

Lemma calm_original a : calm (original_account_state bs a).
Proof. intros st _. destruct (original_load a st) as (o & st' & E & _ & _ & _ & Hc & _). eauto. Qed.

(** The balance of the account is noted as one that has to be validated. *)
Lemma exact_load a st :
  exists o st', sbind (original_account_state bs a)
      (fun o => sbind (set_original a (set_validate_exact_balance o)) (fun _ => sret o)) st =
      (ROk o, st') /\ o_state o = orig_view st a /\ rb_ st' = rb_ st /\ same_core st st'.
Proof.
  destruct (original_load a st) as (o & st1 & E & Eo & Ea & Er & Hc & _).
  exists o. unfold sbind. rewrite E. eexists. split; [done|]. split_and!; [done..|].
  etrans; [exact Hc|]. split; try done; simpl; intros b; unfold orig_view; simpl;
    destruct (decide (a = b)) as [<-|Hb]; rewrite ?lookup_insert_eq, ?lookup_insert_ne, ?Ea by done;
    eauto.
Qed.

Lemma calm_exact {A} a (k : OriginalAccountState -> SM A) :
  (forall o, calm (k o)) ->
  calm (sbind (original_account_state bs a)
    (fun o => sbind (set_original a (set_validate_exact_balance o)) (fun _ => k o))).
Proof.
  intros Hk st Hok. destruct (exact_load a st) as (o & st1 & E & _ & _ & Hc).
  destruct (Hk o st1 (hook_ok_core _ _ Hc Hok)) as (x & st2 & E2 & Hc2).
  exists x, st2. split; [|by etrans]. unfold sbind in *.
  destruct (original_account_state bs a st) as [[o'|[]|m|] st']; try done.
  simpl in *. injection E as -> ->. done.
Qed.
#[local] Hint Resolve calm_original : calm.

(** The most recent value of an account, or its original one. *)
Definition recent_view (st : State) (a : address) : AccountState :=
  default (orig_view st a) (vs_recent (default [] (current_ st !! a))).

Lemma recent_load a st :
  hook_ok st ->
  exists x st', recent_account_state bs a st = (ROk x, st') /\ x = recent_view st a /\
    rb_ st' = rb_ st /\ same_core st st'.
Proof.
  intros Hok. unfold recent_account_state, recent_view, sbind at 1, sget at 1.
  destruct (current_ st !! a) as [vs|] eqn:E.
  - destruct vs as [|[v x] rest]; [by destruct (ho_stacks _ Hok a [] E)|]. by exists x, st.
  - destruct (original_load a st) as (o & st' & E' & Eo & _ & Er & Hc & _).
    unfold sbind. rewrite E'. by eexists _, _.
Qed.

Lemma calm_recent_state a : calm (recent_account_state bs a).
Proof.
  intros st Hok. destruct (recent_load a st Hok) as (x & st' & E & _ & _ & Hc). eauto.
Qed.
#[local] Hint Resolve calm_recent_state : calm.

Lemma calm_recent a : calm (recent_account bs a).
Proof. unfold recent_account. calm. Qed.
#[local] Hint Resolve calm_recent : calm.
Lemma calm_get_balance a : calm (get_balance bs a).
Proof. apply calm_bind; [apply calm_recent|]. intros x. apply calm_exact. intros o. calm. Qed.
Lemma calm_get_original_balance a : calm (get_original_balance bs a).
Proof. apply calm_exact. intros o. calm. Qed.
Lemma calm_get_code_hash a : calm (get_code_hash bs a).
Proof. unfold get_code_hash. calm. Qed.
Lemma calm_is_destructed a : calm (is_destructed bs a).
Proof. unfold is_destructed. calm. Qed.
Lemma calm_is_current_incarnation a : calm (is_current_incarnation bs a).
Proof. unfold is_current_incarnation. calm. Qed.
Lemma calm_is_delegated h : calm (is_delegated bs h).
Proof. unfold is_delegated, read_code_. calm. Qed.
#[local] Hint Resolve calm_get_balance calm_get_original_balance calm_get_code_hash
  calm_is_destructed calm_is_current_incarnation calm_is_delegated : calm.

Lemma calm_rb_set_threshold a t : calm (rb_set_threshold a t).
Proof. intros st _. eexists _, _. split; [done|]. by split; auto. Qed.
Lemma calm_rb_fail a : calm (rb_fail a).
Proof. intros st _. eexists _, _. split; [done|]. by split; auto. Qed.
Lemma calm_rb_pass a : calm (rb_pass a).
Proof. intros st _. eexists _, _. split; [done|]. by split; auto. Qed.
#[local] Hint Resolve calm_rb_set_threshold calm_rb_fail calm_rb_pass : calm.

(** The two assertions of the tracker. *)
Lemma calm_tracer_assert {A} (k : ReserveBalance -> SM A) :
  (forall rb, has_state_tracer_ rb = true -> is_Some (get_max_reserve_ rb) -> calm_tracking (k rb)) ->
  calm_tracking (sbind (sget rb_) k).
Proof.
  intros Hk st Hok Ht. destruct (ho_rb _ Hok Ht) as [H1 H2].
  destruct (Hk (rb_ st) H1 H2 st Hok Ht) as (x & st' & E & Hc). exists x, st'. by split.
Qed.

Lemma calm_subject_account a : calm_tracking (subject_account bs a).
Proof.
  unfold subject_account. destruct (a =w? STAKING_CA); [apply calm_weaken, calm_ret|].
  apply calm_tracking_bind; [calm|]. intros o. apply calm_tracer_assert. intros rb H1 _.
  rewrite H1. calm.
Qed.

Lemma calm_pretx_reserve a : calm_tracking (pretx_reserve bs a).
Proof.
  unfold pretx_reserve. apply calm_tracer_assert. intros rb _ [f ->]. calm.
Qed.
#[local] Hint Resolve calm_subject_account calm_pretx_reserve : calm.

Lemma calm_compute_threshold a : calm_tracking (compute_threshold bs a).
Proof. unfold compute_threshold. calm. Qed.
#[local] Hint Resolve calm_compute_threshold : calm.

(** The guard every hook starts with. *)
Lemma calm_guard (k : ReserveBalance -> SM unit) :
  (forall rb, calm_tracking (k rb)) ->
  calm (sbind (sget rb_) (fun rb => if negb (tracking_enabled_ rb) then sret tt else k rb)).
Proof.
  intros Hk st Hok. unfold sbind, sget.
  destruct (tracking_enabled_ (rb_ st)) eqn:Ht; cbn [negb]; [by apply Hk|by exists tt, st].
Qed.

Lemma calm_update a : calm (update_violation_status bs a).
Proof. apply calm_guard. intros rb. calm. Qed.
#[local] Hint Resolve calm_update : calm.

Lemma calm_on_credit a : calm (rb_on_credit bs a).
Proof. apply calm_guard. intros rb. calm. Qed.

Lemma calm_on_debit a : calm (rb_on_debit bs a).
Proof. apply calm_update. Qed.

Lemma calm_on_pop_reject l : calm (rb_on_pop_reject bs l).
Proof.
  apply calm_guard. intros _. apply calm_weaken.
  induction l as [|a l IH]; cbn [rb_pop_reject_loop]; calm.
Qed.

Lemma calm_on_set_code a c : calm (rb_on_set_code bs a c).
Proof. apply calm_guard. intros rb. calm. Qed.
End hooks.

Arguments same_core_preorder {bs}.
