(* ===== verification/ReserveSpec.v ===== *)
(** * What the reserve-balance tracker computes

    A pure reading of the tracker of monad/reserve_balance.cpp: [threshold_of]
    is the balance an account has to keep, [in_violation] that it does not, and
    [exempt] the exception for contracts that selfdestruct while they are being
    created.  [run_update] shows that [update_violation_status] computes exactly
    these, through the cache of thresholds. *)
From S2P Require Import Prelude Prog Abi StakingVars VersionStack State3 StateHooks.

Section spec.
Context (bs : BlockReads).
#[local] Open Scope sm_scope.
Implicit Types (a : address) (st : State).

#[local] Abbreviation orig_view := (orig_view bs).
#[local] Abbreviation recent_view := (recent_view bs).
#[local] Abbreviation same_core := (same_core bs).

Definition balance_of (x : AccountState) : u256 := from_option acct_balance #0 (account_ x).
Definition hash_of (x : AccountState) : bytes32 := from_option acct_code_hash NULL_HASH (account_ x).
Definition code_of st (h : bytes32) : byte_string := default (read_code bs h) (code_ st !! h).

Definition effective_hash st a : bytes32 :=
  if use_recent_code_hash_ (rb_ st) then hash_of (recent_view st a) else hash_of (orig_view st a).

(** Externally owned or delegated, and not the staking contract. *)
Definition subject_of st a : bool :=
  if a =w? STAKING_CA then false
  else
    let h := effective_hash st a in
    if h =w? NULL_HASH then true else evm_is_delegated (code_of st h).

Definition reserve_of st a : u256 :=
  let max_reserve := match get_max_reserve_ (rb_ st) with Some f => f a | None => #0 end in
  let original := balance_of (orig_view st a) in
  if original <? max_reserve then original else max_reserve.

(** [None]: no balance suffices. *)
Definition threshold_of st a : option u256 :=
  let rb := rb_ st in
  if negb (subject_of st a) then Some #0
  else if a =w? sender_ rb then
    if sender_can_dip_ rb then Some #0
    else if reserve_of st a <? sender_gas_fees_ rb then None
    else Some #(reserve_of st a - sender_gas_fees_ rb)
  else Some (reserve_of st a).

Definition falls_below (t : option u256) (b : u256) : bool :=
  match t with None => true | Some t => b <? t end.

Definition in_violation st a : bool := falls_below (threshold_of st a) (balance_of (recent_view st a)).

Definition current_of st a : bool :=
  from_option (fun acct => inc_eqb (acct_incarnation acct) (incarnation_ st)) false
    (account_ (recent_view st a)).

Definition exempt st a : bool :=
  allow_init_selfdestruct_exemption_ (rb_ st) && destructed_ (as_sub (recent_view st a)) &&
  current_of st a.

(** The cached threshold and the verdict after an update. *)
Definition cached st a : option u256 := default None (violation_thresholds_ (rb_ st) !! a).
Definition next_threshold st a : option u256 :=
  if exempt st a then Some #0
  else match cached st a with Some t => Some t | None => threshold_of st a end.
Definition next_failed st a : bool :=
  if exempt st a then false else falls_below (next_threshold st a) (balance_of (recent_view st a)).
Definition mark_failed (b : bool) a (failed : gset address) : gset address :=
  if b then failed ∪ {[a]} else failed ∖ {[a]}.

(** ** All of this depends on what the hooks leave alone *)
Record same_view st st' : Prop := mk_same_view {
  sv_core : same_core st st'; sv_rb : rb_ st' = rb_ st }.

#[export] Instance same_view_preorder : PreOrder same_view.
Proof. split; [by split|]. intros ??? [] []. split; [by etrans|congruence]. Qed.

Section core.
Context {st st' : State} (Hc : same_core st st').

Lemma recent_view_core a : recent_view st' a = recent_view st a.
Proof using Hc.
  unfold StateHooks.recent_view. by rewrite (sc_current _ _ _ Hc), (sc_orig _ _ _ Hc).
Qed.
Lemma static_core {A} (f : ReserveBalance -> A) :
  (forall rb, f (rb_static rb) = f rb) -> f (rb_ st') = f (rb_ st).
Proof using Hc. intros Hf. by rewrite <- Hf, (sc_static _ _ _ Hc), Hf. Qed.
Lemma effective_hash_core a : effective_hash st' a = effective_hash st a.
Proof using Hc.
  unfold effective_hash. rewrite recent_view_core, (sc_orig _ _ _ Hc).
  by rewrite (static_core use_recent_code_hash_).
Qed.
Lemma subject_core a : subject_of st' a = subject_of st a.
Proof using Hc. unfold subject_of, code_of. by rewrite effective_hash_core, (sc_code _ _ _ Hc). Qed.
Lemma reserve_core a : reserve_of st' a = reserve_of st a.
Proof using Hc. unfold reserve_of. by rewrite (sc_max _ _ _ Hc), (sc_orig _ _ _ Hc). Qed.
Lemma threshold_core a : threshold_of st' a = threshold_of st a.
Proof using Hc.
  unfold threshold_of. rewrite subject_core, reserve_core.
  by rewrite (static_core sender_), (static_core sender_can_dip_), (static_core sender_gas_fees_).
Qed.
Lemma in_violation_core a : in_violation st' a = in_violation st a.
Proof using Hc. unfold in_violation. by rewrite threshold_core, recent_view_core. Qed.
Lemma exempt_core a : exempt st' a = exempt st a.
Proof using Hc.
  unfold exempt, current_of. rewrite recent_view_core, (sc_incarnation _ _ _ Hc).
  by rewrite (static_core allow_init_selfdestruct_exemption_).
Qed.
End core.

(** ** Reading code *)
(** [m] returns [f] of the state it starts from, and keeps the view. *)
Definition reads {A} (m : SM A) (f : State -> A) : Prop :=
  forall st, hook_ok st -> tracking_enabled_ (rb_ st) = true ->
    exists st', m st = (ROk (f st), st') /\ same_view st st'.

Lemma reads_ret {A} (x : A) : reads (sret x) (fun _ => x).
Proof. intros st _ _. by exists st. Qed.
Lemma reads_get {A} (f : State -> A) : reads (sget f) f.
Proof. intros st _ _. by exists st. Qed.

Lemma tracking_view st st' :
  same_view st st' -> hook_ok st -> tracking_enabled_ (rb_ st) = true ->
  hook_ok st' /\ tracking_enabled_ (rb_ st') = true.
Proof.
  intros [Hc E] Hok Ht. split; [by apply (hook_ok_core bs st)|by rewrite E].
Qed.

Lemma run_reads {A C} (m : SM A) f (k : A -> SM C) st :
  reads m f -> hook_ok st -> tracking_enabled_ (rb_ st) = true ->
  exists st', sbind m k st = k (f st) st' /\ same_view st st' /\ hook_ok st' /\
    tracking_enabled_ (rb_ st') = true.
Proof.
  intros Hm Hok Ht. destruct (Hm st Hok Ht) as (st1 & E1 & V1).
  exists st1. unfold sbind. rewrite E1. split_and!; [done|done|..];
    by apply (tracking_view st st1).
Qed.

Lemma reads_original a : reads (original_account_state bs a) (fun st => default
  (new_original (read_account bs a)) (original_ st !! a)).
Proof.
  intros st Hok Ht. unfold original_account_state, sbind, sget, smodify, sret.
  destruct (original_load bs a st) as (o & st' & E & Eo & Ea & Er & Hc & _).
  unfold original_account_state, sbind, sget, smodify, sret in E.
  destruct (original_ st !! a) as [o'|] eqn:E'; simpl; [by exists st|].
  eexists. split; [done|]. injection E as <- <-. by split.
Qed.

Lemma reads_recent a : reads (recent_account_state bs a) (fun st => recent_view st a).
Proof.
  intros st Hok Ht. destruct (recent_load bs a st Hok) as (x & st' & E & -> & Er & Hc).
  exists st'. by split.
Qed.

Lemma reads_map {A C} (m : SM A) f (g : A -> C) :
  reads m f -> reads (sbind m (fun x => sret (g x))) (fun st => g (f st)).
Proof.
  intros Hm st Hok Ht. destruct (Hm st Hok Ht) as (st1 & E1 & V1).
  exists st1. unfold sbind. by rewrite E1.
Qed.

Lemma reads_recent_account a : reads (recent_account bs a) (fun st => account_ (recent_view st a)).
Proof. apply (reads_map _ _ account_), reads_recent. Qed.
Lemma reads_code_hash a : reads (get_code_hash bs a) (fun st => hash_of (recent_view st a)).
Proof. apply (reads_map _ _ (from_option acct_code_hash NULL_HASH)), reads_recent_account. Qed.
Lemma reads_is_destructed a :
  reads (is_destructed bs a) (fun st => destructed_ (as_sub (recent_view st a))).
Proof. apply (reads_map _ _ (fun x => destructed_ (as_sub x))), reads_recent. Qed.
Lemma reads_read_code h : reads (read_code_ bs h) (fun st => code_of st h).
Proof. apply (reads_map _ _ (default (read_code bs h))), reads_get. Qed.

Lemma reads_is_current a : reads (is_current_incarnation bs a) (fun st => current_of st a).
Proof.
  intros st Hok Ht. unfold is_current_incarnation.
  destruct (run_reads _ _ (fun x => inc <- sget incarnation_ ;;
    sret (from_option (fun acct => inc_eqb (acct_incarnation acct) inc) false x)) st
    (reads_recent_account a) Hok Ht) as (st1 & -> & V & _).
  exists st1. unfold sbind, sget, sret, current_of. by rewrite (sc_incarnation _ _ _ (sv_core _ _ V)).
Qed.

(** Reading a balance pins it in the original account. *)
Lemma reads_exact {A} a (g : OriginalAccountState -> A) :
  reads (o <- original_account_state bs a ;;
         set_original a (set_validate_exact_balance o) ;; sret (g o))
    (fun st => g (default (new_original (read_account bs a)) (original_ st !! a))).
Proof.
  intros st Hok Ht. destruct (exact_load bs a st) as (o & st' & E & _ & Er & Hc).
  destruct (reads_original a st Hok Ht) as (st1 & E1 & _).
  unfold sbind in *. rewrite E1 in *. simpl in *. injection E as Eo <-.
  eexists. split; [done|]. by split.
Qed.

Lemma o_state_orig st a :
  o_state (default (new_original (read_account bs a)) (original_ st !! a)) = orig_view st a.
Proof. unfold StateHooks.orig_view. by destruct (original_ st !! a). Qed.

Lemma reads_original_balance a :
  reads (get_original_balance bs a) (fun st => balance_of (orig_view st a)).
Proof.
  intros st Hok Ht.
  destruct (reads_exact a (fun o => from_option acct_balance #0 (account_ (o_state o))) st Hok Ht)
    as (st' & E & V).
  exists st'. split; [|done]. unfold balance_of. by rewrite <- o_state_orig.
Qed.

Lemma reads_balance a : reads (get_balance bs a) (fun st => balance_of (recent_view st a)).
Proof.
  intros st Hok Ht. unfold get_balance.
  destruct (run_reads _ _ (fun x => o <- original_account_state bs a ;;
    set_original a (set_validate_exact_balance o) ;; sret (from_option acct_balance #0 x)) st
    (reads_recent_account a) Hok Ht) as (st1 & -> & V & Hok1 & Ht1).
  destruct (reads_exact a (fun _ => from_option acct_balance #0 (account_ (recent_view st a))) st1
    Hok1 Ht1) as (st2 & E & V2).
  exists st2. split; [exact E|by etrans].
Qed.

(** ** The tracker's own code *)
Ltac read_with R p :=
  lazymatch goal with
  | |- context [sbind ?m ?k ?st = _] =>
      destruct (run_reads m _ k st R ltac:(assumption) ltac:(assumption)) as p
  end.
Tactic Notation "read" uconstr(R) "as" simple_intropattern(p) := read_with R p.

Lemma reads_is_delegated h :
  reads (is_delegated bs h)
    (fun st => if h =w? NULL_HASH then false else evm_is_delegated (code_of st h)).
Proof.
  unfold is_delegated. destruct (h =w? NULL_HASH); [apply reads_ret|].
  apply (reads_map _ _ evm_is_delegated), reads_read_code.
Qed.

Lemma view_static st st' {A} (f : ReserveBalance -> A) : same_view st st' -> f (rb_ st') = f (rb_ st).
Proof. intros V. by rewrite (sv_rb _ _ V). Qed.

Lemma reads_subject a : reads (subject_account bs a) (fun st => subject_of st a).
Proof.
  intros st Hok Ht. unfold subject_account, subject_of.
  destruct (a =w? STAKING_CA); [by exists st|].
  read (reads_original a) as (st1 & -> & V1 & Hok1 & Ht1).
  read (reads_get rb_) as (st2 & -> & V2 & Hok2 & Ht2).
  assert (Hh : reads (if use_recent_code_hash_ (rb_ st1) then get_code_hash bs a
      else sret (from_option acct_code_hash NULL_HASH (account_ (o_state
        (default (new_original (read_account bs a)) (original_ st !! a))))))
    (fun st' => if use_recent_code_hash_ (rb_ st1) then hash_of (recent_view st' a)
                else hash_of (orig_view st a))).
  { destruct (use_recent_code_hash_ (rb_ st1)); [apply reads_code_hash|].
    rewrite o_state_orig. apply reads_ret. }
  read Hh as (st3 & -> & V3 & Hok3 & Ht3).
  assert (V : same_view st st3) by (by do 2 (etrans; [|eassumption])).
  assert (E : (if use_recent_code_hash_ (rb_ st1) then hash_of (recent_view st2 a)
               else hash_of (orig_view st a)) = effective_hash st a).
  { unfold effective_hash. rewrite (sv_rb _ _ V1), (recent_view_core (sv_core _ _ V2)).
    by rewrite (recent_view_core (sv_core _ _ V1)). }
  rewrite E. destruct (effective_hash st a =w? NULL_HASH) eqn:En; [by exists st3|].
  destruct (ho_rb _ Hok1 Ht1) as [-> _]. unfold sassert, sbind, sret.
  destruct (reads_is_delegated (effective_hash st a) st3 Hok3 Ht3) as (st4 & -> & V4).
  rewrite En. exists st4. split; [|by etrans]. unfold code_of.
  by rewrite (sc_code _ _ _ (sv_core _ _ V)).
Qed.

Lemma reads_reserve a : reads (pretx_reserve bs a) (fun st => reserve_of st a).
Proof.
  intros st Hok Ht. unfold pretx_reserve, reserve_of.
  read (reads_get rb_) as (st1 & -> & V1 & Hok1 & Ht1).
  destruct (ho_rb _ Hok Ht) as [_ [f ->]]. unfold sopt.
  read (reads_ret f) as (st2 & -> & V2 & Hok2 & Ht2).
  read (reads_original_balance a) as (st3 & -> & V3 & _).
  assert (V : same_view st st2) by (by etrans).
  exists st3. rewrite (sc_orig _ _ _ (sv_core _ _ V)). split; [done|by etrans].
Qed.

(** What an update leaves: a state with the same core, and the new verdict. *)
Record judged a (t : option u256) (b : bool) st st' : Prop := mk_judged {
  j_core : same_core st st';
  j_failed : failed_ (rb_ st') = mark_failed b a (failed_ (rb_ st));
  j_thresholds : violation_thresholds_ (rb_ st') = <[a := t]> (violation_thresholds_ (rb_ st));
}.

Lemma judged_view a t b st st1 st' : same_view st st1 -> judged a t b st1 st' -> judged a t b st st'.
Proof. intros [Hc E] []. split; [by etrans|by rewrite <- E..]. Qed.

Ltac judge := split; [split|..].

Lemma falls_below_zero (b : u256) : falls_below (Some #0) b = false.
Proof. simpl. rewrite uval_wrap_0. destruct (Z.ltb_spec b 0); [word_lia|done]. Qed.

Lemma run_compute a st b :
  hook_ok st -> tracking_enabled_ (rb_ st) = true ->
  exists r st', compute_threshold bs a st = (ROk r, st') /\
    match r with
    | None => judged a (threshold_of st a) (falls_below (threshold_of st a) b) st st'
    | Some t => threshold_of st a = Some t /\ same_core st st' /\
        failed_ (rb_ st') = failed_ (rb_ st) /\
        violation_thresholds_ (rb_ st') = <[a := Some t]> (violation_thresholds_ (rb_ st))
    end.
Proof.
  intros Hok Ht. unfold compute_threshold, threshold_of.
  read (reads_get rb_) as (st1 & -> & V1 & Hok1 & Ht1).
  read (reads_subject a) as (st2 & -> & V2 & Hok2 & Ht2).
  rewrite (subject_core (sv_core _ _ V1)). assert (V : same_view st st2) by (by etrans).
  destruct (subject_of st a); cbn [negb].
  2:{ eexists None, _. split; [reflexivity|]. rewrite falls_below_zero.
      apply (judged_view _ _ _ st st2 _ V). by judge. }
  read (reads_reserve a) as (st3 & -> & V3 & Hok3 & Ht3).
  rewrite (reserve_core (sv_core _ _ V)). assert (V' : same_view st st3) by (by etrans).
  assert (Hsome : forall t, exists r st', (rb_set_threshold a (Some t) ;; sret (Some t)) st3 =
    (ROk r, st') /\ match r with None => False | Some t' => t' = t /\ same_core st st' /\
      failed_ (rb_ st') = failed_ (rb_ st) /\
      violation_thresholds_ (rb_ st') = <[a := Some t]> (violation_thresholds_ (rb_ st)) end).
  { intros t. destruct V' as [Hc E]. eexists (Some t), _. split; [reflexivity|].
    split; [done|]. split; [|simpl; by rewrite E]. apply (transitivity Hc). by split. }
  destruct (a =w? sender_ (rb_ st)).
  2:{ destruct (Hsome (reserve_of st a)) as ([t|] & st4 & -> & H); [|done].
      destruct H as (-> & H). by eexists _, _. }
  destruct (sender_can_dip_ (rb_ st)).
  { eexists None, _. split; [reflexivity|]. rewrite falls_below_zero.
    apply (judged_view _ _ _ st st3 _ V'). by judge. }
  destruct (reserve_of st a <? sender_gas_fees_ (rb_ st)).
  { eexists None, _. split; [reflexivity|]. apply (judged_view _ _ _ st st3 _ V'). by judge. }
  destruct (Hsome #(reserve_of st a - sender_gas_fees_ (rb_ st))) as ([t|] & st4 & -> & H); [|done].
  destruct H as (-> & H). by eexists _, _.
Qed.

(** A state on the way to a verdict on [a]: its threshold may be set already. *)
Record pending a (t : option u256) st st' : Prop := mk_pending {
  pe_core : same_core st st';
  pe_failed : failed_ (rb_ st') = failed_ (rb_ st);
  pe_thresholds : violation_thresholds_ (rb_ st') = <[a := t]> (violation_thresholds_ (rb_ st));
}.

Lemma pending_view a t st st1 st' : pending a t st st1 -> same_view st1 st' -> pending a t st st'.
Proof. intros [] [Hc E]. split; [by etrans|by rewrite E..]. Qed.

Lemma pending_judged a t0 t b st st1 st' :
  pending a t0 st st1 -> judged a t b st1 st' -> judged a t b st st'.
Proof.
  intros [C F T] [C' F' T']. split; [by etrans|by rewrite F', F|].
  rewrite T', T. apply insert_insert_eq.
Qed.

Lemma pending_mark a t st st1 (b : bool) :
  pending a t st st1 ->
  exists st', (if b then rb_fail a else rb_pass a) st1 = (ROk tt, st') /\ judged a t b st st'.
Proof.
  intros [C F T]. destruct b; (eexists; split; [reflexivity|]);
    (split; [apply (transitivity C); by split|simpl; by rewrite F|simpl; by rewrite T]).
Qed.

Lemma reads_exempt allow a :
  reads (if allow : bool then
           d <- is_destructed bs a ;; if d : bool then is_current_incarnation bs a else sret false
         else sret false)
    (fun st => allow && destructed_ (as_sub (recent_view st a)) && current_of st a).
Proof.
  destruct allow; [|apply reads_ret]. intros st Hok Ht.
  read (reads_is_destructed a) as (st1 & -> & V1 & Hok1 & Ht1). simpl.
  destruct (destructed_ _); [|by exists st1].
  destruct (reads_is_current a st1 Hok1 Ht1) as (st2 & -> & V2). exists st2. split; [|by etrans].
  unfold current_of. by rewrite (recent_view_core (sv_core _ _ V1)), (sc_incarnation _ _ _ (sv_core _ _ V1)).
Qed.

(** [update_violation_status] computes the verdict, through the cached threshold. *)
Lemma run_update a st :
  hook_ok st -> tracking_enabled_ (rb_ st) = true ->
  exists st', update_violation_status bs a st = (ROk tt, st') /\
    judged a (next_threshold st a) (next_failed st a) st st'.
Proof.
  intros Hok Ht. unfold update_violation_status.
  read (reads_get rb_) as (st1 & -> & V1 & Hok1 & Ht1). rewrite Ht. cbn [negb].
  change (default None (violation_thresholds_ (rb_ st) !! a)) with (cached st a).
  unfold sbind at 1. cbn [rb_set_threshold modify_rb smodify].
  set (st2 := set_rb_ _ st1).
  assert (P2 : pending a (cached st a) st st2).
  { split; [apply (transitivity (sv_core _ _ V1)); by split|simpl; by rewrite (sv_rb _ _ V1)..]. }
  assert (Hok2 : hook_ok st2) by (by apply (hook_ok_core bs st), Hok; apply P2).
  assert (Ht2 : tracking_enabled_ (rb_ st2) = true) by (by rewrite (sc_tracking _ _ _ (pe_core _ _ _ _ P2))).
  clearbody st2.
  read (reads_exempt (allow_init_selfdestruct_exemption_ (rb_ st)) a) as (st3 & -> & V3 & Hok3 & Ht3).
  assert (P3 : pending a (cached st a) st st3) by (by apply (pending_view _ _ _ st2)).
  assert (Ex : allow_init_selfdestruct_exemption_ (rb_ st) &&
    destructed_ (as_sub (recent_view st2 a)) && current_of st2 a = exempt st a).
  { rewrite <- (exempt_core (pe_core _ _ _ _ P2)). unfold exempt.
    by rewrite (static_core (pe_core _ _ _ _ P2) allow_init_selfdestruct_exemption_). }
  rewrite Ex. unfold next_failed, next_threshold. destruct (exempt st a).
  { eexists. split; [reflexivity|]. apply (pending_judged _ _ _ _ _ _ _ P3). by judge. }
  assert (Hbal : forall t s, pending a (Some t) st s -> hook_ok s ->
    tracking_enabled_ (rb_ s) = true ->
    exists st', (if t =? 0 then rb_pass a
       else balance <- get_balance bs a ;; if balance <? t then rb_fail a else rb_pass a) s =
      (ROk tt, st') /\ judged a (Some t) (falls_below (Some t) (balance_of (recent_view st a))) st st').
  { intros t s P Hoks Hts. destruct (Z.eqb_spec t 0) as [E0|_].
    - assert (t = #0) as -> by (apply uval_inj; by rewrite uval_wrap_0). rewrite falls_below_zero.
      by apply (pending_mark _ _ _ _ false).
    - read (reads_balance a) as (s' & -> & V & _). rewrite (recent_view_core (pe_core _ _ _ _ P)).
      by apply pending_mark, (pending_view _ _ _ s). }
  destruct (cached st a) as [t|] eqn:Ec.
  - unfold sbind at 1, sret at 1. by apply Hbal.
  - unfold sbind at 1.
    destruct (run_compute a st3 (balance_of (recent_view st a)) Hok3 Ht3) as (r & st4 & -> & Hr).
    rewrite (threshold_core (pe_core _ _ _ _ P3)) in Hr. destruct r as [t|].
    + destruct Hr as (E & C4 & F4 & T4). rewrite E. apply Hbal.
      * split; [by apply (transitivity (pe_core _ _ _ _ P3))|by rewrite F4, (pe_failed _ _ _ _ P3)|].
        rewrite T4, (pe_thresholds _ _ _ _ P3). apply insert_insert_eq.
      * by apply (hook_ok_core bs st3).
      * by rewrite (sc_tracking _ _ _ C4).
    + eexists. split; [reflexivity|]. by apply (pending_judged _ _ _ _ _ _ _ P3).
Qed.
End spec.

(** Step over a reading operation: [read R as p]. *)
Ltac read_with R p :=
  lazymatch goal with
  | |- context [sbind ?m ?k ?st = _] =>
      destruct (run_reads _ m _ k st R ltac:(assumption) ltac:(assumption)) as p
  end.
Tactic Notation "read" uconstr(R) "as" simple_intropattern(p) := read_with R p.
