(* ===== verification/StateFrames.v ===== *)
(** * Call frames of the transaction state

    [push], [pop_accept] and [pop_reject] of State3.v implement nested
    snapshots: whatever a call does, rejecting its frame restores the accounts
    and logs exactly, and accepting it keeps what the call saw last without
    touching what the enclosing frames will restore.  [wf] is the invariant of
    [State] that makes this work; [local] is what any code inside a frame may
    change; [exec_item] runs arbitrary nested calls. *)
From S2P Require Import Prelude Prog Abi VersionStack State3 StateHooks.

Definition stack (st : State) (a : address) : VersionStack AccountState :=
  default [] (current_ st !! a).

(** The most recent value of an account, if a frame owns one. *)
Definition recent (st : State) (a : address) : option AccountState := vs_recent (stack st a).

(** The dirty set of frame [u]. *)
Definition dirty_at (st : State) (u : nat) : gset address :=
  default ∅ (dirty_ st !! (version_ st - u)%nat).

Definition has_version {T} (u : nat) (vs : VersionStack T) : Prop := exists x, (u, x) ∈ vs.

Record wf (st : State) : Prop := mk_wf {
  wf_frames : length (dirty_ st) = version_ st;
  wf_stack : forall a vs, current_ st !! a = Some vs ->
    vs <> [] /\ descending vs /\ vs_bounded (version_ st) vs;
  wf_dirty : forall a u, (0 < u <= version_ st)%nat ->
    a ∈ dirty_at st u <-> has_version u (stack st a);
  wf_logs : has_version 0 (logs_ st) /\ descending (logs_ st) /\
    vs_bounded (version_ st) (logs_ st);
  wf_rb : rb_ok (rb_ st);
}.

(** The current frame has its own copy of the account. *)
Definition owned (a : address) (st : State) : Prop := vs_version (stack st a) = Some (version_ st).

Record local (st st' : State) : Prop := mk_local {
  local_wf : wf st';
  local_version : version_ st' = version_ st;
  local_dirty : tail (dirty_ st') = tail (dirty_ st);
  local_below : forall j a, (j < version_ st)%nat -> below j (stack st' a) = below j (stack st a);
  local_logs : forall j, (j < version_ st)%nat -> below j (logs_ st') = below j (logs_ st);
  local_owned : forall a, owned a st -> owned a st';
}.

Lemma has_version_nonempty {T} u (vs : VersionStack T) : has_version u vs -> vs <> [].
Proof. intros [x Hx] ->. by apply elem_of_nil in Hx. Qed.

Lemma local_refl st : wf st -> local st st.
Proof. by split. Qed.

Lemma local_trans st1 st2 st3 : local st1 st2 -> local st2 st3 -> local st1 st3.
Proof.
  intros H12 H23. pose proof (local_version _ _ H12) as E. split.
  - apply H23.
  - by rewrite (local_version _ _ H23).
  - by rewrite (local_dirty _ _ H23), (local_dirty _ _ H12).
  - intros j a Hj. rewrite (local_below _ _ H23) by (by rewrite E). by apply H12.
  - intros j Hj. rewrite (local_logs _ _ H23) by (by rewrite E). by apply H12.
  - intros a Ha. by apply H23, H12.
Qed.

Lemma wf_hook_ok st : wf st -> hook_ok st.
Proof. intros [_ W2 _ _ W5]. split; [|done]. intros a vs Hvs. by apply (W2 a vs). Qed.

(** Only the tracker and the cache differ. *)
Lemma wf_core bs st st' : same_core bs st st' -> rb_ok (rb_ st') -> wf st -> wf st'.
Proof.
  intros [? Ec El ? Ev Ed ? ? ? ?] Hrb [W1 W2 W3 W4 W5]. split; [| | | |done].
  - by rewrite Ed, Ev.
  - by rewrite Ec, Ev.
  - unfold dirty_at, stack. by rewrite Ec, Ev, Ed.
  - by rewrite El, Ev.
Qed.

Lemma local_core bs st st' : same_core bs st st' -> wf st -> local st st'.
Proof.
  intros Hc Hwf. split.
  - apply (wf_core bs st); [done| |done]. apply (hook_ok_core _ _ _ Hc), wf_hook_ok, Hwf.
  - apply Hc.
  - by rewrite (sc_dirty _ _ _ Hc).
  - intros j a _. unfold stack. by rewrite (sc_current _ _ _ Hc).
  - intros j _. by rewrite (sc_logs _ _ _ Hc).
  - intros a. unfold owned, stack. by rewrite (sc_current _ _ _ Hc), (sc_version _ _ _ Hc).
Qed.

(** ** Code that stays within its frame *)
Definition stays {A} (m : SM A) : Prop := forall st, wf st -> local st (m st).2.
Definition stays_owning {A} (a : address) (m : SM A) : Prop :=
  forall st, wf st -> owned a st -> local st (m st).2.

Lemma stays_weaken {A} a (m : SM A) : stays m -> stays_owning a m.
Proof. intros H st Hwf _. by apply H. Qed.

Section rules.
Context {A C : Type}.

Lemma stays_ret (x : A) : stays (sret x).
Proof. intros st. apply local_refl. Qed.
Lemma stays_get (f : State -> A) : stays (sget f).
Proof. intros st. apply local_refl. Qed.
Lemma stays_halt : stays (shalt : SM A).
Proof. intros st. apply local_refl. Qed.
Lemma stays_opt (o : option A) : stays (sopt o).
Proof. destruct o; intros st; apply local_refl. Qed.
Lemma stays_assert b : stays (sassert b).
Proof. destruct b; intros st; apply local_refl. Qed.
Lemma stays_assert_throw b m : stays (sassert_throw b m).
Proof. destruct b; intros st; apply local_refl. Qed.

Lemma stays_bind (m : SM A) (f : A -> SM C) :
  stays m -> (forall x, stays (f x)) -> stays (sbind m f).
Proof.
  intros Hm Hf st Hwf. specialize (Hm st Hwf). unfold sbind.
  destruct (m st) as [[x|[]|e|] st']; simpl in *; try done.
  eapply local_trans; [exact Hm|]. apply Hf, Hm.
Qed.

Lemma stays_owning_bind a (m : SM A) (f : A -> SM C) :
  stays_owning a m -> (forall x, stays_owning a (f x)) -> stays_owning a (sbind m f).
Proof.
  intros Hm Hf st Hwf Ho. specialize (Hm st Hwf Ho). unfold sbind.
  destruct (m st) as [[x|[]|e|] st']; simpl in *; try done.
  eapply local_trans; [exact Hm|]. apply Hf; [apply Hm|]. by apply Hm.
Qed.
End rules.

(** Changing only [original_] or [code_]. *)
Lemma local_original st o : wf st -> local st (set_original_ o st).
Proof. intros []. by split. Qed.
Lemma local_code st c : wf st -> local st (set_code_ c st).
Proof. intros []. by split. Qed.

Lemma stays_calm {A} bs (m : SM A) : calm bs m -> stays m.
Proof.
  intros Hm st Hwf. destruct (Hm st (wf_hook_ok _ Hwf)) as (x & st' & -> & Hc).
  by apply (local_core bs).
Qed.

Section stays_ops.
Context (bs : BlockReads).

Lemma stays_set_original a o : stays (set_original a o).
Proof. intros st Hwf. by apply local_original. Qed.

Lemma stays_original_account_state a : stays (original_account_state bs a).
Proof.
  apply stays_bind; [apply stays_get|]. intros [o|]; [apply stays_ret|].
  apply stays_bind; [|intros _; apply stays_ret]. intros st Hwf. by apply local_original.
Qed.

Lemma stays_read_original a o inc key : stays (read_original_storage bs a o inc key).
Proof.
  unfold read_original_storage. destruct (_ !! key); [apply stays_ret|].
  apply stays_bind; [apply stays_set_original|]. intros. apply stays_ret.
Qed.
End stays_ops.

(** ** Taking ownership *)
Lemma has_version_head {T} u (vs : VersionStack T) x : (u, x) ∈ vs -> descending vs -> forall v, vs_bounded v vs -> (u <= v)%nat.
Proof.
  induction vs as [|[u' x'] rest IH]; intros Hin Hd v Hb; [by apply elem_of_nil in Hin|].
  specialize (Hb _ eq_refl). simpl in Hb. apply elem_of_cons in Hin as [[= -> ->]|Hin]; [done|].
  destruct Hd as [H1 H2]. etrans; [|exact Hb].
  apply (IH Hin H2). intros y Hy. specialize (H1 y Hy). lia.
Qed.

(** The versions in a stack after the current frame took it over. *)
Lemma has_version_current {T} v (vs vs' : VersionStack T) u :
  vs_current v vs = Some vs' -> descending vs -> vs_bounded v vs ->
  has_version u vs' <-> u = v \/ has_version u vs.
Proof.
  destruct vs as [|[u0 x0] rest]; [done|]. intros [= <-] Hd Hb.
  specialize (Hb _ eq_refl). simpl in Hb. unfold has_version.
  destruct (Nat.ltb_spec u0 v) as [Hlt|Hge].
  - split.
    + intros (x & [[= -> ->]|Hin]%elem_of_cons); eauto.
    + intros [->|[x Hx]]; [exists x0; apply elem_of_cons; auto|].
      exists x. apply elem_of_cons. auto.
  - assert (u0 = v) as -> by lia. split; [auto|]. intros [->|?]; [|done].
    exists x0. apply elem_of_cons. auto.
Qed.

Lemma has_version_set_recent {T} u x (vs : VersionStack T) : has_version u (vs_set_recent x vs) <-> has_version u vs.
Proof.
  destruct vs as [|[v y] rest]; [done|]. unfold has_version. simpl.
  split; intros (z & [[= -> ->]|Hin]%elem_of_cons);
    solve [eexists; apply elem_of_cons; eauto].
Qed.

Lemma stack_insert st a vs b :
  stack (set_current_ (<[a := vs]> (current_ st)) st) b = if decide (a = b) then vs else stack st b.
Proof.
  unfold stack. simpl. case_decide as E; [by rewrite E, lookup_insert_eq|by rewrite lookup_insert_ne].
Qed.

(** Replacing the stack of one account by one that differs in the top frame only. *)
Lemma local_insert st a vs :
  wf st -> vs <> [] -> descending vs -> vs_bounded (version_ st) vs ->
  (forall j, (j < version_ st)%nat -> below j vs = below j (stack st a)) ->
  (forall u, (0 < u <= version_ st)%nat -> has_version u vs <-> has_version u (stack st a)) ->
  (owned a st -> vs_version vs = Some (version_ st)) ->
  local st (set_current_ (<[a := vs]> (current_ st)) st).
Proof.
  intros Hwf Hne Hd Hb Hbelow Hver Hown. destruct Hwf as [W1 W2 W3 W4 W5]. split; try done.
  - split; try done.
    + intros b vs'. simpl. destruct (decide (a = b)) as [->|Hab].
      * rewrite lookup_insert_eq. by intros [= <-].
      * rewrite lookup_insert_ne by done. apply W2.
    + intros b u Hu. rewrite stack_insert. specialize (W3 b u Hu).
      change (dirty_at (set_current_ _ st) u) with (dirty_at st u). rewrite W3.
      case_decide as E; [subst b; by rewrite Hver|done].
  - intros j b Hj. rewrite stack_insert. case_decide as E; [subst b; by apply Hbelow|done].
  - intros b. unfold owned. rewrite stack_insert. simpl.
    case_decide as E; [subst b; apply Hown|done].
Qed.

Lemma alter_Some {K V} `{Countable K} (m : gmap K V) k v (f : V -> V) :
  m !! k = Some v -> alter f k m = <[k := f v]> m.
Proof.
  intros E. apply map_eq. intros k'. destruct (decide (k = k')) as [->|Hne].
  - by rewrite lookup_alter_eq, lookup_insert_eq, E.
  - by rewrite lookup_alter_ne, lookup_insert_ne.
Qed.

Lemma local_set_current st a x :
  wf st -> owned a st ->
  local st (set_current_ (alter (vs_set_recent x) a (current_ st)) st).
Proof.
  intros Hwf Hown. pose proof Hown as Hv. unfold owned, stack in Hv.
  destruct (current_ st !! a) as [vs|] eqn:E; [|done]. simpl in Hv.
  destruct (wf_stack _ Hwf a vs E) as (Hne & Hd & Hb).
  assert (Es : stack st a = vs) by (unfold stack; by rewrite E).
  rewrite (alter_Some _ _ _ _ E). apply local_insert; try done; rewrite ?Es.
  - by destruct vs as [|[]].
  - by apply vs_set_recent_descending.
  - by apply vs_set_recent_bounded.
  - intros j Hj. by apply (below_set_recent (version_ st)).
  - intros u _. apply has_version_set_recent.
  - intros _. by destruct vs as [|[]].
Qed.

(** Marking an account dirty in the current frame. *)
Definition mark (a : address) (st : State) : State :=
  match dirty_ st with
  | [] => st
  | d :: rest => set_frame (version_ st) ((d ∪ {[a]}) :: rest) st
  end.

Lemma dirty_at_mark st a u b :
  length (dirty_ st) = version_ st -> (0 < u <= version_ st)%nat ->
  b ∈ dirty_at (mark a st) u <-> b ∈ dirty_at st u \/ (u = version_ st /\ b = a).
Proof.
  intros Hl Hu. unfold mark, dirty_at. destruct (dirty_ st) as [|d rest] eqn:E; simpl in *; [lia|].
  destruct (version_ st - u)%nat as [|k] eqn:Ek; simpl.
  - rewrite elem_of_union, elem_of_singleton. split; intros [?|?]; auto; [right; split; [lia|done]|].
    right. tauto.
  - split; [auto|]. intros [?|[-> _]]; [done|lia].
Qed.

(** The whole of [current_account_state]: mark, and take the stack over. *)
Lemma local_take st a (vs vs' : VersionStack AccountState) :
  wf st -> vs_current (version_ st) vs = Some vs' -> descending vs ->
  vs_bounded (version_ st) vs ->
  (current_ st !! a = Some vs \/ current_ st !! a = None /\ exists x, vs = vs_new x (version_ st)) ->
  let st' := set_current_ (<[a := vs']> (current_ (mark a st))) (mark a st) in
  local st st' /\ owned a st' /\ recent st' a = vs_recent vs.
Proof.
  intros Hwf Hc Hd Hb Hst st'. destruct Hwf as [W1 W2 W3 W4 W5].
  assert (Hne : vs <> []) by (by intros ->).
  destruct (vs_current_spec _ _ Hne Hd Hb) as (vs1 & E1 & D1 & V1 & R1 & B1).
  rewrite Hc in E1. injection E1 as <-.
  assert (Hcur : current_ (mark a st) = current_ st) by (unfold mark; by destruct (dirty_ st)).
  assert (Hver : version_ (mark a st) = version_ st) by (unfold mark; by destruct (dirty_ st)).
  assert (Hlog : logs_ (mark a st) = logs_ st) by (unfold mark; by destruct (dirty_ st)).
  assert (Hstk : forall b, stack st' b = if decide (a = b) then vs' else stack st b).
  { intros b. unfold st'. rewrite stack_insert. unfold stack. by rewrite Hcur. }
  assert (Hlow : forall j, (j < version_ st)%nat -> below j vs = below j (stack st a)).
  { intros j Hj. unfold stack. destruct Hst as [->|[-> [x ->]]]; [done|]. simpl.
    by destruct (Nat.leb_spec (version_ st) j); [lia|]. }
  assert (Hhas : forall u, has_version u vs' <-> u = version_ st \/ has_version u (stack st a)).
  { intros u. rewrite (has_version_current _ _ _ _ Hc Hd Hb). unfold stack.
    destruct Hst as [->|[-> [x ->]]]; [done|]. simpl. split; [|by intros [->|[y []%elem_of_nil]]; left].
    intros [->|[y [[= -> _]|[]%elem_of_nil]%elem_of_cons]]; auto. }
  assert (Hd' : forall b u, (0 < u <= version_ st)%nat ->
    b ∈ dirty_at st' u <-> b ∈ dirty_at st u \/ (u = version_ st /\ b = a)).
  { intros b u Hu. by apply (dirty_at_mark st a u b W1 Hu). }
  split_and!.
  - split.
    + split.
      * unfold st', mark. simpl. destruct (dirty_ st) eqn:E; simpl in *; by rewrite ?E.
      * intros b vsb. unfold st'. simpl. rewrite Hver, Hcur. destruct (decide (a = b)) as [->|Hab].
        -- rewrite lookup_insert_eq. intros [= <-]. split_and!; [by intros ->|done|].
           intros y Hy. destruct vs'; [done|]. injection Hy as ->. by injection V1 as ->.
        -- rewrite lookup_insert_ne by done. apply W2.
      * intros b u. unfold st' at 1. simpl. rewrite Hver. intros Hu. rewrite (Hd' b u Hu), Hstk, (W3 b u Hu).
        case_decide as E; [subst b; rewrite Hhas; naive_solver|naive_solver].
      * unfold st'. simpl. by rewrite Hlog, Hver.
      * unfold st', mark. by destruct (dirty_ st).
    + done.
    + unfold st', mark. destruct (dirty_ st) eqn:E; simpl; by rewrite ?E.
    + intros j b Hj. rewrite Hstk. case_decide as E; [subst b; by rewrite B1, Hlow|done].
    + intros j Hj. unfold st'. simpl. by rewrite Hlog.
    + intros b. unfold owned. rewrite Hstk. unfold st'. simpl. rewrite Hver.
      case_decide; [by intros _|done].
  - unfold owned. rewrite Hstk, decide_True by done. unfold st'. simpl. by rewrite Hver.
  - unfold recent. by rewrite Hstk, decide_True.
Qed.

Section ops_stay.
Context (bs : BlockReads).

(** [current_account_state] takes ownership and returns the recent value. *)
Lemma run_current_account_state a st :
  wf st ->
  exists x st', current_account_state bs a st = (ROk x, st') /\ local st st' /\ owned a st' /\
    recent st' a = Some x.
Proof.
  intros Hwf. unfold current_account_state, sbind, sget, smodify, sret.
  destruct (current_ st !! a) as [vs|] eqn:E.
  - destruct (wf_stack _ Hwf a vs E) as (Hne & Hd & Hb).
    destruct (vs_current_spec _ _ Hne Hd Hb) as (vs' & Ec & _ & _ & Hr & _).
    fold (mark a st).
    assert (version_ (mark a st) = version_ st) as -> by (unfold mark; by destruct (dirty_ st)).
    rewrite Ec. simpl. destruct vs' as [|[u x] rest]; [by destruct vs as [|[]]|]. simpl.
    eexists _, _. split; [done|].
    destruct (local_take st a vs ((u, x) :: rest) Hwf Ec Hd Hb (or_introl E)) as (H1 & H2 & H3).
    split_and!; [done..|]. by rewrite H3, <- Hr.
  - pose proof (stays_original_account_state bs a st Hwf) as Hl.
    assert (Eo : exists o st1, original_account_state bs a st = (ROk o, st1) /\
      current_ st1 = current_ st).
    { unfold original_account_state, sbind, sget, smodify, sret.
      destruct (original_ st !! a); eauto. }
    destruct Eo as (o & st1 & Eo & Ecur). rewrite Eo in Hl |- *. simpl in Hl.
    pose proof (local_wf _ _ Hl) as Hwf1. fold (mark a st1).
    assert (version_ (mark a st1) = version_ st1) as -> by (unfold mark; by destruct (dirty_ st1)).
    assert (Ec : vs_current (version_ st1) (vs_new (o_state o) (version_ st1)) =
      Some (vs_new (o_state o) (version_ st1))).
    { simpl. by rewrite Nat.ltb_irrefl. }
    rewrite Ec. simpl. eexists _, _. split; [done|].
    destruct (local_take st1 a _ _ Hwf1 Ec) as (H1 & H2 & H3).
    + by split.
    + by intros y [= <-].
    + right. rewrite Ecur. eauto.
    + split_and!; [|done..]. eapply local_trans; [exact Hl|exact H1].
Qed.

Lemma stays_current_bind {A} a (k : AccountState -> SM A) :
  (forall x, stays_owning a (k x)) -> stays (sbind (current_account_state bs a) k).
Proof.
  intros Hk st Hwf. unfold sbind.
  destruct (run_current_account_state a st Hwf) as (x & st' & -> & Hl & Ho & _).
  eapply local_trans; [exact Hl|]. apply Hk; [apply Hl|done].
Qed.

Lemma stays_current_account_state a : stays (current_account_state bs a).
Proof.
  intros st Hwf. by destruct (run_current_account_state a st Hwf) as (x & st' & -> & Hl & _).
Qed.

Lemma stays_set_current a x : stays_owning a (set_current a x).
Proof. intros st Hwf Ho. by apply local_set_current. Qed.

Lemma stays_set_code h (c : byte_string) :
  stays (smodify (fun st => set_code_ (<[h := c]> (code_ st)) st)).
Proof. intros st Hwf. by apply local_code. Qed.

Lemma stays_store_log l : stays (store_log l).
Proof.
  intros st Hwf. destruct Hwf as [W1 W2 W3 (L1 & L2 & L3) W5].
  unfold store_log, sbind, sget, smodify. simpl.
  destruct (vs_current_spec _ _ (has_version_nonempty _ _ L1) L2 L3)
    as (vs' & Ec & D & V & _ & B). rewrite Ec. simpl.
  assert (L1' : has_version 0 vs') by (apply (has_version_current _ _ _ _ Ec L2 L3); auto).
  destruct vs' as [|[u x] rest]; [done|]. injection V as ->. simpl.
  split; try done.
  - split; try done. split_and!; [exact (proj2 (has_version_set_recent 0 (x ++ [l]) _) L1')|
      by apply (vs_set_recent_descending (x ++ [l]) _ D)|].
    by intros y [= <-].
  - intros j Hj. rewrite <- (B j Hj). simpl. by destruct (Nat.leb_spec (version_ st) j); [lia|].
Qed.
End ops_stay.

Create HintDb stays discriminated.
#[export] Hint Resolve stays_ret stays_get stays_halt stays_opt stays_assert stays_assert_throw
  stays_set_original stays_original_account_state stays_read_original stays_set_current
  stays_set_code stays_store_log stays_current_account_state : stays.

Ltac stays_step :=
  cbv beta zeta;
  lazymatch goal with
  | |- stays (sbind (current_account_state _ _) _) => apply stays_current_bind; intros ?
  | |- stays (sbind _ _) => apply stays_bind; [|intros ?]
  | |- stays_owning _ (sbind _ _) => apply stays_owning_bind; [|intros ?]
  | |- stays (match ?x with _ => _ end) => destruct x
  | |- stays_owning _ (match ?x with _ => _ end) => destruct x
  | |- stays_owning _ _ => first [solve [auto with stays] | apply stays_weaken]
  | |- stays _ => solve [auto with stays]
  end.
Ltac stays := repeat stays_step.

(** The hooks of the reserve-balance tracker. *)
Section hooks_stay.
Context (bs : BlockReads) (a : address).
Lemma stays_on_credit : stays (rb_on_credit bs a).
Proof. apply (stays_calm bs), calm_on_credit. Qed.
Lemma stays_on_debit : stays (rb_on_debit bs a).
Proof. apply (stays_calm bs), calm_on_debit. Qed.
Lemma stays_on_set_code c : stays (rb_on_set_code bs a c).
Proof. apply (stays_calm bs), calm_on_set_code. Qed.
End hooks_stay.
#[export] Hint Resolve stays_on_credit stays_on_debit stays_on_set_code : stays.

(** Every operation of a transaction stays within its frame. *)
Section state_ops.
Context (bs : BlockReads).
Implicit Types (a : address) (key value : bytes32).

Lemma stays_recent_account_state a : stays (recent_account_state bs a).
Proof. unfold recent_account_state. stays. Qed.
#[local] Hint Resolve stays_recent_account_state : stays.
Lemma stays_recent_account a : stays (recent_account bs a).
Proof. unfold recent_account. stays. Qed.
#[local] Hint Resolve stays_recent_account : stays.
Lemma stays_get_balance a : stays (get_balance bs a).
Proof. unfold get_balance. stays. Qed.
Lemma stays_get_storage a key : stays (get_storage bs a key).
Proof. unfold get_storage. stays. Qed.
Lemma stays_get_nonce a : stays (get_nonce bs a).
Proof. unfold get_nonce. stays. Qed.
Lemma stays_is_current_incarnation a : stays (is_current_incarnation bs a).
Proof. unfold is_current_incarnation. stays. Qed.
Lemma stays_set_nonce a n : stays (set_nonce bs a n).
Proof. unfold set_nonce, ensure_account. stays. Qed.
Lemma stays_add_to_balance a d : stays (add_to_balance bs a d).
Proof. unfold add_to_balance, ensure_account. stays. Qed.
Lemma stays_subtract_from_balance a d : stays (subtract_from_balance bs a d).
Proof. unfold subtract_from_balance, ensure_account. stays. Qed.
Lemma stays_set_storage a key value : stays (set_storage bs a key value).
Proof. unfold set_storage. stays. Qed.
Lemma stays_set_transient a key value : stays (set_transient_storage bs a key value).
Proof. unfold set_transient_storage. stays. Qed.
Lemma stays_touch a : stays (touch bs a).
Proof. unfold touch. stays. Qed.
Lemma stays_access_account a : stays (access_account bs a).
Proof. unfold access_account. stays. Qed.
Lemma stays_access_storage a key : stays (access_storage bs a key).
Proof. unfold access_storage. stays. Qed.
#[local] Hint Resolve stays_get_balance stays_is_current_incarnation stays_add_to_balance
  stays_subtract_from_balance : stays.
Lemma stays_selfdestruct c a b : stays (selfdestruct bs c a b).
Proof. unfold selfdestruct. stays. Qed.
Lemma stays_set_code_ h a c : stays (set_code bs h a c).
Proof. unfold set_code. stays. Qed.
Lemma stays_create_contract a : stays (create_contract bs a).
Proof. unfold create_contract. stays. Qed.
Lemma stays_create_no_rollback a : stays (create_account_no_rollback bs a).
Proof. unfold create_account_no_rollback. stays. Qed.
Lemma stays_set_incarnation a : stays (set_to_state_incarnation bs a).
Proof. unfold set_to_state_incarnation, ensure_account. stays. Qed.
Lemma stays_record_debit a d : stays (record_balance_constraint_for_debit bs a d).
Proof. unfold record_balance_constraint_for_debit, set_min_balance. stays. Qed.
End state_ops.

Lemma has_version_below {T} (vs : VersionStack T) j u :
  descending vs -> (u <= j)%nat -> has_version u (below j vs) <-> has_version u vs.
Proof.
  intros Hd Hu. induction vs as [|[u0 x0] vs IH]; [done|]. simpl.
  destruct (Nat.leb_spec u0 j); [done|]. rewrite IH by apply Hd.
  split; intros [x Hx]; exists x.
  - by right.
  - apply elem_of_cons in Hx as [[= -> ->]|Hx]; [lia|done].
Qed.

(** ** Pushing and popping *)
Lemma set_current_twice m m' st : set_current_ m' (set_current_ m st) = set_current_ m' st.
Proof. done. Qed.

Lemma run_push st :
  wf st -> exists st', push st = (ROk tt, st') /\ wf st' /\
    st' = set_frame (version_ st + 1) (∅ :: dirty_ st) st.
Proof.
  intros [W1 W2 W3 (L1 & L2 & L3) W5]. unfold push, sbind, sget, sassert, smodify. simpl.
  rewrite W1, Nat.eqb_refl. simpl. eexists. split; [done|]. split; [|done]. split; simpl.
  - rewrite W1. lia.
  - intros a vs Hvs. destruct (W2 a vs Hvs) as (H1 & H2 & H3). split_and!; [done..|].
    intros y Hy. specialize (H3 y Hy). simpl. lia.
  - intros a u Hu. unfold dirty_at. simpl.
    destruct (decide (u = version_ st + 1)%nat) as [->|Hne].
    + rewrite Nat.sub_diag. simpl. split; [by intros ?%elem_of_empty|].
      intros [x Hx]. exfalso. unfold stack in Hx. simpl in Hx.
      destruct (current_ st !! a) as [vs|] eqn:E; simpl in Hx; [|by apply elem_of_nil in Hx].
      destruct (W2 a vs E) as (_ & H2 & H3). pose proof (has_version_head _ _ _ Hx H2 _ H3). lia.
    + replace (version_ st + 1 - u)%nat with (S (version_ st - u)) by lia. simpl.
      apply W3. lia.
  - split_and!; [done..|]. intros y Hy. specialize (L3 y Hy). lia.
  - done.
Qed.

Section pop.
#[local] Set Default Proof Using "Type*".
Context (bs : BlockReads) (st : State) (Hwf : wf st) (Hv : version_ st <> 0%nat).
Abbreviation v := (version_ st).

Definition listed (l : list address) (st0 : State) : Prop :=
  forall a, a ∈ l -> exists vs, current_ st0 !! a = Some vs /\
    vs <> [] /\ descending vs /\ vs_bounded v vs.

Lemma run_pop_reject_loop l removals st0 :
  version_ st0 = v -> NoDup l -> listed l st0 ->
  exists m rem, pop_reject_loop l removals st0 = (ROk rem, set_current_ m st0) /\
    (forall b, m !! b = if decide (b ∈ l) then Some (below (v - 1) (stack st0 b))
                        else current_ st0 !! b) /\
    (forall b, b ∈ rem <-> b ∈ removals \/ (b ∈ l /\ below (v - 1) (stack st0 b) = [])).
Proof.
  revert removals st0. induction l as [|a l IH]; intros removals st0 Ev ND HL.
  - exists (current_ st0), removals. split_and!.
    + by destruct st0.
    + intros b. by rewrite decide_False by apply not_elem_of_nil.
    + intros b. rewrite elem_of_nil. tauto.
  - apply NoDup_cons in ND as [Ha ND].
    destruct (HL a) as (vs & E & H1 & H2 & H3); [by left|].
    assert (Es : stack st0 a = vs) by (unfold stack; by rewrite E).
    simpl. unfold sbind at 1, sget at 1. rewrite E. unfold sbind, sget, sopt, smodify, sret.
    rewrite Ev, (vs_pop_reject_spec v vs Hv H1 H2 H3).
    set (st1 := set_current_ (<[a := below (v - 1) vs]> (current_ st0)) st0).
    set (rem1 := match below (v - 1) vs with [] => removals ++ [a] | _ => removals end).
    destruct (IH rem1 st1) as (m & rem & -> & Hm & Hrem); [done|done| |].
    { intros b Hb. unfold st1. simpl. rewrite lookup_insert_ne by (by intros ->).
      apply HL. by right. }
    assert (Hst : forall b, b <> a -> stack st1 b = stack st0 b).
    { intros b Hb. unfold st1. rewrite stack_insert. by rewrite decide_False. }
    exists m, rem. split_and!; [done| |].
    + intros b. rewrite Hm. destruct (decide (b = a)) as [->|Hab].
      * rewrite decide_False by done. rewrite decide_True by (by left).
        unfold st1. simpl. by rewrite lookup_insert_eq, Es.
      * rewrite Hst by done. unfold st1. simpl. rewrite lookup_insert_ne by done.
        destruct (decide (b ∈ l)); [by rewrite decide_True by (by right)|].
        rewrite decide_False; [done|]. by intros [?|?]%elem_of_cons.
    + intros b. rewrite Hrem.
      assert (Hr1 : b ∈ rem1 <-> b ∈ removals \/ (b = a /\ below (v - 1) vs = [])).
      { unfold rem1. destruct (below (v - 1) vs).
        - rewrite elem_of_app, list_elem_of_singleton. tauto.
        - split; [auto|]. by intros [?|[_ ?]]. }
      rewrite Hr1, elem_of_cons. destruct (decide (b = a)) as [->|Hab].
      * rewrite Es. tauto.
      * rewrite Hst by done. tauto.
Qed.

Lemma head_dirty : exists d rest, dirty_ st = d :: rest /\ length rest = (v - 1)%nat.
Proof.
  pose proof (wf_frames _ Hwf). destruct (dirty_ st) as [|d rest]; simpl in *; [lia|].
  exists d, rest. split; [done|lia].
Qed.

Lemma stack_wf a :
  stack st a <> [] -> descending (stack st a) /\ vs_bounded v (stack st a) /\
    current_ st !! a = Some (stack st a).
Proof using Hwf.
  unfold stack. destruct (current_ st !! a) as [vs|] eqn:E; simpl; [|done].
  intros _. by destruct (wf_stack _ Hwf a vs E) as (_ & ? & ?).
Qed.

(** The dirty accounts are those with a value of this frame. *)
Lemma dirty_head a d rest :
  dirty_ st = d :: rest -> a ∈ d <-> vs_version (stack st a) = Some v.
Proof.
  intros E. pose proof (wf_dirty _ Hwf a v) as H. unfold dirty_at in H.
  rewrite E, Nat.sub_diag in H. simpl in H. rewrite H by lia. clear H. split.
  - intros [x Hx]. destruct (stack_wf a) as (H1 & H2 & _); [by intros Es; rewrite Es in Hx; apply elem_of_nil in Hx|].
    destruct (stack st a) as [|[u y] vs]; [by apply elem_of_nil in Hx|].
    apply elem_of_cons in Hx as [[= <- <-]|Hx]; [done|]. exfalso.
    pose proof (H2 _ eq_refl) as Hu. simpl in Hu.
    pose proof (descending_tail_bounded _ _ _ H1) as Hb. destruct H1 as [_ H1].
    pose proof (has_version_head _ _ _ Hx H1 _ Hb). lia.
  - destruct (stack st a) as [|[u y] vs]; [done|]. intros [= ->]. exists y. by left.
Qed.

Lemma dirty_listed d rest : dirty_ st = d :: rest -> listed (elements d) st.
Proof.
  intros E a Ha%elem_of_elements%(dirty_head a d rest E).
  destruct (stack_wf a) as (H1 & H2 & H3); [by intros Es; rewrite Es in Ha|].
  exists (stack st a). split_and!; try done. by intros Es; rewrite Es in Ha.
Qed.

(** Entries below the popped frame. *)
Lemma clean_below a d rest :
  dirty_ st = d :: rest -> a ∉ d -> vs_bounded (v - 1) (stack st a).
Proof.
  intros E Ha. destruct (stack st a) as [|[u x] vs] eqn:Es; [done|].
  destruct (stack_wf a) as (_ & H2 & _); [by rewrite Es|]. rewrite Es in H2.
  intros y Hy. specialize (H2 y Hy). injection Hy as <-. simpl in *.
  assert (u <> v); [|lia]. intros ->. apply Ha. apply (dirty_head a d rest E). by rewrite Es.
Qed.

(** The fields that pushing and popping leave alone. *)
Definition same_rest (st1 st2 : State) : Prop :=
  incarnation_ st2 = incarnation_ st1 /\ original_ st2 = original_ st1 /\
  code_ st2 = code_ st1 /\ relaxed_validation_ st2 = relaxed_validation_ st1 /\
  rb_ st2 = rb_ st1.

(** The state in which a rejected frame's accounts are judged again: every stack
    is cut back to the frames below, the version is still the frame's. *)
Record cut_back (st1 : State) : Prop := mk_cut_back {
  cb_rest : same_rest st st1;
  cb_version : version_ st1 = v;
  cb_dirty : dirty_ st1 = tail (dirty_ st);
  cb_logs : logs_ st1 = below (v - 1) (logs_ st);
  cb_stack : forall a, stack st1 a = below (v - 1) (stack st a);
  cb_current : forall a vs, current_ st1 !! a = Some vs -> vs = stack st1 a /\ vs <> [];
}.

Lemma cut_back_hook_ok st1 : cut_back st1 -> hook_ok st1.
Proof.
  intros []. split; [intros a vs Hvs; by apply (cb_current0 a vs)|].
  destruct cb_rest0 as (_ & _ & _ & _ & ->). apply (wf_rb _ Hwf).
Qed.

Lemma run_cut_back :
  exists st1 d rest, dirty_ st = d :: rest /\ cut_back st1 /\
    pop_reject bs st = sbind (rb_on_pop_reject bs (elements d)) (fun _ =>
      smodify (fun s => set_frame (version_ s - 1) (dirty_ s) s)) st1.
Proof.
  destruct head_dirty as (d & rest & E & Hl). unfold pop_reject, sbind, sget, sassert, smodify.
  simpl. rewrite (proj2 (Nat.eqb_neq v 0) Hv). cbn [negb].
  rewrite (wf_frames _ Hwf), Nat.eqb_refl. unfold sret. rewrite E. simpl. rewrite E. simpl.
  set (st0 := set_frame v rest st).
  assert (Hs0 : forall a, stack st0 a = stack st a) by done.
  destruct (run_pop_reject_loop (elements d) [] st0) as (m & rem & -> & Hm & Hrem);
    [done|apply NoDup_elements|by apply (dirty_listed d rest)|].
  destruct (wf_logs _ Hwf) as (L1 & L2 & L3).
  rewrite (vs_pop_reject_spec v _ Hv (has_version_nonempty _ _ L1) L2 L3). simpl.
  set (st1 := set_current_ _ _).
  assert (Hst : forall a, stack st1 a = below (v - 1) (stack st a) /\
    (is_Some (current_ st1 !! a) <-> below (v - 1) (stack st a) <> [])).
  { intros a. unfold st1, stack at 1. simpl.
    destruct (decide (a ∈ rem)) as [Ha|Ha].
    - rewrite lookup_foldr_delete by done.
      apply Hrem in Ha as [[]%elem_of_nil|[_ Ha]]. rewrite Hs0 in Ha. rewrite Ha. simpl.
      split; [done|]. split; [by intros []|done].
    - rewrite lookup_foldr_delete_not_elem_of by done. rewrite Hm, Hs0.
      destruct (decide (a ∈ elements d)) as [Hd|Hd]; simpl.
      + split; [done|]. split; [|eauto]. intros _ Eb. apply Ha, Hrem. right. by rewrite Hs0.
      + rewrite below_head; [|apply (clean_below a d rest E); by rewrite <- elem_of_elements].
        split; [done|]. unfold stack. destruct (current_ st !! a) as [vs|] eqn:Ec; simpl.
        * split; [|eauto]. intros _. by destruct (wf_stack _ Hwf a vs Ec).
        * split; [by intros []|done]. }
  exists st1, d, rest. split; [done|]. split; [|done]. split; try done.
  - by rewrite E.
  - intros a. apply Hst.
  - intros a vs Hvs. destruct (Hst a) as [H1 H2]. rewrite Hvs in H2.
    assert (Es : stack st1 a = vs) by (unfold stack; by rewrite Hvs). rewrite Es.
    split; [done|]. rewrite <- Es, H1. apply H2. eauto.
Qed.

Lemma stack_desc a : descending (stack st a).
Proof.
  destruct (stack st a) eqn:Ea; [done|]. rewrite <- Ea. apply stack_wf. by rewrite Ea.
Qed.

(** Rejecting a frame: every stack is cut back to the frames below. *)
Lemma run_pop_reject :
  exists st', pop_reject bs st = (ROk tt, st') /\ wf st' /\ version_ st' = (v - 1)%nat /\
    dirty_ st' = tail (dirty_ st) /\ (forall a, stack st' a = below (v - 1) (stack st a)) /\
    logs_ st' = below (v - 1) (logs_ st).
Proof.
  destruct run_cut_back as (st1 & d & rest & E & B & ->).
  destruct (calm_on_pop_reject bs (elements d) st1 (cut_back_hook_ok _ B)) as ([] & st2 & E2 & Hc).
  unfold sbind, smodify. rewrite E2. cbv beta iota. set (st' := set_frame _ _ st2). exists st'. split; [done|].
  assert (Hv' : version_ st' = (v - 1)%nat)
    by (unfold st'; simpl; by rewrite (sc_version _ _ _ Hc), (cb_version _ B)).
  assert (Hd' : dirty_ st' = tail (dirty_ st))
    by (unfold st'; simpl; by rewrite (sc_dirty _ _ _ Hc), (cb_dirty _ B)).
  assert (Hc' : current_ st' = current_ st1) by apply Hc.
  assert (Hl' : logs_ st' = below (v - 1) (logs_ st)) by (rewrite <- (cb_logs _ B); apply Hc).
  assert (Hs' : forall a, stack st' a = below (v - 1) (stack st a)).
  { intros a. rewrite <- (cb_stack _ B). unfold stack. by rewrite Hc'. }
  split_and!; try done. destruct (wf_logs _ Hwf) as (L1 & L2 & L3).
  split; rewrite ?Hv', ?Hd', ?Hl'.
  - pose proof (wf_frames _ Hwf). destruct (dirty_ st); simpl in *; lia.
  - rewrite Hc'. intros a vs Hvs. destruct (cb_current _ B a vs Hvs) as [E1 H1].
    rewrite (cb_stack _ B) in E1. rewrite E1 in *.
    split_and!; [done|by apply below_descending, stack_desc|apply below_bounded].
  - intros a u Hu. rewrite Hs', has_version_below by (apply stack_desc || lia).
    rewrite <- (wf_dirty _ Hwf a u) by lia. unfold dirty_at. rewrite Hv', Hd', E.
    by replace (v - u)%nat with (S (v - 1 - u)) by lia.
  - split_and!; [|by apply below_descending|apply below_bounded].
    apply has_version_below; [done|lia|done].
  - apply (hook_ok_core _ _ _ Hc), cut_back_hook_ok, B.
Qed.

Definition mark_all (l : list address) (ds : list (gset address)) : list (gset address) :=
  match ds with [] => [] | d :: rest => (d ∪ list_to_set l) :: rest end.

Lemma run_pop_accept_loop l st0 :
  version_ st0 = v -> NoDup l -> listed l st0 ->
  exists m, pop_accept_loop l st0 =
      (ROk tt, set_frame v (mark_all l (dirty_ st0)) (set_current_ m st0)) /\
    forall b, if decide (b ∈ l) then m !! b = vs_pop_accept v (stack st0 b)
              else m !! b = current_ st0 !! b.
Proof.
  revert st0. induction l as [|a l IH]; intros st0 Ev ND HL.
  - exists (current_ st0). split.
    + unfold mark_all. simpl. unfold sret. rewrite <- Ev. destruct st0 as [? ? ? ? ? ? [|d ds] ? ?]; [done|].
      simpl. by rewrite union_empty_r_L.
    + intros b. by rewrite decide_False by apply not_elem_of_nil.
  - apply NoDup_cons in ND as [Ha ND].
    destruct (HL a) as (vs & E & H1 & H2 & H3); [by left|].
    assert (Es : stack st0 a = vs) by (unfold stack; by rewrite E).
    destruct (vs_pop_accept_spec v vs Hv H1 H2 H3) as (vs' & Ep & _).
    simpl. unfold sbind at 1, sget at 1. rewrite E. unfold sbind, sget, sopt, smodify, sret.
    rewrite Ev, Ep. cbn [dirty_ version_ set_current_].
    set (st1 := set_current_ (<[a := vs']> (current_ st0)) st0).
    change (dirty_ st1) with (dirty_ st0). fold (mark a st1).
    destruct (IH (mark a st1)) as (m & Hrun & Hm); [|done| |].
    + unfold mark. simpl. by destruct (dirty_ st0).
    + intros b Hb. assert (current_ (mark a st1) = current_ st1) as ->
        by (unfold mark; by destruct (dirty_ st1)).
      unfold st1. simpl. rewrite lookup_insert_ne by (by intros ->). apply HL. by right.
    + exists m. split.
      * transitivity (pop_accept_loop l (mark a st1)); [done|]. rewrite Hrun. f_equal.
        unfold mark, mark_all. change (dirty_ st1) with (dirty_ st0).
        destruct (dirty_ st0) as [|d rest] eqn:E0; simpl; rewrite ?E0; [done|].
        by rewrite union_assoc_L.
      * intros b. specialize (Hm b).
        assert (Hcur : current_ (mark a st1) = <[a := vs']> (current_ st0))
          by (unfold mark; by destruct (dirty_ st1)).
        destruct (decide (b = a)) as [->|Hab].
        -- rewrite decide_True by (by left). rewrite decide_False in Hm by done.
           by rewrite Hm, Hcur, lookup_insert_eq, Es, Ep.
        -- assert (Hsb : stack (mark a st1) b = stack st0 b).
           { unfold stack. by rewrite Hcur, lookup_insert_ne. }
           rewrite Hsb, Hcur, lookup_insert_ne in Hm by done.
           destruct (decide (b ∈ l)); [by rewrite decide_True by (by right)|].
           rewrite decide_False; [done|]. by intros [?|?]%elem_of_cons.
Qed.

(** What accepting the frame does to the stack of one account. *)
Definition accepted (vs vs' : VersionStack AccountState) : Prop :=
  descending vs' /\ vs_bounded (v - 1) vs' /\ vs_recent vs' = vs_recent vs /\
  (vs = [] <-> vs' = []) /\
  (forall j, (j < v - 1)%nat -> below j vs' = below j vs) /\
  (has_version (v - 1) vs' <-> has_version (v - 1) vs \/ vs_version vs = Some v) /\
  (vs_version vs = Some v \/ vs_version vs = Some (v - 1)%nat ->
     vs_version vs' = Some (v - 1)%nat) /\
  (forall x, x ∈ vs'.*2 -> x ∈ vs.*2).

Lemma has_version_head_version {T} (vs : VersionStack T) u :
  vs_version vs = Some u -> has_version u vs.
Proof. destruct vs as [|[u' x] rest]; [done|]. intros [= ->]. exists x. by left. Qed.

Lemma accepted_dirty a vs' :
  vs_version (stack st a) = Some v -> vs_pop_accept v (stack st a) = Some vs' ->
  accepted (stack st a) vs'.
Proof.
  intros Hs Hp. assert (Hne : stack st a <> []) by (intros E; by rewrite E in Hs).
  destruct (stack_wf a Hne) as (H1 & H2 & _).
  destruct (vs_pop_accept_spec v _ Hv Hne H1 H2) as (vs1 & Hp1 & Q1 & Q2 & Q3 & Q4 & Q5 & Q6 & _).
  rewrite Hp in Hp1. injection Hp1 as <-. specialize (Q6 Hs).
  split_and!; try done; [|intros x; by apply (vs_pop_accept_values v)].
  split; [auto|]. intros _. by apply has_version_head_version.
Qed.

Lemma accepted_clean a :
  vs_version (stack st a) <> Some v -> accepted (stack st a) (stack st a).
Proof.
  intros Hs. assert (Hb : vs_bounded (v - 1) (stack st a)).
  { intros y Hy. destruct (stack_wf a) as (_ & H2 & _); [by intros E; rewrite E in Hy|].
    specialize (H2 y Hy). assert (y.1 <> v); [|lia]. intros E. apply Hs. unfold vs_version.
    rewrite Hy. simpl. by rewrite E. }
  split_and!; try done; [apply stack_desc| |].
  - split; [auto|]. by intros [?|?].
  - by intros [?|?].
Qed.

(** Accepting a frame: its values become those of the enclosing frame. *)
Lemma run_pop_accept :
  exists st', pop_accept st = (ROk tt, st') /\ wf st' /\ version_ st' = (v - 1)%nat /\
    tail (dirty_ st') = tail (tail (dirty_ st)) /\ same_rest st st' /\
    (forall a, accepted (stack st a) (stack st' a)) /\
    vs_recent (logs_ st') = vs_recent (logs_ st) /\
    (forall j, (j < v - 1)%nat -> below j (logs_ st') = below j (logs_ st)).
Proof.
  destruct head_dirty as (d & rest & E & Hl). unfold pop_accept, sbind, sget, sassert, smodify.
  simpl. rewrite (proj2 (Nat.eqb_neq v 0) Hv). cbn [negb].
  rewrite (wf_frames _ Hwf), Nat.eqb_refl. unfold sret. rewrite E. simpl. rewrite E. simpl.
  set (st0 := set_frame v rest st).
  destruct (run_pop_accept_loop (elements d) st0) as (m & -> & Hm);
    [done|apply NoDup_elements|by apply (dirty_listed d rest)|].
  destruct (wf_logs _ Hwf) as (L1 & L2 & L3).
  destruct (vs_pop_accept_spec v _ Hv (has_version_nonempty _ _ L1) L2 L3)
    as (lg & Elg & G1 & G2 & G3 & G4 & G5 & G6 & G7).
  rewrite Elg. simpl. set (st' := set_frame _ _ _). exists st'.
  assert (Hacc : forall a, accepted (stack st a) (stack st' a) /\
    (is_Some (current_ st' !! a) -> stack st a <> [])).
  { intros a. specialize (Hm a). change (stack st0 a) with (stack st a) in Hm.
    destruct (decide (a ∈ elements d)) as [Hd|Hd].
    - apply elem_of_elements, (dirty_head a d rest E) in Hd.
      assert (Hne : stack st a <> []) by (intros Es; by rewrite Es in Hd).
      destruct (stack_wf a Hne) as (H1 & H2 & _).
      destruct (vs_pop_accept_spec v _ Hv Hne H1 H2) as (vs' & Hp & _). rewrite Hp in Hm.
      assert (Es' : stack st' a = vs') by (unfold stack, st'; simpl; by rewrite Hm).
      rewrite Es'. split; [by apply accepted_dirty|done].
    - assert (Es' : stack st' a = stack st a) by (unfold stack, st'; simpl; by rewrite Hm).
      rewrite Es'. split.
      + apply accepted_clean. intros Hs. apply Hd, elem_of_elements. by apply (dirty_head a d rest E).
      + change (current_ st' !! a) with (m !! a). rewrite Hm. intros [vs Hvs].
        change (current_ st0 !! a) with (current_ st !! a) in Hvs.
        unfold stack. rewrite Hvs. by destruct (wf_stack _ Hwf a vs Hvs). }
  assert (Hdt : dirty_ st' = mark_all (elements d) rest) by done.
  split_and!; try done; [|by rewrite Hdt; destruct rest|by intros a; apply Hacc].
  split.
  - rewrite Hdt. change (version_ st') with (v - 1)%nat. by destruct rest.
  - intros a vs Hvs. destruct (Hacc a) as [(A1 & A2 & _ & A4 & _) Hne].
    rewrite Hvs in Hne. assert (Es : stack st' a = vs) by (unfold stack; by rewrite Hvs).
    rewrite Es in *. split_and!; try done. intros ->. apply Hne; [eauto|]. by apply A4.
  - intros a u Hu. change (version_ st') with (v - 1)%nat in Hu.
    destruct (Hacc a) as [(A1 & A2 & _ & _ & A5 & A6 & _) _].
    pose proof (wf_dirty _ Hwf a u ltac:(lia)) as Hd. unfold dirty_at in *.
    rewrite Hdt. change (version_ st') with (v - 1)%nat. rewrite E in Hd.
    replace (v - u)%nat with (S (v - 1 - u)) in Hd by lia. simpl in Hd.
    destruct rest as [|d0 rest]; simpl in Hl; [lia|]. simpl in *.
    destruct (v - 1 - u)%nat as [|k] eqn:Ek; simpl in *.
    + assert (u = v - 1)%nat as -> by lia. rewrite A6, <- Hd, <- (dirty_head a d (d0 :: rest) E).
      by rewrite elem_of_union, elem_of_list_to_set, elem_of_elements.
    + rewrite Hd, <- (has_version_below (stack st' a) u u), A5 by (done || lia).
      rewrite has_version_below by (done || apply stack_desc). done.
  - change (logs_ st') with lg. change (version_ st') with (v - 1)%nat. split_and!; try done.
    destruct (decide (v = 1)%nat) as [E1|E1].
    + destruct (decide (vs_version (logs_ st) = Some v)) as [Ev|Ev].
      * apply has_version_head_version. rewrite (G6 Ev). f_equal. lia.
      * by rewrite (G7 Ev).
    + rewrite <- (has_version_below lg 0 0), G5 by (done || lia). by apply has_version_below.
  - apply (wf_rb _ Hwf).
Qed.
End pop.

(** ** Nested calls *)
Inductive op :=
| OpGetBalance (a : address) | OpGetNonce (a : address) | OpGetStorage (a : address) (k : bytes32)
| OpSetNonce (a : address) (n : u64)
| OpAddToBalance (a : address) (d : u256) | OpSubtractFromBalance (a : address) (d : u256)
| OpSetStorage (a : address) (k v : bytes32) | OpSetTransientStorage (a : address) (k v : bytes32)
| OpTouch (a : address) | OpAccessAccount (a : address) | OpAccessStorage (a : address) (k : bytes32)
| OpSelfdestruct (cancun : bool) (a beneficiary : address)
| OpSetCode (keccak : byte_string -> bytes32) (a : address) (c : byte_string)
| OpCreateContract (a : address) | OpCreateAccountNoRollback (a : address)
| OpSetToStateIncarnation (a : address)
| OpRecordDebit (a : address) (d : u256)
| OpStoreLog (l : Log).

(** What a frame does: operations and sub-calls, each accepted or rejected.
    [item_ind_nested] is the induction principle with the nested list. *)
Set Warnings "-register-all".
Inductive item :=
| Do (o : op)
| Call (body : list item) (accept : bool).

Lemma item_ind_nested (P : item -> Prop) :
  (forall o, P (Do o)) -> (forall body b, Forall P body -> P (Call body b)) -> forall i, P i.
Proof.
  intros HDo HCall. fix IH 1. intros [o|body b]; [apply HDo|]. apply HCall.
  induction body as [|i body IHb]; constructor; [apply IH|exact IHb].
Qed.

Lemma current_ext st st' :
  wf st -> wf st' -> (forall a, stack st' a = stack st a) -> current_ st' = current_ st.
Proof.
  intros W W' H. apply map_eq. intros a. specialize (H a). unfold stack in H.
  destruct (current_ st' !! a) as [vs'|] eqn:E', (current_ st !! a) as [vs|] eqn:E;
    simpl in H; subst; try done.
  - by destruct (wf_stack _ W' a [] E').
  - by destruct (wf_stack _ W a [] E).
Qed.

(** A frame pushed on [st] and run to [st2]. *)
Section frame.
Context (bs : BlockReads) (st st2 : State) (Hwf : wf st).
Abbreviation st1 := (set_frame (version_ st + 1) (∅ :: dirty_ st) st).
Context (Hl : local st1 st2).

Lemma frame_version : version_ st2 = (version_ st + 1)%nat.
Proof using Hl. by rewrite (local_version _ _ Hl). Qed.

Lemma frame_below a : below (version_ st) (stack st2 a) = stack st a.
Proof using Hl Hwf.
  rewrite (local_below _ _ Hl) by (simpl; lia). apply below_head.
  change (stack st1 a) with (stack st a). destruct (stack st a) eqn:E; [done|].
  rewrite <- E. apply (stack_wf st Hwf a). by rewrite E.
Qed.

Lemma frame_reject :
  exists st', pop_reject bs st2 = (ROk tt, st') /\ wf st' /\ current_ st' = current_ st /\
    logs_ st' = logs_ st /\ version_ st' = version_ st /\ dirty_ st' = dirty_ st.
Proof using Hl Hwf.
  pose proof (local_wf _ _ Hl) as Hwf2.
  destruct (run_pop_reject bs st2 Hwf2) as (st' & Hrun & Hwf' & Hv & Hd & Hs & Hlg);
    [rewrite frame_version; lia|].
  replace (version_ st2 - 1)%nat with (version_ st) in * by (rewrite frame_version; lia).
  exists st'. split_and!; try done.
  - apply current_ext; try done. intros a. by rewrite Hs, frame_below.
  - rewrite Hlg, (local_logs _ _ Hl) by (simpl; lia). apply below_head, (wf_logs _ Hwf).
  - by rewrite Hd, (local_dirty _ _ Hl).
Qed.

Lemma frame_accept :
  exists st', pop_accept st2 = (ROk tt, st') /\ local st st' /\
    (forall a, recent st' a = recent st2 a) /\
    vs_recent (logs_ st') = vs_recent (logs_ st2).
Proof using Hl Hwf.
  pose proof (local_wf _ _ Hl) as Hwf2.
  destruct (run_pop_accept st2 Hwf2) as (st' & Hrun & Hwf' & Hv & Hd & _ & Ha & Hr & Hlg);
    [rewrite frame_version; lia|]. unfold accepted in Ha.
  replace (version_ st2 - 1)%nat with (version_ st) in * by (rewrite frame_version; lia).
  exists st'. split_and!; try done; [|by intros a; apply Ha].
  split; try done.
  - by rewrite Hd, (local_dirty _ _ Hl).
  - intros j a Hj. destruct (Ha a) as (_ & _ & _ & _ & -> & _); [|done].
    rewrite <- (below_below j (version_ st)) by lia. by rewrite frame_below.
  - intros j Hj. rewrite Hlg by done. rewrite (local_logs _ _ Hl) by (simpl; lia). done.
  - intros a Ho. unfold owned in *. rewrite Hv. destruct (Ha a) as (_ & _ & _ & _ & _ & _ & Hx & _).
    apply Hx. pose proof (frame_below a) as Hb.
    destruct (stack st2 a) as [|[u x] vs] eqn:E; simpl in Hb.
    + rewrite <- Hb in Ho. done.
    + destruct (Nat.leb_spec u (version_ st)) as [Hu|Hu].
      * right. rewrite <- Ho, <- Hb. done.
      * left. destruct (stack_wf st2 Hwf2 a) as (_ & Hbd & _); [by rewrite E|].
        rewrite E in Hbd. specialize (Hbd _ eq_refl). simpl in Hbd. unfold vs_version. simpl.
        f_equal. rewrite frame_version in *. lia.
Qed.
End frame.

Section exec.
Context (bs : BlockReads).
#[local] Open Scope sm_scope.

Definition ignore {A} (m : SM A) : SM unit := m ;; sret tt.

Definition exec_op (o : op) : SM unit :=
  match o with
  | OpGetBalance a => ignore (get_balance bs a)
  | OpGetNonce a => ignore (get_nonce bs a)
  | OpGetStorage a k => ignore (get_storage bs a k)
  | OpSetNonce a n => set_nonce bs a n
  | OpAddToBalance a d => add_to_balance bs a d
  | OpSubtractFromBalance a d => subtract_from_balance bs a d
  | OpSetStorage a k v => ignore (set_storage bs a k v)
  | OpSetTransientStorage a k v => set_transient_storage bs a k v
  | OpTouch a => touch bs a
  | OpAccessAccount a => ignore (access_account bs a)
  | OpAccessStorage a k => ignore (access_storage bs a k)
  | OpSelfdestruct c a b => ignore (selfdestruct bs c a b)
  | OpSetCode h a c => set_code bs h a c
  | OpCreateContract a => create_contract bs a
  | OpCreateAccountNoRollback a => create_account_no_rollback bs a
  | OpSetToStateIncarnation a => set_to_state_incarnation bs a
  | OpRecordDebit a d => ignore (record_balance_constraint_for_debit bs a d)
  | OpStoreLog l => store_log l
  end.

Fixpoint exec_item (i : item) : SM unit :=
  match i with
  | Do o => exec_op o
  | Call body accept =>
      push ;;
      (fix go (l : list item) : SM unit :=
         match l with [] => sret tt | i :: l' => exec_item i ;; go l' end) body ;;
      if accept then pop_accept else pop_reject bs
  end.

Fixpoint exec_items (l : list item) : SM unit :=
  match l with [] => sret tt | i :: l' => exec_item i ;; exec_items l' end.

Lemma exec_call body accept :
  exec_item (Call body accept) =
  (push ;; exec_items body ;; if accept then pop_accept else pop_reject bs).
Proof. done. Qed.

Lemma stays_op o : stays (exec_op o).
Proof.
  destruct o; simpl; unfold ignore; stays;
    auto using stays_get_balance, stays_get_nonce, stays_get_storage, stays_set_nonce,
      stays_add_to_balance, stays_subtract_from_balance, stays_set_storage, stays_set_transient,
      stays_touch, stays_access_account, stays_access_storage, stays_selfdestruct,
      stays_set_code_, stays_create_contract, stays_create_no_rollback, stays_set_incarnation,
      stays_record_debit, stays_store_log.
Qed.

Lemma items_local l st st' :
  Forall (fun i => forall st st', wf st -> exec_item i st = (ROk tt, st') -> local st st') l ->
  wf st -> exec_items l st = (ROk tt, st') -> local st st'.
Proof.
  intros Hl. revert st. induction Hl as [|i l Hi Hl IH]; intros st Hwf; simpl.
  - intros [= <-]. by apply local_refl.
  - unfold sbind. destruct (exec_item i st) as [[[]|[]|m|] st1] eqn:E; try done.
    intros Hrun. pose proof (Hi st st1 Hwf E) as H1.
    eapply local_trans; [exact H1|]. apply IH; [apply H1|done].
Qed.

Lemma exec_local i st st' : wf st -> exec_item i st = (ROk tt, st') -> local st st'.
Proof.
  revert st st'. induction i as [o|body b IH] using item_ind_nested; intros st st' Hwf.
  - intros E. pose proof (stays_op o st Hwf) as H. simpl in E. by rewrite E in H.
  - rewrite exec_call. unfold sbind at 1. destruct (run_push st Hwf) as (st1 & -> & W1 & E1).
    unfold sbind. destruct (exec_items body st1) as [[[]|[]|m|] st2] eqn:E; try done.
    pose proof (items_local body st1 st2 IH W1 E) as H12. rewrite E1 in H12. destruct b.
    + destruct (frame_accept st st2 Hwf H12) as (st3 & -> & Hl & _). by intros [= <-].
    + destruct (frame_reject bs st st2 Hwf H12) as (st3 & -> & W3 & Hc & Hg & Hv & Hd).
      intros [= <-]. split; try done.
      * by rewrite Hd.
      * intros j a _. unfold stack. by rewrite Hc.
      * intros j _. by rewrite Hg.
      * intros a. unfold owned, stack. by rewrite Hc, Hv.
Qed.

Lemma frame_run st body st2 :
  wf st -> (push ;; exec_items body) st = (ROk tt, st2) ->
  local (set_frame (version_ st + 1) (∅ :: dirty_ st) st) st2.
Proof.
  intros Hwf. unfold sbind. destruct (run_push st Hwf) as (st1 & -> & W1 & E1).
  intros E. rewrite <- E1. apply (items_local body); try done.
  apply Forall_forall. intros i _. apply exec_local.
Qed.
End exec.

Lemma wf_new_state inc relaxed : wf (new_state inc relaxed).
Proof.
  split; simpl; try done.
  - intros a u Hu. lia.
  - split; [exists []; by left|]. split; [by split|by intros y [= <-]].
Qed.

(** ** Theorems *)

(** C7: rejecting a call undoes it.  Whatever a call frame does on a well-formed
    state, nested calls included, rejecting the frame succeeds and restores the
    current accounts, the logs, the version and the dirty sets exactly; only
    the cache of original reads may have grown. *)
Theorem reject_restores bs (st st2 : State) body :
  wf st -> sbind push (fun _ => exec_items bs body) st = (ROk tt, st2) ->
  exists st', pop_reject bs st2 = (ROk tt, st') /\ wf st' /\ current_ st' = current_ st /\
    logs_ st' = logs_ st /\ version_ st' = version_ st /\ dirty_ st' = dirty_ st.
Proof.
  intros Hwf Hrun. apply frame_reject; [done|]. by apply (frame_run bs st body).
Qed.

(** Accepting a call keeps it.  Accepting the frame succeeds; every account
    and the logs then read as at the end of the call; and what the enclosing
    frames would restore is unchanged. *)
Theorem accept_keeps bs (st st2 : State) body :
  wf st -> sbind push (fun _ => exec_items bs body) st = (ROk tt, st2) ->
  exists st', pop_accept st2 = (ROk tt, st') /\ wf st' /\ version_ st' = version_ st /\
    (forall a, recent st' a = recent st2 a) /\ vs_recent (logs_ st') = vs_recent (logs_ st2) /\
    (forall j a, (j < version_ st)%nat -> below j (stack st' a) = below j (stack st a)) /\
    (forall j, (j < version_ st)%nat -> below j (logs_ st') = below j (logs_ st)).
Proof.
  intros Hwf Hrun. destruct (frame_accept st st2 Hwf) as (st' & E & Hl & Hr & Hg).
  - by apply (frame_run bs st body).
  - exists st'. split_and!; try done; apply Hl.
Qed.

(** Well-formedness is an invariant: a fresh state has it, and any sequence
    of operations and nested calls that returns keeps it and leaves the frames
    below untouched. *)
Theorem frames_local bs inc relaxed items (st st' : State) :
  wf (new_state inc relaxed) /\
  (wf st -> exec_items bs items st = (ROk tt, st') -> local st st').
Proof.
  split; [apply wf_new_state|]. intros Hwf. apply items_local; [|done].
  apply Forall_forall. intros i _. apply exec_local.
Qed.

(** A concrete call: credit an account, write its storage in a nested call that
    is accepted and in one that is rejected, and log. *)
Definition demo_reads : BlockReads :=
  mk_reads (fun a => if a =? 1 then Some (new_account (mk_incarnation #0 #0)) else None)
    (fun _ _ k => k) (fun _ => []).

Definition demo_body : list item := [
  Do (OpAddToBalance #1 #5);
  Call [Do (OpSetStorage #1 #2 #3); Do (OpStoreLog (mk_log #1 [] []))] true;
  Call [Do (OpSetStorage #1 #2 #4); Do (OpAddToBalance #7 #1)] false].

Definition demo_state : State := new_state (mk_incarnation #1 #1) false.
Definition demo_end : State := (sbind push (fun _ => exec_items demo_reads demo_body) demo_state).2.

Lemma run_ok {A} (m : SM A) st a : (m st).1 = ROk a -> m st = (ROk a, (m st).2).
Proof. destruct (m st). simpl. by intros ->. Qed.

Lemma demo_runs : sbind push (fun _ => exec_items demo_reads demo_body) demo_state = (ROk tt, demo_end).
Proof. apply (run_ok (sbind push (fun _ => exec_items demo_reads demo_body))). vm_compute. reflexivity. Qed.

Lemma reject_restores_witness :
  exists st', pop_reject demo_reads demo_end = (ROk tt, st') /\ wf st' /\ current_ st' = current_ demo_state /\
    logs_ st' = logs_ demo_state /\ version_ st' = version_ demo_state /\
    dirty_ st' = dirty_ demo_state.
Proof. exact (reject_restores demo_reads demo_state demo_end demo_body (wf_new_state _ _) demo_runs). Defined.

Lemma accept_keeps_witness :
  exists st', pop_accept demo_end = (ROk tt, st') /\ wf st' /\ version_ st' = version_ demo_state /\
    (forall a, recent st' a = recent demo_end a) /\
    vs_recent (logs_ st') = vs_recent (logs_ demo_end) /\
    (forall j a, (j < version_ demo_state)%nat -> below j (stack st' a) = below j (stack demo_state a)) /\
    (forall j, (j < version_ demo_state)%nat -> below j (logs_ st') = below j (logs_ demo_state)).
Proof. exact (accept_keeps demo_reads demo_state demo_end demo_body (wf_new_state _ _) demo_runs). Defined.

Lemma frames_local_witness :
  local demo_state (exec_items demo_reads [Do (OpAddToBalance #1 #5); Call demo_body true] demo_state).2.
Proof.
  apply (proj2 (frames_local demo_reads (mk_incarnation #1 #1) false
    [Do (OpAddToBalance #1 #5); Call demo_body true] demo_state _) (wf_new_state _ _)).
  apply (run_ok (exec_items demo_reads [Do (OpAddToBalance #1 #5); Call demo_body true])).
  vm_compute. reflexivity.
Defined.
