(* ===== verification/StateRefine.v ===== *)
(** * The transaction state refines the flat world

    Contract code is written against seven operations (Prog.v).  [handle_state]
    runs them on the versioned [State] of State3.v, [handle_world] on the flat
    [World]; [refines] relates the two, and [refine_run] shows that a contract
    that keeps to its own storage cannot tell them apart.  So what is proved of
    the contracts over [World] holds of their execution in a transaction. *)
From S2P Require Import Prelude Prog Storage Abi VersionStack State3 StateHooks StateFrames.

Section refine.
Context (bs : BlockReads) (ca : address).

(** The operations on the state and on the call tracer. *)
Definition on_state {A} (m : SM A) : State * list Log -> res Empty_set A * (State * list Log) :=
  fun s => let '(r, st) := m s.1 in (r, (st, s.2)).

Definition handle_state : handler (State * list Log) := fun X op s =>
  match op in stateE X return res Empty_set X * (State * list Log) with
  | GetStorage a k => on_state (get_storage bs a k) s
  | SetStorage a k v => on_state (ignore (set_storage bs a k v)) s
  | GetBalance a => on_state (get_balance bs a) s
  | AddToBalance a delta => on_state (add_to_balance bs a delta) s
  | SubtractFromBalance a delta => on_state (subtract_from_balance bs a delta) s
  | StoreLog l => on_state (store_log l) s
  | OnLog l => (ROk tt, (s.1, s.2 ++ [l]))
  end.

(** ** Views *)
#[local] Abbreviation orig_view := (orig_view bs).

Definition view (st : State) (a : address) : AccountState :=
  default (orig_view st a) (recent st a).

Definition obs_balance (st : State) (a : address) : u256 :=
  from_option acct_balance #0 (account_ (view st a)).

(** What a storage read finds, from the account's view and its original. *)
Definition lookup_storage (a : address) (x o : AccountState) (k : bytes32) : bytes32 :=
  match storage_ x !! k with
  | Some v => v
  | None =>
      match account_ x, account_ o with
      | Some acct, Some orig =>
          if inc_eqb (acct_incarnation acct) (acct_incarnation orig)
          then default (read_storage bs a (acct_incarnation acct) k) (storage_ o !! k)
          else #0
      | _, _ => #0
      end
  end.

Definition obs_storage (st : State) (a : address) (k : bytes32) : bytes32 :=
  lookup_storage a (view st a) (orig_view st a) k.

Record refines (s : State * list Log) (w : World) : Prop := mk_refines {
  ref_wf : wf s.1;
  ref_balance : forall a, obs_balance s.1 a = balance w a;
  ref_loaded : is_Some (original_ s.1 !! ca);
  ref_exists : is_Some (account_ (view s.1 ca));
  ref_storage : forall k, obs_storage s.1 ca k = slot w ca k;
  ref_logs : vs_recent (logs_ s.1) = Some (w_logs w);
  ref_traced : s.2 = w_traced w;
}.

Lemma inc_eqb_refl i : inc_eqb i i = true.
Proof. unfold inc_eqb. by rewrite !weqb_refl. Qed.

Lemma view_same st st' a :
  current_ st' = current_ st -> orig_view st' a = orig_view st a -> view st' a = view st a.
Proof. intros E1 E2. unfold view, recent, stack. by rewrite E1, E2. Qed.

(** Taking an account over for writing changes no view either. *)
Lemma current_load a st :
  wf st ->
  exists st', current_account_state bs a st = (ROk (view st a), st') /\ wf st' /\ owned a st' /\
    logs_ st' = logs_ st /\ version_ st' = version_ st /\ incarnation_ st' = incarnation_ st /\
    is_Some (current_ st' !! a) /\
    (forall b, b <> a -> current_ st' !! b = current_ st !! b) /\
    (forall b, is_Some (original_ st !! b) -> is_Some (original_ st' !! b)) /\
    (forall b, orig_view st' b = orig_view st b) /\ (forall b, view st' b = view st b).
Proof.
  intros Hwf. destruct (run_current_account_state bs a st Hwf) as (x & st' & Hrun & Hl & Ho & Hr).
  assert (Hm : forall s, current_ (mark a s) = current_ s /\ original_ (mark a s) = original_ s /\
    logs_ (mark a s) = logs_ s /\ version_ (mark a s) = version_ s /\
    incarnation_ (mark a s) = incarnation_ s)
    by (intros s; unfold mark; by destruct (dirty_ s)).
  pose proof Hrun as Hrun'.
  unfold current_account_state, sbind, sget, smodify, sret in Hrun.
  assert (Hst : exists st0 vs, (forall b, orig_view st0 b = orig_view st b) /\
    (forall b, is_Some (original_ st !! b) -> is_Some (original_ st0 !! b)) /\
    current_ st0 = current_ st /\ logs_ st0 = logs_ st /\ incarnation_ st0 = incarnation_ st /\
    st' = set_current_ (<[a := vs]> (current_ (mark a st0))) (mark a st0) /\
    x = view st a).
  { destruct (current_ st !! a) as [vs|] eqn:E.
    - fold (mark a st) in Hrun. destruct (Hm st) as (_ & _ & _ & Ev & _). rewrite Ev in Hrun.
      destruct (wf_stack _ Hwf a vs E) as (Hne & Hd & Hb).
      destruct (vs_current_spec _ _ Hne Hd Hb) as (vs' & Ec & _ & _ & Hrec & _).
      rewrite Ec in Hrun. simpl in Hrun. exists st, vs'. split_and!; try done.
      + destruct (vs_recent vs'); [|done]. by injection Hrun.
      + unfold view, recent, stack. rewrite E. simpl. rewrite <- Hrec.
        destruct (vs_recent vs'); [|done]. by injection Hrun.
    - destruct (original_load bs a st) as (o & st0 & Eo & Eos & Eoa & _ & Hc & _).
      rewrite Eo in Hrun. fold (mark a st0) in Hrun.
      destruct (Hm st0) as (_ & _ & _ & Ev0 & _). rewrite Ev0 in Hrun. simpl in Hrun.
      rewrite Nat.ltb_irrefl in Hrun. simpl in Hrun. injection Hrun as <- <-.
      exists st0, (vs_new (o_state o) (version_ st0)). split_and!; try done; try apply Hc.
      + unfold view, recent, stack. rewrite E. done. }
  destruct Hst as (st0 & vs & V1 & V2 & V3 & V4 & V5 & Est & ->).
  destruct (Hm st0) as (M1 & M2 & M3 & M4 & M5).
  assert (Hov : forall b, orig_view st' b = orig_view st b).
  { intros b. rewrite <- V1, Est. unfold orig_view. simpl. by rewrite M2. }
  exists st'. split_and!; try done.
  - apply Hl.
  - rewrite Est. simpl. by rewrite M3.
  - apply Hl.
  - rewrite Est. simpl. by rewrite M5.
  - rewrite Est. simpl. rewrite lookup_insert_eq. eauto.
  - intros b Hb. rewrite Est. simpl. rewrite lookup_insert_ne by done. by rewrite M1, V3.
  - intros b Hb. rewrite Est. simpl. rewrite M2. by apply V2.
  - intros b. destruct (decide (b = a)) as [->|Hb].
    + unfold view at 1. rewrite Hr. done.
    + unfold view, recent, stack. rewrite Hov. rewrite Est. simpl.
      rewrite lookup_insert_ne by done. by rewrite M1, V3.
Qed.

(** Writing through the reference changes this account's view only. *)
Lemma current_store a x st :
  wf st -> owned a st ->
  exists st', set_current a x st = (ROk tt, st') /\ wf st' /\ owned a st' /\
    logs_ st' = logs_ st /\ version_ st' = version_ st /\ original_ st' = original_ st /\
    incarnation_ st' = incarnation_ st /\
    (forall b, view st' b = if decide (b = a) then x else view st b).
Proof.
  intros Hwf Ho. pose proof (local_set_current st a x Hwf Ho) as Hl.
  eexists. split; [done|]. split_and!; try done; [apply Hl|by apply Hl|].
  intros b. unfold view, recent, stack. simpl.
  assert (Hs : exists vs, current_ st !! a = Some vs /\ vs <> []).
  { unfold owned, stack in Ho. destruct (current_ st !! a) as [vs|] eqn:E; [|done].
    exists vs. split; [done|]. by intros ->. }
  destruct Hs as (vs & E & Hne). case_decide as Eb.
  - subst b. rewrite lookup_alter_eq, E. simpl. by destruct vs as [|[]].
  - by rewrite lookup_alter_ne.
Qed.

(** Reading through the original account's cache. *)
Lemma read_original_spec a o inc k st :
  original_ st !! a = Some o ->
  exists st' m', read_original_storage bs a o inc k st =
      (ROk (default (read_storage bs a inc k) (storage_ (o_state o) !! k)), st') /\
    original_ st' !! a = Some (with_o_state (with_storage m' (o_state o)) o) /\
    m' !! k = Some (default (read_storage bs a inc k) (storage_ (o_state o) !! k)) /\
    (forall k', k' <> k -> m' !! k' = storage_ (o_state o) !! k') /\
    (forall b, b <> a -> original_ st' !! b = original_ st !! b) /\
    current_ st' = current_ st /\ logs_ st' = logs_ st /\ version_ st' = version_ st /\
    incarnation_ st' = incarnation_ st /\ dirty_ st' = dirty_ st /\ rb_ st' = rb_ st.
Proof.
  intros Ho. unfold read_original_storage. destruct (storage_ (o_state o) !! k) as [v|] eqn:E.
  - exists st, (storage_ (o_state o)). simpl. split_and!; try done.
    rewrite Ho. by destruct o as [[] ? ?].
  - unfold sbind, set_original, smodify, sret. simpl.
    eexists _, (<[k := read_storage bs a inc k]> (storage_ (o_state o))).
    split; [done|]. simpl.
    split_and!; try done.
    + by rewrite lookup_insert_eq.
    + by rewrite lookup_insert_eq.
    + intros k' Hk. by rewrite lookup_insert_ne.
    + intros b Hb. by rewrite lookup_insert_ne.
Qed.

Lemma wf_same st st' :
  wf st -> current_ st' = current_ st -> logs_ st' = logs_ st -> version_ st' = version_ st ->
  dirty_ st' = dirty_ st -> rb_ st' = rb_ st -> wf st'.
Proof.
  intros [W1 W2 W3 W4 W5] E1 E2 E3 E4 E5. unfold dirty_at, stack in *.
  split; unfold dirty_at, stack in *; rewrite ?E1, ?E2, ?E3, ?E4, ?E5; done.
Qed.

(** A cached read changes nothing the contract can observe. *)
Lemma cached_obs st st' o m' acct k :
  original_ st !! ca = Some o -> account_ (view st ca) = Some acct ->
  original_ st' !! ca = Some (with_o_state (with_storage m' (o_state o)) o) ->
  m' !! k =
    Some (default (read_storage bs ca (acct_incarnation acct) k) (storage_ (o_state o) !! k)) ->
  (forall k', k' <> k -> m' !! k' = storage_ (o_state o) !! k') ->
  (forall b, b <> ca -> original_ st' !! b = original_ st !! b) ->
  current_ st' = current_ st ->
  (forall a, account_ (view st' a) = account_ (view st a)) /\
  (forall k', obs_storage st' ca k' = obs_storage st ca k').
Proof.
  intros Ho Hacct Ho' Hk Hne Hoth Hcur.
  assert (Eo : orig_view st ca = o_state o) by (unfold orig_view; by rewrite Ho).
  assert (Eo' : orig_view st' ca = with_storage m' (o_state o))
    by (unfold orig_view; by rewrite Ho').
  split.
  - intros a. destruct (decide (a = ca)) as [->|Ha].
    + unfold view, recent, stack. rewrite Hcur, Eo, Eo'. by destruct (vs_recent _).
    + f_equal. apply view_same; [done|]. unfold orig_view. by rewrite Hoth.
  - intros k'. unfold obs_storage. rewrite Eo, Eo'. revert Hacct.
    unfold view. rewrite Eo, Eo'.
    assert (Er : recent st' ca = recent st ca) by (unfold recent, stack; by rewrite Hcur).
    rewrite Er. destruct (recent st ca) as [x|]; simpl; intros Hacct; unfold lookup_storage; simpl.
    + destruct (storage_ x !! k'); [done|]. rewrite Hacct.
      destruct (account_ (o_state o)); [|done].
      destruct (inc_eqb _ _); [|done]. destruct (decide (k' = k)) as [->|Hk']; [by rewrite Hk|].
      by rewrite Hne.
    + destruct (decide (k' = k)) as [->|Hk'].
      * rewrite Hk. destruct (storage_ (o_state o) !! k); [done|].
        by rewrite Hacct, inc_eqb_refl.
      * rewrite Hne by done. destruct (storage_ (o_state o) !! k') eqn:E; [done|].
        rewrite Hacct, inc_eqb_refl. by rewrite ?E.
Qed.

(** ** The operations *)
Definition keeps_views (st st' : State) : Prop :=
  wf st' /\ (forall a, account_ (view st' a) = account_ (view st a)) /\
  (is_Some (original_ st !! ca) -> is_Some (original_ st' !! ca)) /\
  (forall k, obs_storage st' ca k = obs_storage st ca k) /\ logs_ st' = logs_ st.

Lemma keeps_refines st st' tr w :
  refines (st, tr) w -> keeps_views st st' -> refines (st', tr) w.
Proof.
  intros [R1 R2 R3 R4 R5 R6 R7] (K1 & K2 & K3 & K4 & K5). split; simpl in *; auto.
  - intros a. unfold obs_balance. rewrite K2. apply R2.
  - by rewrite K2.
  - intros k. by rewrite K4.
  - by rewrite K5.
Qed.

Lemma get_storage_spec st k :
  wf st -> is_Some (original_ st !! ca) -> is_Some (account_ (view st ca)) ->
  exists st', get_storage bs ca k st = (ROk (obs_storage st ca k), st') /\ keeps_views st st'.
Proof.
  intros Hwf [o Ho] [acct Hacct].
  assert (Eo : orig_view st ca = o_state o) by (unfold orig_view; by rewrite Ho).
  destruct (read_original_spec ca o (acct_incarnation acct) k st Ho)
    as (st' & m' & Hrun & Ho' & Hk & Hne & Hoth & Hcur & Hlog & Hver & Hinc & Hdir & Hrb).
  destruct (cached_obs st st' o m' acct k) as [V1 V2]; try done.
  assert (Hkeep : keeps_views st st').
  { split_and!; [by apply (wf_same st)|done|intros _; rewrite Ho'; eauto|done|done]. }
  unfold get_storage, sbind, sget.
  unfold obs_storage, view in *. rewrite Eo in *. unfold recent, stack in *.
  destruct (current_ st !! ca) as [vs|] eqn:E; simpl in *.
  - destruct (wf_stack _ Hwf ca vs E) as (Hnil & _).
    destruct vs as [|[u x] rest]; [done|]. unfold sopt. simpl in *. rewrite Hacct. simpl.
    unfold lookup_storage. destruct (storage_ x !! k) as [v|] eqn:Ek.
    { eexists. split; [done|]. by split_and!. }
    rewrite Ho, Hacct. simpl. destruct (account_ (o_state o)) as [orig|] eqn:Eorig.
    + destruct (inc_eqb _ _); simpl; [rewrite Hrun; eauto|].
      eexists. split; [done|]. by split_and!.
    + eexists. split; [done|]. by split_and!.
  - rewrite Ho. unfold sopt. simpl. rewrite Hacct. unfold sret. rewrite Hrun. eexists.
    split; [|done]. f_equal. f_equal. unfold lookup_storage.
    destruct (storage_ (o_state o) !! k); [done|]. by rewrite Hacct, inc_eqb_refl.
Qed.

Lemma set_storage_value k (v orig : bytes32) x :
  (account_state.set_storage k v orig x).2 = with_storage (<[k := v]> (storage_ x)) x.
Proof.
  unfold account_state.set_storage. destruct (Z.eqb_spec v 0) as [E|E]; [|done].
  simpl. do 2 f_equal. apply uval_inj. by rewrite uval_wrap_0.
Qed.

Lemma set_storage_spec st tr w k v :
  refines (st, tr) w ->
  exists st', ignore (set_storage bs ca k v) st = (ROk tt, st') /\
    refines (st', tr) (set_slot w ca k v).
Proof.
  intros [R1 R2 [o0 R3] [acct Hacct] R5 R6 R7]. simpl in *.
  destruct (current_load ca st R1)
    as (st1 & Hrun1 & W1 & O1 & L1 & V1 & _ & C1 & _ & Or1 & Ov1 & Vw1).
  destruct (original_load bs ca st1) as (o & st2 & Hrun2 & Eo & Eoa & _ & Hc2 & _).
  pose proof (sc_current _ _ _ Hc2) as Ecur2. pose proof (sc_logs _ _ _ Hc2) as Elog2.
  pose proof (sc_version _ _ _ Hc2) as Ever2. pose proof (sc_orig _ _ _ Hc2) as Ov2.
  destruct (read_original_spec ca o (acct_incarnation acct) k st2 Eoa)
    as (st3 & m' & Hrun3 & Ho' & Hk & Hne & Hoth & Hcur & Hlog & Hver & _ & Hdir & Hrb).
  set (orig := default _ _) in Hrun3.
  assert (W3 : wf st3).
  { assert (W2 : wf st2).
    { pose proof (stays_original_account_state bs ca st1 W1) as Hl. rewrite Hrun2 in Hl. apply Hl. }
    by apply (wf_same st2). }
  assert (O3 : owned ca st3).
  { unfold owned, stack in *. by rewrite Hcur, Ecur2, Hver, Ever2. }
  set (x := view st ca) in *.
  destruct (current_store ca (with_storage (<[k := v]> (storage_ x)) x) st3 W3 O3)
    as (st4 & Hrun4 & W4 & _ & L4 & _ & Or4 & _ & Vw4).
  assert (Hv3 : forall b, b <> ca -> view st3 b = view st b).
  { intros b Hb. rewrite <- Vw1. apply view_same; [by rewrite Hcur, Ecur2|].
    rewrite <- (Ov2 b). unfold orig_view. by rewrite Hoth. }
  exists st4. split.
  - unfold ignore, set_storage, sbind. rewrite Hrun1. unfold sopt at 1. rewrite Hacct. unfold sret at 1.
    rewrite Hrun2, Hrun3. pose proof (set_storage_value k v orig x) as Hsv.
    destruct (account_state.set_storage k v orig x) as [status x']. simpl in Hsv. subst x'.
    by rewrite Hrun4.
  - split; simpl; auto.
    + intros a. specialize (R2 a). unfold obs_balance in *. rewrite Vw4. case_decide as Ea.
      * subst a. simpl. fold x in R2. by rewrite R2.
      * rewrite Hv3 by done. by rewrite R2.
    + rewrite Or4, Ho'. eauto.
    + rewrite Vw4, decide_True by done. simpl. rewrite Hacct. eauto.
    + intros k'. rewrite slot_set_slot. unfold obs_storage. rewrite Vw4, decide_True by done.
      assert (Eo4 : orig_view st4 ca = with_storage m' (orig_view st ca)).
      { unfold orig_view at 1. rewrite Or4, Ho'. simpl. by rewrite Eo, Ov1. }
      rewrite Eo4. unfold lookup_storage. simpl. case_decide as Ek.
      * injection Ek as ->. by rewrite lookup_insert_eq.
      * assert (Hkk : k' <> k) by (by intros ->). rewrite lookup_insert_ne by done.
        rewrite <- R5. unfold obs_storage, lookup_storage. fold x.
        destruct (storage_ x !! k'); [done|]. rewrite Hacct.
        destruct (account_ (orig_view st ca)); [|done]. destruct (inc_eqb _ _); [|done].
        rewrite Hne by done. by rewrite Eo, Ov1.
    + by rewrite L4, Hlog, Elog2, L1.
Qed.

(** The hooks change no view. *)
Lemma core_keeps st st' : wf st -> same_core bs st st' -> keeps_views st st'.
Proof.
  intros Hwf Hc. assert (Hv : forall a, view st' a = view st a).
  { intros a. apply view_same; apply Hc. }
  split_and!; [apply (local_core bs st st' Hc Hwf)|intros a; by rewrite Hv|apply Hc| |apply Hc].
  intros k. unfold obs_storage. by rewrite Hv, (sc_orig _ _ _ Hc).
Qed.

(** Both balance updates: create the account if absent, check, assign, and tell
    the reserve-balance tracker. *)
Definition update_balance (a : address) (ok : u256 -> bool) (msg : string) (f : u256 -> u256)
    (hook : SM unit) : SM unit :=
  sbind (current_account_state bs a) (fun x =>
  sbind (ensure_account x) (fun acct =>
  sbind (set_current a (with_account (Some acct) x)) (fun _ =>
  sbind (sassert_throw (ok (acct_balance acct)) msg) (fun _ =>
  sbind (set_current a (touch_ (with_account
    (Some (with_balance (f (acct_balance acct)) acct)) x))) (fun _ => hook))))).

Lemma update_balance_spec st tr w a ok msg f hook :
  calm bs hook -> refines (st, tr) w ->
  exists st', update_balance a ok msg f hook st =
      (if ok (balance w a) then ROk tt else RThrow msg, st') /\
    (ok (balance w a) = true -> refines (st', tr) (set_balance w a (f (balance w a)))).
Proof.
  intros Hhook [R1 R2 R3 [ac Hac] R5 R6 R7]. simpl in *.
  destruct (current_load a st R1)
    as (st1 & Hrun1 & W1 & O1 & L1 & V1 & I1 & C1 & _ & Or1 & Ov1 & Vw1).
  set (x := view st a) in *. set (acct := default (new_account (incarnation_ st1)) (account_ x)).
  assert (Eb : acct_balance acct = balance w a).
  { rewrite <- R2. unfold obs_balance, acct. fold x. by destruct (account_ x). }
  destruct (current_store a (with_account (Some acct) x) st1 W1 O1)
    as (st2 & Hrun2 & W2 & O2 & L2 & V2 & Or2 & _ & Vw2).
  destruct (current_store a (touch_ (with_account (Some (with_balance (f (balance w a)) acct)) x))
    st2 W2 O2) as (st3 & Hrun3 & W3 & O3 & L3 & V3 & Or3 & _ & Vw3).
  unfold update_balance, sbind. rewrite Hrun1. unfold ensure_account, sbind, sget, sret. fold acct.
  rewrite Hrun2, Eb. unfold sassert_throw. destruct (ok (balance w a)); unfold sret, sthrow; cbv iota beta.
  2:{ eexists. split; [done|]. done. }
  rewrite Hrun3. destruct (Hhook st3 (wf_hook_ok _ W3)) as ([] & st4 & Hrun4 & Hc4).
  exists st4. split; [done|]. intros _.
  apply (keeps_refines st3); [|by apply core_keeps].
  assert (Hov : forall b, orig_view st3 b = orig_view st b).
  { intros b. rewrite <- Ov1. unfold orig_view. by rewrite Or3, Or2. }
  split; simpl; auto.
  - intros b. rewrite balance_set_balance. unfold obs_balance. rewrite Vw3.
    destruct (decide (b = a)) as [->|Hb].
    + by rewrite decide_True.
    + rewrite decide_False by congruence. rewrite Vw2, decide_False by done. rewrite Vw1. apply R2.
  - rewrite Or3, Or2. by apply Or1.
  - rewrite Vw3, Vw2. case_decide; [simpl; eauto|]. rewrite Vw1. eauto.
  - intros k. change (slot (set_balance _ _ _) ca k) with (slot w ca k).
    rewrite <- R5. unfold obs_storage. rewrite Hov, Vw3, Vw2.
    case_decide as Ea; [|by rewrite Vw1]. subst a. unfold lookup_storage, acct, x. simpl.
    destruct (storage_ (view st ca) !! k); [done|]. by rewrite Hac.
  - by rewrite L3, L2, L1.
Qed.

Lemma get_balance_spec st tr w a :
  refines (st, tr) w ->
  exists st', get_balance bs a st = (ROk (balance w a), st') /\ refines (st', tr) w.
Proof.
  intros R. pose proof R as [R1 R2 R3 R4 R5 R6 R7]. simpl in *.
  destruct (recent_load bs a st (wf_hook_ok _ R1)) as (x & st1 & Hr & Ex & _ & Hc1).
  destruct (exact_load bs a st1) as (o & st2 & Ho & _ & _ & Hc2).
  exists st2. split.
  - unfold get_balance, recent_account, sbind in *. rewrite Hr. unfold sret at 1.
    destruct (original_account_state bs a st1) as [[o'|[]|m|] st1']; try done.
    simpl in *. injection Ho as _ ->. by rewrite Ex, <- R2.
  - apply (keeps_refines st); [done|]. apply core_keeps; [done|]. by etrans.
Qed.

Lemma store_log_spec st tr w l :
  refines (st, tr) w ->
  exists st', store_log l st = (ROk tt, st') /\
    refines (st', tr) (mk_world (w_storage w) (w_balance w) (w_logs w ++ [l]) (w_traced w)).
Proof.
  intros [R1 R2 R3 R4 R5 R6 R7]. simpl in *. destruct (wf_logs _ R1) as (L1 & L2 & L3).
  destruct (vs_current_spec _ _ (has_version_nonempty _ _ L1) L2 L3) as (vs' & Ec & _ & _ & Hr & _).
  pose proof (stays_store_log l st R1) as Hl.
  unfold store_log, sbind, sget, smodify in *. simpl in *. rewrite Ec in *. simpl in *.
  rewrite Hr, R6 in *. simpl in *. eexists. split; [done|]. split; simpl; auto.
  - apply Hl.
  - by destruct vs' as [|[u x] rest].
Qed.

(** ** Programs that keep to the contract's own storage *)
Fixpoint confined {E A} (p : prog E A) : Prop :=
  match p with
  | Vis op k =>
      match op with
      | GetStorage a _ | SetStorage a _ _ => a = ca
      | _ => True
      end /\ forall x, confined (k x)
  | _ => True
  end.

(** Every path of [p] that returns or fails credits at most [d] more than it debits. *)
Fixpoint settles {E A} (d : Z) (p : prog E A) : Prop :=
  match p with
  | Ret _ | Fail _ => 0 <= d
  | Throw _ | Halt => True
  | Vis op k =>
      let d' := match op with AddToBalance _ x => d - x | SubtractFromBalance _ x => d + x | _ => d end in
      forall x, settles d' (k x)
  end.

(** Same outcome, and related states unless the code threw. *)
Definition sim_res {E A} (r : res E A * (State * list Log)) (r' : res E A * World) : Prop :=
  r.1 = r'.1 /\ match r.1 with ROk _ | RErr _ => refines r.2 r'.2 | _ => True end.

Lemma sim_op X (op : stateE X) s w :
  match op with GetStorage a _ | SetStorage a _ _ => a = ca | _ => True end ->
  refines s w -> sim_res (handle_state X op s) (handle_world X op w).
Proof.
  destruct s as [st tr]. intros Hop R. pose proof R as [R1 R2 R3 R4 R5 R6 R7].
  destruct op as [a k|a k v|a|a d|a d|l|l]; simpl in *; unfold on_state; simpl.
  - subst a. destruct (get_storage_spec st k R1 R3 R4) as (st' & -> & K).
    split; [simpl; by rewrite R5|]. by apply (keeps_refines st).
  - subst a. destruct (set_storage_spec st tr w k v R) as (st' & -> & R'). done.
  - destruct (get_balance_spec st tr w a R) as (st' & -> & R'). done.
  - destruct (update_balance_spec st tr w a (fun b => b <=? modulus 256 - 1 - d)
      "balance overflow" (fun b => #(b + d)) (rb_on_credit bs a) (calm_on_credit bs a) R) as (st' & E & R').
    change (add_to_balance bs a d st) with (update_balance a (fun b => b <=? modulus 256 - 1 - d)
      "balance overflow" (fun b => #(b + d)) (rb_on_credit bs a) st). rewrite E.
    destruct (_ <=? _); split; simpl; auto.
  - destruct (update_balance_spec st tr w a (fun b => d <=? b)
      "balance underflow" (fun b => #(b - d)) (rb_on_debit bs a) (calm_on_debit bs a) R) as (st' & E & R').
    change (subtract_from_balance bs a d st) with (update_balance a (fun b => d <=? b)
      "balance underflow" (fun b => #(b - d)) (rb_on_debit bs a) st). rewrite E.
    destruct (_ <=? _); split; simpl; auto.
  - destruct (store_log_spec st tr w l R) as (st' & -> & R'). done.
  - split; [done|]. by split; simpl; rewrite ?R7.
Qed.

(** The simulation: a confined program behaves the same on both. *)
Lemma sim_run {E A} (p : prog E A) s w :
  confined p -> refines s w -> sim_res (run_with handle_state p s) (run p w).
Proof.
  revert s w. induction p as [a|e|m| |X op k IH]; intros s w Hc R; try done.
  destruct Hc as [Hop Hk]. unfold run. simpl.
  pose proof (sim_op X op s w Hop R) as [E1 E2].
  destruct (handle_state X op s) as [r s'], (handle_world X op w) as [r' w'].
  simpl in E1. subst r'. simpl in E2. destruct r as [x|[]|m|]; try done.
  by apply IH.
Qed.
End refine.
