(* ===== verification/ReserveTrack.v ===== *)
(** * The reserve-balance tracker is exact

    The tracker keeps the set of accounts below their reserve up to date through
    hooks instead of recomputing it.  [Inv] is the invariant that makes this
    correct: cached thresholds are the true ones, and an account is in [failed_]
    exactly when it is in violation.  Every operation of a transaction and every
    frame, accepted or rejected, preserves it. *)
From S2P Require Import Prelude Prog Abi StakingVars VersionStack State3 StateHooks ReserveSpec StateFrames StateRefine.

(** ** Runs *)
Lemma sbind_ok {A C} (m : SM A) (k : A -> SM C) st y st' :
  sbind m k st = (ROk y, st') -> exists x st1, m st = (ROk x, st1) /\ k x st1 = (ROk y, st').
Proof. unfold sbind. destruct (m st) as [[x|[]|msg|] st1]; intros H; try done. eauto. Qed.

Lemma sopt_ok {A} (o : option A) st x st' :
  sopt o st = (ROk x, st') -> o = Some x /\ st' = st.
Proof. destruct o; [|done]. by intros [= -> ->]. Qed.

Ltac unbind :=
  repeat match goal with
  | H : sbind _ _ _ = (ROk _, _) |- _ => apply sbind_ok in H as (? & ? & ? & ?)
  | H : sget _ _ = (ROk _, _) |- _ => injection H as <- <-
  | H : sret _ _ = (ROk _, _) |- _ => injection H as <- <-
  | H : smodify _ _ = (ROk _, _) |- _ => injection H as <- <-
  | H : set_original _ _ _ = (ROk _, _) |- _ => unfold set_original in H
  | H : sopt _ _ = (ROk _, _) |- _ => apply sopt_ok in H as [? ->]
  end.

Lemma mark_fields a st :
  rb_ (mark a st) = rb_ st /\ code_ (mark a st) = code_ st /\ current_ (mark a st) = current_ st.
Proof. unfold mark. by destruct (dirty_ st). Qed.

Definition values (st : State) (a : address) : list AccountState := (stack st a).*2.

Section track.
Context (bs : BlockReads) (keccak256 : byte_string -> bytes32) (known : byte_string -> Prop).
Implicit Types (a b : address) (st : State) (x y : AccountState).

#[local] Abbreviation orig_view := (orig_view bs).
#[local] Abbreviation recent_view := (recent_view bs).
#[local] Abbreviation code_of := (code_of bs).
#[local] Abbreviation threshold_of := (threshold_of bs).
#[local] Abbreviation in_violation := (in_violation bs).
#[local] Abbreviation exempt := (exempt bs).

(** ** The invariant *)

(** The code behind a hash in use is a known one with that hash. *)
Definition hash_ok st (h : bytes32) : Prop :=
  h = NULL_HASH \/ (known (code_of st h) /\ keccak256 (code_of st h) = h).

(** A cached threshold is the true one, or the account is exempt. *)
Definition faithful st a : Prop :=
  forall t, cached st a = Some t -> threshold_of st a = Some t \/ (t = #0 /\ exempt st a = true).

(** The verdict is right. *)
Definition tracked st a : Prop :=
  exempt st a = false -> (a ∈ failed_ (rb_ st) <-> in_violation st a = true).

(** [F] are the accounts whose cached threshold is right, [W] those whose
    verdict is. *)
Record Inv (F W : address -> Prop) st : Prop := mk_Inv {
  inv_ok : hook_ok st;
  inv_tracking : tracking_enabled_ (rb_ st) = true;
  inv_orig : forall a, hash_ok st (hash_of (orig_view st a));
  inv_values : forall a x, x ∈ values st a -> hash_ok st (hash_of x);
  inv_faithful : forall a, F a -> faithful st a;
  inv_tracked : forall a, W a -> tracked st a;
}.

Lemma Inv_weaken (F F' W W' : address -> Prop) st :
  (forall a, F' a -> F a) -> (forall a, W' a -> W a) -> Inv F W st -> Inv F' W' st.
Proof. intros HF HW []. by split; auto. Qed.

Lemma recent_value st a :
  hook_ok st -> recent_view st a ∈ values st a \/ recent_view st a = orig_view st a.
Proof.
  intros Hok. unfold StateHooks.recent_view, values, stack.
  destruct (current_ st !! a) as [vs|] eqn:E; simpl; [|by right]. left.
  destruct vs as [|[u x] vs]; [by destruct (ho_stacks _ Hok a [] E)|]. simpl. by left.
Qed.

Lemma recent_hash_ok F W st a : Inv F W st -> hash_ok st (hash_of (recent_view st a)).
Proof.
  intros I. destruct (recent_value st a (inv_ok _ _ _ I)) as [H| ->];
    [by apply (inv_values _ _ _ I a)|apply (inv_orig _ _ _ I)].
Qed.

Lemma effective_hash_ok F W st a : Inv F W st -> hash_ok st (effective_hash bs st a).
Proof.
  intros I. unfold effective_hash. destruct (use_recent_code_hash_ _);
    [by apply (recent_hash_ok F W)|apply (inv_orig _ _ _ I)].
Qed.

(** ** Judging *)
Lemma inv_same_core F W st st' :
  same_core bs st st' -> Inv F W st ->
  (forall a, F a -> faithful st' a) -> (forall a, W a -> tracked st' a) -> Inv F W st'.
Proof.
  intros Hc I HF HW. split; [| | | |done|done].
  - by apply (hook_ok_core bs st), (inv_ok _ _ _ I).
  - rewrite (sc_tracking _ _ _ Hc). apply I.
  - intros a. unfold hash_ok, ReserveSpec.code_of. rewrite (sc_orig _ _ _ Hc), (sc_code _ _ _ Hc).
    apply (inv_orig _ _ _ I a).
  - intros a x. unfold values, stack, hash_ok, ReserveSpec.code_of.
    rewrite (sc_current _ _ _ Hc), (sc_code _ _ _ Hc). apply (inv_values _ _ _ I a x).
Qed.

(** A verdict on [a] touches no other account. *)
Lemma judged_other a b t f st st' :
  judged bs a t f st st' -> b <> a ->
  (faithful st b -> faithful st' b) /\ (tracked st b -> tracked st' b).
Proof.
  intros [Hc Hf Ht] Hb. unfold faithful, tracked, cached.
  rewrite (threshold_core bs Hc), (exempt_core bs Hc), (in_violation_core bs Hc), Hf, Ht.
  rewrite lookup_insert_ne by done. split; [done|]. intros H He. rewrite <- (H He).
  unfold mark_failed. destruct f; set_solver.
Qed.

Lemma in_mark_failed (f : bool) a failed : a ∈ mark_failed f a failed <-> f = true.
Proof. unfold mark_failed. destruct f; set_solver. Qed.

(** A verdict with the true threshold. *)
Lemma judged_true a t f st st' :
  judged bs a t f st st' ->
  (forall t', t = Some t' -> threshold_of st a = Some t' \/ (t' = #0 /\ exempt st a = true)) ->
  (exempt st a = false -> f = in_violation st a) ->
  faithful st' a /\ tracked st' a.
Proof.
  intros [Hc Hf Ht] H1 H2. unfold faithful, tracked, cached.
  rewrite (threshold_core bs Hc), (exempt_core bs Hc), (in_violation_core bs Hc), Hf, Ht.
  rewrite lookup_insert_eq. split; [done|]. intros He. by rewrite in_mark_failed, H2.
Qed.

Lemma inv_judged F W a t f st st' :
  Inv F W st -> judged bs a t f st st' -> faithful st' a -> tracked st' a ->
  Inv (fun b => F b \/ b = a) (fun b => W b \/ b = a) st'.
Proof.
  intros I J Hf Ht. pose proof (inv_same_core F W st st' (j_core _ _ _ _ _ _ J) I) as H.
  assert (Hb : forall b, (F b \/ b = a -> faithful st' b) /\ (W b \/ b = a -> tracked st' b)).
  { intros b. destruct (decide (b = a)) as [->|Hb]; [done|].
    destruct (judged_other a b t f st st' J Hb) as [H1 H2].
    split; intros [?|?]; try done; [apply H1, (inv_faithful _ _ _ I)|apply H2, (inv_tracked _ _ _ I)];
      done. }
  destruct H as [G1 G2 G3 G4 _ _]; [intros b Hb'; apply Hb; by left..|].
  split; [done..| |]; intros b; apply Hb.
Qed.

(** An update needs a faithful cache, and makes the verdict right. *)
Lemma update_tracks F W a st :
  Inv F W st -> faithful st a ->
  exists st', update_violation_status bs a st = (ROk tt, st') /\ same_core bs st st' /\
    Inv (fun b => F b \/ b = a) (fun b => W b \/ b = a) st'.
Proof.
  intros I Hf. destruct (run_update bs a st (inv_ok _ _ _ I) (inv_tracking _ _ _ I)) as (st' & E & J).
  exists st'. split; [done|]. split; [apply J|].
  assert (H : faithful st' a /\ tracked st' a); [|destruct H; by eapply inv_judged].
  assert (Hn : exempt st a = false -> next_threshold bs st a = threshold_of st a).
  { intros He. unfold next_threshold. rewrite He. destruct (cached st a) as [t|] eqn:Ec; [|done].
    destruct (Hf t Ec) as [->|[_ H]]; congruence. }
  apply (judged_true _ _ _ _ _ J).
  - intros t. destruct (exempt st a) eqn:He; [|rewrite Hn by done; auto].
    unfold next_threshold. rewrite He. intros [= <-]. auto.
  - intros He. unfold next_failed. rewrite He, Hn by done. done.
Qed.

(** ** Steps that judge nobody *)

(** What a write may do to an account without a verdict: the code hash stays,
    and an account that is exempt stays exempt. *)
Record gentle (inc : Incarnation) x y : Prop := mk_gentle {
  ge_hash : hash_of y = hash_of x;
  ge_destructed : destructed_ (as_sub x) = true -> destructed_ (as_sub y) = true;
  ge_current : from_option (fun acct => inc_eqb (acct_incarnation acct) inc) false (account_ x) = true ->
    from_option (fun acct => inc_eqb (acct_incarnation acct) inc) false (account_ y) = true;
}.

(** Reads may add slots to the originals. *)
Definition caches st st' : Prop := forall b,
  storage_ (orig_view st b) ⊆ storage_ (orig_view st' b) /\
  transient_storage_ (orig_view st' b) = transient_storage_ (orig_view st b).

#[export] Instance caches_preorder : PreOrder caches.
Proof.
  split; [by split|]. intros ??? H1 H2 b. destruct (H1 b) as [A1 A2], (H2 b) as [B1 B2].
  split; [by etrans|congruence].
Qed.

Lemma caches_same st st' : (forall b, orig_view st' b = orig_view st b) -> caches st st'.
Proof. intros H b. by rewrite H. Qed.

(** [K] are the accounts whose balance is kept. *)
Record evolves (K : address -> Prop) st st' : Prop := mk_evolves {
  ev_ok : hook_ok st';
  ev_rb : rb_ st' = rb_ st;
  ev_inc : incarnation_ st' = incarnation_ st;
  ev_code : code_ st' = code_ st;
  ev_orig : forall b, account_ (orig_view st' b) = account_ (orig_view st b);
  ev_gentle : forall b, gentle (incarnation_ st) (recent_view st b) (recent_view st' b);
  ev_balance : forall b, K b -> balance_of (recent_view st' b) = balance_of (recent_view st b);
  ev_values : forall b y, y ∈ values st' b ->
    hash_of y = hash_of (recent_view st b) \/ exists y', y' ∈ values st b /\ hash_of y = hash_of y';
  ev_caches : caches st st';
}.

Definition all : address -> Prop := fun _ => True.
Definition but a : address -> Prop := fun b => b <> a.

#[local] Instance gentle_preorder inc : PreOrder (gentle inc).
Proof. split; [by split|]. intros ??? [] []. split; [congruence|auto..]. Qed.

Lemma evolves_refl K st : hook_ok st -> evolves K st st.
Proof. intros Hok. split; try done. intros b y Hy. eauto. Qed.

Lemma evolves_trans (K K' : address -> Prop) st1 st2 st3 :
  (forall b, K' b -> K b) -> evolves K st1 st2 -> evolves K' st2 st3 -> evolves K' st1 st3.
Proof.
  intros HK [A1 A2 A3 A4 A5 A6 A7 A8 A9] [B1 B2 B3 B4 B5 B6 B7 B8 B9]. split; [done|congruence..| | | | |by etrans].
  - intros b. by rewrite B5, A5.
  - intros b. etrans; [apply A6|]. rewrite <- A3. apply B6.
  - intros b Hb. by rewrite B7, A7 by auto.
  - intros b y Hy. destruct (B8 b y Hy) as [E|(y' & Hy' & E)]; rewrite E.
    + left. apply A6.
    + by apply A8.
Qed.

Lemma evolves_exempt K st st' b : evolves K st st' -> exempt st b = true -> exempt st' b = true.
Proof.
  intros V. unfold ReserveSpec.exempt, current_of. rewrite (ev_rb _ _ _ V), (ev_inc _ _ _ V).
  intros [[H1 H2]%andb_true_iff H3]%andb_true_iff. destruct (ev_gentle _ _ _ V b) as [_ G2 G3].
  by rewrite H1, G2, G3.
Qed.

Lemma evolves_threshold K st st' b : evolves K st st' -> threshold_of st' b = threshold_of st b.
Proof.
  intros V. assert (Ho : hash_of (orig_view st' b) = hash_of (orig_view st b))
    by (unfold hash_of; by rewrite (ev_orig _ _ _ V)).
  assert (Hr : reserve_of bs st' b = reserve_of bs st b)
    by (unfold reserve_of, balance_of; by rewrite (ev_rb _ _ _ V), (ev_orig _ _ _ V)).
  unfold ReserveSpec.threshold_of, subject_of, effective_hash, ReserveSpec.code_of.
  rewrite Hr, Ho, (ev_rb _ _ _ V), (ev_code _ _ _ V).
  by rewrite (ge_hash _ _ _ (ev_gentle _ _ _ V b)).
Qed.

Lemma evolves_hash_ok K st st' h : evolves K st st' -> hash_ok st h -> hash_ok st' h.
Proof. intros V. unfold hash_ok, ReserveSpec.code_of. by rewrite (ev_code _ _ _ V). Qed.

Lemma evolves_faithful K st st' b : evolves K st st' -> faithful st b -> faithful st' b.
Proof.
  intros V H t. unfold cached. rewrite (ev_rb _ _ _ V), (evolves_threshold _ _ _ _ V). intros Ht.
  destruct (H t Ht) as [?|[? He]]; [by left|right]. split; [done|by apply (evolves_exempt K st)].
Qed.

Lemma evolves_exempt_false K st st' b : evolves K st st' -> exempt st' b = false -> exempt st b = false.
Proof.
  intros V H. destruct (exempt st b) eqn:E; [|done]. apply (evolves_exempt K st st' b V) in E. congruence.
Qed.

Lemma evolves_tracked (K : address -> Prop) st st' b :
  evolves K st st' -> K b -> tracked st b -> tracked st' b.
Proof.
  intros V Hb H He. rewrite (ev_rb _ _ _ V).
  specialize (H (evolves_exempt_false _ _ _ _ V He)). rewrite H. unfold ReserveSpec.in_violation. by rewrite (evolves_threshold _ _ _ _ V), (ev_balance _ _ _ V b Hb).
Qed.

Lemma inv_evolves (F W K : address -> Prop) st st' :
  Inv F W st -> evolves K st st' -> Inv F (fun b => W b /\ K b) st'.
Proof.
  intros I V. split.
  - apply V.
  - rewrite (ev_rb _ _ _ V). apply I.
  - intros a. apply (evolves_hash_ok K st st' _ V). unfold hash_of. rewrite (ev_orig _ _ _ V).
    apply (inv_orig _ _ _ I a).
  - intros a x Hx. apply (evolves_hash_ok K st st' _ V).
    destruct (ev_values _ _ _ V a x Hx) as [->|(y & Hy & ->)];
      [by apply (recent_hash_ok F W)|by apply (inv_values _ _ _ I a)].
  - intros a Ha. apply (evolves_faithful K st st' a V), (inv_faithful _ _ _ I a Ha).
  - intros a [Ha Hk]. apply (evolves_tracked K st st' a V Hk), (inv_tracked _ _ _ I a Ha).
Qed.

Lemma inv_evolves_all F W st st' : Inv F W st -> evolves all st st' -> Inv F W st'.
Proof. intros I V. apply (Inv_weaken F F (fun b => W b /\ all b) W), (inv_evolves _ _ _ st); auto. by intros. Qed.

(** ** The two ways a transaction reaches an account *)
Lemma current_rest a st x st' :
  wf st -> current_account_state bs a st = (ROk x, st') ->
  rb_ st' = rb_ st /\ code_ st' = code_ st /\
  forall b y, y ∈ values st' b -> y = recent_view st b \/ y ∈ values st b.
Proof.
  intros Hwf E. unfold current_account_state in E. unbind.
  match goal with H : _ st = (ROk ?vs, ?st0) |- _ => rename vs into vs0; rename st0 into st1;
    rename H into E0 end.
  match goal with H : vs_current _ _ = Some ?vs |- _ => rename vs into vs1; rename H into E1 end.
  fold (mark a st1) in *. destruct (mark_fields a st1) as (M1 & M2 & M3).
  assert (Hs : rb_ st1 = rb_ st /\ code_ st1 = code_ st /\ current_ st1 = current_ st /\
    forall y, y ∈ vs0.*2 -> y = recent_view st a \/ y ∈ values st a).
  { unfold values, stack, StateHooks.recent_view. destruct (current_ st !! a) as [vs|] eqn:Ec.
    - unbind. by auto.
    - apply sbind_ok in E0 as (o & st0 & Eo & E0). unbind.
      destruct (original_load bs a st) as (o' & st' & Eo' & Es & _ & Er & Hc & _).
      rewrite Eo in Eo'. injection Eo' as <- <-. split_and!; [done|apply Hc..|].
      simpl. intros y [->|[]%elem_of_nil]%elem_of_cons. by left. }
  destruct Hs as (H1 & H2 & H3 & H4). simpl. rewrite M1, M2, M3, H1, H2, H3. split_and!; [done..|].
  intros b y. unfold values, stack. simpl. rewrite ?M3, ?H3. destruct (decide (b = a)) as [->|Hb].
  - rewrite lookup_insert_eq. simpl. intros Hy. by apply H4, (vs_current_values _ _ _ _ E1).
  - rewrite lookup_insert_ne by done. by right.
Qed.

Lemma current_evolves a st x st' :
  wf st -> current_account_state bs a st = (ROk x, st') ->
  evolves all st st' /\ wf st' /\ owned a st' /\ x = recent_view st a /\ recent_view st' a = x.
Proof.
  intros Hwf E. pose proof E as E'.
  destruct (current_load bs a st Hwf) as (st1 & E1 & W1 & O1 & _ & _ & I1 & _ & C1 & _ & V1 & R1).
  rewrite E in E1. injection E1 as -> ->. 
  destruct (current_rest a st _ st1 Hwf E') as (B1 & B2 & B3).
  split; [|done]. split; try done.
  - by apply wf_hook_ok.
  - intros b. by rewrite V1.
  - intros b. change (recent_view st1 b) with (view bs st1 b). by rewrite R1.
  - intros b _. change (recent_view st1 b) with (view bs st1 b). by rewrite R1.
  - intros b y Hy. destruct (B3 b y Hy) as [->|H]; eauto.
  - by apply caches_same.
Qed.

(** Writing through the reference. *)
Lemma store_facts a x st st' :
  wf st -> owned a st -> set_current a x st = (ROk tt, st') ->
  wf st' /\ owned a st' /\ rb_ st' = rb_ st /\ incarnation_ st' = incarnation_ st /\
  code_ st' = code_ st /\ (forall b, orig_view st' b = orig_view st b) /\
  (forall b, recent_view st' b = if decide (b = a) then x else recent_view st b) /\
  (forall b y, y ∈ values st' b -> (b = a /\ y = x) \/ y ∈ values st b).
Proof.
  intros Hwf Ho E. destruct (current_store bs a x st Hwf Ho) as (st1 & E1 & W1 & O1 & _ & _ & R1 & _ & V1).
  rewrite E in E1. injection E1 as <-. injection E as <-. split_and!; try done.
  intros b y. unfold values, stack. simpl. destruct (decide (b = a)) as [->|Hb].
  - rewrite lookup_alter_eq. destruct (current_ st !! a) as [[|[u z] vs]|]; simpl; [by right| |by right].
    intros [->|H]%elem_of_cons; [by left|]. right. by right.
  - rewrite lookup_alter_ne by done. by right.
Qed.

Lemma store_evolves (K : address -> Prop) a x st st' :
  wf st -> owned a st -> set_current a x st = (ROk tt, st') ->
  gentle (incarnation_ st) (recent_view st a) x ->
  (K a -> balance_of x = balance_of (recent_view st a)) ->
  evolves K st st' /\ wf st' /\ owned a st' /\ recent_view st' a = x.
Proof.
  intros Hwf Ho E G HK. destruct (store_facts a x st st' Hwf Ho E)
    as (H1 & H2 & H3 & H4 & H5 & H6 & H7 & H8).
  split; [|split_and!; [done..|]; by rewrite H7, decide_True]. split; try done.
  - by apply wf_hook_ok.
  - intros b. by rewrite H6.
  - intros b. rewrite H7. by case_decide; subst.
  - intros b Hb. rewrite H7. case_decide; subst; auto.
  - intros b y Hy. destruct (H8 b y Hy) as [[-> ->]|?]; [|eauto]. left. apply G.
  - by apply caches_same.
Qed.

(** A state in which [a] has been taken over and read as [x]. *)
Lemma evolves_all_trans st1 st2 st3 : evolves all st1 st2 -> evolves all st2 st3 -> evolves all st1 st3.
Proof. by apply evolves_trans. Qed.

(** ** Operations that judge nobody *)
Definition evolving {A} (m : SM A) : Prop :=
  forall st r st', wf st -> m st = (ROk r, st') -> evolves all st st'.

(** Reading an original account, or writing one back with the same account. *)
Record quiet st st' : Prop := mk_quiet {
  qu_rb : rb_ st' = rb_ st; qu_inc : incarnation_ st' = incarnation_ st;
  qu_code : code_ st' = code_ st; qu_current : current_ st' = current_ st;
  qu_version : version_ st' = version_ st; qu_dirty : dirty_ st' = dirty_ st;
  qu_orig : forall b, account_ (orig_view st' b) = account_ (orig_view st b);
  qu_sub : forall b, as_sub (orig_view st' b) = as_sub (orig_view st b);
  qu_caches : caches st st';
  qu_loaded : forall b, is_Some (original_ st !! b) -> is_Some (original_ st' !! b);
}.

#[export] Instance quiet_preorder : PreOrder quiet.
Proof.
  split; [by split|]. intros ??? [] []. split; [congruence..| | |by etrans|auto]; intros b; etrans; eauto.
Qed.

Lemma quiet_recent st st' b :
  quiet st st' -> account_ (recent_view st' b) = account_ (recent_view st b) /\
    as_sub (recent_view st' b) = as_sub (recent_view st b).
Proof.
  intros Q. unfold StateHooks.recent_view. rewrite (qu_current _ _ Q).
  destruct (vs_recent _); [done|]. simpl. by rewrite (qu_orig _ _ Q), (qu_sub _ _ Q).
Qed.

Lemma quiet_evolves st st' : wf st -> quiet st st' -> evolves all st st'.
Proof.
  intros Hwf Q. pose proof (wf_hook_ok _ Hwf) as Hok. split; try apply Q.
  - destruct Hok as [H1 H2]. split; [by rewrite (qu_current _ _ Q)|by rewrite (qu_rb _ _ Q)].
  - intros b. destruct (quiet_recent st st' b Q) as [E1 E2].
    split; unfold hash_of; by rewrite ?E1, ?E2.
  - intros b _. unfold balance_of. by rewrite (proj1 (quiet_recent st st' b Q)).
  - intros b y. unfold values, stack. rewrite (qu_current _ _ Q). eauto.
Qed.

Lemma quiet_core st st' : same_core bs st st' -> rb_ st' = rb_ st -> quiet st st'.
Proof. intros [] ?. split; try done; [..|by apply caches_same]; intros b; by rewrite sc_orig. Qed.

Lemma quiet_original a st o st' :
  original_account_state bs a st = (ROk o, st') ->
  quiet st st' /\ original_ st' !! a = Some o.
Proof.
  intros E. destruct (original_load bs a st) as (o' & st1 & E1 & _ & Ho & Hr & Hc & _).
  rewrite E in E1. injection E1 as <- <-. split; [by apply quiet_core|done].
Qed.

Lemma quiet_set_original a o o' st :
  original_ st !! a = Some o -> account_ (o_state o') = account_ (o_state o) ->
  as_sub (o_state o') = as_sub (o_state o) -> storage_ (o_state o) ⊆ storage_ (o_state o') ->
  transient_storage_ (o_state o') = transient_storage_ (o_state o) ->
  quiet st (set_original_ (<[a := o']> (original_ st)) st).
Proof.
  intros Ho E1 E2 E3 E4. split; try done; intros b; unfold StateHooks.orig_view; simpl;
    (destruct (decide (a = b)) as [<-|Hb]; [by rewrite lookup_insert_eq, ?Ho|by rewrite lookup_insert_ne]).
Qed.

Lemma quiet_read_original a o inc k st v st' :
  original_ st !! a = Some o -> read_original_storage bs a o inc k st = (ROk v, st') -> quiet st st'.
Proof.
  intros Ho. unfold read_original_storage. destruct (_ !! k) eqn:Ek; intros E.
  - by injection E as <- <-.
  - unbind. apply (quiet_set_original a o); try done. by apply insert_subseteq.
Qed.

Lemma quiet_get_storage a k st v st' : get_storage bs a k st = (ROk v, st') -> quiet st st'.
Proof.
  unfold get_storage. intros E. apply sbind_ok in E as (vs & st1 & E1 & E). unbind.
  destruct (current_ st !! a); unbind; [|by eapply quiet_read_original].
  destruct (storage_ _ !! k); unbind; [done|].
  destruct (account_ (o_state _)); [|by unbind]. destruct (negb _); [by unbind|].
  by eapply quiet_read_original.
Qed.

Lemma quiet_exact {A} a (f : OriginalAccountState -> A) st r st' :
  (sbind (original_account_state bs a) (fun o =>
   sbind (set_original a (set_validate_exact_balance o)) (fun _ => sret (f o)))) st = (ROk r, st') ->
  quiet st st'.
Proof.
  intros E. apply sbind_ok in E as (o & st1 & E1 & E). destruct (quiet_original a st o st1 E1) as [Q Ho].
  unbind. etrans; [exact Q|]. by apply (quiet_set_original a o).
Qed.

Lemma quiet_recent_account a st r st' :
  recent_account bs a st = (ROk r, st') -> quiet st st' /\ r = account_ (recent_view st a).
Proof.
  unfold recent_account, recent_account_state, StateHooks.recent_view. intros E. unbind.
  destruct (current_ st !! a) as [vs|] eqn:Ec; unbind; simpl.
  - split; [done|]. by match goal with H : vs_recent _ = _ |- _ => rewrite H end.
  - destruct (original_load bs a st) as (o' & st1 & E1 & Eo & Ho & Hr & Hc & _).
    match goal with H : original_account_state bs a st = _ |- _ =>
      lazymatch H with E1 => fail | _ => rewrite E1 in H; injection H as <- <- end end.
    rewrite Eo. split; [by apply quiet_core|done].
Qed.

Lemma quiet_get_balance a st r st' :
  get_balance bs a st = (ROk r, st') -> quiet st st' /\ r = balance_of (recent_view st a).
Proof.
  unfold get_balance. intros E. apply sbind_ok in E as (x & st1 & E1 & E).
  destruct (quiet_recent_account a st x st1 E1) as [Q ->]. split.
  - etrans; [exact Q|]. by eapply (quiet_exact a (fun _ => _)).
  - by unbind.
Qed.

Lemma quiet_get_nonce a st r st' : get_nonce bs a st = (ROk r, st') -> quiet st st'.
Proof. unfold get_nonce. intros E. unbind. by eapply quiet_recent_account. Qed.

Lemma quiet_is_current a st r st' : is_current_incarnation bs a st = (ROk r, st') -> quiet st st'.
Proof. unfold is_current_incarnation. intros E. unbind. by eapply quiet_recent_account. Qed.

Lemma quiet_record_debit a d st r st' :
  record_balance_constraint_for_debit bs a d st = (ROk r, st') -> quiet st st'.
Proof.
  unfold record_balance_constraint_for_debit. intros E.
  apply sbind_ok in E as (x & st1 & E1 & E). destruct (quiet_recent_account a st x st1 E1) as [Q1 _].
  apply sbind_ok in E as (o & st2 & E2 & E). destruct (quiet_original a st1 o st2 E2) as [Q2 Ho].
  etrans; [exact Q1|]. etrans; [exact Q2|]. destruct (d <=? _).
  - apply sbind_ok in E as (u & st3 & E3 & E). injection E as <- <-.
    destruct (_ <? _); [|by unbind]. unfold set_min_balance in E3.
    apply sbind_ok in E3 as (ac & st4 & E4 & E3). apply sopt_ok in E4 as [_ ->].
    apply sbind_ok in E3 as (u' & st5 & E5 & E3).
    assert (st5 = st2) as -> by (unfold sassert in E5; destruct (_ <=? _); by inversion E5).
    destruct (_ <? _); [|by unbind]. injection E3 as <- <-. by apply (quiet_set_original a o).
  - unbind. by apply (quiet_set_original a o).
Qed.

(** Taking an account over and writing it back gently. *)
Lemma write_evolves a x y st st1 st' :
  wf st -> current_account_state bs a st = (ROk x, st1) ->
  set_current a y st1 = (ROk tt, st') ->
  gentle (incarnation_ st1) x y -> balance_of y = balance_of x -> evolves all st st'.
Proof.
  intros Hwf E1 E G Hb. destruct (current_evolves a st x st1 Hwf E1) as (V1 & W1 & O1 & _ & R1).
  apply (evolves_all_trans st st1); [done|].
  apply (store_evolves all a y st1 st' W1 O1 E); rewrite ?R1; done.
Qed.

Ltac take := match goal with E : sbind (current_account_state _ _) _ _ = (ROk _, _) |- _ =>
  let x := fresh "x" in let st1 := fresh "st1" in let E1 := fresh "E1" in
  apply sbind_ok in E as (x & st1 & E1 & E) end.

Lemma gentle_account inc x (ac : Account) :
  acct_code_hash ac = hash_of x ->
  (from_option (fun acct => inc_eqb (acct_incarnation acct) inc) false (account_ x) = true ->
    inc_eqb (acct_incarnation ac) inc = true) ->
  gentle inc x (with_account (Some ac) x).
Proof. intros H1 H2. by split. Qed.

Lemma gentle_sub inc x sub :
  (destructed_ (as_sub x) = true -> destructed_ sub = true) -> gentle inc x (with_sub sub x).
Proof. intros H. by split. Qed.

Lemma assert_ok (c : bool) st r st' : sassert c st = (ROk r, st') -> c = true /\ st' = st.
Proof. destruct c; [|done]. by intros [= _ ->]. Qed.

Lemma evolving_set_nonce a n : evolving (set_nonce bs a n).
Proof.
  intros st r st' Hwf E. unfold set_nonce in E. take. unfold ensure_account in E.
  apply sbind_ok in E as (ac & st2 & E2 & E). unbind. destruct r.
  apply (write_evolves _ _ _ _ _ _ Hwf E1 E).
  - apply gentle_account; unfold hash_of; by destruct (account_ x).
  - unfold balance_of. simpl. by destruct (account_ x).
Qed.

Lemma evolving_set_transient a k v : evolving (set_transient_storage bs a k v).
Proof.
  intros st [] st' Hwf E. unfold set_transient_storage in E. take.
  by apply (write_evolves _ _ _ _ _ _ Hwf E1 E).
Qed.

Lemma evolving_touch a : evolving (touch bs a).
Proof.
  intros st [] st' Hwf E. unfold touch in E. take.
  by apply (write_evolves _ _ _ _ _ _ Hwf E1 E).
Qed.

Lemma evolving_access_account a : evolving (access_account bs a).
Proof.
  intros st r st' Hwf E. unfold access_account in E. take. unfold substate.access in E.
  apply sbind_ok in E as ([] & st2 & E2 & E). unbind.
  by apply (write_evolves _ _ _ _ _ _ Hwf E1 E2); [apply gentle_sub|].
Qed.

Lemma evolving_access_storage a k : evolving (access_storage bs a k).
Proof.
  intros st r st' Hwf E. unfold access_storage in E. take. unfold substate.access_storage in E.
  destruct (bool_decide _); apply sbind_ok in E as ([] & st2 & E2 & E); unbind;
    by apply (write_evolves _ _ _ _ _ _ Hwf E1 E2); [apply gentle_sub|].
Qed.

Lemma evolving_create_contract a : evolving (create_contract bs a).
Proof.
  intros st [] st' Hwf E. unfold create_contract in E. take.
  apply sbind_ok in E as (inc & st2 & E2 & E). injection E2 as <- <-.
  destruct (account_ x) as [ac|] eqn:Ea.
  - apply sbind_ok in E as (u & st2 & [_ ->]%assert_ok & E).
    apply sbind_ok in E as (u' & st2 & [_ ->]%assert_ok & E).
    apply (write_evolves _ _ _ _ _ _ Hwf E1 E); [|by unfold balance_of; simpl; rewrite Ea].
    apply gentle_account; [by unfold hash_of; rewrite Ea|]. intros _. apply inc_eqb_refl.
  - apply (write_evolves _ _ _ _ _ _ Hwf E1 E); [|by unfold balance_of; simpl; rewrite Ea].
    apply gentle_account; [by unfold hash_of; rewrite Ea|]. intros _. apply inc_eqb_refl.
Qed.

Lemma evolving_create_no_rollback a : evolving (create_account_no_rollback bs a).
Proof.
  intros st [] st' Hwf E. unfold create_account_no_rollback in E. take.
  apply sbind_ok in E as (u & st2 & [Hn ->]%assert_ok & E).
  apply sbind_ok in E as (inc & st2 & E2 & E). injection E2 as <- <-.
  destruct (account_ x) eqn:Ea; [done|].
  apply (write_evolves _ _ _ _ _ _ Hwf E1 E); [|by unfold balance_of; simpl; rewrite Ea].
  apply gentle_account; [by unfold hash_of; rewrite Ea|]. by rewrite Ea.
Qed.

Lemma evolving_set_incarnation a : evolving (set_to_state_incarnation bs a).
Proof.
  intros st [] st' Hwf E. unfold set_to_state_incarnation, ensure_account in E. take.
  apply sbind_ok in E as (ac & st2 & E2 & E). apply sbind_ok in E as (inc & st3 & E3 & E). unbind.
  apply (write_evolves _ _ _ _ _ _ Hwf E1 E).
  - apply gentle_account; [by unfold hash_of; destruct (account_ x)|]. intros _. apply inc_eqb_refl.
  - unfold balance_of. by destruct (account_ x).
Qed.

Lemma quiet_wf st st' : wf st -> quiet st st' -> logs_ st' = logs_ st -> wf st'.
Proof. intros Hwf [] El. by apply (wf_same st). Qed.

Lemma evolving_set_storage a k v : evolving (set_storage bs a k v).
Proof.
  intros st r st' Hwf E. unfold set_storage in E. take.
  destruct (current_evolves a st x st1 Hwf E1) as (V1 & W1 & O1 & _ & R1).
  apply sbind_ok in E as (ac & st2 & [Ea ->]%sopt_ok & E).
  apply sbind_ok in E as (o & st2 & E2 & E). destruct (quiet_original a st1 o st2 E2) as [Q2 Ho].
  apply sbind_ok in E as (ov & st3 & E3 & E).
  pose proof (quiet_read_original _ _ _ _ _ _ _ Ho E3) as Q3. assert (Q : quiet st1 st3) by (by etrans).
  pose proof (stays_original_account_state bs a st1 W1) as L2. rewrite E2 in L2. simpl in L2.
  pose proof (stays_read_original bs a o (acct_incarnation ac) k st2 (local_wf _ _ L2)) as L3.
  rewrite E3 in L3. simpl in L3.
  assert (O3 : owned a st3) by (unfold owned, stack; by rewrite (qu_current _ _ Q), (qu_version _ _ Q)).
  pose proof (set_storage_value k v ov x) as Hx.
  destruct (account_state.set_storage k v ov x) as [status x']. simpl in Hx. subst x'.
  apply sbind_ok in E as ([] & st4 & E4 & E). unbind.
  apply (evolves_all_trans st st1), (evolves_all_trans st1 st3); [done|by apply quiet_evolves|].
  assert (Hr : recent_view st3 a = x).
  { unfold StateHooks.recent_view in *. rewrite (qu_current _ _ Q). unfold owned, stack in O1.
    destruct (default [] (current_ st1 !! a)) as [|[u y] vs]; [done|]. exact R1. }
  by apply (store_evolves _ _ _ _ _ (local_wf _ _ L3) O3 E4); rewrite Hr.
Qed.

Lemma evolving_store_log l : evolving (store_log l).
Proof.
  intros st r st' Hwf E. unfold store_log in E. unbind.
  apply quiet_evolves; [done|]. by split.
Qed.

Lemma evolving_quiet {A} (m : SM A) :
  (forall st r st', m st = (ROk r, st') -> quiet st st') -> evolving m.
Proof. intros H st r st' Hwf E. apply quiet_evolves; [done|by eapply H]. Qed.

(** ** Operations that judge *)
Definition tracks {A} (m : SM A) : Prop :=
  forall W st r st', wf st -> Inv all W st -> m st = (ROk r, st') -> Inv all W st'.

Lemma evolving_tracks {A} (m : SM A) : evolving m -> tracks m.
Proof. intros H W st r st' Hwf I E. apply (inv_evolves_all _ _ st); [done|by eapply H]. Qed.

Lemma tracks_bind {A C} (m : SM A) (k : A -> SM C) :
  stays m -> tracks m -> (forall r, tracks (k r)) -> tracks (sbind m k).
Proof.
  intros Hs Hm Hk W st r st' Hwf I E. apply sbind_ok in E as (x & st1 & E1 & E).
  apply (Hk x W st1 r); [|by apply (Hm W st x)|done].
  pose proof (Hs st Hwf) as L. rewrite E1 in L. apply L.
Qed.

Lemma inv_or_all W a st : Inv (fun b => all b \/ b = a) (fun b => W b \/ b = a) st -> Inv all W st.
Proof. apply Inv_weaken; auto. Qed.

(** A debit judges the account. *)
Lemma on_debit_tracks (W : address -> Prop) a st r st' :
  Inv all (fun b => W b /\ but a b) st -> rb_on_debit bs a st = (ROk r, st') -> Inv all W st'.
Proof.
  intros I E. destruct (update_tracks _ _ a st I (inv_faithful _ _ _ I a Logic.I)) as (st1 & E1 & _ & I1).
  unfold rb_on_debit in E. rewrite E in E1. injection E1 as _ <-.
  revert I1. apply Inv_weaken; [auto|]. intros b Hb. destruct (decide (b = a)); [by right|by left].
Qed.

(** A credit judges it only if it failed, which is enough: more balance cannot
    make an account fail. *)
Lemma credit_tracked a st st' :
  evolves (but a) st st' -> tracked st a ->
  balance_of (recent_view st a) <= balance_of (recent_view st' a) ->
  a ∉ failed_ (rb_ st') -> tracked st' a.
Proof.
  intros V H Hb Hf He. split; [done|]. specialize (H (evolves_exempt_false _ _ _ _ V He)).
  unfold ReserveSpec.in_violation in *. rewrite (evolves_threshold _ _ _ _ V).
  rewrite (ev_rb _ _ _ V) in Hf. intros Hv. exfalso. apply Hf, H.
  unfold falls_below in *. destruct (threshold_of st a); [|done].
  apply Z.ltb_lt in Hv. apply Z.ltb_lt. lia.
Qed.

Lemma on_credit_tracks (W : address -> Prop) a st st1 r st' :
  Inv all W st -> evolves (but a) st st1 ->
  balance_of (recent_view st a) <= balance_of (recent_view st1 a) ->
  rb_on_credit bs a st1 = (ROk r, st') -> Inv all W st'.
Proof.
  intros I V Hb E. pose proof (inv_evolves _ _ _ _ _ I V) as I1.
  unfold rb_on_credit in E. apply sbind_ok in E as (rb & st2 & E2 & E). injection E2 as <- <-.
  rewrite (inv_tracking _ _ _ I1) in E. simpl in E. unfold failed_contains in E.
  case_bool_decide as Hf; [by apply (on_debit_tracks W a st1 r)|]. injection E as <- <-.
  destruct I1 as [G1 G2 G3 G4 G5 G6]. split; [done..|]. intros b HW.
  destruct (decide (b = a)) as [->|Hne]; [|by apply G6].
  apply (credit_tracked a st); [done|by apply I|done..].
Qed.

(** Both balance updates, up to the hook. *)
Lemma update_balance_run a ok msg f hook st r st' :
  wf st -> update_balance bs a ok msg f hook st = (ROk r, st') ->
  exists st1, wf st1 /\ evolves (but a) st st1 /\ hook st1 = (ROk r, st') /\
    ok (balance_of (recent_view st a)) = true /\
    balance_of (recent_view st1 a) = f (balance_of (recent_view st a)).
Proof.
  intros Hwf E. unfold update_balance in E. take.
  destruct (current_evolves a st x st1 Hwf E1) as (V1 & W1 & O1 & Ex & R1).
  unfold ensure_account in E. apply sbind_ok in E as (ac & st2 & E2 & E).
  apply sbind_ok in E2 as (inc & st3 & E3 & E2). injection E3 as <- <-. injection E2 as <- <-.
  set (ac := default (new_account (incarnation_ st1)) (account_ x)) in E.
  assert (Hac : acct_balance ac = balance_of x /\ acct_code_hash ac = hash_of x /\
    (from_option (fun acct => inc_eqb (acct_incarnation acct) (incarnation_ st1)) false (account_ x) =
      true -> inc_eqb (acct_incarnation ac) (incarnation_ st1) = true)).
  { unfold ac, balance_of, hash_of. by destruct (account_ x). }
  destruct Hac as (B & H & C).
  apply sbind_ok in E as ([] & st2 & E2 & E).
  destruct (store_evolves all a _ st1 st2 W1 O1 E2) as (V2 & W2 & O2 & R2);
    [rewrite R1; by apply gentle_account|intros _; by rewrite R1|].
  apply sbind_ok in E as (u & st3 & E3 & E). unfold sassert_throw in E3.
  destruct (ok (acct_balance ac)) eqn:Eok; [injection E3 as <- <-|done].
  apply sbind_ok in E as ([] & st3 & E3 & E).
  destruct (store_evolves (but a) a _ st2 st3 W2 O2 E3) as (V3 & W3 & O3 & R3);
    [|by intros []|].
  { rewrite R2. by split. }
  exists st3. rewrite <- Ex, <- B, R3. split_and!; try done.
  apply (evolves_trans all (but a) st st1); [done..|]. by apply (evolves_trans all (but a) st1 st2).
Qed.

Lemma tracks_subtract a d : tracks (subtract_from_balance bs a d).
Proof.
  intros W st r st' Hwf I E.
  destruct (update_balance_run a (fun z : u256 => d <=? z) "balance underflow" (fun z => #(z - d))
    (rb_on_debit bs a) st r st' Hwf E) as (st1 & W1 & V & E1 & _).
  apply (on_debit_tracks W a st1 r); [|done]. by apply (inv_evolves _ _ _ st).
Qed.

Lemma tracks_add a d : tracks (add_to_balance bs a d).
Proof.
  intros W st r st' Hwf I E.
  destruct (update_balance_run a (fun z : u256 => z <=? modulus 256 - 1 - d) "balance overflow"
    (fun z => #(z + d)) (rb_on_credit bs a) st r st' Hwf E) as (st1 & W1 & V & E1 & Hok & Hb).
  apply (on_credit_tracks W a st st1 r); [done..| |done]. rewrite Hb. apply Z.leb_le in Hok.
  rewrite uval_wrap_small; word_lia.
Qed.

(** Marking the account destructed, then judging it. *)
Lemma tracks_destruct a :
  tracks (sbind (current_account_state bs a) (fun x =>
    let '(inserted, s) := substate.destruct (as_sub x) in
    sbind (set_current a (with_sub s x)) (fun _ =>
    sbind (rb_on_debit bs a) (fun _ => sret inserted)))).
Proof.
  intros W st r st' Hwf I E. take. unfold substate.destruct in E.
  apply sbind_ok in E as ([] & st2 & E2 & E). apply sbind_ok in E as (u & st3 & E3 & E).
  injection E as <- <-. apply (on_debit_tracks W a st2 u); [|done].
  apply (Inv_weaken all all W); [done|by intros b []|]. apply (inv_evolves_all _ _ st); [done|].
  apply (write_evolves _ _ _ _ _ _ Hwf E1 E2); [by apply gentle_sub|done].
Qed.

Lemma tracks_selfdestruct cancun a b : tracks (selfdestruct bs cancun a b).
Proof.
  intros W st r st' Hwf I E. unfold selfdestruct in E.
  apply sbind_ok in E as (x & st1 & E1 & E).
  destruct (current_evolves a st x st1 Hwf E1) as (V1 & W1 & _).
  pose proof (inv_evolves_all _ _ _ _ I V1) as I1.
  apply sbind_ok in E as (bal & st2 & E2 & E).
  pose proof (stays_get_balance bs a st1 W1) as L2. rewrite E2 in L2. simpl in L2.
  apply (evolving_tracks _ (evolving_quiet _ (fun st r st' H => proj1 (quiet_get_balance a st r st' H))) W) in E2;
    [|done..].
  pose proof (local_wf _ _ L2) as W2. apply sbind_ok in E as (move & st3 & E3 & E).
  assert (H3 : wf st3 /\ Inv all W st3).
  { destruct cancun; simpl in E3; [|by injection E3 as <- <-].
    destruct (negb (a =w? b)); [by injection E3 as <- <-|].
    pose proof (stays_is_current_incarnation bs a st2 W2) as L3. rewrite E3 in L3.
    split; [apply L3|].
    by apply (evolving_tracks _ (evolving_quiet _ (quiet_is_current a)) W st2 move st3 W2). }
  destruct H3 as [W3 I3].
  apply sbind_ok in E as (u & st4 & E4 & E).
  assert (Hs : forall m : SM unit, stays m -> tracks m -> forall s u s', wf s -> Inv all W s ->
    m s = (ROk u, s') -> wf s' /\ Inv all W s').
  { intros m Hst Hk s u' s' Hs Hi Em. split; [|by apply (Hk W s u')].
    pose proof (Hst s Hs) as L. rewrite Em in L. apply L. }
  assert (H4 : wf st4 /\ Inv all W st4).
  { destruct move; [|by injection E4 as <- <-]. apply sbind_ok in E4 as (u' & st5 & E5 & E4).
    assert (H5 : wf st5 /\ Inv all W st5).
    { destruct (negb (a =w? b)); [|by injection E5 as <- <-].
      by apply (Hs _ (stays_add_to_balance bs b bal) (tracks_add b bal) st3 u'). }
    destruct H5. by apply (Hs _ (stays_subtract_from_balance bs a bal) (tracks_subtract a bal) st5 u). }
  destruct H4 as [W4 I4].
  apply sbind_ok in E as (x2 & st5 & E5 & E). unfold substate.destruct in E.
  apply sbind_ok in E as ([] & st6 & E6 & E). apply sbind_ok in E as (u' & st7 & E7 & E).
  injection E as <- <-.
  apply (tracks_destruct a W st4 (negb (destructed_ (as_sub x2)))); [done..|].
  unfold sbind, substate.destruct. by rewrite E5, E6, E7.
Qed.

(** Forgetting the cached threshold of an account and judging it afresh. *)
Lemma reset_update F W a st r st' :
  Inv F W st ->
  sbind (rb_set_threshold a None) (fun _ => update_violation_status bs a) st = (ROk r, st') ->
  Inv (fun b => F b \/ b = a) (fun b => W b \/ b = a) st' /\ same_core bs st st'.
Proof.
  intros I E. apply sbind_ok in E as (u & st1 & E1 & E).
  assert (Hc : same_core bs st st1) by (injection E1 as _ <-; by split).
  assert (Hf : failed_ (rb_ st1) = failed_ (rb_ st)) by (by injection E1 as _ <-).
  assert (Ht : violation_thresholds_ (rb_ st1) = <[a := None]> (violation_thresholds_ (rb_ st)))
    by (by injection E1 as _ <-).
  assert (I1 : Inv F W st1).
  { apply (inv_same_core F W st); [done..| |].
    - intros b Hb. unfold faithful, cached. rewrite Ht, (threshold_core bs Hc), (exempt_core bs Hc).
      destruct (decide (a = b)) as [<-|Hab]; [by rewrite lookup_insert_eq|].
      rewrite lookup_insert_ne by done. apply (inv_faithful _ _ _ I b Hb).
    - intros b Hb. unfold tracked. rewrite Hf, (exempt_core bs Hc), (in_violation_core bs Hc).
      apply (inv_tracked _ _ _ I b Hb). }
  destruct (update_tracks F W a st1 I1) as (st2 & E2 & Hc2 & I2).
  { intros t. unfold cached. by rewrite Ht, lookup_insert_eq. }
  rewrite E in E2. injection E2 as _ <-. split; [done|by etrans].
Qed.

(** ** Code *)
Section code.
Context (Hinj : forall c c', known c -> known c' -> keccak256 c = keccak256 c' -> c = c')
  (Hnull : keccak256 [] = NULL_HASH) (Hempty : known []).

(** A new code does not change what hashes in use denote. *)
Lemma code_insert c st st' h :
  known c -> code_ st' = <[keccak256 c := c]> (code_ st) -> hash_ok st h ->
  hash_ok st' h /\ (h = NULL_HASH \/ code_of st' h = code_of st h).
Proof using Hinj.
  intros Hc E [->|[Hk Hh]]; [by split; left|].
  assert (Ec : code_of st' h = code_of st h); [|split; [right; by rewrite Ec|by right]].
  unfold ReserveSpec.code_of at 1. rewrite E. destruct (decide (keccak256 c = h)) as [<-|Hne].
  - rewrite lookup_insert_eq. simpl. by apply Hinj.
  - by rewrite lookup_insert_ne.
Qed.

(** Between the write of the new code hash and the hook. *)
Record recoded a c st st' : Prop := mk_recoded {
  re_ok : hook_ok st'; re_rb : rb_ st' = rb_ st; re_inc : incarnation_ st' = incarnation_ st;
  re_code : code_ st' = <[keccak256 c := c]> (code_ st);
  re_orig : forall b, orig_view st' b = orig_view st b;
  re_other : forall b, b <> a -> recent_view st' b = recent_view st b;
  re_hash : hash_of (recent_view st' a) = keccak256 c;
  re_balance : balance_of (recent_view st' a) = balance_of (recent_view st a);
  re_exempt : exempt st' a = exempt st a;
  re_values : forall b y, y ∈ values st' b -> hash_of y = keccak256 c \/ y ∈ values st b;
}.

Lemma recoded_threshold F W a c st st' b :
  known c -> Inv F W st -> recoded a c st st' ->
  (b <> a \/ use_recent_code_hash_ (rb_ st) = false) -> threshold_of st' b = threshold_of st b.
Proof using Hinj.
  intros Hc I R Hb.
  assert (He : effective_hash bs st' b = effective_hash bs st b).
  { unfold effective_hash. rewrite (re_rb _ _ _ _ R), (re_orig _ _ _ _ R).
    destruct Hb as [Hb| ->]; [|done]. by rewrite (re_other _ _ _ _ R b Hb). }
  assert (Hs : subject_of bs st' b = subject_of bs st b).
  { unfold subject_of. destruct (b =w? STAKING_CA); [done|]. rewrite He.
    destruct (weqb_spec (effective_hash bs st b) NULL_HASH) as [|Hn]; [done|].
    destruct (code_insert c st st' (effective_hash bs st b) Hc (re_code _ _ _ _ R)) as [_ [?| ->]];
      [by apply (effective_hash_ok F W)|done|done]. }
  assert (Hr : reserve_of bs st' b = reserve_of bs st b)
    by (unfold reserve_of; by rewrite (re_rb _ _ _ _ R), (re_orig _ _ _ _ R)).
  unfold ReserveSpec.threshold_of. by rewrite Hs, Hr, (re_rb _ _ _ _ R).
Qed.

Lemma recoded_balance a c st st' b :
  recoded a c st st' -> balance_of (recent_view st' b) = balance_of (recent_view st b) /\
    exempt st' b = exempt st b.
Proof.
  intros R. destruct (decide (b = a)) as [->|Hb]; [by destruct R|].
  unfold ReserveSpec.exempt, current_of.
  by rewrite (re_other _ _ _ _ R b Hb), (re_rb _ _ _ _ R), (re_inc _ _ _ _ R).
Qed.

Lemma inv_recoded (F W P : address -> Prop) a c st st' :
  known c -> Inv F W st -> recoded a c st st' ->
  (forall b, P b -> b <> a \/ use_recent_code_hash_ (rb_ st) = false) ->
  Inv (fun b => F b /\ P b) (fun b => W b /\ P b) st'.
Proof using Hinj.
  intros Hc I R HP. assert (Hh : forall h, hash_ok st h -> hash_ok st' h).
  { intros h Hh. by apply (code_insert c st st' h Hc (re_code _ _ _ _ R)). }
  split.
  - apply R.
  - rewrite (re_rb _ _ _ _ R). apply I.
  - intros b. rewrite (re_orig _ _ _ _ R). apply Hh, (inv_orig _ _ _ I).
  - intros b y Hy. destruct (re_values _ _ _ _ R b y Hy) as [->|H]; [|by apply Hh, (inv_values _ _ _ I b)].
    right. unfold ReserveSpec.code_of. by rewrite (re_code _ _ _ _ R), lookup_insert_eq.
  - intros b [Hb Hp] t. unfold cached. rewrite (re_rb _ _ _ _ R).
    rewrite (recoded_threshold F W a c st st' b Hc I R (HP b Hp)).
    rewrite (proj2 (recoded_balance _ _ _ _ b R)). apply (inv_faithful _ _ _ I b Hb).
  - intros b [Hb Hp]. unfold tracked, ReserveSpec.in_violation.
    rewrite (recoded_threshold F W a c st st' b Hc I R (HP b Hp)), (re_rb _ _ _ _ R).
    destruct (recoded_balance _ _ _ _ b R) as [-> ->]. apply (inv_tracked _ _ _ I b Hb).
Qed.

(** Contract code takes the account out of the tracker's reach. *)
Lemma recoded_smart a c st st' :
  known c -> recoded a c st st' -> use_recent_code_hash_ (rb_ st) = true ->
  is_smart_contract_code c = true -> threshold_of st' a = Some #0.
Proof using Hinj Hnull Hempty.
  intros Hc R Hu [Hn Hd]%andb_true_iff. unfold ReserveSpec.threshold_of.
  assert (Hs : subject_of bs st' a = false); [|by rewrite Hs]. unfold subject_of.
  destruct (a =w? STAKING_CA); [done|]. unfold effective_hash.
  rewrite (re_rb _ _ _ _ R), Hu, (re_hash _ _ _ _ R).
  destruct (weqb_spec (keccak256 c) NULL_HASH) as [E|E].
  - rewrite <- Hnull in E. apply Hinj in E as ->; done.
  - unfold ReserveSpec.code_of. rewrite (re_code _ _ _ _ R), lookup_insert_eq. simpl.
    by apply negb_true_iff.
Qed.

Lemma on_set_code_tracks (W : address -> Prop) a c st st1 r st' :
  known c -> Inv all W st -> recoded a c st st1 ->
  rb_on_set_code bs a c st1 = (ROk r, st') -> Inv all W st'.
Proof using Hinj Hnull Hempty.
  intros Hc I R E. unfold rb_on_set_code in E. apply sbind_ok in E as (rb & st2 & E2 & E).
  injection E2 as <- <-. rewrite (re_rb _ _ _ _ R), (inv_tracking _ _ _ I) in E. simpl in E.
  destruct (use_recent_code_hash_ (rb_ st)) eqn:Hu; simpl in E.
  2:{ injection E as <- <-. eapply Inv_weaken; [| |apply (inv_recoded all W all a c st st1 Hc I R)];
        [done..|by right]. }
  assert (I1 : Inv (fun b => all b /\ but a b) (fun b => W b /\ but a b) st1)
    by (apply (inv_recoded all W (but a) a c st st1 Hc I R); by left).
  assert (Hw : forall s, Inv (fun b => (all b /\ but a b) \/ b = a)
    (fun b => (W b /\ but a b) \/ b = a) s -> Inv all W s).
  { intros s. apply Inv_weaken; intros b Hb; destruct (decide (b = a)); auto; left; done. }
  destruct (is_smart_contract_code c) eqn:Hs.
  - assert (J : judged bs a (Some #0) false st1 st').
    { apply sbind_ok in E as (u & st3 & E3 & E). injection E3 as _ <-. injection E as _ <-.
      split; [by split|done..]. }
    pose proof (recoded_smart a c st st1 Hc R Hu Hs) as Ht. apply Hw.
    destruct (judged_true a (Some #0) false st1 st' J) as [H1 H2].
    + intros t [= <-]. by left.
    + intros _. unfold ReserveSpec.in_violation. by rewrite Ht, falls_below_zero.
    + by apply (inv_judged _ _ _ _ _ _ _ I1 J).
  - apply Hw. by apply (reset_update _ _ a st1 r).
Qed.

Lemma tracks_set_code a c : known c -> tracks (set_code bs keccak256 a c).
Proof using Hinj Hnull Hempty.
  intros Hc W st r st' Hwf I E. unfold set_code in E. take.
  destruct (current_evolves a st x st1 Hwf E1) as (V1 & W1 & O1 & _ & R1).
  pose proof (inv_evolves_all _ _ _ _ I V1) as I1.
  destruct (account_ x) as [ac|] eqn:Ea; [|by injection E as <- <-].
  apply sbind_ok in E as (u & st2 & E2 & E). injection E2 as _ <-.
  apply sbind_ok in E as ([] & st3 & E3 & E).
  destruct (store_facts a _ _ st3 (local_wf _ _ (local_code st1 _ W1)) O1 E3)
    as (W3 & _ & F1 & F2 & F3 & F4 & F5 & F6).
  apply (on_set_code_tracks W a c st1 st3 r); try done. split; try done.
  - by apply wf_hook_ok.
  - intros b Hb. by rewrite F5, decide_False.
  - by rewrite F5, decide_True.
  - rewrite F5, decide_True, R1 by done. unfold balance_of. by rewrite Ea.
  - unfold ReserveSpec.exempt, current_of. rewrite F1, F2, F5, decide_True, R1 by done. by rewrite Ea.
  - intros b y Hy. destruct (F6 b y Hy) as [[-> ->]|H]; [by left|by right].
Qed.

(** ** Frames *)
Lemma inv_set_frame F W v d st : Inv F W st -> Inv F W (set_frame v d st).
Proof. intros [[] ? ? ? ? ?]. by split. Qed.

Lemma tracks_push : tracks push.
Proof.
  intros W st r st' Hwf I E. destruct (run_push st Hwf) as (st1 & E1 & _ & ->).
  rewrite E in E1. injection E1 as _ ->. by apply inv_set_frame.
Qed.

Lemma tracks_pop_accept W st r st' :
  wf st -> version_ st <> 0%nat -> Inv all W st -> pop_accept st = (ROk r, st') -> Inv all W st'.
Proof.
  intros Hwf Hv I E. destruct (run_pop_accept st Hwf Hv)
    as (st1 & E1 & W1 & _ & _ & (R1 & R2 & R3 & _ & R5) & Ha & _).
  rewrite E in E1. injection E1 as _ <-. apply (inv_evolves_all _ _ st); [done|].
  assert (Ho : forall b, orig_view st' b = orig_view st b)
    by (intros b; unfold StateHooks.orig_view; by rewrite R2).
  assert (Hr : forall b, recent_view st' b = recent_view st b).
  { intros b. unfold StateHooks.recent_view. rewrite Ho. f_equal.
    apply (proj1 (proj2 (proj2 (Ha b)))). }
  split; try done.
  - by apply wf_hook_ok.
  - intros b. by rewrite Ho.
  - intros b. by rewrite Hr.
  - intros b _. by rewrite Hr.
  - intros b y Hy. right. exists y. split; [|done]. by apply (Ha b).
  - by apply caches_same.
Qed.

(** Every rejected account is judged afresh. *)
Lemma reject_loop l F W st r st' :
  Inv F W st -> rb_pop_reject_loop bs l st = (ROk r, st') ->
  Inv (fun b => F b \/ b ∈ l) (fun b => W b \/ b ∈ l) st'.
Proof.
  revert F W st. induction l as [|a l IH]; intros F W st I E.
  - injection E as <- <-. revert I. apply Inv_weaken; by intros b [?|?%elem_of_nil].
  - cbn [rb_pop_reject_loop] in E. apply sbind_ok in E as (u & st1 & E1 & E).
    apply sbind_ok in E as (u' & st2 & E2 & E).
    destruct (reset_update F W a st u' st2 I) as [I2 _].
    { unfold sbind. by rewrite E1. }
    specialize (IH _ _ st2 I2 E). revert IH.
    apply Inv_weaken; intros b [?|[?|?]%elem_of_cons]; auto.
Qed.

Lemma tracks_pop_reject W st r st' :
  wf st -> version_ st <> 0%nat -> Inv all W st -> pop_reject bs st = (ROk r, st') -> Inv all W st'.
Proof.
  intros Hwf Hv I E. destruct (run_cut_back bs st Hwf Hv) as (st1 & d & rest & Ed & B & Er).
  rewrite Er in E. apply sbind_ok in E as (u & st2 & E2 & E). injection E as _ <-. apply inv_set_frame.
  destruct (cb_rest _ _ B) as (R1 & R2 & R3 & _ & R5).
  assert (Ho : forall b, orig_view st1 b = orig_view st b)
    by (intros b; unfold StateHooks.orig_view; by rewrite R2).
  assert (Hh : forall h, hash_ok st h -> hash_ok st1 h)
    by (intros h; unfold hash_ok, ReserveSpec.code_of; by rewrite R3).
  assert (Hs : forall b, b ∉ d -> stack st1 b = stack st b).
  { intros b Hb. rewrite (cb_stack _ _ B). apply below_head. by apply (clean_below st Hwf Hv b d rest). }
  assert (Hj : forall b, b ∉ d -> recent_view st1 b = recent_view st b).
  { intros b Hb. unfold StateHooks.recent_view. rewrite Ho. f_equal. f_equal. apply (Hs b Hb). }
  assert (Hx : forall b, b ∉ d -> exempt st1 b = exempt st b /\ threshold_of st1 b = threshold_of st b).
  { intros b Hb. unfold ReserveSpec.exempt, current_of, ReserveSpec.threshold_of, subject_of,
      effective_hash, reserve_of, ReserveSpec.code_of. by rewrite Hj, Ho, R1, R3, R5. }
  assert (I1 : Inv (fun b => b ∉ d) (fun b => W b /\ b ∉ d) st1).
  { split.
    - by apply (cut_back_hook_ok st).
    - rewrite R5. apply I.
    - intros b. rewrite Ho. apply Hh, (inv_orig _ _ _ I).
    - intros b y Hy. apply Hh, (inv_values _ _ _ I b). unfold values in *. rewrite (cb_stack _ _ B) in Hy.
      by apply below_values in Hy.
    - intros b Hb t. unfold cached. destruct (Hx b Hb) as [-> ->]. rewrite R5.
      by apply (inv_faithful _ _ _ I b).
    - intros b [HW Hb]. unfold tracked, ReserveSpec.in_violation. destruct (Hx b Hb) as [-> ->].
      rewrite R5, Hj by done. by apply (inv_tracked _ _ _ I b). }
  unfold rb_on_pop_reject in E2. apply sbind_ok in E2 as (rb & st3 & E3 & E2). injection E3 as <- <-.
  rewrite (inv_tracking _ _ _ I1) in E2. simpl in E2.
  pose proof (reject_loop _ _ _ _ _ _ I1 E2) as I2. revert I2.
  apply Inv_weaken; intros b Hb; rewrite elem_of_elements; destruct (decide (b ∈ d)); auto.
Qed.
End code.
End track.
