(* ===== verification/ReserveSpare.v ===== *)
(** * The accounts the tracker spares

    A contract that is created and selfdestructs in the same transaction is exempt
    from the reserve-balance rule.  The tracker of
    src/category/execution/monad/reserve_balance.cpp erases an exempt account from
    the failed set when it judges it; this file shows that no exempt account is left
    in the set, as long as no account that was destructed is given the incarnation of
    the transaction afterwards ([op_orderly]).  The same induction shows that
    execution keeps the constants of the tracker and loads the original of every
    account it touches. *)
From S2P Require Import Prelude Prog Abi StakingVars VersionStack State3 StateHooks ReserveSpec StateFrames StateRefine ReserveTrack.

Section spare.
Context (bs : BlockReads).
Implicit Types (a b : address) (st : State) (x y : AccountState) (K : address -> Prop).

#[local] Abbreviation orig_view := (orig_view bs).
#[local] Abbreviation recent_view := (recent_view bs).
#[local] Abbreviation exempt := (exempt bs).
#[local] Abbreviation quiet := (quiet bs).

(** No account of [K] is exempt and marked. *)
Definition spared K st : Prop := forall b, K b -> exempt st b = true -> b ∉ failed_ (rb_ st).

Record passes K st st' : Prop := mk_passes {
  ps_static : rb_static (rb_ st') = rb_static (rb_ st);
  ps_original : forall b, is_Some (original_ st !! b) -> is_Some (original_ st' !! b);
  ps_current : forall b, is_Some (current_ st' !! b) -> is_Some (current_ st !! b) \/ is_Some (original_ st' !! b);
  ps_spared : spared all st -> spared K st';
}.

Lemma passes_refl st : passes all st st.
Proof. split; auto. Qed.

Lemma passes_trans K st1 st2 st3 : passes all st1 st2 -> passes K st2 st3 -> passes K st1 st3.
Proof.
  intros [A1 A2 A3 A4] [B1 B2 B3 B4]. split; [congruence|auto| |auto].
  intros b H. destruct (B3 b H) as [H1|H1]; [|by right]. destruct (A3 b H1); auto.
Qed.

(** Whether an account in this condition is exempt when exemptions are made. *)
Definition doomed (inc : Incarnation) x : bool :=
  destructed_ (as_sub x) && from_option (fun acct => inc_eqb (acct_incarnation acct) inc) false (account_ x).

Lemma exempt_doomed st a :
  exempt st a = allow_init_selfdestruct_exemption_ (rb_ st) && doomed (incarnation_ st) (recent_view st a).
Proof. unfold ReserveSpec.exempt, doomed, current_of. by rewrite andb_assoc. Qed.

(** The tracker is left alone and no account becomes exempt. *)
Lemma spared_same K st st' :
  rb_ st' = rb_ st -> incarnation_ st' = incarnation_ st ->
  (forall b, K b -> doomed (incarnation_ st) (recent_view st' b) = true ->
     doomed (incarnation_ st) (recent_view st b) = true) ->
  spared all st -> spared K st'.
Proof.
  intros Er Ei H Hs b Hb He. rewrite Er. apply Hs; [done|]. revert He. rewrite !exempt_doomed, Er, Ei.
  destruct (allow_init_selfdestruct_exemption_ _); [|done]. cbn [andb]. by apply H.
Qed.

Lemma quiet_passes st st' : quiet st st' -> passes all st st'.
Proof.
  intros Q. split.
  - by rewrite (qu_rb _ _ _ Q).
  - apply Q.
  - rewrite (qu_current _ _ _ Q). auto.
  - apply spared_same; [apply Q..|]. intros b _. unfold doomed.
    by destruct (quiet_recent bs st st' b Q) as [-> ->].
Qed.

Lemma current_passes a st x st' :
  wf st -> current_account_state bs a st = (ROk x, st') ->
  passes all st st' /\ wf st' /\ owned a st' /\ incarnation_ st' = incarnation_ st /\ x = recent_view st a /\
  (forall b, recent_view st' b = recent_view st b).
Proof.
  intros Hwf E. pose proof E as E'.
  destruct (current_load bs a st Hwf) as (st1 & E1 & W1 & O1 & _ & _ & I1 & _ & C1 & L1 & _ & R1).
  rewrite E in E1. injection E1 as -> ->. destruct (current_rest bs a st _ st1 Hwf E') as (B1 & _ & _).
  split_and!; try done. split; [by rewrite B1|done| |].
  - intros b Hb. destruct (decide (b = a)) as [->|Hne]; [|left; by rewrite <- C1].
    destruct (current_ st !! a) as [vs|] eqn:Ec; [by left|right].
    unfold current_account_state in E'. apply sbind_ok in E' as (v & s1 & E1 & E'). injection E1 as <- <-.
    rewrite Ec in E'. apply sbind_ok in E' as (v & s1 & E1 & E'). apply sbind_ok in E1 as (o & s2 & E2 & E1).
    destruct (quiet_original bs a st o s2 E2) as [_ Ho]. unbind. simpl.
    unfold mark. destruct (dirty_ _); simpl; by eexists.
  - apply spared_same; [done..|]. intros b _. change (recent_view st1 b) with (view bs st1 b). by rewrite R1.
Qed.

Lemma store_passes K a y st st' :
  wf st -> owned a st -> set_current a y st = (ROk tt, st') ->
  (K a -> doomed (incarnation_ st) y = true -> doomed (incarnation_ st) (recent_view st a) = true) ->
  passes K st st' /\ wf st' /\ owned a st' /\ incarnation_ st' = incarnation_ st /\ rb_ st' = rb_ st /\
  (forall b, recent_view st' b = if decide (b = a) then y else recent_view st b).
Proof.
  intros Hwf Ho E H. destruct (store_facts bs a y st st' Hwf Ho E) as (H1 & H2 & H3 & H4 & _ & _ & H7 & _).
  split_and!; try done. injection E as <-. split; [done|done| |].
  - intros b Hb. left. simpl in Hb. destruct (decide (a = b)) as [<-|Hne].
    + rewrite lookup_alter_eq in Hb. by destruct (current_ st !! a).
    + by rewrite lookup_alter_ne in Hb.
  - apply spared_same; [done..|]. intros b Hb. rewrite H7. by case_decide; subst; auto.
Qed.

(** ** Operations that judge nobody *)
Definition passing {A} (m : SM A) : Prop := forall st r st', wf st -> m st = (ROk r, st') -> passes all st st'.

Lemma write_passes a x y st st1 st' :
  wf st -> current_account_state bs a st = (ROk x, st1) -> set_current a y st1 = (ROk tt, st') ->
  (doomed (incarnation_ st) y = true -> doomed (incarnation_ st) x = true) -> passes all st st'.
Proof.
  intros Hwf E1 E H. destruct (current_passes a st x st1 Hwf E1) as (P1 & W1 & O1 & I1 & Ex & R1).
  apply (passes_trans all st st1 st' P1). apply (store_passes all a y st1 st' W1 O1 E).
  intros _. by rewrite R1, I1, <- Ex.
Qed.

Ltac take := match goal with E : sbind (current_account_state _ _) _ _ = (ROk _, _) |- _ =>
  let x := fresh "x" in let st1 := fresh "st1" in let E1 := fresh "E1" in
  apply sbind_ok in E as (x & st1 & E1 & E) end.

Lemma passing_ignore {A} (m : SM A) : passing m -> passing (ignore m).
Proof.
  intros H st r st' Hwf E. unfold ignore in E. apply sbind_ok in E as (x & st1 & E1 & E).
  injection E as <- <-. by apply (H st x).
Qed.

Lemma passing_quiet {A} (m : SM A) :
  (forall st r st', m st = (ROk r, st') -> quiet st st') -> passing (ignore m).
Proof. intros H. apply passing_ignore. intros st r st' _ E. by apply quiet_passes, (H st r). Qed.

Lemma passing_set_transient a k v : passing (set_transient_storage bs a k v).
Proof. intros st [] st' Hwf E. unfold set_transient_storage in E. take. by apply (write_passes _ _ _ _ _ _ Hwf E1 E). Qed.

Lemma passing_touch a : passing (touch bs a).
Proof. intros st [] st' Hwf E. unfold touch in E. take. by apply (write_passes _ _ _ _ _ _ Hwf E1 E). Qed.

Lemma passing_access_account a : passing (access_account bs a).
Proof.
  intros st r st' Hwf E. unfold access_account in E. take. unfold substate.access in E.
  apply sbind_ok in E as ([] & st2 & E2 & E). unbind. by apply (write_passes _ _ _ _ _ _ Hwf E1 E2).
Qed.

Lemma passing_access_storage a k : passing (access_storage bs a k).
Proof.
  intros st r st' Hwf E. unfold access_storage in E. take. unfold substate.access_storage in E.
  destruct (bool_decide _); apply sbind_ok in E as ([] & st2 & E2 & E); unbind;
    by apply (write_passes _ _ _ _ _ _ Hwf E1 E2).
Qed.

Lemma passing_set_storage a k v : passing (set_storage bs a k v).
Proof.
  intros st r st' Hwf E. unfold set_storage in E. take.
  destruct (current_passes a st x st1 Hwf E1) as (P1 & W1 & O1 & I1 & Ex & R1).
  apply sbind_ok in E as (ac & st2 & [Ea ->]%sopt_ok & E).
  apply sbind_ok in E as (o & st2 & E2 & E). destruct (quiet_original bs a st1 o st2 E2) as [Q2 Ho].
  apply sbind_ok in E as (ov & st3 & E3 & E).
  pose proof (quiet_read_original bs _ _ _ _ _ _ _ Ho E3) as Q3. assert (Q : quiet st1 st3) by (by etrans).
  pose proof (stays_original_account_state bs a st1 W1) as L2. rewrite E2 in L2. simpl in L2.
  pose proof (stays_read_original bs a o (acct_incarnation ac) k st2 (local_wf _ _ L2)) as L3.
  rewrite E3 in L3. simpl in L3.
  assert (O3 : owned a st3) by (unfold owned, stack; by rewrite (qu_current _ _ _ Q), (qu_version _ _ _ Q)).
  pose proof (set_storage_value k v ov x) as Hx.
  destruct (account_state.set_storage k v ov x) as [status x']. simpl in Hx. subst x'.
  apply sbind_ok in E as ([] & st4 & E4 & E). unbind.
  apply (passes_trans all st st1 _ P1), (passes_trans all st1 st3); [by apply quiet_passes|].
  apply (store_passes all a _ st3 _ (local_wf _ _ L3) O3 E4). intros _. unfold doomed.
  destruct (quiet_recent bs st1 st3 a Q) as [-> ->]. by rewrite R1, <- Ex.
Qed.

Lemma passing_store_log l : passing (store_log l).
Proof. intros st r st' Hwf E. unfold store_log in E. unbind. apply quiet_passes. by split. Qed.

(** *** Creating *)

(** A step that may give an account the incarnation of the transaction finds an
    account that is not destructed, or that has it already. *)
Definition op_orderly (o : op) st : bool :=
  match o with
  | OpSetNonce a _ => negb (destructed_ (as_sub (recent_view st a))) || has_value (account_ (recent_view st a))
  | OpCreateContract a | OpCreateAccountNoRollback a | OpSetToStateIncarnation a =>
      negb (destructed_ (as_sub (recent_view st a))) || doomed (incarnation_ st) (recent_view st a)
  | _ => true
  end.

(** An account that is not destructed is not doomed by a new incarnation. *)
Lemma doomed_create inc x (acct : option Account) :
  negb (destructed_ (as_sub x)) || doomed inc x = true ->
  doomed inc (with_account acct x) = true -> doomed inc x = true.
Proof. unfold doomed. cbn [as_sub with_account]. by destruct (destructed_ (as_sub x)). Qed.

Lemma passes_set_nonce a n st r st' :
  wf st -> op_orderly (OpSetNonce a n) st = true -> set_nonce bs a n st = (ROk r, st') -> passes all st st'.
Proof.
  intros Hwf Ho E. unfold set_nonce in E. take. unfold ensure_account in E.
  apply sbind_ok in E as (ac & st2 & E2 & E). unbind. destruct r.
  apply (write_passes _ _ _ _ _ _ Hwf E1 E). destruct (current_passes a st x st1 Hwf E1) as (_ & _ & _ & I1 & Ex & _).
  simpl in Ho. rewrite <- Ex in Ho. unfold doomed. rewrite I1. cbn [as_sub with_account account_ from_option].
  destruct (destructed_ (as_sub x)); [|done]. by destruct (account_ x).
Qed.

Lemma passes_create_contract a st r st' :
  wf st -> op_orderly (OpCreateContract a) st = true -> create_contract bs a st = (ROk r, st') -> passes all st st'.
Proof.
  intros Hwf Ho E. unfold create_contract in E. take. destruct (current_passes a st x st1 Hwf E1) as (_ & _ & _ & I1 & Ex & _).
  simpl in Ho. rewrite <- Ex in Ho. apply sbind_ok in E as (inc & st2 & E2 & E). injection E2 as <- <-. destruct r.
  destruct (account_ x) as [ac|] eqn:Ea.
  - apply sbind_ok in E as (u & st2 & [_ ->]%assert_ok & E).
    apply sbind_ok in E as (u' & st2 & [_ ->]%assert_ok & E).
    apply (write_passes _ _ _ _ _ _ Hwf E1 E). by apply doomed_create.
  - apply (write_passes _ _ _ _ _ _ Hwf E1 E). by apply doomed_create.
Qed.

Lemma passes_create_no_rollback a st r st' :
  wf st -> op_orderly (OpCreateAccountNoRollback a) st = true ->
  create_account_no_rollback bs a st = (ROk r, st') -> passes all st st'.
Proof.
  intros Hwf Ho E. unfold create_account_no_rollback in E. take.
  destruct (current_passes a st x st1 Hwf E1) as (_ & _ & _ & I1 & Ex & _). simpl in Ho. rewrite <- Ex in Ho.
  apply sbind_ok in E as (u & st2 & [_ ->]%assert_ok & E).
  apply sbind_ok in E as (inc & st2 & E2 & E). injection E2 as <- <-. destruct r.
  apply (write_passes _ _ _ _ _ _ Hwf E1 E). by apply doomed_create.
Qed.

Lemma passes_set_incarnation a st r st' :
  wf st -> op_orderly (OpSetToStateIncarnation a) st = true ->
  set_to_state_incarnation bs a st = (ROk r, st') -> passes all st st'.
Proof.
  intros Hwf Ho E. unfold set_to_state_incarnation, ensure_account in E. take.
  destruct (current_passes a st x st1 Hwf E1) as (_ & _ & _ & I1 & Ex & _). simpl in Ho. rewrite <- Ex in Ho.
  apply sbind_ok in E as (ac & st2 & E2 & E). apply sbind_ok in E as (inc & st3 & E3 & E). unbind. destruct r.
  apply (write_passes _ _ _ _ _ _ Hwf E1 E). by apply doomed_create.
Qed.

(** ** Judging *)
Lemma judged_spares (K K' : address -> Prop) a t f st st' :
  judged bs a t f st st' -> (exempt st a = true -> f = false) -> (forall b, K' b -> K b \/ b = a) ->
  spared K st -> spared K' st'.
Proof.
  intros [Hc Hf _] Hx HK Hs b Hb. rewrite (exempt_core bs Hc), Hf. intros He. unfold mark_failed.
  destruct (decide (b = a)) as [->|Hne]; [rewrite Hx by done; set_solver|].
  destruct (HK b Hb) as [Hk|]; [|done]. specialize (Hs b Hk He). destruct f; set_solver.
Qed.

Lemma update_spares (K K' : address -> Prop) a st r st' :
  hook_ok st -> tracking_enabled_ (rb_ st) = true -> update_violation_status bs a st = (ROk r, st') ->
  (forall b, K' b -> K b \/ b = a) -> same_core bs st st' /\ (spared K st -> spared K' st').
Proof.
  intros Hok Ht E HK. destruct (run_update bs a st Hok Ht) as (st1 & E1 & J). rewrite E in E1. injection E1 as _ <-.
  split; [apply J|]. apply (judged_spares K K' a _ _ st st' J); [|done].
  unfold next_failed. by intros ->.
Qed.

Lemma passes_judged K K' st0 st st' :
  passes K st0 st -> same_core bs st st' -> (spared K st -> spared K' st') -> passes K' st0 st'.
Proof.
  intros [A1 A2 A3 A4] Hc Hs. split; [|intros b Hb| |auto].
  - by rewrite (sc_static _ _ _ Hc).
  - by apply (sc_loaded _ _ _ Hc), A2.
  - intros b. rewrite (sc_current _ _ _ Hc). intros Hb. destruct (A3 b Hb); [by left|right].
    by apply (sc_loaded _ _ _ Hc).
Qed.

Lemma but_all a b : all b -> but a b \/ b = a.
Proof. intros _. destruct (decide (b = a)); [by right|by left]. Qed.

Lemma debit_passes a st0 st r st' :
  passes (but a) st0 st -> hook_ok st -> tracking_enabled_ (rb_ st) = true ->
  rb_on_debit bs a st = (ROk r, st') -> passes all st0 st'.
Proof.
  intros P Hok Ht E. destruct (update_spares (but a) all a st r st' Hok Ht E (but_all a)) as [Hc Hs].
  by apply (passes_judged (but a) all st0 st).
Qed.

Lemma credit_passes a st0 st r st' :
  passes (but a) st0 st -> hook_ok st -> tracking_enabled_ (rb_ st) = true ->
  rb_on_credit bs a st = (ROk r, st') -> passes all st0 st'.
Proof.
  intros P Hok Ht E. unfold rb_on_credit in E. apply sbind_ok in E as (rb & st1 & E1 & E). injection E1 as <- <-.
  rewrite Ht in E. simpl in E. unfold failed_contains in E.
  case_bool_decide as Hf; [by apply (debit_passes a st0 st r)|]. injection E as <- <-.
  apply (passes_judged (but a) all st0 st); [done..|]. intros Hs b _ He.
  destruct (decide (b = a)) as [->|Hne]; [done|by apply Hs].
Qed.

(** Both balance updates. *)
Lemma update_balance_passes a ok msg f hook st r st' :
  wf st -> update_balance bs a ok msg f hook st = (ROk r, st') ->
  exists st1, wf st1 /\ passes (but a) st st1 /\ hook st1 = (ROk r, st').
Proof.
  intros Hwf E. unfold update_balance in E. take.
  destruct (current_passes a st x st1 Hwf E1) as (P1 & W1 & O1 & I1 & Ex & R1).
  unfold ensure_account in E. apply sbind_ok in E as (ac & st2 & E2 & E).
  apply sbind_ok in E2 as (inc & st3 & E3 & E2). injection E3 as <- <-. injection E2 as <- <-.
  apply sbind_ok in E as ([] & st2 & E2 & E). destruct (current_store bs a (with_account (Some
    (default (new_account (incarnation_ st1)) (account_ x))) x) st1 W1 O1) as (st2' & E2' & W2 & O2 & _).
  rewrite E2 in E2'. injection E2' as <-.
  apply sbind_ok in E as (u & st3 & E3 & E). unfold sassert_throw in E3.
  destruct (ok _); [injection E3 as <- <-|done].
  apply sbind_ok in E as ([] & st3 & E3 & E).
  destruct (store_passes (but a) a _ st1 st2 W1 O1 E2) as (P2 & _ & _ & I2 & B2 & R2); [by intros []|].
  destruct (store_passes (but a) a _ st2 st3 W2 O2 E3) as (P3 & W3 & _ & I3 & B3 & R3); [by intros []|].
  exists st3. split_and!; [done| |done]. apply (passes_trans (but a) st st1 _ P1).
  destruct P2 as [A1 A2 A3 _], P3 as [C1 C2 C3 _]. split; [congruence|auto| |].
  - intros b H. destruct (C3 b H) as [H1|H1]; [|by right]. destruct (A3 b H1); auto.
  - apply spared_same; [congruence..|]. intros b Hb. rewrite R3, R2. by rewrite !decide_False.
Qed.

Lemma passes_tracking K st st' :
  passes K st st' -> tracking_enabled_ (rb_ st') = tracking_enabled_ (rb_ st).
Proof. intros P. exact (f_equal tracking_enabled_ (ps_static _ _ _ P)). Qed.

(** Under tracking. *)
Definition judging {A} (m : SM A) : Prop :=
  forall st r st', wf st -> tracking_enabled_ (rb_ st) = true -> m st = (ROk r, st') -> passes all st st'.

Lemma passing_judging {A} (m : SM A) : passing m -> judging m.
Proof. intros H st r st' Hwf _ E. by apply (H st r). Qed.

Lemma judging_ignore {A} (m : SM A) : judging m -> judging (ignore m).
Proof.
  intros H st r st' Hwf Ht E. unfold ignore in E. apply sbind_ok in E as (x & st1 & E1 & E).
  injection E as <- <-. by apply (H st x).
Qed.

Lemma judging_subtract a d : judging (subtract_from_balance bs a d).
Proof.
  intros st r st' Hwf Ht E.
  destruct (update_balance_passes a (fun z : u256 => d <=? z) "balance underflow" (fun z => #(z - d))
    (rb_on_debit bs a) st r st' Hwf E) as (st1 & W1 & P & E1).
  apply (debit_passes a st st1 r); [done|by apply wf_hook_ok| |done]. by rewrite (passes_tracking _ _ _ P).
Qed.

Lemma judging_add a d : judging (add_to_balance bs a d).
Proof.
  intros st r st' Hwf Ht E.
  destruct (update_balance_passes a (fun z : u256 => z <=? modulus 256 - 1 - d) "balance overflow"
    (fun z => #(z + d)) (rb_on_credit bs a) st r st' Hwf E) as (st1 & W1 & P & E1).
  apply (credit_passes a st st1 r); [done|by apply wf_hook_ok| |done]. by rewrite (passes_tracking _ _ _ P).
Qed.

(** A step that stays well-formed. *)
Lemma judging_step {A} (m : SM A) st0 st r st' :
  stays m -> judging m -> passes all st0 st -> wf st -> tracking_enabled_ (rb_ st0) = true ->
  m st = (ROk r, st') -> passes all st0 st' /\ wf st'.
Proof.
  intros Hs Hj P Hwf Ht E. pose proof (Hs st Hwf) as L. rewrite E in L. split; [|apply L].
  apply (passes_trans all st0 st _ P), (Hj st r); [done| |done]. by rewrite (passes_tracking _ _ _ P).
Qed.

Lemma judging_bind {A C} (m : SM A) (k : A -> SM C) :
  stays m -> judging m -> (forall r, judging (k r)) -> judging (sbind m k).
Proof.
  intros Hs Hm Hk st r st' Hwf Ht E. apply sbind_ok in E as (x & st1 & E1 & E).
  destruct (judging_step m st st x st1 Hs Hm (passes_refl st) Hwf Ht E1) as [P1 W1].
  apply (passes_trans all st st1 _ P1), (Hk x st1 r); [done| |done]. by rewrite (passes_tracking _ _ _ P1).
Qed.

Lemma judging_ret {A} (x : A) : judging (sret x).
Proof. intros st r st' _ _ [= <- <-]. apply passes_refl. Qed.

Lemma judging_current a : judging (current_account_state bs a).
Proof. intros st x st' Hwf _ E. by apply (current_passes a st x). Qed.

Lemma judging_destruct a (res : bool -> bool * u256) :
  judging (sbind (current_account_state bs a) (fun x =>
    let '(inserted, s) := substate.destruct (as_sub x) in
    sbind (set_current a (with_sub s x)) (fun _ =>
    sbind (rb_on_debit bs a) (fun _ => sret (res inserted))))).
Proof.
  intros st r st' Hwf Ht E. take. unfold substate.destruct in E.
  destruct (current_passes a st x st1 Hwf E1) as (P1 & W1 & O1 & I1 & Ex & R1).
  apply sbind_ok in E as ([] & st2 & E2 & E). apply sbind_ok in E as (u & st3 & E3 & E).
  injection E as <- <-. destruct (store_passes (but a) a _ st1 st2 W1 O1 E2) as (P2 & W2 & _); [by intros []|].
  assert (P : passes (but a) st st2) by (by apply (passes_trans (but a) st st1)).
  apply (debit_passes a st st2 u); [done|by apply wf_hook_ok| |done]. by rewrite (passes_tracking _ _ _ P).
Qed.

Lemma judging_selfdestruct cancun a b : judging (selfdestruct bs cancun a b).
Proof.
  apply judging_bind; [apply stays_current_account_state|apply judging_current|]. intros _.
  apply judging_bind; [apply stays_get_balance| |].
  { intros st r st' _ _ E. apply quiet_passes. by apply (quiet_get_balance bs a st r). }
  intros bal. apply judging_bind.
  { destruct cancun; simpl; [|stays]. destruct (negb (a =w? b)); [stays|apply stays_is_current_incarnation]. }
  { destruct cancun; simpl; [|apply judging_ret]. destruct (negb (a =w? b)); [apply judging_ret|].
    intros st r st' _ _ E. apply quiet_passes. by apply (quiet_is_current bs a st r). }
  intros move. apply judging_bind; [| |intros _; apply (judging_destruct a (fun i => (i, bal)))].
  { destruct move; stays; auto using stays_add_to_balance, stays_subtract_from_balance. }
  destruct move; [|apply judging_ret]. apply judging_bind; [| |intros _; apply judging_subtract].
  - stays; auto using stays_add_to_balance.
  - destruct (negb (a =w? b)); [apply judging_add|apply judging_ret].
Qed.

Lemma judging_set_code h a c : judging (set_code bs h a c).
Proof.
  intros st r st' Hwf Ht E. unfold set_code in E. take.
  destruct (current_passes a st x st1 Hwf E1) as (P1 & W1 & O1 & I1 & Ex & R1).
  destruct (account_ x) as [ac|] eqn:Ea; [|by injection E as <- <-].
  apply sbind_ok in E as (u & st2 & E2 & E). injection E2 as _ <-.
  apply sbind_ok in E as ([] & st3 & E3 & E).
  assert (P2 : passes all st1 (set_code_ (<[h c := c]> (code_ st1)) st1)) by (by split; auto).
  destruct (store_passes all a _ _ st3 (local_wf _ _ (local_code st1 _ W1)) O1 E3) as (P3 & W3 & _).
  { intros _. simpl. change (recent_view (set_code_ _ st1) a) with (recent_view st1 a). rewrite R1, <- Ex.
    unfold doomed. simpl. by rewrite Ea. }
  assert (P : passes all st st3) by (do 2 (eapply passes_trans; [eassumption|]); done).
  assert (Ht3 : tracking_enabled_ (rb_ st3) = true) by (by rewrite (passes_tracking _ _ _ P)).
  unfold rb_on_set_code in E. apply sbind_ok in E as (rb & st4 & E4 & E). injection E4 as <- <-.
  rewrite Ht3 in E. simpl in E. destruct (use_recent_code_hash_ (rb_ st3)); simpl in E; [|by injection E as <- <-].
  destruct (is_smart_contract_code c).
  - assert (J : judged bs a (Some #0) false st3 st').
    { apply sbind_ok in E as (u' & st4 & E4 & E). injection E4 as _ <-. injection E as _ <-. split; [by split|done..]. }
    apply (passes_judged all all st st3); [done|apply J|]. apply (judged_spares all all a _ _ _ _ J); auto.
  - apply sbind_ok in E as (u' & st4 & E4 & E).
    assert (Hc : same_core bs st3 st4) by (injection E4 as _ <-; by split).
    assert (Hs : spared all st3 -> spared all st4).
    { intros Hs b Hb. rewrite (exempt_core bs Hc). injection E4 as _ <-. by apply Hs. }
    assert (P4 : passes all st st4) by (by apply (passes_judged all all st st3)).
    apply (debit_passes a st st4 r); [|by apply (hook_ok_core bs st3), wf_hook_ok| |done].
    + destruct P4 as [A1 A2 A3 A4]. split; [done..|]. intros H b _. by apply A4.
    + by rewrite (passes_tracking _ _ _ P4).
Qed.

(** ** Operations and frames *)
Lemma passes_op o st st' :
  wf st -> tracking_enabled_ (rb_ st) = true -> op_orderly o st = true -> exec_op bs o st = (ROk tt, st') ->
  passes all st st'.
Proof.
  intros Hwf Ht Ho. assert (J : judging (exec_op bs o) -> exec_op bs o st = (ROk tt, st') -> passes all st st')
    by (intros J E; by apply (J st tt)).
  destruct o; cbn [exec_op] in *;
    try (apply J; first
      [ apply judging_add | apply judging_subtract | apply judging_set_code | apply judging_ignore, judging_selfdestruct ]);
    try (apply J, passing_judging; first
      [ apply passing_set_transient | apply passing_touch | apply passing_store_log
      | apply passing_ignore; first [apply passing_set_storage | apply passing_access_account | apply passing_access_storage] ]);
    try (apply J, passing_judging, passing_quiet; intros s r s' E; first
        [ by apply (quiet_get_balance bs a s r) | by apply (quiet_get_nonce bs a s r)
        | by apply (quiet_get_storage bs a k s r) | by apply (quiet_record_debit bs a d s r) ]).
  - by apply passes_set_nonce.
  - by apply passes_create_contract.
  - by apply passes_create_no_rollback.
  - by apply passes_set_incarnation.
Qed.

Lemma passes_pop_accept st r st' :
  wf st -> version_ st <> 0%nat -> pop_accept st = (ROk r, st') -> passes all st st'.
Proof.
  intros Hwf Hv E. destruct (run_pop_accept st Hwf Hv) as (st1 & E1 & W1 & _ & _ & (R1 & R2 & R3 & _ & R5) & Ha & _).
  rewrite E in E1. injection E1 as _ <-.
  assert (Ho : forall b, orig_view st' b = orig_view st b) by (intros b; unfold StateHooks.orig_view; by rewrite R2).
  split; [by rewrite R5|by rewrite R2| |].
  - intros b Hb. left. destruct (current_ st !! b) as [vs|] eqn:Ec; [by eexists|]. exfalso.
    pose proof (proj1 (proj2 (proj2 (Ha b)))) as Hr. destruct Hb as [vs' Hb]. unfold stack in Hr.
    rewrite Hb, Ec in Hr. simpl in Hr. destruct (wf_stack _ W1 b vs' Hb) as [Hn _]. by destruct vs' as [|[]].
  - apply spared_same; [done..|]. intros b _. unfold StateHooks.recent_view. rewrite Ho.
    pose proof (proj1 (proj2 (proj2 (Ha b)))) as Hr. unfold stack in Hr. unfold StateHooks.recent_view in *.
    by rewrite Hr.
Qed.

(** Every rejected account is judged. *)
Lemma reject_loop_passes l K st0 st r st' :
  passes K st0 st -> hook_ok st -> tracking_enabled_ (rb_ st) = true ->
  rb_pop_reject_loop bs l st = (ROk r, st') -> passes (fun b => K b \/ b ∈ l) st0 st'.
Proof.
  revert K st. induction l as [|a l IH]; intros K st P Hok Ht E.
  - injection E as <- <-. destruct P as [A1 A2 A3 A4]. split; [done..|]. intros H b [Hb|[]%elem_of_nil]. by apply A4.
  - cbn [rb_pop_reject_loop] in E. apply sbind_ok in E as (u & st1 & E1 & E).
    apply sbind_ok in E as (u' & st2 & E2 & E). assert (Hc : same_core bs st st1) by (injection E1 as _ <-; by split).
    assert (P1 : passes K st0 st1).
    { apply (passes_judged K K st0 st); [done..|]. intros Hs b Hb. rewrite (exempt_core bs Hc). injection E1 as _ <-. by apply Hs. }
    assert (Ht1 : tracking_enabled_ (rb_ st1) = true) by (by rewrite (sc_tracking _ _ _ Hc)).
    destruct (update_spares K (fun b => K b \/ b = a) a st1 u' st2) as [Hc2 Hs2]; [by apply (hook_ok_core bs st)|done..|].
    destruct (IH (fun b => K b \/ b = a) st2) as [A1 A2 A3 A4]; [by apply (passes_judged K _ st0 st1)|
      apply (hook_ok_core bs st1); [done|by apply (hook_ok_core bs st)]|by rewrite (sc_tracking _ _ _ Hc2)|done|].
    split; [done..|]. intros H b Hb. apply A4; [done|]. destruct Hb as [?|[?|?]%elem_of_cons]; auto.
Qed.

Lemma passes_pop_reject st r st' :
  wf st -> version_ st <> 0%nat -> tracking_enabled_ (rb_ st) = true -> pop_reject bs st = (ROk r, st') ->
  passes all st st'.
Proof.
  intros Hwf Hv Ht E. destruct (run_cut_back bs st Hwf Hv) as (st1 & d & rest & Ed & B & Er).
  rewrite Er in E. apply sbind_ok in E as (u & st2 & E2 & E). injection E as _ <-.
  destruct (cb_rest _ _ B) as (R1 & R2 & R3 & _ & R5).
  assert (Ho : forall b, orig_view st1 b = orig_view st b) by (intros b; unfold StateHooks.orig_view; by rewrite R2).
  assert (P1 : passes (fun b => b ∉ d) st st1).
  { split; [by rewrite R5|by rewrite R2| |].
    - intros b [vs Hb]. left. destruct (cb_current _ _ B b vs Hb) as [Es Hn]. rewrite (cb_stack _ _ B) in Es.
      unfold stack in Es. destruct (current_ st !! b); [by eexists|]. by destruct vs.
    - apply spared_same; [done..|]. intros b Hb. unfold StateHooks.recent_view. rewrite Ho.
      assert (Hs : stack st1 b = stack st b)
        by (rewrite (cb_stack _ _ B); apply below_head; by apply (clean_below st Hwf Hv b d rest)).
      unfold stack in Hs. by rewrite Hs. }
  unfold rb_on_pop_reject in E2. apply sbind_ok in E2 as (rb & st3 & E3 & E2). injection E3 as <- <-.
  assert (Ht1 : tracking_enabled_ (rb_ st1) = true) by (by rewrite R5).
  rewrite Ht1 in E2. simpl in E2.
  destruct (reject_loop_passes (elements d) _ st st1 u st2 P1) as [A1 A2 A3 A4]; [by apply (cut_back_hook_ok st)|done..|].
  split; [done..|]. intros H b _. change (exempt (set_frame _ _ st2) b) with (exempt st2 b).
  apply A4; [done|]. rewrite elem_of_elements. destruct (decide (b ∈ d)); auto.
Qed.

(** Every step of the execution is orderly where it happens. *)
Fixpoint item_orderly (i : item) st : bool :=
  match i with
  | Do o => op_orderly o st
  | Call body _ =>
      (fix go (l : list item) st : bool :=
         match l with [] => true | i :: l' => item_orderly i st && go l' (exec_item bs i st).2 end) body (push st).2
  end.

Fixpoint items_orderly (l : list item) st : bool :=
  match l with [] => true | i :: l' => item_orderly i st && items_orderly l' (exec_item bs i st).2 end.

Lemma call_orderly body accept st : item_orderly (Call body accept) st = items_orderly body (push st).2.
Proof. done. Qed.

Lemma passes_items l :
  Forall (fun i => forall st st', wf st -> tracking_enabled_ (rb_ st) = true -> item_orderly i st = true ->
    exec_item bs i st = (ROk tt, st') -> passes all st st') l ->
  forall st st', wf st -> tracking_enabled_ (rb_ st) = true -> items_orderly l st = true ->
    exec_items bs l st = (ROk tt, st') -> passes all st st'.
Proof.
  induction 1 as [|i l Hi _ IH]; intros st st' Hwf Ht Ho E.
  - injection E as <-. apply passes_refl.
  - cbn [items_orderly exec_items] in *. apply andb_true_iff in Ho as [H1 H2].
    apply sbind_ok in E as ([] & st1 & E1 & E). rewrite E1 in H2.
    pose proof (Hi st st1 Hwf Ht H1 E1) as P1. apply (passes_trans all st st1 _ P1), IH; [|by rewrite (passes_tracking _ _ _ P1)|done..].
    by apply (exec_local bs i st st1).
Qed.

Lemma passes_item i st st' :
  wf st -> tracking_enabled_ (rb_ st) = true -> item_orderly i st = true ->
  exec_item bs i st = (ROk tt, st') -> passes all st st'.
Proof.
  revert st st'. induction i as [o|body b IH] using item_ind_nested; intros st st' Hwf Ht Ho E; [by apply (passes_op o)|].
  rewrite call_orderly in Ho. rewrite exec_call in E. apply sbind_ok in E as ([] & st1 & E1 & E).
  apply sbind_ok in E as ([] & st2 & E2 & E). destruct (run_push st Hwf) as (st1' & E1' & W1 & Est1).
  rewrite E1 in E1', Ho. injection E1' as <-. simpl in Ho.
  assert (P1 : passes all st st1) by (rewrite Est1; by split; auto).
  assert (Ht1 : tracking_enabled_ (rb_ st1) = true) by (by rewrite (passes_tracking _ _ _ P1)).
  pose proof (passes_items body IH st1 st2 W1 Ht1 Ho E2) as P2.
  assert (L : local st1 st2) by (apply (items_local bs body); [|done..]; apply Forall_forall; intros i _; apply exec_local).
  assert (Hv : version_ st2 <> 0%nat) by (rewrite (local_version _ _ L), Est1; simpl; lia).
  apply (passes_trans all st st1 _ P1), (passes_trans all st1 st2 _ P2). destruct b.
  - by apply (passes_pop_accept st2 tt st' (local_wf _ _ L)).
  - apply (passes_pop_reject st2 tt st' (local_wf _ _ L)); [done| |done]. by rewrite (passes_tracking _ _ _ P2).
Qed.

Lemma passes_run l st st' :
  wf st -> tracking_enabled_ (rb_ st) = true -> items_orderly l st = true ->
  exec_items bs l st = (ROk tt, st') -> passes all st st'.
Proof. apply passes_items. apply Forall_forall. intros i _. apply passes_item. Qed.
End spare.
