(* ===== verification/ReserveBalance.v ===== *)
(** * The reserve-balance rule

    Models the rest of src/category/execution/monad/reserve_balance.cpp:
    when a sender may dip into its reserve, how the tracker is set up for a
    transaction ([init_from_tx]), the full scan [dipped_into_reserve] and the
    two verdicts [revert_transaction] and [revert_transaction_cached].  The
    theorems say that after [init_from_tx] the tracker's set of violating
    accounts stays exact through any execution, and that the full scan and the
    tracker give the same verdict. *)
From S2P Require Import Prelude Prog Abi StakingVars Transaction VersionStack State3 StateHooks ReserveSpec StateFrames StateRefine ReserveTrack ReserveSpare.

(** ** Dipping *)
Record ChainContext := mk_ctx {
  grandparent_senders_and_authorities : gset address;
  parent_senders_and_authorities : gset address;
  senders_and_authorities : gset address;
  ctx_senders : list address;
  ctx_authorities : list (list (option address)) }.

Definition can_sender_dip_into_reserve (sender : address) (i : nat) (sender_is_delegated : bool)
    (ctx : ChainContext) : bool :=
  if sender_is_delegated then false
  else if bool_decide (sender ∈ grandparent_senders_and_authorities ctx) ||
          bool_decide (sender ∈ parent_senders_and_authorities ctx) then false
  else if bool_decide (sender ∈ senders_and_authorities ctx) then
    forallb (fun j =>
      negb ((j <? i)%nat && bool_decide (ctx_senders ctx !! j = Some sender)) &&
      negb (bool_decide (Some sender ∈ default [] (ctx_authorities ctx !! j)))) (seq 0 (i + 1))
  else true.

Definition monad_default_max_reserve_balance_mon (_ : monad_revision) : Z := 10.

Definition get_max_reserve (rev : monad_revision) (_ : address) : u256 :=
  #(monad_default_max_reserve_balance_mon rev * 1000000000000000000).

Section reserve.
Context (bs : BlockReads).
#[local] Open Scope sm_scope.

Definition ctx_ok (i : nat) (ctx : ChainContext) : SM unit :=
  sassert (i <? length (ctx_senders ctx))%nat ;;
  sassert (i <? length (ctx_authorities ctx))%nat ;;
  sassert (length (ctx_senders ctx) =? length (ctx_authorities ctx))%nat.

(** ** Setting the tracker up *)
Definition init_from_tx (rev : monad_revision) (sender : address) (tx : Transaction)
    (base_fee_per_gas : option u256) (i : nat) (ctx : ChainContext) : SM unit :=
  if negb (rev_ge rev MONAD_FOUR) then
    modify_rb (fun rb => mk_rb true false false false #0 #0 false ∅ (violation_thresholds_ rb) None)
  else
    modify_rb (fun rb => mk_rb true (tracking_enabled_ rb) (use_recent_code_hash_ rb)
      (allow_init_selfdestruct_exemption_ rb) (sender_ rb) (sender_gas_fees_ rb) (sender_can_dip_ rb)
      (failed_ rb) (violation_thresholds_ rb) (get_max_reserve_ rb)) ;;
    ctx_ok i ctx ;;
    let use_recent := rev_ge rev MONAD_EIGHT in
    let allow := rev_ge rev MONAD_NINE in
    modify_rb (fun rb => mk_rb (has_state_tracer_ rb) (tracking_enabled_ rb) use_recent allow
      (sender_ rb) (sender_gas_fees_ rb) (sender_can_dip_ rb) (failed_ rb)
      (violation_thresholds_ rb) (get_max_reserve_ rb)) ;;
    sender_code_hash <-
      (if use_recent then get_code_hash bs sender
       else o <- original_account_state bs sender ;;
            sret (from_option acct_code_hash NULL_HASH (account_ (o_state o)))) ;;
    delegated <- is_delegated bs sender_code_hash ;;
    let sender_can_dip := can_sender_dip_into_reserve sender i delegated ctx in
    price <- sopt (gas_price (MonadTraits rev) tx (default #0 base_fee_per_gas)) ;;
    modify_rb (fun rb => mk_rb (has_state_tracer_ rb) true use_recent allow sender
      #(tx_gas_limit tx * price) sender_can_dip ∅ ∅ (Some (get_max_reserve rev))).

(** ** The full scan *)
(** Whether the account is skipped, and whether it is delegated. *)
Definition scan_skip (rev : monad_revision) (a : address) (effective_code_hash : bytes32)
    : SM (bool * bool) :=
  if negb (effective_code_hash =w? NULL_HASH) then
    c <- read_code_ bs effective_code_hash ;;
    sret (negb (evm_is_delegated c), evm_is_delegated c)
  else if rev_ge rev MONAD_NINE then
    d <- is_destructed bs a ;;
    c <- (if d : bool then is_current_incarnation bs a else sret false) ;;
    sret (c, false)
  else sret (false, false).

(** Whether an account that is not skipped dips. *)
Definition scan_balance (rev : monad_revision) (sender : address) (gas_fees : u256) (i : nat)
    (ctx : ChainContext) (a : address) (effective_is_delegated : bool) : SM bool :=
  orig_balance <- get_original_balance bs a ;;
  let max_reserve := get_max_reserve rev a in
  let reserve : u256 := if orig_balance <? max_reserve then orig_balance else max_reserve in
  let violation_threshold : option u256 :=
    if a =w? sender then
      if reserve <? gas_fees then None else Some #(reserve - gas_fees)
    else Some reserve in
  curr_balance <- get_balance bs a ;;
  if falls_below violation_threshold curr_balance then
    if a =w? sender then
      sret (negb (can_sender_dip_into_reserve sender i effective_is_delegated ctx))
    else
      sassert (has_value violation_threshold) ;; sret true
  else sret false.

Definition scan_account (rev : monad_revision) (sender : address) (gas_fees : u256) (i : nat)
    (ctx : ChainContext) (a : address) (vs : VersionStack AccountState) : SM bool :=
  o <- sget (fun st => original_ st !! a) ;;
  o <- sopt o ;;
  cur <- sopt (vs_recent vs) ;;
  let effective_code_hash :=
    if rev_ge rev MONAD_EIGHT then from_option acct_code_hash NULL_HASH (account_ cur)
    else from_option acct_code_hash NULL_HASH (account_ (o_state o)) in
  if a =w? STAKING_CA then sret false
  else
    skip <- scan_skip rev a effective_code_hash ;;
    if skip.1 : bool then sret false else scan_balance rev sender gas_fees i ctx a skip.2.

Fixpoint scan_accounts rev sender gas_fees i ctx (l : list (address * VersionStack AccountState))
    : SM bool :=
  match l with
  | [] => sret false
  | (a, vs) :: l =>
      dipped <- scan_account rev sender gas_fees i ctx a vs ;;
      if dipped : bool then sret true else scan_accounts rev sender gas_fees i ctx l
  end.

Definition dipped_into_reserve (rev : monad_revision) (sender : address) (tx : Transaction)
    (base_fee_per_gas : u256) (i : nat) (ctx : ChainContext) : SM bool :=
  ctx_ok i ctx ;;
  price <- sopt (gas_price (MonadTraits rev) tx base_fee_per_gas) ;;
  let gas_fees := #(tx_gas_limit tx * price) in
  current <- sget current_ ;;
  scan_accounts rev sender gas_fees i ctx (map_to_list current).

Definition dipped_into_reserve_cached : SM bool :=
  rb <- sget rb_ ;; sassert (tracking_enabled_ rb) ;; sret (has_violation rb).

Definition revert_transaction (rev : monad_revision) (sender : address) (tx : Transaction)
    (base_fee_per_gas : u256) (i : nat) (ctx : ChainContext) : SM bool :=
  if rev_ge rev MONAD_FOUR then dipped_into_reserve rev sender tx base_fee_per_gas i ctx
  else sret false.

Definition revert_transaction_cached (rev : monad_revision) : SM bool :=
  if rev_ge rev MONAD_FOUR then dipped_into_reserve_cached else sret false.
End reserve.

(** ** The tracker stays exact *)
Section exact.
Context (bs : BlockReads) (keccak256 : byte_string -> bytes32) (known : byte_string -> Prop).
Context (Hinj : forall c c', known c -> known c' -> keccak256 c = keccak256 c' -> c = c')
  (Hnull : keccak256 [] = NULL_HASH) (Hempty : known []).
#[local] Abbreviation Inv := (Inv bs keccak256 known).
#[local] Abbreviation tracks := (tracks bs keccak256 known).
#[local] Set Default Proof Using "Type*".

(** Code is only set to known code, under its hash. *)
Definition op_known (o : op) : Prop :=
  match o with OpSetCode h _ c => h = keccak256 /\ known c | _ => True end.

Fixpoint item_known (i : item) : Prop :=
  match i with
  | Do o => op_known o
  | Call body _ => foldr (fun i P => item_known i /\ P) True body
  end.

Lemma tracks_ignore {A} (m : SM A) : tracks m -> tracks (ignore m).
Proof using Type.
  intros H W st r st' Hwf I E. unfold ignore in E. apply sbind_ok in E as (x & st1 & E1 & E).
  injection E as <- <-. by apply (H W st x).
Qed.

Lemma tracks_quiet {A} (m : SM A) :
  (forall st r st', m st = (ROk r, st') -> quiet bs st st') -> tracks (ignore m).
Proof using Type. intros H. by apply tracks_ignore, evolving_tracks, evolving_quiet. Qed.

Lemma tracks_op o : op_known o -> tracks (exec_op bs o).
Proof.
  intros Ho. destruct o; simpl in *.
  - apply tracks_quiet. intros st r st' E. by apply (quiet_get_balance bs a st r).
  - apply tracks_quiet, quiet_get_nonce.
  - apply tracks_quiet, quiet_get_storage.
  - apply evolving_tracks, evolving_set_nonce.
  - apply tracks_add.
  - apply tracks_subtract.
  - apply tracks_ignore, evolving_tracks, evolving_set_storage.
  - apply evolving_tracks, evolving_set_transient.
  - apply evolving_tracks, evolving_touch.
  - apply tracks_ignore, evolving_tracks, evolving_access_account.
  - apply tracks_ignore, evolving_tracks, evolving_access_storage.
  - apply tracks_ignore, tracks_selfdestruct.
  - destruct Ho as [-> Hc]. by apply tracks_set_code.
  - apply evolving_tracks, evolving_create_contract.
  - apply evolving_tracks, evolving_create_no_rollback.
  - apply evolving_tracks, evolving_set_incarnation.
  - apply tracks_quiet, quiet_record_debit.
  - apply evolving_tracks, evolving_store_log.
Qed.

Lemma tracks_items l :
  Forall (fun i => item_known i -> tracks (exec_item bs i)) l ->
  foldr (fun i P => item_known i /\ P) True l -> tracks (exec_items bs l).
Proof.
  induction 1 as [|i l Hi _ IH]; intros Hk W st r st' Hwf I E.
  - by injection E as <- <-.
  - destruct Hk as [Hki Hkl]. cbn [exec_items] in E. apply sbind_ok in E as (x & st1 & E1 & E).
    destruct x. apply (IH Hkl W st1 r); [|by apply (Hi Hki W st tt)|done].
    by apply (exec_local bs i st st1).
Qed.

Lemma tracks_item i : item_known i -> tracks (exec_item bs i).
Proof.
  induction i as [o|body b IH] using item_ind_nested; intros Hk; [by apply tracks_op|].
  intros W st r st' Hwf I E. rewrite exec_call in E.
  apply sbind_ok in E as (x & st1 & E1 & E). apply sbind_ok in E as (y & st2 & E2 & E). destruct x, y.
  destruct (run_push st Hwf) as (st1' & E1' & W1 & Est1). rewrite E1 in E1'. injection E1' as <-.
  pose proof (tracks_push bs keccak256 known W st tt st1 Hwf I E1) as I1.
  pose proof (tracks_items body IH Hk W st1 tt st2 W1 I1 E2) as I2.
  assert (L : local st1 st2) by (apply (items_local bs body); [|done..];
    apply Forall_forall; intros i _; apply exec_local).
  assert (Hv : version_ st2 <> 0%nat) by (rewrite (local_version _ _ L), Est1; simpl; lia).
  destruct b.
  - by apply (tracks_pop_accept bs keccak256 known W st2 r st' (local_wf _ _ L) Hv).
  - by apply (tracks_pop_reject bs keccak256 known W st2 r st' (local_wf _ _ L) Hv).
Qed.

(** What [init_from_tx] leaves. *)
Record initialised (rev : monad_revision) (sender : address) (fees : u256) (dip : bool)
    (st st' : State) : Prop := mk_initialised {
  in_rb : rb_ st' = mk_rb true true (rev_ge rev MONAD_EIGHT) (rev_ge rev MONAD_NINE) sender fees dip
    ∅ ∅ (Some (get_max_reserve rev));
  in_current : current_ st' = current_ st;
  in_code : code_ st' = code_ st;
  in_version : version_ st' = version_ st;
  in_dirty : dirty_ st' = dirty_ st;
  in_logs : logs_ st' = logs_ st;
  in_orig : forall a, orig_view bs st' a = orig_view bs st a;
}.

Lemma calm_run {A} (m : SM A) st r st' :
  calm bs m -> hook_ok st -> m st = (ROk r, st') -> same_core bs st st'.
Proof using Type.
  intros Hm Hok E. destruct (Hm st Hok) as (x & st1 & E1 & Hc). rewrite E in E1.
  by injection E1 as _ <-.
Qed.

Lemma ctx_ok_run i ctx st r st' : ctx_ok i ctx st = (ROk r, st') -> st' = st.
Proof using Type.
  unfold ctx_ok. intros E. apply sbind_ok in E as (u & st1 & [_ ->]%assert_ok & E).
  apply sbind_ok in E as (u' & st1 & [_ ->]%assert_ok & E). by apply assert_ok in E as [_ ->].
Qed.

Lemma init_spec rev sender tx base i ctx st st' :
  hook_ok st -> rev_ge rev MONAD_FOUR = true ->
  init_from_tx bs rev sender tx base i ctx st = (ROk tt, st') ->
  exists price delegated, gas_price (MonadTraits rev) tx (default #0 base) = Some price /\
    initialised rev sender #(tx_gas_limit tx * price)
      (can_sender_dip_into_reserve sender i delegated ctx) st st'.
Proof using Type.
  intros Hok Hrev E. unfold init_from_tx in E. rewrite Hrev in E. cbn [negb] in E.
  apply sbind_ok in E as (u1 & st1 & E1 & E). injection E1 as _ <-.
  apply sbind_ok in E as (u2 & st2 & E2%ctx_ok_run & E). subst st2.
  apply sbind_ok in E as (u3 & st3 & E3 & E). injection E3 as _ <-.
  set (st3 := set_rb_ _ _) in E.
  assert (Hok3 : hook_ok st3).
  { destruct Hok as [H1 H2]. split; [done|]. intros Ht. by split; [|apply H2]. }
  apply sbind_ok in E as (h & st4 & E4 & E).
  assert (C4 : same_core bs st3 st4).
  { apply (calm_run (if rev_ge rev MONAD_EIGHT then get_code_hash bs sender
      else sbind (original_account_state bs sender) (fun o =>
        sret (from_option acct_code_hash NULL_HASH (account_ (o_state o))))) st3 h); [|done..].
    destruct (rev_ge rev MONAD_EIGHT); [apply calm_get_code_hash|].
    apply calm_bind; [apply calm_original|intros o; apply calm_ret]. }
  apply sbind_ok in E as (d & st5 & E5 & E).
  assert (C5 : same_core bs st3 st5).
  { transitivity st4; [exact C4|]. eapply calm_run; [apply calm_is_delegated| |exact E5].
    by apply (hook_ok_core bs st3). }
  apply sbind_ok in E as (price & st6 & [Ep ->]%sopt_ok & E). injection E as <-.
  exists price, d. split; [done|].
  split; [simpl; by rewrite (sc_tracer _ _ _ C5)|apply C5..].
Qed.

Lemma reserve_le_original st a : uval (reserve_of bs st a) <= balance_of (orig_view bs st a).
Proof using Type.
  unfold reserve_of. cbv zeta. case_match eqn:E; [lia|]. apply Z.ltb_ge in E. exact E.
Qed.

(** Nobody but a sender who cannot pay is in violation before execution starts. *)
Lemma fresh_not_violating st a t :
  current_ st !! a = None -> threshold_of bs st a = Some t -> in_violation bs st a = false.
Proof using Type.
  intros Hc Ht. unfold in_violation. rewrite Ht. simpl. apply Z.ltb_ge.
  assert (Hr : recent_view bs st a = orig_view bs st a) by (unfold recent_view; by rewrite Hc).
  rewrite Hr. pose proof (reserve_le_original st a) as Hres. unfold threshold_of in Ht.
  destruct (negb _); [injection Ht as <-; rewrite uval_wrap_0; word_lia|].
  destruct (a =w? _); [|by injection Ht as <-]. destruct (sender_can_dip_ _);
    [injection Ht as <-; rewrite uval_wrap_0; word_lia|].
  destruct (Z.ltb_spec (reserve_of bs st a) (sender_gas_fees_ (rb_ st))); [done|].
  injection Ht as <-. rewrite uval_wrap_small; word_lia.
Qed.

Lemma init_inv rev sender tx base i ctx st st' :
  wf st -> current_ st = ∅ -> tracking_enabled_ (rb_ st) = false ->
  (forall a, hash_ok bs keccak256 known st (hash_of (orig_view bs st a))) ->
  rev_ge rev MONAD_FOUR = true ->
  init_from_tx bs rev sender tx base i ctx st = (ROk tt, st') ->
  wf st' /\ Inv all (fun a => threshold_of bs st' a <> None) st'.
Proof.
  intros Hwf Hcur Ht Hh Hrev E.
  destruct (init_spec rev sender tx base i ctx st st' (wf_hook_ok _ Hwf) Hrev E)
    as (price & d & _ & [N1 N2 N3 N4 N5 N6 N7]).
  assert (Hrb : rb_ok (rb_ st')) by (rewrite N1; intros _; split; [done|by eexists]).
  split.
  - destruct Hwf as [W1 W2 W3 W4 W5]. split; unfold dirty_at, stack in *;
      rewrite ?N2, ?N4, ?N5, ?N6; done.
  - rewrite Hcur in N2. split.
    + split; [by rewrite N2|done].
    + by rewrite N1.
    + intros a. unfold hash_ok, code_of. rewrite N3, N7. apply Hh.
    + intros a x. unfold values, stack. rewrite N2, lookup_empty. by intros []%elem_of_nil.
    + intros a _ t. unfold cached. rewrite N1. simpl. by rewrite lookup_empty.
    + intros a Ha _. rewrite N1. simpl. destruct (threshold_of bs st' a) as [t|] eqn:Et; [|done].
      rewrite (fresh_not_violating st' a t); [set_solver|by rewrite N2|done].
Qed.

(** The tracker's invariant after any execution. *)
Lemma exact_run rev sender tx base i ctx items st0 st1 st :
  wf st0 -> current_ st0 = ∅ -> tracking_enabled_ (rb_ st0) = false ->
  (forall b, hash_ok bs keccak256 known st0 (hash_of (orig_view bs st0 b))) ->
  rev_ge rev MONAD_FOUR = true ->
  init_from_tx bs rev sender tx base i ctx st0 = (ROk tt, st1) ->
  item_known (Call items true) -> exec_items bs items st1 = (ROk tt, st) ->
  Inv all (fun a => threshold_of bs st1 a <> None) st.
Proof.
  intros Hwf Hc Ht Hh Hrev E1 Hk E2.
  destruct (init_inv rev sender tx base i ctx st0 st1) as [W1 I1]; try done.
  apply (tracks_items items) with st1 tt; try done.
  apply Forall_forall. intros j _. by apply tracks_item.
Qed.
End exact.

Lemma threshold_None bs st a : threshold_of bs st a = None -> a = sender_ (rb_ st).
Proof.
  unfold threshold_of. destruct (negb _); [done|]. by destruct (weqb_spec a (sender_ (rb_ st))).
Qed.

(** C17: the reserve-balance tracker is exact.  After [init_from_tx] on a fresh
    transaction state, whatever the transaction does - any sequence of state
    operations and nested calls, accepted or rejected - an account that is not
    exempt is in the tracker's failed set exactly when its balance is below the
    reserve the rule demands.  The accounts covered are all those whose reserve
    is defined at the start (all but a sender whose reserve cannot pay the gas
    fees).  Code is content-addressed: among the codes in play, equal hashes mean
    equal code. *)
Theorem tracker_exact bs (keccak256 : byte_string -> bytes32) (known : byte_string -> Prop)
    rev sender tx base i ctx items (st0 st1 st : State) (a : address) :
  (forall c c', known c -> known c' -> keccak256 c = keccak256 c' -> c = c') ->
  keccak256 [] = NULL_HASH -> known [] ->
  wf st0 -> current_ st0 = ∅ -> tracking_enabled_ (rb_ st0) = false ->
  (forall b, hash_ok bs keccak256 known st0 (hash_of (orig_view bs st0 b))) ->
  rev_ge rev MONAD_FOUR = true ->
  init_from_tx bs rev sender tx base i ctx st0 = (ROk tt, st1) ->
  item_known keccak256 known (Call items true) ->
  exec_items bs items st1 = (ROk tt, st) ->
  threshold_of bs st1 a <> None -> exempt bs st a = false ->
  (a ∈ failed_ (rb_ st) <-> in_violation bs st a = true).
Proof.
  intros Hinj Hnull Hempty Hwf Hc Ht Hh Hrev E1 Hk E2 Ha He.
  assert (I : Inv bs keccak256 known all (fun a => threshold_of bs st1 a <> None) st)
    by (by apply (exact_run bs keccak256 known Hinj Hnull Hempty rev sender tx base i ctx items st0)).
  by apply (inv_tracked _ _ _ _ _ _ I a Ha He).
Qed.

(** ** The scan and the tracker agree *)
Section scan.
Context (bs : BlockReads) (rev : monad_revision) (i : nat) (ctx : ChainContext).
#[local] Open Scope sm_scope.
Implicit Types (a sender : address) (st : State) (fees : u256).

(** The tracker was set up for this transaction. *)
Record set_up sender fees st : Prop := mk_set_up {
  su_tracking : tracking_enabled_ (rb_ st) = true;
  su_recent : use_recent_code_hash_ (rb_ st) = rev_ge rev MONAD_EIGHT;
  su_allow : allow_init_selfdestruct_exemption_ (rb_ st) = rev_ge rev MONAD_NINE;
  su_sender : sender_ (rb_ st) = sender;
  su_fees : sender_gas_fees_ (rb_ st) = fees;
  su_max : get_max_reserve_ (rb_ st) = Some (get_max_reserve rev);
}.

Definition delegated_now st a : bool :=
  negb (effective_hash bs st a =w? NULL_HASH) &&
  evm_is_delegated (code_of bs st (effective_hash bs st a)).

(** The threshold the scan uses, before it asks whether the sender may dip. *)
Definition scan_threshold sender fees st a : option u256 :=
  if a =w? sender then
    if reserve_of bs st a <? fees then None else Some #(reserve_of bs st a - fees)
  else Some (reserve_of bs st a).

Definition scan_verdict sender fees st a : bool :=
  subject_of bs st a &&
  negb ((effective_hash bs st a =w? NULL_HASH) && exempt bs st a) &&
  falls_below (scan_threshold sender fees st a) (balance_of (recent_view bs st a)) &&
  (if a =w? sender then negb (can_sender_dip_into_reserve sender i (delegated_now st a) ctx) else true).

Section one.
Context (sender : address) (fees : u256) (st : State) (Hok : hook_ok st) (Hu : set_up sender fees st).

Lemma view_effective st' a : same_view bs st st' -> effective_hash bs st' a = effective_hash bs st a.
Proof using Type. intros V. apply effective_hash_core, V. Qed.

Lemma reads_scan_skip a :
  reads bs (scan_skip bs rev a (effective_hash bs st a))
    (fun s => if negb (effective_hash bs st a =w? NULL_HASH)
              then (negb (evm_is_delegated (code_of bs s (effective_hash bs st a))),
                    evm_is_delegated (code_of bs s (effective_hash bs st a)))
              else (rev_ge rev MONAD_NINE && destructed_ (as_sub (recent_view bs s a)) &&
                    current_of bs s a, false)).
Proof using Type.
  unfold scan_skip. destruct (negb (effective_hash bs st a =w? NULL_HASH)).
  - apply (reads_map bs _ _ (fun c => (negb (evm_is_delegated c), evm_is_delegated c))), reads_read_code.
  - destruct (rev_ge rev MONAD_NINE); [|apply reads_ret]. intros s Hs Ht.
    read (reads_is_destructed bs a) as (s1 & -> & V1 & Hok1 & Ht1). simpl.
    destruct (destructed_ _).
    + read (reads_is_current bs a) as (s2 & -> & V2 & _). exists s2. split; [|by etrans].
      unfold current_of. by rewrite (recent_view_core bs (sv_core _ _ _ V1)),
        (sc_incarnation _ _ _ (sv_core _ _ _ V1)).
    + by exists s1.
Qed.

Lemma run_scan_balance a s d :
  same_view bs st s -> hook_ok s -> tracking_enabled_ (rb_ s) = true ->
  exists st', scan_balance bs rev sender fees i ctx a d s =
      (ROk (falls_below (scan_threshold sender fees st a) (balance_of (recent_view bs st a)) &&
        (if a =w? sender then negb (can_sender_dip_into_reserve sender i d ctx) else true)), st') /\
    same_view bs st st'.
Proof using Hu.
  intros V Hs Ht. unfold scan_balance.
  read (reads_original_balance bs a) as (s1 & -> & V1 & Hok1 & Ht1). cbv zeta.
  rewrite (sc_orig _ _ _ (sv_core _ _ _ V)).
  assert (Er : (if balance_of (orig_view bs st a) <? get_max_reserve rev a
    then balance_of (orig_view bs st a) else get_max_reserve rev a) = reserve_of bs st a).
  { unfold reserve_of. by rewrite (su_max _ _ _ Hu). }
  rewrite Er. read (reads_balance bs a) as (s2 & -> & V2 & _).
  assert (V' : same_view bs st s1) by (by etrans). assert (V'' : same_view bs st s2) by (by etrans).
  rewrite (recent_view_core bs (sv_core _ _ _ V')). unfold scan_threshold.
  destruct (a =w? sender).
  - destruct (falls_below _ _); by exists s2.
  - destruct (falls_below _ _); by exists s2.
Qed.

(** The scan of one account returns its verdict, and only reads. *)
Lemma run_scan_account a vs :
  current_ st !! a = Some vs -> is_Some (original_ st !! a) ->
  exists st', scan_account bs rev sender fees i ctx a vs st = (ROk (scan_verdict sender fees st a), st') /\
    same_view bs st st'.
Proof using Hok Hu.
  intros Hc [o Ho]. pose proof (su_tracking _ _ _ Hu) as U1.
  pose proof (o_state_orig bs st a) as Eo. rewrite Ho in Eo. simpl in Eo.
  unfold scan_account. read (reads_get bs _) as (st1 & -> & V1 & Hok1 & Ht1). rewrite Ho.
  read (reads_ret bs o) as (st2 & -> & V2 & Hok2 & Ht2).
  destruct vs as [|[u x] rest]; [by destruct (ho_stacks _ Hok a [] Hc)|].
  assert (Er : recent_view bs st a = x) by (unfold recent_view; by rewrite Hc).
  read (reads_ret bs x) as (st3 & -> & V3 & Hok3 & Ht3).
  assert (V : same_view bs st st3) by (do 2 (etrans; [|eassumption]); done). clear V1 V2 V3.
  assert (Eh : (if rev_ge rev MONAD_EIGHT then from_option acct_code_hash NULL_HASH (account_ x)
    else from_option acct_code_hash NULL_HASH (account_ (o_state o))) = effective_hash bs st a).
  { unfold effective_hash. by rewrite (su_recent _ _ _ Hu), Er, <- Eo. }
  cbv zeta. rewrite Eh. unfold scan_verdict, subject_of, delegated_now.
  destruct (a =w? STAKING_CA); [by exists st3|].
  read (reads_scan_skip a) as (st4 & -> & V4 & Hok4 & Ht4).
  assert (V' : same_view bs st st4) by (by etrans).
  unfold code_of. rewrite (sc_code _ _ _ (sv_core _ _ _ V)).
  destruct (effective_hash bs st a =w? NULL_HASH); cbn [negb fst snd andb].
  - unfold current_of. rewrite (recent_view_core bs (sv_core _ _ _ V)).
    rewrite (sc_incarnation _ _ _ (sv_core _ _ _ V)).
    change (from_option _ false (account_ (recent_view bs st a))) with (current_of bs st a).
    rewrite <- (su_allow _ _ _ Hu).
    change (_ && _ && current_of bs st a) with (exempt bs st a).
    destruct (exempt bs st a); [by exists st4|]. by apply run_scan_balance.
  - destruct (evm_is_delegated _); cbn [negb andb]; [by apply run_scan_balance|by exists st4].
Qed.
End one.

Lemma scan_verdict_view sender fees st st' a :
  same_view bs st st' -> scan_verdict sender fees st' a = scan_verdict sender fees st a.
Proof.
  intros [Hc E]. unfold scan_verdict, delegated_now, scan_threshold, code_of.
  by rewrite (subject_core bs Hc), (effective_hash_core bs Hc), (exempt_core bs Hc),
    (reserve_core bs Hc), (recent_view_core bs Hc), (sc_code _ _ _ Hc).
Qed.

Lemma set_up_view sender fees st st' : same_view bs st st' -> set_up sender fees st -> set_up sender fees st'.
Proof. intros [_ E] []. by split; rewrite E. Qed.

Lemma run_scan_accounts sender fees st l :
  hook_ok st -> set_up sender fees st ->
  Forall (fun p => current_ st !! p.1 = Some p.2 /\ is_Some (original_ st !! p.1)) l ->
  exists st', scan_accounts bs rev sender fees i ctx l st =
      (ROk (existsb (fun p => scan_verdict sender fees st p.1) l), st') /\ same_view bs st st'.
Proof.
  intros Hok Hu Hl. revert st Hok Hu Hl. induction l as [|[a vs] l IH]; intros st Hok Hu Hl.
  - by exists st.
  - apply Forall_cons in Hl as [[Ha Ho] Hl]. simpl in Ha, Ho.
    destruct (run_scan_account sender fees st Hok Hu a vs Ha Ho) as (st1 & E1 & V1).
    cbn [scan_accounts existsb fst]. unfold sbind. rewrite E1.
    destruct (scan_verdict sender fees st a); [by exists st1|].
    destruct (IH st1) as (st2 & E2 & V2).
    + by apply (hook_ok_core bs st st1 (sv_core _ _ _ V1)).
    + by apply (set_up_view sender fees st).
    + eapply Forall_impl; [exact Hl|]. intros [b vs'] [H1 H2].
      rewrite (sc_current _ _ _ (sv_core _ _ _ V1)). split; [done|].
      by apply (sc_loaded _ _ _ (sv_core _ _ _ V1)).
    + exists st2. split; [|by etrans]. rewrite E2. simpl. do 2 f_equal.
      clear -V1. induction l as [|p l IH]; [done|]. simpl. by rewrite IH, (scan_verdict_view _ _ st st1).
Qed.

(** Where no exception applies, the scan's verdict is the rule. *)
Lemma scan_verdict_rule sender fees st a :
  set_up sender fees st ->
  sender_can_dip_ (rb_ st) = can_sender_dip_into_reserve sender i (delegated_now st sender) ctx ->
  exempt bs st a = false -> scan_verdict sender fees st a = in_violation bs st a.
Proof.
  intros Hu Hd He. unfold scan_verdict, in_violation, threshold_of, scan_threshold.
  rewrite He, andb_false_r, andb_true_r, (su_sender _ _ _ Hu), (su_fees _ _ _ Hu).
  destruct (subject_of bs st a); cbn [negb andb]; [|by rewrite falls_below_zero].
  destruct (weqb_spec a sender) as [->|Ha]; [|by rewrite andb_true_r].
  rewrite <- Hd. destruct (sender_can_dip_ (rb_ st)); cbn [negb];
    [by rewrite andb_false_r, falls_below_zero|by rewrite andb_true_r].
Qed.
End scan.

(** The two verdicts on a state whose tracker is exact. *)
Lemma scan_agrees bs rev i ctx sender tx base price (st : State) :
  rev_ge rev MONAD_FOUR = true -> gas_price (MonadTraits rev) tx base = Some price ->
  hook_ok st -> set_up rev sender #(tx_gas_limit tx * price) st -> ctx_ok i ctx st = (ROk tt, st) ->
  (forall a, is_Some (current_ st !! a) -> is_Some (original_ st !! a)) ->
  sender_can_dip_ (rb_ st) = can_sender_dip_into_reserve sender i (delegated_now bs st sender) ctx ->
  (forall a, exempt bs st a = false -> (a ∈ failed_ (rb_ st) <-> in_violation bs st a = true)) ->
  spared bs all st -> (forall a, exempt bs st a = true -> delegated_now bs st a = false) ->
  is_Some (current_ st !! sender) ->
  exists b st', revert_transaction bs rev sender tx base i ctx st = (ROk b, st') /\
    revert_transaction_cached rev st = (ROk b, st).
Proof.
  intros Hrev Hp Hok Hu Hctx Hl Hd Ht Hsp He Hs. unfold revert_transaction, revert_transaction_cached.
  rewrite Hrev. unfold dipped_into_reserve, dipped_into_reserve_cached, sbind, sget.
  rewrite Hctx, Hp. cbn [sopt sret].
  destruct (run_scan_accounts bs rev i ctx sender #(tx_gas_limit tx * price) st (map_to_list (current_ st)))
    as (st2 & E2 & _); [done..| |].
  { apply Forall_forall. intros [a vs] Hin%elem_of_map_to_list. split; [done|]. apply Hl. simpl. eauto. }
  rewrite E2. eexists _, st2. split; [reflexivity|].
  rewrite (su_tracking _ _ _ _ Hu). unfold sassert, sret. do 2 f_equal.
  assert (Hv : forall a, scan_verdict bs i ctx sender #(tx_gas_limit tx * price) st a = true <->
    a ∈ failed_ (rb_ st)).
  { intros a. destruct (exempt bs st a) eqn:Ex.
    - split; [|by intros ?%(Hsp a Logic.I Ex)]. specialize (He a Ex). unfold scan_verdict, subject_of.
      unfold delegated_now in He. rewrite Ex. destruct (a =w? STAKING_CA); [done|].
      destruct (effective_hash bs st a =w? NULL_HASH); [done|]. cbn [negb andb] in He. by rewrite He.
    - rewrite Ht by done. by rewrite (scan_verdict_rule bs rev i ctx). }
  unfold has_violation. apply eq_bool_prop_intro. rewrite !Is_true_true.
  rewrite existsb_exists, negb_true_iff, bool_decide_eq_false. split.
  - intros Hne. apply set_choose_L in Hne as [a Ha]. pose proof (proj2 (Hv a) Ha) as Hva.
    destruct (current_ st !! a) as [vs|] eqn:Ec.
    + exists (a, vs). split; [|done]. apply list_elem_of_In, elem_of_map_to_list, Ec.
    + exfalso. destruct (exempt bs st a) eqn:Ex; [by apply (Hsp a Logic.I Ex)|].
      rewrite (scan_verdict_rule bs rev i ctx) in Hva by done.
      destruct (threshold_of bs st a) as [t|] eqn:Et.
      * by rewrite (fresh_not_violating bs st a t Ec Et) in Hva.
      * pose proof (threshold_None _ _ _ Et) as Ea. rewrite (su_sender _ _ _ _ Hu) in Ea. subst a.
        rewrite Ec in Hs. by destruct Hs.
  - intros ([a vs] & _ & Ha%Hv) Hempty. rewrite Hempty in Ha. by apply elem_of_empty in Ha.
Qed.

Lemma ctx_ok_any i ctx st r st' s : ctx_ok i ctx st = (ROk r, st') -> ctx_ok i ctx s = (ROk tt, s).
Proof.
  unfold ctx_ok. intros E. apply sbind_ok in E as (u & st1 & [-> ->]%assert_ok & E).
  apply sbind_ok in E as (u' & st1 & [-> ->]%assert_ok & E). by apply assert_ok in E as [-> _].
Qed.

(** [init_from_tx] decides whether the sender may dip by the code it has then. *)
Lemma init_dips bs rev sender tx base i ctx st st' :
  hook_ok st -> rev_ge rev MONAD_FOUR = true -> init_from_tx bs rev sender tx base i ctx st = (ROk tt, st') ->
  sender_can_dip_ (rb_ st') = can_sender_dip_into_reserve sender i (delegated_now bs st' sender) ctx /\
  ctx_ok i ctx st' = (ROk tt, st').
Proof.
  intros Hok Hrev E. unfold init_from_tx in E. rewrite Hrev in E. cbn [negb] in E.
  apply sbind_ok in E as (u1 & st1 & E1 & E). injection E1 as _ <-.
  apply sbind_ok in E as ([] & st2 & E2 & E). pose proof (ctx_ok_run _ _ _ _ _ E2). subst st2.
  apply sbind_ok in E as (u3 & st3 & E3 & E). injection E3 as _ <-. set (st3 := set_rb_ _ _) in E.
  apply sbind_ok in E as (h & st4 & E4 & E).
  assert (H4 : quiet bs st3 st4 /\ h = if rev_ge rev MONAD_EIGHT then hash_of (recent_view bs st3 sender)
                                    else hash_of (orig_view bs st3 sender)).
  { destruct (rev_ge rev MONAD_EIGHT).
    - unfold get_code_hash in E4. apply sbind_ok in E4 as (x & st5 & E5 & E4).
      destruct (quiet_recent_account bs sender st3 x st5 E5) as [Q ->]. by injection E4 as <- <-.
    - apply sbind_ok in E4 as (o & st5 & E5 & E4). injection E4 as <- <-.
      destruct (original_load bs sender st3) as (o' & st6 & E6 & Eo & _ & Er & Hc & _). rewrite E5 in E6.
      injection E6 as <- <-. split; [by apply quiet_core|]. unfold hash_of. by rewrite Eo. }
  destruct H4 as [Q4 Eh]. apply sbind_ok in E as (d & st5 & E5 & E).
  assert (H5 : st5 = st4 /\ d = negb (h =w? NULL_HASH) && evm_is_delegated (code_of bs st4 h)).
  { unfold is_delegated, read_code_ in E5. destruct (h =w? NULL_HASH); by unbind. }
  destruct H5 as [-> ->]. apply sbind_ok in E as (price & st6 & [_ ->]%sopt_ok & E). injection E as <-.
  split.
  - simpl. f_equal. unfold delegated_now. change (code_of bs (set_rb_ _ st4)) with (code_of bs st4).
    set (s := set_rb_ _ st4).
    assert (Ee : effective_hash bs s sender = h).
    { unfold effective_hash. change (use_recent_code_hash_ (rb_ s)) with (rev_ge rev MONAD_EIGHT).
      change (recent_view bs s sender) with (recent_view bs st4 sender).
      change (orig_view bs s sender) with (orig_view bs st4 sender). rewrite Eh. unfold hash_of.
      by rewrite (proj1 (quiet_recent bs st3 st4 sender Q4)), (qu_orig _ _ _ Q4). }
    by rewrite Ee.
  - by apply (ctx_ok_any _ _ _ _ _ _ E2).
Qed.

(** C18: the incremental verdict is the full scan.  After [init_from_tx] on a fresh
    transaction state and any sequence of state operations and nested calls, accepted
    or rejected, the scan [revert_transaction] over every touched account and the
    cached [revert_transaction_cached] both return, and return the same answer.  That
    the tracker is exact is derived, not assumed; what is assumed is about accounts:
    code is content-addressed (see [tracker_exact]); no account that was destructed
    is given the incarnation of the transaction afterwards ([items_orderly]); no
    account that is created and destructed in the transaction is delegated at its
    end; the reserve of the sender covers its gas fees at the start, if the rule
    applies to it; the sender has been loaded; and it is delegated at the end exactly
    if it was at the start, unless the chain context forbids it to dip anyway. *)
Theorem scan_equals_tracker bs (keccak256 : byte_string -> bytes32) (known : byte_string -> Prop)
    rev sender tx base i ctx items (st0 st1 st : State) :
  (forall c c', known c -> known c' -> keccak256 c = keccak256 c' -> c = c') ->
  keccak256 [] = NULL_HASH -> known [] ->
  wf st0 -> current_ st0 = ∅ -> tracking_enabled_ (rb_ st0) = false ->
  (forall b, hash_ok bs keccak256 known st0 (hash_of (orig_view bs st0 b))) ->
  rev_ge rev MONAD_FOUR = true ->
  init_from_tx bs rev sender tx (Some base) i ctx st0 = (ROk tt, st1) ->
  item_known keccak256 known (Call items true) ->
  exec_items bs items st1 = (ROk tt, st) -> items_orderly bs items st1 = true ->
  threshold_of bs st1 sender <> None -> is_Some (current_ st !! sender) ->
  delegated_now bs st sender = delegated_now bs st1 sender \/ can_sender_dip_into_reserve sender i false ctx = false ->
  (forall a, exempt bs st a = true -> delegated_now bs st a = false) ->
  exists b st', revert_transaction bs rev sender tx base i ctx st = (ROk b, st') /\
    revert_transaction_cached rev st = (ROk b, st).
Proof.
  intros Hinj Hnull Hempty Hwf Hc Ht Hh Hrev E1 Hk E2 Hord Hth Hs Hdel He.
  destruct (init_spec bs rev sender tx (Some base) i ctx st0 st1 (wf_hook_ok _ Hwf) Hrev E1) as (price & d & Hp & N).
  destruct (init_dips bs rev sender tx (Some base) i ctx st0 st1 (wf_hook_ok _ Hwf) Hrev E1) as [Hdip Hctx].
  destruct (init_inv bs keccak256 known Hinj Hnull Hempty rev sender tx (Some base) i ctx st0 st1) as [W1 I1]; try done.
  pose proof (exact_run bs keccak256 known Hinj Hnull Hempty rev sender tx (Some base) i ctx items st0 st1 st
    Hwf Hc Ht Hh Hrev E1 Hk E2) as I.
  destruct (passes_run bs items st1 st W1 (inv_tracking _ _ _ _ _ _ I1) Hord E2) as [Ps Po Pc Pf].
  assert (Hst : forall A (f : ReserveBalance -> A), (forall rb, f (rb_static rb) = f rb) -> f (rb_ st) = f (rb_ st1))
    by (intros A f Hf; by rewrite <- Hf, Ps, Hf).
  assert (Hu : set_up rev sender #(tx_gas_limit tx * price) st).
  { split; (erewrite Hst; [|done]); by rewrite (in_rb _ _ _ _ _ _ _ N). }
  assert (Hcur1 : current_ st1 = ∅) by (rewrite (in_current _ _ _ _ _ _ _ N); done).
  assert (Hl : forall a, is_Some (current_ st !! a) -> is_Some (original_ st !! a)).
  { intros a Ha. destruct (Pc a Ha) as [H|H]; [|done]. rewrite Hcur1, lookup_empty in H. by destruct H. }
  assert (Hd : sender_can_dip_ (rb_ st) = can_sender_dip_into_reserve sender i (delegated_now bs st sender) ctx).
  { rewrite Hst, Hdip by done. destruct Hdel as [->|Hno]; [done|].
    destruct (delegated_now bs st1 sender), (delegated_now bs st sender); done. }
  assert (Hsp : spared bs all st).
  { apply Pf. intros a _ _. rewrite (in_rb _ _ _ _ _ _ _ N). set_solver. }
  assert (Htr : forall a, exempt bs st a = false -> (a ∈ failed_ (rb_ st) <-> in_violation bs st a = true)).
  { intros a. apply (inv_tracked _ _ _ _ _ _ I a). intros Hn. apply Hth.
    pose proof (threshold_None _ _ _ Hn) as Ea. rewrite (in_rb _ _ _ _ _ _ _ N) in Ea. simpl in Ea. by subst a. }
  pose proof (ctx_ok_any _ _ _ _ _ st Hctx) as Hctx'.
  apply (scan_agrees bs rev i ctx sender tx base price st); try done. apply (inv_ok _ _ _ _ _ _ I).
Qed.

(** ** A concrete transaction

    Account 9 sends and spends below its reserve; account 8 spends in a call that
    is rejected, is delegated, and spends a little. *)
Definition demo_code : byte_string := [ #0xef; #1; #0 ] ++ repeat #7 20.
Definition demo_keccak (c : byte_string) : bytes32 :=
  if bool_decide (c = []) then NULL_HASH else #(bytes_val c).
Definition demo_known (c : byte_string) : Prop := c = [] \/ c = demo_code.

Definition rb_reads : BlockReads :=
  mk_reads (fun a => if (a =? 9) || (a =? 8)
                     then Some (mk_account #15000000000000000000 NULL_HASH #0 (mk_incarnation #0 #0))
                     else None) (fun _ _ _ => #0) (fun _ => []).

Definition rb_items : list item := [
  Do (OpSubtractFromBalance #9 #6000000000000000000);
  Call [Do (OpSubtractFromBalance #8 #9000000000000000000)] false;
  Do (OpSetCode demo_keccak #8 demo_code);
  Do (OpSubtractFromBalance #8 #3000000000000000000)].

Definition rb_ctx : ChainContext := mk_ctx {[ #9 ]} ∅ ∅ [ #9 ] [ [] ].
Definition rb_start : State := new_state (mk_incarnation #1 #1) false.
Definition rb_init : SM unit := init_from_tx rb_reads MONAD_EIGHT #9 demo_tx (Some #50) 0 rb_ctx.
Definition rb_begun : State := (rb_init rb_start).2.
Definition rb_done : State := (exec_items rb_reads rb_items rb_begun).2.

Lemma rb_init_runs : rb_init rb_start = (ROk tt, rb_begun).
Proof. apply (run_ok rb_init). vm_compute. reflexivity. Qed.
Lemma rb_items_run : exec_items rb_reads rb_items rb_begun = (ROk tt, rb_done).
Proof. apply (run_ok (exec_items rb_reads rb_items)). vm_compute. reflexivity. Qed.

Lemma demo_inj c c' : demo_known c -> demo_known c' -> demo_keccak c = demo_keccak c' -> c = c'.
Proof. intros [E1|E1] [E2|E2]; subst; try done; intros H%(f_equal uval); vm_compute in H; discriminate. Qed.

Lemma rb_hashes b : hash_ok rb_reads demo_keccak demo_known rb_start (hash_of (orig_view rb_reads rb_start b)).
Proof. left. unfold hash_of, orig_view. simpl. by destruct (_ || _). Qed.

Lemma rb_known : item_known demo_keccak demo_known (Call rb_items true).
Proof. repeat split. by right. Qed.

Lemma tracker_exact_witness :
  (wrap 160 9 ∈ failed_ (rb_ rb_done) <-> in_violation rb_reads rb_done #9 = true).
Proof.
  apply (tracker_exact rb_reads demo_keccak demo_known MONAD_EIGHT #9 demo_tx (Some #50) 0 rb_ctx
    rb_items rb_start rb_begun rb_done #9 demo_inj eq_refl (or_introl eq_refl) (wf_new_state _ _)
    eq_refl eq_refl rb_hashes eq_refl rb_init_runs rb_known rb_items_run).
  - vm_compute. discriminate.
  - vm_compute. reflexivity.
Defined.

Lemma has_value_is_Some {A} (o : option A) : has_value o = true -> is_Some o.
Proof. destruct o; [by eexists|done]. Qed.

(** Deciding that no exempt account is delegated. *)
Lemma exempt_check bs st :
  forallb (fun p => negb (destructed_ (as_sub (o_state p.2)))) (map_to_list (original_ st)) = true ->
  forallb (fun p => negb (exempt bs st p.1) || negb (delegated_now bs st p.1)) (map_to_list (current_ st)) = true ->
  forall a, exempt bs st a = true -> delegated_now bs st a = false.
Proof.
  intros Ho Hc a He. rewrite forallb_forall in Ho, Hc. destruct (current_ st !! a) as [vs|] eqn:Ec.
  - specialize (Hc (a, vs) (proj1 (list_elem_of_In _ _) (proj2 (elem_of_map_to_list _ _ _) Ec))).
    cbn [fst] in Hc. rewrite He in Hc. by apply negb_true_iff in Hc.
  - exfalso. unfold exempt, recent_view in He. rewrite Ec in He.
    apply andb_true_iff in He as [[_ He]%andb_true_iff _]. simpl in He. unfold orig_view in He.
    destruct (original_ st !! a) as [o|] eqn:Eo; [|done]. simpl in He.
    specialize (Ho (a, o) (proj1 (list_elem_of_In _ _) (proj2 (elem_of_map_to_list _ _ _) Eo))).
    cbn [snd] in Ho. by rewrite He in Ho.
Qed.

(** The same transaction in the next revision, with a contract that is created and
    destructs itself. *)
Definition nine_items : list item := rb_items ++ [
  Call [Do (OpCreateContract #7); Do (OpAddToBalance #7 #5); Do (OpSelfdestruct true #7 #6)] true].
Definition nine_init : SM unit := init_from_tx rb_reads MONAD_NINE #9 demo_tx (Some #50) 0 rb_ctx.
Definition nine_begun : State := (nine_init rb_start).2.
Definition nine_done : State := (exec_items rb_reads nine_items nine_begun).2.

Lemma nine_init_runs : nine_init rb_start = (ROk tt, nine_begun).
Proof. apply (run_ok nine_init). vm_compute. reflexivity. Qed.
Lemma nine_items_run : exec_items rb_reads nine_items nine_begun = (ROk tt, nine_done).
Proof. apply (run_ok (exec_items rb_reads nine_items)). vm_compute. reflexivity. Qed.
Lemma nine_known : item_known demo_keccak demo_known (Call nine_items true).
Proof. repeat split. by right. Qed.
Lemma nine_exempt : exempt rb_reads nine_done #7 = true.
Proof. vm_compute. reflexivity. Qed.
Lemma nine_violation : (revert_transaction_cached MONAD_NINE nine_done).1 = ROk true.
Proof. vm_compute. reflexivity. Qed.

Lemma scan_equals_tracker_witness :
  exists st', revert_transaction rb_reads MONAD_NINE #9 demo_tx #50 0 rb_ctx nine_done = (ROk true, st') /\
    revert_transaction_cached MONAD_NINE nine_done = (ROk true, nine_done).
Proof.
  destruct (scan_equals_tracker rb_reads demo_keccak demo_known MONAD_NINE #9 demo_tx #50 0 rb_ctx
    nine_items rb_start nine_begun nine_done demo_inj eq_refl (or_introl eq_refl) (wf_new_state _ _)
    eq_refl eq_refl rb_hashes eq_refl nine_init_runs nine_known nine_items_run) as (b & st' & E & E').
  - vm_compute. reflexivity.
  - vm_compute. discriminate.
  - apply has_value_is_Some. vm_compute. reflexivity.
  - left. vm_compute. reflexivity.
  - apply exempt_check; vm_compute; reflexivity.
  - exists st'. pose proof nine_violation as H. rewrite E' in H. cbn [fst] in H. injection H as ->. exact (conj E E').
Defined.
