(* ===== verification/Lockstep.v ===== *)
(** * Validated speculation replays

    A transaction runs on a transaction state that reads the block state while
    earlier transactions are still being merged into it.  [agrees] says that
    every value the transaction read first - kept in [original_] - is the value a
    block state has; it is what [BlockState::can_merge] checks.  [replay] shows
    that a run whose reads are confirmed in this way is, step for step, the run
    the transaction would have made on that block state. *)
From S2P Require Import Prelude Prog Abi StakingVars VersionStack State3 StateHooks StateFrames StateRefine ReserveTrack.

Create HintDb steady discriminated.

(** ** Transactions as programs over the state *)
Inductive txE : Type -> Type :=
| TAccountExists (a : address) : txE bool
| TAccountIsDead (a : address) : txE bool
| TGetNonce (a : address) : txE u64
| TGetBalance (a : address) : txE u256
| TGetOriginalBalance (a : address) : txE u256
| TGetCodeHash (a : address) : txE bytes32
| TGetStorage (a : address) (k : bytes32) : txE bytes32
| TGetTransientStorage (a : address) (k : bytes32) : txE bytes32
| TIsTouched (a : address) : txE bool
| TIsDestructed (a : address) : txE bool
| TIsCurrentIncarnation (a : address) : txE bool
| TGetCode (a : address) : txE byte_string
| TGetCodeSize (a : address) : txE nat
| TCopyCode (a : address) (offset size : nat) : txE byte_string
| TReadCode (h : bytes32) : txE byte_string
| TSetNonce (a : address) (n : u64) : txE unit
| TAddToBalance (a : address) (d : u256) : txE unit
| TSubtractFromBalance (a : address) (d : u256) : txE unit
| TSetStorage (a : address) (k v : bytes32) : txE evmc_storage_status
| TSetTransientStorage (a : address) (k v : bytes32) : txE unit
| TTouch (a : address) : txE unit
| TAccessAccount (a : address) : txE evmc_access_status
| TAccessStorage (a : address) (k : bytes32) : txE evmc_access_status
| TSelfdestruct (cancun : bool) (a b : address) : txE (bool * u256)
| TSetCode (keccak256 : byte_string -> bytes32) (a : address) (c : byte_string) : txE unit
| TCreateContract (a : address) : txE unit
| TCreateAccountNoRollback (a : address) : txE unit
| TRecordDebit (a : address) (d : u256) : txE bool
| TStoreLog (l : Log) : txE unit
| TLogs : txE (list Log)
| TPush : txE unit
| TPopAccept : txE unit
| TPopReject : txE unit
| TDestructSuicides (cancun : bool) : txE unit
| TDestructTouchedDead : txE unit.

Inductive tx_prog (A : Type) : Type :=
| TRet (x : A)
| TOp {X} (o : txE X) (k : X -> tx_prog A).
Arguments TRet {A} _.
Arguments TOp {A X} _ _.

Section run.
Context (bs : BlockReads).

Definition run_op {X} (o : txE X) : SM X :=
  match o in txE X return SM X with
  | TAccountExists a => account_exists bs a
  | TAccountIsDead a => account_is_dead bs a
  | TGetNonce a => get_nonce bs a
  | TGetBalance a => get_balance bs a
  | TGetOriginalBalance a => get_original_balance bs a
  | TGetCodeHash a => get_code_hash bs a
  | TGetStorage a k => get_storage bs a k
  | TGetTransientStorage a k => get_transient_storage bs a k
  | TIsTouched a => is_touched a
  | TIsDestructed a => is_destructed bs a
  | TIsCurrentIncarnation a => is_current_incarnation bs a
  | TGetCode a => get_code bs a
  | TGetCodeSize a => get_code_size bs a
  | TCopyCode a offset size => copy_code bs a offset size
  | TReadCode h => read_code_ bs h
  | TSetNonce a n => set_nonce bs a n
  | TAddToBalance a d => add_to_balance bs a d
  | TSubtractFromBalance a d => subtract_from_balance bs a d
  | TSetStorage a k v => set_storage bs a k v
  | TSetTransientStorage a k v => set_transient_storage bs a k v
  | TTouch a => touch bs a
  | TAccessAccount a => access_account bs a
  | TAccessStorage a k => access_storage bs a k
  | TSelfdestruct c a b => selfdestruct bs c a b
  | TSetCode h a c => set_code bs h a c
  | TCreateContract a => create_contract bs a
  | TCreateAccountNoRollback a => create_account_no_rollback bs a
  | TRecordDebit a d => record_balance_constraint_for_debit bs a d
  | TStoreLog l => store_log l
  | TLogs => logs
  | TPush => push
  | TPopAccept => pop_accept
  | TPopReject => pop_reject bs
  | TDestructSuicides c => destruct_suicides c
  | TDestructTouchedDead => destruct_touched_dead
  end.

Fixpoint run_tx {A} (p : tx_prog A) : SM A :=
  match p with
  | TRet x => sret x
  | TOp o k => sbind (run_op o) (fun x => run_tx (k x))
  end.
End run.

(** ** Agreement with a block state *)
Definition agrees (bs : BlockReads) (st : State) : Prop :=
  forall a o, original_ st !! a = Some o ->
    account_ (o_state o) = read_account bs a /\
    forall k v, storage_ (o_state o) !! k = Some v ->
      match account_ (o_state o) with
      | Some acct => v = read_storage bs a (acct_incarnation acct) k
      | None => v = #0
      end.

(** The incarnations a running transaction gives out. *)
Definition fresh (inc : Incarnation) (i : Incarnation) : Prop := i = inc \/ i = new_incarnation (inc_block inc) LAST_TX.

(** What the two sources of reads have to do with each other: slots of fresh
    incarnations are zero in the first, slots of dead incarnations in the second,
    and a hash has the same code in both. *)
Record replayable (bs0 bs1 : BlockReads) (inc : Incarnation) : Prop := mk_replayable {
  rp_fresh : forall a i k acct, read_account bs1 a = Some acct -> acct_incarnation acct <> i ->
     fresh inc i -> read_storage bs0 a i k = #0;
  rp_lawful : forall a i k, (forall acct, read_account bs1 a = Some acct -> acct_incarnation acct <> i) ->
     read_storage bs1 a i k = #0;
  rp_code : forall h, read_code bs0 h = read_code bs1 h;
}.

Section lockstep.
Context (bs0 bs1 : BlockReads) (inc0 : Incarnation) (Hrp : replayable bs0 bs1 inc0).
#[local] Abbreviation fresh := (fresh inc0).
#[local] Set Default Proof Using "Type*".
Implicit Types (a : address) (st : State) (P : Prop).

(** An account carries the incarnation of its original or a fresh one. *)
Definition account_ok a (x : option Account) : Prop :=
  forall ac, x = Some ac -> fresh (acct_incarnation ac) \/
    exists ac1, read_account bs1 a = Some ac1 /\ acct_incarnation ac1 = acct_incarnation ac.

Lemma account_ok_keep a ac ac' :
  acct_incarnation ac' = acct_incarnation ac -> account_ok a (Some ac) -> account_ok a (Some ac').
Proof using Type. intros E H x [= <-]. rewrite E. by apply H. Qed.
Lemma account_ok_inc a ac : acct_incarnation ac = inc0 -> account_ok a (Some ac).
Proof using Type. intros E x [= <-]. by left; left. Qed.
Lemma account_ok_None a : account_ok a None.
Proof using Type. done. Qed.
Lemma account_ok_read a : account_ok a (read_account bs1 a).
Proof using Type. intros ac H. right. eauto. Qed.

Record accounts_ok st : Prop := mk_accounts_ok {
  ao_inc : incarnation_ st = inc0;
  ao_values : forall a x, x ∈ values st a -> account_ok a (account_ x);
}.

(** [m0] on the first reads and [m1] on the second stay in lockstep if [P], as
    long as the reads end up agreeing with the second; [Q] is what their result
    satisfies. *)
Record steady {A} P (m0 m1 : SM A) (Q : A -> Prop) : Prop := mk_steady {
  st_mono : forall st, agrees bs1 (m0 st).2 -> agrees bs1 st;
  st_lock : P -> forall st, agrees bs1 (m0 st).2 -> accounts_ok st ->
    m1 st = m0 st /\ accounts_ok (m0 st).2 /\ forall x, (m0 st).1 = ROk x -> Q x;
  st_mode : forall st, relaxed_validation_ (m0 st).2 = relaxed_validation_ st;
}.

(** The same, from states in which [a] is loaded as [o]. *)
Record steady_with {A} P a (o : OriginalAccountState) (m0 m1 : SM A) (Q : A -> Prop) : Prop := mk_steady_with {
  sw_mono : forall st, original_ st !! a = Some o -> agrees bs1 (m0 st).2 -> agrees bs1 st;
  sw_lock : P -> forall st, original_ st !! a = Some o -> agrees bs1 (m0 st).2 -> accounts_ok st ->
    m1 st = m0 st /\ accounts_ok (m0 st).2 /\ forall x, (m0 st).1 = ROk x -> Q x;
  sw_mode : forall st, original_ st !! a = Some o -> relaxed_validation_ (m0 st).2 = relaxed_validation_ st;
}.

Definition any {A} (x : A) : Prop := True.

Lemma steady_weaken {A} P (m0 m1 : SM A) (Q Q' : A -> Prop) :
  (forall x, P -> Q x -> Q' x) -> steady P m0 m1 Q -> steady P m0 m1 Q'.
Proof using Type. intros H [H1 H2 H3]. split; [done| |done]. intros HP st Ha Hk. destruct (H2 HP st Ha Hk) as (?&?&?). eauto. Qed.

Lemma steady_assuming {A} P' P (m0 m1 : SM A) (Q : A -> Prop) :
  (P -> P') -> steady P' m0 m1 Q -> steady P m0 m1 Q.
Proof using Type. intros H [H1 H2 H3]. split; auto. Qed.

Lemma steady_any {A} P (m0 m1 : SM A) (Q : A -> Prop) : steady P m0 m1 Q -> steady P m0 m1 any.
Proof using Type. by apply steady_weaken. Qed.

Lemma steady_with_weaken {A} P a o (m0 m1 : SM A) (Q : A -> Prop) :
  steady P m0 m1 Q -> steady_with P a o m0 m1 Q.
Proof using Type. intros [H1 H2 H3]. split; eauto. Qed.

Lemma steady_with_bind {A C} P a o (m0 m1 : SM A) (k0 k1 : A -> SM C) Q R :
  steady_with P a o m0 m1 Q -> (forall x, steady (P /\ Q x) (k0 x) (k1 x) R) ->
  steady_with P a o (sbind m0 k0) (sbind m1 k1) R.
Proof using Type.
  intros [M1 M2 M3] Hk. split.
  - intros st Ho H. apply M1; [done|]. unfold sbind in H.
    destruct (m0 st) as [[x|[]|e|] st1]; simpl in *; try done. by apply (st_mono _ _ _ _ (Hk x)).
  - intros HP st Ho H Hok. specialize (M2 HP st Ho). unfold sbind in *.
    destruct (m0 st) as [[x|[]|e|] st1] eqn:E; simpl in *.
    + destruct M2 as (-> & Hok1 & Hx); [by apply (st_mono _ _ _ _ (Hk x))|done|].
      apply (st_lock _ _ _ _ (Hk x)); auto.
    + by destruct M2 as (-> & Hok1 & Hx).
    + by destruct M2 as (-> & Hok1 & Hx).
  - intros st Ho. specialize (M3 st Ho). unfold sbind. destruct (m0 st) as [[x|[]|e|] st1]; simpl in *; try done.
    by rewrite (st_mode _ _ _ _ (Hk x)).
Qed.

Lemma steady_bind {A C} P (m0 m1 : SM A) (k0 k1 : A -> SM C) Q R :
  steady P m0 m1 Q -> (forall x, steady (P /\ Q x) (k0 x) (k1 x) R) ->
  steady P (sbind m0 k0) (sbind m1 k1) R.
Proof using Type.
  intros [M1 M2 M3] Hk. split.
  - intros st H. apply M1. unfold sbind in H. destruct (m0 st) as [[x|[]|e|] st1]; simpl in *; try done.
    by apply (st_mono _ _ _ _ (Hk x)).
  - intros HP st H Hok. specialize (M2 HP st). unfold sbind in *.
    destruct (m0 st) as [[x|[]|e|] st1] eqn:E; simpl in *.
    + destruct M2 as (-> & Hok1 & Hx); [by apply (st_mono _ _ _ _ (Hk x))|done|].
      apply (st_lock _ _ _ _ (Hk x)); auto.
    + by destruct M2 as (-> & Hok1 & Hx).
    + by destruct M2 as (-> & Hok1 & Hx).
  - intros st. specialize (M3 st). unfold sbind. destruct (m0 st) as [[x|[]|e|] st1]; simpl in *; try done.
    by rewrite (st_mode _ _ _ _ (Hk x)).
Qed.

(** ** Code that leaves the original accounts alone *)
Lemma agrees_same st st' : original_ st' = original_ st -> agrees bs1 st' -> agrees bs1 st.
Proof using Type. intros E. unfold agrees. by rewrite E. Qed.

(** The same code on both sides. *)
Lemma steady_same {A} P (m : SM A) (Q : A -> Prop) :
  (forall st, original_ (m st).2 = original_ st) -> (forall st, relaxed_validation_ (m st).2 = relaxed_validation_ st) ->
  (P -> forall st, accounts_ok st -> accounts_ok (m st).2 /\ forall x, (m st).1 = ROk x -> Q x) ->
  steady P m m Q.
Proof using Type.
  intros H1 H0 H2. split; [intros st; by apply agrees_same| |done]. intros HP st _ Hok. split; [done|].
  by apply H2.
Qed.

Section pure.
Context {A : Type} (P : Prop).
Lemma steady_ret (x : A) (Q : A -> Prop) : (P -> Q x) -> steady P (sret x) (sret x) Q.
Proof using Type. intros H. apply steady_same; [done..|]. intros HP st Hok. split; [done|]. intros y [= <-]. auto. Qed.
Lemma steady_get (f : State -> A) (Q : A -> Prop) :
  (forall st, accounts_ok st -> Q (f st)) -> steady P (sget f) (sget f) Q.
Proof using Type. intros H. apply steady_same; [done..|]. intros HP st Hok. split; [done|]. intros y [= <-]. auto. Qed.
Lemma steady_opt (o : option A) : steady P (sopt o) (sopt o) (fun x => o = Some x).
Proof using Type.
  apply steady_same; [by destruct o..|]. intros HP st Hok. destruct o; (split; [done|]); [|done].
  by intros y [= <-].
Qed.
Lemma steady_halt Q : steady P (@shalt A) shalt Q.
Proof using Type. by apply steady_same. Qed.
End pure.

Lemma steady_assert P c : steady P (sassert c) (sassert c) any.
Proof using Type. apply steady_same; by destruct c. Qed.
Lemma steady_assert_throw P c e : steady P (sassert_throw c e) (sassert_throw c e) any.
Proof using Type. apply steady_same; by destruct c. Qed.

(** ** Writes to the current accounts *)
Lemma steady_set_stacks P (f : State -> State) :
  (forall st, original_ (f st) = original_ st) -> (forall st, incarnation_ (f st) = incarnation_ st) ->
  (forall st, relaxed_validation_ (f st) = relaxed_validation_ st) -> (P -> forall st, accounts_ok st -> forall a x, x ∈ values (f st) a -> account_ok a (account_ x)) ->
  steady P (smodify f) (smodify f) any.
Proof using Type.
  intros H1 H2 H0 H3. apply steady_same; [done..|]. intros HP st Hok. split; [|done].
  split; simpl; [rewrite H2; apply Hok|by apply H3].
Qed.

Lemma steady_set_current P a x :
  (P -> account_ok a (account_ x)) -> steady P (set_current a x) (set_current a x) any.
Proof using Type.
  intros Hx. apply steady_set_stacks; [done..|]. intros HP st [H1 H2] b y.
  unfold values, stack. simpl. destruct (decide (a = b)) as [<-|Hb].
  - rewrite lookup_alter_eq. specialize (H2 a). unfold values, stack in H2.
    destruct (current_ st !! a) as [[|[u z] vs]|]; simpl in *; [by intros []%elem_of_nil| |
      by intros []%elem_of_nil].
    intros [->|Hy]%elem_of_cons; [by apply Hx|]. apply H2. by right.
  - rewrite lookup_alter_ne by done. apply H2.
Qed.

(** The values of a stack. *)
Definition stack_ok a (vs : VersionStack AccountState) : Prop :=
  forall x, x ∈ vs.*2 -> account_ok a (account_ x).

Lemma steady_set_stack P a vs :
  (P -> stack_ok a vs) ->
  steady P (smodify (fun st => set_current_ (<[a := vs]> (current_ st)) st))
    (smodify (fun st => set_current_ (<[a := vs]> (current_ st)) st)) any.
Proof using Type.
  intros Hx. apply steady_set_stacks; [done..|]. intros HP st [H1 H2] b y.
  unfold values, stack. simpl. destruct (decide (a = b)) as [<-|Hb].
  - rewrite lookup_insert_eq. by apply Hx.
  - rewrite lookup_insert_ne by done. apply H2.
Qed.

Lemma stack_ok_get st a vs : accounts_ok st -> current_ st !! a = Some vs -> stack_ok a vs.
Proof using Type. intros [_ H] E x Hx. apply (H a). unfold values, stack. by rewrite E. Qed.

Lemma steady_get_stack P a :
  steady P (sget (fun st => current_ st !! a)) (sget (fun st => current_ st !! a))
    (fun o => forall vs, o = Some vs -> stack_ok a vs).
Proof using Type. apply steady_get. intros st Hok vs. by apply stack_ok_get. Qed.

Lemma stack_ok_recent a vs x : stack_ok a vs -> vs_recent vs = Some x -> account_ok a (account_ x).
Proof using Type. destruct vs as [|[v y] vs]; [done|]. intros H [= <-]. apply H. by left. Qed.

(** Marking dirty accounts, logs, code, frames, the tracker. *)
Lemma steady_modify P (f : State -> State) :
  (forall st, original_ (f st) = original_ st) -> (forall st, incarnation_ (f st) = incarnation_ st) ->
  (forall st, relaxed_validation_ (f st) = relaxed_validation_ st) -> (forall st, current_ (f st) = current_ st) -> steady P (smodify f) (smodify f) any.
Proof using Type.
  intros H1 H2 H0 H3. apply steady_set_stacks; [done..|]. intros _ st [_ H] a x. unfold values, stack.
  rewrite H3. apply H.
Qed.

(** ** Reading original accounts *)
Lemma accounts_ok_original st m : accounts_ok st -> accounts_ok (set_original_ m st).
Proof using Type. intros []. by split. Qed.

(** What is loaded is what the block state has. *)
Lemma load_agrees a st :
  original_ st !! a = None ->
  agrees bs1 (set_original_ (<[a := new_original (read_account bs0 a)]> (original_ st)) st) ->
  read_account bs0 a = read_account bs1 a /\ agrees bs1 st.
Proof using Type.
  intros En H. split.
  - destruct (H a (new_original (read_account bs0 a))) as [E _]; [|done]. simpl. by rewrite lookup_insert_eq.
  - intros b o Ho. apply H. simpl. rewrite lookup_insert_ne; [done|]. intros ->. congruence.
Qed.

Lemma steady_original_bind {A} P a (k0 k1 : OriginalAccountState -> SM A) Q :
  (forall o, steady_with (P /\ account_ (o_state o) = read_account bs1 a) a o (k0 o) (k1 o) Q) ->
  steady P (sbind (original_account_state bs0 a) k0) (sbind (original_account_state bs1 a) k1) Q.
Proof using Type.
  intros Hk. unfold original_account_state.
  split; [intros st|intros HP st|intros st]; unfold sbind, sget, sret, smodify;
    destruct (original_ st !! a) as [o|] eqn:E.
  - by apply (sw_mono _ _ _ _ _ _ (Hk o)).
  - intros H. apply (load_agrees a st E).
    apply (sw_mono _ _ _ _ _ _ (Hk _)) in H; [done|]. simpl. by rewrite lookup_insert_eq.
  - intros H Hok. apply (sw_lock _ _ _ _ _ _ (Hk o)); try done. split; [done|].
    apply (sw_mono _ _ _ _ _ _ (Hk _)) in H; [|done]. by destruct (H a o E).
  - intros H Hok. pose proof H as H'.
    apply (sw_mono _ _ _ _ _ _ (Hk _)) in H'; [|simpl; by rewrite lookup_insert_eq].
    destruct (load_agrees a st E H') as [Er _]. rewrite <- Er.
    apply (sw_lock _ _ _ _ _ _ (Hk _)); [by split|simpl; by rewrite lookup_insert_eq|done|].
    by apply accounts_ok_original.
  - by apply (sw_mode _ _ _ _ _ _ (Hk o)).
  - rewrite (sw_mode _ _ _ _ _ _ (Hk _)); [done|]. simpl. by rewrite lookup_insert_eq.
Qed.

Lemma steady_bind_ret {A} P (m0 m1 : SM A) Q :
  steady P (sbind m0 sret) (sbind m1 sret) Q -> steady P m0 m1 Q.
Proof using Type.
  assert (Hr : forall (m : SM A) st, sbind m sret st = m st).
  { intros m st. unfold sbind, sret. by destruct (m st) as [[]]. }
  intros [H1 H2 H3]. split; [intros st|intros HP st|intros st]; [specialize (H1 st); by rewrite Hr in H1| |].
  - specialize (H2 HP st). by rewrite !Hr in H2.
  - specialize (H3 st). by rewrite Hr in H3.
Qed.

Lemma steady_original P a :
  steady P (original_account_state bs0 a) (original_account_state bs1 a)
    (fun o => account_ (o_state o) = read_account bs1 a).
Proof using Type.
  apply steady_bind_ret, steady_original_bind. intros o. apply steady_with_weaken, steady_ret. by intros [_ ?].
Qed.

(** Writing an original account back with the same state. *)
Lemma steady_with_set_original P a o o' :
  o_state o' = o_state o -> steady_with P a o (set_original a o') (set_original a o') any.
Proof using Type.
  intros E. split.
  - intros st Ho H b ob Hb. destruct (decide (b = a)) as [->|Hne].
    + rewrite Ho in Hb. injection Hb as <-. rewrite <- E. apply H. simpl. by rewrite lookup_insert_eq.
    + apply H. simpl. by rewrite lookup_insert_ne.
  - intros _ st Ho _ Hok. split_and!; [done| |done]. by apply accounts_ok_original.
  - done.
Qed.

(** Code that changes nothing keeps [a] loaded. *)
Lemma steady_with_pure {A C} P a o (m : SM A) (k0 k1 : A -> SM C) Q :
  (forall st, (m st).2 = st) -> (forall x, steady_with P a o (k0 x) (k1 x) Q) ->
  steady_with P a o (sbind m k0) (sbind m k1) Q.
Proof using Type.
  intros Hm Hk. split; [intros st Ho|intros HP st Ho|intros st Ho]; unfold sbind; specialize (Hm st);
    destruct (m st) as [[x|[]|e|] st1]; simpl in *; subst st1; try done;
    by apply (Hk x).
Qed.

(** A slot of an original account, read with the incarnation of the current one. *)
Lemma steady_read_original P a o i k :
  (P -> account_ (o_state o) = read_account bs1 a) ->
  (P -> forall ac, acct_incarnation ac = i -> account_ok a (Some ac)) ->
  steady_with P a o (read_original_storage bs0 a o i k) (read_original_storage bs1 a o i k) any.
Proof.
  intros Hacc Hi. unfold read_original_storage. destruct (storage_ (o_state o) !! k) as [v|] eqn:Ek.
  { apply steady_with_weaken. by apply steady_ret. }
  set (v0 := read_storage bs0 a i k).
  set (o' := with_o_state (with_storage (<[k := v0]> (storage_ (o_state o))) (o_state o)) o).
  assert (Hv : P -> forall st, original_ st !! a = Some o ->
    agrees bs1 (set_original_ (<[a := o']> (original_ st)) st) -> v0 = read_storage bs1 a i k).
  { intros HP st Ho H. destruct (H a o') as [_ Hk]; [simpl; by rewrite lookup_insert_eq|].
    specialize (Hk k v0). simpl in Hk. rewrite lookup_insert_eq in Hk. specialize (Hk eq_refl).
    specialize (Hacc HP). rewrite Hacc in Hk. destruct (read_account bs1 a) as [acct|] eqn:Er.
    - destruct (decide (acct_incarnation acct = i)) as [<-|Hne]; [done|]. unfold v0.
      rewrite (rp_lawful _ _ _ Hrp a i k); [|intros ac [= <-]%(eq_trans (eq_sym Er)); done].
      destruct (Hi HP (new_account i) eq_refl (new_account i) eq_refl) as [Hf|(ac1 & E1 & E2)].
      + by apply (rp_fresh _ _ _ Hrp a i k acct).
      + rewrite Er in E1. injection E1 as <-. done.
    - rewrite Hk. symmetry. apply (rp_lawful _ _ _ Hrp). by rewrite Er. }
  split.
  - intros st Ho H b ob Hb. destruct (decide (b = a)) as [->|Hne].
    + rewrite Ho in Hb. injection Hb as <-. destruct (H a o') as [H1 H2].
      { simpl. by rewrite lookup_insert_eq. }
      split; [done|]. intros k' v' Hk'. apply (H2 k'). simpl. rewrite lookup_insert_ne; [done|].
      intros ->. congruence.
    + apply H. simpl. by rewrite lookup_insert_ne.
  - intros HP st Ho H Hok. rewrite <- (Hv HP st Ho H). split_and!; [done| |done].
    by apply accounts_ok_original.
  - done.
Qed.

(** ** The accessors of accounts *)
Lemma steady_get_incarnation P : steady P (sget incarnation_) (sget incarnation_) (fun i => i = inc0).
Proof using Type. apply steady_get. by intros st []. Qed.

Lemma steady_recent_state P a :
  steady P (recent_account_state bs0 a) (recent_account_state bs1 a) (fun x => account_ok a (account_ x)).
Proof using Type.
  unfold recent_account_state. eapply steady_bind; [apply steady_get_stack|]. intros [vs|].
  - eapply steady_weaken; [|apply steady_opt]. intros x [_ H] E. by apply (stack_ok_recent a vs); [apply H|].
  - eapply steady_bind; [apply steady_original|]. intros o. apply steady_ret. intros [_ ->].
    apply account_ok_read.
Qed.

Lemma stack_ok_new a x v : account_ok a (account_ x) -> stack_ok a (vs_new x v).
Proof using Type. intros H y. unfold vs_new. simpl. by intros ->%list_elem_of_singleton. Qed.

Lemma steady_dirty P a :
  let m := smodify (fun st => match dirty_ st with
                     | [] => st
                     | d :: rest => set_frame (version_ st) ((d ∪ {[a]}) :: rest) st
                     end) in steady P m m any.
Proof using Type. apply steady_modify; intros st; by destruct (dirty_ st). Qed.

Lemma steady_current_state P a :
  steady P (current_account_state bs0 a) (current_account_state bs1 a) (fun x => account_ok a (account_ x)).
Proof using Type.
  unfold current_account_state. eapply steady_bind; [apply steady_get_stack|]. intros o.
  eapply (steady_bind _ _ _ _ _ (stack_ok a)).
  { destruct o as [vs|]; [apply steady_ret; intros [_ H]; by apply H|].
    eapply steady_bind; [apply steady_original|]. intros x.
    eapply steady_bind; [by apply (steady_get _ _ any)|]. intros v. apply steady_ret.
    intros ((_ & E) & _). apply stack_ok_new. rewrite E. apply account_ok_read. }
  intros vs. apply (steady_assuming (stack_ok a vs)); [by intros [_ ?]|].
  eapply steady_bind; [apply steady_dirty|]. intros u.
  eapply steady_bind; [by apply (steady_get _ _ any)|]. intros v.
  eapply steady_bind; [apply steady_opt|]. intros vs'.
  apply (steady_assuming (stack_ok a vs')).
  { intros (((H & _) & _) & E) y Hy. by apply H, (vs_current_values _ _ _ _ E). }
  eapply steady_bind; [by apply steady_set_stack|]. intros u'.
  eapply steady_weaken; [|apply steady_opt]. intros x [H _] E. by apply (stack_ok_recent a vs').
Qed.

(** ** Composing operations *)
Lemma steady_get_any {A} P (f : State -> A) : steady P (sget f) (sget f) any.
Proof using Type. by apply steady_get. Qed.
Lemma steady_ret_any {A} P (x : A) : steady P (sret x) (sret x) any.
Proof using Type. by apply steady_ret. Qed.
Lemma steady_opt_any {A} P (o : option A) : steady P (sopt o) (sopt o) any.
Proof using Type. apply (steady_any _ _ _ _ (steady_opt P o)). Qed.
Lemma steady_recent P a : steady P (recent_account bs0 a) (recent_account bs1 a) (account_ok a).
Proof using Type.
  unfold recent_account. eapply steady_bind; [apply steady_recent_state|]. intros x. apply steady_ret. by intros [_ ?].
Qed.
Lemma steady_ensure P x :
  steady P (ensure_account x) (ensure_account x)
    (fun ac => forall a, account_ok a (account_ x) -> account_ok a (Some ac)).
Proof using Type.
  unfold ensure_account. eapply steady_bind; [apply steady_get_incarnation|]. intros i. apply steady_ret.
  intros [_ ->] a. destruct (account_ x); [done|]. intros _. by apply account_ok_inc.
Qed.
#[local] Hint Resolve steady_get_stack steady_get_incarnation steady_recent_state steady_recent
  steady_current_state steady_original steady_ensure steady_opt steady_assert steady_assert_throw
  steady_dirty | 1 : steady.
#[local] Hint Resolve steady_get_any steady_ret_any | 2 : steady.

Ltac steady_step :=
  cbv beta zeta;
  lazymatch goal with
  | |- steady _ (match ?x with _ => _ end) _ _ => destruct x eqn:?
  | |- steady _ (sbind _ _) _ _ =>
      first [eapply steady_bind; [solve [auto 1 with steady nocore]|intros ?]
            |apply (steady_bind _ _ _ _ _ any); [|intros ?]]
  | |- steady _ (sret _) _ any => apply steady_ret_any
  | |- steady _ (smodify _) _ any => apply steady_modify; intros; done
  | |- steady _ (modify_rb _) _ any => apply steady_modify; intros; done
  | |- steady _ _ _ any => first [solve [auto 1 with steady nocore]|
      eapply steady_any; solve [auto 1 with steady nocore]]
  end.
Ltac steady := repeat steady_step.

(** The balance of the account is noted as one that has to be validated. *)
Lemma steady_exact {A} P a (k0 k1 : OriginalAccountState -> SM A) Q :
  (forall o, steady P (k0 o) (k1 o) Q) ->
  steady P (sbind (original_account_state bs0 a)
      (fun o => sbind (set_original a (set_validate_exact_balance o)) (fun _ => k0 o)))
    (sbind (original_account_state bs1 a)
      (fun o => sbind (set_original a (set_validate_exact_balance o)) (fun _ => k1 o))) Q.
Proof using Type.
  intros Hk. apply steady_original_bind. intros o.
  eapply steady_with_bind; [by apply steady_with_set_original|].
  intros u. eapply steady_assuming; [|apply Hk]. by intros [[]].
Qed.

Section readers.
Context (P : Prop) (a : address).
Lemma steady_account_exists : steady P (account_exists bs0 a) (account_exists bs1 a) any.
Proof using Type. unfold account_exists. steady. Qed.
Lemma steady_account_is_dead : steady P (account_is_dead bs0 a) (account_is_dead bs1 a) any.
Proof using Type. unfold account_is_dead. steady. Qed.
Lemma steady_get_nonce : steady P (get_nonce bs0 a) (get_nonce bs1 a) any.
Proof using Type. unfold get_nonce. steady. Qed.
Lemma steady_get_balance : steady P (get_balance bs0 a) (get_balance bs1 a) any.
Proof using Type. unfold get_balance. steady_step. apply steady_exact. intros o. steady. Qed.
Lemma steady_get_original_balance : steady P (get_original_balance bs0 a) (get_original_balance bs1 a) any.
Proof using Type. unfold get_original_balance. apply steady_exact. intros o. steady. Qed.
Lemma steady_get_code_hash : steady P (get_code_hash bs0 a) (get_code_hash bs1 a) any.
Proof using Type. unfold get_code_hash. steady. Qed.
Lemma steady_is_destructed : steady P (is_destructed bs0 a) (is_destructed bs1 a) any.
Proof using Type. unfold is_destructed. steady. Qed.
Lemma steady_is_current_incarnation :
  steady P (is_current_incarnation bs0 a) (is_current_incarnation bs1 a) any.
Proof using Type. unfold is_current_incarnation. steady. Qed.
Lemma steady_get_transient k :
  steady P (get_transient_storage bs0 a k) (get_transient_storage bs1 a k) any.
Proof using Type. unfold get_transient_storage. steady. Qed.
Lemma steady_is_touched : steady P (is_touched a) (is_touched a) any.
Proof using Type. unfold is_touched. steady. Qed.
Lemma steady_read_code h : steady P (read_code_ bs0 h) (read_code_ bs1 h) any.
Proof. unfold read_code_. rewrite (rp_code _ _ _ Hrp). steady. Qed.
End readers.
#[local] Hint Resolve steady_account_exists steady_account_is_dead steady_get_nonce steady_get_balance
  steady_get_original_balance steady_get_code_hash steady_is_destructed steady_is_current_incarnation
  steady_get_transient steady_is_touched steady_read_code | 1 : steady.

Section code.
Context (P : Prop) (a : address).
Lemma steady_get_code : steady P (get_code bs0 a) (get_code bs1 a) any.
Proof. unfold get_code. rewrite (rp_code _ _ _ Hrp). steady. Qed.
Lemma steady_get_code_size : steady P (get_code_size bs0 a) (get_code_size bs1 a) any.
Proof. unfold get_code_size. steady. Qed.
Lemma steady_copy_code i n : steady P (copy_code bs0 a i n) (copy_code bs1 a i n) any.
Proof. unfold copy_code. steady. Qed.
Lemma steady_is_delegated h : steady P (is_delegated bs0 h) (is_delegated bs1 h) any.
Proof. unfold is_delegated. steady. Qed.
End code.
#[local] Hint Resolve steady_is_delegated | 1 : steady.

Section tracker.
Context (P : Prop) (a : address).
Lemma steady_subject_account : steady P (subject_account bs0 a) (subject_account bs1 a) any.
Proof. unfold subject_account. steady. Qed.
Lemma steady_pretx_reserve : steady P (pretx_reserve bs0 a) (pretx_reserve bs1 a) any.
Proof. unfold pretx_reserve. steady. Qed.
Lemma steady_set_threshold t : steady P (rb_set_threshold a t) (rb_set_threshold a t) any.
Proof. unfold rb_set_threshold. steady. Qed.
Lemma steady_rb_fail : steady P (rb_fail a) (rb_fail a) any.
Proof. unfold rb_fail. steady. Qed.
Lemma steady_rb_pass : steady P (rb_pass a) (rb_pass a) any.
Proof. unfold rb_pass. steady. Qed.
End tracker.
#[local] Hint Resolve steady_subject_account steady_pretx_reserve steady_set_threshold steady_rb_fail
  steady_rb_pass | 1 : steady.

Lemma steady_compute_threshold P a : steady P (compute_threshold bs0 a) (compute_threshold bs1 a) any.
Proof. unfold compute_threshold. steady. Qed.
#[local] Hint Resolve steady_compute_threshold | 1 : steady.

Lemma steady_update P a : steady P (update_violation_status bs0 a) (update_violation_status bs1 a) any.
Proof. unfold update_violation_status. steady. Qed.
#[local] Hint Resolve steady_update | 1 : steady.

Lemma steady_on_credit P a : steady P (rb_on_credit bs0 a) (rb_on_credit bs1 a) any.
Proof. unfold rb_on_credit. steady. Qed.
Lemma steady_on_debit P a : steady P (rb_on_debit bs0 a) (rb_on_debit bs1 a) any.
Proof. unfold rb_on_debit. steady. Qed.
Lemma steady_on_set_code P a c : steady P (rb_on_set_code bs0 a c) (rb_on_set_code bs1 a c) any.
Proof. unfold rb_on_set_code. steady. Qed.
Lemma steady_on_pop_reject P l : steady P (rb_on_pop_reject bs0 l) (rb_on_pop_reject bs1 l) any.
Proof.
  unfold rb_on_pop_reject. steady_step. steady_step; [steady|].
  revert P. induction l as [|a l IH]; intros P; cbn [rb_pop_reject_loop]; steady.
Qed.
#[local] Hint Resolve steady_on_credit steady_on_debit steady_on_set_code steady_on_pop_reject | 1 : steady.

(** ** Writers *)
Ltac account_side :=
  simpl; intros; destruct_and?; subst; simpl;
  repeat match goal with
         | E : account_ ?x = _, H : account_ok _ (account_ ?x) |- _ => rewrite E in H
         end;
  first [done | by apply account_ok_inc
    | eapply account_ok_keep; [|first [eassumption | by eauto]]; done].
#[local] Hint Extern 1 (steady _ (set_current _ _) _ _) => apply steady_set_current; account_side : steady.

Section writers.
Context (P : Prop) (a : address).
Lemma steady_set_nonce n : steady P (set_nonce bs0 a n) (set_nonce bs1 a n) any.
Proof using Type. unfold set_nonce. steady. Qed.
Lemma steady_add_to_balance d : steady P (add_to_balance bs0 a d) (add_to_balance bs1 a d) any.
Proof. unfold add_to_balance, touch_. steady. Qed.
Lemma steady_subtract_from_balance d :
  steady P (subtract_from_balance bs0 a d) (subtract_from_balance bs1 a d) any.
Proof. unfold subtract_from_balance, touch_. steady. Qed.
Lemma steady_set_transient k v :
  steady P (set_transient_storage bs0 a k v) (set_transient_storage bs1 a k v) any.
Proof using Type. unfold set_transient_storage. steady. Qed.
Lemma steady_touch : steady P (touch bs0 a) (touch bs1 a) any.
Proof using Type. unfold touch, touch_. steady. Qed.
Lemma steady_access_account : steady P (access_account bs0 a) (access_account bs1 a) any.
Proof using Type. unfold access_account. steady. Qed.
Lemma steady_access_storage k : steady P (access_storage bs0 a k) (access_storage bs1 a k) any.
Proof using Type. unfold access_storage. steady. Qed.
End writers.
#[local] Hint Resolve steady_add_to_balance steady_subtract_from_balance steady_get_code
  steady_get_code_size steady_copy_code | 1 : steady.

Lemma steady_selfdestruct P cancun a b :
  steady P (selfdestruct bs0 cancun a b) (selfdestruct bs1 cancun a b) any.
Proof. unfold selfdestruct. steady. Qed.
Lemma steady_set_code P keccak256 a c :
  steady P (set_code bs0 keccak256 a c) (set_code bs1 keccak256 a c) any.
Proof.
  unfold set_code. steady.
Qed.
Lemma steady_create_contract P a : steady P (create_contract bs0 a) (create_contract bs1 a) any.
Proof using Type. unfold create_contract, with_incarnation. steady. Qed.
Lemma steady_create_no_rollback P a :
  steady P (create_account_no_rollback bs0 a) (create_account_no_rollback bs1 a) any.
Proof using Type.
  unfold create_account_no_rollback. do 3 steady_step. apply steady_set_current.
  intros [_ ->] ac [= <-]. by left; right.
Qed.

(** *** Storage *)
Lemma set_storage_account k v w x : account_ (account_state.set_storage k v w x).2 = account_ x.
Proof using Type. unfold account_state.set_storage. by destruct (v =? 0). Qed.

Lemma steady_set_storage P a k v : steady P (set_storage bs0 a k v) (set_storage bs1 a k v) any.
Proof.
  unfold set_storage. do 2 steady_step. apply steady_original_bind. intros o.
  eapply steady_with_bind.
  { apply steady_read_original; [by intros [_ ?]|]. intros [[[_ H] E] _] ac Hac. rewrite E in H.
    by eapply account_ok_keep. }
  intros w. rewrite (surjective_pairing (account_state.set_storage _ _ _ _)).
  eapply steady_bind; [apply steady_set_current|intros u; steady].
  rewrite set_storage_account. by intros [[[[] _] _] _].
Qed.

(** The original account, which is there. *)
Lemma steady_loaded_bind {A} P a (k0 k1 : OriginalAccountState -> SM A) Q :
  (forall o, steady_with (P /\ account_ (o_state o) = read_account bs1 a) a o (k0 o) (k1 o) Q) ->
  steady P (sbind (sget (fun st => original_ st !! a)) (fun o => sbind (sopt o) k0))
    (sbind (sget (fun st => original_ st !! a)) (fun o => sbind (sopt o) k1)) Q.
Proof using Type.
  intros Hk. split; [intros st|intros HP st|intros st]; unfold sbind, sget; cbn beta iota;
    (destruct (original_ st !! a) as [o|] eqn:E; [|done]); simpl.
  - by apply (sw_mono _ _ _ _ _ _ (Hk o)).
  - intros H Hok. apply (sw_lock _ _ _ _ _ _ (Hk o)); try done. split; [done|].
    apply (sw_mono _ _ _ _ _ _ (Hk _)) in H; [|done]. by destruct (H a o E).
  - by apply (sw_mode _ _ _ _ _ _ (Hk o)).
Qed.

Lemma steady_with_opt {A C} P a o (x : option A) (k0 k1 : A -> SM C) Q :
  (forall y, x = Some y -> steady_with P a o (k0 y) (k1 y) Q) ->
  steady_with P a o (sbind (sopt x) k0) (sbind (sopt x) k1) Q.
Proof using Type.
  intros H. destruct x as [y|]; [apply (H y eq_refl)|]. by split; intros.
Qed.

Lemma steady_get_storage P a k : steady P (get_storage bs0 a k) (get_storage bs1 a k) any.
Proof.
  unfold get_storage. steady_step. destruct x as [vs|].
  - do 2 steady_step. destruct (storage_ x !! k); [steady|]. apply steady_loaded_bind. intros o.
    destruct (account_ (o_state o)) as [ac|] eqn:Eo; [|apply steady_with_weaken; steady].
    destruct (inc_eqb _ _); cbn [negb]; [|apply steady_with_weaken; steady].
    apply steady_read_original; [by rewrite Eo; intros []|].
    intros ((((_ & H) & E) & Ex) & _) ac' Hac. eapply account_ok_keep; [exact Hac|].
    rewrite <- Ex. apply (stack_ok_recent a vs); [by apply H|done].
  - apply steady_loaded_bind. intros o. apply steady_with_opt. intros ac Eo.
    apply steady_read_original; [by intros []|]. intros [_ E] ac' Hac.
    eapply account_ok_keep; [exact Hac|]. rewrite <- Eo, E. apply account_ok_read.
Qed.

Lemma steady_with_assert {A} P a o c (k0 k1 : SM A) Q :
  steady_with P a o k0 k1 Q -> steady_with P a o (sbind (sassert c) (fun _ => k0)) (sbind (sassert c) (fun _ => k1)) Q.
Proof using Type. intros H. apply steady_with_pure; [by destruct c|done]. Qed.

Lemma steady_record_debit P a d :
  steady P (record_balance_constraint_for_debit bs0 a d) (record_balance_constraint_for_debit bs1 a d) any.
Proof using Type.
  unfold record_balance_constraint_for_debit. steady_step. cbv zeta. apply steady_original_bind. intros o.
  destruct (d <=? _); (eapply (steady_with_bind _ _ _ _ _ _ _ any); [|intros u; steady]);
    [|by apply steady_with_set_original].
  destruct (_ <? _); [|apply steady_with_weaken; steady].
  unfold set_min_balance. apply steady_with_opt. intros ac _. apply steady_with_assert.
  destruct (_ <? _); [by apply steady_with_set_original|apply steady_with_weaken; steady].
Qed.

(** *** Frames *)
Lemma steady_push P : steady P push push any.
Proof using Type. unfold push. steady. Qed.
Lemma steady_logs P : steady P logs logs any.
Proof using Type. unfold logs. steady. Qed.
Lemma steady_store_log P l : steady P (store_log l) (store_log l) any.
Proof using Type. unfold store_log. steady. Qed.

(** Replacing a stack by one with values of the old one. *)
Lemma steady_pop_stack {A} P a v (pop : nat -> VersionStack AccountState -> option (VersionStack AccountState))
    (k0 k1 : VersionStack AccountState -> SM A) :
  (forall vs vs' x, pop v vs = Some vs' -> x ∈ vs'.*2 -> x ∈ vs.*2) ->
  (forall vs P', steady P' (k0 vs) (k1 vs) any) ->
  forall vs, steady (P /\ stack_ok a vs)
    (sbind (sopt (pop v vs)) (fun vs => sbind (smodify (fun st => set_current_ (<[a := vs]> (current_ st)) st))
      (fun _ => k0 vs)))
    (sbind (sopt (pop v vs)) (fun vs => sbind (smodify (fun st => set_current_ (<[a := vs]> (current_ st)) st))
      (fun _ => k1 vs))) any.
Proof using Type.
  intros Hpop Hk vs. steady_step. eapply steady_bind; [apply steady_set_stack|intros u; apply Hk].
  intros [[_ H] E] y Hy. by apply H, (Hpop _ _ _ E).
Qed.

Lemma vs_pop_reject_values v (vs vs' : VersionStack AccountState) x :
  vs_pop_reject v vs = Some vs' -> x ∈ vs'.*2 -> x ∈ vs.*2.
Proof using Type.
  unfold vs_pop_reject. destruct (v =? 0)%nat; [done|]. destruct vs as [|[u y] rest]; [done|].
  intros [= <-]. destruct (v =? u)%nat; [|done]. simpl. by right.
Qed.

Lemma steady_pop_accept_loop P l : steady P (pop_accept_loop l) (pop_accept_loop l) any.
Proof using Type.
  revert P. induction l as [|a l IH]; intros P; cbn [pop_accept_loop]; [steady|].
  do 3 steady_step. eapply steady_assuming; [|apply (steady_pop_stack P a x1 vs_pop_accept)].
  - intros [[[HP H] E] _]. split; [done|]. by apply H.
  - intros vs vs' y. apply vs_pop_accept_values.
  - intros vs P'. steady.
Qed.

Lemma steady_pop_reject_loop P l r : steady P (pop_reject_loop l r) (pop_reject_loop l r) any.
Proof using Type.
  revert P r. induction l as [|a l IH]; intros P r; cbn [pop_reject_loop]; [steady|].
  do 3 steady_step. eapply steady_assuming; [|apply (steady_pop_stack P a x1 vs_pop_reject)].
  - intros [[[HP H] E] _]. split; [done|]. by apply H.
  - intros vs vs' y. apply vs_pop_reject_values.
  - intros vs P'. apply IH.
Qed.
#[local] Hint Resolve steady_pop_accept_loop steady_pop_reject_loop | 1 : steady.

Lemma steady_pop_accept P : steady P pop_accept pop_accept any.
Proof using Type. unfold pop_accept. steady. Qed.

Lemma steady_remove_stacks P l :
  let m := smodify (fun st => set_current_ (foldr delete (current_ st) l) st) in steady P m m any.
Proof using Type.
  apply steady_set_stacks; [done..|]. intros _ st [_ H] a x Hx. apply (H a). revert Hx.
  unfold values, stack. simpl. induction l as [|b l IH]; simpl; [done|].
  destruct (decide (b = a)) as [->|]; [by rewrite lookup_delete_eq; intros []%elem_of_nil|].
  by rewrite lookup_delete_ne.
Qed.
#[local] Hint Resolve steady_remove_stacks | 1 : steady.

Lemma steady_pop_reject P : steady P (pop_reject bs0) (pop_reject bs1) any.
Proof. unfold pop_reject. steady. Qed.

(** *** Clean-up *)
Lemma steady_for_all P ok f :
  (forall x, account_ (f x) = account_ x \/ account_ (f x) = None) ->
  steady P (for_all_current ok f) (for_all_current ok f) any.
Proof using Type.
  intros Hf. unfold for_all_current. apply (steady_bind _ _ _ _ _ accounts_ok); [by apply steady_get|].
  intros s. do 2 steady_step. apply steady_set_stacks; [done..|]. intros [[[_ [_ H]] _] _] st _ a y.
  specialize (H a). unfold values, stack in *. simpl. rewrite lookup_fmap.
  destruct (current_ s !! a) as [[|[u z] [|p rest]]|]; simpl in *; try done; auto.
  intros ->%list_elem_of_singleton. destruct (Hf z) as [->| ->]; [|done]. apply H. by left.
Qed.

Lemma steady_destruct_suicides P c : steady P (destruct_suicides c) (destruct_suicides c) any.
Proof using Type.
  unfold destruct_suicides. steady_step. apply steady_for_all. intros y. destruct (destructed_ _); [|by left].
  destruct c; [|by right]. simpl. destruct (account_ y) eqn:E; [|by left]. destruct (inc_eqb _ _); first [by right | by left].
Qed.
Lemma steady_destruct_touched P : steady P destruct_touched_dead destruct_touched_dead any.
Proof using Type.
  apply steady_for_all. intros y. destruct (touched_ _); [|by left]. simpl.
  destruct (is_dead _); first [by right | by left].
Qed.

(** ** Programs *)
#[local] Hint Resolve steady_set_nonce steady_set_transient steady_touch steady_access_account
  steady_access_storage steady_selfdestruct steady_set_code steady_create_contract
  steady_create_no_rollback steady_set_storage steady_get_storage steady_record_debit steady_push
  steady_logs steady_store_log steady_pop_accept steady_pop_reject steady_destruct_suicides
  steady_destruct_touched | 1 : steady.

Lemma steady_op {X} (o : txE X) P : steady P (run_op bs0 o) (run_op bs1 o) any.
Proof. destruct o; cbn [run_op]; steady. Qed.

Lemma steady_tx {A} (p : tx_prog A) P : steady P (run_tx bs0 p) (run_tx bs1 p) any.
Proof.
  revert P. induction p as [x|X o k IH]; intros P; cbn [run_tx]; [steady|].
  eapply steady_bind; [apply steady_op|]. intros x. apply IH.
Qed.
End lockstep.

(** ** Larger programs

    The operations as hints, and the tactic that goes through a program. *)
#[export] Hint Resolve steady_get_incarnation steady_recent_state steady_recent steady_current_state steady_original
  steady_opt steady_assert steady_assert_throw steady_account_exists steady_account_is_dead steady_get_nonce
  steady_get_balance steady_get_original_balance steady_get_code_hash steady_is_destructed
  steady_is_current_incarnation steady_get_transient steady_is_touched steady_read_code steady_is_delegated
  steady_add_to_balance steady_subtract_from_balance steady_get_code steady_get_code_size steady_copy_code
  steady_set_nonce steady_set_transient steady_touch steady_access_account
  steady_access_storage steady_selfdestruct steady_set_code steady_create_contract
  steady_create_no_rollback steady_set_storage steady_get_storage steady_record_debit steady_push
  steady_logs steady_store_log steady_pop_accept steady_pop_reject steady_destruct_suicides
  steady_destruct_touched | 1 : steady.
#[export] Hint Resolve steady_get_any steady_ret_any | 2 : steady.
#[export] Hint Resolve steady_halt | 1 : steady.

Ltac steady_step :=
  cbv beta zeta;
  lazymatch goal with
  | |- steady _ _ _ (match ?x with _ => _ end) _ _ => destruct x eqn:?
  | |- steady _ _ _ (sbind _ _) _ _ =>
      first [eapply steady_bind; [solve [auto 2 with steady nocore]|intros ?]
            |eapply (steady_bind _ _ _ _ _ _ _ any); [|intros ?]]
  | |- steady _ _ _ (sret _) _ any => apply steady_ret_any
  | |- steady _ _ _ (smodify _) _ any => apply steady_modify; intros; done
  | |- steady _ _ _ (modify_rb _) _ any => apply steady_modify; intros; done
  | |- steady _ _ _ _ _ any => first [solve [auto 2 with steady nocore]|
      eapply steady_any; solve [auto 2 with steady nocore]]
  end.
Ltac steady := repeat steady_step.

(** ** Replay *)
Section replay.
Context (bs0 bs1 : BlockReads) (inc : Incarnation) (Hrp : replayable bs0 bs1 inc).

Lemma accounts_ok_new st :
  incarnation_ st = inc -> current_ st = ∅ -> accounts_ok bs1 inc st.
Proof using Type.
  intros E1 E2. split; [done|]. intros a x. unfold values, stack. rewrite E2, lookup_empty.
  by intros []%elem_of_nil.
Qed.

Lemma replay {A} (p : tx_prog A) relaxed :
  let spec := run_tx bs0 p (new_state inc relaxed) in
  agrees bs1 spec.2 -> run_tx bs1 p (new_state inc relaxed) = spec.
Proof using Type*.
  intros spec H. destruct (steady_tx bs0 bs1 inc Hrp p True) as [_ Hl _].
  destruct (Hl I _ H) as [E _]; [by apply accounts_ok_new|done].
Qed.

Lemma set_nonce_start sender n relaxed :
  exists ac, set_original_nonce bs0 sender n (new_state inc relaxed) =
    (ROk tt, set_original_ {[sender := new_original (Some ac)]} (new_state inc relaxed)).
Proof using Type.
  eexists. unfold set_original_nonce, original_account_state, sbind, sget, smodify, sret, set_original, smodify.
  cbn [original_ new_state]. rewrite lookup_empty. f_equal. cbn [original_ set_original_].
  by rewrite insert_insert_eq.
Qed.

Lemma read_nonce_start (bs : BlockReads) sender st :
  original_ st = ∅ -> current_ st = ∅ ->
  get_nonce bs sender st =
  get_nonce bs sender (set_original_ {[sender := new_original (read_account bs sender)]} st).
Proof using Type.
  intros E1 E2. unfold get_nonce, recent_account, recent_account_state, original_account_state, sbind, sget,
    sret, smodify. destruct st as [i o c l cd v d r rb]. cbn [original_ current_] in E1, E2. subst o c.
  cbn [original_ current_ set_original_]. rewrite !lookup_empty. cbn [original_ current_ set_original_]. rewrite !lookup_empty, lookup_singleton_eq. done.
Qed.

(** The first attempt starts with the nonce the transaction expects. *)
Lemma replay_nonce {A} (k : u64 -> tx_prog A) sender n relaxed :
  let p := TOp (TGetNonce sender) k in
  let spec := run_tx bs0 p (set_original_nonce bs0 sender n (new_state inc relaxed)).2 in
  agrees bs1 spec.2 -> run_tx bs1 p (new_state inc relaxed) = spec.
Proof using Type*.
  intros p spec. subst spec. destruct (set_nonce_start sender n relaxed) as [ac ->]. intros H.
  destruct (steady_tx bs0 bs1 inc Hrp p True) as [Hm Hl _].
  destruct (Hl I _ H) as [E _]; [by apply accounts_ok_new|]. etrans; [|exact E].
  destruct (Hm _ H sender (new_original (Some ac))) as [Hr _]; [apply lookup_singleton_eq|].
  unfold p. cbn [run_tx run_op]. unfold sbind.
  rewrite (read_nonce_start bs1 sender (new_state inc relaxed)) by reflexivity.
  cbn [o_state new_original new_account_state account_] in Hr. rewrite <- Hr. reflexivity.
Qed.
End replay.
