(* ===== verification/BlockState.v ===== *)
(** * The block state and optimistic execution

    Models src/category/execution/ethereum/state2/{block_state.hpp,
    block_state.cpp,state_deltas.hpp}: the deltas of the block so far over the
    database, the reads that cache into them, and the validation and merging of
    a finished transaction state.  The database ([Db]) and the code cache of the
    virtual machine are parameters.  [reads_of] is what a transaction sees of a
    block state.  The theorems: reads do not change what is seen, a validated
    state agrees with the block state, merging makes the transaction's values the
    block's, and an optimistic run that validates is the sequential run. *)
From S2P Require Import Prelude Prog Abi StakingVars VersionStack State3 StateHooks StateFrames StateRefine ReserveTrack Lockstep.

(** ** Data *)
Abbreviation Delta T := (T * T)%type.
Abbreviation StorageDeltas := (gmap bytes32 (Delta bytes32)).

Record StateDelta := mk_delta { delta_account : Delta (option Account); delta_storage : StorageDeltas }.

Abbreviation StateDeltas := (gmap address StateDelta).

(** The reads of the database, and [VM::find_varcode]. *)
Record Db := mk_db {
  db_read_account : address -> option Account;
  db_read_storage : address -> Incarnation -> bytes32 -> bytes32;
  db_read_code : bytes32 -> option byte_string;
  find_varcode : bytes32 -> option byte_string }.

Record BlockState := mk_block_state {
  state_ : StateDeltas;
  block_code_ : gmap bytes32 byte_string;
  self_destruct_storage_reads_ : gmap address (gset bytes32) }.

Definition new_block_state : BlockState := mk_block_state ∅ ∅ ∅.

Definition set_state_ (s : StateDeltas) (B : BlockState) : BlockState :=
  mk_block_state s (block_code_ B) (self_destruct_storage_reads_ B).
Definition set_block_code_ c (B : BlockState) : BlockState :=
  mk_block_state (state_ B) c (self_destruct_storage_reads_ B).
Definition set_reads_ r (B : BlockState) : BlockState :=
  mk_block_state (state_ B) (block_code_ B) r.

(** [!account || incarnation != account->incarnation], negated. *)
Definition lives_as (account : option Account) (i : Incarnation) : bool :=
  match account with Some ac => inc_eqb i (acct_incarnation ac) | None => false end.

(** ** Operations *)
Module block_state.
Section ops.
Context (db : Db).

Definition read_account (address : address) (B : BlockState) : option Account * BlockState :=
  match state_ B !! address with
  | Some d => ((delta_account d).2, B)
  | None =>
      let result := db_read_account db address in
      (result, set_state_ (<[address := mk_delta (result, result) ∅]> (state_ B)) B)
  end.

(** [None] is a failed assertion.  No other thread runs between the two looks at
    the deltas, so the second finds the account the first found. *)
Definition read_storage (address : address) (incarnation : Incarnation) (key : bytes32)
    (B : BlockState) : option (bytes32 * BlockState) :=
  match state_ B !! address with
  | None => None
  | Some d =>
      let account := (delta_account d).2 in
      if negb (lives_as account incarnation) then Some (#0, B)
      else match delta_storage d !! key with
      | Some v => Some (v.2, B)
      | None =>
          let orig_account := (delta_account d).1 in
          let result := if lives_as orig_account incarnation
                        then db_read_storage db address incarnation key else #0 in
          Some (result, set_state_ (<[address :=
            mk_delta (delta_account d) (<[key := (result, result)]> (delta_storage d))]> (state_ B)) B)
      end
  end.

Definition read_code (code_hash : bytes32) (B : BlockState) : option byte_string :=
  match find_varcode db code_hash with
  | Some vcode => Some vcode
  | None =>
      match block_code_ B !! code_hash with
      | Some icode => Some icode
      | None =>
          match db_read_code db code_hash with
          | None => None
          | Some result =>
              if (code_hash =w? NULL_HASH) || negb (length result =? 0)%nat then Some result else None
          end
      end
  end.
End ops.

(** The loop over the slots a transaction read. *)
Fixpoint can_merge_storage (deltas : StorageDeltas) (storage : list (bytes32 * bytes32)) : bool :=
  match storage with
  | [] => true
  | (key, value) :: rest =>
      match deltas !! key with
      | Some d => if negb (value =w? d.2) then false else can_merge_storage deltas rest
      | None => if negb (value =? 0) then false else can_merge_storage deltas rest
      end
  end.

Section can_merge.
#[local] Open Scope sm_scope.

Fixpoint can_merge_loop (B : BlockState) (original : list (address * OriginalAccountState)) : SM bool :=
  match original with
  | [] => sret true
  | (address, account_state) :: rest =>
      let account := account_ (o_state account_state) in
      let storage := storage_ (o_state account_state) in
      d <- sopt (state_ B !! address) ;;
      ok <- (if bool_decide (account = (delta_account d).2) then sret true
             else try_fix_account_mismatch address (delta_account d).2) ;;
      if negb ok then sret false
      else if negb (can_merge_storage (delta_storage d) (map_to_list storage)) then sret false
      else can_merge_loop B rest
  end.

Definition can_merge (B : BlockState) : SM bool :=
  original <- sget original_ ;;
  can_merge_loop B (map_to_list original).
End can_merge.

(** The hashes of the accounts to merge; [None] is a failed assertion. *)
Fixpoint merge_code_hashes (current : list (address * VersionStack AccountState)) : option (list bytes32) :=
  match current with
  | [] => Some []
  | (_, stack) :: rest =>
      match stack with
      | [(0%nat, account_state)] =>
          hashes ← merge_code_hashes rest;
          Some (match account_ account_state with
                | Some ac => acct_code_hash ac :: hashes
                | None => hashes
                end)
      | _ => None
      end
  end.

(** [emplace] keeps an entry that is there. *)
Definition emplace `{Countable K} {T} (k : K) (v : T) (m : gmap K T) : gmap K T :=
  match m !! k with Some _ => m | None => <[k := v]> m end.

Definition merge_code (code : gmap bytes32 byte_string) (hashes : list bytes32) (B : BlockState) : BlockState :=
  foldl (fun B h => match code !! h with
                    | None => B
                    | Some c => set_block_code_ (emplace h c (block_code_ B)) B
                    end) B hashes.

Fixpoint merge_storage (storage : list (bytes32 * bytes32)) (deltas : StorageDeltas) : StorageDeltas :=
  match storage with
  | [] => deltas
  | (key, value) :: rest =>
      merge_storage rest
        (match deltas !! key with
         | Some d => <[key := (d.1, value)]> deltas
         | None => <[key := (#0, value)]> deltas
         end)
  end.

Definition merge_account (address : address) (x : AccountState) (B : BlockState) : option BlockState :=
  match state_ B !! address with
  | None => None
  | Some d =>
      let account := account_ x in
      Some (match account with
      | Some _ =>
          set_state_ (<[address := mk_delta ((delta_account d).1, account)
            (merge_storage (map_to_list (storage_ x)) (delta_storage d))]> (state_ B)) B
      | None =>
          let B := match (delta_account d).1 with
                   | Some _ => set_reads_ (emplace address (dom (delta_storage d))
                                             (self_destruct_storage_reads_ B)) B
                   | None => B
                   end in
          set_state_ (<[address := mk_delta ((delta_account d).1, account) ∅]> (state_ B)) B
      end)
  end.

Fixpoint merge_loop (current : list (address * VersionStack AccountState)) (B : BlockState)
    : option BlockState :=
  match current with
  | [] => Some B
  | (address, stack) :: rest =>
      x ← vs_recent stack;
      B ← merge_account address x B;
      merge_loop rest B
  end.

Definition merge (st : State) (B : BlockState) : option BlockState :=
  hashes ← merge_code_hashes (map_to_list (current_ st));
  merge_loop (map_to_list (current_ st)) (merge_code (code_ st) hashes B).

(** The three maps, handed over to the commit. *)
Definition release (B : BlockState) : StateDeltas * gmap bytes32 byte_string * gmap address (gset bytes32) :=
  (state_ B, block_code_ B, self_destruct_storage_reads_ B).
End block_state.
Import block_state.

(** ** What a transaction sees *)
Section view.
Context (db : Db).

(** The account of an address and the value of a slot, loaded or not. *)
Definition delta_of (B : BlockState) (a : address) : StateDelta :=
  default (mk_delta (db_read_account db a, db_read_account db a) ∅) (state_ B !! a).

Definition slot_of (d : StateDelta) (a : address) (i : Incarnation) (k : bytes32) : bytes32 :=
  if lives_as (delta_account d).2 i then
    match delta_storage d !! k with
    | Some v => v.2
    | None => if lives_as (delta_account d).1 i then db_read_storage db a i k else #0
    end
  else #0.

Definition reads_of (B : BlockState) : BlockReads :=
  mk_reads (fun a => (delta_account (delta_of B a)).2)
    (fun a i k => slot_of (delta_of B a) a i k)
    (fun h => default [] (read_code db h B)).
End view.

(** ** Invariant: a dead account has no slots *)
Definition block_ok (B : BlockState) : Prop :=
  forall a d, state_ B !! a = Some d -> (delta_account d).2 = None -> delta_storage d = ∅.

Section laws.
Context (db : Db).
Implicit Types (B : BlockState) (a : address) (k : bytes32) (i : Incarnation).
#[local] Abbreviation sees_account B := (State3.read_account (reads_of db B)).
#[local] Abbreviation sees_storage B := (State3.read_storage (reads_of db B)).
#[local] Abbreviation sees_code B := (State3.read_code (reads_of db B)).

Lemma inc_eqb_spec i j : reflect (i = j) (inc_eqb i j).
Proof.
  unfold inc_eqb. destruct i as [b t], j as [b' t']. simpl.
  destruct (weqb_spec b b') as [<-|Hn]; simpl; [|constructor; by intros [=]].
  destruct (weqb_spec t t') as [<-|Hn]; constructor; [done|]. by intros [=].
Qed.

Lemma lives_as_spec x i : lives_as x i = true <-> exists ac, x = Some ac /\ acct_incarnation ac = i.
Proof.
  unfold lives_as. destruct x as [ac|]; [|split; [done|intros (?&?&?); done]].
  destruct (inc_eqb_spec i (acct_incarnation ac)) as [->|Hn]; split; try done; [eauto|].
  intros (ac' & [= <-] & E). by destruct Hn.
Qed.

(** Slots of other incarnations are zero. *)
Lemma reads_lawful B a i k :
  (forall acct, sees_account B a = Some acct -> acct_incarnation acct <> i) -> sees_storage B a i k = #0.
Proof.
  intros H. simpl in *. unfold slot_of. destruct (lives_as _ i) eqn:E; [|done].
  apply lives_as_spec in E as (ac & E & Ei). by destruct (H ac E).
Qed.

(** ** Reads *)
Record same_view B B' : Prop := mk_same_view {
  sv_account : forall a, sees_account B' a = sees_account B a;
  sv_storage : forall a i k, sees_storage B' a i k = sees_storage B a i k;
  sv_code : forall h, sees_code B' h = sees_code B h;
  sv_loaded : forall a, is_Some (state_ B !! a) -> is_Some (state_ B' !! a);
}.

#[export] Instance same_view_preorder : PreOrder same_view.
Proof.
  split; [by split|]. intros B1 B2 B3 [] []. split; [congruence..|auto].
Qed.

(** Changing the entry of one address. *)
Lemma same_view_update B a d :
  delta_account d = delta_account (delta_of db B a) ->
  (forall i k, slot_of db d a i k = slot_of db (delta_of db B a) a i k) ->
  same_view B (set_state_ (<[a := d]> (state_ B)) B).
Proof.
  intros E1 E2. split; try done; simpl; intros b; unfold delta_of in *; simpl;
    (destruct (decide (a = b)) as [<-|Hb]; [rewrite lookup_insert_eq; simpl|by rewrite lookup_insert_ne]).
  - by rewrite E1.
  - intros i k. apply E2.
  - done.
Qed.

Lemma block_ok_update B a d :
  block_ok B -> ((delta_account d).2 = None -> delta_storage d = ∅) ->
  block_ok (set_state_ (<[a := d]> (state_ B)) B).
Proof.
  intros H Hd b d'. simpl. destruct (decide (a = b)) as [<-|Hb].
  - rewrite lookup_insert_eq. by intros [= <-].
  - rewrite lookup_insert_ne by done. apply H.
Qed.

Lemma read_account_sees a B :
  block_ok B -> exists B', block_state.read_account db a B = (sees_account B a, B') /\ same_view B B' /\
    block_ok B' /\ is_Some (state_ B' !! a).
Proof.
  intros Hok. unfold block_state.read_account. simpl. unfold delta_of.
  destruct (state_ B !! a) as [d|] eqn:E; simpl.
  - exists B. split_and!; [done..|]. by rewrite E.
  - eexists. split_and!; [done| | |simpl; by rewrite lookup_insert_eq].
    + by apply same_view_update; unfold delta_of; rewrite E.
    + by apply block_ok_update.
Qed.

Lemma read_storage_sees a i k B :
  block_ok B -> is_Some (state_ B !! a) ->
  exists B', block_state.read_storage db a i k B = Some (sees_storage B a i k, B') /\ same_view B B' /\
    block_ok B' /\ (lives_as (sees_account B a) i = true -> is_Some (delta_storage (delta_of db B' a) !! k)).
Proof.
  intros Hok [d E]. unfold block_state.read_storage. simpl. unfold slot_of, delta_of. rewrite E. simpl.
  destruct (lives_as (delta_account d).2 i) eqn:El; cbn [negb]; [|by exists B].
  destruct (delta_storage d !! k) as [v|] eqn:Ek.
  { exists B. split_and!; [done..|]. intros _. rewrite E. simpl. by rewrite Ek. }
  eexists. split; [done|]. split_and!.
  - apply same_view_update; unfold delta_of; rewrite E; [done|]. simpl. intros i' k'. unfold slot_of. simpl.
    destruct (lives_as (delta_account d).2 i') eqn:El'; [|done].
    destruct (decide (k = k')) as [<-|Hk]; [|by rewrite lookup_insert_ne].
    rewrite lookup_insert_eq, Ek. simpl. apply lives_as_spec in El as (ac & E1 & <-).
    apply lives_as_spec in El' as (ac' & E2 & <-). rewrite E1 in E2. by injection E2 as <-.
  - apply block_ok_update; [done|]. simpl. intros En. apply lives_as_spec in El as (ac & E1 & _). congruence.
  - intros _. simpl. rewrite lookup_insert_eq. simpl. by rewrite lookup_insert_eq.
Qed.
End laws.

(** ** Validation *)

(** Follow a successful run down every branch. *)
Ltac follow :=
  repeat first
    [ progress unbind
    | match goal with
      | H : sassert _ _ = (ROk _, _) |- _ => apply assert_ok in H as [? ->]
      | H : (match ?x with _ => _ end) _ = (ROk _, _) |- _ => destruct x eqn:?
      | H : (let '(_, _) := ?x in _) _ = (ROk _, _) |- _ => destruct x eqn:?
      end ].

Section validate.
Context (db : Db) (B : BlockState).
Implicit Types (a : address) (st : State) (o : OriginalAccountState).

(** What [can_merge] establishes of one account. *)
Definition validated a o (storage : StorageMap) : Prop :=
  storage_ (o_state o) = storage /\
  exists d, state_ B !! a = Some d /\ account_ (o_state o) = (delta_account d).2 /\
    can_merge_storage (delta_storage d) (map_to_list storage) = true.

Lemma adjust_current_keeps a u w st x st' :
  adjust_current a u w st = (ROk x, st') -> original_ st' = original_ st.
Proof. unfold adjust_current, set_current. intros H. by follow. Qed.

(** A repaired account is the block's. *)
Lemma fixed_account a actual st st' o :
  original_ st !! a = Some o -> try_fix_account_mismatch a actual st = (ROk true, st') ->
  exists o', original_ st' = <[a := o']> (original_ st) /\ account_ (o_state o') = actual /\
    storage_ (o_state o') = storage_ (o_state o).
Proof.
  intros Ho H. unfold try_fix_account_mismatch in H. follow; simplify_eq.
  match goal with H : adjust_current _ _ _ _ = _ |- _ => apply adjust_current_keeps in H as H1 end.
  match goal with H : sret true _ = _ |- _ => injection H as <- end.
  eexists. split_and!; [simpl; by rewrite H1| |done]. simpl. f_equal.
  destruct a0, a1. unfold with_balance. simpl in *. f_equal.
  - by destruct (weqb_spec acct_code_hash acct_code_hash0).
  - by destruct (weqb_spec acct_nonce acct_nonce0).
  - by destruct (inc_eqb_spec acct_incarnation acct_incarnation0).
Qed.

Lemma can_merge_loop_spec l st st' :
  NoDup l.*1 -> (forall a o, (a, o) ∈ l -> original_ st !! a = Some o) ->
  can_merge_loop B l st = (ROk true, st') ->
  (forall a o, (a, o) ∈ l -> exists o', original_ st' !! a = Some o' /\ validated a o' (storage_ (o_state o))) /\
  (forall a, a ∉ l.*1 -> original_ st' !! a = original_ st !! a).
Proof.
  revert st. induction l as [|[a o] l IH]; intros st; cbn [can_merge_loop].
  { intros _ _ [= <-]. split; [by intros ?? []%elem_of_nil|done]. }
  intros [Ha Hd]%NoDup_cons Hl H. apply sbind_ok in H as (d & st1 & [Ed ->]%sopt_ok & H).
  apply sbind_ok in H as (ok & st1 & Hfix & H).
  assert (Ho : original_ st !! a = Some o) by (apply Hl; by left).
  destruct ok; [|done]. cbn [negb] in H.
  destruct (can_merge_storage _ _) eqn:Es; [|done]. cbn [negb] in H.
  assert (Hst : exists o', original_ st1 = <[a := o']> (original_ st) /\
    account_ (o_state o') = (delta_account d).2 /\ storage_ (o_state o') = storage_ (o_state o)).
  { case_bool_decide as Eb; [|by apply (fixed_account a _ st)].
    injection Hfix as <-. exists o. by rewrite insert_id. }
  destruct Hst as (o' & Eo & E1 & E2).
  destruct (IH st1 Hd) as [H1 H2]; [| done|].
  { intros b ob Hb. rewrite Eo, lookup_insert_ne; [apply Hl; by right|]. intros ->. apply Ha.
    by apply (list_elem_of_fmap_2 fst) in Hb. }
  split.
  - intros b ob [[= -> ->]|Hb]%elem_of_cons; [|by apply H1]. exists o'.
    rewrite H2, Eo, lookup_insert_eq by done. split; [done|]. split; [done|]. eauto.
  - intros b [Hb1 Hb2]%not_elem_of_cons. rewrite H2, Eo, lookup_insert_ne by done. done.
Qed.

Lemma can_merge_spec st st' :
  can_merge B st = (ROk true, st') ->
  forall a o', original_ st' !! a = Some o' -> validated a o' (storage_ (o_state o')).
Proof.
  intros H a o' Ho'. apply sbind_ok in H as (l & st1 & [= <- <-] & H).
  destruct (can_merge_loop_spec _ _ _ (NoDup_fst_map_to_list _) (fun a o => proj1 (elem_of_map_to_list _ a o)) H)
    as [H1 H2].
  destruct (original_ st !! a) as [o|] eqn:Eo.
  - destruct (H1 a o) as (o1 & E1 & V); [by apply elem_of_map_to_list|].
    rewrite Ho' in E1. injection E1 as <-. by rewrite (proj1 V).
  - rewrite H2, Eo in Ho'; [done|]. intros ((b & o) & -> & Hb%elem_of_map_to_list)%list_elem_of_fmap. simpl in Eo. congruence.
Qed.

Lemma can_merge_storage_spec ds (m : StorageMap) k v :
  can_merge_storage ds (map_to_list m) = true -> m !! k = Some v ->
  match ds !! k with Some d => v = d.2 | None => v = #0 end.
Proof.
  intros H Hk%elem_of_map_to_list. revert H. generalize dependent (map_to_list m). intros l.
  induction l as [|[k' v'] l IH]; [by intros []%elem_of_nil|].
  intros [[= <- <-]|Hk]%elem_of_cons; cbn [can_merge_storage].
  - destruct (ds !! k) as [d|].
    + by destruct (weqb_spec v d.2).
    + destruct (Z.eqb_spec v 0) as [E|]; [|done]. intros _. apply uval_inj. by rewrite E, uval_wrap_0.
  - destruct (ds !! k') as [d|]; [destruct (v' =w? d.2)|destruct (v' =? 0)]; cbn [negb]; first [by apply IH | done].
Qed.

(** Every slot the transaction read was cached by the block state, or is zero. *)
Definition recorded st : Prop :=
  forall a o k ac, original_ st !! a = Some o -> is_Some (storage_ (o_state o) !! k) ->
    account_ (o_state o) = Some ac ->
    is_Some (delta_storage (delta_of db B a) !! k) \/
    State3.read_storage (reads_of db B) a (acct_incarnation ac) k = #0.

Lemma validated_agrees st st' :
  block_ok B -> can_merge B st = (ROk true, st') -> recorded st' -> agrees (reads_of db B) st'.
Proof.
  intros Hok H Hrec a o Ho. destruct (can_merge_spec _ _ H a o Ho) as (_ & d & Ed & Ea & Es).
  assert (Edd : delta_of db B a = d) by (unfold delta_of; by rewrite Ed).
  split; [simpl; by rewrite Edd|]. intros k v Hk. pose proof (can_merge_storage_spec _ _ _ _ Es Hk) as Hv.
  destruct (account_ (o_state o)) as [ac|] eqn:Eac.
  - specialize (Hrec a o k ac Ho (ex_intro _ v Hk) Eac). simpl in Hrec |- *. rewrite Edd in *.
    unfold slot_of in *. rewrite <- Ea in *. cbn [lives_as] in *. rewrite inc_eqb_refl in *.
    destruct (delta_storage d !! k); [done|]. destruct Hrec as [[? ?]|E]; [done|]. by rewrite E.
  - by rewrite (Hok a d Ed (eq_sym Ea)), lookup_empty in Hv.
Qed.
End validate.

(** ** Strict validation is agreement *)
Section strict.
Context (db : Db) (B : BlockState).
Implicit Types (a : address) (st : State) (o : OriginalAccountState).

Lemma no_fix a actual st o :
  original_ st !! a = Some o -> relaxed_validation_ st = false -> account_ (o_state o) <> actual ->
  try_fix_account_mismatch a actual st = (ROk false, st).
Proof.
  intros Ho Hr Hn. unfold try_fix_account_mismatch, sbind, sget. rewrite Ho. cbn [sopt sret]. rewrite Hr.
  destruct (account_ (o_state o)) as [ac|]; [|done]. destruct actual as [ac'|]; [|done].
  destruct (is_empty ac); [done|]. destruct (is_empty ac'); [done|].
  destruct (weqb_spec (acct_code_hash ac) (acct_code_hash ac')) as [E1|]; [|done].
  destruct (inc_eqb_spec (acct_incarnation ac) (acct_incarnation ac')) as [E2|]; [|done].
  destruct (weqb_spec (acct_nonce ac) (acct_nonce ac')) as [E3|]; [|done].
  destruct (weqb_spec (acct_balance ac) (acct_balance ac')) as [E4|]; [|done].
  destruct Hn. f_equal. destruct ac, ac'. simpl in *. by subst.
Qed.

Lemma can_merge_loop_strict l st :
  relaxed_validation_ st = false -> (forall a o, (a, o) ∈ l -> original_ st !! a = Some o) ->
  (forall a o, (a, o) ∈ l -> is_Some (state_ B !! a)) ->
  exists b, can_merge_loop B l st = (ROk b, st) /\
    ((forall a o, (a, o) ∈ l -> validated B a o (storage_ (o_state o))) -> b = true).
Proof.
  intros Hr. induction l as [|[a o] l IH]; intros Hl Hs; cbn [can_merge_loop]; [by exists true|].
  destruct (Hs a o) as [d Ed]; [by left|]. unfold sbind at 1. rewrite Ed. cbn [sopt sret].
  destruct IH as (b & Eb & Hb); [intros; apply Hl; by right|intros; eapply Hs; by right|].
  unfold sbind. case_bool_decide as E.
  - cbn [sret negb]. destruct (can_merge_storage _ _) eqn:Ec; cbn [negb].
    + exists b. split; [done|]. intros H. apply Hb. intros. apply H. by right.
    + exists false. split; [done|]. intros H. destruct (H a o) as (_ & d' & E' & _ & E2); [by left|].
      rewrite Ed in E'. injection E' as <-. congruence.
  - rewrite (no_fix a _ st o); [|by apply Hl; left|done..]. exists false. split; [done|]. intros H.
    destruct (H a o) as (_ & d' & E' & E2 & _); [by left|]. rewrite Ed in E'. by injection E' as <-.
Qed.

Lemma can_merge_strict st :
  relaxed_validation_ st = false -> (forall a, is_Some (original_ st !! a) -> is_Some (state_ B !! a)) ->
  exists b, can_merge B st = (ROk b, st).
Proof.
  intros Hr Hs. destruct (can_merge_loop_strict (map_to_list (original_ st)) st Hr) as (b & Eb & _).
  - by intros a o ?%elem_of_map_to_list.
  - intros a o H%elem_of_map_to_list. apply Hs. eauto.
  - exists b. exact Eb.
Qed.

Lemma agrees_validated st a o d :
  block_ok B -> recorded db B st -> agrees (reads_of db B) st ->
  original_ st !! a = Some o -> state_ B !! a = Some d -> validated B a o (storage_ (o_state o)).
Proof.
  intros Hok Hrec Ha Ho Ed. destruct (Ha a o Ho) as [E Hk]. simpl in E, Hk.
  assert (Edd : delta_of db B a = d) by (unfold delta_of; by rewrite Ed). rewrite Edd in E, Hk.
  split; [done|]. exists d. split_and!; [done..|].
  assert (Hall : forall k v, (k, v) ∈ map_to_list (storage_ (o_state o)) ->
    match delta_storage d !! k with Some d => v = d.2 | None => v = #0 end).
  { intros k v Hin%elem_of_map_to_list. specialize (Hk k v Hin).
    destruct (account_ (o_state o)) as [ac|] eqn:Eac.
    - specialize (Hrec a o k ac Ho (ex_intro _ v Hin) Eac). simpl in Hrec. rewrite Edd in Hrec.
      unfold slot_of in *. rewrite <- E in *. cbn [lives_as] in *. rewrite inc_eqb_refl in *.
      destruct (delta_storage d !! k); [done|]. destruct Hrec as [[? ?]|Ez]; [done|]. by rewrite Hk.
    - by rewrite (Hok a d Ed (eq_sym E)), lookup_empty. }
  induction (map_to_list _) as [|[k v] l IH]; [done|]. cbn [can_merge_storage].
  pose proof (Hall k v (list_elem_of_here _ _)) as Hv.
  assert (Hl : can_merge_storage (delta_storage d) l = true).
  { apply IH. intros k' v' H'. apply Hall. by right. }
  destruct (delta_storage d !! k); rewrite Hv; [by rewrite weqb_refl|]. by rewrite uval_wrap_0.
Qed.

(** C21: with strict validation, [BlockState::can_merge] returns, leaves the
    transaction state as it is, and answers exactly whether every account and
    every slot the transaction read has the value the block state has now. *)
Theorem can_merge_exact st :
  block_ok B -> recorded db B st -> relaxed_validation_ st = false ->
  (forall a, is_Some (original_ st !! a) -> is_Some (state_ B !! a)) ->
  exists b, can_merge B st = (ROk b, st) /\ (b = true <-> agrees (reads_of db B) st).
Proof.
  intros Hok Hrec Hr Hs.
  destruct (can_merge_loop_strict (map_to_list (original_ st)) st Hr) as (b & Eb & Hb).
  { by intros a o ?%elem_of_map_to_list. }
  { intros a o H%elem_of_map_to_list. apply Hs. eauto. }
  assert (E : can_merge B st = (ROk b, st)) by exact Eb.
  exists b. split; [done|]. split.
  - intros ->. by apply (validated_agrees db B st st).
  - intros Ha. apply Hb. intros a o Ho%elem_of_map_to_list. destruct (Hs a) as [d Ed]; [eauto|].
    by apply (agrees_validated st a o d).
Qed.
End strict.

(** ** Merging *)
Section merging.
Context (db : Db).
Implicit Types (B : BlockState) (a : address) (k : bytes32) (st : State) (x : AccountState).

Lemma merge_storage_lookup (m : StorageMap) ds k :
  merge_storage (map_to_list m) ds !! k =
  match m !! k with
  | Some v => Some (default #0 (fst <$> ds !! k), v)
  | None => ds !! k
  end.
Proof.
  assert (Hgen : forall l, NoDup l.*1 -> forall ds, merge_storage l ds !! k =
    match (list_to_map l : StorageMap) !! k with
    | Some v => Some (default #0 (fst <$> ds !! k), v)
    | None => ds !! k
    end).
  { induction l as [|[k' v'] l IH]; [intros; simpl; by rewrite lookup_empty|].
    intros [Hn Hd]%NoDup_cons ds'. cbn [merge_storage list_to_map fst snd]. rewrite IH by done.
    destruct (decide (k' = k)) as [->|Hk].
    - simpl. rewrite lookup_insert_eq, not_elem_of_list_to_map_1 by done.
      destruct (ds' !! k); by rewrite lookup_insert_eq.
    - simpl. rewrite lookup_insert_ne by done. by destruct (ds' !! k'); rewrite lookup_insert_ne. }
  rewrite Hgen by apply NoDup_fst_map_to_list. by rewrite list_to_map_to_list.
Qed.

(** The entry of an account after merging its last value. *)
Definition merged (d : StateDelta) x : StateDelta :=
  mk_delta ((delta_account d).1, account_ x)
    (match account_ x with
     | Some _ => merge_storage (map_to_list (storage_ x)) (delta_storage d)
     | None => ∅
     end).

Lemma merge_account_state a x B B' :
  merge_account a x B = Some B' ->
  exists d, state_ B !! a = Some d /\ state_ B' = <[a := merged d x]> (state_ B) /\
    block_code_ B' = block_code_ B.
Proof.
  unfold merge_account, merged. destruct (state_ B !! a) as [d|]; [|done]. intros [= <-]. exists d.
  destruct (account_ x); [done|]. by destruct (delta_account d).1.
Qed.

Lemma merge_loop_state l B B' :
  NoDup l.*1 -> merge_loop l B = Some B' ->
  (forall a vs, (a, vs) ∈ l -> exists x d, vs_recent vs = Some x /\ state_ B !! a = Some d /\
     state_ B' !! a = Some (merged d x)) /\
  (forall a, a ∉ l.*1 -> state_ B' !! a = state_ B !! a) /\ block_code_ B' = block_code_ B.
Proof.
  revert B. induction l as [|[a vs] l IH]; intros B; cbn [merge_loop].
  { intros _ [= <-]. split_and!; [|done..]. by intros ?? []%elem_of_nil. }
  intros [Hn Hd]%NoDup_cons H. apply bind_Some in H as (x & Ex & H). apply bind_Some in H as (B1 & E1 & H).
  apply merge_account_state in E1 as (d & Ed & E1 & E2). destruct (IH B1 Hd H) as (H1 & H2 & H3).
  split_and!; [| |congruence].
  - intros b vs' [[= -> ->]|Hb]%elem_of_cons.
    + exists x, d. by rewrite H2, E1, lookup_insert_eq by done.
    + destruct (H1 b vs' Hb) as (y & d' & Ey & Ed' & Em). exists y, d'. split_and!; [done| |done].
      rewrite E1, lookup_insert_ne in Ed'; [done|]. intros ->. apply Hn. by apply (list_elem_of_fmap_2 fst) in Hb.
  - intros b [Hb1 Hb2]%not_elem_of_cons. rewrite H2, E1, lookup_insert_ne by done. done.
Qed.

Lemma merge_code_state code hashes B : state_ (merge_code code hashes B) = state_ B.
Proof.
  unfold merge_code. revert B. induction hashes as [|h l IH]; intros B; [done|]. simpl. rewrite IH.
  by destruct (code !! h).
Qed.

Lemma merge_state st B B' :
  merge st B = Some B' ->
  (forall a vs, current_ st !! a = Some vs -> exists x d, vs_recent vs = Some x /\ state_ B !! a = Some d /\
     state_ B' !! a = Some (merged d x)) /\
  (forall a, current_ st !! a = None -> state_ B' !! a = state_ B !! a).
Proof.
  unfold merge. intros H. apply bind_Some in H as (hs & _ & H).
  destruct (merge_loop_state _ _ _ (NoDup_fst_map_to_list _) H) as (H1 & H2 & _).
  rewrite merge_code_state in *. split.
  - intros a vs Hv%elem_of_map_to_list. by apply H1.
  - intros a Hn. apply H2. intros ([b vs] & -> & Hb%elem_of_map_to_list)%list_elem_of_fmap. simpl in Hn. congruence.
Qed.

Lemma merge_block_ok st B B' : block_ok B -> merge st B = Some B' -> block_ok B'.
Proof.
  intros Hok [H1 H2]%merge_state a d Hd Hn. destruct (current_ st !! a) as [vs|] eqn:E.
  - destruct (H1 a vs E) as (x & d0 & _ & _ & E2). rewrite Hd in E2. injection E2 as ->.
    simpl in Hn |- *. by rewrite Hn.
  - rewrite H2 in Hd by done. by apply (Hok a).
Qed.

(** What the deltas of a block show of a slot to an account that has taken the
    incarnation [i] in a transaction that did not touch the slot: the deltas are
    kept, whatever incarnation they are of. *)
Definition leftover B a (i : Incarnation) k : bytes32 :=
  match delta_storage (delta_of db B a) !! k with
  | Some v => v.2
  | None => if lives_as (delta_account (delta_of db B a)).1 i then db_read_storage db a i k else #0
  end.

(** What a slot is after merging. *)
Lemma merged_slot a d x ac k :
  account_ x = Some ac ->
  slot_of db (merged d x) a (acct_incarnation ac) k =
  match storage_ x !! k with
  | Some v => v
  | None => match delta_storage d !! k with
            | Some v => v.2
            | None => if lives_as (delta_account d).1 (acct_incarnation ac)
                      then db_read_storage db a (acct_incarnation ac) k else #0
            end
  end.
Proof.
  intros E. unfold slot_of, merged. simpl. rewrite E. cbn [lives_as]. rewrite inc_eqb_refl, merge_storage_lookup.
  by destruct (storage_ x !! k).
Qed.

Lemma agrees_orig_slot B st a k ac :
  agrees (reads_of db B) st -> account_ (orig_view (reads_of db B) st a) = Some ac ->
  default (State3.read_storage (reads_of db B) a (acct_incarnation ac) k)
    (storage_ (orig_view (reads_of db B) st a) !! k) =
  State3.read_storage (reads_of db B) a (acct_incarnation ac) k.
Proof.
  intros Ha. unfold orig_view. destruct (original_ st !! a) as [o|] eqn:Eo; [|simpl; by rewrite lookup_empty].
  intros Eac. destruct (Ha a o Eo) as [_ H]. destruct (storage_ (o_state o) !! k) as [v|] eqn:Ek; [|done].
  specialize (H k v Ek). by rewrite Eac in H.
Qed.

Lemma agrees_orig_account B st a :
  agrees (reads_of db B) st ->
  account_ (orig_view (reads_of db B) st a) = State3.read_account (reads_of db B) a.
Proof.
  intros Ha. unfold orig_view. destruct (original_ st !! a) as [o|] eqn:Eo; [|done]. by destruct (Ha a o Eo).
Qed.

(** C20: merging a validated transaction state publishes it.  The block state then
    shows every account exactly as the transaction saw it last, and of a live
    account every slot as the transaction saw it last, if the account has the
    incarnation it had in the block or the transaction has loaded the slot.  A slot
    the transaction has not touched of an account whose incarnation it changed shows
    what the deltas of the block hold for it, whose incarnation they do not record:
    that is zero, as the transaction would see it, if the block holds no non-zero
    delta of the account and the account did not start the block with the new
    incarnation. *)
Theorem merge_publishes st B B' :
  block_ok B -> agrees (reads_of db B) st -> merge st B = Some B' ->
  block_ok B' /\ forall a,
    State3.read_account (reads_of db B') a = account_ (view (reads_of db B) st a) /\
    forall ac k, account_ (view (reads_of db B) st a) = Some ac ->
      State3.read_storage (reads_of db B') a (acct_incarnation ac) k =
        (if lives_as (State3.read_account (reads_of db B) a) (acct_incarnation ac) ||
            has_value (storage_ (view (reads_of db B) st a) !! k)
         then obs_storage (reads_of db B) st a k else leftover B a (acct_incarnation ac) k) /\
      (lives_as (delta_account (delta_of db B a)).1 (acct_incarnation ac) = false ->
       (forall v, delta_storage (delta_of db B a) !! k = Some v -> v.2 = #0) ->
       leftover B a (acct_incarnation ac) k = #0).
Proof.
  intros Hok Ha Hm. split; [by apply (merge_block_ok st B)|]. apply merge_state in Hm as [H1 H2]. intros a.
  assert (Hz : forall i k, lives_as (delta_account (delta_of db B a)).1 i = false ->
    (forall v, delta_storage (delta_of db B a) !! k = Some v -> v.2 = #0) -> leftover B a i k = #0).
  { intros i k L1 L2. unfold leftover. rewrite L1. destruct (_ !! k) as [v|]; [by apply L2|done]. }
  unfold obs_storage, view, recent, stack. destruct (current_ st !! a) as [vs|] eqn:Ec.
  - destruct (H1 a vs Ec) as (x & d & Ex & Ed & E). simpl. rewrite Ex. unfold delta_of at 1 2. rewrite E. simpl.
    split; [done|]. intros ac k Eac. split; [|apply Hz]. rewrite merged_slot by done. unfold lookup_storage. rewrite Eac.
    assert (Edd : delta_of db B a = d) by (unfold delta_of; by rewrite Ed). unfold leftover. rewrite Edd.
    destruct (storage_ x !! k); [by rewrite orb_true_r|]. rewrite orb_false_r.
    destruct (lives_as (delta_account d).2 (acct_incarnation ac)) eqn:El; [|done].
    pose proof (agrees_orig_account B st a Ha) as Eo. simpl in Eo. rewrite Edd in Eo.
    apply lives_as_spec in El as (ac0 & E0 & Ei). rewrite E0 in Eo. rewrite Eo, Ei, inc_eqb_refl, <- Ei.
    rewrite (agrees_orig_slot B st a k ac0 Ha Eo). simpl. rewrite Edd. unfold slot_of. rewrite E0. simpl.
    by rewrite inc_eqb_refl.
  - simpl. unfold delta_of at 1 2. rewrite H2 by done. fold (delta_of db B a).
    rewrite (agrees_orig_account B st a Ha). split; [done|]. intros ac k E. split; [|apply Hz]. unfold lookup_storage.
    pose proof (agrees_orig_account B st a Ha) as Eo. rewrite E in Eo. rewrite Eo, inc_eqb_refl. simpl in E.
    rewrite E. cbn [lives_as]. rewrite inc_eqb_refl. cbn [orb].
    pose proof (agrees_orig_slot B st a k ac Ha Eo) as Es. simpl in Es.
    by destruct (storage_ (orig_view _ st a) !! k).
Qed.
End merging.

(** Reading an account and then a slot of it through the block state never
    fails, returns what the block state shows, and only caches: the view of every
    account, slot and code stays the same and the deltas stay well-formed. *)
Theorem reads_transparent db B a i k :
  block_ok B ->
  exists B1 B2,
    block_state.read_account db a B = (State3.read_account (reads_of db B) a, B1) /\
    block_state.read_storage db a i k B1 = Some (State3.read_storage (reads_of db B) a i k, B2) /\
    same_view db B B2 /\ block_ok B2.
Proof.
  intros Hok. destruct (read_account_sees db a B Hok) as (B1 & E1 & V1 & Hok1 & Ha).
  destruct (read_storage_sees db a i k B1 Hok1 Ha) as (B2 & E2 & V2 & Hok2 & _).
  exists B1, B2. rewrite <- (sv_storage _ _ _ V1). split_and!; [done..| |done]. by etrans.
Qed.

(** ** Optimistic execution *)
Section optimistic.
Context (db : Db) (B : BlockState) (bs0 : BlockReads) (inc : Incarnation).

(** An optimistic first attempt - run on whatever reads [bs0] the block state
    gave while it was changing, starting from the nonce the transaction claims -
    that [can_merge] accepts without repairs has exactly the result and the state
    of running the transaction from scratch on the block state it is merged into. *)
Theorem optimistic_is_sequential {A} (k : u64 -> tx_prog A) sender n relaxed :
  let p := TOp (TGetNonce sender) k in
  let spec := run_tx bs0 p (set_original_nonce bs0 sender n (new_state inc relaxed)).2 in
  block_ok B ->
  (forall a i k acct, State3.read_account (reads_of db B) a = Some acct -> acct_incarnation acct <> i ->
     fresh inc i -> State3.read_storage bs0 a i k = #0) ->
  (forall h, State3.read_code bs0 h = State3.read_code (reads_of db B) h) ->
  can_merge B spec.2 = (ROk true, spec.2) -> recorded db B spec.2 ->
  run_tx (reads_of db B) p (new_state inc relaxed) = spec.
Proof.
  intros p spec Hok Hf Hc Hm Hr. apply (replay_nonce bs0 (reads_of db B) inc); [split; [done|apply reads_lawful|done]|].
  by apply (validated_agrees db B spec.2).
Qed.
End optimistic.

(** ** Deciding the side conditions *)
Lemma forallb_elem {A} (f : A -> bool) l x : forallb f l = true -> x ∈ l -> f x = true.
Proof. intros H Hx. rewrite forallb_forall in H. by apply H, list_elem_of_In. Qed.

Definition recorded_b (db : Db) (B : BlockState) (st : State) : bool :=
  forallb (fun p : address * OriginalAccountState =>
    match account_ (o_state p.2) with
    | None => true
    | Some ac => forallb (fun q : bytes32 * bytes32 =>
        bool_decide (is_Some (delta_storage (delta_of db B p.1) !! q.1)) ||
        (State3.read_storage (reads_of db B) p.1 (acct_incarnation ac) q.1 =w? #0))
        (map_to_list (storage_ (o_state p.2)))
    end) (map_to_list (original_ st)).

Lemma recorded_check db B st : recorded_b db B st = true -> recorded db B st.
Proof.
  intros H a o k ac Ho [v Hk] Ea. apply elem_of_map_to_list in Ho, Hk.
  pose proof (forallb_elem _ _ _ H Ho) as H1. simpl in H1. rewrite Ea in H1.
  pose proof (forallb_elem _ _ _ H1 Hk) as H2. simpl in H2. apply orb_true_iff in H2 as [H2|H2].
  - left. by apply bool_decide_eq_true in H2.
  - right. by destruct (weqb_spec (slot_of db (delta_of db B a) a (acct_incarnation ac) k) #0).
Qed.

Definition originals_b (B : BlockState) (st : State) : bool :=
  forallb (fun p : address * OriginalAccountState => bool_decide (is_Some (state_ B !! p.1)))
    (map_to_list (original_ st)).

Lemma originals_check B st a :
  originals_b B st = true -> is_Some (original_ st !! a) -> is_Some (state_ B !! a).
Proof.
  intros H [o Ho%elem_of_map_to_list]. pose proof (forallb_elem _ _ _ H Ho) as H1.
  by apply bool_decide_eq_true in H1.
Qed.

(** ** A small block *)
Module demo_block.
Definition inc_old : Incarnation := mk_incarnation #0 #0.
Definition acct (balance nonce : Z) : Account := mk_account #balance NULL_HASH #nonce inc_old.

(** Four accounts; the last one has a slot. *)
Definition db : Db := mk_db
  (fun a => if a =? 1 then Some (acct 100 3) else if a =? 2 then Some (acct 0 1)
            else if a =? 3 then Some (acct 7 0) else if a =? 4 then Some (acct 0 1) else None)
  (fun a i k => if (a =? 4) && (k =? 9) then #11 else #0)
  (fun _ => Some []) (fun _ => None).

(** What the reads of the first attempt see: the block before another
    transaction changed account 3. *)
Definition bs0 : BlockReads := reads_of db new_block_state.

Definition B : BlockState := mk_block_state
  (<[#1 := mk_delta (Some (acct 100 3), Some (acct 100 3)) ∅]>
  (<[#2 := mk_delta (Some (acct 0 1), Some (acct 0 1)) ∅]>
  (<[#3 := mk_delta (Some (acct 7 0), Some (acct 8 0)) ∅]>
  (<[#4 := mk_delta (Some (acct 0 1), Some (acct 0 1)) (<[#9 := (#11, #11)]> ∅)]> ∅)))) ∅ ∅.

Definition inc : Incarnation := new_incarnation 5 1.

(** Pay 5 to account 2, add a slot of account 4 to it, in a frame. *)
Definition p (nonce : u64) : tx_prog bytes32 :=
  TOp TPush (fun _ => TOp (TSetNonce #1 #(nonce + 1)) (fun _ =>
  TOp (TSubtractFromBalance #1 #5) (fun _ => TOp (TAddToBalance #2 #5) (fun _ =>
  TOp (TAccountExists #4) (fun _ => TOp (TGetStorage #4 #9) (fun v =>
  TOp (TSetStorage #4 #10 v) (fun _ => TOp TPopAccept (fun _ => TRet v)))))))).

Definition spec : res Empty_set bytes32 * State :=
  run_tx bs0 (TOp (TGetNonce #1) p) (set_original_nonce bs0 #1 #3 (new_state inc false)).2.

Lemma B_ok : block_ok B.
Proof.
  intros a d. unfold B. simpl. rewrite !lookup_insert_Some, lookup_empty.
  intros [[_ <-]|[_ [[_ <-]|[_ [[_ <-]|[_ [[_ <-]|[_ ?]]]]]]]]; done.
Qed.

Definition B' : BlockState := default new_block_state (merge spec.2 B).

Lemma merge_runs : merge spec.2 B = Some B'.
Proof.
  assert (H : bool_decide (is_Some (merge spec.2 B)) = true) by (vm_compute; reflexivity).
  apply bool_decide_eq_true in H as [B1 E]. unfold B'. by rewrite E.
Qed.
Lemma spec_loaded a : is_Some (original_ spec.2 !! a) -> is_Some (state_ B !! a).
Proof. apply originals_check. vm_compute. reflexivity. Qed.
Lemma spec_strict : relaxed_validation_ spec.2 = false.
Proof. vm_compute. reflexivity. Qed.
Lemma can_merge_runs : can_merge B spec.2 = (ROk true, spec.2).
Proof.
  destruct (can_merge_strict B spec.2 spec_strict spec_loaded) as [b E]. rewrite E.
  assert (H : (can_merge B spec.2).1 = ROk true) by (vm_compute; reflexivity).
  rewrite E in H. cbn [fst] in H. by rewrite H.
Qed.
Lemma spec_recorded : recorded db B spec.2.
Proof. apply recorded_check. vm_compute. reflexivity. Qed.
Lemma no_fresh_slots a i k : fresh inc i -> State3.read_storage bs0 a i k = #0.
Proof.
  intros Hf. apply reads_lawful. intros ac. unfold bs0, reads_of, delta_of. cbn [State3.read_account state_ new_block_state].
  rewrite lookup_empty. simpl.
  assert (Hi : i <> inc_old) by (destruct Hf as [-> | ->]; discriminate).
  repeat (destruct (_ =? _); [intros [= <-]; by intros <-|]). done.
Qed.
End demo_block.

Lemma can_merge_exact_witness :
  exists b, can_merge demo_block.B demo_block.spec.2 = (ROk b, demo_block.spec.2) /\
    (b = true <-> agrees (reads_of demo_block.db demo_block.B) demo_block.spec.2).
Proof.
  apply can_merge_exact; [apply demo_block.B_ok|apply demo_block.spec_recorded|
    apply demo_block.spec_strict|apply demo_block.spec_loaded].
Defined.

Lemma reads_transparent_witness :
  exists B1 B2,
    block_state.read_account demo_block.db #4 demo_block.B =
      (State3.read_account (reads_of demo_block.db demo_block.B) #4, B1) /\
    block_state.read_storage demo_block.db #4 demo_block.inc_old #9 B1 =
      Some (State3.read_storage (reads_of demo_block.db demo_block.B) #4 demo_block.inc_old #9, B2) /\
    same_view demo_block.db demo_block.B B2 /\ block_ok B2.
Proof. apply reads_transparent, demo_block.B_ok. Defined.

Lemma merge_publishes_witness :
  State3.read_account (reads_of demo_block.db demo_block.B') #4 =
    account_ (view (reads_of demo_block.db demo_block.B) demo_block.spec.2 #4) /\
  forall ac k, account_ (view (reads_of demo_block.db demo_block.B) demo_block.spec.2 #4) = Some ac ->
    State3.read_storage (reads_of demo_block.db demo_block.B') #4 (acct_incarnation ac) k =
    if lives_as (State3.read_account (reads_of demo_block.db demo_block.B) #4) (acct_incarnation ac) ||
       has_value (storage_ (view (reads_of demo_block.db demo_block.B) demo_block.spec.2 #4) !! k)
    then obs_storage (reads_of demo_block.db demo_block.B) demo_block.spec.2 #4 k
    else leftover demo_block.db demo_block.B #4 (acct_incarnation ac) k.
Proof.
  destruct (merge_publishes demo_block.db demo_block.spec.2 demo_block.B demo_block.B') as [_ H].
  - apply demo_block.B_ok.
  - apply (validated_agrees demo_block.db demo_block.B demo_block.spec.2);
      [apply demo_block.B_ok|apply demo_block.can_merge_runs|apply demo_block.spec_recorded].
  - apply demo_block.merge_runs.
  - destruct (H #4) as [H1 H2]. split; [done|]. intros ac k E. exact (proj1 (H2 ac k E)).
Defined.

Lemma optimistic_is_sequential_witness :
  run_tx (reads_of demo_block.db demo_block.B) (TOp (TGetNonce #1) demo_block.p)
    (new_state demo_block.inc false) = demo_block.spec /\ demo_block.spec.1 = ROk #11.
Proof.
  split; [|vm_compute; reflexivity].
  apply (optimistic_is_sequential demo_block.db demo_block.B demo_block.bs0 demo_block.inc demo_block.p #1 #3).
  - apply demo_block.B_ok.
  - intros a i k ac _ _. apply demo_block.no_fresh_slots.
  - intros h. vm_compute. reflexivity.
  - apply demo_block.can_merge_runs.
  - apply demo_block.spec_recorded.
Defined.
