(* ===== verification/StakingRefine.v ===== *)
(** * The staking contract on the transaction state

    Every method and system call of the staking contract keeps to the storage
    of the contract's own account, so StateRefine.v applies: on a transaction's
    versioned [State] it returns what it returns on the flat [World], and its
    solvency carries over. *)
From S2P Require Import Prelude Prog Storage UInt256 Abi VersionStack State3 StateHooks StateFrames StateRefine StakingVars StakingHelpers StakingList StakingContract StakingSyscalls Demo StakingWp Solvency StakingSteps.

(** The program keeps to the contract's storage, and what it pays out it takes from
    somewhere, up to [d]. *)
Definition within_ {E A} (d : Z) (p : prog E A) : Prop := confined STAKING_CA p /\ settles d p.
Abbreviation within := (within_ 0).

Section rules.
Context {E : Type}.

Lemma settles_mono {A} (p : prog E A) d d' : d <= d' -> settles d p -> settles d' p.
Proof.
  revert d d'. induction p as [a|e|m| |X op k IH]; simpl; intros d d' Hd; try done; try lia.
  intros H x. specialize (H x). revert H. apply IH. destruct op; lia.
Qed.

Lemma settles_bind {A C} (p : prog E A) (f : A -> prog E C) d d' :
  0 <= d' -> settles d p -> (forall a, settles d' (f a)) -> settles (d + d') (bind p f).
Proof.
  intros Hd' Hp Hf. revert d Hp. induction p as [a|e|m| |X op k IH]; simpl; intros d Hp; try done.
  - apply (settles_mono _ d'); [lia|done].
  - lia.
  - intros x. specialize (Hp x). eapply settles_mono; [|apply IH, Hp]. destruct op; lia.
Qed.

Lemma within_mono {A} (p : prog E A) d d' : d <= d' -> within_ d p -> within_ d' p.
Proof. intros Hd [H1 H2]. split; [done|by apply (settles_mono p d)]. Qed.

Lemma confined_bind {A C} ca (p : prog E A) (f : A -> prog E C) :
  confined ca p -> (forall a, confined ca (f a)) -> confined ca (bind p f).
Proof.
  induction p as [a|e|m| |X op k IH]; simpl; auto. intros [Hop Hk] Hf. split; auto.
Qed.

Lemma within_bind {A C} (p : prog E A) (f : A -> prog E C) d :
  0 <= d -> within p -> (forall a, within_ d (f a)) -> within_ d (bind p f).
Proof.
  intros Hd [H1 H2] Hf. split.
  - apply confined_bind; [done|]. intros a. apply Hf.
  - apply (settles_bind p f 0 d); [done..|]. intros a. apply Hf.
Qed.

Lemma within_bind_paid {A C} (p : prog E A) (f : A -> prog E C) d :
  within_ d p -> (forall a, within (f a)) -> within_ d (bind p f).
Proof.
  intros [H1 H2] Hf. split.
  - apply confined_bind; [done|]. intros a. apply Hf.
  - rewrite <- (Z.add_0_r d). apply settles_bind; [done..|]. intros a. apply Hf.
Qed.

Lemma within_ret {A} (a : A) d : 0 <= d -> within_ d (Ret a : prog E A).
Proof. by split. Qed.
Lemma within_fail {A} (e : E) d : 0 <= d -> within_ d (Fail e : prog E A).
Proof. by split. Qed.
Lemma within_halt {A} d : within_ d (Halt : prog E A).
Proof. by split. Qed.
Lemma within_lift {F A} (inj : F -> E) (r : A + F) : within (lift inj r).
Proof. by destruct r. Qed.
Lemma within_fail_if b (e : E) : within (fail_if b e).
Proof. by destruct b. Qed.
Lemma within_assert b : within (monad_assert (E := E) b).
Proof. by destruct b. Qed.
Lemma within_assert_throw b m : within (monad_assert_throw (E := E) b m).
Proof. by destruct b. Qed.
Lemma within_trigger {X : Set} (op : stateE X) :
  match op with
  | GetStorage a _ | SetStorage a _ _ => a = STAKING_CA
  | AddToBalance _ _ | SubtractFromBalance _ _ => False
  | _ => True
  end -> within (trigger op : prog E X).
Proof. by destruct op. Qed.
Lemma within_emit l : within (emit_log l).
Proof. by split. Qed.

Lemma within_attempt {A} (p : prog E A) : within p -> within (attempt p).
Proof.
  unfold within_. generalize 0 as d. induction p as [a|e|m| |X op k IH]; simpl; auto.
  intros d [[Hop Hk] Hs]. split; [split; [done|]|]; intros x; eapply (IH x); eauto.
Qed.

Context {T : Type} `{Layout T}.
Implicit Types v : StorageVariable T.

Lemma within_get_slots v i n : sv_address v = STAKING_CA -> within (get_slots (E := E) v i n).
Proof.
  intros Hv. revert i. induction n as [|n IH]; intros i; simpl; [by split|].
  apply (within_bind (trigger (GetStorage (sv_address v) _))); [done|by apply within_trigger|].
  intros s. apply within_bind; [done|apply IH|]. intros l. by apply within_ret.
Qed.
Lemma within_store_ v i l : sv_address v = STAKING_CA -> within (store_ (E := E) v i l).
Proof.
  intros Hv. revert i. induction l as [|s l IH]; intros i; simpl; [by split|].
  apply (within_bind (trigger (SetStorage (sv_address v) _ _))); [done|by apply within_trigger|].
  intros u. apply IH.
Qed.
Lemma within_load v : sv_address v = STAKING_CA -> within (load (E := E) v).
Proof. intros Hv. apply within_bind; [done|by apply within_get_slots|]. intros l. by apply within_ret. Qed.
Lemma within_load_checked v : sv_address v = STAKING_CA -> within (load_checked (E := E) v).
Proof. intros Hv. apply within_bind; [done|by apply within_get_slots|]. intros l. by split. Qed.
Lemma within_store v t : sv_address v = STAKING_CA -> within (store (E := E) v t).
Proof. apply within_store_. Qed.
Lemma within_clear v : sv_address v = STAKING_CA -> within (clear (E := E) v).
Proof. apply within_store_. Qed.
End rules.

Lemma within_send to x : within (send_tokens to x).
Proof. split; [by simpl|]. simpl. intros _ _. lia. Qed.
(** The contract's account is created by crediting it with nothing. *)
Lemma within_touch {E} a : within (trigger (AddToBalance a #0) : prog E unit).
Proof. split; [by simpl|]. simpl. intros _. by rewrite uval_wrap_small. Qed.
Lemma within_mint x : within_ (uval x) (mint_tokens x).
Proof. split; [by simpl|]. simpl. intros _. lia. Qed.

Create HintDb within discriminated.

Ltac within_step :=
  cbv beta zeta;
  lazymatch goal with
  | |- within_ _ (bind (mint_tokens _) _) => apply within_bind_paid; [apply within_mint|intros ?]
  | |- within_ _ (bind _ _) => apply within_bind; [word_lia| |intros ?]
  | |- within_ _ (Ret _) => apply within_ret; word_lia
  | |- within_ _ (Fail _) => apply within_fail; word_lia
  | |- within_ _ (staking_fail _) => apply within_fail; word_lia
  | |- within_ _ Halt => apply within_halt
  | |- within (math _) => apply within_lift
  | |- within (abi _) => apply within_lift
  | |- within (require_not _ _) => apply within_fail_if
  | |- within (monad_assert _) => apply within_assert
  | |- within (monad_assert_throw _ _) => apply within_assert_throw
  | |- within (emit_log _) => apply within_emit
  | |- within (trigger (AddToBalance _ _)) => apply within_touch
  | |- within (trigger _) => apply within_trigger; exact I
  | |- within (load _) => apply within_load; reflexivity
  | |- within (load_checked _) => apply within_load_checked; reflexivity
  | |- within (store _ _) => apply within_store; reflexivity
  | |- within (clear _) => apply within_clear; reflexivity
  | |- within_ _ (if ?b then _ else _) => destruct b
  | |- within_ _ (match ?x with Some _ => _ | None => _ end) => destruct x
  | |- within_ _ (match ?x with (_, _) => _ end) => destruct x
  | |- _ => solve [auto with within]
  end.
Ltac within := repeat within_step.

Section helpers.
Implicit Types (id : u64) (a : address).

Lemma within_this_epoch_view id : within (vars.this_epoch_view id).
Proof. unfold vars.this_epoch_view. within. Qed.
Lemma within_get_flags id : within (ValExecution.get_flags (vars.val_execution id)).
Proof. unfold ValExecution.get_flags. within. Qed.
Lemma within_get_auth id : within (ValExecution.get_auth_address (vars.val_execution id)).
Proof. unfold ValExecution.get_auth_address. within. Qed.
#[local] Hint Resolve within_get_auth : within.
Lemma within_exists id : within (ValExecution.exists_ (vars.val_execution id)).
Proof. unfold ValExecution.exists_. within. Qed.
Lemma within_set_flag id f : within (ValExecution.set_flag (vars.val_execution id) f).
Proof. unfold ValExecution.set_flag. within. Qed.
Lemma within_clear_flag id f : within (ValExecution.clear_flag (vars.val_execution id) f).
Proof. unfold ValExecution.clear_flag. within. Qed.
Lemma within_get_delta_epoch id a : within (Delegator.get_delta_epoch (vars.delegator id a)).
Proof. unfold Delegator.get_delta_epoch. within. Qed.
Lemma within_get_next_delta_epoch id a :
  within (Delegator.get_next_delta_epoch (vars.delegator id a)).
Proof. unfold Delegator.get_next_delta_epoch. within. Qed.
Lemma within_set_delta_epoch id a e : within (Delegator.set_delta_epoch (vars.delegator id a) e).
Proof. unfold Delegator.set_delta_epoch. within. Qed.
Lemma within_set_next_delta_epoch id a e :
  within (Delegator.set_next_delta_epoch (vars.delegator id a) e).
Proof. unfold Delegator.set_next_delta_epoch. within. Qed.
Lemma within_next_epoch_stake id a :
  within (Delegator.get_next_epoch_stake (vars.delegator id a)).
Proof. unfold Delegator.get_next_epoch_stake. within. Qed.
Lemma within_activation_epoch : within get_activation_epoch.
Proof. unfold get_activation_epoch. within. Qed.
Lemma within_is_epoch_active e : within (is_epoch_active e).
Proof. unfold is_epoch_active. within. Qed.
Lemma within_add_to_valset id : within (add_to_valset id).
Proof. unfold add_to_valset. within. Qed.
Lemma within_remove_from_valset id : within (remove_from_valset id).
Proof. unfold remove_from_valset. within. Qed.
Lemma within_decrement e id : within (decrement_accumulator_refcount e id).
Proof. unfold decrement_accumulator_refcount. within. Qed.
#[local] Hint Resolve within_activation_epoch within_get_delta_epoch within_decrement
  within_get_next_delta_epoch within_set_delta_epoch within_set_next_delta_epoch
  within_is_epoch_active : within.
Lemma within_increment id : within (increment_accumulator_refcount id).
Proof. unfold increment_accumulator_refcount. within. Qed.
Lemma within_promote_delta id a : within (promote_delta (vars.delegator id a)).
Proof. unfold promote_delta. within. Qed.
Lemma within_reward_invariant id r : within (reward_invariant (vars.val_execution id) r).
Proof. unfold reward_invariant. within. Qed.
#[local] Hint Resolve within_promote_delta within_reward_invariant : within.
Lemma within_compound_window id a : within (compound_window id (vars.delegator id a)).
Proof. unfold compound_window, apply_compound. within. Qed.
#[local] Hint Resolve within_compound_window : within.
Lemma within_pull id a : within (pull_delegator_up_to_date id (vars.delegator id a)).
Proof. unfold pull_delegator_up_to_date, can_promote_delta. within. Qed.
Lemma within_rewarded id a r : within (emit_validator_rewarded_event id a r).
Proof. unfold emit_validator_rewarded_event. within. Qed.
#[local] Hint Resolve within_rewarded : within.
Lemma within_apply_reward id a r s : within (apply_reward id a r s).
Proof. unfold apply_reward. within. Qed.
Lemma within_push (v : Valset) id : within (sa_push (E := error) (vars.valset v) id).
Proof. unfold sa_push, sa_length. within. Qed.
Lemma within_pop (v : Valset) : within (sa_pop (E := error) (vars.valset v)).
Proof. unfold sa_pop, sa_length. within. Qed.

Lemma within_insert_del id a : within (linked_list_insert id a).
Proof. unfold linked_list_insert, load_node, store_node. within. Qed.
Lemma within_insert_val a id : within (linked_list_insert a id).
Proof. unfold linked_list_insert, load_node, store_node. within. Qed.
Lemma within_remove_del id a : within (linked_list_remove id a).
Proof. unfold linked_list_remove, load_node, store_node. within. Qed.
Lemma within_remove_val a id : within (linked_list_remove a id).
Proof. unfold linked_list_remove, load_node, store_node. within. Qed.
End helpers.
#[export] Hint Resolve within_this_epoch_view within_get_flags within_get_auth within_exists
  within_set_flag within_clear_flag within_get_delta_epoch within_get_next_delta_epoch
  within_set_delta_epoch within_set_next_delta_epoch within_next_epoch_stake
  within_activation_epoch within_is_epoch_active within_add_to_valset within_remove_from_valset
  within_decrement within_send within_increment within_pull within_apply_reward
  within_reward_invariant
  within_insert_del within_insert_val within_remove_del within_remove_val : within.
#[export] Hint Extern 0 (within_ _ (sa_push _ _)) => apply within_push : within.
#[export] Hint Extern 0 (within_ _ (sa_pop _)) => apply within_pop : within.

(** ** The methods *)
Section methods.
Context `{Crypto} (rev : monad_revision).

Lemma within_delegate id stake a : within (delegate rev id stake a).
Proof.
  unfold delegate, add_pending, emit_delegation_event, emit_validator_status_changed_event.
  within.
Qed.
#[local] Hint Resolve within_delegate : within.

Lemma within_verify_keys k1 k2 c m s1 s2 : within (verify_keys k1 k2 c m s1 s2).
Proof. unfold verify_keys. within. Qed.
#[local] Hint Resolve within_verify_keys : within.

Lemma within_get_valset input v : within (get_valset input (vars.valset v)).
Proof.
  assert (Hl : forall n i l, within (get_valset_loop (vars.valset v) i n l)).
  { induction n as [|n IH]; intros i l; cbn [get_valset_loop]; within. }
  unfold get_valset, require_empty, get_valset_page, sa_length. within.
Qed.

Lemma within_traverse_del (id : u64) (start : address) limit :
  within (linked_list_traverse id start limit).
Proof.
  assert (Hl : forall n p l, within (traverse_loop id p n l)).
  { induction n as [|n IH]; intros p l; cbn [traverse_loop]; unfold load_node; within. }
  unfold linked_list_traverse, load_node. within.
Qed.

Lemma within_traverse_val (a : address) (start : u64) limit :
  within (linked_list_traverse a start limit).
Proof.
  assert (Hl : forall n p l, within (traverse_loop a p n l)).
  { induction n as [|n IH]; intros p l; cbn [traverse_loop]; unfold load_node; within. }
  unfold linked_list_traverse, load_node. within.
Qed.

Lemma within_method f input sender value : within (call_method rev f input sender value).
Proof.
  destruct f; cbn [call_method];
    cbv beta delta [precompile_fallback precompile_add_validator precompile_delegate
      precompile_undelegate precompile_compound precompile_withdraw precompile_claim_rewards
      precompile_change_commission precompile_external_reward precompile_get_epoch
      precompile_get_proposer_val_id precompile_get_validator precompile_get_delegator
      precompile_get_withdrawal_request precompile_get_consensus_valset
      precompile_get_snapshot_valset precompile_get_execution_valset precompile_get_delegations
      precompile_get_delegators function_not_payable require_empty address_from_secpkey
      emit_validator_created_event emit_validator_status_changed_event emit_undelegate_event
      emit_claim_rewards_event emit_withdraw_event emit_commission_changed_event
      get_validators_for_delegator get_delegators_for_validator];
    within; first [apply within_get_valset | apply within_traverse_del
      | apply within_traverse_val | idtac].
Qed.

Lemma within_for_range i n body : (forall j, within (body j)) -> within (for_range i n body).
Proof. intros Hb. revert i. induction n as [|n IH]; intros i; cbn [for_range]; within. Qed.

Lemma within_throw_out v view : within (throw_out_view (vars.valset v) view).
Proof.
  unfold throw_out_view, drain_all, sa_length. within.
  generalize (Z.to_nat a). intros n.
  induction n as [|n IH]; cbn [drain]; unfold sa_empty, sa_length; within.
Qed.

Lemma within_snapshot input value : within (syscall_snapshot input value).
Proof.
  assert (Hs : forall n i c r, within (scan_execution i n c r)).
  { induction n as [|n IH]; intros i c r; cbn [scan_execution]; within. }
  assert (Hp : forall l, within (push_consensus l)).
  { induction l as [|[id st] l IH]; cbn [push_consensus]; within. }
  assert (Hr : forall l, within (process_removals l)).
  { induction l as [|i l IH]; cbn [process_removals]; within. }
  unfold syscall_snapshot, require_empty, sa_length. within;
    first [apply within_throw_out | apply within_for_range; intros j; unfold copy_view; within].
Qed.

Lemma within_epoch_change input value : within (syscall_on_epoch_change input value).
Proof.
  unfold syscall_on_epoch_change, require_empty, sa_length, emit_epoch_changed_event. within.
  apply within_for_range. intros j. unfold refresh_accumulator. within.
Qed.

Lemma within_reward input value : within_ (uval value) (syscall_reward rev input value).
Proof. unfold syscall_reward, require_empty. within. Qed.

Lemma within_syscall calldata value : within_ (uval value) (execute_staking_syscall rev calldata value).
Proof.
  unfold execute_staking_syscall. within; first [apply within_reward
    | apply (within_mono _ 0); [word_lia|]; first [apply within_snapshot | apply within_epoch_change]].
Qed.
End methods.

(** ** Theorems *)

(** C9: the versioned state refines the flat one for the staking contract.  If a
    transaction state [s] represents the world [w], then every method and every
    system transaction of the contract returns the same value, error or
    exception on both, and unless it threw, the final state represents the final
    world. *)
Theorem staking_refines_state `{Crypto} bs rev f input sender value calldata s w :
  refines bs STAKING_CA s w ->
  sim_res bs STAKING_CA (run_with (handle_state bs) (call_method rev f input sender value) s)
    (run (call_method rev f input sender value) w) /\
  sim_res bs STAKING_CA (run_with (handle_state bs) (execute_staking_syscall rev calldata value) s)
    (run (execute_staking_syscall rev calldata value) w).
Proof.
  intros R. split; apply sim_run; try done; [apply within_method|by eapply within_syscall].
Qed.

(** Solvency on the transaction state.  A method run on a state that
    represents a solvent world, and that returns, ends in a state that represents
    a world whose surplus is at most the call's value lower. *)
Theorem state_solvency `{Crypto} bs rev f input sender (value : u256) s s' w out :
  refines bs STAKING_CA s w -> solvent w ->
  run_with (handle_state bs) (call_method rev f input sender value) s = (ROk out, s') ->
  exists w', refines bs STAKING_CA s' w' /\ surplus w - value <= surplus w'.
Proof.
  intros R Hs Hrun.
  destruct (sim_run bs STAKING_CA _ s w (proj1 (within_method rev f input sender value)) R) as [E1 E2].
  rewrite Hrun in E1, E2. simpl in E1, E2.
  pose proof (call_method_ok rev f input sender value w Hs) as Hok. unfold wp in Hok.
  destruct (run (call_method rev f input sender value) w) as [r w']. simpl in E1, E2. subst r.
  by exists w'.
Qed.

(** A state that represents a world: the contract's account, loaded from the
    block state, with empty storage. *)
Definition demo_block : BlockReads :=
  mk_reads (fun a => if a =w? STAKING_CA then Some (new_account (mk_incarnation #0 #0)) else None)
    (fun _ _ _ => #0) (fun _ => []).

Definition loaded_state : State :=
  (original_account_state demo_block STAKING_CA (new_state (mk_incarnation #1 #1) false)).2.

Lemma loaded_original :
  original_ loaded_state = <[STAKING_CA := new_original (Some (new_account (mk_incarnation #0 #0)))]> ∅.
Proof. reflexivity. Qed.

Lemma loaded_view a :
  orig_view demo_block loaded_state a = new_account_state (read_account demo_block a).
Proof.
  unfold orig_view. rewrite loaded_original. destruct (decide (STAKING_CA = a)) as [<-|Ha].
  - rewrite lookup_insert_eq. reflexivity.
  - by rewrite lookup_insert_ne.
Qed.

Lemma demo_refines : refines demo_block STAKING_CA (loaded_state, []) empty_world.
Proof.
  assert (Hv : forall a, view demo_block loaded_state a = new_account_state (read_account demo_block a))
    by (intros a; apply loaded_view).
  split.
  - apply (stays_original_account_state demo_block STAKING_CA), wf_new_state.
  - intros a. unfold obs_balance. simpl. rewrite Hv. simpl.
    by destruct (weqb_spec a STAKING_CA).
  - simpl fst. rewrite loaded_original, lookup_insert_eq. by eexists.
  - simpl fst. rewrite Hv. by eexists.
  - intros k. unfold obs_storage. simpl fst. rewrite Hv, loaded_view. reflexivity.
  - reflexivity.
  - reflexivity.
Qed.

Lemma staking_refines_state_witness :
  sim_res demo_block STAKING_CA
    (run_with (handle_state demo_block)
       (execute_staking_syscall MONAD_FIVE (epoch_data #1) #0) (loaded_state, []))
    (run (execute_staking_syscall MONAD_FIVE (epoch_data #1) #0) empty_world).
Proof.
  exact (proj2 (staking_refines_state demo_block MONAD_FIVE precompile_get_epoch_ [] alice #0
    (epoch_data #1) (loaded_state, []) empty_world demo_refines)).
Defined.

Lemma state_solvency_witness : exists out s' w',
  run_with (handle_state demo_block) (call_method MONAD_FIVE precompile_get_epoch_ [] alice #0)
    (loaded_state, []) = (ROk out, s') /\
  refines demo_block STAKING_CA s' w' /\ surplus empty_world - 0 <= surplus w'.
Proof.
  destruct (run_with (handle_state demo_block) (call_method MONAD_FIVE precompile_get_epoch_ [] alice #0)
    (loaded_state, [])) as [r s'] eqn:E.
  assert (Hr : match r with ROk _ => true | _ => false end = true)
    by (change r with (r, s').1; rewrite <- E; vm_compute; reflexivity).
  destruct r as [out|e|m|]; try discriminate Hr.
  destruct (state_solvency demo_block MONAD_FIVE precompile_get_epoch_ [] alice #0
    (loaded_state, []) s' empty_world out demo_refines) as (w' & R & Hw).
  - apply solvent_fresh. intros k. reflexivity.
  - exact E.
  - exists out, s', w'. rewrite uval_wrap_0 in Hw. split; [reflexivity|]. split; [exact R|exact Hw].
Defined.
