(* ===== verification/BlockHash.v ===== *)
(** * Recent block hashes

    Models src/category/execution/ethereum/block_hash_buffer.{hpp,cpp} - the ring of
    the last 256 finalized hashes, the proposals that extend it, and the tree of
    proposals [BlockHashChain] - and the history contract of EIP-2935 of
    block_hash_history.{hpp,cpp}.

    A proposal keeps the hashes of the blocks that were not final when it was made
    and reads the rest from the shared ring, which changes under it as blocks are
    finalized.  The theorem: in every reachable state, every proposal and the ring
    answer with the hashes of their own chain. *)
From S2P Require Import Prelude Prog Abi StakingVars Transaction VersionStack State3.

Module block_hash.
(** [BlockHashBuffer::N]. *)
Definition ring_size : Z := 256.

(** ** The finalized ring *)
Record BlockHashBufferFinalized := mk_finalized { b_ : list bytes32; fn_ : u64 }.

Definition new_finalized : BlockHashBufferFinalized := mk_finalized (replicate (Z.to_nat ring_size) NULL_HASH) #0.

(** The assertion of both [get]s. *)
Definition in_window (n n_ : u64) : bool := (n <? n_) && (n_ <=? wrap 64 (n + ring_size)).

(** [None] is a failed assertion. *)
Definition finalized_get (f : BlockHashBufferFinalized) (n : u64) : option bytes32 :=
  if in_window n (fn_ f) then b_ f !! Z.to_nat (n mod ring_size) else None.

Definition finalized_set (n : u64) (h : bytes32) (f : BlockHashBufferFinalized)
    : option BlockHashBufferFinalized :=
  if (fn_ f =? 0) || (n =w? fn_ f)
  then Some (mk_finalized (<[Z.to_nat (n mod ring_size) := h]> (b_ f)) #(n + 1)) else None.

(** ** Proposals *)

(** [buf_] points to the ring of the chain, which is passed to the operations. *)
Record BlockHashBufferProposal := mk_bhp { pn_ : u64; deltas_ : list bytes32 }.

Definition proposal_of_finalized (h : bytes32) (buf : BlockHashBufferFinalized) : BlockHashBufferProposal :=
  mk_bhp #(fn_ buf + 1) [h].

Definition proposal_of_parent (h : bytes32) (parent : BlockHashBufferProposal) (buf : BlockHashBufferFinalized)
    : option BlockHashBufferProposal :=
  let n_ : u64 := #(pn_ parent + 1) in
  if (0 <? n_) && (fn_ buf <? n_)
  then Some (mk_bhp n_ (resize (Z.to_nat (n_ - fn_ buf)) #0 (h :: deltas_ parent))) else None.

Definition proposal_get (buf : BlockHashBufferFinalized) (p : BlockHashBufferProposal) (n : u64)
    : option bytes32 :=
  if in_window n (pn_ p) then
    let idx := Z.to_nat (pn_ p - n - 1) in
    if (idx <? length (deltas_ p))%nat then deltas_ p !! idx else finalized_get buf n
  else None.

(** ** The chain of proposals *)
Record Proposal := mk_bproposal {
  block_number : u64; block_id : bytes32; parent_id : bytes32; pbuf : BlockHashBufferProposal }.

Record BlockHashChain := mk_chain { buf_ : BlockHashBufferFinalized; proposals_ : list Proposal }.

Definition find_proposal (id : bytes32) (l : list Proposal) : option Proposal :=
  List.find (fun p => block_id p =w? id) l.

Definition propose (hash : bytes32) (number : u64) (id parent : bytes32) (c : BlockHashChain)
    : option BlockHashChain :=
  match find_proposal parent (proposals_ c) with
  | Some p =>
      b ← proposal_of_parent hash (pbuf p) (buf_ c);
      Some (mk_chain (buf_ c) (proposals_ c ++ [mk_bproposal number id parent b]))
  | None =>
      Some (mk_chain (buf_ c)
        (proposals_ c ++ [mk_bproposal number id parent (proposal_of_finalized hash (buf_ c))]))
  end.

Definition finalize (id : bytes32) (c : BlockHashChain) : option BlockHashChain :=
  let to_finalize := fn_ (buf_ c) in
  winner ← find_proposal id (proposals_ c);
  if wrap 64 (pn_ (pbuf winner) - 1) =w? to_finalize then
    h ← proposal_get (buf_ c) (pbuf winner) to_finalize;
    buf ← finalized_set to_finalize h (buf_ c);
    Some (mk_chain buf (List.filter (fun p => negb (block_number p <=? block_number winner)) (proposals_ c)))
  else None.

(** Read through [find_chain]. *)
Definition find_chain (id : bytes32) (c : BlockHashChain) : u64 -> option bytes32 :=
  match find_proposal id (proposals_ c) with
  | Some p => proposal_get (buf_ c) (pbuf p)
  | None => finalized_get (buf_ c)
  end.


(** ** The tree of chains

    [fin] are the finalized hashes, the first one of block [start]; a chain is the
    list of its hashes from [start] on. *)
Section spec.
Context (start : Z).
Implicit Types (f : BlockHashBufferFinalized) (p : BlockHashBufferProposal) (fin : list bytes32).

(** Numbers are far from wrapping around. *)
Definition roomy (c : list bytes32) : Prop := 0 <= start /\ start + Z.of_nat (length c) < modulus 64 - ring_size.

Record ring_is f fin : Prop := mk_ring_is {
  ri_n : uval (fn_ f) = start + Z.of_nat (length fin);
  ri_length : length (b_ f) = Z.to_nat ring_size;
  ri_roomy : roomy fin;
  ri_hash : forall k, (k < length fin <= k + Z.to_nat ring_size)%nat ->
    b_ f !! Z.to_nat ((start + Z.of_nat k) mod ring_size) = fin !! k;
}.

(** The hashes that were not final are kept, latest first; below them the chain is
    part of the finalized one. *)
Record proposal_is fin p (c : list bytes32) : Prop := mk_proposal_is {
  pi_n : uval (pn_ p) = start + Z.of_nat (length c);
  pi_roomy : roomy c;
  pi_short : (length (deltas_ p) <= length c)%nat;
  pi_deltas : forall j, (j < length (deltas_ p))%nat -> deltas_ p !! j = c !! (length c - 1 - j)%nat;
  pi_final : take (length c - length (deltas_ p)) c `prefix_of` fin;
}.

(** What [get] answers, if the number is among the last 256. *)
Definition answers (get : u64 -> option bytes32) (c : list bytes32) : Prop :=
  forall k, (k < length c <= k + Z.to_nat ring_size)%nat -> get #(start + Z.of_nat k) = c !! k.

Lemma number_val c k : roomy c -> (k < length c)%nat -> uval (wrap 64 (start + Z.of_nat k)) = start + Z.of_nat k.
Proof. intros [H1 H2] Hk. apply uval_wrap_small. unfold ring_size in *. lia. Qed.

Lemma window c k (n_ : u64) :
  roomy c -> uval n_ = start + Z.of_nat (length c) -> (k < length c <= k + Z.to_nat ring_size)%nat ->
  in_window #(start + Z.of_nat k) n_ = true.
Proof.
  intros Hc Hn Hk. unfold in_window. rewrite (number_val c k Hc), Hn by lia. destruct Hc as [H1 H2].
  rewrite uval_wrap_small by (unfold ring_size in *; lia). unfold ring_size in *. lia.
Qed.

Lemma ring_answers f fin : ring_is f fin -> answers (finalized_get f) fin.
Proof.
  intros [R1 R2 R3 R4] k Hk. unfold finalized_get. rewrite (window fin k); [|done..].
  rewrite (number_val fin k R3) by lia. by apply R4.
Qed.

Lemma proposal_answers f fin p c :
  ring_is f fin -> proposal_is fin p c -> (length fin < length c)%nat -> answers (proposal_get f p) c.
Proof.
  intros R [P1 P2 P3 P4 P5] Hlt k Hk. unfold proposal_get. rewrite (window c k); [|done..].
  rewrite (number_val c k P2), P1 by lia.
  replace (Z.to_nat _) with (length c - 1 - k)%nat by lia.
  destruct (Nat.ltb_spec (length c - 1 - k) (length (deltas_ p))) as [Hj|Hj].
  - rewrite P4 by done. f_equal. lia.
  - destruct P5 as [rest E]. assert (Hl : (length c - length (deltas_ p) <= length fin)%nat).
    { rewrite E, length_app, length_take. lia. }
    rewrite (ring_answers f fin R k) by lia. rewrite E, lookup_app_l by (rewrite length_take; lia).
    by rewrite lookup_take_lt by lia.
Qed.

(** Setting the next hash. *)
Lemma ring_set f fin h :
  fin <> [] -> ring_is f fin -> roomy (fin ++ [h]) ->
  exists f', finalized_set (fn_ f) h f = Some f' /\ ring_is f' (fin ++ [h]).
Proof.
  intros Hne [R1 R2 R3 R4] Hroom. unfold finalized_set. rewrite weqb_refl, orb_true_r. eexists. split; [done|].
  pose proof Hroom as [H1 H2]. rewrite length_app in H2. simpl in H2. split; simpl.
  - rewrite uval_wrap_small, R1, length_app by (unfold ring_size in *; lia). simpl. lia.
  - by rewrite length_insert.
  - done.
  - intros k Hk. rewrite length_app in Hk. simpl in Hk. rewrite R1.
    assert (Hb : forall z, 0 <= z mod ring_size < ring_size) by (intros z; by apply Z.mod_pos_bound).
    pose proof (Hb (start + Z.of_nat (length fin))) as B1. pose proof (Hb (start + Z.of_nat k)) as B2.
    destruct (decide (k = length fin)) as [->|Hne'].
    + rewrite list_lookup_insert_eq by (rewrite R2; lia). by rewrite lookup_app_r, Nat.sub_diag by lia.
    + assert ((start + Z.of_nat (length fin)) mod ring_size <> (start + Z.of_nat k) mod ring_size)
        by (unfold ring_size in *; Z.div_mod_to_equations; lia).
      rewrite list_lookup_insert_ne, lookup_app_l by lia. apply R4. lia.
Qed.

Lemma proposal_kept fin h p c : proposal_is fin p c -> proposal_is (fin ++ [h]) p c.
Proof. intros [P1 P2 P3 P4 P5]. split; try done. by apply prefix_app_r. Qed.

(** A proposal on top of the finalized chain. *)
Lemma proposal_fresh f fin h :
  ring_is f fin -> roomy (fin ++ [h]) -> proposal_is fin (proposal_of_finalized h f) (fin ++ [h]).
Proof.
  intros [R1 R2 R3 R4] Hroom. pose proof Hroom as [H1 H2]. rewrite length_app in H2. simpl in H2.
  split; simpl; rewrite ?length_app; simpl; try done; try lia.
  - rewrite uval_wrap_small, R1 by (unfold ring_size in *; lia). lia.
  - intros [|j] Hj; [|lia]. rewrite lookup_app_r by lia. by replace (_ - _)%nat with 0%nat by lia.
  - rewrite take_app_le, take_ge by lia. done.
Qed.

(** A proposal on top of another one that extends the finalized chain. *)
Lemma proposal_child f fin h p c :
  ring_is f fin -> proposal_is fin p c -> fin `prefix_of` c -> roomy (c ++ [h]) ->
  exists p', proposal_of_parent h p f = Some p' /\ proposal_is fin p' (c ++ [h]).
Proof.
  intros [R1 R2 R3 R4] [P1 P2 P3 P4 P5] Hp Hroom. pose proof Hroom as [H1 H2].
  rewrite length_app in H2. simpl in H2. pose proof (prefix_length _ _ Hp) as Hl.
  assert (Hn : uval (wrap 64 (pn_ p + 1)) = start + Z.of_nat (length c) + 1)
    by (rewrite uval_wrap_small; unfold ring_size in *; lia).
  unfold proposal_of_parent. rewrite Hn, R1. rewrite (proj2 (Z.ltb_lt _ _)), (proj2 (Z.ltb_lt _ _)) by lia.
  simpl. eexists. split; [done|].
  set (m := Z.to_nat _). assert (Hm : m = (length c + 1 - length fin)%nat) by (unfold m; lia). clearbody m.
  assert (Hk : (length c - length (deltas_ p) <= length fin)%nat).
  { destruct P5 as [rest E]. rewrite E, length_app, length_take. lia. }
  rewrite resize_le by (simpl; lia).
  assert (Hlen : length (take m (h :: deltas_ p)) = m) by (rewrite length_take; simpl; lia).
  split; cbn [pn_ deltas_]; rewrite ?Hlen, ?length_app; simpl; try done; try lia.
  - intros j Hj. rewrite lookup_take_lt by done. destruct j as [|j]; simpl.
    + rewrite lookup_app_r by lia. by replace (_ - _)%nat with 0%nat by lia.
    + rewrite P4, lookup_app_l by lia. f_equal. lia.
  - rewrite Hm, take_app_le by lia. replace (_ - _)%nat with (length fin) by lia.
    destruct Hp as [rest ->]. by rewrite take_app_length.
Qed.

(** The specification: every proposal carries its whole chain. *)
Record block := mk_block { bk_number : u64; bk_id : bytes32; bk_chain : list bytes32 }.
Record Tree := mk_tree { tr_fin : list bytes32; tr_blocks : list block }.

Definition tree_block (id : bytes32) (tr : Tree) : option block :=
  List.find (fun b => bk_id b =w? id) (tr_blocks tr).
Definition tree_find (id : bytes32) (tr : Tree) : list bytes32 :=
  from_option bk_chain (tr_fin tr) (tree_block id tr).

Inductive op := Propose (hash : bytes32) (number : u64) (id parent : bytes32) | Finalize (id : bytes32).

Definition run_op (o : op) : BlockHashChain -> option BlockHashChain :=
  match o with Propose h n id parent => propose h n id parent | Finalize id => finalize id end.

Fixpoint run_ops (l : list op) (c : BlockHashChain) : option BlockHashChain :=
  match l with [] => Some c | o :: l => run_op o c ≫= run_ops l end.

(** The order of consensus: a block is proposed on a chain that extends the
    finalized one, with the next number; the block finalized is the next one. *)
Inductive tree_step (tr : Tree) : op -> Tree -> Prop :=
| step_propose h n id parent :
    tr_fin tr `prefix_of` tree_find parent tr -> roomy (tree_find parent tr ++ [h]) ->
    uval n = start + Z.of_nat (length (tree_find parent tr)) ->
    tree_step tr (Propose h n id parent)
      (mk_tree (tr_fin tr) (tr_blocks tr ++ [mk_block n id (tree_find parent tr ++ [h])]))
| step_finalize id b h :
    tree_block id tr = Some b -> length (bk_chain b) = S (length (tr_fin tr)) ->
    bk_chain b !! length (tr_fin tr) = Some h ->
    tree_step tr (Finalize id) (mk_tree (tr_fin tr ++ [h])
      (List.filter (fun b' => negb (bk_number b' <=? bk_number b)) (tr_blocks tr))).

Inductive tree_steps : Tree -> list op -> Tree -> Prop :=
| steps_nil tr : tree_steps tr [] tr
| steps_cons tr o tr' l tr'' : tree_step tr o tr' -> tree_steps tr' l tr'' -> tree_steps tr (o :: l) tr''.

Record block_is (fin : list bytes32) (p : Proposal) (b : block) : Prop := mk_block_is {
  bi_id : block_id p = bk_id b;
  bi_number : block_number p = bk_number b /\ uval (bk_number b) + 1 = start + Z.of_nat (length (bk_chain b));
  bi_chain : proposal_is fin (pbuf p) (bk_chain b);
  bi_ahead : (length fin < length (bk_chain b))%nat;
}.

Record represents (c : BlockHashChain) (tr : Tree) : Prop := mk_represents {
  rp_fin : tr_fin tr <> [];
  rp_ring : ring_is (buf_ c) (tr_fin tr);
  rp_blocks : Forall2 (block_is (tr_fin tr)) (proposals_ c) (tr_blocks tr);
}.

Lemma find_related fin ps bks id :
  Forall2 (block_is fin) ps bks ->
  match find_proposal id ps, List.find (fun b => bk_id b =w? id) bks with
  | Some p, Some b => block_is fin p b
  | None, None => True
  | _, _ => False
  end.
Proof.
  intros H. induction H as [|p b ps bks Hb H IH]; simpl; [done|].
  rewrite (bi_id _ _ _ Hb). by destruct (bk_id b =w? id).
Qed.

Lemma represents_answers (c : BlockHashChain) tr id : represents c tr -> answers (find_chain id c) (tree_find id tr).
Proof.
  intros [R1 R2 R3]. unfold find_chain, tree_find, tree_block.
  pose proof (find_related _ _ _ id R3) as H. destruct (find_proposal id _) as [p|], (List.find _ _) as [b|]; try done.
  - by apply (proposal_answers (buf_ c) (tr_fin tr) (pbuf p) (bk_chain b)); [|apply H..].
  - by apply ring_answers.
Qed.

Lemma propose_refines c tr h n id parent :
  represents c tr -> tr_fin tr `prefix_of` tree_find parent tr -> roomy (tree_find parent tr ++ [h]) ->
  uval n = start + Z.of_nat (length (tree_find parent tr)) ->
  exists c', propose h n id parent c = Some c' /\
    represents c' (mk_tree (tr_fin tr) (tr_blocks tr ++ [mk_block n id (tree_find parent tr ++ [h])])).
Proof.
  intros [R1 R2 R3] Hp Hroom Hn.
  assert (Hb : exists b, match find_proposal parent (proposals_ c) with
    | Some p => proposal_of_parent h (pbuf p) (buf_ c) | None => Some (proposal_of_finalized h (buf_ c)) end = Some b /\
    proposal_is (tr_fin tr) b (tree_find parent tr ++ [h])).
  { revert Hp Hroom. unfold tree_find, tree_block. intros Hp Hroom.
    pose proof (find_related _ _ _ parent R3) as H.
    destruct (find_proposal parent _) as [p|], (List.find _ _) as [b|]; try done; simpl in *.
    - apply (proposal_child _ (tr_fin tr)); [done|apply H|done..].
    - eexists. split; [done|by apply proposal_fresh]. }
  destruct Hb as (b & Eb & Hb). exists (mk_chain (buf_ c) (proposals_ c ++ [mk_bproposal n id parent b])). split.
  - unfold propose. destruct (find_proposal parent _); [by rewrite Eb|by injection Eb as ->].
  - split; [done|done|]. apply Forall2_app; [done|]. constructor; [|constructor].
    pose proof (prefix_length _ _ Hp). split; simpl; rewrite ?length_app; simpl; [done|split; [done|lia]|done|lia].
Qed.

Lemma finalize_refines c tr id b h :
  represents c tr -> tree_block id tr = Some b -> length (bk_chain b) = S (length (tr_fin tr)) ->
  bk_chain b !! length (tr_fin tr) = Some h ->
  exists c', finalize id c = Some c' /\ represents c' (mk_tree (tr_fin tr ++ [h])
    (List.filter (fun b' => negb (bk_number b' <=? bk_number b)) (tr_blocks tr))).
Proof.
  intros [R1 R2 R3] Eb Hl Eh. unfold finalize. pose proof (find_related _ _ _ id R3) as H.
  unfold tree_block in Eb. rewrite Eb in H. destruct (find_proposal id _) as [p|]; [|done]. simpl.
  destruct H as [I1 [I2 I2'] I3 I4]. pose proof (pi_n _ _ _ I3) as Hn. pose proof (pi_roomy _ _ _ I3) as Hr.
  assert (Hfn : wrap 64 (pn_ (pbuf p) - 1) = fn_ (buf_ c)).
  { apply uval_inj. rewrite (ri_n _ _ R2), uval_wrap_small; destruct Hr; unfold ring_size in *; lia. }
  rewrite Hfn, weqb_refl.
  assert (Hg : proposal_get (buf_ c) (pbuf p) (fn_ (buf_ c)) = Some h).
  { rewrite <- Eh. replace (fn_ (buf_ c)) with (wrap 64 (start + Z.of_nat (length (tr_fin tr)))).
    - apply (proposal_answers (buf_ c) (tr_fin tr)); try done. unfold ring_size. lia.
    - apply uval_inj. rewrite (ri_n _ _ R2). apply (number_val (bk_chain b)); [done|lia]. }
  rewrite Hg. simpl. destruct (ring_set (buf_ c) (tr_fin tr) h) as (f' & -> & R'); [done|done| |].
  { destruct Hr. split; [done|]. rewrite length_app. simpl. lia. }
  simpl. eexists. split; [done|]. split; simpl; [by destruct (tr_fin tr)|done|].
  rewrite I2. clear - R3 I2' Hl. induction R3 as [|p' b' ps bks Hb H IH]; simpl; [constructor|].
  destruct Hb as [J1 [J2 J2'] J3 J4]. rewrite J2.
  destruct (Z.leb_spec (bk_number b') (bk_number b)) as [Hlt|Hlt]; simpl; [done|].
  constructor; [|done]. split; [done|done|by apply proposal_kept|]. rewrite length_app. simpl. lia.
Qed.

Lemma step_refines c tr o tr' :
  represents c tr -> tree_step tr o tr' -> exists c', run_op o c = Some c' /\ represents c' tr'.
Proof.
  intros R H. destruct H as [h n id parent H1 H2 H3|id b h H1 H2 H3]; simpl.
  - by apply propose_refines.
  - by apply finalize_refines.
Qed.
End spec.

(** The first hash may have any number. *)
Lemma ring_first (n : u64) h :
  n + 1 < modulus 64 - ring_size ->
  exists f, finalized_set n h new_finalized = Some f /\ ring_is n f [h].
Proof.
  intros Hn. eexists. split; [reflexivity|]. pose proof (uword_range n) as Hr.
  assert (Hb : 0 <= n mod ring_size < ring_size) by (by apply Z.mod_pos_bound).
  split; cbn [b_ fn_ length].
  - rewrite uval_wrap_small by (unfold ring_size in *; lia). lia.
  - rewrite length_insert. reflexivity.
  - split; [lia|]. simpl. lia.
  - intros [|k] Hk; [|lia]. rewrite Z.add_0_r, list_lookup_insert_eq; [done|].
    unfold ring_size in *. change (length (b_ new_finalized)) with 256%nat. lia.
Qed.

(** C29: every proposal sees the hashes of its own chain.  From a ring of finalized
    hashes, any sequence of proposals and finalizations in the order of consensus
    passes every assertion, and afterwards the buffer of every proposal - and the
    ring, for an unknown id - answers a request for one of the last 256 block numbers
    with that block's hash on its chain, although all of them read the same ring. *)
Theorem block_hashes_exact start f fin ops tr :
  fin <> [] -> ring_is start f fin -> tree_steps start (mk_tree fin []) ops tr ->
  exists c, run_ops ops (mk_chain f []) = Some c /\
    forall id, answers start (find_chain id c) (tree_find id tr).
Proof.
  intros Hne Hf Hs. assert (R : represents start (mk_chain f []) (mk_tree fin [])) by (by split).
  revert R. generalize (mk_chain f []) as c. induction Hs as [tr|tr o tr' l tr'' Ho Hs IH]; intros c R.
  - exists c. split; [done|]. intros id. by apply represents_answers.
  - destruct (step_refines start c tr o tr' R Ho) as (c' & E & R'). simpl. rewrite E. by apply IH.
Qed.

(** Two children of block 5, a grandchild, and the first child finalized. *)
Lemma block_hashes_exact_witness : exists f c,
  finalized_set #5 #1 new_finalized = Some f /\
  run_ops [Propose #2 #6 #11 #10; Propose #4 #6 #13 #10; Propose #3 #7 #12 #11; Finalize #11] (mk_chain f []) = Some c /\
  find_chain #12 c #7 = Some #3 /\ find_chain #12 c #6 = Some #2 /\ find_chain #12 c #5 = Some #1 /\
  find_chain #99 c #6 = Some #2.
Proof.
  destruct (ring_first #5 #1) as (f & Ef & Hf); [vm_compute; reflexivity|].
  assert (Hs : tree_steps 5 (mk_tree [ #1 ] [])
    [Propose #2 #6 #11 #10; Propose #4 #6 #13 #10; Propose #3 #7 #12 #11; Finalize #11]
    (mk_tree [ #1; #2 ] [mk_block #7 #12 [ #1; #2; #3 ]])).
  { assert (Hp : forall l : list bytes32, [ #1 ] `prefix_of` (#1 :: l)) by (intros l; by exists l).
    assert (Hr : forall c : list bytes32, (length c < 9)%nat -> roomy 5 c)
      by (intros c Hc; split; [lia|]; unfold ring_size; change (modulus 64) with 18446744073709551616; lia).
    set (b11 := mk_block #6 #11 [ #1; #2 ]). set (b13 := mk_block #6 #13 [ #1; #4 ]).
    set (b12 := mk_block #7 #12 [ #1; #2; #3 ]).
    apply (steps_cons _ _ _ (mk_tree [ #1 ] [b11])).
    { exact (step_propose 5 (mk_tree [ #1 ] []) #2 #6 #11 #10 (Hp []) (Hr [ #1; #2 ] ltac:(simpl; lia)) eq_refl). }
    apply (steps_cons _ _ _ (mk_tree [ #1 ] [b11; b13])).
    { exact (step_propose 5 (mk_tree [ #1 ] [b11]) #4 #6 #13 #10 (Hp []) (Hr [ #1; #4 ] ltac:(simpl; lia)) eq_refl). }
    apply (steps_cons _ _ _ (mk_tree [ #1 ] [b11; b13; b12])).
    { exact (step_propose 5 (mk_tree [ #1 ] [b11; b13]) #3 #7 #12 #11 (Hp [ #2 ]) (Hr [ #1; #2; #3 ] ltac:(simpl; lia)) eq_refl). }
    apply (steps_cons _ _ _ (mk_tree [ #1; #2 ] [b12])); [|constructor].
    exact (step_finalize 5 (mk_tree [ #1 ] [b11; b13; b12]) #11 b11 #2 eq_refl eq_refl eq_refl). }
  destruct (block_hashes_exact 5 f [ #1 ] _ _ ltac:(done) Hf Hs) as (c & Hc & Ha).
  exists f, c. split; [exact Ef|]. split; [exact Hc|].
  pose proof (Ha #12) as H12. pose proof (Ha #99) as H99. unfold answers in H12, H99.
  cbn -[Z.to_nat ring_size wrap find_chain Z.add] in H12, H99.
  split_and!; [apply (H12 2%nat)|apply (H12 1%nat)|apply (H12 0%nat)|apply (H99 1%nat)]; vm_compute; lia.
Defined.
End block_hash.

(** ** The history contract *)
Section history.
Context (t : Traits) (bs : BlockReads) (keccak256 : byte_string -> bytes32).
#[local] Open Scope sm_scope.

Definition BLOCK_HISTORY_ADDRESS : address := #0x0000F90827F1C53a10cb7A02335B175320002935.
Definition BLOCK_HISTORY_LENGTH : Z := 8191.
Definition BLOCK_HISTORY_CODE : byte_string := to_bytes 83
  0x3373fffffffffffffffffffffffffffffffffffffffe14604657602036036042575f35600143038111604257611fff81430311604257611fff9006545f5260205ff35b5f5ffd5b5f35611fff60014303065500.
Definition BLOCK_HISTORY_CODE_HASH : bytes32 :=
  #0x6e49e66782037c0555897870e29fa5e552daf4719552131a0abce779daec0a5d.

Definition deploy_block_hash_history_contract : SM unit :=
  if negb (eth_ge (evm_rev t) MONAD_ETH_PRAGUE) then sret tt
  else
    exists_ <- account_exists bs BLOCK_HISTORY_ADDRESS ;;
    (if negb exists_ then
       create_contract bs BLOCK_HISTORY_ADDRESS ;;
       set_code bs keccak256 BLOCK_HISTORY_ADDRESS BLOCK_HISTORY_CODE ;;
       h <- get_code_hash bs BLOCK_HISTORY_ADDRESS ;;
       sassert (h =w? BLOCK_HISTORY_CODE_HASH) ;;
       set_nonce bs BLOCK_HISTORY_ADDRESS #1
     else sret tt) ;;
    match t with
    | EvmTraits _ => sret tt
    | MonadTraits rev =>
        if rev_ge rev MONAD_SIX then
          h <- get_code_hash bs BLOCK_HISTORY_ADDRESS ;;
          if negb (h =w? BLOCK_HISTORY_CODE_HASH)
          then set_code bs keccak256 BLOCK_HISTORY_ADDRESS BLOCK_HISTORY_CODE else sret tt
        else sret tt
    end.

Definition set_block_hash_history (number : u64) (parent_hash : bytes32) : SM unit :=
  if negb (eth_ge (evm_rev t) MONAD_ETH_PRAGUE) then sret tt
  else if match t with MonadTraits rev => negb (rev_ge rev MONAD_SIX) | EvmTraits _ => false end then sret tt
  else if number =? 0 then sret tt
  else
    exists_ <- account_exists bs BLOCK_HISTORY_ADDRESS ;;
    if exists_ : bool then
      let parent_number := number - 1 in
      set_storage bs BLOCK_HISTORY_ADDRESS #(parent_number mod BLOCK_HISTORY_LENGTH) parent_hash ;; sret tt
    else sret tt.

Definition get_block_hash_history (number : u64) : SM bytes32 :=
  exists_ <- account_exists bs BLOCK_HISTORY_ADDRESS ;;
  if negb exists_ then sret #0
  else get_storage bs BLOCK_HISTORY_ADDRESS #(number mod BLOCK_HISTORY_LENGTH).
End history.
