(* ===== verification/Block.v ===== *)
(** * Blocks, receipts and their static validation

    Models the data of src/category/execution/ethereum/core/{block,receipt,
    withdrawal}.hpp, the log bloom of receipt.cpp, the block checks of
    ethereum/validate_block.cpp, and the checks of Monad's system transactions in
    monad/validate_monad_block.cpp.  The theorems: the bloom of a block has exactly
    the bits of its logs, and the system transactions of an accepted block come
    first, each kind at most once and in the fixed order. *)
From Stdlib Require Import Sorting.
From S2P Require Import Prelude UInt256 Prog Abi StakingVars StakingContract StakingSyscalls Transaction State3 Rlp.

(** ** Data *)

(** [byte_string_fixed<256>], as its bytes. *)
Abbreviation Bloom := byte_string.

Record BlockHeader := mk_header {
  bh_logs_bloom : Bloom; bh_parent_hash : bytes32; bh_ommers_hash : bytes32; bh_state_root : bytes32;
  bh_transactions_root : bytes32; bh_receipts_root : bytes32; bh_prev_randao : bytes32; bh_difficulty : u256;
  bh_number : u64; bh_gas_limit : u64; bh_gas_used : u64; bh_timestamp : u64;
  bh_nonce : u64;  (** the eight bytes, big endian *)
  bh_extra_data : byte_string; bh_beneficiary : address;
  bh_base_fee_per_gas : option u256; bh_withdrawals_root : option bytes32; bh_blob_gas_used : option u64;
  bh_excess_blob_gas : option u64; bh_parent_beacon_block_root : option bytes32; bh_requests_hash : option bytes32 }.

Record Withdrawal := mk_withdrawal {
  wd_index : u64; wd_validator_index : u64; wd_amount : u64; wd_recipient : address }.

Record Block := mk_block {
  bk_header : BlockHeader; bk_transactions : list Transaction; bk_ommers : list BlockHeader;
  bk_withdrawals : option (list Withdrawal) }.

Record Receipt := mk_receipt {
  rc_bloom : Bloom; rc_status : u64; rc_gas_used : u64; rc_type : TransactionType; rc_logs : list Log }.

#[export] Instance BlockHeader_eq_dec : EqDecision BlockHeader.
Proof. solve_decision. Defined.

Definition NULL_LIST_HASH : bytes32 := #0x1dcc4de8dec75d7aab85b567b6ccd41ad312451b948a7413f0a142fd40d49347.

(** ** The log bloom *)
Definition new_bloom : Bloom := replicate 256 #0.

(** [hash.bytes + i * 2] as a big-endian 16-bit integer, and the bit it selects. *)
Definition bloom_index (hash : bytes32) (i : nat) : Z :=
  Z.land (bytes_val (take 2 (drop (i * 2) (word_bytes hash)))) 2047.

Definition set_bloom_bit (bit : Z) (bloom : Bloom) : Bloom :=
  alter (fun b : u8 => #(Z.lor b (Z.shiftl 1 (Z.land bit 7)))) (Z.to_nat (255 - bit / 8)) bloom.

Section bloom.
Context (keccak256 : byte_string -> bytes32).

Definition set_3_bits (bytes : byte_string) (bloom : Bloom) : Bloom :=
  let hash := keccak256 bytes in
  fold_left (fun bloom i => set_bloom_bit (bloom_index hash i) bloom) (seq 0 3) bloom.

Definition populate_bloom (log : Log) (bloom : Bloom) : Bloom :=
  fold_left (fun bloom (i : bytes32) => set_3_bits (to_bytes 32 i) bloom) (log_topics log)
    (set_3_bits (to_bytes 20 (log_address log)) bloom).

Definition add_log (r : Receipt) (log : Log) : Receipt :=
  mk_receipt (populate_bloom log (rc_bloom r)) (rc_status r) (rc_gas_used r) (rc_type r) (rc_logs r ++ [log]).
End bloom.

Definition or_bloom (bloom other : Bloom) : Bloom := zip_with (fun x y : u8 => #(Z.lor x y)) bloom other.

Definition compute_bloom (receipts : list Receipt) : Bloom :=
  fold_left (fun bloom r => or_bloom bloom (rc_bloom r)) receipts new_bloom.

(** ** Header and body checks *)
Inductive BlockError :=
| GasAboveLimit | InvalidGasLimit | ExtraDataTooLong | WrongOmmersHash | WrongParentHash | FieldBeforeFork
| MissingField | PowBlockAfterMerge | InvalidNonce | TooManyOmmers | DuplicateOmmers | InvalidOmmerHeader
| WrongLogsBloom | InvalidGasUsed | WrongMerkleRoot | SystemCallMissingCode | SystemCallFailed
| InvalidRequestsHash | InvalidDepositLog.

(** A field that a fork introduces: absent before, there from then on. *)
Definition forked {A} (active : bool) (field : option A) : option BlockError :=
  if active then if has_value field then None else Some MissingField
  else if has_value field then Some FieldBeforeFork else None.

(** [Result<void>]: the first error, if any. *)
Definition first_error {E} (checks : list (option E)) : option E :=
  fold_right (fun c rest => match c with Some e => Some e | None => rest end) None checks.

Definition error_if {E} (b : bool) (e : E) : option E := if b then Some e else None.

Definition forked_blobs (active : bool) (h : BlockHeader) : option BlockError :=
  if active then
    error_if (negb (has_value (bh_blob_gas_used h)) || negb (has_value (bh_excess_blob_gas h)) ||
              negb (has_value (bh_parent_beacon_block_root h))) MissingField
  else
    error_if (has_value (bh_blob_gas_used h) || has_value (bh_excess_blob_gas h) ||
              has_value (bh_parent_beacon_block_root h)) FieldBeforeFork.

Definition static_validate_header (t : Traits) (h : BlockHeader) : option BlockError :=
  let r := evm_rev t in
  first_error [
    error_if (bh_gas_limit h <? 5000) InvalidGasLimit;
    error_if (modulus 63 - 1 <? bh_gas_limit h) InvalidGasLimit;
    error_if (32 <? zlen (bh_extra_data h)) ExtraDataTooLong;
    forked (eth_ge r MONAD_ETH_LONDON) (bh_base_fee_per_gas h);
    forked (eth_ge r MONAD_ETH_PRAGUE) (bh_requests_hash h);
    forked_blobs (eth_ge r MONAD_ETH_CANCUN) h;
    forked (eth_ge r MONAD_ETH_SHANGHAI) (bh_withdrawals_root h);
    (if eth_ge r MONAD_ETH_PARIS then
       first_error [
         error_if (negb (bh_difficulty h =? 0)) PowBlockAfterMerge;
         error_if (negb (bh_nonce h =? 0)) InvalidNonce;
         error_if (negb (bh_ommers_hash h =w? NULL_LIST_HASH)) WrongOmmersHash ]
     else None) ].

(** The loop over the transactions adds in 64 bits. *)
Definition total_blob_gas (txs : list Transaction) : u64 :=
  fold_left (fun (g : u64) tx => if bool_decide (tx_type tx = eip4844) then #(g + get_total_blob_gas tx) else g)
    txs #0.

(** [None]: [value()] of a missing field throws. *)
Definition static_validate_4844 (t : Traits) (b : Block) : option (option BlockError) :=
  if eth_ge (evm_rev t) MONAD_ETH_CANCUN then
    let blob_gas_used := total_blob_gas (bk_transactions b) in
    if max_blob_gas_per_block t <? blob_gas_used then Some (Some GasAboveLimit)
    else
      used ← bh_blob_gas_used (bk_header b);
      Some (error_if (negb (used =w? blob_gas_used)) InvalidGasUsed)
  else Some None.

Definition validate_output_header (input output : BlockHeader) : option BlockError :=
  first_error [
    error_if (negb (bh_ommers_hash input =w? bh_ommers_hash output)) WrongOmmersHash;
    error_if (negb (bh_transactions_root input =w? bh_transactions_root output)) WrongMerkleRoot;
    error_if (negb (bool_decide (bh_withdrawals_root input = bh_withdrawals_root output))) WrongMerkleRoot;
    error_if (negb (bh_gas_used input =w? bh_gas_used output)) InvalidGasUsed;
    error_if (bh_gas_limit output <? bh_gas_used output) GasAboveLimit;
    error_if (negb (bool_decide (bh_logs_bloom input = bh_logs_bloom output))) WrongLogsBloom;
    error_if (negb (bh_parent_hash input =w? bh_parent_hash output)) WrongParentHash;
    error_if (negb (bh_state_root input =w? bh_state_root output)) WrongMerkleRoot;
    error_if (negb (bh_receipts_root input =w? bh_receipts_root output)) WrongMerkleRoot ].

(** ** Monad's system transactions *)
Definition SYSTEM_SENDER : address := #0x6f49a8F621353f12378d0046E7d7e4b9B249DC9e.

Inductive MonadBlockError :=
| TimestampMismatch | BaseFeeMismatch | SystemTransactionNotFirstInBlock | SystemTransactionOutOfOrder
| DuplicateSystemTransaction | UnknownSystemTransaction | InvalidRewardValue.

Inductive SyscallKind := Snapshot | OnEpochChange | Reward | Other.

#[export] Instance SyscallKind_eq_dec : EqDecision SyscallKind.
Proof. solve_decision. Defined.

Definition kind_num (k : SyscallKind) : nat :=
  match k with Snapshot => 0 | OnEpochChange => 1 | Reward => 2 | Other => 3 end.

Definition classify (tx : Transaction) : SyscallKind :=
  if (length (tx_data tx) <? 4)%nat then Other
  else
    let signature := load_be32 (tx_data tx) in
    if signature =w? selector.SNAPSHOT then Snapshot
    else if signature =w? selector.ON_EPOCH_CHANGE then OnEpochChange
    else if signature =w? selector.REWARD then Reward
    else Other.

Definition MAXIMUM_BLOCK_REWARD : u256 := #(25 * MON).

(** [seen] is the array of three booleans. *)
Fixpoint check_system_txns (seen : list bool) (last_kind : option SyscallKind) (txns : list Transaction)
    : option MonadBlockError :=
  match txns with
  | [] => None
  | tx :: rest =>
      let kind := classify tx in
      if bool_decide (kind = Other) then Some UnknownSystemTransaction
      else if default false (seen !! kind_num kind) then Some DuplicateSystemTransaction
      else if match last_kind with Some l => (kind_num kind <? kind_num l)%nat | None => false end
      then Some SystemTransactionOutOfOrder
      else if bool_decide (kind = Reward) && (MAXIMUM_BLOCK_REWARD <? tx_value tx)
      then Some InvalidRewardValue
      else check_system_txns (<[kind_num kind := true]> seen) (Some kind) rest
  end.

(** [std::find_if_not]: how many senders from the front are the system's. *)
Fixpoint first_user_sender (senders : list address) : nat :=
  match senders with
  | s :: rest => if s =w? SYSTEM_SENDER then S (first_user_sender rest) else 0
  | [] => 0
  end.

(** The outer [None] is a failed assertion. *)
Definition static_validate_monad_body (rev : monad_revision) (senders : list address) (txns : list Transaction)
    : option (option MonadBlockError) :=
  if negb (length senders =? length txns)%nat then None
  else if negb (rev_ge rev MONAD_FOUR) then Some None
  else
    let n := first_user_sender senders in
    if existsb (fun s => s =w? SYSTEM_SENDER) (drop n senders) then Some (Some SystemTransactionNotFirstInBlock)
    else Some (check_system_txns [false; false; false] None (take n txns)).

(** [header.timestamp_ns / 1'000'000'000], as [uint64_t]. *)
Definition static_validate_consensus_header (timestamp_ns : uword 128) (base_fee : option u64) (h : BlockHeader)
    : option MonadBlockError :=
  if negb (wrap 64 (timestamp_ns / 1000000000) =w? bh_timestamp h) then Some TimestampMismatch
  else match base_fee with
  | None => None
  | Some base_fee => error_if (negb (bool_decide (Some (wrap 256 base_fee) = bh_base_fee_per_gas h))) BaseFeeMismatch
  end.

(** ** The bits of a bloom *)

(** The bit a reader tests. *)
Definition bloom_bit (bloom : Bloom) (b : Z) : bool :=
  Z.testbit (default #0 (bloom !! Z.to_nat (255 - b / 8))) (Z.land b 7).

Lemma bloom_index_range hash i : 0 <= bloom_index hash i < 2048.
Proof. unfold bloom_index. change 2047 with (Z.ones 11). rewrite Z.land_ones by lia. apply Z.mod_pos_bound. lia. Qed.

Lemma land_7 b : Z.land b 7 = b mod 8.
Proof. change 7 with (Z.ones 3). by rewrite Z.land_ones. Qed.

Lemma length_set_bloom_bit b bloom : length (set_bloom_bit b bloom) = length bloom.
Proof. apply length_alter. Qed.

(** Bitwise disjunction stays within a byte. *)
Lemma uval_lor x y : 0 <= x < modulus 8 -> 0 <= y < modulus 8 -> uval (wrap 8 (Z.lor x y)) = Z.lor x y.
Proof.
  intros Hx Hy. apply uval_wrap_small. change (modulus 8) with (2 ^ 8) in *.
  assert (H : 0 <= Z.lor x y) by (apply Z.lor_nonneg; lia). split; [done|].
  assert (Hlog : forall z, 0 <= z < 2 ^ 8 -> Z.log2 z < 8).
  { intros z Hz. destruct (Z.eq_dec z 0) as [->|]; [done|]. apply Z.log2_lt_pow2; lia. }
  destruct (Z.eq_dec (Z.lor x y) 0) as [->|Hn]; [done|]. apply Z.log2_lt_pow2; [lia|].
  rewrite Z.log2_lor by lia. apply Z.max_lub_lt; by apply Hlog.
Qed.

Lemma or_bit_fits (x : u8) k : 0 <= k < 8 -> uval (wrap 8 (Z.lor x (Z.shiftl 1 k))) = Z.lor x (Z.shiftl 1 k).
Proof.
  intros Hk. apply uval_lor; [apply uword_range|]. change (modulus 8) with (2 ^ 8).
  rewrite Z.shiftl_mul_pow2, Z.mul_1_l by lia. split; [lia|]. apply Z.pow_lt_mono_r; lia.
Qed.

Lemma set_bloom_bit_spec b b' bloom :
  length bloom = 256%nat -> 0 <= b < 2048 -> 0 <= b' < 2048 ->
  bloom_bit (set_bloom_bit b bloom) b' = bloom_bit bloom b' || (b =? b').
Proof.
  intros Hl Hb Hb'. unfold bloom_bit, set_bloom_bit. rewrite !land_7.
  pose proof (Z.div_pos b 8). pose proof (Z.div_pos b' 8).
  assert (b / 8 < 256) by (apply Z.div_lt_upper_bound; lia).
  assert (b' / 8 < 256) by (apply Z.div_lt_upper_bound; lia).
  destruct (decide (Z.to_nat (255 - b / 8) = Z.to_nat (255 - b' / 8))) as [E|E].
  - rewrite <- E, list_lookup_alter_eq.
    destruct (lookup_lt_is_Some_2 bloom (Z.to_nat (255 - b / 8))) as [x Hx]; [lia|]. rewrite Hx. simpl.
    assert (0 <= b mod 8 < 8) by (apply Z.mod_pos_bound; lia). rewrite or_bit_fits by done.
    rewrite Z.lor_spec, Z.shiftl_spec by (apply Z.mod_pos_bound; lia). f_equal.
    assert (b / 8 = b' / 8) by lia. pose proof (Z.div_mod b 8). pose proof (Z.div_mod b' 8).
    destruct (Z.eqb_spec b b') as [<-|Hn]; [by rewrite Z.sub_diag|].
    assert (0 <= b' mod 8 < 8) by (apply Z.mod_pos_bound; lia).
    assert (b' mod 8 - b mod 8 <> 0) by lia.
    destruct (Z_lt_le_dec (b' mod 8 - b mod 8) 0); [by apply Z.testbit_neg_r|].
    rewrite (Z.bits_above_log2 1); [done|lia|]. change (Z.log2 1) with 0. lia.
  - rewrite list_lookup_alter_ne by done. destruct (Z.eqb_spec b b') as [<-|]; [done|]. by rewrite orb_false_r.
Qed.

Section marks.
Context (keccak256 : byte_string -> bytes32).

(** What a log puts into the bloom, and whether that sets a bit. *)
Definition log_items (log : Log) : list byte_string :=
  to_bytes 20 (log_address log) :: ((fun i : bytes32 => to_bytes 32 i) <$> log_topics log).

Definition marks (b : Z) (item : byte_string) : bool :=
  existsb (fun i => bloom_index (keccak256 item) i =? b) (seq 0 3).

Definition log_marks (b : Z) (log : Log) : bool := existsb (marks b) (log_items log).

(** A bloom that has the bits of [p], and no others. *)
Definition has_bits (bloom : Bloom) (p : Z -> bool) : Prop :=
  length bloom = 256%nat /\ forall b, 0 <= b < 2048 -> bloom_bit bloom b = p b.

Lemma has_bits_new : has_bits new_bloom (fun _ => false).
Proof.
  split; [done|]. intros b Hb. unfold bloom_bit, new_bloom. rewrite lookup_replicate_2; [by rewrite Z.bits_0|].
  pose proof (Z.div_pos b 8). lia.
Qed.

Lemma has_bits_set_3 bytes bloom p :
  has_bits bloom p -> has_bits (set_3_bits keccak256 bytes bloom) (fun b => p b || marks b bytes).
Proof.
  unfold set_3_bits, marks. cbv zeta. generalize (seq 0 3). intros l. revert bloom p.
  induction l as [|i l IH]; intros bloom p [Hl Hp]; simpl.
  - split; [done|]. intros b Hb. by rewrite orb_false_r, Hp.
  - destruct (IH (set_bloom_bit (bloom_index (keccak256 bytes) i) bloom)
      (fun b => p b || (bloom_index (keccak256 bytes) i =? b))) as [H1 H2].
    { split; [by rewrite length_set_bloom_bit|]. intros b Hb.
      rewrite set_bloom_bit_spec by (done || apply bloom_index_range). by rewrite Hp. }
    split; [done|]. intros b Hb. by rewrite H2, <- orb_assoc.
Qed.

Lemma has_bits_items items bloom p :
  has_bits bloom p ->
  has_bits (fold_left (fun bloom i => set_3_bits keccak256 i bloom) items bloom)
    (fun b => p b || existsb (marks b) items).
Proof.
  revert bloom p. induction items as [|i items IH]; intros bloom p H; simpl.
  - destruct H as [H1 H2]. split; [done|]. intros b Hb. by rewrite orb_false_r, H2.
  - destruct (IH _ _ (has_bits_set_3 i bloom p H)) as [H1 H2]. split; [done|]. intros b Hb. by rewrite H2, <- orb_assoc.
Qed.

Lemma populate_items log bloom :
  populate_bloom keccak256 log bloom = fold_left (fun bloom i => set_3_bits keccak256 i bloom) (log_items log) bloom.
Proof.
  unfold populate_bloom, log_items. cbn [fold_left]. generalize (set_3_bits keccak256 (to_bytes 20 (log_address log)) bloom).
  induction (log_topics log) as [|i l IH]; intros bl; [done|]. cbn [fold_left fmap list_fmap]. apply IH.
Qed.

(** A receipt as the executor makes it. *)
Definition issued (r : Receipt) : Prop :=
  exists status gas_used type logs, r = fold_left (add_log keccak256) logs (mk_receipt new_bloom status gas_used type []).

Lemma add_logs_bits logs r p :
  has_bits (rc_bloom r) p ->
  has_bits (rc_bloom (fold_left (add_log keccak256) logs r)) (fun b => p b || existsb (log_marks b) logs) /\
  rc_logs (fold_left (add_log keccak256) logs r) = rc_logs r ++ logs.
Proof.
  revert r p. induction logs as [|l logs IH]; intros r p H; simpl.
  - rewrite app_nil_r. split; [|done]. destruct H as [H1 H2]. split; [done|]. intros b Hb. by rewrite orb_false_r, H2.
  - destruct (IH (add_log keccak256 r l) (fun b => p b || log_marks b l)) as [[H1 H2] H3].
    { unfold add_log. cbn [rc_bloom]. rewrite populate_items. by apply has_bits_items. }
    split; [split; [done|]|by rewrite H3; unfold add_log; cbn [rc_logs]; rewrite <- app_assoc]. intros b Hb. by rewrite H2, <- orb_assoc.
Qed.

Lemma issued_bits r : issued r -> has_bits (rc_bloom r) (fun b => existsb (log_marks b) (rc_logs r)).
Proof.
  intros (status & gas_used & type & logs & ->).
  destruct (add_logs_bits logs (mk_receipt new_bloom status gas_used type []) (fun _ => false)) as [H ->].
  { apply has_bits_new. }
  exact H.
Qed.

Lemma has_bits_or x y p q : has_bits x p -> has_bits y q -> has_bits (or_bloom x y) (fun b => p b || q b).
Proof.
  intros [Hx Hp] [Hy Hq]. split; [unfold or_bloom; rewrite length_zip_with; lia|]. intros b Hb.
  rewrite <- Hp, <- Hq by done. unfold bloom_bit, or_bloom. rewrite lookup_zip_with.
  pose proof (Z.div_pos b 8). set (k := Z.to_nat (255 - b / 8)).
  destruct (lookup_lt_is_Some_2 x k) as [u Eu]; [lia|]. destruct (lookup_lt_is_Some_2 y k) as [v Ev]; [lia|].
  rewrite Eu, Ev. simpl. rewrite <- Z.lor_spec. f_equal. apply uval_lor; apply uword_range.
Qed.

(** The bloom of a block has exactly the bits of its logs: a bit is set if and
    only if the address or a topic of some log of some receipt hashes to it. *)
Theorem block_bloom_exact receipts b :
  Forall issued receipts -> 0 <= b < 2048 ->
  bloom_bit (compute_bloom receipts) b = existsb (fun r => existsb (log_marks b) (rc_logs r)) receipts.
Proof.
  intros H Hb. unfold compute_bloom.
  assert (Hg : forall bl p, has_bits bl p -> has_bits (fold_left (fun bloom r => or_bloom bloom (rc_bloom r)) receipts bl)
    (fun b => p b || existsb (fun r => existsb (log_marks b) (rc_logs r)) receipts)).
  { clear b Hb. induction H as [|r rs Hr _ IH]; intros bl p Hbl; simpl.
    - destruct Hbl as [H1 H2]. split; [done|]. intros b Hb. by rewrite orb_false_r, H2.
    - destruct (IH _ _ (has_bits_or _ _ _ _ Hbl (issued_bits r Hr))) as [H1 H2].
      split; [done|]. intros b Hb. by rewrite H2, <- orb_assoc. }
  by apply (Hg _ _ has_bits_new).
Qed.
End marks.

(** ** System transactions *)
Definition system_txn_ok (tx : Transaction) : Prop :=
  classify tx <> Other /\ (classify tx = Reward -> tx_value tx <= MAXIMUM_BLOCK_REWARD).

Definition kinds (txns : list Transaction) : list nat := (fun tx => kind_num (classify tx)) <$> txns.

(** The kinds after the last one have not been seen. *)
Definition seen_upto (seen : list bool) (last : option SyscallKind) : Prop :=
  length seen = 3%nat /\
  match last with
  | None => forall k, seen !! k <> Some true
  | Some l => seen !! kind_num l = Some true /\ forall k, (kind_num l < k)%nat -> seen !! k <> Some true
  end.

Lemma seen_upto_insert seen last kind :
  seen_upto seen last -> kind <> Other ->
  (forall l, last = Some l -> (kind_num l < kind_num kind)%nat) ->
  seen_upto (<[kind_num kind := true]> seen) (Some kind).
Proof.
  intros [Hl Hs] Hk Ho. split; [by rewrite length_insert|]. split.
  - apply list_lookup_insert_eq. rewrite Hl. destruct kind; simpl; [lia..|done].
  - intros k Hlt. rewrite list_lookup_insert_ne by lia. destruct last as [l|]; [|apply Hs].
    apply Hs. specialize (Ho l eq_refl). lia.
Qed.

Lemma not_seen seen last kind :
  seen_upto seen last -> kind <> Other ->
  (default false (seen !! kind_num kind) = false /\
   match last with Some l => (kind_num kind <? kind_num l)%nat | None => false end = false) <->
  (forall l, last = Some l -> (kind_num l < kind_num kind)%nat).
Proof.
  intros [Hl Hs] Hk. destruct (lookup_lt_is_Some_2 seen (kind_num kind)) as [b Eb].
  { rewrite Hl. destruct kind; simpl; [lia..|done]. }
  rewrite Eb. simpl. destruct last as [l|].
  - destruct Hs as [H1 H2]. split.
    + intros [-> Hn%Nat.ltb_ge] l' [= <-]. destruct (decide (kind_num l = kind_num kind)) as [E|]; [|lia].
      rewrite E, Eb in H1. done.
    + intros H. specialize (H l eq_refl). split; [|apply Nat.ltb_ge; lia].
      destruct b; [|done]. by destruct (H2 _ H).
  - split; [done|]. intros _. split; [|done]. destruct b; [|done]. by destruct (Hs (kind_num kind)).
Qed.

Lemma check_system_txns_spec seen last txns :
  seen_upto seen last ->
  check_system_txns seen last txns = None <->
  Forall system_txn_ok txns /\ StronglySorted lt (kinds txns) /\
  (forall l, last = Some l -> Forall (lt (kind_num l)) (kinds txns)).
Proof.
  revert seen last. induction txns as [|tx txns IH]; intros seen last Hs; cbn [check_system_txns].
  { split; [|done]. intros _. split_and!; [done|constructor|]. intros. constructor. }
  cbv zeta. unfold kinds. rewrite !fmap_cons, Forall_cons. fold (kinds txns).
  destruct (decide (classify tx = Other)) as [Eo|Hn].
  { rewrite bool_decide_eq_true_2 by done. split; [done|]. intros [[[Hx _] _] _]. done. }
  rewrite bool_decide_eq_false_2 by done. pose proof (not_seen seen last (classify tx) Hs Hn) as Hns.
  destruct (default false (seen !! kind_num (classify tx))) eqn:E1.
  { split; [done|]. intros (_ & _ & H). destruct Hns as [_ Hns]. destruct Hns as [? _]; [|done].
    intros l Hl. specialize (H l Hl). by inversion H. }
  destruct (match last with Some l => _ | None => false end) eqn:E2.
  { split; [done|]. intros (_ & _ & H). destruct Hns as [_ Hns]. destruct Hns as [_ ?]; [|done].
    intros l Hl. specialize (H l Hl). by inversion H. }
  destruct Hns as [Hlast _]. specialize (Hlast (conj eq_refl eq_refl)).
  assert (Hval : bool_decide (classify tx = Reward) && (MAXIMUM_BLOCK_REWARD <? tx_value tx) = false <-> system_txn_ok tx).
  { unfold system_txn_ok. case_bool_decide as Er; simpl; [|split; [by intros _; split|done]].
    rewrite Z.ltb_ge. split; [by split|intros [_ H]; by apply H]. }
  destruct (_ && _) eqn:E3.
  { split; [done|]. intros [[Hx _] _]. by apply Hval in Hx. }
  rewrite IH by (by apply (seen_upto_insert seen last)). split.
  - intros (H1 & H2 & H3). specialize (H3 _ eq_refl). split; [split; [by apply Hval|done]|]. split; [by constructor|].
    intros l Hl. specialize (Hlast l Hl). constructor; [done|]. eapply Forall_impl; [exact H3|]. intros k Hk. simpl in *. lia.
  - intros ([_ H1] & H2 & _). apply StronglySorted_inv in H2 as [H2 H3]. split; [done|]. split; [done|]. by intros l [= <-].
Qed.

Lemma first_user_split senders users n :
  senders = replicate n SYSTEM_SENDER ++ users -> SYSTEM_SENDER ∉ users -> first_user_sender senders = n.
Proof.
  revert senders. induction n as [|n IH]; intros senders -> Hu; cbn [replicate app first_user_sender].
  - destruct users as [|u users]; [done|]. cbn [first_user_sender]. destruct (weqb_spec u SYSTEM_SENDER) as [->|]; [|done].
    destruct Hu. by left.
  - destruct (weqb_spec SYSTEM_SENDER SYSTEM_SENDER) as [_|Hn]; [|by destruct Hn]. f_equal. by apply IH.
Qed.

Lemma first_user_take senders :
  take (first_user_sender senders) senders = replicate (first_user_sender senders) SYSTEM_SENDER.
Proof.
  induction senders as [|s rest IH]; [done|]. cbn [first_user_sender].
  destruct (weqb_spec s SYSTEM_SENDER) as [->|]; [|done]. cbn [take replicate]. by rewrite IH.
Qed.

Lemma existsb_system l : existsb (fun s => s =w? SYSTEM_SENDER) l = false <-> SYSTEM_SENDER ∉ l.
Proof.
  split.
  - intros H Hin. assert (Ht : existsb (fun s => s =w? SYSTEM_SENDER) l = true); [|congruence].
    apply existsb_exists. exists SYSTEM_SENDER. split; [by apply list_elem_of_In|].
    by destruct (weqb_spec SYSTEM_SENDER SYSTEM_SENDER).
  - intros H. apply not_true_iff_false. intros (s & Hs & E)%existsb_exists. apply list_elem_of_In in Hs.
    destruct (weqb_spec s SYSTEM_SENDER) as [->|]; [by apply H|done].
Qed.

(** C30: since MONAD_FOUR a block body is accepted exactly if the transactions of the
    system sender are its first ones, all of them known system calls, in the order
    snapshot, epoch change, reward with each kind at most once, and the reward at
    most 25 MON. *)
Theorem monad_body_exact rev senders txns :
  rev_ge rev MONAD_FOUR = true -> length senders = length txns ->
  static_validate_monad_body rev senders txns = Some None <->
  (exists n users, senders = replicate n SYSTEM_SENDER ++ users /\ (SYSTEM_SENDER ∉ users) /\
    Forall system_txn_ok (take n txns) /\ StronglySorted lt (kinds (take n txns))).
Proof.
  intros Hrev Hlen. unfold static_validate_monad_body. rewrite Hlen, Nat.eqb_refl, Hrev. cbn [negb]. cbv zeta.
  assert (Hs : seen_upto [false; false; false] None).
  { split; [done|]. intros k. by destruct k as [|[|[|k]]]. }
  pose proof (fun txs => check_system_txns_spec _ _ txs Hs) as Hc. split.
  - destruct (existsb _ _) eqn:E; [done|]. intros [= (H1 & H2 & _)%Hc].
    exists (first_user_sender senders), (drop (first_user_sender senders) senders).
    split_and!; [|by apply existsb_system|done|done]. by rewrite <- first_user_take, take_drop.
  - intros (n & users & E & Hu & H1 & H2). rewrite (first_user_split senders users n E Hu).
    replace (drop n senders) with users.
    2:{ subst senders. rewrite drop_app_length'; [done|]. by rewrite length_replicate. }
    rewrite (proj2 (existsb_system users) Hu). f_equal. by apply Hc.
Qed.

(** ** Witnesses *)
Definition demo_hash (b : byte_string) : bytes32 := #(bytes_val b * (2 ^ 236 + 2 ^ 224)).
Definition demo_log : Log := mk_log #5 [ #7; #9 ] [ #1 ].
Definition demo_receipt : Receipt := fold_left (add_log demo_hash) [demo_log] (mk_receipt new_bloom #1 #21000 legacy []).

Lemma block_bloom_exact_witness :
  bloom_bit (compute_bloom [demo_receipt; demo_receipt]) 7 =
    existsb (fun r => existsb (log_marks demo_hash 7) (rc_logs r)) [demo_receipt; demo_receipt].
Proof.
  apply block_bloom_exact; [|lia]. repeat constructor; exists #1, #21000, legacy, [demo_log]; reflexivity.
Defined.

(** A block that starts with a snapshot and a reward. *)
Definition system_txn (data : byte_string) (value : u256) : Transaction :=
  mk_tx (tx_sc demo_tx) #0 #0 #0 value (Some #0x1000) legacy data [] #0 #0 [] [].
Definition demo_body : list Transaction :=
  [system_txn (to_bytes 4 selector.SNAPSHOT) #0; system_txn (to_bytes 4 selector.REWARD) #25; demo_tx].
Definition demo_senders : list address := [SYSTEM_SENDER; SYSTEM_SENDER; #9].

Lemma monad_body_exact_witness :
  static_validate_monad_body MONAD_FIVE demo_senders demo_body = Some None /\
  exists n users, demo_senders = replicate n SYSTEM_SENDER ++ users /\ (SYSTEM_SENDER ∉ users) /\
    Forall system_txn_ok (take n demo_body) /\ StronglySorted lt (kinds (take n demo_body)).
Proof.
  split; [vm_compute; reflexivity|]. apply (monad_body_exact MONAD_FIVE); vm_compute; reflexivity.
Defined.
