(* ===== verification/BlockRlp.v ===== *)
(** * Blocks and receipts on the wire

    Models src/category/execution/ethereum/core/rlp/{block,receipt,
    withdrawal}_rlp.cpp: the RLP encodings of headers, blocks, withdrawals, logs
    and receipts and their decoders, and the body checks of
    ethereum/validate_block.cpp that hash encoded headers.  Decoding inverts
    encoding for every header that passes validation, every receipt, and every
    block of such headers and well-formed transactions. *)
From S2P Require Import Prelude UInt256 Prog Abi StakingVars Transaction Rlp TransactionRlp Block.
#[local] Open Scope dec_scope.

(** ** Encoding *)
Definition encode_withdrawal (w : Withdrawal) : byte_string :=
  encode_list2 (encode_unsigned (wd_index w) ++ encode_unsigned (wd_validator_index w) ++
    encode_address (Some (wd_recipient w)) ++ encode_unsigned (wd_amount w)).

Definition encode_topics (topics : list bytes32) : byte_string :=
  encode_list2 (mjoin (encode_bytes32 <$> topics)).

Definition encode_log (log : Log) : byte_string :=
  encode_list2 (encode_address (Some (log_address log)) ++ encode_topics (log_topics log) ++
    encode_string2 (log_data log)).

Definition encode_bloom (bloom : Bloom) : byte_string := encode_string2 bloom.

Definition encode_receipt (r : Receipt) : byte_string :=
  let receipt_bytes := encode_list2 (encode_unsigned (rc_status r) ++ encode_unsigned (rc_gas_used r) ++
    encode_bloom (rc_bloom r) ++ encode_list2 (mjoin (encode_log <$> rc_logs r))) in
  if bool_decide (rc_type r = legacy) then receipt_bytes else type_byte (rc_type r) :: receipt_bytes.

(** A field that is written if it is there. *)
Definition encode_if {A} (encode : A -> byte_string) (x : option A) : byte_string :=
  match x with Some x => encode x | None => [] end.

Definition encode_block_header (h : BlockHeader) : byte_string :=
  encode_list2 (encode_bytes32 (bh_parent_hash h) ++ encode_bytes32 (bh_ommers_hash h) ++
    encode_address (Some (bh_beneficiary h)) ++ encode_bytes32 (bh_state_root h) ++
    encode_bytes32 (bh_transactions_root h) ++ encode_bytes32 (bh_receipts_root h) ++
    encode_bloom (bh_logs_bloom h) ++ encode_unsigned (bh_difficulty h) ++ encode_unsigned (bh_number h) ++
    encode_unsigned (bh_gas_limit h) ++ encode_unsigned (bh_gas_used h) ++ encode_unsigned (bh_timestamp h) ++
    encode_string2 (bh_extra_data h) ++ encode_bytes32 (bh_prev_randao h) ++
    encode_string2 (to_bytes 8 (bh_nonce h)) ++
    encode_if encode_unsigned (bh_base_fee_per_gas h) ++ encode_if encode_bytes32 (bh_withdrawals_root h) ++
    encode_if encode_unsigned (bh_blob_gas_used h) ++ encode_if encode_unsigned (bh_excess_blob_gas h) ++
    encode_if encode_bytes32 (bh_parent_beacon_block_root h) ++ encode_if encode_bytes32 (bh_requests_hash h)).

Definition encode_ommers (ommers : list BlockHeader) : byte_string :=
  encode_list2 (mjoin (encode_block_header <$> ommers)).

(** [None]: a transaction cannot be encoded. *)
Definition encode_block_transaction (tx : Transaction) : option byte_string :=
  enc ← encode_transaction tx;
  Some (if bool_decide (tx_type tx = legacy) then enc else encode_string2 enc).

Definition encode_block (b : Block) : option byte_string :=
  txs ← mapM encode_block_transaction (bk_transactions b);
  Some (encode_list2 (encode_block_header (bk_header b) ++ encode_list2 (mjoin txs) ++
    encode_ommers (bk_ommers b) ++
    encode_if (fun ws => encode_list2 (mjoin (encode_withdrawal <$> ws))) (bk_withdrawals b))).

(** ** Decoding *)

(** [payload.size() > 0]. *)
Definition dmore : decoder bool := fun enc => Decoded (negb (bool_decide (enc = []))) enc.

Definition decode_withdrawal : decoder Withdrawal := fun enc =>
  match enc with
  | [] => Decoded (mk_withdrawal #0 #0 #0 #0) []
  | _ =>
      (payload <- parse_list_metadata ;;
       dwithin payload (
         index <- decode_unsigned 64 ;;
         validator_index <- decode_unsigned 64 ;;
         recipient <- decode_address ;;
         amount <- decode_unsigned 64 ;;
         dend ;;
         dret (mk_withdrawal index validator_index amount recipient))) enc
  end.

Definition decode_withdrawal_list : decoder (list Withdrawal) :=
  payload <- parse_list_metadata ;;
  dwithin payload (decode_while decode_withdrawal).

Definition decode_bloom : decoder Bloom := decode_byte_string_fixed 256.

Definition decode_topics : decoder (list bytes32) :=
  payload <- parse_list_metadata ;;
  dwithin payload (decode_while decode_bytes32).

Definition decode_log : decoder Log :=
  payload <- parse_list_metadata ;;
  dwithin payload (
    a <- decode_address ;;
    topics <- decode_topics ;;
    data <- decode_string ;;
    dend ;;
    dret (mk_log a topics data)).

Definition decode_logs : decoder (list Log) :=
  payload <- parse_list_metadata ;;
  dwithin payload (decode_while decode_log).

(** The type is set by the caller. *)
Definition decode_untyped_receipt (type : TransactionType) : decoder Receipt :=
  payload <- parse_list_metadata ;;
  dwithin payload (
    status <- decode_unsigned 64 ;;
    gas_used <- decode_unsigned 64 ;;
    bloom <- decode_bloom ;;
    logs <- decode_logs ;;
    dend ;;
    dret (mk_receipt bloom status gas_used type logs)).

(** The switch on the type comes after the body has been decoded. *)
Definition decode_receipt : decoder Receipt := fun enc =>
  match enc with
  | [] => DecodeFail InputTooShort
  | first :: rest =>
      if first <? 0xc0 then
        (r <- decode_untyped_receipt legacy ;;
         match type_of_byte first with
         | None | Some legacy => dfail InvalidTxnType
         | Some ty => dret (mk_receipt (rc_bloom r) (rc_status r) (rc_gas_used r) ty (rc_logs r))
         end) rest
      else decode_untyped_receipt legacy enc
  end.

(** The fields of later forks: base fee, withdrawals root, the three of Cancun, the
    requests hash. *)
Definition decode_header_tail : decoder (option u256 * option bytes32 * option (u64 * u64 * bytes32) * option bytes32) :=
  more <- dmore ;;
  if negb more then dret (None, None, None, None)
  else
    base_fee_per_gas <- decode_unsigned 256 ;;
    more <- dmore ;;
    if negb more then dret (Some base_fee_per_gas, None, None, None)
    else
      withdrawals_root <- decode_bytes32 ;;
      more <- dmore ;;
      if negb more then dret (Some base_fee_per_gas, Some withdrawals_root, None, None)
      else
        blob_gas_used <- decode_unsigned 64 ;;
        excess_blob_gas <- decode_unsigned 64 ;;
        parent_beacon_block_root <- decode_bytes32 ;;
        more <- dmore ;;
        let blobs := (blob_gas_used, excess_blob_gas, parent_beacon_block_root) in
        if negb more then dret (Some base_fee_per_gas, Some withdrawals_root, Some blobs, None)
        else
          requests_hash <- decode_bytes32 ;;
          dret (Some base_fee_per_gas, Some withdrawals_root, Some blobs, Some requests_hash).

Definition decode_block_header : decoder BlockHeader :=
  payload <- parse_list_metadata ;;
  dwithin payload (
    parent_hash <- decode_bytes32 ;;
    ommers_hash <- decode_bytes32 ;;
    beneficiary <- decode_address ;;
    state_root <- decode_bytes32 ;;
    transactions_root <- decode_bytes32 ;;
    receipts_root <- decode_bytes32 ;;
    logs_bloom <- decode_bloom ;;
    difficulty <- decode_unsigned 256 ;;
    number <- decode_unsigned 64 ;;
    gas_limit <- decode_unsigned 64 ;;
    gas_used <- decode_unsigned 64 ;;
    timestamp <- decode_unsigned 64 ;;
    extra_data <- decode_string ;;
    dreject (32 <? zlen extra_data) Overflow ;;
    prev_randao <- decode_bytes32 ;;
    nonce <- decode_byte_string_fixed 8 ;;
    tail <- decode_header_tail ;;
    dend ;;
    let '(base_fee_per_gas, withdrawals_root, blobs, requests_hash) := tail in
    dret (mk_header logs_bloom parent_hash ommers_hash state_root transactions_root receipts_root prev_randao
      difficulty number gas_limit gas_used timestamp #(bytes_val nonce) extra_data beneficiary base_fee_per_gas
      withdrawals_root ((fun b => b.1.1) <$> blobs) ((fun b => b.1.2) <$> blobs) (snd <$> blobs) requests_hash)).

Definition decode_block_header_vector : decoder (list BlockHeader) :=
  payload <- parse_list_metadata ;;
  dwithin payload (decode_while decode_block_header).

Definition decode_block : decoder Block :=
  payload <- parse_list_metadata ;;
  dwithin payload (
    header <- decode_block_header ;;
    transactions <- decode_transaction_list ;;
    ommers <- decode_block_header_vector ;;
    more <- dmore ;;
    withdrawals <- (if more then ws <- decode_withdrawal_list ;; dret (Some ws) else dret None) ;;
    dend ;;
    dret (mk_block header transactions ommers withdrawals)).

(** ** Body checks *)
Section body.
Context (keccak256 : byte_string -> bytes32).
(** [Chain::get_revision]. *)
Context (get_revision : u64 -> u64 -> monad_eth_revision).

Definition compute_ommers_hash (ommers : list BlockHeader) : bytes32 :=
  match ommers with [] => NULL_LIST_HASH | _ => keccak256 (encode_ommers ommers) end.

(** The revisions of [SWITCH_EVM_TRAITS]; another one aborts. *)
Definition switch_evm_traits (rev : monad_eth_revision) : bool :=
  eth_ge rev MONAD_ETH_PETERSBURG && negb (eth_ge rev MONAD_ETH_EXPERIMENTAL).

(** [None] is an abort. *)
Fixpoint validate_ommer_headers (ommers : list BlockHeader) : option (option BlockError) :=
  match ommers with
  | [] => Some None
  | ommer :: rest =>
      let rev := get_revision (bh_number ommer) (bh_timestamp ommer) in
      if negb (switch_evm_traits rev) then None
      else match static_validate_header (EvmTraits rev) ommer with
      | Some e => Some (Some e)
      | None => validate_ommer_headers rest
      end
  end.

Definition static_validate_ommers (t : Traits) (b : Block) : option (option BlockError) :=
  if negb (compute_ommers_hash (bk_ommers b) =w? bh_ommers_hash (bk_header b)) then Some (Some WrongOmmersHash)
  else if eth_ge (evm_rev t) MONAD_ETH_PARIS && negb (length (bk_ommers b) =? 0)%nat then Some (Some TooManyOmmers)
  else if (2 <? length (bk_ommers b))%nat then Some (Some TooManyOmmers)
  else if (length (bk_ommers b) =? 2)%nat && bool_decide (bk_ommers b !! 0%nat = bk_ommers b !! 1%nat)
  then Some (Some DuplicateOmmers)
  else validate_ommer_headers (bk_ommers b).

Definition static_validate_body (t : Traits) (b : Block) : option (option BlockError) :=
  match forked (eth_ge (evm_rev t) MONAD_ETH_SHANGHAI) (bk_withdrawals b) with
  | Some e => Some (Some e)
  | None =>
      r ← static_validate_ommers t b;
      match r with Some e => Some (Some e) | None => static_validate_4844 t b end
  end.

Definition static_validate_block (t : Traits) (b : Block) : option (option BlockError) :=
  match static_validate_header t (bk_header b) with
  | Some e => Some (Some e)
  | None => static_validate_body t b
  end.
End body.

(** ** Reading back what was written *)
Lemma closes_bind_closes {A C} (m : decoder A) (k : A -> decoder C) x y l :
  closes m x l -> closes (k x) y [] -> closes (dbind m k) y l.
Proof. intros H1 H2. unfold closes, dbind. rewrite H1. exact H2. Qed.

Lemma more_nonempty {A} (k : bool -> decoder A) enc : enc <> [] -> dbind dmore k enc = k true enc.
Proof. intros H. unfold dbind, dmore. by rewrite bool_decide_eq_false_2. Qed.

Lemma nonempty_app {A} (l l' : list A) : l <> [] -> l ++ l' <> [].
Proof. by destruct l. Qed.

Lemma reads_bytes k (s : byte_string) :
  length s = k -> Z.of_nat k < modulus 32 -> reads (decode_byte_string_fixed k) s (encode_string2 s).
Proof.
  intros Hl Hk rest. unfold decode_byte_string_fixed, dbind. rewrite parse_encode_string by (unfold zlen; lia).
  by rewrite Hl, Nat.eqb_refl.
Qed.

Lemma reads_bloom bloom : length bloom = 256%nat -> reads decode_bloom bloom (encode_bloom bloom).
Proof. intros H. by apply reads_bytes. Qed.

Lemma reads_nonce (n : u64) : reads (decode_byte_string_fixed 8) (to_bytes 8 n) (encode_string2 (to_bytes 8 n)).
Proof. apply (reads_fixed 8). lia. Qed.
#[export] Hint Resolve reads_nonce : rlp.

(** *** Withdrawals *)
Lemma encode_string_size s : zlen (encode_string2 s) <= 5 + zlen s.
Proof.
  unfold encode_string2. destruct (_ && _); [lia|]. pose proof (zlen_nonneg s). destruct (55 <? _).
  - rewrite zlen_cons, zlen_app. pose proof (length_compact 4 (wrap 32 (zlen s))) as H4.
    change (8 * N.of_nat 4)%N with 32%N in H4. lia.
  - rewrite zlen_cons. lia.
Qed.

Lemma encode_unsigned_size k (x : uword (8 * N.of_nat k)) : zlen (encode_unsigned x) <= 5 + Z.of_nat k.
Proof. pose proof (encode_string_size (to_big_compact x)). pose proof (length_compact k x). unfold encode_unsigned. lia. Qed.
Lemma encode_u64_size (x : u64) : zlen (encode_unsigned x) <= 13.
Proof. apply (encode_unsigned_size 8 x). Qed.
Lemma encode_u256_size (x : u256) : zlen (encode_unsigned x) <= 37.
Proof. apply (encode_unsigned_size 32 x). Qed.
Lemma encode_fixed_size k z : zlen (encode_string2 (to_bytes k z)) <= 5 + Z.of_nat k.
Proof. pose proof (encode_string_size (to_bytes k z)). unfold zlen at 2 in H. rewrite length_to_bytes in H. lia. Qed.

Lemma encode_address_size (a : address) : zlen (encode_address (Some a)) <= 25.
Proof. apply (encode_fixed_size 20). Qed.
Lemma encode_bytes32_size (x : bytes32) : zlen (encode_bytes32 x) <= 37.
Proof. apply (encode_fixed_size 32). Qed.

Lemma withdrawal_small w : small (encode_unsigned (wd_index w) ++ encode_unsigned (wd_validator_index w) ++
    encode_address (Some (wd_recipient w)) ++ encode_unsigned (wd_amount w)).
Proof.
  unfold small. rewrite !zlen_app. pose proof (encode_u64_size (wd_index w)).
  pose proof (encode_u64_size (wd_validator_index w)). pose proof (encode_u64_size (wd_amount w)).
  pose proof (encode_address_size (wd_recipient w)). assert (1000 < modulus 63) by done. lia.
Qed.

Lemma reads_withdrawal w : reads decode_withdrawal w (encode_withdrawal w).
Proof.
  intros rest. unfold decode_withdrawal. destruct (encode_withdrawal w ++ rest) as [|b l] eqn:E.
  { apply app_nil in E as [E _]. by apply encode_list_nonempty in E. }
  rewrite <- E. clear E b l. revert rest. apply reads_list; [apply withdrawal_small|]. apply closes_reads_within.
  read_fields. by destruct w.
Qed.

Lemma reads_withdrawals ws :
  small (encode_list2 (mjoin (encode_withdrawal <$> ws))) ->
  reads decode_withdrawal_list ws (encode_list2 (mjoin (encode_withdrawal <$> ws))).
Proof.
  intros Hs%small_list. apply reads_list; [done|]. apply closes_reads_within, closes_while. intros w _.
  split; [apply reads_withdrawal|apply encode_list_nonempty].
Qed.

(** *** Receipts *)
Lemma reads_topics topics : small (encode_topics topics) -> reads decode_topics topics (encode_topics topics).
Proof.
  intros Hs%small_list. apply reads_list; [done|]. apply closes_reads_within, closes_while. intros x _.
  split; [apply reads_bytes32|apply encode_string_nonempty].
Qed.

Definition log_ok (log : Log) : Prop := zlen (log_data log) < modulus 32.

Lemma reads_log log : log_ok log -> small (encode_log log) -> reads decode_log log (encode_log log).
Proof.
  intros Hd Hs%small_list. pose proof Hs as [_ [Ht _]%small_app]%small_app. apply reads_list; [done|].
  apply closes_reads_within. read_fields. eapply closes_bind; [by apply reads_topics|].
  eapply closes_bind_last; [by apply reads_string|]. by destruct log.
Qed.

Lemma reads_logs logs :
  Forall log_ok logs -> small (encode_list2 (mjoin (encode_log <$> logs))) ->
  reads decode_logs logs (encode_list2 (mjoin (encode_log <$> logs))).
Proof.
  intros Hl Hs%small_list. apply reads_list; [done|]. apply closes_reads_within, closes_while. intros x Hx.
  split; [|apply encode_list_nonempty]. rewrite Forall_forall in Hl. apply reads_log; [by apply Hl|].
  by apply (small_mjoin _ logs).
Qed.

Lemma reads_untyped_receipt r type :
  length (rc_bloom r) = 256%nat -> Forall log_ok (rc_logs r) ->
  let enc := encode_unsigned (rc_status r) ++ encode_unsigned (rc_gas_used r) ++
    encode_bloom (rc_bloom r) ++ encode_list2 (mjoin (encode_log <$> rc_logs r)) in
  small enc ->
  reads (decode_untyped_receipt type) (mk_receipt (rc_bloom r) (rc_status r) (rc_gas_used r) type (rc_logs r))
    (encode_list2 enc).
Proof.
  intros Hb Hl enc Hs. apply reads_list; [done|]. apply closes_reads_within. subst enc.
  pose proof Hs as [_ [_ [_ Hs']%small_app]%small_app]%small_app.
  read_fields. eapply closes_bind; [by apply reads_bloom|]. eapply closes_bind_last; [by apply reads_logs|].
  done.
Qed.

(** What [encode_receipt] writes, [decode_receipt] reads back as the same
    receipt. *)
Theorem receipt_round_trip r rest :
  length (rc_bloom r) = 256%nat -> Forall log_ok (rc_logs r) -> zlen (encode_receipt r) < modulus 63 ->
  decode_receipt (encode_receipt r ++ rest) = Decoded r rest.
Proof.
  intros Hb Hl Hs. unfold encode_receipt in *. cbv zeta in *. case_bool_decide as E.
  - apply small_list in Hs as Hs'. pose proof (reads_untyped_receipt r legacy Hb Hl Hs' rest) as Hr. revert Hr.
    set (p := encode_unsigned _ ++ _). clearbody p. unfold decode_receipt.
    destruct (list_head p) as (b & l & -> & Hh). cbn [app]. rewrite (proj2 (Z.ltb_ge _ _)) by lia.
    intros ->. rewrite <- E. by destruct r.
  - apply small_cons, small_list in Hs as Hs'. pose proof (reads_untyped_receipt r legacy Hb Hl Hs' rest) as Hr.
    unfold decode_receipt. cbn [app]. rewrite (proj2 (Z.ltb_lt _ _)) by (by destruct (rc_type r)).
    unfold dbind. rewrite Hr, type_of_type_byte. cbn [rc_bloom rc_status rc_gas_used rc_logs].
    destruct (rc_type r) eqn:Et; [done|..]; unfold dret; rewrite <- Et; by destruct r.
Qed.

(** *** Headers *)

(** Later fields are there only if the earlier ones are. *)
Record fields_nested (h : BlockHeader) : Prop := mk_fields_nested {
  fn_root : is_Some (bh_withdrawals_root h) -> is_Some (bh_base_fee_per_gas h);
  fn_blob : is_Some (bh_blob_gas_used h) -> is_Some (bh_withdrawals_root h);
  fn_excess : is_Some (bh_excess_blob_gas h) <-> is_Some (bh_blob_gas_used h);
  fn_beacon : is_Some (bh_parent_beacon_block_root h) <-> is_Some (bh_blob_gas_used h);
  fn_requests : is_Some (bh_requests_hash h) -> is_Some (bh_blob_gas_used h);
}.

Record header_ok (h : BlockHeader) : Prop := mk_header_ok {
  ho_bloom : length (bh_logs_bloom h) = 256%nat;
  ho_extra : zlen (bh_extra_data h) <= 32;
  ho_nested : fields_nested h;
}.

Lemma first_error_None {E} (checks : list (option E)) : first_error checks = None <-> Forall (fun c => c = None) checks.
Proof.
  induction checks as [|[e|] checks IH]; simpl; [by split| |].
  - split; [done|]. intros H. by inversion H.
  - rewrite Forall_cons. unfold first_error in IH. rewrite IH. naive_solver.
Qed.

Lemma forked_None {A} active (field : option A) : forked active field = None -> is_Some field <-> active = true.
Proof. unfold forked. destruct active, field; simpl; try done; intros _; split; done || eauto. Qed.

Lemma forked_blobs_None active h :
  forked_blobs active h = None ->
  (is_Some (bh_blob_gas_used h) <-> active = true) /\ (is_Some (bh_excess_blob_gas h) <-> active = true) /\
  (is_Some (bh_parent_beacon_block_root h) <-> active = true).
Proof.
  unfold forked_blobs, error_if. destruct active, (bh_blob_gas_used h), (bh_excess_blob_gas h),
    (bh_parent_beacon_block_root h); simpl; try done; intros _; split_and!; split; done || eauto.
Qed.

Lemma eth_ge_trans r a b : eth_num b <= eth_num a -> eth_ge r a = true -> eth_ge r b = true.
Proof. unfold eth_ge. rewrite !Z.leb_le. lia. Qed.

(** A header that passes validation can be written and read back. *)
Lemma valid_header_ok t h : length (bh_logs_bloom h) = 256%nat -> static_validate_header t h = None -> header_ok h.
Proof.
  intros Hb H. unfold static_validate_header in H. cbv zeta in H. apply first_error_None in H.
  repeat match goal with H : Forall _ (_ :: _) |- _ => apply Forall_cons in H as [? H] end.
  apply forked_None in H3, H4, H6. apply forked_blobs_None in H5 as (H5 & H5' & H5'').
  split; [done| |split].
  - unfold error_if in H2. destruct (Z.ltb_spec 32 (zlen (bh_extra_data h))); [done|lia].
  - rewrite H6, H3. by apply eth_ge_trans.
  - rewrite H5, H6. by apply eth_ge_trans.
  - by rewrite H5, H5'.
  - by rewrite H5, H5''.
  - rewrite H5, H4. by apply eth_ge_trans.
Qed.

Definition header_tail (h : BlockHeader) : option u256 * option bytes32 * option (u64 * u64 * bytes32) * option bytes32 :=
  (bh_base_fee_per_gas h, bh_withdrawals_root h,
   match bh_blob_gas_used h, bh_excess_blob_gas h, bh_parent_beacon_block_root h with
   | Some b, Some e, Some r => Some (b, e, r)
   | _, _, _ => None
   end, bh_requests_hash h).

Lemma encode_bytes32_more (x : bytes32) l : encode_bytes32 x ++ l <> [].
Proof. apply nonempty_app, encode_string_nonempty. Qed.
Lemma encode_unsigned_more {n} (x : uword n) l : encode_unsigned x ++ l <> [].
Proof. apply nonempty_app, encode_string_nonempty. Qed.

(** The next field is there. *)
Ltac field_follows :=
  unfold closes;
  rewrite more_nonempty by first [apply encode_bytes32_more|apply encode_unsigned_more|apply encode_string_nonempty];
  cbn [negb]; change (?m ?l = Decoded ?x []) with (closes m x l).

Lemma closes_header_tail h :
  fields_nested h ->
  closes decode_header_tail (header_tail h)
    (encode_if encode_unsigned (bh_base_fee_per_gas h) ++ encode_if encode_bytes32 (bh_withdrawals_root h) ++
     encode_if encode_unsigned (bh_blob_gas_used h) ++ encode_if encode_unsigned (bh_excess_blob_gas h) ++
     encode_if encode_bytes32 (bh_parent_beacon_block_root h) ++ encode_if encode_bytes32 (bh_requests_hash h)).
Proof.
  intros [H1 H2 H3 H4 H5]. unfold header_tail. rewrite !is_Some_alt in *.
  destruct (bh_base_fee_per_gas h), (bh_withdrawals_root h), (bh_blob_gas_used h), (bh_excess_blob_gas h),
    (bh_parent_beacon_block_root h), (bh_requests_hash h); try tauto; cbn [encode_if app]; unfold decode_header_tail;
    rewrite ?app_nil_r; repeat first
      [ field_follows
      | eapply closes_bind; [solve [eauto with rlp]|]
      | eapply closes_bind_last; [solve [eauto with rlp]|] ]; done.
Qed.

Lemma encode_if_size {A} (encode : A -> byte_string) x n :
  0 <= n -> (forall y, zlen (encode y) <= n) -> zlen (encode_if encode x) <= n.
Proof. intros Hn H. destruct x; [apply H|done]. Qed.

Lemma reads_header h : header_ok h -> reads decode_block_header h (encode_block_header h).
Proof.
  intros [Hb He Hn]. apply reads_list.
  { unfold small. rewrite !zlen_app.
    repeat match goal with
    | |- context [zlen (encode_bytes32 ?x)] => pose proof (encode_bytes32_size x); set (zlen (encode_bytes32 x)) in *
    | |- context [zlen (encode_address (Some ?x))] =>
        pose proof (encode_address_size x); set (zlen (encode_address (Some x))) in *
    | |- context [zlen (encode_unsigned (bh_difficulty h))] =>
        pose proof (encode_u256_size (bh_difficulty h)); set (zlen (encode_unsigned (bh_difficulty h))) in *
    | |- context [zlen (encode_unsigned ?x)] => pose proof (encode_u64_size x); set (zlen (encode_unsigned x)) in *
    end.
    pose proof (encode_string_size (bh_logs_bloom h)) as Hs. unfold zlen at 2 in Hs. rewrite Hb in Hs.
    pose proof (encode_string_size (bh_extra_data h)). pose proof (encode_fixed_size 8 (bh_nonce h)).
    pose proof (encode_if_size encode_unsigned (bh_base_fee_per_gas h) 37 ltac:(done) encode_u256_size).
    pose proof (encode_if_size encode_unsigned (bh_blob_gas_used h) 13 ltac:(done) encode_u64_size).
    pose proof (encode_if_size encode_unsigned (bh_excess_blob_gas h) 13 ltac:(done) encode_u64_size).
    pose proof (encode_if_size encode_bytes32 (bh_withdrawals_root h) 37 ltac:(done) encode_bytes32_size).
    pose proof (encode_if_size encode_bytes32 (bh_parent_beacon_block_root h) 37 ltac:(done) encode_bytes32_size).
    pose proof (encode_if_size encode_bytes32 (bh_requests_hash h) 37 ltac:(done) encode_bytes32_size).
    unfold encode_bloom. assert (10000 < modulus 63) by done. lia. }
  apply closes_reads_within. read_fields. eapply closes_bind; [by apply reads_bloom|]. read_fields.
  eapply closes_bind; [apply reads_string; assert (32 < modulus 32) by done; lia|].
  rewrite (proj2 (Z.ltb_ge _ _)) by done. change (dbind (dreject false Overflow) ?k) with (k tt). cbv beta.
  read_fields. eapply closes_bind_closes; [by apply closes_header_tail|].
  unfold closes, dbind, dend, header_tail, dret. rewrite (fixed_val 8).
  destruct Hn as [_ _ H3 H4 _]. rewrite !is_Some_alt in *.
  destruct h as [????????????????? blob excess beacon ?]. cbn in *. by destruct blob, excess, beacon; try tauto.
Qed.

(** Every block header that passes [static_validate_header] is read back by
    [decode_block_header] as [encode_block_header] wrote it, whatever follows. *)
Theorem header_round_trip t h rest :
  static_validate_header t h = None -> length (bh_logs_bloom h) = 256%nat ->
  decode_block_header (encode_block_header h ++ rest) = Decoded h rest.
Proof. intros Hv Hb. by apply reads_header, (valid_header_ok t). Qed.

(** *** Blocks *)

(** The first byte of a string. *)
Lemma string_head s : exists b l, encode_string2 s = b :: l /\ uval b < 192.
Proof.
  unfold encode_string2. pose proof (uword_range (wrap 32 (zlen s))) as Hr.
  destruct s as [|b0 s]; [eexists _, _; split; done|].
  destruct (_ && _) eqn:E.
  - eexists _, _. split; [done|]. apply andb_true_iff in E as [_ E]. simpl in E. apply Z.leb_le in E. lia.
  - destruct (Z.ltb_spec 55 (wrap 32 (zlen (b0 :: s)))); eexists _, _; (split; [done|]).
    + pose proof (length_compact 4 (wrap 32 (zlen (b0 :: s)))) as Hl. change (8 * N.of_nat 4)%N with 32%N in Hl.
      pose proof (zlen_nonneg (to_big_compact (wrap 32 (zlen (b0 :: s))))). rewrite wrap8_small; lia.
    + rewrite wrap8_small; lia.
Qed.

Lemma small_string s : small (encode_string2 s) -> small s.
Proof.
  unfold small, encode_string2. destruct (_ && _); [done|]. destruct (55 <? _); rewrite zlen_cons, ?zlen_app; [|lia].
  pose proof (zlen_nonneg (to_big_compact (wrap 32 (zlen s)))). lia.
Qed.

(** A transaction of a block: what it is encoded as, if it is typed, fits a string. *)
Definition block_tx_ok (tx : Transaction) : Prop :=
  wire_ok tx /\ forall enc, encode_transaction tx = Some enc -> zlen enc < modulus 32.

Lemma reads_transaction_item tx enc :
  block_tx_ok tx -> encode_block_transaction tx = Some enc -> small enc -> reads decode_transaction_item tx enc.
Proof.
  intros [Hw Hsz] (tenc & He & <-%(inj Some))%bind_Some Hs rest. specialize (Hsz _ He). revert Hs He.
  unfold encode_transaction. case_bool_decide as Hl; intros Hs.
  - intros (v & Hv & <-%(inj Some))%bind_Some. apply small_list in Hs as Hs'.
    pose proof (reads_legacy tx v Hw Hl Hv Hs' rest) as Hr. revert Hr. set (p := encode_legacy_base tx ++ _). clearbody p.
    unfold decode_transaction_item. destruct (list_head p) as (b & l & -> & Hb). cbn [app]. rewrite byte_at_0.
    by rewrite (proj2 (Z.leb_le _ _)).
  - intros (base & Hb & <-%(inj Some))%bind_Some. apply small_string, small_cons, small_list in Hs as Hs'.
    pose proof (reads_eip2718 tx base Hw Hl Hb Hs' []) as Hr. rewrite app_nil_r in Hr.
    set (enc := type_byte (tx_type tx) :: _) in *. unfold decode_transaction_item.
    destruct (string_head enc) as (b & l & E & Hlt). assert (Hb0 : byte_at 0 (encode_string2 enc ++ rest) = b) by (by rewrite E).
    rewrite Hb0, (proj2 (Z.leb_gt _ _)) by lia. unfold dbind, dwithin. rewrite parse_encode_string by done.
    unfold decode_transaction_eip2718, enc. by rewrite type_of_type_byte, Hr.
Qed.

Lemma block_transaction_nonempty tx enc : encode_block_transaction tx = Some enc -> enc <> [].
Proof.
  intros (tenc & He & <-%(inj Some))%bind_Some. revert He. unfold encode_transaction.
  case_bool_decide; [|intros _; apply encode_string_nonempty].
  intros (v & _ & <-%(inj Some))%bind_Some. apply encode_list_nonempty.
Qed.

Lemma reads_transactions txs encs :
  Forall block_tx_ok txs -> mapM encode_block_transaction txs = Some encs -> small (mjoin encs) ->
  reads decode_transaction_list txs (encode_list2 (mjoin encs)).
Proof.
  intros Hok E Hs. apply reads_list; [done|]. apply closes_reads_within.
  assert (Hen : mjoin encs = mjoin ((fun e => default [] (encode_block_transaction e)) <$> txs)).
  { apply mapM_Some in E. clear Hok Hs. induction E as [|e x l encs He _ IH]; [done|].
    simpl. f_equal; [|exact IH]. by rewrite He. }
  rewrite Hen in Hs |- *. apply closes_while. intros e He. pose proof (small_mjoin _ _ _ Hs He) as Hse.
  assert (Hall : is_Some (mapM encode_block_transaction txs)) by eauto.
  rewrite mapM_is_Some, Forall_forall in Hall. destruct (Hall e He) as [x Ex]. cbv beta in Hse |- *.
  rewrite Ex in Hse |- *. change (small x) in Hse. change (default [] (Some x)) with x.
  rewrite Forall_forall in Hok. split; [apply reads_transaction_item; auto|by apply (block_transaction_nonempty e)].
Qed.

Lemma reads_ommers ommers :
  Forall header_ok ommers -> small (encode_ommers ommers) ->
  reads decode_block_header_vector ommers (encode_ommers ommers).
Proof.
  intros Ho Hs%small_list. apply reads_list; [done|]. apply closes_reads_within, closes_while. intros x Hx.
  rewrite Forall_forall in Ho. split; [by apply reads_header, Ho|apply encode_list_nonempty].
Qed.

(** C31: a block of headers that pass validation and of well-formed transactions is
    read back by [decode_block] as [encode_block] wrote it. *)
Theorem block_round_trip b enc rest :
  Forall header_ok (bk_header b :: bk_ommers b) -> Forall block_tx_ok (bk_transactions b) ->
  encode_block b = Some enc -> zlen enc < modulus 63 -> decode_block (enc ++ rest) = Decoded b rest.
Proof.
  intros [Hh Ho]%Forall_cons Ht (txs & Etx & <-%(inj Some))%bind_Some Hs. apply small_list in Hs. revert rest.
  apply reads_list; [done|]. apply closes_reads_within.
  pose proof Hs as [_ [H1%small_list [H2 H3]%small_app]%small_app]%small_app.
  eapply closes_bind; [by apply reads_header|]. eapply closes_bind; [by apply reads_transactions|].
  eapply closes_bind; [by apply reads_ommers|].
  destruct b as [header transactions ommers [ws|]]; cbn [bk_withdrawals bk_header bk_ommers bk_transactions encode_if] in *.
  - unfold closes. rewrite more_nonempty by apply encode_list_nonempty.
    apply (closes_bind_last _ _ (Some ws)); [|done].
    apply (reads_bind_last _ _ ws); [by apply reads_withdrawals|done].
  - done.
Qed.

(** ** Witnesses *)
Definition demo_header : BlockHeader :=
  mk_header new_bloom #1 NULL_LIST_HASH #2 #3 #4 #5 #0 #100 #30000000 #21000 #1700000000 #0 [ #0x6d ] #7
    (Some #50) (Some #6) (Some #0) (Some #0) (Some #8) (Some #9).
Definition demo_block : Block :=
  mk_block demo_header [demo_tx] [demo_header] (Some [mk_withdrawal #1 #2 #3 #4]).
Definition demo_block_encoding : byte_string := default [] (encode_block demo_block).

Lemma header_round_trip_witness :
  decode_block_header (encode_block_header demo_header ++ [ #1 ]) = Decoded demo_header [ #1 ].
Proof. apply (header_round_trip (EvmTraits MONAD_ETH_PRAGUE)); vm_compute; reflexivity. Defined.

Lemma receipt_round_trip_witness :
  decode_receipt (encode_receipt demo_receipt ++ [ #1 ]) = Decoded demo_receipt [ #1 ].
Proof. apply receipt_round_trip; [vm_compute; reflexivity| |vm_compute; reflexivity]. repeat constructor. Defined.

Lemma demo_tx_ok : block_tx_ok demo_tx.
Proof.
  split; [split; try done; by intros [|]|]. intros enc E.
  assert (H : forall x, encode_transaction demo_tx = Some x -> (zlen x <? modulus 32) = true); [|by apply Z.ltb_lt, H].
  assert (Hd : encode_transaction demo_tx = Some demo_encoding) by (vm_compute; reflexivity).
  intros x. rewrite Hd. intros <-%(inj Some). vm_compute. reflexivity.
Qed.

Lemma block_round_trip_witness :
  decode_block (demo_block_encoding ++ [ #1 ]) = Decoded demo_block [ #1 ].
Proof.
  assert (Hh : header_ok demo_header).
  { apply (valid_header_ok (EvmTraits MONAD_ETH_PRAGUE)); vm_compute; reflexivity. }
  apply block_round_trip; [|constructor; [apply demo_tx_ok|constructor]|vm_compute; reflexivity..].
  constructor; [exact Hh|]. constructor; [exact Hh|constructor].
Defined.
