(* ===== verification/Evm.v ===== *)
(** * Messages: calls and contract creation

    Models src/category/execution/ethereum/evm.cpp, create_contract_address.cpp,
    the host of evmc_host.{hpp,cpp}, and the dispatch to precompiles of
    ethereum/precompiles.cpp and monad/monad_precompiles.cpp with the reserve-
    balance contract of monad/reserve_balance/reserve_balance_contract.cpp.

    The virtual machine is a parameter here: [vm] maps a message and its code to a
    tree of host calls ([vm_prog]); Interpreter.v defines one.  A host call that sends a message runs that message on the same state, so
    the two are mutually recursive through the call depth, which is the fuel
    ([host_call]); a machine that obeys the call depth limit of 1024 never runs out
    of it.  Tracers observe and are not modelled. *)
From S2P Require Import Prelude Prog Abi StakingVars Transaction Rlp VersionStack State3 StateHooks StateFrames StateRefine ReserveBalance StakingContract StakingSyscalls BlockHash.
#[local] Open Scope sm_scope.

(** ** Messages and results *)
Inductive call_kind := EVMC_CALL | EVMC_DELEGATECALL | EVMC_CALLCODE | EVMC_CREATE | EVMC_CREATE2.

#[export] Instance call_kind_eq_dec : EqDecision call_kind.
Proof. solve_decision. Defined.

Definition is_create (k : call_kind) : bool :=
  match k with EVMC_CREATE | EVMC_CREATE2 => true | _ => false end.

(** The status codes this layer produces or tests; [Failure n] are the other
    codes of the virtual machine. *)
Inductive status :=
| Success | Revert | OutOfGas | InvalidInstruction | ArgumentOutOfRange
| ContractValidationFailure | InsufficientBalance | PrecompileFailure | Rejected
| ReserveBalanceViolation | Failure (n : Z).

#[export] Instance status_eq_dec : EqDecision status.
Proof. solve_decision. Defined.

Record Message := mk_message {
  kind : call_kind; flags : Z; depth : Z; gas : Z; recipient : address; sender : address;
  input_data : byte_string; value : u256; create2_salt : bytes32; code_address : address;
  memory_offset : Z }.  (** [memory - memory_handle]: the callers' part of the transaction's memory *)

Definition EVMC_STATIC : Z := 0.     (** the bit of [flags] *)
Definition EVMC_DELEGATED : Z := 1.

Record Result := mk_res {
  r_status : status; r_gas_left : Z; r_gas_refund : Z; r_output : byte_string; r_create : address }.

(** [evmc::Result{status, gas_left}]. *)
Definition simple_result (s : status) (gas_left : Z) : Result := mk_res s gas_left 0 [] #0.
Definition with_status (s : status) (r : Result) : Result :=
  mk_res s (r_gas_left r) (r_gas_refund r) (r_output r) (r_create r).
Definition with_refund (g : Z) (r : Result) : Result :=
  mk_res (r_status r) (r_gas_left r) g (r_output r) (r_create r).
Definition with_gas_left (g : Z) (r : Result) : Result :=
  mk_res (r_status r) g (r_gas_refund r) (r_output r) (r_create r).

Definition succeeded (r : Result) : bool := bool_decide (r_status r = Success).

Definition ripemd_address : address := #3.

(** ** The host interface the virtual machine calls *)
Inductive hostE : Type -> Type :=
| HAccountExists (a : address) : hostE bool
| HGetStorage (a : address) (k : bytes32) : hostE bytes32
| HSetStorage (a : address) (k v : bytes32) : hostE evmc_storage_status
| HGetBalance (a : address) : hostE u256
| HGetCodeSize (a : address) : hostE nat
| HGetCodeHash (a : address) : hostE bytes32
| HCopyCode (a : address) (offset size : nat) : hostE byte_string
| HSelfdestruct (a beneficiary : address) : hostE bool
| HEmitLog (l : Log) : hostE unit
| HAccessAccount (a : address) : hostE evmc_access_status
| HAccessStorage (a : address) (k : bytes32) : hostE evmc_access_status
| HGetTransientStorage (a : address) (k : bytes32) : hostE bytes32
| HSetTransientStorage (a : address) (k v : bytes32) : hostE unit
| HGetBlockHash (number : Z) : hostE bytes32
| HCall (msg : Message) : hostE Result.

(** [VmAbort] is a failed assertion. *)
Inductive vm_prog : Type :=
| VmDone (r : Result)
| VmAbort
| VmHost {X} (o : hostE X) (k : X -> vm_prog).

(** ** Contract addresses *)
Section address.
Context (keccak256 : byte_string -> bytes32).

Definition hash_and_clip (b : byte_string) : address := #(keccak256 b).

Definition create_contract_address (from : address) (nonce : u64) : address :=
  hash_and_clip (encode_list2 (encode_address (Some from) ++ encode_unsigned nonce)).

Definition create2_contract_address (from : address) (zeta code_hash : bytes32) : address :=
  hash_and_clip ([ #0xff ] ++ to_bytes 20 from ++ to_bytes 32 zeta ++ to_bytes 32 code_hash).
End address.

(** ** Precompiles *)

(** The gas function and the code of an Ethereum precompile. *)
Record PrecompiledContract := mk_precompile {
  gas_cost_func : byte_string -> option u64;
  execute_func : byte_string -> status * byte_string }.

Section precompiles.
Context (t : Traits) (bs : BlockReads).
Context (resolve_precompile : address -> option PrecompiledContract).

Definition check_call_eth_precompile (msg : Message) : option Result :=
  match resolve_precompile (code_address msg) with
  | None => None
  | Some p =>
      if eth_ge (evm_rev t) MONAD_ETH_PRAGUE && Z.testbit (flags msg) EVMC_DELEGATED
      then Some (simple_result Success (gas msg))
      else match gas_cost_func p (input_data msg) with
      | None => Some (simple_result PrecompileFailure 0)
      | Some cost =>
          if gas msg <? cost then Some (simple_result OutOfGas 0)
          else
            let '(status_code, output) := execute_func p (input_data msg) in
            Some (mk_res status_code
              (if bool_decide (status_code = Success) then gas msg - cost else 0) 0 output #0)
      end
  end.

(** The staking contract on the transaction state; its logs reach the tracer too. *)
Definition run_contract {A} (p : prog Empty_set A) : SM A := fun st =>
  let '(r, s) := run_with (handle_state bs) p (st, []) in (r, s.1).

Definition staking_message (msg : Message) : evmc_message :=
  mk_msg (bool_decide (kind msg = EVMC_CALL)) #(flags msg) (gas msg) (sender msg) (code_address msg)
    (value msg) (input_data msg).

Definition staking_result (r : evmc_result) : Result :=
  mk_res (match status_code r with
          | EVMC_SUCCESS => Success | EVMC_REVERT => Revert
          | EVMC_OUT_OF_GAS => OutOfGas | EVMC_REJECTED => Rejected
          end) (gas_left r) (StakingSyscalls.gas_refund r) (output r) #0.

(** *** The reserve-balance contract *)
Inductive ReserveBalanceError := RbMethodNotSupported | RbValueNonZero | RbInvalidInput.

Definition RESERVE_BALANCE_CA : address := #0x1001.
Definition DIPPED_INTO_RESERVE : u32 := #0x3a61584e.
Definition DIPPED_INTO_RESERVE_OP_COST : Z := 100.
Definition FALLBACK_COST : Z := 100.

Inductive rb_method := rb_dipped | rb_fallback.

Definition rb_precompile_dispatch (input : byte_string) : rb_method * Z * byte_string :=
  if (length input <? 4)%nat then (rb_fallback, FALLBACK_COST, input)
  else if load_be32 input =w? DIPPED_INTO_RESERVE
  then (rb_dipped, DIPPED_INTO_RESERVE_OP_COST, drop 4 input)
  else (rb_fallback, FALLBACK_COST, drop 4 input).

Definition precompile_dipped_into_reserve (rev : monad_revision) (input : byte_string) (msg_value : u256)
    : SM (byte_string + ReserveBalanceError) :=
  if negb (msg_value =? 0) then sret (inr RbValueNonZero)
  else if negb (length input =? 0)%nat then sret (inr RbInvalidInput)
  else dipped <- revert_transaction_cached rev ;; sret (inl (word_bytes (abi_encode_bool dipped))).

Definition rb_error_message (e : ReserveBalanceError) : string :=
  match e with
  | RbMethodNotSupported => "method not supported"
  | RbValueNonZero => "value is nonzero"
  | RbInvalidInput => "input is invalid"
  end.

Definition check_call_reserve_balance (rev : monad_revision) (msg : Message) : SM (option Result) :=
  if negb (code_address msg =w? RESERVE_BALANCE_CA) then sret None
  else if negb (bool_decide (kind msg = EVMC_CALL)) || negb (flags msg =? 0)
  then sret (Some (simple_result Rejected 0))
  else
    let '(method, cost, input) := rb_precompile_dispatch (input_data msg) in
    if gas msg <? cost then sret (Some (simple_result OutOfGas 0))
    else
      add_to_balance bs RESERVE_BALANCE_CA #0 ;;
      res <- match method with
             | rb_dipped => precompile_dipped_into_reserve rev input (value msg)
             | rb_fallback => sret (inr RbMethodNotSupported)
             end ;;
      sret (Some match res with
                 | inl out => mk_res Success (gas msg - cost) 0 out #0
                 | inr e => mk_res Revert 0 0 (message_bytes (rb_error_message e)) #0
                 end).

Context `{Crypto}.

Definition check_call_precompile (msg : Message) : SM (option Result) :=
  match check_call_eth_precompile msg with
  | Some r => sret (Some r)
  | None =>
      match t with
      | EvmTraits _ => sret None
      | MonadTraits rev =>
          r <- (if rev_ge rev MONAD_FOUR
                then r <- run_contract (check_call_monad_precompile rev (staking_message msg)) ;;
                     sret (staking_result <$> r)
                else sret None) ;;
          match r with
          | Some r => sret (Some r)
          | None =>
              if rev_ge rev MONAD_NINE then check_call_reserve_balance rev msg else sret None
          end
      end
  end.

Definition is_precompile (a : address) : bool :=
  bool_decide (is_Some (resolve_precompile a)) ||
  match t with
  | EvmTraits _ => false
  | MonadTraits rev => (a =w? STAKING_CA) || (rev_ge rev MONAD_NINE && (a =w? RESERVE_BALANCE_CA))
  end.
End precompiles.

(** ** Calls and creations *)
Section messages.
Context (t : Traits) (bs : BlockReads) (keccak256 : byte_string -> bytes32).
(** What the host knows of the transaction. *)
Context (tx : Transaction) (base_fee_per_gas : u256) (i : nat) (ctx : ChainContext)
  (log_native_transfers : bool) (block_hash_buffer : u64 -> option bytes32).
Context (precompile : Message -> SM (option Result)) (precompile_address : address -> bool).
Context (vm : Message -> byte_string -> vm_prog).

(** The topic of [Transfer(address,address,uint256)]. *)
Definition transfer_signature : bytes32 :=
  #0xddf252ad1be2c89b69c2b068fc378daa952ba7f163c4a11628f55a4df523b3ef.
Definition native_token_address : address := #0xeeeeeeeeeeeeeeeeeeeeeeeeeeeeeeeeeeeeeeee.

Definition emit_native_transfer_event (from to : address) (value : u256) : SM unit :=
  if log_native_transfers && (0 <? value) && negb (from =w? to) then
    store_log (mk_log native_token_address
      [transfer_signature; abi_encode_address from; abi_encode_address to] (word_bytes (abi_encode_uint value)))
  else sret tt.

Definition sender_has_balance (msg : Message) : SM bool :=
  record_balance_constraint_for_debit bs (sender msg) (value msg).

Definition transfer_balances (msg : Message) (to : address) : SM unit :=
  subtract_from_balance bs (sender msg) (value msg) ;;
  add_to_balance bs to (value msg) ;;
  emit_native_transfer_event (sender msg) to (value msg).

Definition deploy_contract_code (a : address) (result : Result) : SM Result :=
  sassert (succeeded result) ;;
  let output := r_output result in
  if eth_ge (evm_rev t) MONAD_ETH_LONDON && negb (length output =? 0)%nat && (byte_at 0 output =? 0xef)
  then sret (simple_result ContractValidationFailure 0)
  else if max_code_size t <? zlen output then sret (simple_result OutOfGas 0)
  else
    let deploy_cost := zlen output * 200 in
    if r_gas_left result <? deploy_cost then sret (with_status OutOfGas result)
    else
      set_code bs keccak256 a output ;;
      sret (mk_res (r_status result) (r_gas_left result - deploy_cost) (r_gas_refund result) output a).

(** [Some r] is the early return. *)
Definition pre_call (msg : Message) : SM (option Result) :=
  push ;;
  let static_call := Z.testbit (flags msg) EVMC_STATIC in
  r <- (if negb (bool_decide (kind msg = EVMC_DELEGATECALL)) then
          ok <- sender_has_balance msg ;;
          if negb ok then
            pop_reject bs ;; sret (Some (simple_result InsufficientBalance (gas msg)))
          else
            (if negb static_call then transfer_balances msg (recipient msg) else sret tt) ;;
            sret None
        else sret None) ;;
  match r with
  | Some r => sret (Some r)
  | None =>
      (if negb (eth_ge (evm_rev t) MONAD_ETH_PRAGUE)
       then sassert (negb (bool_decide (kind msg = EVMC_CALL)) || (recipient msg =w? code_address msg))
       else sret tt) ;;
      (if bool_decide (kind msg = EVMC_CALL) && static_call then touch bs (recipient msg) else sret tt) ;;
      sret None
  end.

Definition reject_frame : SM unit :=
  ripemd_touched <- is_touched ripemd_address ;;
  pop_reject bs ;;
  if ripemd_touched : bool then touch bs ripemd_address else sret tt.

Definition keeps_gas (s : status) : bool :=
  match s with Success | Revert | ReserveBalanceViolation => true | _ => false end.

Definition post_call (result : Result) : SM unit :=
  sassert (succeeded result || (r_gas_refund result =? 0)) ;;
  sassert (keeps_gas (r_status result) || (r_gas_left result =? 0)) ;;
  if succeeded result then pop_accept else reject_frame.

(** The verdict of the reserve-balance rule, at depth 0. *)
Definition reserve_verdict (msg : Message) : SM bool :=
  if depth msg =? 0 then
    match t with
    | EvmTraits _ => sret false
    | MonadTraits rev => revert_transaction bs rev (sender msg) tx base_fee_per_gas i ctx
    end
  else sret false.

(** *** The virtual machine on the host *)
Section host.
Context (call : Message -> SM Result).

(** The history contract first, then the buffer. *)
Definition get_block_hash (number : Z) : SM bytes32 :=
  sassert (0 <=? number) ;;
  h <- get_block_hash_history bs #number ;;
  if negb (h =? 0) then sret h
  else
    h <- sopt (block_hash_buffer #number) ;;
    sassert (negb (h =? 0)) ;;
    sret h.

Definition run_host {X} (o : hostE X) : SM X :=
  match o in hostE X return SM X with
  | HAccountExists a => dead <- account_is_dead bs a ;; sret (negb dead)
  | HGetStorage a k => get_storage bs a k
  | HSetStorage a k v => set_storage bs a k v
  | HGetBalance a => get_balance bs a
  | HGetCodeSize a => get_code_size bs a
  | HGetCodeHash a => dead <- account_is_dead bs a ;; if dead : bool then sret #0 else get_code_hash bs a
  | HCopyCode a offset size => copy_code bs a offset size
  | HSelfdestruct a b =>
      r <- selfdestruct bs (eth_ge (evm_rev t) MONAD_ETH_CANCUN) a b ;;
      emit_native_transfer_event a b r.2 ;;
      sret r.1
  | HEmitLog l => store_log l
  | HAccessAccount a => if precompile_address a then sret EVMC_ACCESS_WARM else access_account bs a
  | HAccessStorage a k => access_storage bs a k
  | HGetTransientStorage a k => get_transient_storage bs a k
  | HSetTransientStorage a k v => set_transient_storage bs a k v
  | HGetBlockHash number => get_block_hash number
  | HCall msg => call msg
  end.

Fixpoint run_vm (p : vm_prog) : SM Result :=
  match p with
  | VmDone r => sret r
  | VmAbort => shalt
  | VmHost o k => x <- run_host o ;; run_vm (k x)
  end.

Definition execute_call_message (msg : Message) : SM Result :=
  sassert (negb (is_create (kind msg))) ;;
  early <- pre_call msg ;;
  match early with
  | Some r => sret r
  | None =>
      maybe_result <- precompile msg ;;
      result <- match maybe_result with
                | Some r => sret r
                | None =>
                    hash <- get_code_hash bs (code_address msg) ;;
                    code <- read_code_ bs hash ;;
                    run_vm (vm msg code)
                end ;;
      violation <- reserve_verdict msg ;;
      let result := if violation : bool
                    then with_refund 0 (with_status ReserveBalanceViolation result) else result in
      post_call result ;;
      sret result
  end.

(** The nonce of a sender that cannot pay at depth 0 is still used up. *)
Definition create_insufficient (msg : Message) : SM Result :=
  (match t with
   | MonadTraits rev =>
       if rev_ge rev MONAD_FIVE && (depth msg =? 0) then
         nonce <- get_nonce bs (sender msg) ;;
         sassert (negb (nonce =? modulus 64 - 1)) ;;
         set_nonce bs (sender msg) #(nonce + 1)
       else sret tt
   | EvmTraits _ => sret tt
   end) ;;
  sret (simple_result InsufficientBalance (gas msg)).

Definition create_call (msg : Message) (contract_address : address) : Message :=
  mk_message EVMC_CALL 0 (depth msg) (gas msg) contract_address (sender msg) [] (value msg) #0 contract_address (memory_offset msg).

(** The frame of a creation. *)
Definition create_frame (msg : Message) (contract_address : address) : SM Result :=
  push ;;
  create_contract bs contract_address ;;
  set_nonce bs contract_address #1 ;;
  transfer_balances msg contract_address ;;
  result <- run_vm (vm (create_call msg contract_address) (input_data msg)) ;;
  result <- (if succeeded result then deploy_contract_code contract_address result else sret result) ;;
  violation <- reserve_verdict msg ;;
  let result := if violation : bool then with_status ReserveBalanceViolation result else result in
  if succeeded result then pop_accept ;; sret result
  else
    let result := with_refund 0 result in
    let result := if bool_decide (r_status result = Revert) then result else with_gas_left 0 result in
    reject_frame ;; sret result.

Definition contract_address_of (msg : Message) (nonce : u64) : address :=
  if bool_decide (kind msg = EVMC_CREATE) then create_contract_address keccak256 (sender msg) nonce
  else create2_contract_address keccak256 (sender msg) (create2_salt msg) (keccak256 (input_data msg)).

Definition execute_create_message (msg : Message) : SM Result :=
  sassert (is_create (kind msg)) ;;
  ok <- sender_has_balance msg ;;
  if negb ok then create_insufficient msg
  else
    nonce <- get_nonce bs (sender msg) ;;
    if nonce =? modulus 64 - 1 then sret (simple_result ArgumentOutOfRange (gas msg))
    else
      set_nonce bs (sender msg) #(nonce + 1) ;;
      let contract_address := contract_address_of msg nonce in
      access_account bs contract_address ;;
      n <- get_nonce bs contract_address ;;
      h <- get_code_hash bs contract_address ;;
      if negb (n =? 0) || negb (h =w? NULL_HASH) then sret (simple_result InvalidInstruction 0)
      else create_frame msg contract_address.
End host.

(** [EvmcHost::call]; [fuel] bounds the call depth. *)
Fixpoint host_call (fuel : nat) (msg : Message) : SM Result :=
  match fuel with
  | O => shalt
  | S fuel' =>
      if is_create (kind msg) then
        r <- execute_create_message (host_call fuel') msg ;;
        sret (if bool_decide (r_status r = Revert) then r
              else mk_res (r_status r) (r_gas_left r) (r_gas_refund r) [] (r_create r))
      else execute_call_message (host_call fuel') msg
  end.
End messages.

(** ** The host of a transaction *)

(** [EvmcHost]; [vm] and [resolve_precompile] are the virtual machine and the table
    of Ethereum's precompiles, [block_hash_buffer_] the buffer's [get]. *)
Record EvmcHost := mk_host {
  h_traits : Traits; block_reads : BlockReads; tx_ : Transaction; base_fee_per_gas_ : option u256; i_ : nat;
  chain_ctx_ : ChainContext; log_native_transfers_ : bool; block_hash_buffer_ : u64 -> option bytes32;
  resolve_precompile : address -> option PrecompiledContract; vm : Message -> byte_string -> vm_prog }.

Definition evmc_call `{Crypto} (h : EvmcHost) (fuel : nat) (msg : Message) : SM Result :=
  host_call (h_traits h) (block_reads h) keccak256 (tx_ h) (default #0 (base_fee_per_gas_ h)) (i_ h) (chain_ctx_ h)
    (log_native_transfers_ h) (block_hash_buffer_ h)
    (check_call_precompile (h_traits h) (block_reads h) (resolve_precompile h))
    (is_precompile (h_traits h) (resolve_precompile h)) (vm h) fuel msg.
