(* ===== verification/EvmFrames.v ===== *)
(** * Messages keep to their frame and create no ether

    [fair n]: the step leaves the frames below alone, keeps the original accounts
    and raises the ether total by at most [n].  The calculus of [nets n m] carries
    it through the code of Evm.v: operations of the state first, then the precompiles, the host calls of an
    arbitrary virtual machine, and messages by induction on the call depth. *)
From S2P Require Import Prelude Prog Abi StakingVars Transaction VersionStack State3 StateHooks ReserveSpec StateFrames StateRefine ReserveTrack ReserveBalance StakingContract StakingSyscalls StakingRefine BlockHash Evm.
#[local] Open Scope sm_scope.

(** ** Sums of balances *)
Definition zsum (f : address -> Z) (X : gset address) : Z := foldr Z.add 0 (f <$> elements X).

Lemma zsum_union f (X Y : gset address) : X ## Y -> zsum f (X ∪ Y) = zsum f X + zsum f Y.
Proof.
  intros Hd. unfold zsum.
  assert (Hp : forall l l', Permutation l l' -> foldr Z.add 0 (f <$> l) = foldr Z.add 0 (f <$> l')).
  { intros l l'. induction 1; csimpl; lia. }
  rewrite (Hp _ _ (elements_disj_union X Y Hd)), fmap_app.
  induction (elements X) as [|x l IH]; csimpl; lia.
Qed.

Lemma zsum_ext f g (X : gset address) : (forall a, a ∈ X -> f a = g a) -> zsum f X = zsum g X.
Proof.
  intros H. unfold zsum. f_equal. apply list_fmap_ext. intros i a Ha.
  apply H, elem_of_elements. by eapply list_elem_of_lookup_2.
Qed.

Lemma zsum_singleton f a : zsum f {[a]} = f a.
Proof. unfold zsum. rewrite elements_singleton. simpl. lia. Qed.

Section ether.
Context (bs : BlockReads).
Implicit Types (st : State) (a b : address).
#[local] Abbreviation orig_view := (orig_view bs).
#[local] Abbreviation recent_view := (recent_view bs).

(** The balance an account has at this point of the transaction. *)
Definition bal st a : Z := balance_of (recent_view st a).

(** Outside of a finite set of accounts no balance changed, and the total of the
    set grew by at most [n]. *)
Definition gains (n : Z) st st' : Prop :=
  exists X : gset address, (forall a, a ∉ X -> bal st' a = bal st a) /\
    zsum (bal st') X <= zsum (bal st) X + n.

Lemma gains_on n st st' (X Y : gset address) :
  X ⊆ Y -> (forall a, a ∉ X -> bal st' a = bal st a) -> zsum (bal st') X <= zsum (bal st) X + n ->
  zsum (bal st') Y <= zsum (bal st) Y + n.
Proof.
  intros HXY H Hn. rewrite (union_difference_L X Y HXY), !zsum_union by set_solver.
  assert (zsum (bal st') (Y ∖ X) = zsum (bal st) (Y ∖ X)); [|lia].
  apply zsum_ext. intros a Ha. apply H. set_solver.
Qed.

Lemma gains_trans n n' st1 st2 st3 : gains n st1 st2 -> gains n' st2 st3 -> gains (n + n') st1 st3.
Proof.
  intros (X & HX & Hn) (Y & HY & Hn'). exists (X ∪ Y). split.
  - intros a Ha. rewrite HY, HX by set_solver. done.
  - pose proof (gains_on n st1 st2 X (X ∪ Y) ltac:(set_solver) HX Hn).
    pose proof (gains_on n' st2 st3 Y (X ∪ Y) ltac:(set_solver) HY Hn'). lia.
Qed.

Lemma gains_mono n n' st st' : n <= n' -> gains n st st' -> gains n' st st'.
Proof. intros Hn (X & HX & H). exists X. split; [done|lia]. Qed.

Lemma gains_same st st' : (forall a, bal st' a = bal st a) -> gains 0 st st'.
Proof. intros H. exists ∅. split; [auto|]. by rewrite Z.add_0_r. Qed.

(** One balance changed. *)
Lemma gains_one a n st st' :
  (forall b, b <> a -> bal st' b = bal st b) -> bal st' a <= bal st a + n -> gains n st st'.
Proof.
  intros H Hn. exists {[a]}. split; [|by rewrite !zsum_singleton].
  intros b Hb. apply H. set_solver.
Qed.

(** ** Fair steps *)
Record fair (n : Z) st st' : Prop := mk_fair {
  fair_local : local st st';
  fair_orig : forall a, account_ (orig_view st' a) = account_ (orig_view st a);
  fair_caches : caches bs st st';
  fair_gains : gains n st st';
}.

Lemma fair_trans n n' st1 st2 st3 : fair n st1 st2 -> fair n' st2 st3 -> fair (n + n') st1 st3.
Proof.
  intros [A1 A2 A4 A3] [B1 B2 B4 B3]. split.
  - by apply (local_trans _ st2).
  - intros a. by rewrite B2, A2.
  - by etrans.
  - by apply (gains_trans _ _ _ st2).
Qed.

Lemma fair_mono n n' st st' : n <= n' -> fair n st st' -> fair n' st st'.
Proof. intros Hn [A1 A2 A4 A3]. split; [done..|by apply (gains_mono n)]. Qed.

Lemma fair_refl st : wf st -> fair 0 st st.
Proof. intros Hwf. split; [by apply local_refl|done|done|by apply gains_same]. Qed.

Lemma bal_core st st' : same_core bs st st' -> forall a, bal st' a = bal st a.
Proof. intros Hc a. unfold bal. by rewrite (recent_view_core bs Hc). Qed.

Lemma bal_evolves st st' : evolves bs all st st' -> forall a, bal st' a = bal st a.
Proof. intros V a. unfold bal. by rewrite (ev_balance _ _ _ _ V a). Qed.

Lemma fair_core st st' : wf st -> same_core bs st st' -> fair 0 st st'.
Proof.
  intros Hwf Hc. split; [by apply (local_core bs)|intros a; by rewrite (sc_orig _ _ _ Hc)|apply caches_same, Hc|].
  apply gains_same, bal_core, Hc.
Qed.

(** ** Code with a bounded net credit *)
Definition nets {A} (n : Z) (m : SM A) : Prop :=
  forall st x st', wf st -> m st = (ROk x, st') -> fair n st st'.

Lemma nets_bind {A C} n n' (m : SM A) (k : A -> SM C) :
  nets n m -> (forall x, nets n' (k x)) -> nets (n + n') (sbind m k).
Proof.
  intros Hm Hk st y st' Hwf E. apply sbind_ok in E as (x & st1 & E1 & E).
  pose proof (Hm st x st1 Hwf E1) as F. apply (fair_trans _ _ _ st1); [done|].
  by apply (Hk x st1 y); [apply F|].
Qed.

Lemma nets_bind0 {A C} n (m : SM A) (k : A -> SM C) :
  nets 0 m -> (forall x, nets n (k x)) -> nets n (sbind m k).
Proof. apply (nets_bind 0). Qed.

Lemma nets_ret {A} (x : A) : nets 0 (sret x).
Proof. intros st y st' Hwf [= _ <-]. by apply fair_refl. Qed.
Lemma nets_get {A} (f : State -> A) : nets 0 (sget f).
Proof. intros st y st' Hwf [= _ <-]. by apply fair_refl. Qed.
Lemma nets_halt {A} n : nets n (shalt : SM A).
Proof. by intros st y st' Hwf E. Qed.
Lemma nets_assert c : nets 0 (sassert c).
Proof. destruct c; [apply nets_ret|apply nets_halt]. Qed.
Lemma nets_opt {A} (o : option A) : nets 0 (sopt o).
Proof. destruct o; [apply nets_ret|apply nets_halt]. Qed.

Lemma nets_calm {A} (m : SM A) : calm bs m -> nets 0 m.
Proof.
  intros H st x st' Hwf E. destruct (H st (wf_hook_ok _ Hwf)) as (y & st1 & E1 & Hc).
  rewrite E in E1. injection E1 as _ <-. by apply fair_core.
Qed.

Lemma nets_evolving {A} (m : SM A) : stays m -> evolving bs m -> nets 0 m.
Proof.
  intros Hs Hv st x st' Hwf E. pose proof (Hs st Hwf) as L. rewrite E in L.
  pose proof (Hv st x st' Hwf E) as V. split; [done|apply V..|apply gains_same, bal_evolves, V].
Qed.
End ether.

(** ** Operations of the state *)
Create HintDb nets discriminated.
#[export] Hint Resolve nets_ret nets_get nets_halt nets_assert nets_opt : nets.

Section ops.
Context (bs : BlockReads).
Implicit Types (st : State) (a b : address).

Lemma nets_mono {A} n n' (m : SM A) : n <= n' -> nets bs n m -> nets bs n' m.
Proof. intros Hn H st x st' Hwf E. apply (fair_mono bs n); [done|by apply (H st x)]. Qed.

(** Take an account over and write it back, keeping its balance. *)
Lemma nets_write {A} n a (g : AccountState -> AccountState) (k : AccountState -> SM A) :
  (forall x, balance_of (g x) = balance_of x) -> (forall x, nets bs n (k x)) ->
  nets bs n (x <- current_account_state bs a ;; set_current a (g x) ;; k x).
Proof.
  intros Hg Hk st y st' Hwf E. apply sbind_ok in E as (x & st1 & E1 & E).
  apply sbind_ok in E as ([] & st2 & E2 & E).
  assert (L : stays (x <- current_account_state bs a ;; set_current a (g x))) by stays.
  specialize (L st Hwf). unfold sbind in L. rewrite E1, E2 in L. simpl in L.
  destruct (current_evolves bs a st x st1 Hwf E1) as (V & W1 & O1 & _ & R1).
  destruct (store_facts bs a (g x) st1 st2 W1 O1 E2) as (W2 & _ & _ & _ & _ & F4 & F5 & _).
  apply (fair_trans bs 0 n st st2); [|by apply (Hk x st2 y)]. split; [done| | |].
  - intros c. by rewrite F4, (ev_orig _ _ _ _ V).
  - transitivity st1; [apply V|by apply caches_same].
  - apply gains_same. intros c. unfold bal. rewrite F5, <- (ev_balance _ _ _ _ V c) by done.
    case_decide as Hc; [by rewrite Hc, Hg, R1|done].
Qed.

Lemma nets_current a : nets bs 0 (current_account_state bs a).
Proof.
  apply nets_evolving; [apply stays_current_account_state|]. intros st x st' Hwf E.
  by apply (current_evolves bs a st x st' Hwf).
Qed.

(** Both balance updates. *)
Lemma nets_update n a ok msg (f : u256 -> u256) hook :
  calm bs hook -> stays (update_balance bs a ok msg f hook) ->
  (forall z, ok z = true -> f z <= z + n) -> nets bs n (update_balance bs a ok msg f hook).
Proof.
  intros Hh Hs Hf st x st' Hwf E. pose proof (Hs st Hwf) as L. rewrite E in L.
  destruct (update_balance_run bs a ok msg f hook st x st' Hwf E) as (st1 & W1 & V & E1 & Hok & Hb).
  destruct (Hh st1 (wf_hook_ok _ W1)) as (y & st2 & E2 & Hc). rewrite E1 in E2. injection E2 as _ <-.
  split; [done| | |].
  - intros c. by rewrite (sc_orig _ _ _ Hc), (ev_orig _ _ _ _ V).
  - transitivity st1; [apply V|apply caches_same, Hc].
  - apply (gains_one bs a); intros; rewrite (bal_core bs _ _ Hc); unfold bal.
    + by rewrite (ev_balance _ _ _ _ V).
    + rewrite Hb. by apply Hf.
Qed.

Lemma nets_add a (d : u256) : nets bs d (add_to_balance bs a d).
Proof.
  apply (nets_update d a (fun z : u256 => z <=? modulus 256 - 1 - d) "balance overflow" (fun z => #(z + d))
    (rb_on_credit bs a)); [apply calm_on_credit|apply stays_add_to_balance|].
  intros z Hz%Z.leb_le. rewrite uval_wrap_small; word_lia.
Qed.

Lemma nets_sub a (d : u256) : nets bs (- d) (subtract_from_balance bs a d).
Proof.
  apply (nets_update (- d) a (fun z : u256 => d <=? z) "balance underflow" (fun z => #(z - d))
    (rb_on_debit bs a)); [apply calm_on_debit|apply stays_subtract_from_balance|].
  intros z Hz%Z.leb_le. rewrite uval_wrap_small; word_lia.
Qed.

(** A transfer nets nothing, a burn less. *)
Lemma nets_transfer {A} from to (d : u256) (k : SM A) :
  nets bs 0 k -> nets bs 0 (subtract_from_balance bs from d ;; add_to_balance bs to d ;; k).
Proof.
  intros Hk. apply (nets_mono (- d + (d + 0))); [lia|].
  apply nets_bind; [apply nets_sub|]. intros _. apply nets_bind; [apply nets_add|done].
Qed.
End ops.
#[export] Hint Resolve nets_current : nets.

Ltac nets_step :=
  cbv beta zeta;
  lazymatch goal with
  | |- nets _ _ (sbind _ _) => apply nets_bind0; [|intros ?]
  | |- nets _ _ (match ?x with _ => _ end) => destruct x
  | |- nets _ _ _ => solve [auto with nets]
  end.
Ltac nets := repeat nets_step.

Section readers.
Context (bs : BlockReads).
Implicit Types (a b : address) (k v : bytes32).

Lemma nets_recent_state a : nets bs 0 (recent_account_state bs a).
Proof. apply nets_calm, calm_recent_state. Qed.
Lemma nets_recent a : nets bs 0 (recent_account bs a).
Proof. apply nets_calm, calm_recent. Qed.
Lemma nets_get_balance a : nets bs 0 (get_balance bs a).
Proof. apply nets_calm, calm_get_balance. Qed.
Lemma nets_read_code h : nets bs 0 (read_code_ bs h).
Proof. unfold read_code_. nets. Qed.
#[local] Hint Resolve nets_recent_state nets_recent nets_read_code : nets.
Lemma nets_is_dead a : nets bs 0 (account_is_dead bs a).
Proof. unfold account_is_dead. nets. Qed.
Lemma nets_account_exists a : nets bs 0 (account_exists bs a).
Proof. unfold account_exists. nets. Qed.
Lemma nets_get_nonce a : nets bs 0 (get_nonce bs a).
Proof. unfold get_nonce. nets. Qed.
Lemma nets_get_code_hash a : nets bs 0 (get_code_hash bs a).
Proof. unfold get_code_hash. nets. Qed.
Lemma nets_is_current a : nets bs 0 (is_current_incarnation bs a).
Proof. unfold is_current_incarnation. nets. Qed.
Lemma nets_get_code_size a : nets bs 0 (get_code_size bs a).
Proof. unfold get_code_size. nets. Qed.
Lemma nets_copy_code a i n : nets bs 0 (copy_code bs a i n).
Proof. unfold copy_code. nets. Qed.
Lemma nets_get_transient a k : nets bs 0 (get_transient_storage bs a k).
Proof. unfold get_transient_storage. nets. Qed.
Lemma nets_is_touched a : nets bs 0 (is_touched a).
Proof. unfold is_touched. nets. Qed.
Lemma nets_get_storage a k : nets bs 0 (get_storage bs a k).
Proof. apply nets_evolving; [apply stays_get_storage|apply evolving_quiet, quiet_get_storage]. Qed.
#[local] Hint Resolve nets_account_exists nets_get_storage : nets.
Lemma nets_history n : nets bs 0 (get_block_hash_history bs n).
Proof. unfold get_block_hash_history. nets. Qed.
Lemma nets_record_debit a d : nets bs 0 (record_balance_constraint_for_debit bs a d).
Proof. apply nets_evolving; [apply stays_record_debit|apply evolving_quiet, quiet_record_debit]. Qed.
End readers.
#[export] Hint Resolve nets_recent_state nets_recent nets_get_balance nets_read_code nets_is_dead nets_history
  nets_get_nonce nets_get_code_hash nets_is_current nets_get_code_size nets_copy_code
  nets_get_transient nets_is_touched nets_get_storage nets_record_debit : nets.

Section writers.
Context (bs : BlockReads).
Implicit Types (a b : address) (k v : bytes32).

Lemma nets_set_nonce a n : nets bs 0 (set_nonce bs a n).
Proof. apply nets_evolving; [apply stays_set_nonce|apply evolving_set_nonce]. Qed.
Lemma nets_set_storage a k v : nets bs 0 (set_storage bs a k v).
Proof. apply nets_evolving; [apply stays_set_storage|apply evolving_set_storage]. Qed.
Lemma nets_set_transient a k v : nets bs 0 (set_transient_storage bs a k v).
Proof. apply nets_evolving; [apply stays_set_transient|apply evolving_set_transient]. Qed.
Lemma nets_touch a : nets bs 0 (touch bs a).
Proof. apply nets_evolving; [apply stays_touch|apply evolving_touch]. Qed.
Lemma nets_access_account a : nets bs 0 (access_account bs a).
Proof. apply nets_evolving; [apply stays_access_account|apply evolving_access_account]. Qed.
Lemma nets_access_storage a k : nets bs 0 (access_storage bs a k).
Proof. apply nets_evolving; [apply stays_access_storage|apply evolving_access_storage]. Qed.
Lemma nets_create_contract a : nets bs 0 (create_contract bs a).
Proof. apply nets_evolving; [apply stays_create_contract|apply evolving_create_contract]. Qed.
Lemma nets_store_log l : nets bs 0 (store_log l).
Proof. apply nets_evolving; [apply stays_store_log|apply evolving_store_log]. Qed.
Lemma nets_on_debit a : nets bs 0 (rb_on_debit bs a).
Proof. apply nets_calm, calm_on_debit. Qed.
#[local] Hint Resolve nets_on_debit : nets.

Lemma nets_selfdestruct c a b : nets bs 0 (selfdestruct bs c a b).
Proof.
  unfold selfdestruct. apply nets_bind0; [auto with nets|]. intros _.
  apply nets_bind0; [auto with nets|]. intros d. apply nets_bind0; [nets|]. intros move.
  apply nets_bind0.
  - destruct move; [|auto with nets].
    apply (nets_mono bs (d + - d)); [lia|]. apply nets_bind; [|intros _; apply nets_sub].
    destruct (negb _); [apply nets_add|]. apply (nets_mono bs 0); [word_lia|apply nets_ret].
  - intros _. cbv beta delta [substate.destruct] iota. apply nets_write; [done|]. intros x. nets.
Qed.

Lemma nets_set_code h a c : nets bs 0 (set_code bs h a c).
Proof.
  intros st y st' Hwf E. pose proof (stays_set_code_ bs h a c st Hwf) as L. rewrite E in L.
  unfold set_code in E. apply sbind_ok in E as (x & st1 & E1 & E).
  destruct (current_evolves bs a st x st1 Hwf E1) as (V & W1 & O1 & _ & R1).
  destruct (account_ x) as [ac|] eqn:Ea.
  2:{ injection E as _ <-. split; [done|apply V..|apply gains_same, bal_evolves, V]. }
  apply sbind_ok in E as (u & st2 & E2 & E). injection E2 as _ <-.
  apply sbind_ok in E as ([] & st3 & E3 & E).
  destruct (store_facts bs a _ _ st3 (local_wf _ _ (local_code st1 _ W1)) O1 E3)
    as (W3 & _ & _ & _ & _ & F4 & F5 & _).
  destruct (calm_on_set_code bs a c st3 (wf_hook_ok _ W3)) as (z & st4 & E4 & Hc).
  rewrite E in E4. injection E4 as _ <-. split; [done| | |].
  - intros b. rewrite (sc_orig _ _ _ Hc), F4. apply (ev_orig _ _ _ _ V).
  - transitivity st1; [apply V|]. transitivity st3; [by apply caches_same|apply caches_same, Hc].
  - apply gains_same. intros b. rewrite (bal_core bs _ _ Hc). unfold bal.
    rewrite F5, <- (ev_balance _ _ _ _ V b) by done.
    case_decide as Hb; [|done]. rewrite Hb, R1. unfold balance_of. by rewrite Ea.
Qed.
End writers.
#[export] Hint Resolve nets_set_nonce nets_set_storage nets_set_transient nets_touch nets_access_account
  nets_access_storage nets_create_contract nets_store_log nets_selfdestruct nets_set_code : nets.

(** ** Frames *)
Definition pushed (st : State) : State := set_frame (version_ st + 1) (∅ :: dirty_ st) st.

Section frames.
Context (bs : BlockReads).
Implicit Types (st : State) (a b : address).

(** Everything a transaction can observe is as it was. *)
Record restored st st' : Prop := mk_restored {
  rs_wf : wf st';
  rs_current : current_ st' = current_ st;
  rs_logs : logs_ st' = logs_ st;
  rs_version : version_ st' = version_ st;
  rs_dirty : dirty_ st' = dirty_ st;
  rs_orig : forall a, account_ (orig_view bs st' a) = account_ (orig_view bs st a);
  rs_caches : caches bs st st';
}.

Lemma restored_bal st st' : restored st st' -> forall a, bal bs st' a = bal bs st a.
Proof.
  intros R a. unfold bal, balance_of, recent_view. rewrite (rs_current _ _ R).
  destruct (vs_recent _); [done|]. simpl. by rewrite (rs_orig _ _ R).
Qed.

Lemma restored_fair st st' : restored st st' -> fair bs 0 st st'.
Proof.
  intros R. split; [|apply R..|apply gains_same, restored_bal, R]. destruct R as [R1 R2 R3 R4 R5 R6 R7]. split; try done.
  - by rewrite R5.
  - intros j a _. unfold stack. by rewrite R2.
  - intros j _. by rewrite R3.
  - intros a. unfold owned, stack. by rewrite R2, R4.
Qed.

Lemma reject_orig st st' r :
  wf st -> version_ st <> 0%nat -> pop_reject bs st = (ROk r, st') ->
  forall a, orig_view bs st' a = orig_view bs st a.
Proof.
  intros Hwf Hv E a. destruct (run_cut_back bs st Hwf Hv) as (st1 & d & rest & _ & B & Er).
  rewrite Er in E. apply sbind_ok in E as (u & st2 & E2 & E). injection E as _ <-.
  destruct (calm_on_pop_reject bs (elements d) st1 (cut_back_hook_ok _ Hwf Hv _ B)) as (y & st3 & E3 & Hc).
  rewrite E2 in E3. injection E3 as _ <-. change (orig_view bs (set_frame _ _ st2) a) with (orig_view bs st2 a).
  rewrite (sc_orig _ _ _ Hc). unfold orig_view. destruct (cb_rest _ _ B) as (_ & -> & _). done.
Qed.

(** A frame that is rejected is undone; one that is accepted counts. *)
Lemma close_reject n st st2 st' r :
  wf st -> fair bs n (pushed st) st2 -> pop_reject bs st2 = (ROk r, st') -> restored st st'.
Proof.
  intros Hwf [L O C _] E. pose proof (frame_version st st2 L) as Hv.
  pose proof (reject_orig st2 st' r (local_wf _ _ L) ltac:(lia) E) as Ho.
  destruct (frame_reject bs st st2 Hwf L) as (st1 & E1 & W & H1 & H2 & H3 & H4).
  rewrite E in E1. injection E1 as _ <-. split; try done; [intros a; rewrite Ho; apply O|].
  transitivity st2; [exact C|by apply caches_same].
Qed.

Lemma close_accept n st st2 st' r :
  wf st -> fair bs n (pushed st) st2 -> pop_accept st2 = (ROk r, st') ->
  fair bs n st st' /\ forall a, recent_view bs st' a = recent_view bs st2 a.
Proof.
  intros Hwf [L O C G] E. pose proof (frame_version st st2 L) as Hv.
  destruct (frame_accept st st2 Hwf L) as (st1 & E1 & L1 & Hr & _).
  destruct (run_pop_accept st2 (local_wf _ _ L) ltac:(lia)) as (st3 & E3 & _ & _ & _ & (_ & R2 & _) & _).
  rewrite E in E1, E3. injection E1 as _ <-. injection E3 as _ <-.
  assert (Ho : forall a, orig_view bs st' a = orig_view bs st2 a)
    by (intros a; unfold orig_view; by rewrite R2).
  assert (Hb : forall a, recent_view bs st' a = recent_view bs st2 a).
  { intros a. unfold recent_view. rewrite Ho. f_equal. apply (Hr a). }
  split; [|done]. split; [done|intros a; rewrite Ho; apply O| |].
  { transitivity st2; [exact C|by apply caches_same]. }
  destruct G as (X & HX & Hn). exists X.
  assert (He : forall a, bal bs st' a = bal bs st2 a) by (intros a; unfold bal; by rewrite Hb).
  split; [intros a Ha; rewrite He; by apply HX|].
  rewrite (zsum_ext (bal bs st') (bal bs st2)) by auto. done.
Qed.

(** A rejected frame restores the state, up to the touch of the RIPEMD precompile. *)
Lemma run_reject_frame n st st2 st' r :
  wf st -> fair bs n (pushed st) st2 -> reject_frame bs st2 = (ROk r, st') ->
  restored st st' \/ exists st1, restored st st1 /\ touch bs ripemd_address st1 = (ROk tt, st').
Proof.
  intros Hwf F E. unfold reject_frame in E. apply sbind_ok in E as (t & st3 & E3 & E).
  pose proof (nets_is_touched bs ripemd_address st2 t st3 (local_wf _ _ (fair_local _ _ _ _ F)) E3) as F3.
  apply sbind_ok in E as (u & st4 & E4 & E).
  pose proof (close_reject (n + 0) st st3 st4 u Hwf (fair_trans _ _ _ _ _ _ F F3) E4) as R.
  destruct t; [right|left].
  - exists st4. by destruct r.
  - by injection E as _ <-.
Qed.

Lemma run_push_ok st r st' : wf st -> push st = (ROk r, st') -> st' = pushed st /\ wf st'.
Proof.
  intros Hwf E. destruct (run_push st Hwf) as (st1 & E1 & W & ->). rewrite E in E1.
  by injection E1 as _ ->.
Qed.

Lemma reject_frame_fair n st st2 st' r :
  wf st -> fair bs n (pushed st) st2 -> reject_frame bs st2 = (ROk r, st') -> fair bs 0 st st'.
Proof.
  intros Hwf F E. destruct (run_reject_frame n st st2 st' r Hwf F E) as [R|(st1 & R & Et)].
  - by apply restored_fair.
  - apply (fair_trans bs 0 0 st st1); [by apply restored_fair|].
    by apply (nets_touch bs ripemd_address st1 tt); [apply R|].
Qed.
End frames.

(** ** The reserve-balance verdict reads only *)
Section verdict.
Context (bs : BlockReads).

Lemma nets_scan_account rev sender fees i ctx a vs :
  nets bs 0 (scan_account bs rev sender fees i ctx a vs).
Proof.
  unfold scan_account, scan_skip, scan_balance, is_destructed. nets.
  apply nets_calm, calm_get_original_balance.
Qed.

Lemma nets_revert_transaction rev sender tx base i ctx :
  nets bs 0 (revert_transaction bs rev sender tx base i ctx).
Proof.
  unfold revert_transaction, dipped_into_reserve, ctx_ok. nets.
  match goal with |- nets _ _ (scan_accounts _ _ _ _ _ _ ?l) => induction l as [|[a vs] rest IH] end; cbn [scan_accounts]; nets.
  apply nets_scan_account.
Qed.
End verdict.
#[export] Hint Resolve nets_revert_transaction : nets.

(** ** Messages *)
Section messages.
Context (t : Traits) (bs : BlockReads) (keccak256 : byte_string -> bytes32).
Context (tx : Transaction) (base_fee_per_gas : u256) (i : nat) (ctx : ChainContext)
  (log_native_transfers : bool) (block_hash_buffer : u64 -> option bytes32).
Context (precompile : Message -> SM (option Result)) (precompile_address : address -> bool).
Context (vm : Message -> byte_string -> vm_prog).
Context (Hpre : forall msg, nets bs 0 (precompile msg)).
Implicit Types (st : State) (msg : Message).

#[local] Abbreviation emit := (emit_native_transfer_event log_native_transfers).
#[local] Abbreviation transfer_balances := (transfer_balances bs log_native_transfers).
#[local] Abbreviation pre_call := (pre_call t bs log_native_transfers).
#[local] Abbreviation run_host := (run_host t bs log_native_transfers block_hash_buffer precompile_address).
#[local] Abbreviation run_vm := (run_vm t bs log_native_transfers block_hash_buffer precompile_address).
#[local] Abbreviation execute_call_message := (execute_call_message t bs tx base_fee_per_gas i ctx
  log_native_transfers block_hash_buffer precompile precompile_address vm).
#[local] Abbreviation create_frame := (create_frame t bs keccak256 tx base_fee_per_gas i ctx
  log_native_transfers block_hash_buffer precompile_address vm).
#[local] Abbreviation execute_create_message := (execute_create_message t bs keccak256 tx base_fee_per_gas i ctx
  log_native_transfers block_hash_buffer precompile_address vm).
#[local] Abbreviation host_call := (host_call t bs keccak256 tx base_fee_per_gas i ctx
  log_native_transfers block_hash_buffer precompile precompile_address vm).
#[local] Abbreviation verdict := (reserve_verdict t bs tx base_fee_per_gas i ctx).

Lemma nets_emit from to v : nets bs 0 (emit from to v).
Proof. unfold emit_native_transfer_event. nets. Qed.
#[local] Hint Resolve nets_emit : nets.

Lemma nets_transfer_balances msg to : nets bs 0 (transfer_balances msg to).
Proof. apply nets_transfer. auto with nets. Qed.

Lemma nets_verdict msg : nets bs 0 (verdict msg).
Proof. unfold reserve_verdict. nets. Qed.
#[local] Hint Resolve nets_transfer_balances nets_verdict : nets.

Lemma pre_call_run msg st r st1 :
  wf st -> pre_call msg st = (ROk r, st1) ->
  match r with
  | Some r => r = simple_result InsufficientBalance (gas msg) /\ restored bs st st1
  | None => fair bs 0 (pushed st) st1
  end.
Proof.
  intros Hwf E. unfold Evm.pre_call in E. apply sbind_ok in E as (u & st0 & E0 & E).
  destruct (run_push_ok st u st0 Hwf E0) as [-> W0].
  apply sbind_ok in E as (early & st2 & E2 & E).
  assert (H2 : match early with
    | Some r => r = simple_result InsufficientBalance (gas msg) /\ restored bs st st2
    | None => fair bs 0 (pushed st) st2 end).
  { destruct (negb (bool_decide _)); [|injection E2 as <- <-; by apply fair_refl].
    apply sbind_ok in E2 as (ok & st3 & E3 & E2).
    pose proof (nets_record_debit bs _ _ _ _ _ W0 E3) as F3. destruct ok; cbn [negb] in E2.
    - apply sbind_ok in E2 as (u' & st4 & E4 & E2). injection E2 as <- <-.
      apply (fair_trans bs 0 0 _ st3); [done|]. destruct (negb (Z.testbit _ _)).
      + by apply (nets_transfer_balances _ _ _ _ _ (local_wf _ _ (fair_local _ _ _ _ F3)) E4).
      + injection E4 as _ <-. by apply fair_refl, (fair_local _ _ _ _ F3).
    - apply sbind_ok in E2 as (u' & st4 & E4 & E2). injection E2 as <- <-. split; [done|].
      by apply (close_reject bs 0 st st3 st4 u'). }
  destruct early as [e|]; [by injection E as <- <-|].
  assert (Hk : nets bs 0 ((if negb (eth_ge (evm_rev t) MONAD_ETH_PRAGUE)
       then sassert (negb (bool_decide (kind msg = EVMC_CALL)) || (recipient msg =w? code_address msg))
       else sret tt) ;;
      (if bool_decide (kind msg = EVMC_CALL) && Z.testbit (flags msg) EVMC_STATIC
       then touch bs (recipient msg) else sret tt) ;;
      sret (A := option Result) None)) by nets.
  pose proof (Hk st2 r st1 (local_wf _ _ (fair_local _ _ _ _ H2)) E) as F.
  apply sbind_ok in E as (? & ? & _ & E). apply sbind_ok in E as (? & ? & _ & E).
  injection E as <- _. by apply (fair_trans bs 0 0 _ st2).
Qed.

Lemma post_call_fair st st2 result r st' :
  wf st -> fair bs 0 (pushed st) st2 -> post_call bs result st2 = (ROk r, st') -> fair bs 0 st st'.
Proof.
  intros Hwf F E. unfold post_call in E. apply sbind_ok in E as (? & ? & E1 & E).
  apply assert_ok in E1 as [_ ->]. apply sbind_ok in E as (? & ? & E1 & E).
  apply assert_ok in E1 as [_ ->]. destruct (succeeded result).
  - by apply (close_accept bs 0 st st2 st' r).
  - by apply (reject_frame_fair bs 0 st st2 st' r).
Qed.

Section host.
Context (call : Message -> SM Result) (Hcall : forall msg, nets bs 0 (call msg)).

Lemma nets_host {X} (o : hostE X) : nets bs 0 (run_host call o).
Proof using Hcall. destruct o; simpl; unfold get_block_hash; nets. Qed.

Lemma nets_vm p : nets bs 0 (run_vm call p).
Proof using Hcall.
  induction p as [r| |X o k IH]; simpl; [apply nets_ret|apply nets_halt|]. apply nets_bind0; [apply nets_host|done].
Qed.

(** A call either cannot be paid, or runs in a frame of its own that its result closes. *)
Lemma call_message_run msg st r st' :
  wf st -> execute_call_message call msg st = (ROk r, st') ->
  (r = simple_result InsufficientBalance (gas msg) /\ restored bs st st') \/
  exists st2, fair bs 0 (pushed st) st2 /\ post_call bs r st2 = (ROk tt, st').
Proof using Hcall Hpre.
  intros Hwf E. unfold Evm.execute_call_message in E.
  apply sbind_ok in E as (? & ? & E1 & E). apply assert_ok in E1 as [_ ->].
  apply sbind_ok in E as (early & st1 & E1 & E). pose proof (pre_call_run msg st early st1 Hwf E1) as H1.
  destruct early as [e|]; [injection E as <- <-; by left|right].
  apply sbind_ok in E as (mr & st2 & E2 & E). apply sbind_ok in E as (result & st3 & E3 & E).
  apply sbind_ok in E as (v & st4 & E4 & E). apply sbind_ok in E as ([] & st5 & E5 & E).
  injection E as <- <-. exists st4. split; [|done].
  assert (F2 : fair bs 0 (pushed st) st2)
    by (apply (fair_trans bs 0 0 _ st1); [done|]; by apply (Hpre msg st1 mr); [apply H1|]).
  assert (F3 : fair bs 0 (pushed st) st3).
  { apply (fair_trans bs 0 0 _ st2); [done|].
    assert (Hk : nets bs 0 (match mr with Some r => sret r | None =>
      hash <- get_code_hash bs (code_address msg) ;; code <- read_code_ bs hash ;;
      run_vm call (vm msg code) end)) by (nets; apply nets_vm).
    by apply (Hk st2 result); [apply F2|]. }
  apply (fair_trans bs 0 0 _ st3); [done|]. by apply (nets_verdict msg st3 v); [apply F3|].
Qed.

Lemma nets_call_message msg : nets bs 0 (execute_call_message call msg).
Proof using Hcall Hpre.
  intros st x st' Hwf E. destruct (call_message_run msg st x st' Hwf E) as [[_ R]|(st2 & F & E2)].
  - by apply restored_fair.
  - by apply (post_call_fair st st2 x tt).
Qed.

Lemma nets_deploy a r : nets bs 0 (deploy_contract_code t bs keccak256 a r).
Proof. unfold deploy_contract_code. nets. Qed.
#[local] Hint Resolve nets_deploy : nets.

(** The part of a creation that runs in its frame. *)
Lemma nets_create_body {A} msg a (k : Result -> bool -> SM A) :
  (forall r v, nets bs 0 (k r v)) ->
  nets bs 0 (create_contract bs a ;; set_nonce bs a #1 ;; transfer_balances msg a ;;
    result <- run_vm call (vm (create_call msg a) (input_data msg)) ;;
    result <- (if succeeded result then deploy_contract_code t bs keccak256 a result else sret result) ;;
    violation <- verdict msg ;; k result violation).
Proof using Hcall. intros Hk. nets. by apply nets_vm. Qed.

(** A creation that gets as far as its frame; its result closes it. *)
Lemma create_frame_run msg a st r st' :
  wf st -> create_frame call msg a st = (ROk r, st') ->
  exists st2, fair bs 0 (pushed st) st2 /\
    (if succeeded r then pop_accept else reject_frame bs) st2 = (ROk tt, st').
Proof using Hcall.
  intros Hwf E. unfold Evm.create_frame in E. apply sbind_ok in E as (u & st0 & E0 & E).
  destruct (run_push_ok st u st0 Hwf E0) as [-> W0].
  apply sbind_ok in E as (u1 & st1 & E1 & E). apply sbind_ok in E as (u2 & st2 & E2 & E).
  apply sbind_ok in E as (u3 & st3 & E3 & E). apply sbind_ok in E as (r0 & st4 & E4 & E).
  apply sbind_ok in E as (r1 & st5 & E5 & E). apply sbind_ok in E as (v & st6 & E6 & E).
  exists st6. split.
  - apply (nets_create_body msg a (fun _ v => sret v) ltac:(intros; apply nets_ret) _ v); [done|].
    unfold sbind. by rewrite E1, E2, E3, E4, E5, E6.
  - clear E0 E1 E2 E3 E4 E5 E6. revert E. cbv zeta. match goal with |- context [succeeded ?r] => set (r2 := r) end.
    destruct (succeeded r2) eqn:Es; intros E; apply sbind_ok in E as ([] & st7 & E7 & E); injection E as <- <-.
    + by rewrite Es.
    + assert (Hs : forall (c : bool) g, succeeded (if c then with_refund 0 r2 else with_gas_left g (with_refund 0 r2)) = false)
        by (intros [] g; exact Es).
      by rewrite Hs.
Qed.

Lemma nets_create_frame msg a : nets bs 0 (create_frame call msg a).
Proof using Hcall.
  intros st x st' Hwf E. destruct (create_frame_run msg a st x st' Hwf E) as (st2 & F & E2).
  destruct (succeeded x).
  - by apply (close_accept bs 0 st st2 st' tt).
  - by apply (reject_frame_fair bs 0 st st2 st' tt).
Qed.

Lemma nets_create_insufficient msg : nets bs 0 (create_insufficient t bs msg).
Proof. unfold create_insufficient. nets. Qed.
#[local] Hint Resolve nets_create_frame nets_create_insufficient : nets.

Lemma nets_create_message msg : nets bs 0 (execute_create_message call msg).
Proof using Hcall. unfold Evm.execute_create_message, sender_has_balance. nets. Qed.
End host.

(** Every message: by induction on the call depth. *)
Lemma nets_host_call fuel msg : nets bs 0 (host_call fuel msg).
Proof using Hpre.
  revert msg. induction fuel as [|fuel IH]; intros msg; cbn [Evm.host_call]; [apply nets_halt|].
  destruct (is_create (kind msg)).
  - apply nets_bind0; [by apply nets_create_message|]. intros r. apply nets_ret.
  - by apply nets_call_message.
Qed.
End messages.

(** ** The precompiles *)
Section precompiles.
Context (bs : BlockReads).

(** What an operation credits. *)
Definition credits {X} (op : stateE X) : Z :=
  match op with AddToBalance _ x => uval x | SubtractFromBalance _ x => - x | _ => 0 end.

Lemma handle_fair {X : Set} (op : stateE X) st l x s' :
  wf st -> handle_state bs X op (st, l) = (ROk x, s') -> fair bs (credits op) st s'.1.
Proof.
  intros Hwf. destruct op as [a k|a k v|a|a d|a d|lg|lg]; simpl; unfold on_state; simpl.
  all: try match goal with |- context [let '(_, _) := ?m ?s in _] => destruct (m s) as [y st1] eqn:E end.
  all: intros E0; injection E0 as ? <-; subst; simpl.
  - by apply (nets_get_storage bs a k st x).
  - assert (Hi : nets bs 0 (ignore (set_storage bs a k v))) by (unfold ignore; nets).
    by apply (Hi st x).
  - by apply (nets_get_balance bs a st x).
  - by apply (nets_add bs a d st x).
  - by apply (nets_sub bs a d st x).
  - by apply (nets_store_log bs lg st x).
  - by apply fair_refl.
Qed.

Lemma run_settles {E A} (p : prog E A) d st l x s' :
  settles d p -> wf st -> run_with (handle_state bs) p (st, l) = (ROk x, s') -> fair bs d st s'.1.
Proof.
  revert d st l. induction p as [a|e|m| |X op k IH]; simpl; intros d st l Hs Hwf Er; try done.
  - injection Er as _ <-. apply (fair_mono bs 0); [done|by apply fair_refl].
  - destruct (handle_state bs X op (st, l)) as [[y|[]|m|] [st1 l1]] eqn:Eo; try done.
    pose proof (handle_fair op st l y _ Hwf Eo) as F. simpl in F.
    apply (fair_mono bs (credits op + (d - credits op))); [lia|].
    apply (fair_trans bs _ _ _ st1); [done|]. apply (IH y _ st1 l1); [|apply F|done].
    specialize (Hs y). revert Hs. unfold credits. destruct op; by rewrite ?Z.sub_0_r, ?Z.sub_opp_r.
Qed.

Lemma nets_run_contract {A} (p : prog Empty_set A) d : settles d p -> nets bs d (run_contract bs p).
Proof.
  intros Hs st x st' Hwf E. unfold run_contract in E.
  destruct (run_with (handle_state bs) p (st, [])) as [r [st1 l]] eqn:Er. injection E as -> <-.
  by apply (run_settles p d st [] x (st1, l)).
Qed.

Context `{Crypto}.

Lemma nets_staking rev msg : nets bs 0 (run_contract bs (check_call_monad_precompile rev msg)).
Proof.
  apply nets_run_contract. assert (Hw : within (check_call_monad_precompile rev msg)); [|apply Hw].
  unfold check_call_monad_precompile. within.
  - by apply within_attempt, within_method.
  - destruct a; within.
Qed.
#[local] Hint Resolve nets_staking : nets.

Lemma nets_touch_contract a : nets bs 0 (add_to_balance bs a #0).
Proof. apply (nets_add bs a #0). Qed.
#[local] Hint Resolve nets_touch_contract : nets.

Lemma nets_check_call_precompile t resolve msg : nets bs 0 (check_call_precompile t bs resolve msg).
Proof.
  unfold check_call_precompile, check_call_reserve_balance, precompile_dipped_into_reserve,
    revert_transaction_cached, dipped_into_reserve_cached. nets.
Qed.
End precompiles.
