(* ===== verification/EvmMessages.v ===== *)
(** * What a message does to the state

    The theorems about calls and creations (Evm.v): no message creates ether or
    reaches below its frame, a message that fails is undone up to the nonce of a
    creating sender, a result never returns more gas than the message had, and the
    call depth limit is enough fuel. *)
From S2P Require Import Prelude Prog Abi StakingVars Transaction Rlp VersionStack State3 StateHooks ReserveSpec StateFrames StateRefine ReserveTrack ReserveBalance StakingContract StakingSyscalls StakingRefine Demo Evm EvmFrames.
#[local] Open Scope sm_scope.


(** ** Undone messages *)
Section undone.
Context (bs : BlockReads).
Implicit Types (st : State) (a who : address).
#[local] Abbreviation recent_view := (recent_view bs).

















End undone.

Section reads.
Context (bs : BlockReads).
Implicit Types (st : State) (a : address).




End reads.

(** ** Failed messages *)
Section failed.
Context (t : Traits) (bs : BlockReads) (keccak256 : byte_string -> bytes32).
Context (tx : Transaction) (base_fee_per_gas : u256) (i : nat) (ctx : ChainContext)
  (log_native_transfers : bool) (block_hash_buffer : u64 -> option bytes32).
Context (precompile : Message -> SM (option Result)) (precompile_address : address -> bool).
Context (vm : Message -> byte_string -> vm_prog).
Implicit Types (st : State) (msg : Message).
#[local] Abbreviation host_call := (host_call t bs keccak256 tx base_fee_per_gas i ctx
  log_native_transfers block_hash_buffer precompile precompile_address vm).
#[local] Abbreviation execute_create_message := (execute_create_message t bs keccak256 tx base_fee_per_gas i ctx
  log_native_transfers block_hash_buffer precompile_address vm).



Section host.
Context (call : Message -> SM Result) (Hcall : forall msg, nets bs 0 (call msg)).



Context (Hpre : forall msg, nets bs 0 (precompile msg)).

End host.
End failed.

(** ** The contract between the host and the virtual machine *)

(** What a message may return of its [g] gas, and when it may claim a refund. *)
Definition returns_ok (g : Z) (r : Result) : Prop :=
  0 <= r_gas_left r <= g /\ (succeeded r = true \/ r_gas_refund r = 0).

(** The results of the machine and of the precompiles, which [post_call] asserts. *)
Definition result_ok (g : Z) (r : Result) : Prop :=
  returns_ok g r /\ (keeps_gas (r_status r) = true \/ r_gas_left r = 0).

(** A program run at depth [d] with [g] gas: it sends messages one level deeper and
    never below the limit, with gas of its own, and if they return as the host
    promises, it returns as it promises. *)
Definition max_call_depth : Z := 1024.

Fixpoint obeys (d g : Z) (p : vm_prog) : Prop :=
  match p with
  | VmDone r => result_ok g r
  | VmAbort => True
  | @VmHost X o k =>
      match o in hostE X return ((X -> Prop) -> Prop) -> Prop with
      | HCall m => fun ok =>
          depth m = d + 1 /\ depth m <= max_call_depth /\ 0 <= gas m /\ ok (returns_ok (gas m))
      | _ => fun ok => ok (fun _ => True)
      end (fun Q => forall x, Q x -> obeys d g (k x))
  end.

Class WellBehaved (vm : Message -> byte_string -> vm_prog) : Prop := {
  vm_obeys : forall msg code, 0 <= gas msg -> obeys (depth msg) (gas msg) (vm msg code) }.

Lemma sbind_ext {A C} (m m' : SM A) (f f' : A -> SM C) st :
  m st = m' st -> (forall x st', m st = (ROk x, st') -> f x st' = f' x st') -> sbind m f st = sbind m' f' st.
Proof. intros E H. unfold sbind. rewrite <- E. destruct (m st) as [[]]; auto. Qed.

Section host.
Context (t : Traits) (bs : BlockReads) (keccak256 : byte_string -> bytes32).
Context (tx : Transaction) (base_fee_per_gas : u256) (i : nat) (ctx : ChainContext)
  (log_native_transfers : bool) (block_hash_buffer : u64 -> option bytes32).
Context (precompile : Message -> SM (option Result)) (precompile_address : address -> bool).
Context (vm : Message -> byte_string -> vm_prog) `{Hvm : !WellBehaved vm}.
Context (Hgas : forall msg st r st', 0 <= gas msg -> precompile msg st = (ROk (Some r), st') ->
  result_ok (gas msg) r).
Implicit Types (st : State) (msg : Message).
#[local] Abbreviation run_vm := (run_vm t bs log_native_transfers block_hash_buffer precompile_address).
#[local] Abbreviation execute_call_message := (execute_call_message t bs tx base_fee_per_gas i ctx
  log_native_transfers block_hash_buffer precompile precompile_address vm).
#[local] Abbreviation create_frame := (create_frame t bs keccak256 tx base_fee_per_gas i ctx
  log_native_transfers block_hash_buffer precompile_address vm).
#[local] Abbreviation execute_create_message := (execute_create_message t bs keccak256 tx base_fee_per_gas i ctx
  log_native_transfers block_hash_buffer precompile_address vm).
#[local] Abbreviation host_call := (host_call t bs keccak256 tx base_fee_per_gas i ctx
  log_native_transfers block_hash_buffer precompile precompile_address vm).

(** *** Gas *)
Section call.
Context (call : Message -> SM Result).
Context (Hcall : forall msg st r st', 0 <= gas msg -> call msg st = (ROk r, st') -> returns_ok (gas msg) r).

Lemma vm_result d g p st r st' : obeys d g p -> run_vm call p st = (ROk r, st') -> result_ok g r.
Proof using Hcall.
  revert st. induction p as [r0| |X o k IH]; intros st Ho E; simpl in *; [|done|].
  - by injection E as <- _.
  - apply sbind_ok in E as (x & st1 & E1 & E). apply (IH x st1); [|done].
    destruct o; try by apply Ho. destruct Ho as (_ & _ & Hg & Ho). apply Ho. by apply (Hcall _ st x st1).
Qed.

Lemma call_gas msg st r st' :
  0 <= gas msg -> execute_call_message call msg st = (ROk r, st') -> returns_ok (gas msg) r.
Proof using Hcall Hgas Hvm.
  intros Hg E. unfold Evm.execute_call_message in E. apply sbind_ok in E as (? & ? & _ & E).
  apply sbind_ok in E as (early & st1 & E1 & E). destruct early as [e|].
  { injection E as <- <-. unfold pre_call in E1. apply sbind_ok in E1 as (? & ? & _ & E1).
    apply sbind_ok in E1 as (early & st2 & E2 & E1). destruct early as [e'|].
    - injection E1 as <- _. destruct (negb (bool_decide _)); [|done].
      apply sbind_ok in E2 as (ok & st3 & E3 & E2). destruct ok; cbn [negb] in E2;
        apply sbind_ok in E2 as (? & ? & _ & E2); [done|]. injection E2 as <- _.
      split; simpl; [lia|by right].
    - apply sbind_ok in E1 as (? & ? & _ & E1). by apply sbind_ok in E1 as (? & ? & _ & E1). }
  apply sbind_ok in E as (mr & st2 & E2 & E). apply sbind_ok in E as (result & st3 & E3 & E).
  apply sbind_ok in E as (v & st4 & E4 & E). apply sbind_ok in E as (? & ? & _ & E). injection E as <- _.
  assert (Hr : returns_ok (gas msg) result).
  { destruct mr as [r0|].
    - injection E3 as <- _. by apply (Hgas msg st1 r0 st2).
    - apply sbind_ok in E3 as (h & ? & _ & E3). apply sbind_ok in E3 as (c & ? & _ & E3).
      eapply vm_result; [by apply vm_obeys|exact E3]. }
  destruct v; [|done]. destruct Hr as [Hr _]. split; [done|by right].
Qed.

Lemma deploy_gas g a r st r' st' :
  0 <= r_gas_left r <= g -> deploy_contract_code t bs keccak256 a r st = (ROk r', st') ->
  0 <= r_gas_left r' <= g.
Proof.
  intros Hr E. unfold deploy_contract_code in E. apply sbind_ok in E as (? & ? & _ & E).
  destruct (_ && _); [injection E as <- _; simpl; lia|].
  destruct (_ <? _); [injection E as <- _; simpl; lia|].
  destruct (Z.ltb_spec (r_gas_left r) (zlen (r_output r) * 200)); [by injection E as <- _|].
  apply sbind_ok in E as (? & ? & _ & E). injection E as <- _. simpl. unfold zlen in *. lia.
Qed.

Lemma create_frame_gas msg a st r st' :
  0 <= gas msg -> create_frame call msg a st = (ROk r, st') -> returns_ok (gas msg) r.
Proof using Hcall Hvm.
  intros Hg E. unfold Evm.create_frame in E. do 4 apply sbind_ok in E as (? & ? & _ & E).
  apply sbind_ok in E as (r0 & st1 & E0 & E). apply sbind_ok in E as (r1 & st2 & E1 & E).
  apply sbind_ok in E as (v & ? & _ & E).
  assert (H0 : 0 <= r_gas_left r0 <= gas msg)
    by apply (vm_result _ _ _ _ _ _ (vm_obeys (create_call msg a) (input_data msg) Hg) E0).
  assert (H1 : 0 <= r_gas_left r1 <= gas msg).
  { destruct (succeeded r0); [by apply (deploy_gas _ _ _ _ _ _ H0 E1)|by injection E1 as <- _]. }
  assert (H2 : forall s, 0 <= r_gas_left (with_status s r1) <= gas msg) by done.
  revert E. cbv zeta. match goal with |- context [succeeded ?r] => set (r2 := r) end.
  assert (H3 : 0 <= r_gas_left r2 <= gas msg) by (unfold r2; destruct v; auto). clearbody r2.
  destruct (succeeded r2) eqn:Es; intros E; apply sbind_ok in E as (? & ? & _ & E); injection E as <- _.
  - split; [done|by left].
  - destruct (bool_decide _); (split; [simpl; lia|by right]).
Qed.

Lemma create_gas msg st r st' :
  0 <= gas msg -> execute_create_message call msg st = (ROk r, st') -> returns_ok (gas msg) r.
Proof using Hcall Hvm.
  intros Hg E. unfold Evm.execute_create_message in E. apply sbind_ok in E as (? & ? & _ & E).
  assert (Hk : forall s g, 0 <= g <= gas msg -> returns_ok (gas msg) (simple_result s g))
    by (intros s g H; split; [done|by right]).
  apply sbind_ok in E as (ok & ? & _ & E). destruct ok; cbn [negb] in E.
  2:{ unfold create_insufficient in E. apply sbind_ok in E as (? & ? & _ & E). injection E as <- _. apply Hk. lia. }
  apply sbind_ok in E as (n & ? & _ & E). destruct (_ =? _); [injection E as <- _; apply Hk; lia|].
  apply sbind_ok in E as (? & ? & _ & E). cbv zeta in E. do 3 apply sbind_ok in E as (? & ? & _ & E).
  destruct (_ || _); [injection E as <- _; apply Hk; lia|]. by apply create_frame_gas in E.
Qed.
End call.

Lemma host_call_gas fuel msg st r st' :
  0 <= gas msg -> host_call fuel msg st = (ROk r, st') -> returns_ok (gas msg) r.
Proof using Hgas Hvm.
  revert msg st r st'. induction fuel as [|fuel IH]; intros msg st r st' Hg E; cbn [Evm.host_call] in E; [done|].
  destruct (is_create (kind msg)).
  - apply sbind_ok in E as (r0 & st1 & E0 & E). injection E as <- _.
    apply (create_gas (host_call fuel) IH) in E0; [|done]. by destruct (bool_decide _).
  - by apply (call_gas (host_call fuel) IH) in E.
Qed.

(** A result that is neither a success nor a revert nor a violation of the reserve
    keeps no gas, unless the message did not start: then it keeps all of it. *)
Definition gas_kept (g : Z) (r : Result) : Prop :=
  keeps_gas (r_status r) = true \/ r_gas_left r = 0 \/
  ((r_status r = InsufficientBalance \/ r_status r = ArgumentOutOfRange) /\ r_gas_left r = g).

Lemma call_gas_kept call msg st r st' :
  execute_call_message call msg st = (ROk r, st') -> gas_kept (gas msg) r.
Proof.
  intros E. unfold Evm.execute_call_message in E. apply sbind_ok in E as (? & ? & _ & E).
  apply sbind_ok in E as (early & st1 & E1 & E). destruct early as [e|].
  { injection E as <- <-. unfold pre_call in E1. apply sbind_ok in E1 as (? & ? & _ & E1).
    apply sbind_ok in E1 as (early & st2 & E2 & E1). destruct early as [e'|].
    - injection E1 as <- _. destruct (negb (bool_decide _)); [|done].
      apply sbind_ok in E2 as (ok & st3 & E3 & E2). destruct ok; cbn [negb] in E2;
        apply sbind_ok in E2 as (? & ? & _ & E2); [done|]. injection E2 as <- _.
      right. right. by split; [left|].
    - apply sbind_ok in E1 as (? & ? & _ & E1). by apply sbind_ok in E1 as (? & ? & _ & E1). }
  do 3 apply sbind_ok in E as (? & ? & _ & E). apply sbind_ok in E as (? & ? & E2 & E). injection E as <- _.
  unfold post_call in E2. apply sbind_ok in E2 as (? & ? & _ & E2).
  apply sbind_ok in E2 as (? & ? & [Hk _]%assert_ok & _).
  apply orb_true_iff in Hk as [Hk|Hk%Z.eqb_eq]; [by left|by right; left].
Qed.

Lemma create_gas_kept call msg st r st' :
  execute_create_message call msg st = (ROk r, st') -> gas_kept (gas msg) r.
Proof.
  intros E. unfold Evm.execute_create_message in E. apply sbind_ok in E as (? & ? & _ & E).
  apply sbind_ok in E as (ok & ? & _ & E). destruct ok; cbn [negb] in E.
  2:{ unfold create_insufficient in E. apply sbind_ok in E as (? & ? & _ & E). injection E as <- _.
      right. right. by split; [left|]. }
  apply sbind_ok in E as (n & ? & _ & E).
  destruct (_ =? _); [injection E as <- _; right; right; by split; [right|]|].
  apply sbind_ok in E as (? & ? & _ & E). cbv zeta in E. do 3 apply sbind_ok in E as (? & ? & _ & E).
  destruct (_ || _); [injection E as <- _; by right; left|].
  unfold Evm.create_frame in E. do 6 apply sbind_ok in E as (? & ? & _ & E).
  apply sbind_ok in E as (v & ? & _ & E). revert E. cbv zeta.
  match goal with |- context [succeeded ?r] => set (r2 := r) end. clearbody r2.
  destruct (succeeded r2) eqn:Es; intros E; apply sbind_ok in E as (? & ? & _ & E); injection E as <- _.
  - left. apply bool_decide_eq_true in Es. by rewrite Es.
  - case_bool_decide as Hr; [left|by right; left]. unfold gas_kept. cbn [r_status with_refund] in *. by rewrite Hr.
Qed.

Lemma host_call_gas_kept fuel msg st r st' :
  host_call fuel msg st = (ROk r, st') -> gas_kept (gas msg) r.
Proof.
  destruct fuel as [|fuel]; cbn [Evm.host_call]; [done|]. intros E. destruct (is_create (kind msg)).
  - apply sbind_ok in E as (r0 & st1 & E0 & E). injection E as <- _. apply create_gas_kept in E0.
    by destruct (bool_decide _).
  - by apply call_gas_kept in E.
Qed.

(** *** Depth *)
Section depth.
Context (call call' : Message -> SM Result) (msg0 : Message) (Hg : 0 <= gas msg0).
Context (Hcall : forall msg st r st', 0 <= gas msg -> call msg st = (ROk r, st') -> returns_ok (gas msg) r).
Context (Hext : forall msg st, depth msg = depth msg0 + 1 -> depth msg <= max_call_depth -> 0 <= gas msg ->
  call msg st = call' msg st).

Lemma run_vm_ext g p st : obeys (depth msg0) g p -> run_vm call p st = run_vm call' p st.
Proof using Hcall Hext.
  revert st. induction p as [r0| |X o k IH]; intros st Ho; simpl in *; [done..|].
  apply sbind_ext.
  - destruct o; try done. destruct Ho as (? & ? & ? & _). by apply Hext.
  - intros x st' E. apply IH. destruct o; try by apply Ho.
    destruct Ho as (_ & _ & Hm & Ho). apply Ho. by apply (Hcall _ st x st').
Qed.

Lemma call_message_ext st : execute_call_message call msg0 st = execute_call_message call' msg0 st.
Proof using Hcall Hext Hg Hvm.
  unfold Evm.execute_call_message. apply sbind_ext; [done|]. intros _ st1 _.
  apply sbind_ext; [done|]. intros early st2 _. destruct early; [done|].
  apply sbind_ext; [done|]. intros mr st3 _. apply sbind_ext; [|done].
  destruct mr; [done|]. apply sbind_ext; [done|]. intros h st4 _. apply sbind_ext; [done|]. intros c st5 _.
  by eapply run_vm_ext, vm_obeys.
Qed.

Lemma create_message_ext st : execute_create_message call msg0 st = execute_create_message call' msg0 st.
Proof using Hcall Hext Hg Hvm.
  unfold Evm.execute_create_message. apply sbind_ext; [done|]. intros _ st1 _.
  apply sbind_ext; [done|]. intros ok st2 _. destruct (negb ok); [done|].
  apply sbind_ext; [done|]. intros n st3 _. destruct (_ =? _); [done|].
  apply sbind_ext; [done|]. intros _ st4 _. cbv zeta. apply sbind_ext; [done|]. intros _ st5 _.
  apply sbind_ext; [done|]. intros n' st6 _. apply sbind_ext; [done|]. intros h st7 _.
  destruct (_ || _); [done|]. unfold Evm.create_frame. do 4 (apply sbind_ext; [done|]; intros ? ? _).
  apply sbind_ext; [|done].
  by eapply run_vm_ext, (vm_obeys (create_call msg0 (contract_address_of keccak256 msg0 n))).
Qed.
End depth.

Lemma host_call_fuel f f' msg st :
  0 <= gas msg -> depth msg <= max_call_depth ->
  max_call_depth + 1 - depth msg <= Z.of_nat f -> max_call_depth + 1 - depth msg <= Z.of_nat f' ->
  host_call f msg st = host_call f' msg st.
Proof using Hgas Hvm.
  revert f' msg st. induction f as [|f IH]; intros [|f'] msg st Hg Hd Hf Hf'; try lia.
  cbn [Evm.host_call].
  assert (Hext : forall m s, depth m = depth msg + 1 -> depth m <= max_call_depth -> 0 <= gas m ->
    host_call f m s = host_call f' m s) by (intros m s H1 H2 H3; apply IH; lia).
  assert (Hok : forall m s r s', 0 <= gas m -> host_call f m s = (ROk r, s') -> returns_ok (gas m) r)
    by (intros m s r s'; apply host_call_gas).
  destruct (is_create (kind msg)).
  - apply sbind_ext; [|done]. by apply create_message_ext.
  - by apply call_message_ext.
Qed.
End host.

(** ** The precompiles keep their side *)
Section precompiles.
Context (t : Traits) (bs : BlockReads) (resolve : address -> option PrecompiledContract) `{Crypto}.

Lemma simple_ok g s g' : 0 <= g' <= g -> (keeps_gas s = true \/ g' = 0) -> result_ok g (simple_result s g').
Proof. intros Hg Hs. split; [split; [done|by right]|done]. Qed.

Lemma eth_precompile_gas msg r :
  0 <= gas msg -> check_call_eth_precompile t resolve msg = Some r -> result_ok (gas msg) r.
Proof.
  intros Hg. unfold check_call_eth_precompile. destruct (resolve _) as [p|]; [|done].
  destruct (_ && _); [intros [= <-]; apply simple_ok; [lia|by left]|].
  destruct (gas_cost_func p _) as [cost|]; [|intros [= <-]; apply simple_ok; [lia|by right]].
  destruct (Z.ltb_spec (gas msg) cost); [intros [= <-]; apply simple_ok; [lia|by right]|].
  destruct (execute_func p _) as [s out]. intros [= <-].
  pose proof (uword_range cost). case_bool_decide as Hs; (split; [split; [simpl; lia|by right]|]); simpl.
  - left. by rewrite Hs.
  - by right.
Qed.

Lemma staking_gas rev msg st r st' :
  0 <= gas msg ->
  run_contract bs (check_call_monad_precompile rev (staking_message msg)) st = (ROk (Some r), st') ->
  result_ok (gas msg) (staking_result r).
Proof.
  intros Hg E. unfold run_contract, check_call_monad_precompile in E. cbn [msg_code_address staking_message] in E.
  destruct (negb (_ =w? _)); [done|]. destruct (_ || _).
  { injection E as <- _. apply (simple_ok _ Rejected 0); [lia|by right]. }
  destruct (precompile_dispatch rev _) as [[method cost] input]. cbn [msg_gas staking_message] in E.
  pose proof (uword_range cost) as Hc.
  destruct (Z.ltb_spec (gas msg) cost); [injection E as <- _; apply (simple_ok _ OutOfGas 0); [lia|by right]|].
  rewrite run_with_bind in E. destruct (run_with _ (attempt _) _) as [[[out|e]|[]|m|] s]; try done;
    injection E as <- _; (split; [split; [simpl; lia|by right]|]); [by left|by right].
Qed.

Lemma reserve_gas rev msg st r st' :
  0 <= gas msg -> check_call_reserve_balance bs rev msg st = (ROk (Some r), st') -> result_ok (gas msg) r.
Proof.
  intros Hg E. unfold check_call_reserve_balance in E. destruct (negb (_ =w? _)); [done|]. destruct (_ || _).
  { injection E as <- _. apply simple_ok; [lia|by right]. }
  destruct (rb_precompile_dispatch _) as [[method cost] input] eqn:Ed.
  assert (Hc : 0 <= cost).
  { revert Ed. unfold rb_precompile_dispatch, FALLBACK_COST, DIPPED_INTO_RESERVE_OP_COST.
    destruct (_ <? _)%nat; [|destruct (_ =w? _)]; intros Ed; injection Ed as _ <- _; lia. }
  destruct (Z.ltb_spec (gas msg) cost); [injection E as <- _; apply simple_ok; [lia|by right]|].
  apply sbind_ok in E as (? & ? & _ & E). apply sbind_ok in E as (res & ? & _ & E). injection E as <- _.
  destruct res; (split; [split; [simpl; lia|by right]|]); [by left|by right].
Qed.

Lemma check_call_precompile_gas msg st r st' :
  0 <= gas msg -> check_call_precompile t bs resolve msg st = (ROk (Some r), st') -> result_ok (gas msg) r.
Proof.
  intros Hg E. unfold check_call_precompile in E.
  destruct (check_call_eth_precompile t resolve msg) as [r0|] eqn:Ee.
  { injection E as <- _. by apply eth_precompile_gas. }
  destruct t as [|rev]; [done|]. apply sbind_ok in E as (mr & st1 & E1 & E). destruct mr as [r1|].
  - injection E as <- _. destruct (rev_ge rev MONAD_FOUR); [|done].
    apply sbind_ok in E1 as (r2 & st2 & E2 & E1). destruct r2 as [r2|]; [|done]. injection E1 as <- _.
    by apply (staking_gas rev msg st r2 st2).
  - destruct (rev_ge rev MONAD_NINE); [by apply (reserve_gas rev msg st1 r st')|done].
Qed.
End precompiles.

(** An account with no current version is its original. *)
Lemma unloaded_account bs st st' a :
  (forall a, account_ (orig_view bs st' a) = account_ (orig_view bs st a)) ->
  current_ st !! a = None -> current_ st' !! a = None ->
  account_ (recent_view bs st' a) = account_ (recent_view bs st a).
Proof. intros Ho E E'. unfold recent_view. rewrite E, E'. apply Ho. Qed.

(** A gain shows on every set outside of which no balance changed. *)
Lemma gains_loaded bs n st st' (Y : gset address) :
  (forall a, a ∉ Y -> bal bs st' a = bal bs st a) -> gains bs n st st' ->
  zsum (bal bs st') Y <= zsum (bal bs st) Y + n.
Proof.
  intros HY (X & HX & Hn). pose proof (gains_on bs n st st' X (X ∪ Y) ltac:(set_solver) HX Hn) as H.
  replace (X ∪ Y) with (Y ∪ X ∖ Y) in H by (apply set_eq; intros a; destruct (decide (a ∈ Y)); set_solver).
  rewrite !zsum_union in H by set_solver.
  rewrite (zsum_ext (bal bs st') (bal bs st) (X ∖ Y)) in H by (intros a Ha; apply HY; set_solver). lia.
Qed.

(** ** Theorems *)

(** C25: no message creates ether or reaches below its frame.  A message - a call or
    a creation, with everything it calls in turn, on any virtual machine - that
    returns on a well-formed state leaves a well-formed state in the same frame, with
    the frames below and the original accounts untouched.  An account that is loaded
    neither before nor after it has the balance, nonce, code hash and incarnation it
    had, and the total balance of the accounts that are loaded before or after it has
    not grown. *)
Theorem message_conserves `{Crypto} (h : EvmcHost) fuel (msg : Message) (st : State) r st' :
  wf st -> evmc_call h fuel msg st = (ROk r, st') ->
  wf st' /\ version_ st' = version_ st /\
  (forall j a, (j < version_ st)%nat -> below j (stack st' a) = below j (stack st a)) /\
  (forall j, (j < version_ st)%nat -> below j (logs_ st') = below j (logs_ st)) /\
  (forall a, account_ (orig_view (block_reads h) st' a) = account_ (orig_view (block_reads h) st a)) /\
  (forall a, current_ st !! a = None -> current_ st' !! a = None ->
     account_ (recent_view (block_reads h) st' a) = account_ (recent_view (block_reads h) st a)) /\
  zsum (bal (block_reads h) st') (dom (current_ st) ∪ dom (current_ st')) <=
  zsum (bal (block_reads h) st) (dom (current_ st) ∪ dom (current_ st')).
Proof.
  intros Hwf E.
  assert (F : fair (block_reads h) 0 st st').
  { unfold evmc_call in E. revert E. apply nets_host_call; [|done]. intros m. apply nets_check_call_precompile. }
  pose proof (fun a => unloaded_account (block_reads h) st st' a (fair_orig _ _ _ _ F)) as Hu.
  split_and!; try apply (fair_local _ _ _ _ F); [apply F|done|].
  rewrite <- (Z.add_0_r (zsum (bal _ st) _)). apply gains_loaded, F. intros a Ha.
  apply not_elem_of_union in Ha as [H1%not_elem_of_dom H2%not_elem_of_dom]. unfold bal, balance_of. by rewrite Hu.
Qed.


(** C27: gas is never created, by contract with the virtual machine.  If the machine
    returns at most the gas it was given whenever its calls do, claims refunds only
    on success and keeps gas only on success or revert, then no message, through
    precompiles, calls and creations, returns more gas than it was given; it claims
    a refund only if it succeeds; and it returns gas only on a success, a revert or a
    violation of the reserve, but for a message that does not start, because it
    cannot pay its value or its sender has no nonce left, which returns all of it. *)
Theorem message_gas_bounded `{Crypto} (h : EvmcHost) `{!WellBehaved (vm h)} fuel (msg : Message) (st : State) r st' :
  0 <= gas msg -> evmc_call h fuel msg st = (ROk r, st') ->
  0 <= r_gas_left r <= gas msg /\ (r_status r = Success \/ r_gas_refund r = 0) /\
  (r_status r ∈ [Success; Revert; ReserveBalanceViolation] \/ r_gas_left r = 0 \/
   (r_status r ∈ [InsufficientBalance; ArgumentOutOfRange] /\ r_gas_left r = gas msg)).
Proof.
  intros Hg E. unfold evmc_call in E. pose proof (host_call_gas_kept _ _ _ _ _ _ _ _ _ _ _ _ _ _ _ _ _ E) as Hk.
  apply host_call_gas in E as [H1 H2]; [|done|intros m s x s'; apply check_call_precompile_gas|done].
  split_and!; [apply H1..| |].
  - destruct H2 as [H2|H2]; [left; by apply bool_decide_eq_true in H2|by right].
  - rewrite !elem_of_cons, elem_of_nil. destruct Hk as [Hk|[Hk|[[Hk|Hk] Hr]]]; [left|tauto..].
    revert Hk. destruct (r_status r); intros Hk; try discriminate Hk; auto.
Qed.

(** C28: the recursion through messages ends.  On a machine that respects the call
    depth limit of 1024, the depth of messages still to come is enough fuel: any two
    amounts of fuel above it give the same outcome, so none of them cuts a message
    short. *)
Theorem call_depth_bounds_recursion `{Crypto} (h : EvmcHost) `{!WellBehaved (vm h)} f f' (msg : Message) (st : State) :
  0 <= gas msg -> depth msg <= max_call_depth ->
  max_call_depth + 1 - depth msg <= Z.of_nat f -> max_call_depth + 1 - depth msg <= Z.of_nat f' ->
  evmc_call h f msg st = evmc_call h f' msg st.
Proof. unfold evmc_call. apply host_call_fuel; [done|]. intros m s x s'. apply check_call_precompile_gas. Qed.

(** ** A concrete machine

    Contract 2 writes its storage and sends 3 wei on, one level down; contract 6 does
    the same and reverts; every other account has no code. *)
Definition evm_reads : BlockReads :=
  mk_reads (fun a => if (a =? 1) || (a =? 2) || (a =? 6)
      then Some (mk_account #100 NULL_HASH #0 (mk_incarnation #0 #0)) else None)
    (fun _ _ _ => #0) (fun _ => []).

Definition evm_vm (msg : Message) (code : byte_string) : vm_prog :=
  let self := recipient msg in
  let last := simple_result (if self =? 6 then Revert else Success) 0 in
  if ((self =? 2) || (self =? 6)) && (depth msg <? max_call_depth) then
    VmHost (HSetStorage self #1 #9) (fun _ =>
    VmHost (HCall (mk_message EVMC_CALL 0 (depth msg + 1) 0 #5 self [] #3 #0 #5 0)) (fun _ => VmDone last))
  else VmDone last.

#[export] Instance evm_vm_behaves : WellBehaved evm_vm.
Proof.
  constructor. intros msg code Hg. unfold evm_vm.
  assert (Hl : forall s, (keeps_gas s = true \/ 0 = 0) -> result_ok (gas msg) (simple_result s 0))
    by (intros s Hs; apply simple_ok; [lia|done]).
  destruct (_ && _) eqn:E; [|by apply Hl; right]. apply andb_true_iff in E as [_ Hd%Z.ltb_lt].
  simpl. intros _ _. split_and!; [done|lia|done|]. intros x _. apply Hl. by right.
Qed.

Definition evm_host : EvmcHost :=
  mk_host (MonadTraits MONAD_NINE) evm_reads demo_tx (Some #50) 0 (mk_ctx ∅ ∅ ∅ [] []) true (fun _ => None)
    (fun _ => None) evm_vm.

Definition evm_msg (to : address) : Message := mk_message EVMC_CALL 0 1 1000 to #1 [] #7 #0 to 0.

Lemma evm_pays : (evmc_call evm_host 4 (evm_msg #2) demo_state).1 = ROk (simple_result Success 0).
Proof. vm_compute. reflexivity. Qed.
Lemma evm_reverts : (evmc_call evm_host 4 (evm_msg #6) demo_state).1 = ROk (simple_result Revert 0).
Proof. vm_compute. reflexivity. Qed.

Lemma message_conserves_witness : exists st',
  evmc_call evm_host 4 (evm_msg #2) demo_state = (ROk (simple_result Success 0), st') /\ wf st' /\
  zsum (bal evm_reads st') (dom (current_ demo_state) ∪ dom (current_ st')) <=
  zsum (bal evm_reads demo_state) (dom (current_ demo_state) ∪ dom (current_ st')).
Proof.
  pose proof (run_ok _ _ _ evm_pays) as E. eexists.
  destruct (message_conserves evm_host 4 (evm_msg #2) demo_state _ _ (wf_new_state _ _) E)
    as (W & _ & _ & _ & _ & _ & HX).
  exact (conj E (conj W HX)).
Defined.


Lemma message_gas_bounded_witness : 0 <= r_gas_left (simple_result Revert 0) <= 1000.
Proof.
  exact (proj1 (message_gas_bounded evm_host 4 (evm_msg #6) demo_state _ _ ltac:(vm_compute; discriminate)
    (run_ok _ _ _ evm_reverts))).
Defined.

Lemma call_depth_bounds_recursion_witness :
  evmc_call evm_host 1024 (evm_msg #2) demo_state = evmc_call evm_host 2000 (evm_msg #2) demo_state.
Proof.
  exact (call_depth_bounds_recursion evm_host 1024 2000 (evm_msg #2) demo_state ltac:(vm_compute; discriminate)
    ltac:(vm_compute; discriminate) ltac:(unfold max_call_depth; simpl depth; lia)
    ltac:(unfold max_call_depth; simpl depth; lia)).
Defined.
