(* ===== verification/ExecuteTransaction.v ===== *)
(** * Executing transactions

    Models src/category/execution/ethereum/{execute_transaction.cpp,
    tx_context.cpp,validate_transaction.hpp}, monad/{validate_monad_transaction,
    validate_system_transaction,execute_system_transaction,
    dispatch_transaction}.cpp and vm/evm/delegation.cpp: validation against the
    state, the purchase of gas, authorizations, the message, refunds and the
    receipt; system transactions; and the two attempts at a transaction, the first
    on the reads the block state gives while it is changing, the second on the
    block state of the predecessors. *)
From S2P Require Import Prelude UInt256 Prog Abi StakingVars Transaction Rlp VersionStack State3 StateRefine ReserveBalance StakingContract StakingSyscalls BlockState Block Evm.
#[local] Open Scope sm_scope.

(** ** Errors *)
Inductive MonadTransactionError := InsufficientBalanceForFee | SystemTransactionSenderIsAuthority.

Inductive SystemTransactionError :=
| GasNonZero | TypeNotLegacy | BadSender | MissingTo | InvalidSystemContract | NonEmptyAuthorizationList
| SystemTxnBeforeFork.

(** The error of a [Result<...>]. *)
Inductive ExecError :=
| ErrTransaction (e : TransactionError) | ErrMonadTransaction (e : MonadTransactionError)
| ErrSystemTransaction (e : SystemTransactionError) | ErrStaking (e : error).

(** ** The environment *)
Record evmc_tx_context := mk_tx_context {
  tx_gas_price : u256; tx_origin : address; block_coinbase : address; block_number : Z; block_timestamp : Z;
  block_gas_limit : Z; block_prev_randao : bytes32; chain_id : u256; block_base_fee : u256; blob_base_fee : u256;
  blob_hashes : list bytes32 }.

(** What the transactions of a block share: the chain, the header, the hashes of
    earlier blocks, and the virtual machine with its precompiles. *)
Record BlockEnv := mk_env {
  env_traits : Traits; env_chain_id : u256; env_header : BlockHeader; env_chain_ctx : ChainContext;
  env_block_hash_buffer : u64 -> option bytes32; env_trace_transfers : bool;
  env_resolve_precompile : address -> option PrecompiledContract;
  env_vm : evmc_tx_context -> Message -> byte_string -> vm_prog }.

(** A transaction of the block, with its index, sender and recovered authorities. *)
Record TxInput := mk_input {
  ti_i : nat; ti_tx : Transaction; ti_sender : address; ti_authorities : list (option address) }.

(** [static_cast<int64_t>]. *)
Definition int64 (x : u64) : Z := if x <? modulus 63 then uval x else x - modulus 64.

(** [None]: the price is not defined. *)
Definition get_tx_context (t : Traits) (tx : Transaction) (sender : address) (hdr : BlockHeader) (id : u256)
    : option evmc_tx_context :=
  price ← gas_price t tx (default #0 (bh_base_fee_per_gas hdr));
  blob ← get_base_fee_per_blob_gas t (default #0 (bh_excess_blob_gas hdr));
  Some (mk_tx_context price sender (bh_beneficiary hdr) (int64 (bh_number hdr)) (int64 (bh_timestamp hdr))
    (int64 (bh_gas_limit hdr))
    (if negb (bh_difficulty hdr =? 0) then #(bh_difficulty hdr) else bh_prev_randao hdr) id
    (default #0 (bh_base_fee_per_gas hdr)) blob (tx_blob_versioned_hashes tx)).

(** The deepest call is at depth 1024; one step more than the messages take. *)
Definition call_fuel : nat := 1026.

(** ** Validation against the state *)
Section validate.
Context (t : Traits) (bs : BlockReads).

(** [inr]: an overflow on the way. *)
Definition total_cost (tx : Transaction) : u256 + MathError :=
  match max_gas_cost (tx_gas_limit tx) (tx_max_fee_per_gas tx) with
  | inr e => inr e
  | inl gas_fee =>
      match checked_add (tx_value tx) gas_fee with
      | inr e => inr e
      | inl base_cost =>
          if bool_decide (tx_type tx = eip4844) then
            match checked_mul #(get_total_blob_gas tx) (tx_max_fee_per_blob_gas tx) with
            | inr e => inr e
            | inl blob_cost => checked_add base_cost blob_cost
            end
          else inl base_cost
      end
  end.

(** [None] is success. *)
Definition validate_ethereum_transaction (tx : Transaction) (sender : address) : SM (option TransactionError) :=
  match total_cost tx with
  | inr _ => sret (Some Transaction.InsufficientBalance)
  | inl v0 =>
      exists_ <- account_exists bs sender ;;
      if negb exists_ then
        sret (if negb (tx_nonce tx =? 0) then Some BadNonce
              else if negb (v0 =? 0) then Some Transaction.InsufficientBalance else None)
      else
        code_hash <- get_code_hash bs sender ;;
        sender_is_eoa <-
          (if eth_ge (evm_rev t) MONAD_ETH_PRAGUE then
             code <- read_code_ bs code_hash ;;
             sret ((code_hash =w? NULL_HASH) || evm_is_delegated code)
           else sret (code_hash =w? NULL_HASH)) ;;
        if negb sender_is_eoa then sret (Some SenderNotEoa)
        else
          nonce <- get_nonce bs sender ;;
          if negb (nonce =w? tx_nonce tx) then sret (Some BadNonce)
          else
            balance <- get_balance bs sender ;;
            sret (if balance <? v0 then Some Transaction.InsufficientBalance else None)
  end.

(** [std::ranges::contains(authorities, SYSTEM_SENDER)]. *)
Definition contains_system (authorities : list (option address)) : bool :=
  existsb (fun a => bool_decide (a = Some SYSTEM_SENDER)) authorities.

Definition validate_transaction (tx : Transaction) (sender : address) (base_fee_per_gas : u256)
    (authorities : list (option address)) : SM (option ExecError) :=
  res <- validate_ethereum_transaction tx sender ;;
  match t with
  | EvmTraits _ => sret (ErrTransaction <$> res)
  | MonadTraits rev =>
      if rev_ge rev MONAD_FOUR then
        if bool_decide (res <> None /\ res <> Some Transaction.InsufficientBalance)
        then sret (ErrTransaction <$> res)
        else
          price <- sopt (gas_price t tx base_fee_per_gas) ;;
          let gas_fee : u256 := #(tx_gas_limit tx * price) in
          balance <- get_balance bs sender ;;
          if balance <? gas_fee then sret (Some (ErrMonadTransaction InsufficientBalanceForFee))
          else if contains_system authorities
          then sret (Some (ErrMonadTransaction SystemTransactionSenderIsAuthority))
          else sret None
      else sret (ErrTransaction <$> res)
  end.
End validate.

(** ** Before the message *)
Section execute.
Context `{Crypto} (env : BlockEnv) (bs : BlockReads) (inp : TxInput).
#[local] Abbreviation t := (env_traits env).
#[local] Abbreviation header := (env_header env).
#[local] Abbreviation tx := (ti_tx inp).
#[local] Abbreviation sender := (ti_sender inp).
#[local] Abbreviation base_fee := (default #0 (bh_base_fee_per_gas header)).

Definition irrevocable_change : SM unit :=
  (if has_value (tx_to tx) then
     nonce <- get_nonce bs sender ;;
     set_nonce bs sender #(nonce + 1)
   else sret tt) ;;
  blob_gas <-
    (if eth_ge (evm_rev t) MONAD_ETH_CANCUN && bool_decide (tx_type tx = eip4844)
     then sopt (calc_blob_fee t tx (default #0 (bh_excess_blob_gas header))) else sret #0) ;;
  price <- sopt (gas_price t tx base_fee) ;;
  let upfront_cost : u256 := #(tx_gas_limit tx * price) in
  subtract_from_balance bs sender #(upfront_cost + blob_gas).

(** One step of the loop over the authorizations; the refund it adds. *)
Definition process_authorization (e : AuthorizationEntry) (authority : option address) : SM u64 :=
  chain_id <- sopt (sc_chain_id (auth_sc e)) ;;
  if negb ((chain_id =? 0) || (chain_id =w? env_chain_id env)) then sret #0
  else if auth_nonce e =? modulus 64 - 1 then sret #0
  else match authority with
  | None => sret #0
  | Some authority =>
      sassert (negb (has_upper_s (auth_sc e))) ;;
      access_account bs authority ;;
      code_hash <- get_code_hash bs authority ;;
      code <- read_code_ bs code_hash ;;
      if negb ((length code =? 0)%nat || evm_is_delegated code) then sret #0
      else
        nonce <- get_nonce bs authority ;;
        if negb (auth_nonce e =w? nonce) then sret #0
        else
          exists_ <- account_exists bs authority ;;
          (if negb exists_ then create_account_no_rollback bs authority else sret tt) ;;
          dead <- account_is_dead bs authority ;;
          let refund : u64 := if dead : bool then #0 else #12500 in
          set_code bs keccak256 authority
            (if negb (auth_address e =? 0) then delegation_indicator_prefix ++ to_bytes 20 (auth_address e) else []) ;;
          set_nonce bs authority #(nonce + 1) ;;
          sret refund
  end.

Fixpoint authorization_loop (entries : list (AuthorizationEntry * option address)) (refund : u64) : SM u64 :=
  match entries with
  | [] => sret refund
  | (e, authority) :: rest =>
      r <- process_authorization e authority ;;
      authorization_loop rest #(refund + r)
  end.

Definition process_authorizations : SM u64 :=
  sassert (length (ti_authorities inp) =? length (tx_authorization_list tx))%nat ;;
  authorization_loop (zip (tx_authorization_list tx) (ti_authorities inp)) #0.

Definition to_message : Message :=
  let '(kind, to) := match tx_to tx with Some a => (EVMC_CALL, a) | None => (EVMC_CREATE, #0) end in
  mk_message kind 0 0 (int64 #(tx_gas_limit tx - intrinsic_gas t tx)) to sender (tx_data tx) (tx_value tx) #0 to 0.

(** [vm::evm::resolve_delegation], through the host's [copy_code]. *)
Definition resolve_delegation (a : address) : SM (option address) :=
  code <- copy_code bs a 0 24 ;;
  sret (if evm_is_delegated code then Some #(bytes_val (take 20 (drop 3 code))) else None).

Definition access_all : SM unit :=
  (fix entries l := match l with
   | [] => sret tt
   | ae :: rest =>
       access_account bs (ae_a ae) ;;
       (fix keys ks := match ks with
        | [] => sret tt
        | k :: ks => access_storage bs (ae_a ae) k ;; keys ks
        end) (ae_keys ae) ;;
       entries rest
   end) (tx_access_list tx).

(** ** The message *)

(** The host of this transaction. *)
Definition tx_host (ctx : evmc_tx_context) : EvmcHost :=
  mk_host t bs tx (bh_base_fee_per_gas header) (ti_i inp) (env_chain_ctx env) (env_trace_transfers env)
    (env_block_hash_buffer env) (env_resolve_precompile env) (env_vm env ctx).

(** [execute_create_message] or [execute_call_message] on a host. *)
Definition execute_message (h : EvmcHost) (msg : Message) : SM Result :=
  if is_create (kind msg) then
    execute_create_message (h_traits h) (block_reads h) keccak256 (tx_ h) (default #0 (base_fee_per_gas_ h)) (i_ h)
      (chain_ctx_ h) (log_native_transfers_ h) (block_hash_buffer_ h)
      (is_precompile (h_traits h) (resolve_precompile h)) (vm h) (evmc_call h call_fuel) msg
  else
    execute_call_message (h_traits h) (block_reads h) (tx_ h) (default #0 (base_fee_per_gas_ h)) (i_ h)
      (chain_ctx_ h) (log_native_transfers_ h) (block_hash_buffer_ h)
      (check_call_precompile (h_traits h) (block_reads h) (resolve_precompile h))
      (is_precompile (h_traits h) (resolve_precompile h)) (vm h) (evmc_call h call_fuel) msg.

(** The message, sent to the delegate of its recipient if there is one. *)
Definition delegated_message : SM Message :=
  let msg := to_message in
  match tx_to tx with
  | Some to =>
      if eth_ge (evm_rev t) MONAD_ETH_PRAGUE then
        delegate <- resolve_delegation to ;;
        match delegate with
        | Some d =>
            access_account bs d ;;
            sret (mk_message (kind msg) (Z.setbit (flags msg) EVMC_DELEGATED) (depth msg) (gas msg)
              (recipient msg) (Evm.sender msg) (input_data msg) (value msg) (create2_salt msg) d (memory_offset msg))
        | None => sret msg
        end
      else sret msg
  | None => sret msg
  end.

(** [ExecuteTransactionNoValidation::operator()]. *)
Definition execute_no_validation (ctx : evmc_tx_context) : SM Result :=
  (match t with
   | MonadTraits rev => init_from_tx bs rev sender tx (bh_base_fee_per_gas header) (ti_i inp) (env_chain_ctx env)
   | EvmTraits _ => sret tt
   end) ;;
  irrevocable_change ;;
  auth_refund <- (if eth_ge (evm_rev t) MONAD_ETH_PRAGUE then process_authorizations else sret #0) ;;
  (if eth_ge (evm_rev t) MONAD_ETH_SHANGHAI then
     if is_precompile t (env_resolve_precompile env) (bh_beneficiary header) then sret tt
     else access_account bs (bh_beneficiary header) ;; sret tt
   else sret tt) ;;
  access_account bs sender ;;
  access_all ;;
  (match tx_to tx with Some to => access_account bs to ;; sret tt | None => sret tt end) ;;
  msg <- delegated_message ;;
  result <- execute_message (tx_host ctx) msg ;;
  sret (with_refund (int64 #(r_gas_refund result + auth_refund)) result).

(** [ExecuteTransaction::execute_impl2]. *)
Definition execute_impl2 : SM (Result + ExecError) :=
  v <- validate_transaction t bs tx sender base_fee (ti_authorities inp) ;;
  match v with
  | Some e =>
      o <- original_account_state bs sender ;;
      set_original sender (set_validate_exact_balance o) ;;
      sret (inr e)
  | None =>
      ctx <- sopt (get_tx_context t tx sender header (env_chain_id env)) ;;
      result <- execute_no_validation ctx ;;
      sret (inl result)
  end.

(** ** After the message *)

(** What is taken back if less gas was used than the calldata floor. *)
Definition charge_floor (price : u256) (gas_used : u64) : SM u64 :=
  if eth_ge (evm_rev t) MONAD_ETH_PRAGUE then
    let floor_gas := floor_data_gas tx in
    if gas_used <? floor_gas then
      let delta : u64 := #(floor_gas - gas_used) in
      subtract_from_balance bs sender #(price * delta) ;;
      sret floor_gas
    else sret gas_used
  else sret gas_used.

Definition execute_final (result : Result) : SM Receipt :=
  sassert (0 <=? r_gas_left result) ;;
  sassert (0 <=? r_gas_refund result) ;;
  sassert (r_gas_left result <=? tx_gas_limit tx) ;;
  let gas_refund := compute_gas_refund t tx #(r_gas_left result) #(r_gas_refund result) in
  price <- sopt (gas_price t tx base_fee) ;;
  add_to_balance bs sender #(price * gas_refund) ;;
  gas_used <- charge_floor price #(tx_gas_limit tx - gas_refund) ;;
  reward <- sopt (calculate_txn_award t tx base_fee gas_used) ;;
  add_to_balance bs (bh_beneficiary header) reward ;;
  destruct_suicides (eth_ge (evm_rev t) MONAD_ETH_CANCUN) ;;
  destruct_touched_dead ;;
  l <- logs ;;
  sret (fold_left (add_log keccak256) l
    (mk_receipt new_bloom (if succeeded result then #1 else #0) gas_used (tx_type tx) [])).
End execute.

(** ** System transactions *)
Section system.
Context `{Crypto}.

(** [None] is success. *)
Definition static_validate_system_transaction (rev : monad_revision) (tx : Transaction) (sender : address)
    : option SystemTransactionError :=
  if negb (rev_ge rev MONAD_FOUR) then Some SystemTxnBeforeFork
  else if negb (sender =w? SYSTEM_SENDER) then Some BadSender
  else if negb (bool_decide (tx_type tx = legacy)) then Some TypeNotLegacy
  else match tx_to tx with
  | None => Some MissingTo
  | Some to =>
      if negb (to =w? STAKING_CA) then Some InvalidSystemContract
      else if negb (tx_gas_limit tx =? 0) then Some GasNonZero
      else if negb (tx_max_fee_per_gas tx =? 0) then Some GasNonZero
      else if negb (tx_max_priority_fee_per_gas tx =? 0) then Some GasNonZero
      else if negb (length (tx_authorization_list tx) =? 0)%nat then Some NonEmptyAuthorizationList
      else None
  end.

Definition validate_system_transaction (bs : BlockReads) (tx : Transaction) (sender : address)
    : SM (option TransactionError) :=
  exists_ <- account_exists bs sender ;;
  if negb exists_ then sret (if negb (tx_nonce tx =? 0) then Some BadNonce else None)
  else
    nonce <- get_nonce bs sender ;;
    sret (if negb (nonce =w? tx_nonce tx) then Some BadNonce else None).

(** Contract code on the transaction state, its error as a value. *)
Definition run_syscall (bs : BlockReads) {A} (p : prog error A) : SM (A + error) := fun st =>
  let '(r, s) := run_with (handle_state bs) p (st, []) in
  (match r with
   | ROk x => ROk (inl x) | RErr e => ROk (inr e) | RThrow m => RThrow m | RHalt => RHalt
   end, s.1).

(** [ExecuteSystemTransaction::execute]. *)
Definition execute_system (rev : monad_revision) (bs : BlockReads) (tx : Transaction) (sender : address)
    : SM (unit + ExecError) :=
  v <- validate_system_transaction bs tx sender ;;
  match v with
  | Some e => sret (inr (ErrTransaction e))
  | None =>
      nonce <- get_nonce bs sender ;;
      set_nonce bs sender #(nonce + 1) ;;
      push ;;
      r <- run_syscall bs (execute_staking_syscall rev (tx_data tx) (tx_value tx)) ;;
      match r with
      | inr e => sret (inr (ErrStaking e))
      | inl _ => pop_accept ;; sret (inl tt)
      end
  end.

Definition execute_system_final (tx : Transaction) : SM Receipt :=
  l <- logs ;;
  sret (fold_left (add_log keccak256) l (mk_receipt new_bloom #1 #0 (tx_type tx) [])).

(** The copy of the transaction that the static checks see. *)
Definition with_gas_limit (g : u64) (tx : Transaction) : Transaction :=
  mk_tx (tx_sc tx) (tx_nonce tx) (tx_max_fee_per_gas tx) g (tx_value tx) (tx_to tx) (tx_type tx) (tx_data tx)
    (tx_access_list tx) (tx_max_priority_fee_per_gas tx) (tx_max_fee_per_blob_gas tx)
    (tx_blob_versioned_hashes tx) (tx_authorization_list tx).
End system.

(** ** The two attempts *)

(** The first looks at a block state record its accounts and slots in it: what the
    reads of an attempt leave in the block state by the time it is validated. *)
Section load.
Context (db : Db).

Fixpoint load_slots (a : address) (i : Incarnation) (keys : list bytes32) (B : BlockState) : option BlockState :=
  match keys with
  | [] => Some B
  | k :: rest =>
      r ← block_state.read_storage db a i k B;
      load_slots a i rest r.2
  end.

Definition load_account (a : address) (o : OriginalAccountState) (B : BlockState) : option BlockState :=
  let B := (block_state.read_account db a B).2 in
  match account_ (o_state o) with
  | None => Some B
  | Some ac => load_slots a (acct_incarnation ac) (map_to_list (storage_ (o_state o))).*1 B
  end.

Fixpoint load_accounts (l : list (address * OriginalAccountState)) (B : BlockState) : option BlockState :=
  match l with
  | [] => Some B
  | (a, o) :: rest => B ← load_account a o B; load_accounts rest B
  end.

Definition load_reads (st : State) (B : BlockState) : option BlockState :=
  load_accounts (map_to_list (original_ st)) B.
End load.

(** Code over the block state: a result, an error, an exception, or an abort. *)
Abbreviation outcome A := (res ExecError A * BlockState)%type.

(** [operator()] of [ExecuteTransaction] and of [ExecuteSystemTransaction], after the
    static checks: [impl] is the attempt, [final] what follows validation. *)
Section attempts.
Context (db : Db) {R : Type} (impl : BlockReads -> SM (R + ExecError)) (final : BlockReads -> R -> SM Receipt).
Context (inc : Incarnation) (sender : address) (nonce : u64).

(** After validation: the error, or the receipt and the state to merge. *)
Definition finalize (result : R + ExecError) (st : State) (B : BlockState) : outcome (Receipt * State) :=
  match result with
  | inr e => (RErr e, B)
  | inl r =>
      match final (reads_of db B) r st with
      | (ROk receipt, st) =>
          match load_reads db st B with
          | Some B => (ROk (receipt, st), B)
          | None => (RHalt, B)
          end
      | (RErr e, _) => match e with end
      | (RThrow m, _) => (RThrow m, B)
      | (RHalt, _) => (RHalt, B)
      end
  end.

Definition publish (o : outcome (Receipt * State)) : outcome Receipt :=
  match o with
  | (ROk (receipt, st), B) =>
      match block_state.merge st B with
      | Some B => (ROk receipt, B)
      | None => (RHalt, B)
      end
  | (RErr e, B) => (RErr e, B)
  | (RThrow m, B) => (RThrow m, B)
  | (RHalt, B) => (RHalt, B)
  end.

(** The attempt on the block state itself, whose validation must succeed. *)
Definition last_attempt (B : BlockState) : outcome (Receipt * State) :=
  match impl (reads_of db B) (new_state inc false) with
  | (ROk result, st) =>
      match load_reads db st B with
      | None => (RHalt, B)
      | Some B =>
          match block_state.can_merge B st with
          | (ROk true, st) => finalize result st B
          | _ => (RHalt, B)
          end
      end
  | (RErr e, _) => match e with end
  | (RThrow m, _) => (RThrow m, B)
  | (RHalt, _) => (RHalt, B)
  end.

(** The first attempt, on the reads [bs0] it happened to get. *)
Definition first_attempt (bs0 : BlockReads) : res Empty_set (R + ExecError) * State :=
  (set_original_nonce bs0 sender nonce ;; impl bs0) (new_state inc false).

(** An exception of the first attempt leaves the fiber at once. *)
Definition attempts (bs0 : BlockReads) (B : BlockState) : outcome (Receipt * State) :=
  match first_attempt bs0 with
  | (ROk result, st) =>
      match load_reads db st B with
      | None => (RHalt, B)
      | Some B =>
          match block_state.can_merge B st with
          | (ROk true, st) => finalize result st B
          | (ROk false, _) => last_attempt B
          | (RErr e, _) => match e with end
          | (RThrow m, _) => (RThrow m, B)
          | (RHalt, _) => (RHalt, B)
          end
      end
  | (RErr e, _) => match e with end
  | (RThrow m, _) => (RThrow m, B)
  | (RHalt, _) => (RHalt, B)
  end.

(** With and without the optimistic first attempt. *)
Definition optimistic (bs0 : BlockReads) (B : BlockState) : outcome Receipt := publish (attempts bs0 B).
Definition sequential (B : BlockState) : outcome Receipt := publish (last_attempt B).
End attempts.

(** ** Transactions of a block *)
Section dispatch.
Context `{Crypto} (db : Db) (env : BlockEnv) (inp : TxInput).

Definition tx_incarnation : Incarnation := new_incarnation (bh_number (env_header env)) (Z.of_nat (ti_i inp) + 1).

Definition tx_impl (bs : BlockReads) : SM (Result + ExecError) := execute_impl2 env bs inp.
Definition tx_final (bs : BlockReads) (r : Result) : SM Receipt := execute_final env bs inp r.

(** The static checks of [ExecuteTransaction::operator()]; [None] is an abort. *)
Definition static_checks : option (option ExecError) :=
  option_map (option_map ErrTransaction) (
    static_validate_transaction (env_traits env) (ti_tx inp) (bh_base_fee_per_gas (env_header env))
    (bh_excess_blob_gas (env_header env)) (env_chain_id env)).

(** Those of [ExecuteSystemTransaction::operator()]. *)
Definition system_checks (rev : monad_revision) : option (option ExecError) :=
  match static_validate_system_transaction rev (ti_tx inp) (ti_sender inp) with
  | Some e => Some (Some (ErrSystemTransaction e))
  | None =>
      option_map (option_map ErrTransaction) (
        static_validate_transaction (env_traits env) (with_gas_limit #2000000 (ti_tx inp)) None None (env_chain_id env))
  end.

Definition checked (checks : option (option ExecError)) (k : BlockState -> outcome Receipt) (B : BlockState)
    : outcome Receipt :=
  match checks with
  | None => (RHalt, B)
  | Some (Some e) => (RErr e, B)
  | Some None => k B
  end.

(** Which executor a transaction gets. *)
Definition is_system : option monad_revision :=
  match env_traits env with
  | MonadTraits rev => if rev_ge rev MONAD_FOUR && (ti_sender inp =w? SYSTEM_SENDER) then Some rev else None
  | EvmTraits _ => None
  end.

(** [dispatch_transaction]: [run] is [optimistic] or [sequential]. *)
Definition dispatch (run : forall R, (BlockReads -> SM (R + ExecError)) -> (BlockReads -> R -> SM Receipt) ->
    BlockState -> outcome Receipt) (B : BlockState) : outcome Receipt :=
  match is_system with
  | Some rev =>
      checked (system_checks rev)
        (run unit (fun bs => execute_system rev bs (ti_tx inp) (ti_sender inp))
          (fun _ _ => execute_system_final (ti_tx inp))) B
  | None => checked static_checks (run Result tx_impl tx_final) B
  end.

Definition dispatch_transaction (bs0 : BlockReads) (B : BlockState) : outcome Receipt :=
  dispatch (fun R impl final => optimistic db impl final tx_incarnation (ti_sender inp) (tx_nonce (ti_tx inp)) bs0) B.

Definition sequential_transaction (B : BlockState) : outcome Receipt :=
  dispatch (fun R impl final => sequential db impl final tx_incarnation) B.
End dispatch.
