(* ===== verification/EvmRuntime.v ===== *)
(** * The runtime of the virtual machine

    Models src/category/vm/runtime/: the context of a call frame with its environment,
    memory and gas (types.hpp, context.cpp, bin.hpp), and the functions instructions call
    that need them: memory.hpp, data.{hpp,cpp}, math.hpp, keccak.hpp, log.cpp,
    storage.{hpp,cpp} with storage_costs.hpp, environment.cpp, call.cpp, create.cpp and
    selfdestruct.cpp; conversions from transmute.hpp; delegations from
    src/category/vm/evm/delegation.cpp.

    A runtime function is a tree ([rt]) that asks the host, leaves the frame with a status
    code, or returns; a failed assertion, an access outside a buffer and a [Bin] out of its
    width are [Abort].  The state is the [Context].  [Memory] holds the bytes of the frame;
    the buffer behind them is shared with the callers and the callees, and its capacity is
    not a field: memory grows as if the buffer were always full, so that the assertions of
    [increase_capacity] are checked at every growth, and the copy to a larger buffer leaves
    the bytes as they are and zeros after them.  Allocation succeeds.  Gas is an integer:
    it stays between zero and the gas of the message (InterpreterSafe.v). *)
From S2P Require Import Prelude Prog Abi StakingVars Transaction Rlp State3 StateHooks StakingContract UInt256 UInt256Div UInt256Ops Opcodes Evm ExecuteTransaction.

(** ** The context *)
Inductive StatusCode := StSuccess | StRevert | StError | StOutOfGas.

#[export] Instance StatusCode_eq_dec : EqDecision StatusCode.
Proof. solve_decision. Defined.

Record Environment := mk_environment {
  evmc_flags : Z; env_depth : Z; env_recipient : address; env_sender : address; env_value : bytes32;
  env_create2_salt : bytes32; env_input_data : byte_string; env_code : byte_string; env_return_data : byte_string;
  env_tx_context : evmc_tx_context }.

(** [mem_parent] is [data - data_handle]: the memory of the callers. *)
Record Memory := mk_memory { mem_size : Z; mem_data : byte_string; mem_cost : Z; mem_parent : Z }.

Record Context := mk_context {
  gas_remaining : Z; gas_refund : Z; env : Environment; result_offset : u256; result_size : u256; memory : Memory }.

Definition with_gas_remaining (g : Z) (c : Context) : Context :=
  mk_context g (gas_refund c) (env c) (result_offset c) (result_size c) (memory c).
Definition with_gas_refund (g : Z) (c : Context) : Context :=
  mk_context (gas_remaining c) g (env c) (result_offset c) (result_size c) (memory c).
Definition with_result (o s : u256) (c : Context) : Context :=
  mk_context (gas_remaining c) (gas_refund c) (env c) o s (memory c).
Definition with_memory (m : Memory) (c : Context) : Context :=
  mk_context (gas_remaining c) (gas_refund c) (env c) (result_offset c) (result_size c) m.
Definition with_return_data (d : byte_string) (c : Context) : Context :=
  let e := env c in
  mk_context (gas_remaining c) (gas_refund c)
    (mk_environment (evmc_flags e) (env_depth e) (env_recipient e) (env_sender e) (env_value e) (env_create2_salt e)
      (env_input_data e) (env_code e) d (env_tx_context e))
    (result_offset c) (result_size c) (memory c).

Definition context_from (tx_context : evmc_tx_context) (msg : Message) (code : byte_string) : Context :=
  mk_context (gas msg) 0
    (mk_environment (flags msg) (depth msg) (recipient msg) (sender msg) (value msg) (create2_salt msg)
      (input_data msg) code [] tx_context)
    #0 #0 (mk_memory 0 [] 0 (memory_offset msg)).

(** ** Programs of the virtual machine *)
Inductive rt (A : Type) : Type :=
| Ret (a : A)
| Exit (code : StatusCode) (ctx : Context)
| Abort
| Host {X} (o : hostE X) (k : X -> rt A).
Arguments Ret {A} _.
Arguments Exit {A} _ _.
Arguments Abort {A}.
Arguments Host {A X} _ _.

Fixpoint rt_bind {A B} (p : rt A) (k : A -> rt B) : rt B :=
  match p with
  | Ret a => k a
  | Exit code ctx => Exit code ctx
  | Abort => Abort
  | Host o f => Host o (fun x => rt_bind (f x) k)
  end.

(** Programs with a state: the context here, the frame of the interpreter in Interpreter.v. *)
Definition M (S A : Type) : Type := S -> rt (A * S).
Definition mret {S A} (a : A) : M S A := fun s => Ret (a, s).
Definition mbnd {S A B} (m : M S A) (k : A -> M S B) : M S B := fun s => rt_bind (m s) (fun p => k p.1 p.2).
Definition mget {S} : M S S := fun s => Ret (s, s).
Definition mmod {S} (f : S -> S) : M S unit := fun s => Ret (tt, f s).
Definition mabort {S A} : M S A := fun _ => Abort.
Definition mhost {S X} (o : hostE X) : M S X := fun s => Host o (fun x => Ret (x, s)).
Definition massert {S} (b : bool) : M S unit := if b then mret tt else mabort.
Definition mopt {S A} (o : option A) : M S A := match o with Some a => mret a | None => mabort end.

Declare Scope rt_scope.
Delimit Scope rt_scope with rt.
Notation "x <- c ;; k" := (mbnd c (fun x => k)) (at level 100, c at next level, right associativity) : rt_scope.
Notation "c ;; k" := (mbnd c (fun _ => k)) (at level 100, right associativity) : rt_scope.
#[local] Open Scope rt_scope.

(** ** Conversions *)
Definition is_bounded_by_bits (N : Z) (x : u256) : bool :=
  let mask := Z.lnot (2 ^ N - 1) in
  Z.lor (Z.lor (Z.lor (Z.land (limb x 0) mask) (limb x 1)) (limb x 2)) (limb x 3) =? 0.

(** [clamp_cast<uint32_t>] and [clamp_cast<int64_t>], by the number of digits. *)
Definition clamp_cast (digits : Z) (x : u256) : Z :=
  if is_bounded_by_bits digits x then limb x 0 else 2 ^ digits - 1.

Definition address_from_uint256 (x : u256) : address := #x.
Definition uint256_from_address (a : address) : u256 := #a.

(** A word from an integer of at most 64 bits. *)
Definition uint256_from_int (z : Z) : u256 := #(uval (#z : u64)).
Definition uint256_from_bool (b : bool) : u256 := if b then #1 else #0.

(** ** Operations of the context *)
Module context.
Section context.
Context (t : Traits).
#[local] Abbreviation RM := (M Context).

Definition exit {A} (code : StatusCode) : RM A := fun c => Exit code c.

(** [Bin<N>]: the debug assertion of its constructor. *)
Definition bin (N : Z) (x : Z) : RM Z := if (0 <=? x) && (x <? 2 ^ N) then mret x else mabort.
Definition shr_ceil5 (x : Z) : Z := Z.shiftr (x + 31) 5.

Definition deduct_gas (g : Z) : RM unit :=
  mmod (fun c => with_gas_remaining (gas_remaining c - g) c) ;;
  c <- mget ;;
  if gas_remaining c <? 0 then exit StOutOfGas else mret tt.

Definition memory_cost_from_word_count (word_count : Z) : Z :=
  if mip_3_active t then Z.shiftr word_count 1
  else (word_count * word_count) / 512 + 3 * word_count.

Definition memory_size_to_word_count (mem_size : Z) : Z := shr_ceil5 mem_size.
Definition word_count_to_memory_size (word_count : Z) : Z := Z.shiftl word_count 5.

Definition parent_total_size : RM Z :=
  c <- mget ;;
  let x := mem_parent (memory c) in
  massert ((0 <=? x) && (Z.land x 31 =? 0)) ;;
  massert (x <=? 2 ^ 30 - 1) ;;
  mret x.

Definition max_total_size : Z := 0x800000.

Definition is_memory_size_in_bound (mem_size : Z) : RM bool :=
  if mip_3_active t then
    p <- parent_total_size ;;
    total_size <- bin 31 (mem_size + p) ;;
    mret (total_size <=? max_total_size)
  else mret true.

Definition grow (new_size new_cost : Z) (m : Memory) : Memory :=
  mk_memory new_size (mem_data m ++ replicate (Z.to_nat (new_size - mem_size m)) #0) new_cost (mem_parent m).

(** [monad_vm_runtime_increase_capacity]: its assertions, and the widths of the sizes. *)
Definition increase_capacity (old_size new_size : Z) : RM unit :=
  massert ((Z.land new_size 31 =? 0) && (old_size <? new_size)) ;;
  p <- parent_total_size ;;
  old_total_size <- bin 31 (p + old_size) ;;
  new_total_size <- bin 31 (p + new_size) ;;
  massert (Z.land new_total_size 31 =? 0) ;;
  new_total_capacity <- bin 32 (Z.shiftl new_total_size 1) ;;
  massert (Z.land new_total_capacity 31 =? 0).

Definition expand_memory (min_size0 : Z) : RM unit :=
  min_size <- bin 29 min_size0 ;;
  c <- mget ;;
  if mem_size (memory c) <? min_size then
    word_count <- bin 25 (memory_size_to_word_count min_size) ;;
    let new_cost := memory_cost_from_word_count word_count in
    new_size <- bin 30 (word_count_to_memory_size word_count) ;;
    in_bound <- is_memory_size_in_bound new_size ;;
    (if negb in_bound then exit StOutOfGas else mret tt) ;;
    massert (mem_cost (memory c) <=? new_cost) ;;
    deduct_gas (new_cost - mem_cost (memory c)) ;;
    let old_size := mem_size (memory c) in
    mmod (fun c => with_memory (grow new_size new_cost (memory c)) c) ;;
    increase_capacity old_size new_size
  else mret tt.

Definition offset_bits : Z := 28.

Definition get_memory_offset (offset : u256) : RM Z :=
  if negb (is_bounded_by_bits offset_bits offset) then exit StOutOfGas else mret (uval (limb offset 0)).

(** *** Access to [memory.data] *)
Definition mem_read (off n : Z) : RM byte_string :=
  c <- mget ;;
  if (0 <=? off) && (0 <=? n) && (off + n <=? mem_size (memory c))
  then mret (take (Z.to_nat n) (drop (Z.to_nat off) (mem_data (memory c)))) else mabort.

Definition splice (off : nat) (bs l : byte_string) : byte_string := take off l ++ bs ++ drop (off + length bs) l.

Definition mem_write (off : Z) (bs : byte_string) : RM unit :=
  c <- mget ;;
  let m := memory c in
  if (0 <=? off) && (off + zlen bs <=? mem_size m)
  then mmod (with_memory (mk_memory (mem_size m) (splice (Z.to_nat off) bs (mem_data m)) (mem_cost m) (mem_parent m)))
  else mabort.

Definition add_refund (g : Z) : RM unit := mmod (fun c => with_gas_refund (gas_refund c + g) c).
Definition set_return_data (d : byte_string) : RM unit := mmod (with_return_data d).
Definition clear_return_data : RM unit := mmod (with_return_data []).

Definition is_static (c : Context) : bool := Z.testbit (evmc_flags (env c)) EVMC_STATIC.

(** [if (evmc_flags & EVMC_STATIC) exit(Error)]. *)
Definition forbid_static : RM unit :=
  c <- mget ;; if is_static c then exit StError else mret tt.

(** *** The result of the frame *)
Definition copy_result_data (c : Context) : rt ((byte_string + status) * Context) :=
  if gas_remaining c <? 0 then Ret (inr OutOfGas, c)
  else if negb (is_bounded_by_bits offset_bits (result_size c)) then Ret (inr OutOfGas, c)
  else
    let size := uval (limb (result_size c) 0) in
    if size =? 0 then Ret (inl [], c)
    else if negb (is_bounded_by_bits offset_bits (result_offset c)) then Ret (inr OutOfGas, c)
    else
      let offset := uval (limb (result_offset c) 0) in
      let m := memory c in
      (memory_end <- bin 29 (offset + size) ;;
       if memory_end <=? mem_size m then
         out <- mem_read offset size ;; mret (inl out)
       else
         in_bound <- is_memory_size_in_bound memory_end ;;
         if negb in_bound then mret (inr OutOfGas)
         else
           mmod (fun c => with_gas_remaining
             (gas_remaining c - (memory_cost_from_word_count (memory_size_to_word_count memory_end) - mem_cost m)) c) ;;
           c' <- mget ;;
           if gas_remaining c' <? 0 then mret (inr OutOfGas)
           else if offset <? mem_size m then
             out <- mem_read offset (mem_size m - offset) ;;
             mret (inl (out ++ replicate (Z.to_nat (memory_end - mem_size m)) #0))
           else mret (inl (replicate (Z.to_nat size) #0))) c.

Definition evmc_error_result (s : status) : Result := mk_res s 0 0 [] #0.

(** [EVMC_FAILURE]. *)
Definition EVMC_FAILURE : status := Failure 1.

Definition copy_to_evmc_result (code : StatusCode) (c : Context) : rt Result :=
  match code with
  | StError => Ret (evmc_error_result EVMC_FAILURE)
  | StOutOfGas => Ret (evmc_error_result OutOfGas)
  | _ =>
      rt_bind (copy_result_data c) (fun p =>
        match p.1 with
        | inr ec => Ret (evmc_error_result ec)
        | inl output =>
            let ok := bool_decide (code = StSuccess) in
            Ret (mk_res (if ok then Success else Revert) (gas_remaining p.2)
              (if ok then gas_refund p.2 else 0) output #0)
        end)
  end.
End context.
End context.

(** ** Delegations *)
Definition delegation_indicator_prefix : byte_string := [ #0xef; #0x01; #0x00 ].
Definition delegation_indicator_size : nat := 3 + 20.

Definition is_delegated (code : byte_string) : bool :=
  (length code =? delegation_indicator_size)%nat && bool_decide (take 3 code = delegation_indicator_prefix).

(** The host copies at most the bytes asked for. *)
Definition resolve_delegation {S} (a : address) : M S (option address) :=
  code <- mhost (HCopyCode a 0 (delegation_indicator_size + 1)) ;;
  mret (if negb (is_delegated code) then None else Some #(bytes_val (drop 3 code))).

(** ** Storage costs *)
Record StoreCost := mk_store_cost { store_gas_cost : Z; store_gas_refund : Z }.

Definition costs_petersburg : list StoreCost :=
  [ mk_store_cost 5000 0; mk_store_cost 20000 0; mk_store_cost 5000 15000; mk_store_cost 5000 0;
    mk_store_cost 20000 0; mk_store_cost 5000 15000; mk_store_cost 20000 0; mk_store_cost 5000 15000;
    mk_store_cost 5000 0 ].
Definition costs_istanbul : list StoreCost :=
  [ mk_store_cost 800 0; mk_store_cost 20000 0; mk_store_cost 5000 15000; mk_store_cost 5000 0;
    mk_store_cost 800 (-15000); mk_store_cost 800 15000; mk_store_cost 800 (-10800); mk_store_cost 800 19200;
    mk_store_cost 800 4200 ].
Definition costs_berlin : list StoreCost :=
  [ mk_store_cost 100 0; mk_store_cost 20000 0; mk_store_cost 2900 15000; mk_store_cost 2900 0;
    mk_store_cost 100 (-15000); mk_store_cost 100 15000; mk_store_cost 100 (-12200); mk_store_cost 100 19900;
    mk_store_cost 100 2800 ].
Definition costs_london : list StoreCost :=
  [ mk_store_cost 100 0; mk_store_cost 20000 0; mk_store_cost 2900 4800; mk_store_cost 2900 0;
    mk_store_cost 100 (-4800); mk_store_cost 100 4800; mk_store_cost 100 (-2000); mk_store_cost 100 19900;
    mk_store_cost 100 2800 ].

(** [StorageCostTable]: every revision since London repeats London's costs; a Monad
    revision has those of its [evm_base]. *)
Definition storage_cost_table (t : Traits) : list StoreCost :=
  match evm_rev t with
  | MONAD_ETH_PETERSBURG => costs_petersburg
  | MONAD_ETH_ISTANBUL => costs_istanbul
  | MONAD_ETH_BERLIN => costs_berlin
  | MONAD_ETH_LONDON | MONAD_ETH_PARIS | MONAD_ETH_SHANGHAI | MONAD_ETH_CANCUN | MONAD_ETH_PRAGUE
  | MONAD_ETH_OSAKA => costs_london
  | _ => replicate 9 (mk_store_cost 0 0)
  end.

Definition minimum_store_gas (t : Traits) : Z :=
  match map store_gas_cost (storage_cost_table t) with g :: l => foldr Z.min g l | [] => 0 end.

Definition storage_status_index (s : evmc_storage_status) : nat :=
  match s with
  | EVMC_STORAGE_ASSIGNED => 0 | EVMC_STORAGE_ADDED => 1 | EVMC_STORAGE_DELETED => 2
  | EVMC_STORAGE_MODIFIED => 3 | EVMC_STORAGE_DELETED_ADDED => 4 | EVMC_STORAGE_MODIFIED_DELETED => 5
  | EVMC_STORAGE_DELETED_RESTORED => 6 | EVMC_STORAGE_ADDED_DELETED => 7 | EVMC_STORAGE_MODIFIED_RESTORED => 8
  end.

Definition store_cost (t : Traits) (s : evmc_storage_status) : StoreCost :=
  nth (storage_status_index s) (storage_cost_table t) (mk_store_cost 0 0).

(** ** Functions the instructions call *)
Module runtime.
Section runtime.
Context (t : Traits) (keccak256 : byte_string -> bytes32).
Import context.
#[local] Abbreviation RM := (M Context).

(** *** Arithmetic; [mul] is hand-written assembly for [operator*]. *)
Definition mul (a b : u256) : RM u256 := mret (UInt256Ops.truncating_mul a b).
Definition udiv (a b : u256) : RM u256 := if negb (to_bool b) then mret #0 else mopt (op_div a b).
Definition sdiv (a b : u256) : RM u256 := if negb (to_bool b) then mret #0 else mopt (fst <$> sdivrem a b).
Definition umod (a b : u256) : RM u256 := if negb (to_bool b) then mret #0 else mopt (op_mod a b).
Definition smod (a b : u256) : RM u256 := if negb (to_bool b) then mret #0 else mopt (snd <$> sdivrem a b).
Definition addmod (a b n : u256) : RM u256 := if negb (to_bool n) then mret #0 else mopt (UInt256Ops.addmod a b n).
Definition mulmod (a b n : u256) : RM u256 := if negb (to_bool n) then mret #0 else mopt (UInt256Ops.mulmod a b n).

Definition exp_dynamic_gas_cost_multiplier : Z := 50.
Definition exp (a exponent : u256) : RM u256 :=
  deduct_gas (count_significant_bytes exponent * exp_dynamic_gas_cost_multiplier) ;;
  mret (UInt256Ops.exp a exponent).

(** *** Memory *)
Definition mload (offset_word : u256) : RM u256 :=
  offset <- get_memory_offset offset_word ;;
  expand_memory t (offset + 32) ;;
  bs <- mem_read offset 32 ;;
  mret #(bytes_val bs).

Definition mstore (offset_word value : u256) : RM unit :=
  offset <- get_memory_offset offset_word ;;
  expand_memory t (offset + 32) ;;
  mem_write offset (to_bytes 32 value).

Definition mstore8 (offset_word value : u256) : RM unit :=
  offset <- get_memory_offset offset_word ;;
  expand_memory t (offset + 1) ;;
  mem_write offset [ #value ].

Definition mcopy (dst_word src_word size_word : u256) : RM unit :=
  size <- get_memory_offset size_word ;;
  if 0 <? size then
    src <- get_memory_offset src_word ;;
    dst <- get_memory_offset dst_word ;;
    expand_memory t (Z.max dst src + size) ;;
    cost <- bin 32 (shr_ceil5 size * 3) ;;
    deduct_gas cost ;;
    bs <- mem_read src size ;;
    mem_write dst bs
  else mret tt.

(** *** Data *)

(** [if (access_status == EVMC_ACCESS_COLD) deduct_gas(cost)]. *)
Definition charge_cold (s : evmc_access_status) (cost : Z) : RM unit :=
  match s with EVMC_ACCESS_COLD => deduct_gas cost | EVMC_ACCESS_WARM => mret tt end.

Definition access_account (a : address) : RM unit :=
  if eip_2929_active t then
    s <- mhost (HAccessAccount a) ;; charge_cold s (cold_account_cost t)
  else mret tt.

Definition balance (address_word : u256) : RM u256 :=
  let a := address_from_uint256 address_word in
  access_account a ;;
  mhost (HGetBalance a).

(** [uint256_load_bounded_be]: the first bytes, zeros after them. *)
Definition uint256_load_bounded_be (l : byte_string) : u256 :=
  #(bytes_val (take 32 l ++ replicate (32 - length l) #0)).

Definition calldataload (i_word : u256) : RM u256 :=
  if negb (is_bounded_by_bits 32 i_word) then mret #0
  else
    c <- mget ;;
    let i := uval (limb i_word 0) in
    let n := zlen (env_input_data (env c)) - i in
    if n <=? 0 then mret #0
    else mret (uint256_load_bounded_be (drop (Z.to_nat i) (env_input_data (env c)))).

Definition copy_impl (dest_offset_word offset_word size_word : u256) (source : byte_string) : RM unit :=
  let len := zlen source in
  size <- get_memory_offset size_word ;;
  if size =? 0 then mret tt
  else
    dest_offset <- get_memory_offset dest_offset_word ;;
    expand_memory t (dest_offset + size) ;;
    cost <- bin 32 (shr_ceil5 size * 3) ;;
    deduct_gas cost ;;
    let start := if is_bounded_by_bits 32 offset_word then Z.min (limb offset_word 0) len else len in
    let copy_size := Z.min size (len - start) in
    mem_write dest_offset (take (Z.to_nat copy_size) (drop (Z.to_nat start) source)) ;;
    mem_write (dest_offset + copy_size) (replicate (Z.to_nat (size - copy_size)) #0).

Definition calldatacopy (dest_offset offset size : u256) : RM unit :=
  c <- mget ;; copy_impl dest_offset offset size (env_input_data (env c)).

Definition codecopy (dest_offset offset size : u256) : RM unit :=
  c <- mget ;; copy_impl dest_offset offset size (env_code (env c)).

Definition extcodecopy (address_word dest_offset_word offset_word size_word : u256) : RM unit :=
  size <- get_memory_offset size_word ;;
  dest_offset <-
    (if 0 <? size then
       dest_offset <- get_memory_offset dest_offset_word ;;
       expand_memory t (dest_offset + size) ;;
       cost <- bin 32 (shr_ceil5 size * 3) ;;
       deduct_gas cost ;;
       mret dest_offset
     else mret 0) ;;
  let a := address_from_uint256 address_word in
  access_account a ;;
  if 0 <? size then
    let offset := clamp_cast 32 offset_word in
    code <- mhost (HCopyCode a (Z.to_nat offset) (Z.to_nat size)) ;;
    (* the host writes at most the size of the buffer *)
    let copied := take (Z.to_nat size) code in
    mem_write dest_offset copied ;;
    mem_write (dest_offset + zlen copied) (replicate (Z.to_nat (size - zlen copied)) #0)
  else mret tt.

Definition returndatacopy (dest_offset_word offset_word size_word : u256) : RM unit :=
  size <- get_memory_offset size_word ;;
  let offset := clamp_cast 32 offset_word in
  c <- mget ;;
  let return_data := env_return_data (env c) in
  if (2 ^ 32 <=? offset + size) || (zlen return_data <? offset + size) then exit StOutOfGas
  else if 0 <? size then
    dest_offset <- get_memory_offset dest_offset_word ;;
    expand_memory t (dest_offset + size) ;;
    cost <- bin 32 (shr_ceil5 size * 3) ;;
    deduct_gas cost ;;
    mem_write dest_offset (take (Z.to_nat size) (drop (Z.to_nat offset) return_data))
  else mret tt.

Definition extcodehash (address_word : u256) : RM u256 :=
  let a := address_from_uint256 address_word in
  access_account a ;;
  mhost (HGetCodeHash a).

Definition extcodesize (address_word : u256) : RM u256 :=
  let a := address_from_uint256 address_word in
  access_account a ;;
  n <- mhost (HGetCodeSize a) ;;
  mret (uint256_from_int (Z.of_nat n)).

(** *** Hashes and logs *)
Definition sha3 (offset_word size_word : u256) : RM u256 :=
  size <- get_memory_offset size_word ;;
  offset <-
    (if 0 <? size then
       offset <- get_memory_offset offset_word ;;
       expand_memory t (offset + size) ;;
       cost <- bin 32 (shr_ceil5 size * 6) ;;
       deduct_gas cost ;;
       mret offset
     else mret 0) ;;
  bs <- mem_read offset size ;;
  mret (keccak256 bs).

Definition log_impl (offset_word size_word : u256) (topics : list bytes32) : RM unit :=
  forbid_static ;;
  size <- get_memory_offset size_word ;;
  offset <-
    (if 0 <? size then
       offset <- get_memory_offset offset_word ;;
       expand_memory t (offset + size) ;;
       cost <- bin 32 (size * 8) ;;
       deduct_gas cost ;;
       mret offset
     else mret 0) ;;
  data <- mem_read offset size ;;
  c <- mget ;;
  mhost (HEmitLog (mk_log (env_recipient (env c)) topics data)).

Definition log0 (offset size : u256) : RM unit := log_impl offset size [].
Definition log1 (offset size topic1 : u256) : RM unit := log_impl offset size [topic1].
Definition log2 (offset size topic1 topic2 : u256) : RM unit := log_impl offset size [topic1; topic2].
Definition log3 (offset size topic1 topic2 topic3 : u256) : RM unit :=
  log_impl offset size [topic1; topic2; topic3].
Definition log4 (offset size topic1 topic2 topic3 topic4 : u256) : RM unit :=
  log_impl offset size [topic1; topic2; topic3; topic4].

(** *** Storage *)
Definition sload (key : u256) : RM u256 :=
  c <- mget ;;
  let self := env_recipient (env c) in
  (if eip_2929_active t then
     s <- mhost (HAccessStorage self key) ;; charge_cold s (cold_storage_cost t)
   else mret tt) ;;
  mhost (HGetStorage self key).

Definition sstore (key val : u256) (remaining_block_base_gas : Z) : RM unit :=
  forbid_static ;;
  let min_gas := minimum_store_gas t in
  c <- mget ;;
  let self := env_recipient (env c) in
  (if eth_ge (evm_rev t) MONAD_ETH_ISTANBUL && (gas_remaining c + remaining_block_base_gas + min_gas <=? 2300)
   then exit StOutOfGas else mret tt) ;;
  (if eip_2929_active t then
     s <- mhost (HAccessStorage self key) ;; charge_cold s (cold_storage_cost t + min_gas)
   else mret tt) ;;
  storage_status <- mhost (HSetStorage self key val) ;;
  let cost := store_cost t storage_status in
  add_refund (store_gas_refund cost) ;;
  deduct_gas (store_gas_cost cost - min_gas).

Definition tload (key : u256) : RM u256 :=
  c <- mget ;; mhost (HGetTransientStorage (env_recipient (env c)) key).

Definition tstore (key val : u256) : RM unit :=
  forbid_static ;;
  c <- mget ;; mhost (HSetTransientStorage (env_recipient (env c)) key val).

(** *** The block *)
Definition blockhash (block_number_word : u256) : RM u256 :=
  if negb (is_bounded_by_bits 63 block_number_word) then mret #0
  else
    c <- mget ;;
    let number := uval (limb block_number_word 0) in
    let current := block_number (env_tx_context (env c)) in
    let first_allowed_block := Z.max (current - 256) 0 in
    if (first_allowed_block <=? number) && (number <? current)
    then mhost (HGetBlockHash number) else mret #0.

Definition selfbalance : RM u256 := c <- mget ;; mhost (HGetBalance (env_recipient (env c))).

Definition blobhash (index : u256) : RM u256 :=
  c <- mget ;;
  let hashes := blob_hashes (env_tx_context (env c)) in
  if u256_ltb index #(zlen hashes) then mopt (hashes !! Z.to_nat (limb index 0)) else mret #0.

(** *** Calls *)
Definition message_flags (env_flags : Z) (static_call delegation_indicator : bool) : Z :=
  let env_flags := if static_call then Z.setbit 0 EVMC_STATIC else env_flags in
  if delegation_indicator then Z.setbit env_flags EVMC_DELEGATED else Z.clearbit env_flags EVMC_DELEGATED.

Definition sub_gas (g : Z) : RM unit := mmod (fun c => with_gas_remaining (gas_remaining c - g) c).

(** The delegate of a delegated account is charged for, without a check yet. *)
Definition delegate_target (dest_address : address) : RM address :=
  if eth_ge (evm_rev t) MONAD_ETH_PRAGUE then
    d <- resolve_delegation dest_address ;;
    match d with
    | Some delegate_address =>
        s <- mhost (HAccessAccount delegate_address) ;;
        sub_gas ((match s with EVMC_ACCESS_COLD => cold_account_cost t | EVMC_ACCESS_WARM => 0 end) + 100) ;;
        mret delegate_address
    | None => mret dest_address
    end
  else mret dest_address.

(** The message, and what its result does to the frame. *)
Definition send_call (message : Message) (ret_offset ret_size : Z) : RM u256 :=
  r <- mhost (HCall message) ;;
  set_return_data (r_output r) ;;
  deduct_gas (gas message - r_gas_left r) ;;
  add_refund (r_gas_refund r) ;;
  let copy_size := Z.min ret_size (zlen (r_output r)) in
  mem_write ret_offset (take (Z.to_nat copy_size) (r_output r)) ;;
  mret (uint256_from_bool (succeeded r)).

(** The range of the arguments or of the result, and the memory for both. *)
Definition memory_range (offset_word size_word : u256) : RM (Z * Z) :=
  size <- get_memory_offset size_word ;;
  offset <- (if 0 <? size then get_memory_offset offset_word else mret 0) ;;
  mret (offset, size).

(** The charges for a value, without a check yet. *)
Definition charge_value (has_value : bool) (kind : call_kind) (dest_address : address)
    (remaining_block_base_gas : Z) : RM unit :=
  (if has_value then sub_gas 9000 else mret tt) ;;
  if bool_decide (kind = EVMC_CALL) then
    c <- mget ;;
    if has_value && is_static c then
      exit (if gas_remaining c + remaining_block_base_gas <? 0 then StOutOfGas else StError)
    else if has_value then
      exists_ <- mhost (HAccountExists dest_address) ;;
      if negb exists_ then sub_gas 25000 else mret tt
    else mret tt
  else mret tt.

Definition call_impl (gas_word address_word : u256) (has_value : bool) (val : bytes32)
    (args_offset_word args_size_word ret_offset_word ret_size_word : u256) (kind : call_kind) (static_call : bool)
    (remaining_block_base_gas : Z) : RM u256 :=
  clear_return_data ;;
  args <- memory_range args_offset_word args_size_word ;;
  ret <- memory_range ret_offset_word ret_size_word ;;
  expand_memory t (Z.max (args.1 + args.2) (ret.1 + ret.2)) ;;
  let dest_address := address_from_uint256 address_word in
  access_account dest_address ;;
  code_address <- delegate_target dest_address ;;
  charge_value has_value kind dest_address remaining_block_base_gas ;;
  c <- mget ;;
  let recipient := if bool_decide (kind = EVMC_CALL) || static_call then dest_address else env_recipient (env c) in
  let sender := if bool_decide (kind = EVMC_DELEGATECALL) then env_sender (env c) else env_recipient (env c) in
  let gas_left_here := gas_remaining c + remaining_block_base_gas in
  if gas_left_here <? 0 then exit StOutOfGas
  else
    let gas0 := Z.min (clamp_cast 63 gas_word) (gas_left_here - gas_left_here / 64) in
    let gas := if has_value then gas0 + 2300 else gas0 in
    (if has_value then sub_gas (-2300) else mret tt) ;;
    if 1024 <=? env_depth (env c) then mret #0
    else
      input <- mem_read args.1 args.2 ;;
      send_call
        (mk_message kind (message_flags (evmc_flags (env c)) static_call (negb (dest_address =w? code_address)))
          (env_depth (env c) + 1) gas recipient sender input val (env_create2_salt (env c)) code_address
          (mem_parent (memory c) + mem_size (memory c)))
        ret.1 ret.2.

Definition call (gas address_ value args_offset args_size ret_offset ret_size : u256) (base_gas : Z) : RM u256 :=
  call_impl gas address_ (to_bool value) value args_offset args_size ret_offset ret_size EVMC_CALL false base_gas.

Definition callcode (gas address_ value args_offset args_size ret_offset ret_size : u256) (base_gas : Z) : RM u256 :=
  call_impl gas address_ (to_bool value) value args_offset args_size ret_offset ret_size EVMC_CALLCODE false base_gas.

Definition delegatecall (gas address_ args_offset args_size ret_offset ret_size : u256) (base_gas : Z) : RM u256 :=
  c <- mget ;;
  call_impl gas address_ false (env_value (env c)) args_offset args_size ret_offset ret_size EVMC_DELEGATECALL false
    base_gas.

Definition staticcall (gas address_ args_offset args_size ret_offset ret_size : u256) (base_gas : Z) : RM u256 :=
  call_impl gas address_ false #0 args_offset args_size ret_offset ret_size EVMC_CALL true base_gas.

(** *** Creation *)
Definition create_code_word_cost : Z := if eth_ge (evm_rev t) MONAD_ETH_SHANGHAI then 2 else 0.
Definition create2_code_word_cost : Z := if eth_ge (evm_rev t) MONAD_ETH_SHANGHAI then 8 else 6.

Definition send_create (message : Message) : RM u256 :=
  r <- mhost (HCall message) ;;
  set_return_data (r_output r) ;;
  deduct_gas (gas message - r_gas_left r) ;;
  add_refund (r_gas_refund r) ;;
  mret (if succeeded r then uint256_from_address (r_create r) else #0).

Definition create_impl (val offset_word size_word salt_word : u256) (kind : call_kind)
    (remaining_block_base_gas : Z) : RM u256 :=
  forbid_static ;;
  c <- mget ;;
  (if eth_ge (evm_rev t) MONAD_ETH_PRAGUE && negb (can_create_inside_delegated t) then
     d <- resolve_delegation (env_recipient (env c)) ;;
     if has_value d then exit StError else mret tt
   else mret tt) ;;
  clear_return_data ;;
  size <- get_memory_offset size_word ;;
  offset <-
    (if 0 <? size then
       offset <- get_memory_offset offset_word ;;
       expand_memory t (offset + size) ;;
       mret offset
     else mret 0) ;;
  (if eth_ge (evm_rev t) MONAD_ETH_SHANGHAI && (max_initcode_size t <? size) then exit StOutOfGas else mret tt) ;;
  let word_cost := if bool_decide (kind = EVMC_CREATE2) then create2_code_word_cost else create_code_word_cost in
  cost <- bin 32 (shr_ceil5 size * word_cost) ;;
  deduct_gas cost ;;
  c <- mget ;;
  if 1024 <=? env_depth (env c) then mret #0
  else
    let gas := gas_remaining c + remaining_block_base_gas in
    let gas := gas - gas / 64 in
    input <- mem_read offset size ;;
    send_create
      (mk_message kind 0 (env_depth (env c) + 1) gas #0 (env_recipient (env c)) input val salt_word #0
        (mem_parent (memory c) + mem_size (memory c))).

Definition create (val offset size : u256) (base_gas : Z) : RM u256 :=
  create_impl val offset size #0 EVMC_CREATE base_gas.

Definition create2 (val offset size salt : u256) (base_gas : Z) : RM u256 :=
  create_impl val offset size salt EVMC_CREATE2 base_gas.

(** *** Self-destruction *)
Definition selfdestruct {A} (address_word : u256) : RM A :=
  forbid_static ;;
  let a := address_from_uint256 address_word in
  c <- mget ;;
  let self := env_recipient (env c) in
  (if eip_2929_active t then
     s <- mhost (HAccessAccount a) ;; charge_cold s (cold_account_cost t + 100)
   else mret tt) ;;
  balance <- mhost (HGetBalance self) ;;
  (if negb (balance =? 0) then
     exists_ <- mhost (HAccountExists a) ;;
     if negb exists_ then deduct_gas 25000 else mret tt
   else mret tt) ;;
  result <- mhost (HSelfdestruct self a) ;;
  (if negb (eth_ge (evm_rev t) MONAD_ETH_LONDON) && result then add_refund 24000 else mret tt) ;;
  exit StSuccess.
End runtime.
End runtime.
