(* ===== verification/Interpreter.v ===== *)
(** * The interpreter

    Models src/category/vm/interpreter/: the checks and accesses of the stack (stack.hpp),
    the calls of runtime functions with arguments on the stack (call_runtime.hpp), every
    instruction and their table (instruction_table.hpp, push.hpp), and the loop
    (execute.cpp), with the part of src/category/vm/vm.cpp that runs it on a message.

    A [Frame] is what an instruction receives: the context, the 1024 cells of the stack
    with the number in use ([stack_top - stack_bottom]), the gas register and the position
    of the instruction.  The jump from one instruction to the next is [core_loop]; it has
    one round more than there is gas as fuel, and every instruction that does not end the
    execution costs gas (InterpreterSafe.v).  Tracing and the storing of stacks for fuzzing
    are not modelled. *)
From S2P Require Import Prelude Prog Abi StakingVars Transaction Rlp State3 StakingContract UInt256 UInt256Div UInt256Ops Opcodes Intercode Evm ExecuteTransaction EvmRuntime.
#[local] Open Scope rt_scope.

Record Frame := mk_frame { f_ctx : Context; f_cells : list u256; f_sp : Z; f_gas : Z; f_ip : Z }.

Definition with_ctx (c : Context) (f : Frame) : Frame := mk_frame c (f_cells f) (f_sp f) (f_gas f) (f_ip f).
Definition with_cells (s : list u256) (f : Frame) : Frame := mk_frame (f_ctx f) s (f_sp f) (f_gas f) (f_ip f).
Definition with_sp (n : Z) (f : Frame) : Frame := mk_frame (f_ctx f) (f_cells f) n (f_gas f) (f_ip f).
Definition with_f_gas (g : Z) (f : Frame) : Frame := mk_frame (f_ctx f) (f_cells f) (f_sp f) g (f_ip f).
Definition with_ip (i : Z) (f : Frame) : Frame := mk_frame (f_ctx f) (f_cells f) (f_sp f) (f_gas f) i.

Abbreviation IM := (M Frame).

(** A runtime function of [n] arguments. *)
Fixpoint runtime_fn (n : nat) (R : Type) : Type :=
  match n with O => M Context R | S n' => u256 -> runtime_fn n' R end.

Module interpreter.
Section interpreter.
Context (t : Traits) (keccak256 : byte_string -> bytes32) (analysis : Intercode).

(** ** The stack *)
Definition exit {A} (code : StatusCode) : IM A := fun f => Exit code (f_ctx f).

Definition check_requirements (instr : Z) : IM unit :=
  let info := opcode_table t instr in
  (if 0 <? min_gas info then
     mmod (fun f => with_f_gas (f_gas f - min_gas info) f) ;;
     f <- mget ;;
     if f_gas f <? 0 then exit StOutOfGas else mret tt
   else mret tt) ;;
  if (min_stack info =? 0) && (stack_increase info =? 0) then mret tt
  else
    f <- mget ;;
    let stack_size := f_sp f in
    massert (stack_size <=? 1024) ;;
    (if (0 <? min_stack info) && (stack_size <? min_stack info) then exit StError else mret tt) ;;
    if 0 <? stack_increase info then
      let delta := stack_increase info - min_stack info in
      let max_safe_size := 1024 - delta in
      if (max_safe_size <? 1024) && (max_safe_size <? stack_size) then exit StError else mret tt
    else mret tt.

(** [*(stack_top - k)]. *)
Definition peek (k : Z) : IM u256 :=
  f <- mget ;;
  let i := f_sp f - 1 - k in
  if 0 <=? i then mopt (f_cells f !! Z.to_nat i) else mabort.

Definition poke (k : Z) (x : u256) : IM unit :=
  f <- mget ;;
  let i := f_sp f - 1 - k in
  if (0 <=? i) && (i <? zlen (f_cells f)) then mmod (with_cells (<[Z.to_nat i := x]> (f_cells f))) else mabort.

Definition push (x : u256) : IM unit := poke (-1) x.

Definition pop : IM u256 :=
  x <- peek 0 ;; mmod (fun f => with_sp (f_sp f - 1) f) ;; mret x.

(** ** Runtime calls *)
Definition lift {A} (m : M Context A) : IM A :=
  fun f => rt_bind (m (f_ctx f)) (fun p => Ret (p.1, with_ctx p.2 f)).

(** The arguments are at the top of the stack, the first one above the others. *)
Fixpoint apply_args {R} (n : nat) (k : Z) : runtime_fn n R -> IM (M Context R) :=
  match n return runtime_fn n R -> IM (M Context R) with
  | O => fun f => mret f
  | S n' => fun f => a <- peek k ;; apply_args n' (k + 1) (f a)
  end.

Definition call_runtime_void (n : nat) {R} (fn : runtime_fn n R) : IM R :=
  m <- apply_args n 0 fn ;;
  mmod (fun f => with_ctx (with_gas_remaining (f_gas f) (f_ctx f)) f) ;;
  r <- lift m ;;
  mmod (fun f => with_f_gas (gas_remaining (f_ctx f)) f) ;;
  mret r.

(** The result replaces the last argument; with none it goes above the stack. *)
Definition call_runtime (n : nat) (fn : runtime_fn n u256) : IM unit :=
  r <- call_runtime_void n fn ;;
  poke (Z.of_nat n - 1) r.

Definition checked_runtime_call (op : Z) (n : nat) (fn : runtime_fn n u256) : IM unit :=
  check_requirements op ;; call_runtime n fn.
Definition checked_runtime_call_void (op : Z) (n : nat) {R} (fn : runtime_fn n R) : IM R :=
  check_requirements op ;; call_runtime_void n fn.

(** [MONAD_VM_NEXT] and [MONAD_VM_NEXT_PUSH], up to the jump. *)
Definition stack_delta (op : Z) : Z := stack_increase (opcode_table t op) - min_stack (opcode_table t op).

Definition next (op : Z) : IM unit :=
  mmod (fun f => with_ip (f_ip f + 1) (with_sp (f_sp f + stack_delta op) f)).
Definition next_push (op : Z) : IM unit :=
  mmod (fun f => with_ip (f_ip f + ((op - PUSH0) + 1)) (with_sp (f_sp f + stack_delta op) f)).

(** ** Instructions *)
(** *** Arithmetic *)
Definition add : IM unit :=
  check_requirements ADD ;;
  a <- peek 0 ;; b <- peek 1 ;;
  poke 1 (fst (addc a b)) ;;
  next ADD.

Definition mul : IM unit := checked_runtime_call MUL 2 (runtime.mul) ;; next MUL.
Definition sub : IM unit :=
  check_requirements SUB ;;
  a <- peek 0 ;; b <- peek 1 ;;
  poke 1 (fst (subb a b)) ;;
  next SUB.

Definition udiv : IM unit := checked_runtime_call DIV 2 (runtime.udiv) ;; next DIV.
Definition sdiv : IM unit := checked_runtime_call SDIV 2 (runtime.sdiv) ;; next SDIV.
Definition umod : IM unit := checked_runtime_call MOD 2 (runtime.umod) ;; next MOD.
Definition smod : IM unit := checked_runtime_call SMOD 2 (runtime.smod) ;; next SMOD.
Definition addmod : IM unit := checked_runtime_call ADDMOD 3 (runtime.addmod) ;; next ADDMOD.
Definition mulmod : IM unit := checked_runtime_call MULMOD 3 (runtime.mulmod) ;; next MULMOD.
Definition exp : IM unit := checked_runtime_call EXP 2 (runtime.exp) ;; next EXP.
Definition signextend : IM unit :=
  check_requirements SIGNEXTEND ;;
  b <- peek 0 ;; x <- peek 1 ;;
  poke 1 (UInt256Ops.signextend b x) ;;
  next SIGNEXTEND.

(** *** Comparison and bits *)
Definition lt : IM unit :=
  check_requirements LT ;;
  a <- peek 0 ;; b <- peek 1 ;;
  poke 1 (uint256_from_bool (u256_ltb a b)) ;;
  next LT.

Definition gt : IM unit :=
  check_requirements GT ;;
  a <- peek 0 ;; b <- peek 1 ;;
  poke 1 (uint256_from_bool (u256_ltb b a)) ;;
  next GT.

Definition slt : IM unit :=
  check_requirements SLT ;;
  a <- peek 0 ;; b <- peek 1 ;;
  poke 1 (uint256_from_bool (UInt256Ops.slt a b)) ;;
  next SLT.

Definition sgt : IM unit :=
  check_requirements SGT ;;
  a <- peek 0 ;; b <- peek 1 ;;
  poke 1 (uint256_from_bool (UInt256Ops.slt b a)) ;;
  next SGT.

Definition eq : IM unit :=
  check_requirements EQ ;;
  a <- peek 0 ;; b <- peek 1 ;;
  poke 1 (uint256_from_bool (op_eqb a b)) ;;
  next EQ.

Definition iszero : IM unit :=
  check_requirements ISZERO ;;
  a <- peek 0 ;;
  poke 0 (uint256_from_bool (negb (to_bool a))) ;;
  next ISZERO.

Definition and_ : IM unit :=
  check_requirements AND ;;
  a <- peek 0 ;; b <- peek 1 ;;
  poke 1 (op_and a b) ;;
  next AND.

Definition or_ : IM unit :=
  check_requirements OR ;;
  a <- peek 0 ;; b <- peek 1 ;;
  poke 1 (op_or a b) ;;
  next OR.

Definition xor_ : IM unit :=
  check_requirements XOR ;;
  a <- peek 0 ;; b <- peek 1 ;;
  poke 1 (op_xor a b) ;;
  next XOR.

Definition not_ : IM unit :=
  check_requirements NOT ;;
  a <- peek 0 ;;
  poke 0 (op_not a) ;;
  next NOT.

Definition byte : IM unit :=
  check_requirements BYTE ;;
  i <- peek 0 ;; x <- peek 1 ;;
  poke 1 (UInt256Ops.byte i x) ;;
  next BYTE.

Definition shl : IM unit :=
  check_requirements SHL ;;
  shift <- peek 0 ;; value <- peek 1 ;;
  poke 1 (op_shl value shift) ;;
  next SHL.

Definition shr : IM unit :=
  check_requirements SHR ;;
  shift <- peek 0 ;; value <- peek 1 ;;
  poke 1 (op_shr value shift) ;;
  next SHR.

Definition sar : IM unit :=
  check_requirements SAR ;;
  shift <- peek 0 ;; value <- peek 1 ;;
  poke 1 (UInt256Ops.sar shift value) ;;
  next SAR.

Definition clz : IM unit :=
  check_requirements CLZ ;;
  a <- peek 0 ;;
  poke 0 (uint256_from_int (countl_zero a)) ;;
  next CLZ.

(** *** Data *)
Definition sha3 : IM unit := checked_runtime_call SHA3 2 (runtime.sha3 t keccak256) ;; next SHA3.
Definition address_ : IM unit :=
  check_requirements ADDRESS ;; f <- mget ;; push (uint256_from_address (env_recipient (env (f_ctx f)))) ;; next ADDRESS.
Definition balance : IM unit := checked_runtime_call BALANCE 1 (runtime.balance t) ;; next BALANCE.
Definition origin : IM unit :=
  check_requirements ORIGIN ;; f <- mget ;; push (uint256_from_address (tx_origin (env_tx_context (env (f_ctx f))))) ;; next ORIGIN.
Definition caller : IM unit :=
  check_requirements CALLER ;; f <- mget ;; push (uint256_from_address (env_sender (env (f_ctx f)))) ;; next CALLER.
Definition callvalue : IM unit :=
  check_requirements CALLVALUE ;; f <- mget ;; push (env_value (env (f_ctx f))) ;; next CALLVALUE.
Definition calldataload : IM unit := checked_runtime_call CALLDATALOAD 1 (runtime.calldataload) ;; next CALLDATALOAD.
Definition calldatasize : IM unit :=
  check_requirements CALLDATASIZE ;; f <- mget ;; push (uint256_from_int (zlen (env_input_data (env (f_ctx f))))) ;; next CALLDATASIZE.
Definition calldatacopy : IM unit := checked_runtime_call_void CALLDATACOPY 3 (runtime.calldatacopy t) ;; next CALLDATACOPY.
Definition codesize : IM unit :=
  check_requirements CODESIZE ;; f <- mget ;; push (uint256_from_int (zlen (env_code (env (f_ctx f))))) ;; next CODESIZE.
Definition codecopy : IM unit := checked_runtime_call_void CODECOPY 3 (runtime.codecopy t) ;; next CODECOPY.
Definition gasprice : IM unit :=
  check_requirements GASPRICE ;; f <- mget ;; push (tx_gas_price (env_tx_context (env (f_ctx f)))) ;; next GASPRICE.
Definition extcodesize : IM unit := checked_runtime_call EXTCODESIZE 1 (runtime.extcodesize t) ;; next EXTCODESIZE.
Definition extcodecopy : IM unit := checked_runtime_call_void EXTCODECOPY 4 (runtime.extcodecopy t) ;; next EXTCODECOPY.
Definition returndatasize : IM unit :=
  check_requirements RETURNDATASIZE ;; f <- mget ;; push (uint256_from_int (zlen (env_return_data (env (f_ctx f))))) ;; next RETURNDATASIZE.
Definition returndatacopy : IM unit := checked_runtime_call_void RETURNDATACOPY 3 (runtime.returndatacopy t) ;; next RETURNDATACOPY.
Definition extcodehash : IM unit := checked_runtime_call EXTCODEHASH 1 (runtime.extcodehash t) ;; next EXTCODEHASH.
Definition blockhash : IM unit := checked_runtime_call BLOCKHASH 1 (runtime.blockhash) ;; next BLOCKHASH.
Definition coinbase : IM unit :=
  check_requirements COINBASE ;; f <- mget ;; push (uint256_from_address (block_coinbase (env_tx_context (env (f_ctx f))))) ;; next COINBASE.
Definition timestamp : IM unit :=
  check_requirements TIMESTAMP ;; f <- mget ;; push (uint256_from_int (block_timestamp (env_tx_context (env (f_ctx f))))) ;; next TIMESTAMP.
Definition number : IM unit :=
  check_requirements NUMBER ;; f <- mget ;; push (uint256_from_int (block_number (env_tx_context (env (f_ctx f))))) ;; next NUMBER.
Definition prevrandao : IM unit :=
  check_requirements DIFFICULTY ;; f <- mget ;; push (block_prev_randao (env_tx_context (env (f_ctx f)))) ;; next DIFFICULTY.
Definition gaslimit : IM unit :=
  check_requirements GASLIMIT ;; f <- mget ;; push (uint256_from_int (block_gas_limit (env_tx_context (env (f_ctx f))))) ;; next GASLIMIT.
Definition chainid : IM unit :=
  check_requirements CHAINID ;; f <- mget ;; push (chain_id (env_tx_context (env (f_ctx f)))) ;; next CHAINID.
Definition selfbalance : IM unit := checked_runtime_call SELFBALANCE 0 (runtime.selfbalance) ;; next SELFBALANCE.
Definition basefee : IM unit :=
  check_requirements BASEFEE ;; f <- mget ;; push (block_base_fee (env_tx_context (env (f_ctx f)))) ;; next BASEFEE.
Definition blobhash : IM unit := checked_runtime_call BLOBHASH 1 (runtime.blobhash) ;; next BLOBHASH.
Definition blobbasefee : IM unit :=
  check_requirements BLOBBASEFEE ;; f <- mget ;; push (blob_base_fee (env_tx_context (env (f_ctx f)))) ;; next BLOBBASEFEE.

(** *** Memory and storage *)
Definition mload : IM unit := checked_runtime_call MLOAD 1 (runtime.mload t) ;; next MLOAD.
Definition mstore : IM unit := checked_runtime_call_void MSTORE 2 (runtime.mstore t) ;; next MSTORE.
Definition mstore8 : IM unit := checked_runtime_call_void MSTORE8 2 (runtime.mstore8 t) ;; next MSTORE8.
Definition mcopy : IM unit := checked_runtime_call_void MCOPY 3 (runtime.mcopy t) ;; next MCOPY.
Definition sstore : IM unit := checked_runtime_call_void SSTORE 2 (fun key value => runtime.sstore t key value 0) ;; next SSTORE.
Definition sload : IM unit := checked_runtime_call SLOAD 1 (runtime.sload t) ;; next SLOAD.
Definition tstore : IM unit := checked_runtime_call_void TSTORE 2 (runtime.tstore) ;; next TSTORE.
Definition tload : IM unit := checked_runtime_call TLOAD 1 (runtime.tload) ;; next TLOAD.

(** *** Execution state and stack *)
Definition pc : IM unit :=
  check_requirements PC ;; f <- mget ;; push (uint256_from_int (f_ip f)) ;; next PC.
Definition msize : IM unit :=
  check_requirements MSIZE ;; f <- mget ;; push (uint256_from_int (mem_size (memory (f_ctx f)))) ;; next MSIZE.
Definition gas_ : IM unit :=
  check_requirements GAS ;; f <- mget ;; push (uint256_from_int (f_gas f)) ;; next GAS.

Definition push_ (N : nat) : IM unit :=
  let op := PUSH0 + Z.of_nat N in
  check_requirements op ;;
  f <- mget ;;
  x <- mopt (push_value N analysis (f_ip f)) ;;
  push x ;;
  next_push op.

Definition pop_ : IM unit := check_requirements POP ;; next POP.

Definition dup (N : nat) : IM unit :=
  let op := DUP1 + (Z.of_nat N - 1) in
  check_requirements op ;;
  x <- peek (Z.of_nat N - 1) ;;
  push x ;;
  next op.

Definition swap (N : nat) : IM unit :=
  let op := SWAP1 + (Z.of_nat N - 1) in
  check_requirements op ;;
  top <- peek 0 ;;
  x <- peek (Z.of_nat N) ;;
  poke 0 x ;;
  poke (Z.of_nat N) top ;;
  next op.

(** *** Control flow *)
Definition jump_impl (target : u256) : IM unit :=
  if u256_ltb #(2 ^ 64 - 1) target then exit StError
  else
    let jd := uval (limb target 0) in
    if negb (is_jumpdest analysis jd) then exit StError else mmod (with_ip jd).

Definition jump : IM unit :=
  check_requirements JUMP ;;
  target <- pop ;;
  jump_impl target.

Definition jumpi : IM unit :=
  check_requirements JUMPI ;;
  target <- pop ;;
  cond <- pop ;;
  if to_bool cond then jump_impl target else mmod (fun f => with_ip (f_ip f + 1) f).

Definition jumpdest : IM unit := check_requirements JUMPDEST ;; next JUMPDEST.

(** *** Logs, calls and creation *)
Definition log (N : nat) : IM unit :=
  let op := LOG0 + Z.of_nat N in
  (match N with
   | 0%nat => checked_runtime_call_void op 2 (runtime.log0 t)
   | 1%nat => checked_runtime_call_void op 3 (runtime.log1 t)
   | 2%nat => checked_runtime_call_void op 4 (runtime.log2 t)
   | 3%nat => checked_runtime_call_void op 5 (runtime.log3 t)
   | _ => checked_runtime_call_void op 6 (runtime.log4 t)
   end) ;;
  next op.

Definition create : IM unit :=
  checked_runtime_call CREATE 3 (fun v o s => runtime.create t v o s 0) ;; next CREATE.
Definition call : IM unit :=
  checked_runtime_call CALL 7 (fun g a v ao as_ ro rs => runtime.call t g a v ao as_ ro rs 0) ;; next CALL.
Definition callcode : IM unit :=
  checked_runtime_call CALLCODE 7 (fun g a v ao as_ ro rs => runtime.callcode t g a v ao as_ ro rs 0) ;; next CALLCODE.
Definition delegatecall : IM unit :=
  checked_runtime_call DELEGATECALL 6 (fun g a ao as_ ro rs => runtime.delegatecall t g a ao as_ ro rs 0) ;;
  next DELEGATECALL.
Definition create2 : IM unit :=
  checked_runtime_call CREATE2 4 (fun v o s salt => runtime.create2 t v o s salt 0) ;; next CREATE2.
Definition staticcall : IM unit :=
  checked_runtime_call STATICCALL 6 (fun g a ao as_ ro rs => runtime.staticcall t g a ao as_ ro rs 0) ;;
  next STATICCALL.

(** *** The end of the execution *)
Definition return_impl (code : StatusCode) : IM unit :=
  offset <- peek 0 ;;
  size <- peek 1 ;;
  mmod (fun f => with_ctx (with_gas_remaining (f_gas f) (with_result offset size (f_ctx f))) f) ;;
  exit code.

Definition return_ : IM unit := check_requirements RETURN ;; return_impl StSuccess.
Definition revert : IM unit := check_requirements REVERT ;; return_impl StRevert.
Definition selfdestruct : IM unit := checked_runtime_call_void SELFDESTRUCT 1 (runtime.selfdestruct t).

Definition stop : IM unit :=
  mmod (fun f => with_ctx (with_gas_remaining (f_gas f) (f_ctx f)) f) ;; exit StSuccess.

Definition invalid : IM unit :=
  mmod (fun f => with_ctx (with_gas_remaining (f_gas f) (f_ctx f)) f) ;; exit StError.

(** ** The table *)
Definition since (first : monad_eth_revision) (impl : IM unit) : IM unit :=
  if eth_ge (evm_rev t) first then impl else invalid.

Definition make_instruction_table : list (IM unit) :=
  [
    stop; add; mul; sub; udiv; sdiv; umod; smod; addmod; mulmod; exp; signextend; invalid; invalid; invalid;
    invalid;
    lt; gt; slt; sgt; eq; iszero; and_; or_; xor_; not_; byte; shl; shr; sar; since MONAD_ETH_OSAKA clz;
    invalid;
    sha3; invalid; invalid; invalid; invalid; invalid; invalid; invalid; invalid; invalid; invalid; invalid;
    invalid; invalid; invalid; invalid;
    address_; balance; origin; caller; callvalue; calldataload; calldatasize; calldatacopy; codesize;
    codecopy; gasprice; extcodesize; extcodecopy; returndatasize; returndatacopy; extcodehash;
    blockhash; coinbase; timestamp; number; prevrandao; gaslimit; since MONAD_ETH_ISTANBUL chainid; since
    MONAD_ETH_ISTANBUL selfbalance; since MONAD_ETH_LONDON basefee; since MONAD_ETH_CANCUN blobhash; since
    MONAD_ETH_CANCUN blobbasefee; invalid; invalid; invalid; invalid; invalid;
    pop_; mload; mstore; mstore8; sload; sstore; jump; jumpi; pc; msize; gas_; jumpdest; since
    MONAD_ETH_CANCUN tload; since MONAD_ETH_CANCUN tstore; since MONAD_ETH_CANCUN mcopy; since
    MONAD_ETH_SHANGHAI (push_ 0);
    push_ 1; push_ 2; push_ 3; push_ 4; push_ 5; push_ 6; push_ 7; push_ 8; push_ 9; push_ 10; push_ 11;
    push_ 12; push_ 13; push_ 14; push_ 15; push_ 16;
    push_ 17; push_ 18; push_ 19; push_ 20; push_ 21; push_ 22; push_ 23; push_ 24; push_ 25; push_ 26;
    push_ 27; push_ 28; push_ 29; push_ 30; push_ 31; push_ 32;
    dup 1; dup 2; dup 3; dup 4; dup 5; dup 6; dup 7; dup 8; dup 9; dup 10; dup 11; dup 12; dup 13; dup 14;
    dup 15; dup 16;
    swap 1; swap 2; swap 3; swap 4; swap 5; swap 6; swap 7; swap 8; swap 9; swap 10; swap 11; swap 12; swap
    13; swap 14; swap 15; swap 16;
    log 0; log 1; log 2; log 3; log 4; invalid; invalid; invalid; invalid; invalid; invalid; invalid;
    invalid; invalid; invalid; invalid;
    invalid; invalid; invalid; invalid; invalid; invalid; invalid; invalid; invalid; invalid; invalid;
    invalid; invalid; invalid; invalid; invalid;
    invalid; invalid; invalid; invalid; invalid; invalid; invalid; invalid; invalid; invalid; invalid;
    invalid; invalid; invalid; invalid; invalid;
    invalid; invalid; invalid; invalid; invalid; invalid; invalid; invalid; invalid; invalid; invalid;
    invalid; invalid; invalid; invalid; invalid;
    invalid; invalid; invalid; invalid; invalid; invalid; invalid; invalid; invalid; invalid; invalid;
    invalid; invalid; invalid; invalid; invalid;
    create; call; callcode; return_; delegatecall; create2; invalid; invalid; invalid; invalid; staticcall;
    invalid; invalid; revert; invalid; selfdestruct ].

Definition instruction_table (op : Z) : IM unit := nth (Z.to_nat op) make_instruction_table invalid.

(** ** The loop *)
Fixpoint core_loop (fuel : nat) : M Frame unit :=
  match fuel with
  | O => mabort
  | S fuel' =>
      f <- mget ;;
      op <- mopt (code_at analysis (f_ip f)) ;;
      instruction_table op ;;
      core_loop fuel'
  end.

(** The frame at the first instruction; the cells of the stack are not initialised. *)
Definition initial_frame (c : Context) : Frame := mk_frame c (replicate 1024 #0) 0 (gas_remaining c) 0.

(** [execute]: leaves with a status code. *)
Definition execute (c : Context) : rt unit :=
  rt_bind (core_loop (S (Z.to_nat (gas_remaining c))) (initial_frame c)) (fun _ => Abort).
End interpreter.
End interpreter.

(** ** A message *)

(** From [exit] to the result of the call. *)
Fixpoint to_vm_prog (result : StatusCode -> Context -> vm_prog) (p : rt unit) : vm_prog :=
  match p with
  | Ret _ | Abort => VmAbort
  | Exit code ctx => result code ctx
  | Host o k => VmHost o (fun x => to_vm_prog result (k x))
  end.

Definition finish (t : Traits) (code : StatusCode) (c : Context) : vm_prog :=
  match context.copy_to_evmc_result t code c with Ret r => VmDone r | _ => VmAbort end.

(** [VM::execute] with the interpreter, and [VM::execute_bytecode]: the code is analysed,
    run in a context of its own, and the result copied out of it. *)
Definition execute_intercode (t : Traits) (keccak256 : byte_string -> bytes32) (tx_context : evmc_tx_context)
    (msg : Message) (code : byte_string) : vm_prog :=
  match new_intercode code with
  | None => VmAbort
  | Some ic => to_vm_prog (finish t) (interpreter.execute t keccak256 ic (context_from tx_context msg code))
  end.
