(* ===== verification/InterpreterSafe.v ===== *)
(** * Safety of the interpreter

    A logic for programs of the virtual machine ([safe]): every request to the host is one
    the host expects, every assertion and every access to the stack, the memory and the
    code is in bounds, and whatever the host answers within its contract, the frame keeps
    its invariant.  The theorems: the interpreter never aborts and never runs out of fuel,
    it keeps the contract of EvmMessages.v on gas and call depth ([WellBehaved]), memory
    never exceeds its limit, and a static frame asks the host for no change of state.

    The assertion of [parent_total_size] is not an invariant of one frame: it holds if the
    memory of a frame starts where [memory_start] says, which is the argument in the comment
    of that function (two billion gas, 1024 callers) and the 8 MB limit from MIP-3 on.  A
    frame that starts there sends its callees there; the first frame of a transaction of at
    most two billion gas does ([memory_start_top]). *)
From S2P Require Import Prelude Prog Abi StakingVars Transaction Rlp VersionStack State3 StateHooks StateFrames StakingContract StakingSyscalls UInt256 UInt256Div UInt256Ops Opcodes Intercode Evm EvmFrames EvmMessages ExecuteTransaction EvmRuntime Interpreter.
#[local] Open Scope rt_scope.

(** ** Conversions *)
Lemma land_high_mask (w N : Z) : 0 <= N -> 0 <= w -> Z.land w (Z.lnot (2 ^ N - 1)) = 0 <-> w < 2 ^ N.
Proof.
  intros HN Hw. replace (2 ^ N - 1) with (Z.ones N) by (rewrite Z.ones_equiv; lia).
  rewrite <- Z.ldiff_land, Z.ldiff_ones_r by done.
  rewrite Z.shiftl_mul_pow2, Z.shiftr_div_pow2 by done. pose proof (Z.pow_pos_nonneg 2 N ltac:(lia) HN) as Hp.
  split; intros H; [|by rewrite Z.div_small].
  pose proof (Z.div_mod w (2 ^ N) ltac:(lia)) as E. pose proof (Z.mod_pos_bound w (2 ^ N) Hp). lia.
Qed.

Lemma bounded_by_bits N x : 0 <= N < 64 -> is_bounded_by_bits N x = (x <? 2 ^ N).
Proof.
  intros HN. unfold is_bounded_by_bits. apply eq_true_iff_eq. rewrite Z.eqb_eq, Z.ltb_lt.
  rewrite !Z.lor_eq_0_iff, land_high_mask by (pose proof (uword_range (limb x 0)); lia).
  pose proof (words_val_as_words x) as Hx. change (as_words x) with [limb x 0; limb x 1; limb x 2; limb x 3] in Hx.
  cbn [words_val] in Hx. pose proof (uword_range (limb x 0)). pose proof (uword_range (limb x 1)).
  pose proof (uword_range (limb x 2)). pose proof (uword_range (limb x 3)).
  assert (2 ^ N < 2 ^ 64) by (apply Z.pow_lt_mono_r; lia). unfold B in Hx. lia.
Qed.

Lemma limb0_small (x : u256) N : 0 <= N < 64 -> x < 2 ^ N -> uval (limb x 0) = x.
Proof.
  intros HN Hx. assert (2 ^ N < 2 ^ 64) by (apply Z.pow_lt_mono_r; lia). apply limb_small. unfold B. lia.
Qed.

Lemma clamp_cast_range N x : 0 <= N < 64 -> 0 <= clamp_cast N x < 2 ^ N.
Proof.
  intros HN. unfold clamp_cast. rewrite bounded_by_bits by done. pose proof (Z.pow_pos_nonneg 2 N ltac:(lia) ltac:(lia)).
  destruct (Z.ltb_spec x (2 ^ N)); [|lia]. rewrite (limb0_small x N) by done. pose proof (uword_range x). lia.
Qed.

(** ** Where memory starts

    The memory of a frame starts where that of its callers ends.  MIP-3 limits them together
    to 8 MB.  Before, the bound is the one the comment in [parent_total_size] argues for:
    every caller paid for its words out of the gas of the transaction, of which there are
    at most two billion, and there are at most 1024 of them. *)
Definition max_transaction_gas : Z := 2 * 10 ^ 9.

(** Callers with [ws] words of memory, at most one for each level above [d], leave [g] gas. *)
Definition callers_paid (t : Traits) (d off g : Z) : Prop :=
  exists ws, Forall (Z.le 0) ws /\ zlen ws <= d <= max_call_depth /\ off = 32 * foldr Z.add 0 ws /\
    foldr Z.add 0 (context.memory_cost_from_word_count t <$> ws) + g <= max_transaction_gas.

Definition memory_start (t : Traits) (d off g : Z) : Prop :=
  if mip_3_active t then 0 <= off <= context.max_total_size /\ Z.land off 31 = 0 else callers_paid t d off g.

Lemma memory_cost_nonneg t w : 0 <= w -> 0 <= context.memory_cost_from_word_count t w.
Proof.
  intros Hw. unfold context.memory_cost_from_word_count. rewrite Z.shiftr_div_pow2 by done.
  destruct (mip_3_active t); [by apply Z.div_pos|]. pose proof (Z.div_pos (w * w) 512 ltac:(nia) ltac:(lia)). lia.
Qed.

(** The tangent of the cost at 2^15 words, 1 MB. *)
Lemma memory_cost_tangent t w : mip_3_active t = false -> 131 * w - 2 ^ 21 <= context.memory_cost_from_word_count t w.
Proof.
  intros Em. unfold context.memory_cost_from_word_count. rewrite Em.
  pose proof (Z.square_nonneg (w - 2 ^ 15)).
  pose proof (Z.div_le_lower_bound (w * w) 512 (128 * w - 2 ^ 21) ltac:(lia) ltac:(lia)). lia.
Qed.

Lemma callers_bound t ws : mip_3_active t = false -> Forall (Z.le 0) ws ->
  0 <= foldr Z.add 0 ws /\
  131 * foldr Z.add 0 ws - 2 ^ 21 * zlen ws <= foldr Z.add 0 (context.memory_cost_from_word_count t <$> ws).
Proof.
  intros Em. unfold zlen. induction 1 as [|w ws Hw _ IH]; cbn [foldr fmap list_fmap length]; [lia|].
  pose proof (memory_cost_tangent t w Em). lia.
Qed.

(** What [parent_total_size] asserts. *)
Lemma memory_start_bound t d off g : 0 <= g -> memory_start t d off g ->
  0 <= off <= 2 ^ 30 - 1 /\ Z.land off 31 = 0.
Proof.
  intros Hg. unfold memory_start, context.max_total_size. destruct (mip_3_active t) eqn:Em; [lia|].
  intros (ws & Hws & Hl & -> & Hc). destruct (callers_bound t ws Em Hws) as [H0 H1].
  unfold max_transaction_gas, max_call_depth in *. split; [lia|].
  change 31 with (Z.ones 5). rewrite Z.land_ones by done. rewrite Z.mul_comm. by apply Z.mod_mul.
Qed.

(** The first frame. *)
Lemma memory_start_top t g : g <= max_transaction_gas -> memory_start t 0 0 g.
Proof.
  intros Hg. unfold memory_start. destruct (mip_3_active t); [done|]. by exists [].
Qed.

(** ** The logic *)
Section safe.
Context (t : Traits) (d : Z) (st : bool) (strict : bool).

Definition fits (d' off g : Z) : Prop := strict = true -> memory_start t d' off g.

(** The requests a frame at depth [d] may make; [st] if it is static. *)
Definition host_ok {X} (o : hostE X) : Prop :=
  match o with
  | HSetStorage _ _ _ | HSelfdestruct _ _ | HEmitLog _ | HSetTransientStorage _ _ _ => st = false
  | HGetBlockHash n => 0 <= n
  | HCall m =>
      depth m = d + 1 /\ depth m <= max_call_depth /\ 0 <= gas m /\ fits (depth m) (memory_offset m) (gas m) /\
      (st = true -> Z.testbit (flags m) EVMC_STATIC = true /\ is_create (kind m) = false /\
        (kind m = EVMC_CALL -> uval (value m) = 0))
  | _ => True
  end.

(** What the host answers. *)
Definition reply_ok {X} (o : hostE X) : X -> Prop :=
  match o in hostE X return X -> Prop with
  | HCall m => returns_ok (gas m)
  | _ => fun _ => True
  end.

Fixpoint safe {A} (E : StatusCode -> Context -> Prop) (Q : A -> Prop) (p : rt A) : Prop :=
  match p with
  | Ret a => Q a
  | Exit code c => E code c
  | Abort => strict = false
  | Host o k => host_ok o /\ forall x, reply_ok o x -> safe E Q (k x)
  end.

Lemma safe_mono {A} E (Q Q' : A -> Prop) p : (forall a, Q a -> Q' a) -> safe E Q p -> safe E Q' p.
Proof.
  intros HQ. induction p as [a|code c| |X o k IH]; cbn [safe]; auto.
  intros [Ho Hk]. split; [done|]. intros x Hx. by apply IH, Hk.
Qed.

Lemma safe_rt_bind {A C} E (Q : C -> Prop) (p : rt A) k : safe E (fun a => safe E Q (k a)) p -> safe E Q (rt_bind p k).
Proof.
  induction p as [a|code c| |X o f IH]; cbn [safe rt_bind]; auto.
  intros [Ho Hk]. split; [done|]. intros x Hx. by apply IH, Hk.
Qed.

Lemma safe_mbnd {S A C} E (Q : C * S -> Prop) (m : M S A) k s :
  safe E (fun p => safe E Q (k p.1 p.2)) (m s) -> safe E Q (mbnd m k s).
Proof. apply safe_rt_bind. Qed.
End safe.

(** ** The context of a frame *)
#[local] Abbreviation same_mem c c' := (mem_size (memory c') = mem_size (memory c) /\ mem_cost (memory c') = mem_cost (memory c)).

Section context.
Context (t : Traits) (d : Z) (st : bool) (strict : bool) (G : Z).
Import context.

(** Memory is a whole number of words, paid for, and starts where it may. *)
Definition mem_ok (m : Memory) : Prop :=
  zlen (mem_data m) = mem_size m /\
  (exists w, 0 <= w <= 2 ^ 24 /\ mem_size m = 32 * w /\ mem_cost m = memory_cost_from_word_count t w) /\
  (strict = true -> memory_start t d (mem_parent m) G /\
    (mip_3_active t = true -> mem_parent m + mem_size m <= max_total_size)).

Record ok (c : Context) : Prop := mk_ok {
  ok_depth : env_depth (env c) = d;
  ok_static : is_static c = st;
  ok_memory : mem_ok (memory c) }.

(** How a frame may leave. *)
Definition exit_ok (code : StatusCode) (c : Context) : Prop :=
  code = StSuccess \/ code = StRevert -> ok c /\ 0 <= gas_remaining c <= G.

#[local] Abbreviation wp Q p := (safe t d st strict exit_ok Q p).

Lemma memory_cost_mono w w' : 0 <= w <= w' -> memory_cost_from_word_count t w <= memory_cost_from_word_count t w'.
Proof.
  intros Hw. unfold memory_cost_from_word_count. rewrite !Z.shiftr_div_pow2 by done.
  destruct (mip_3_active t); [apply Z.div_le_mono; lia|].
  assert (w * w / 512 <= w' * w' / 512) by (apply Z.div_le_mono; nia). lia.
Qed.

(** A callee, whose gas is left after this frame's memory is paid. *)
Lemma fits_next m g : mem_ok m -> d < max_call_depth -> g + mem_cost m <= G -> fits t strict (d + 1) (mem_parent m + mem_size m) g.
Proof.
  intros (_ & (w & Hw & Es & Ec) & Hp) Hd Hg Hx. destruct (Hp Hx) as [Hst Hsz]. revert Hst. unfold memory_start.
  destruct (mip_3_active t) eqn:Em.
  - intros [H0 H1]. specialize (Hsz eq_refl). split; [lia|].
    change 31 with (Z.ones 5) in *. rewrite Z.land_ones in * by done. rewrite Es, (Z.mul_comm 32). by rewrite Z.mod_add.
  - intros (ws & Hws & Hl & Eo & Hc). exists (w :: ws). rewrite zlen_cons. cbn [foldr fmap list_fmap]. split_and!; [|lia..].
    constructor; [lia|done].
Qed.

Lemma ok_size c : ok c -> 0 <= mem_size (memory c) /\ 0 <= mem_cost (memory c).
Proof. intros [_ _ (_ & (w & Hw & Es & Ec) & _)]. pose proof (memory_cost_nonneg t w). lia. Qed.

(** *** Primitives *)
Lemma wp_bin N x c Q : 0 <= x < 2 ^ N -> Q (x, c) -> wp Q (bin N x c).
Proof. intros Hx HQ. unfold bin. rewrite (proj2 (andb_true_iff _ _)); [done|]. split; lia. Qed.

Lemma wp_massert b (c : Context) Q : b = true -> Q (tt, c) -> wp Q (massert b c).
Proof. by intros ->. Qed.

Lemma rt_wp_if {A} (b : bool) (m m' : M Context A) c (Q : A * Context -> Prop) :
  (b = true -> wp Q (m c)) -> (b = false -> wp Q (m' c)) -> wp Q ((if b then m else m') c).
Proof. destruct b; auto. Qed.

Lemma wp_exit {A} code c (Q : A * Context -> Prop) : exit_ok code c -> wp Q (exit code c).
Proof. done. Qed.

Lemma exit_error c : exit_ok StError c.
Proof. intros [|]; discriminate. Qed.
Lemma exit_out_of_gas c : exit_ok StOutOfGas c.
Proof. intros [|]; discriminate. Qed.

Lemma wp_deduct_gas_memory g c Q : ok c ->
  (forall c', ok c' -> env c' = env c -> memory c' = memory c -> gas_remaining c' = gas_remaining c - g ->
    0 <= gas_remaining c' -> Q (tt, c')) ->
  wp Q (deduct_gas g c).
Proof.
  intros [H1 H2 H3] HQ. unfold deduct_gas. cbn -[Z.ltb]. destruct (Z.ltb_spec (gas_remaining c - g) 0) as [Hl|Hl].
  - apply exit_out_of_gas.
  - by apply HQ.
Qed.

Lemma wp_deduct_gas g c Q : ok c ->
  (forall c', ok c' -> env c' = env c -> same_mem c c' ->
    gas_remaining c' = gas_remaining c - g ->
    0 <= gas_remaining c' -> Q (tt, c')) ->
  wp Q (deduct_gas g c).
Proof. intros Hok HQ. apply wp_deduct_gas_memory; [done|]. intros c' Hok' He Hm Hg' H0. apply HQ; try done. by rewrite Hm. Qed.

Lemma wp_get_memory_offset w c Q : (forall o, 0 <= o < 2 ^ 28 -> Q (o, c)) -> wp Q (get_memory_offset w c).
Proof.
  intros HQ. unfold get_memory_offset, offset_bits. rewrite bounded_by_bits by lia.
  destruct (Z.ltb_spec w (2 ^ 28)); cbn [negb].
  - apply HQ. rewrite (limb0_small w 28) by lia. pose proof (uword_range w). lia.
  - apply exit_out_of_gas.
Qed.

(** The assertions on the memory of the callers hold. *)
Lemma parent_cases c : ok c -> 0 <= G ->
  (parent_total_size c = Ret (mem_parent (memory c), c) /\ 0 <= mem_parent (memory c) <= 2 ^ 30 - 1 /\
    Z.land (mem_parent (memory c)) 31 = 0) \/
  (parent_total_size c = Abort /\ strict = false).
Proof.
  intros Hok HG. destruct (ok_memory _ Hok) as (_ & _ & Hp).
  assert (Hb : strict = true -> 0 <= mem_parent (memory c) <= 2 ^ 30 - 1 /\ Z.land (mem_parent (memory c)) 31 = 0)
    by (intros Hx; destruct (Hp Hx); by eapply memory_start_bound).
  unfold parent_total_size, massert, mbnd, mget, mret, mabort. cbn [rt_bind fst snd].
  destruct ((0 <=? mem_parent (memory c)) && (Z.land (mem_parent (memory c)) 31 =? 0)) eqn:E1; cbn [rt_bind fst snd].
  2:{ right. split; [done|]. destruct strict; [|done]. destruct (Hb eq_refl). lia. }
  destruct (mem_parent (memory c) <=? 2 ^ 30 - 1) eqn:E2; cbn [rt_bind fst snd].
  2:{ right. split; [done|]. destruct strict; [|done]. destruct (Hb eq_refl). lia. }
  left. split; [done|]. lia.
Qed.

(** The bound is checked, unless the assertion on the memory of the callers fails. *)
Lemma in_bound_cases n c : ok c -> 0 <= G -> 0 <= n < 2 ^ 30 ->
  (exists b, is_memory_size_in_bound t n c = Ret (b, c) /\
    (b = true -> mip_3_active t = true -> mem_parent (memory c) + n <= max_total_size)) \/
  (is_memory_size_in_bound t n c = Abort /\ strict = false).
Proof.
  intros Hok HG Hn. unfold is_memory_size_in_bound. destruct (mip_3_active t) eqn:Em; [|by left; exists true].
  unfold mbnd. destruct (parent_cases c Hok HG) as [(-> & Hb & _)|[-> Hx]]; [|by right]. cbn [rt_bind fst snd]. unfold bin.
  rewrite (proj2 (Z.leb_le 0 (n + _))), (proj2 (Z.ltb_lt (n + _) _)) by lia. cbn [andb mret rt_bind fst snd].
  left. eexists. split; [done|]. intros Hb' _. lia.
Qed.

Lemma land_31 x : Z.land x 31 = x mod 32.
Proof. change 31 with (Z.ones 5). by rewrite Z.land_ones. Qed.

Lemma wp_increase_capacity old new c Q : ok c -> 0 <= G -> 0 <= old < new -> new < 2 ^ 30 -> Z.land new 31 = 0 -> Q (tt, c) ->
  wp Q (increase_capacity old new c).
Proof.
  intros Hok HG Ho Hn Ha HQ. unfold increase_capacity. apply safe_mbnd, wp_massert; [lia|]. cbn [fst snd]. apply safe_mbnd.
  destruct (parent_cases c Hok HG) as [(-> & Hb & Hal)|[-> Hx]]; [|done]. cbn [safe fst snd]. rewrite land_31 in *.
  pose proof (Z.div_mod new 32 ltac:(lia)). pose proof (Z.div_mod (mem_parent (memory c)) 32 ltac:(lia)).
  assert (Hm : (mem_parent (memory c) + new) mod 32 = 0) by (rewrite Zplus_mod, Hal, Ha; done).
  apply safe_mbnd, wp_bin; [lia|]. cbn [fst snd]. apply safe_mbnd, wp_bin; [lia|]. cbn [fst snd].
  apply safe_mbnd, wp_massert; [rewrite land_31; lia|]. cbn [fst snd]. rewrite Z.shiftl_mul_pow2 by done.
  apply safe_mbnd, wp_bin; [lia|]. cbn [fst snd]. apply wp_massert; [|done].
  rewrite land_31, Zmult_mod, Hm. done.
Qed.

Lemma wp_in_bound n c Q : ok c -> 0 <= G -> 0 <= n < 2 ^ 30 ->
  (forall b, (b = true -> mip_3_active t = true -> mem_parent (memory c) + n <= max_total_size) -> Q (b, c)) ->
  wp Q (is_memory_size_in_bound t n c).
Proof. intros Hok HG Hn HQ. destruct (in_bound_cases n c Hok HG Hn) as [(b & -> & Hb)|[-> Hs]]; [by apply HQ|done]. Qed.

Lemma wp_expand_memory n c Q : ok c -> 0 <= G -> 0 <= gas_remaining c -> 0 <= n < 2 ^ 29 ->
  (forall c', ok c' -> env c' = env c -> mem_size (memory c) <= mem_size (memory c') -> n <= mem_size (memory c') ->
    0 <= gas_remaining c' <= gas_remaining c /\
      gas_remaining c' + mem_cost (memory c') <= gas_remaining c + mem_cost (memory c) -> Q (tt, c')) ->
  wp Q (expand_memory t n c).
Proof.
  intros Hok HG Hg Hn HQ. unfold expand_memory. apply safe_mbnd, wp_bin; [done|]. cbn [fst snd].
  apply safe_mbnd. cbn [mget safe fst snd]. destruct (Z.ltb_spec (mem_size (memory c)) n) as [Hl|Hl];
    [|apply HQ; [done|done|lia|lia|lia]].
  destruct (ok_memory _ Hok) as (Hd & (w & Hw & Es & Ec) & Hp).
  assert (Hw' : memory_size_to_word_count n = (n + 31) / 32) by (unfold memory_size_to_word_count, shr_ceil5; by rewrite Z.shiftr_div_pow2).
  assert (0 <= (n + 31) / 32 <= 2 ^ 24 /\ n <= 32 * ((n + 31) / 32)) as [Hr Hle].
  { pose proof (Z.div_mod (n + 31) 32 ltac:(lia)). pose proof (Z.mod_pos_bound (n + 31) 32 ltac:(lia)). lia. }
  rewrite Hw'. set (w' := (n + 31) / 32) in *. clearbody w'. clear Hw'.
  apply safe_mbnd, wp_bin; [lia|]. cbn [fst snd]. assert (Hs : word_count_to_memory_size w' = 32 * w')
    by (unfold word_count_to_memory_size; rewrite Z.shiftl_mul_pow2 by done; lia).
  apply safe_mbnd, wp_bin; [lia|]. cbn [fst snd]. rewrite Hs. clear Hs.
  apply safe_mbnd, wp_in_bound; [done|done|lia|]. intros b Hb. cbn [fst snd]. apply safe_mbnd.
  destruct b; [|apply exit_out_of_gas]. cbn [negb mret safe fst snd]. apply safe_mbnd. unfold massert.
  pose proof (memory_cost_mono w w' ltac:(lia)) as Hm. rewrite Ec. rewrite (proj2 (Z.leb_le _ _) Hm).
  cbn [mret safe fst snd]. apply safe_mbnd, wp_deduct_gas_memory; [done|]. intros c1 Hok1 He1 Hm1 Hg1 Hg1'.
  apply safe_mbnd. cbn [mmod safe fst snd].
  assert (Hok2 : ok (with_memory (grow (32 * w') (memory_cost_from_word_count t w') (memory c1)) c1)).
  { destruct Hok1 as [K1 K2 K3]. constructor; [done|done|]. cbn [with_memory memory]. rewrite Hm1. unfold grow, mem_ok.
    cbn [mem_size mem_data mem_cost mem_parent]. split; [|split].
    - unfold zlen in *. rewrite length_app, length_replicate. lia.
    - exists w'. split; [lia|done].
    - intros Hx. destruct (Hp Hx) as [? ?]. split; [done|]. intros Em. by apply Hb. }
  apply wp_increase_capacity; [done|done|lia|lia|rewrite land_31, Z.mul_comm; by apply Z.mod_mul|].
  apply HQ; cbn [with_memory env memory gas_remaining grow mem_size mem_cost]; try done; lia.
Qed.

Lemma wp_mem_read off n c Q : ok c -> 0 <= off -> 0 <= n -> off + n <= mem_size (memory c) ->
  (forall bs, zlen bs = n -> Q (bs, c)) -> wp Q (mem_read off n c).
Proof.
  intros Hok H0 H1 H2 HQ. unfold mem_read. apply safe_mbnd. cbn [mget safe fst snd].
  rewrite (proj2 (Z.leb_le 0 off)), (proj2 (Z.leb_le 0 n)), (proj2 (Z.leb_le _ _)) by lia.
  apply HQ. destruct (ok_memory _ Hok) as (Hd & _). unfold zlen in *.
  rewrite length_take, length_drop. lia.
Qed.

Lemma length_splice off bs l : (off + length bs <= length l)%nat -> length (splice off bs l) = length l.
Proof. intros. unfold splice. rewrite !length_app, length_take, length_drop. lia. Qed.

Lemma wp_mem_write off bs c Q : ok c -> 0 <= off -> off + zlen bs <= mem_size (memory c) ->
  (forall c', ok c' -> env c' = env c -> same_mem c c' ->
    gas_remaining c' = gas_remaining c -> Q (tt, c')) ->
  wp Q (mem_write off bs c).
Proof.
  intros Hok H0 H1 HQ. unfold mem_write. apply safe_mbnd. cbn [mget safe fst snd].
  rewrite (proj2 (Z.leb_le 0 off)), (proj2 (Z.leb_le _ _)) by lia. apply HQ; try done.
  destruct Hok as [K1 K2 (K3 & K4 & K5)]. constructor; [done|done|].
  cbn [with_memory memory]. unfold mem_ok. cbn [mem_size mem_data mem_cost mem_parent]. split; [|done].
  unfold zlen in *. rewrite length_splice by lia. done.
Qed.

(** The other changes of the context. *)
Lemma ok_gas g c : ok c -> ok (with_gas_remaining g c).
Proof. by intros [? ? ?]. Qed.
Lemma ok_refund g c : ok c -> ok (with_gas_refund g c).
Proof. by intros [? ? ?]. Qed.
Lemma ok_result a b c : ok c -> ok (with_result a b c).
Proof. by intros [? ? ?]. Qed.
Lemma ok_return_data b c : ok c -> ok (with_return_data b c).
Proof. by intros [? ? ?]. Qed.

Lemma wp_forbid_static c Q : ok c -> (st = false -> Q (tt, c)) -> wp Q (forbid_static c).
Proof.
  intros Hok HQ. unfold forbid_static. apply safe_mbnd. cbn [mget safe fst snd]. rewrite (ok_static _ Hok).
  destruct st; [apply exit_error|by apply HQ].
Qed.

Lemma wp_host {X} (o : hostE X) (c : Context) (Q : X * Context -> Prop) :
  host_ok t d st strict o -> (forall x, reply_ok o x -> Q (x, c)) -> wp Q (mhost o c).
Proof. by split. Qed.

(** ** Runtime functions *)
Definition fine {A} (m : M Context A) : Prop := forall c, ok c -> 0 <= gas_remaining c <= G - mem_cost (memory c) ->
  wp (fun p => ok p.2 /\ 0 <= gas_remaining p.2 <= gas_remaining c /\
    gas_remaining p.2 + mem_cost (memory p.2) <= gas_remaining c + mem_cost (memory c)) (m c).

Lemma shr_ceil5_range x : 0 <= x < 2 ^ 28 -> 0 <= shr_ceil5 x <= 2 ^ 23.
Proof.
  intros Hx. unfold shr_ceil5. rewrite Z.shiftr_div_pow2 by done.
  pose proof (Z.div_mod (x + 31) (2 ^ 5) ltac:(lia)). pose proof (Z.mod_pos_bound (x + 31) (2 ^ 5) ltac:(lia)). lia.
Qed.
(** ** The result of a frame *)
Lemma mem_read_ret off n c : ok c -> 0 <= off -> 0 <= n -> off + n <= mem_size (memory c) ->
  exists bs, mem_read off n c = Ret (bs, c).
Proof.
  intros Hok H0 H1 H2. unfold mem_read, mbnd, mget. cbn [rt_bind fst snd].
  rewrite (proj2 (Z.leb_le 0 off)), (proj2 (Z.leb_le 0 n)), (proj2 (Z.leb_le _ _)) by lia. by eexists.
Qed.

Lemma copy_result_cases c : ok c -> 0 <= gas_remaining c <= G ->
  (exists out c', copy_result_data t c = Ret (inl out, c') /\ 0 <= gas_remaining c' <= G) \/
  (exists c', copy_result_data t c = Ret (inr OutOfGas, c')) \/
  (copy_result_data t c = Abort /\ strict = false).
Proof.
  intros Hok Hg. unfold copy_result_data, offset_bits. rewrite !bounded_by_bits by lia.
  rewrite (proj2 (Z.ltb_ge _ 0)) by lia.
  destruct (Z.ltb_spec (result_size c) (2 ^ 28)) as [Hs|Hs]; cbn [negb]; [|by right; left; eexists].
  rewrite (limb0_small (result_size c) 28) by lia. pose proof (uword_range (result_size c)).
  destruct (Z.eqb_spec (result_size c) 0) as [Hz|Hz]; [by left; eauto|].
  destruct (Z.ltb_spec (result_offset c) (2 ^ 28)) as [Ho|Ho]; cbn [negb]; [|by right; left; eexists].
  rewrite (limb0_small (result_offset c) 28) by lia. pose proof (uword_range (result_offset c)).
  set (size := uval (result_size c)) in *. set (offset := uval (result_offset c)) in *.
  unfold bin, mbnd, mget, mret, mmod in *. rewrite (proj2 (Z.leb_le 0 _)), (proj2 (Z.ltb_lt (offset + size) _)) by lia.
  cbn [andb rt_bind fst snd]. destruct (ok_memory _ Hok) as (_ & (w & Hw & Es & Ec) & _).
  destruct (Z.leb_spec (offset + size) (mem_size (memory c))) as [Hl|Hl].
  { destruct (mem_read_ret offset size c Hok) as [bs ->]; [lia..|]. left. cbn [rt_bind fst snd]. eauto. }
  destruct (in_bound_cases (offset + size) c Hok ltac:(lia) ltac:(lia)) as [([] & -> & _)|[-> Hx]];
    cbn [rt_bind fst snd negb]; [|by right; left; eexists|by right; right].
  assert (mem_cost (memory c) <= memory_cost_from_word_count t (memory_size_to_word_count (offset + size))) as Hm.
  { rewrite Ec. apply memory_cost_mono. unfold memory_size_to_word_count, shr_ceil5. rewrite Z.shiftr_div_pow2 by done.
    pose proof (Z.div_mod (offset + size + 31) (2 ^ 5) ltac:(lia)). pose proof (Z.mod_pos_bound (offset + size + 31) (2 ^ 5) ltac:(lia)). lia. }
  set (cost := memory_cost_from_word_count t (memory_size_to_word_count (offset + size))) in *. cbn [with_gas_remaining gas_remaining].
  destruct (Z.ltb_spec (gas_remaining c - (cost - mem_cost (memory c))) 0) as [Hn|Hn]; [by right; left; eexists|].
  left. destruct (Z.ltb_spec offset (mem_size (memory c))) as [Hlt|Hlt].
  - destruct (mem_read_ret offset (mem_size (memory c) - offset)
      (with_gas_remaining (gas_remaining c - (cost - mem_cost (memory c))) c)) as [bs Hb];
      [by apply ok_gas|lia|lia|cbn [with_gas_remaining memory]; lia|].
    rewrite Hb. cbn [rt_bind fst snd]. do 2 eexists. split; [done|]. cbn [with_gas_remaining gas_remaining]. lia.
  - do 2 eexists. split; [done|]. cbn [with_gas_remaining gas_remaining]. lia.
Qed.

Lemma error_result s : keeps_gas s = false -> 0 <= G -> result_ok G (evmc_error_result s).
Proof. intros Hs HG. unfold result_ok, returns_ok. cbn. split; [split; [lia|by right]|by right]. Qed.

(** The result keeps the contract of the host. *)
Lemma finish_ok code c : 0 <= G -> exit_ok code c ->
  (exists r, finish t code c = VmDone r /\ result_ok G r) \/ (finish t code c = VmAbort /\ strict = false).
Proof.
  intros HG He. unfold finish, copy_to_evmc_result.
  destruct code; [destruct He as [Hok Hg]; [by left|]|destruct He as [Hok Hg]; [by right|]| |].
  3-4: left; eexists; split; [reflexivity|by apply error_result].
  all: destruct (copy_result_cases c Hok Hg) as [(out & c' & -> & Hg')|[(c' & ->)|[-> Hx]]]; cbn [rt_bind fst snd];
    [left; eexists; split; [reflexivity|]|left; eexists; split; [reflexivity|by apply error_result]|by right].
  - unfold result_ok, returns_ok. cbn. split; [split; [lia|by left]|by left].
  - unfold result_ok, returns_ok. cbn. split; [split; [lia|by right]|by left].
Qed.
End context.

Ltac wp_facts :=
  repeat match goal with
  | H : ok _ _ _ _ _ ?c |- _ =>
      lazymatch goal with
      | _ : 0 <= mem_size (memory c) /\ _ |- _ => fail
      | _ => pose proof (ok_size _ _ _ _ _ c H)
      end
  | |- context [context.shr_ceil5 ?x] =>
      lazymatch goal with
      | _ : 0 <= context.shr_ceil5 x <= _ |- _ => fail
      | _ => pose proof (shr_ceil5_range x ltac:(lia))
      end
  | _ : context [context.shr_ceil5 ?x] |- _ =>
      lazymatch goal with
      | _ : 0 <= context.shr_ceil5 x <= _ |- _ => fail
      | _ => pose proof (shr_ceil5_range x ltac:(lia))
      end
  end.

Ltac wp_side :=
  try (cbn [fst snd] in *; wp_facts;
       first [lia | unfold zlen in *;
         rewrite ?length_to_bytes, ?length_replicate, ?length_take, ?length_drop in *; cbn [length] in *; lia]).

(** One step of a runtime function. *)
Ltac wp_step :=
  lazymatch goal with
  | |- safe _ _ _ _ _ _ (mbnd _ _ _) => apply safe_mbnd
  | |- safe _ _ _ _ _ _ (mget _) => cbn [mget safe fst snd]
  | |- safe _ _ _ _ _ _ (mret _ _) => cbn [mret safe fst snd]
  | |- safe _ _ _ _ _ _ (mmod _ _) => cbn [mmod safe fst snd]
  | |- safe _ _ _ _ _ _ (context.exit StError _) => apply exit_error
  | |- safe _ _ _ _ _ _ (context.exit StOutOfGas _) => apply exit_out_of_gas
  | |- safe _ _ _ _ _ _ (context.bin _ _ _) => apply wp_bin; [wp_side|cbn [fst snd]]
  | |- safe _ _ _ _ _ _ (context.get_memory_offset _ _) => apply wp_get_memory_offset; intros ? ?; cbn [fst snd]
  | |- safe _ _ _ _ _ _ (context.expand_memory _ _ _) =>
      apply wp_expand_memory; [assumption|wp_side|wp_side|wp_side|intros ? ? ? ? ? ?; cbn [fst snd]]
  | |- safe _ _ _ _ _ _ (context.deduct_gas _ _) => apply wp_deduct_gas; [assumption|intros ? ? ? ? ? ?; cbn [fst snd]]
  | |- safe _ _ _ _ _ _ (context.mem_read _ _ _) => apply wp_mem_read; [assumption|wp_side|wp_side|wp_side|intros ? ?; cbn [fst snd]]
  | |- safe _ _ _ _ _ _ (context.mem_write _ _ _) =>
      apply wp_mem_write; [assumption|wp_side|wp_side|intros ? ? ? ? ?; cbn [fst snd]]
  | |- safe _ _ _ _ _ _ (context.forbid_static _) => apply wp_forbid_static; [assumption|intros ?; cbn [fst snd]]
  | |- safe _ _ _ _ _ _ (mhost _ _) => apply wp_host; [try done|intros ? ?; cbn [fst snd]]
  | |- safe _ _ _ _ _ _ ((if ?b then _ else _) _) => destruct b eqn:?
  end.
Ltac wp_done := cbn [fst snd] in *; split; [assumption|wp_facts; lia].
Ltac wp_steps := repeat wp_step; bool_to_prop; try wp_done.

Section functions.
Context (t : Traits) (d : Z) (st : bool) (strict : bool) (G : Z) (keccak256 : byte_string -> bytes32).
Import context runtime.
#[local] Abbreviation fine := (fine t d st strict G).

Lemma fine_mload o : fine (mload t o).
Proof. intros c Hok Hg. unfold mload. wp_steps. Qed.

Lemma fine_mstore o v : fine (mstore t o v).
Proof. intros c Hok Hg. unfold mstore. wp_steps. Qed.

Lemma fine_mstore8 o v : fine (mstore8 t o v).
Proof. intros c Hok Hg. unfold mstore8. wp_steps. Qed.

Lemma fine_mcopy a b s : fine (mcopy t a b s).
Proof. intros c Hok Hg. unfold mcopy. wp_steps. Qed.

Lemma fine_sha3 a b : fine (sha3 t keccak256 a b).
Proof. intros c Hok Hg. unfold sha3. wp_steps. Qed.

Lemma fine_log_impl a b l : fine (log_impl t a b l).
Proof. intros c Hok Hg. unfold log_impl. wp_steps. Qed.

Lemma fine_copy_impl a b s src : fine (copy_impl t a b s src).
Proof.
  intros c Hok Hg. unfold copy_impl.
  assert (0 <= (if is_bounded_by_bits 32 b then Z.min (limb b 0) (zlen src) else zlen src) <= zlen src) as Hst
    by (pose proof (uword_range (limb b 0)); unfold zlen; destruct (is_bounded_by_bits 32 b); lia).
  generalize dependent (if is_bounded_by_bits 32 b then Z.min (limb b 0) (zlen src) else zlen src). intros start Hst.
  wp_steps.
Qed.

Lemma fine_calldatacopy a b s : fine (calldatacopy t a b s).
Proof. intros c Hok Hg. unfold calldatacopy. wp_step. wp_step. by apply fine_copy_impl. Qed.

Lemma fine_codecopy a b s : fine (codecopy t a b s).
Proof. intros c Hok Hg. unfold codecopy. wp_step. wp_step. by apply fine_copy_impl. Qed.

Lemma cold_account_nonneg : 0 <= cold_account_cost t.
Proof. unfold cold_account_cost. destruct t; [lia|]. destruct (_ <=? _); lia. Qed.
Lemma cold_storage_nonneg : 0 <= cold_storage_cost t.
Proof. unfold cold_storage_cost. destruct t; [lia|]. destruct (_ <=? _); lia. Qed.

Lemma wp_charge_cold s cost c Q : ok t d st strict G c -> 0 <= gas_remaining c -> 0 <= cost ->
  (forall c', ok t d st strict G c' -> env c' = env c -> same_mem c c' ->
    0 <= gas_remaining c' <= gas_remaining c -> Q (tt, c')) ->
  safe t d st strict (exit_ok t d st strict G) Q (charge_cold s cost c).
Proof.
  intros Hok Hg Hc HQ. unfold charge_cold. destruct s; [|by apply HQ].
  wp_step. apply HQ; try done. lia.
Qed.

Lemma wp_access_account a c Q : ok t d st strict G c -> 0 <= gas_remaining c ->
  (forall c', ok t d st strict G c' -> env c' = env c -> same_mem c c' ->
    0 <= gas_remaining c' <= gas_remaining c -> Q (tt, c')) ->
  safe t d st strict (exit_ok t d st strict G) Q (access_account t a c).
Proof.
  intros Hok Hg HQ. unfold access_account. wp_step; [|by apply HQ]. wp_step. wp_step.
  apply wp_charge_cold; try done. apply cold_account_nonneg.
Qed.

Ltac fn_step :=
  lazymatch goal with
  | |- safe _ _ _ _ _ _ (access_account _ _ _) => apply wp_access_account; [assumption|wp_side|intros ? ? ? ? ?; cbn [fst snd]]
  | |- safe _ _ _ _ _ _ (charge_cold _ _ _) =>
      apply wp_charge_cold; [assumption|wp_side|wp_side|intros ? ? ? ? ?; cbn [fst snd]]
  | _ => wp_step
  end.
Ltac fn_steps := repeat fn_step; bool_to_prop; try wp_done.

Lemma fine_balance a : fine (balance t a).
Proof. intros c Hok Hg. unfold balance. fn_steps. Qed.

Lemma fine_extcodehash a : fine (extcodehash t a).
Proof. intros c Hok Hg. unfold extcodehash. fn_steps. Qed.

Lemma fine_extcodesize a : fine (extcodesize t a).
Proof. intros c Hok Hg. unfold extcodesize. fn_steps. Qed.

Lemma fine_extcodecopy a b o s : fine (extcodecopy t a b o s).
Proof. intros c Hok Hg. unfold extcodecopy. fn_steps. Qed.

Lemma fine_returndatacopy a b s : fine (returndatacopy t a b s).
Proof.
  intros c Hok Hg. unfold returndatacopy. pose proof (clamp_cast_range 32 b ltac:(lia)).
  generalize dependent (clamp_cast 32 b). intros off Hoff. wp_steps.
Qed.

Lemma fine_calldataload i : fine (calldataload i).
Proof. intros c Hok Hg. unfold calldataload. wp_steps. Qed.

Lemma fine_sload k : fine (sload t k).
Proof.
  intros c Hok Hg. unfold sload. pose proof cold_storage_nonneg. fn_steps.
Qed.

Lemma fine_tload k : fine (tload k).
Proof. intros c Hok Hg. unfold tload. wp_steps. Qed.

Lemma fine_tstore k v : fine (tstore k v).
Proof. intros c Hok Hg. unfold tstore. wp_steps. Qed.

Lemma fine_blockhash n : fine (blockhash n).
Proof. intros c Hok Hg. unfold blockhash. wp_steps. all: cbn [host_ok]; lia. Qed.

Lemma fine_selfbalance : fine selfbalance.
Proof. intros c Hok Hg. unfold selfbalance. wp_steps. Qed.

(** *** Arithmetic *)
Lemma fine_mopt {A} (o : option A) : is_Some o -> fine (mopt o).
Proof. intros [x ->] c Hok Hg. split; [done|cbn [snd]; lia]. Qed.

Lemma fine_pure {A} (x : A) : fine (mret x).
Proof. apply (fine_mopt (Some x)). done. Qed.

(** The guard against a zero divisor. *)
Lemma fine_guarded (b : u256) (o : option u256) : (uval b <> 0 -> is_Some o) ->
  fine (if negb (to_bool b) then mret #0 else mopt o).
Proof.
  intros Ho. rewrite to_bool_eq, negb_involutive. destruct (Z.eqb_spec b 0); [apply fine_pure|by apply fine_mopt, Ho].
Qed.

Lemma fine_udiv a b : fine (udiv a b).
Proof. apply fine_guarded. intros Hb. unfold op_div. by rewrite udivrem256_eq. Qed.
Lemma fine_umod a b : fine (umod a b).
Proof. apply fine_guarded. intros Hb. unfold op_mod. by rewrite udivrem256_eq. Qed.
Lemma fine_sdiv a b : fine (sdiv a b).
Proof. apply fine_guarded. intros Hb. by rewrite sdivrem_eq. Qed.
Lemma fine_smod a b : fine (smod a b).
Proof. apply fine_guarded. intros Hb. by rewrite sdivrem_eq. Qed.
Lemma fine_addmod a b n : fine (addmod a b n).
Proof. apply fine_guarded. intros Hb. by rewrite addmod_eq. Qed.
Lemma fine_mulmod a b n : fine (mulmod a b n).
Proof. apply fine_guarded. intros Hb. by rewrite mulmod_eq. Qed.

Lemma fine_exp a e : fine (exp a e).
Proof.
  intros c Hok Hg. unfold exp, exp_dynamic_gas_cost_multiplier.
  assert (0 <= count_significant_bytes e) by (pose proof (count_significant_bytes_spec e) as H; cbn zeta in H; lia).
  fn_steps.
Qed.

Lemma fine_blobhash i : fine (blobhash i).
Proof.
  intros c Hok Hg. unfold blobhash. wp_step. wp_step. set (l := blob_hashes _). rewrite u256_ltb_spec.
  destruct (Z.ltb_spec i (#(zlen l) : u256)) as [Hl|Hl]; [|fn_steps].
  apply fine_mopt; [|done|done]. apply lookup_lt_is_Some_2.
  assert (i < zlen l) by (rewrite uval_wrap in Hl; pose proof (Z.mod_le (zlen l) (modulus 256) ltac:(unfold zlen; lia) (modulus_pos 256)); lia).
  assert (limb i 0 <= i) by (rewrite limb_dig; unfold dig; rewrite Z.pow_0_r, Z.div_1_r; apply Z.mod_le; [pose proof (uword_range i); lia|done]).
  pose proof (uword_range (limb i 0)). unfold zlen in *. lia.
Qed.

(** *** Storage *)
Lemma store_cost_min s : 0 <= minimum_store_gas t <= store_gas_cost (store_cost t s).
Proof. unfold minimum_store_gas, store_cost, storage_cost_table. destruct (evm_rev t), s; vm_compute; split; congruence. Qed.

Lemma wp_refund g c Q : ok t d st strict G c ->
  (forall c', ok t d st strict G c' -> env c' = env c -> same_mem c c' ->
    gas_remaining c' = gas_remaining c -> Q (tt, c')) ->
  safe t d st strict (exit_ok t d st strict G) Q (add_refund g c).
Proof. intros Hok HQ. apply HQ; [by apply ok_refund|done..]. Qed.

Lemma wp_return_data b c Q : ok t d st strict G c ->
  (forall c', ok t d st strict G c' -> same_mem c c' ->
    gas_remaining c' = gas_remaining c -> Q (tt, c')) ->
  safe t d st strict (exit_ok t d st strict G) Q (set_return_data b c).
Proof. intros Hok HQ. apply HQ; [by apply ok_return_data|done..]. Qed.

Lemma wp_sub_gas g c Q : ok t d st strict G c ->
  (forall c', ok t d st strict G c' -> env c' = env c -> same_mem c c' ->
    gas_remaining c' = gas_remaining c - g -> Q (tt, c')) ->
  safe t d st strict (exit_ok t d st strict G) Q (sub_gas g c).
Proof. intros Hok HQ. apply HQ; [by apply ok_gas|done..]. Qed.

Ltac call_step :=
  lazymatch goal with
  | |- safe _ _ _ _ _ _ (add_refund _ _) => apply wp_refund; [assumption|intros ? ? ? ? ?; cbn [fst snd]]
  | |- safe _ _ _ _ _ _ (set_return_data _ _) => apply wp_return_data; [assumption|intros ? ? ? ?; cbn [fst snd]]
  | |- safe _ _ _ _ _ _ (clear_return_data _) => apply (wp_return_data []); [assumption|intros ? ? ? ?; cbn [fst snd]]
  | |- safe _ _ _ _ _ _ (sub_gas _ _) => apply wp_sub_gas; [assumption|intros ? ? ? ? ?; cbn [fst snd]]
  | |- safe _ _ _ _ _ _ (massert _ _) => apply wp_massert; [wp_side|cbn [fst snd]]
  | _ => fn_step
  end.
Ltac call_steps := repeat call_step; bool_to_prop; try wp_done.

Lemma fine_sstore k v : fine (sstore t k v 0).
Proof.
  intros c Hok Hg. unfold sstore. pose proof cold_storage_nonneg. pose proof (store_cost_min EVMC_STORAGE_ADDED).
  call_steps. all: match goal with s : evmc_storage_status |- _ => pose proof (store_cost_min s) end; wp_done.
Qed.

(** *** Calls *)
Lemma wp_delegate_target a c Q : ok t d st strict G c ->
  (forall a' c', ok t d st strict G c' -> same_mem c c' ->
    gas_remaining c' <= gas_remaining c -> Q (a', c')) ->
  safe t d st strict (exit_ok t d st strict G) Q (delegate_target t a c).
Proof.
  intros Hok HQ. unfold delegate_target, resolve_delegation. pose proof cold_account_nonneg.
  wp_step; [|by apply HQ]. do 4 wp_step. cbn [safe mret fst snd]. destruct (negb _); [by apply HQ|].
  do 4 call_step. cbn [safe mret fst snd]. apply HQ; try done. destruct x0; lia.
Qed.

Lemma wp_memory_range o s c Q : (forall a b, 0 <= a < 2 ^ 28 -> 0 <= b < 2 ^ 28 -> Q ((a, b), c)) ->
  safe t d st strict (exit_ok t d st strict G) Q (memory_range o s c).
Proof.
  intros HQ. unfold memory_range. wp_step. wp_step. wp_step. destruct (0 <? o0); repeat wp_step; apply HQ; lia.
Qed.

Lemma static_flag_kept f s dl : Z.testbit f EVMC_STATIC = true -> Z.testbit (message_flags f s dl) EVMC_STATIC = true.
Proof.
  intros Hf. unfold message_flags, EVMC_STATIC, EVMC_DELEGATED in *. destruct s, dl.
  all: rewrite ?Z.setbit_neq, ?Z.clearbit_neq by lia; rewrite ?Z.setbit_eq by lia; done.
Qed.

(** What [send_call] needs of the message. *)
Lemma wp_send_call m off size c Q : host_ok t d st strict (HCall m) -> ok t d st strict G c -> 0 <= off -> 0 <= size ->
  off + size <= mem_size (memory c) ->
  (forall x c', ok t d st strict G c' -> 0 <= gas_remaining c' <= gas_remaining c /\
      gas_remaining c' + mem_cost (memory c') <= gas_remaining c + mem_cost (memory c) -> Q (x, c')) ->
  safe t d st strict (exit_ok t d st strict G) Q (send_call m off size c).
Proof.
  intros Hm Hok H0 H1 H2 HQ. unfold send_call. wp_step. apply wp_host; [done|]. intros r [Hr _]. cbn [fst snd].
  call_steps. apply HQ; [done|lia].
Qed.

Lemma wp_charge_value (hv : bool) kind a c Q : ok t d st strict G c ->
  (forall c', ok t d st strict G c' -> same_mem c c' ->
    gas_remaining c' <= gas_remaining c - (if hv then 9000 else 0) ->
    (st = true -> kind = EVMC_CALL -> hv = false) -> Q (tt, c')) ->
  safe t d st strict (exit_ok t d st strict G) Q (charge_value hv kind a 0 c).
Proof.
  intros Hok HQ. unfold charge_value. destruct (bool_decide_reflect (kind = EVMC_CALL)) as [->|Hk]; cycle 1.
  { call_step. destruct hv; repeat call_step; apply HQ; try done; lia. }
  destruct hv; cbn [andb]; cycle 1.
  { repeat call_step. apply HQ; try done. lia. }
  do 4 call_step. match goal with H : ok _ _ _ _ _ ?c |- context [is_static ?c] => rewrite (ok_static _ _ _ _ _ _ H) end.
  cbn [andb]. apply rt_wp_if; intros Hs.
  { destruct (_ <? 0); [apply exit_out_of_gas|apply exit_error]. }
  repeat call_step; apply HQ; try done; try lia; congruence.
Qed.

Lemma fine_call_impl g a has_value val ao as_ ro rs kind static_call :
  is_create kind = false -> (has_value = false -> kind = EVMC_CALL -> uval val = 0) ->
  fine (call_impl t g a has_value val ao as_ ro rs kind static_call 0).
Proof.
  intros Hk Hv c Hok Hg. unfold call_impl.
  do 2 call_step. call_step. apply wp_memory_range. intros a1 a2 Ha1 Ha2. cbn [fst snd].
  call_step. apply wp_memory_range. intros r1 r2 Hr1 Hr2. cbn [fst snd]. do 4 call_step.
  call_step. apply wp_delegate_target; [done|]. intros target c4 Hok4 Hm4 Hg4. cbn [fst snd].
  call_step. apply wp_charge_value; [done|]. intros c5 Hok5 Hm5 Hg5 Hst5. do 2 call_step.
  rewrite Z.add_0_r. destruct (Z.ltb_spec (gas_remaining c5) 0) as [Hl|Hl]; [apply exit_out_of_gas|]. call_step.
  set (gs := gas_remaining c5) in *. pose proof (clamp_cast_range 63 g ltac:(lia)) as Hcl.
  assert (0 <= Z.min (clamp_cast 63 g) (gs - gs / 64) <= gs) as Hgas
    by (pose proof (Z.div_pos gs 64 Hl ltac:(lia)); pose proof (Z.div_le_upper_bound gs 64 gs ltac:(lia) ltac:(lia)); lia).
  assert (safe t d st strict (exit_ok t d st strict G)
    (fun p => ok t d st strict G p.2 /\ same_mem c5 p.2 /\ 0 <= gas_remaining p.2 <= gas_remaining c /\
      gas_remaining p.2 + mem_cost (memory p.2) <= gas_remaining c + mem_cost (memory c))
    ((if has_value then sub_gas (-2300) else mret tt) c5)) as H2300.
  { destruct has_value; repeat call_step; split_and!; try done; lia. }
  revert H2300. apply safe_mono. intros [[] c6] (Hok6 & Hm6 & Hg6). cbn [fst snd] in *.
  destruct (Z.leb_spec 1024 (env_depth (env c5))) as [Hd|Hd]; [split; [done|cbn [fst snd] in *; lia]|]. do 2 call_step.
  apply wp_send_call; try done; try lia; [|intros; split; [done|cbn [snd]; lia]].
  rewrite (ok_depth _ _ _ _ _ _ Hok5) in *. cbn [host_ok depth gas memory_offset flags Evm.kind value]. split_and!; try done; try (unfold max_call_depth; lia).
  - destruct has_value; lia.
  - eapply fits_next; [apply Hok5|unfold max_call_depth; lia|destruct has_value; lia].
  - intros Hst. split_and!; [|done|by intros Hkd; apply Hv; auto].
    apply static_flag_kept. pose proof (ok_static _ _ _ _ _ _ Hok5) as Hs. by rewrite Hst in Hs.
Qed.

Lemma fine_call g a v ao as_ ro rs : fine (call t g a v ao as_ ro rs 0).
Proof.
  apply fine_call_impl; [done|]. rewrite to_bool_eq. intros Hv%negb_false_iff _. by apply Z.eqb_eq in Hv.
Qed.
Lemma fine_callcode g a v ao as_ ro rs : fine (callcode t g a v ao as_ ro rs 0).
Proof. by apply fine_call_impl. Qed.
Lemma fine_delegatecall g a ao as_ ro rs : fine (delegatecall t g a ao as_ ro rs 0).
Proof. intros c Hok Hg. unfold delegatecall. do 2 wp_step. by apply fine_call_impl. Qed.
Lemma fine_staticcall g a ao as_ ro rs : fine (staticcall t g a ao as_ ro rs 0).
Proof. by apply fine_call_impl. Qed.

(** *** Creation and self-destruction *)
Lemma wp_send_create m c Q : host_ok t d st strict (HCall m) -> ok t d st strict G c ->
  (forall x c', ok t d st strict G c' -> 0 <= gas_remaining c' <= gas_remaining c /\
      gas_remaining c' + mem_cost (memory c') <= gas_remaining c + mem_cost (memory c) -> Q (x, c')) ->
  safe t d st strict (exit_ok t d st strict G) Q (send_create m c).
Proof.
  intros Hm Hok HQ. unfold send_create. wp_step. apply wp_host; [done|]. intros r [Hr _]. cbn [fst snd].
  call_steps. apply HQ; [done|lia].
Qed.

(** The message [create_impl] sends is one the host accepts. *)
Lemma create_message_ok kind c s input v salt : ok t d st strict G c -> 0 <= gas_remaining c <= G - mem_cost (memory c) -> st = false ->
  (1024 <=? env_depth (env c)) = false ->
  host_ok t d st strict (HCall (mk_message kind 0 (env_depth (env c) + 1)
    (gas_remaining c + 0 - (gas_remaining c + 0) / 64) #0 s input v salt #0
    (mem_parent (memory c) + mem_size (memory c)))).
Proof.
  intros Hok Hg Hst Hd%Z.leb_gt. rewrite Z.add_0_r. cbn [host_ok depth gas memory_offset].
  rewrite (ok_depth _ _ _ _ _ _ Hok) in *. pose proof (Z.div_le_upper_bound (gas_remaining c) 64 (gas_remaining c) ltac:(lia) ltac:(lia)).
  pose proof (Z.div_pos (gas_remaining c) 64 ltac:(lia) ltac:(lia)).
  split_and!; [done|unfold max_call_depth; lia|lia|eapply fits_next; [apply Hok|unfold max_call_depth; lia|lia]|congruence].
Qed.

Lemma fine_create_impl v o s salt kind : fine (create_impl t v o s salt kind 0).
Proof.
  intros c Hok Hg. unfold create_impl, resolve_delegation.
  assert (0 <= (if bool_decide (kind = EVMC_CREATE2) then create2_code_word_cost t else create_code_word_cost t) <= 8) as Hw
    by (unfold create2_code_word_cost, create_code_word_cost; destruct (bool_decide _), (eth_ge _ _); lia).
  generalize dependent (if bool_decide (kind = EVMC_CREATE2) then create2_code_word_cost t else create_code_word_cost t).
  intros word_cost Hw.
  assert (forall x, 0 <= x < 2 ^ 28 -> 0 <= shr_ceil5 x * word_cost < 2 ^ 32) as Hc
    by (intros x Hx; pose proof (shr_ceil5_range x Hx); nia).
  clear Hw. repeat call_step.
  all: try match goal with
    | |- 0 <= shr_ceil5 ?x * _ < _ => apply Hc; lia
    | H : _ = _ - shr_ceil5 ?x * _ |- _ => pose proof (Hc x ltac:(lia))
    end.
  all: try (split; [done|cbn [snd]; lia]).
  all: apply wp_send_create; [apply create_message_ok; [done|lia|done|done]|done|intros; split; [done|cbn [snd]; lia]].
Qed.

Lemma fine_selfdestruct {A} a : fine (@selfdestruct t A a).
Proof.
  intros c Hok Hg. unfold selfdestruct. pose proof cold_account_nonneg. repeat call_step.
  all: intros _; split; [done|wp_facts; lia].
Qed.
End functions.

(** The safety of a runtime function is found by its name. *)
Create HintDb fine discriminated.
#[export] Hint Constants Opaque : fine.
#[export] Hint Resolve fine_pure fine_udiv fine_sdiv fine_umod fine_smod fine_addmod fine_mulmod fine_exp fine_sha3
  fine_balance fine_calldataload fine_calldatacopy fine_codecopy fine_extcodesize fine_extcodecopy fine_returndatacopy
  fine_extcodehash fine_blockhash fine_selfbalance fine_blobhash fine_mload fine_mstore fine_mstore8 fine_mcopy
  fine_sstore fine_sload fine_tstore fine_tload fine_log_impl fine_create_impl fine_call fine_callcode
  fine_delegatecall fine_staticcall : fine.

(** ** Opcodes *)
Definition row_range (op : Z) : bool :=
  (0 <=? min_stack (osaka op)) && (0 <=? stack_increase (osaka op)).

Lemma row_ranges op : 0 <= op < 256 -> 0 <= min_stack (osaka op) /\ 0 <= stack_increase (osaka op).
Proof.
  intros Hop. assert (forallb (fun k => row_range (Z.of_nat k)) (seq 0 256) = true) as H by (vm_compute; reflexivity).
  rewrite forallb_forall in H. specialize (H (Z.to_nat op)). rewrite in_seq in H. specialize (H ltac:(lia)).
  rewrite Z2Nat.id in H by lia. unfold row_range in H. lia.
Qed.

Definition osaka_known (op : Z) : bool := negb (op_name (osaka op) =? "UNKNOWN")%string.

Definition introduced_in (r : monad_eth_revision) : bool :=
  forallb (fun k => let op := Z.of_nat k in
    negb (osaka_known op && eth_ge r (introduced op))
    || negb (op_name (nth k (make_opcode_table r) unknown_opcode_info) =? "UNKNOWN")%string) (seq 0 256).

Lemma known_at t op : supported t = true -> 0 <= op < 256 -> osaka_known op = true ->
  eth_ge (evm_rev t) (introduced op) = true -> is_known t op = true.
Proof.
  intros Hs Hop Hk Hi. assert (introduced_in (evm_rev t) = true) as H
    by (unfold supported in Hs; destruct (evm_rev t); try discriminate Hs; vm_compute; reflexivity).
  unfold introduced_in in H. rewrite forallb_forall in H. specialize (H (Z.to_nat op)). rewrite in_seq in H.
  specialize (H ltac:(lia)). cbn zeta in H. rewrite Z2Nat.id, Hk, Hi in H by lia. exact H.
Qed.

(** ** Frames *)
Section frames.
Context (t : Traits) (Hsup : supported t = true) (d : Z) (st : bool) (strict : bool) (G : Z) (keccak256 : byte_string -> bytes32).
Context (code : byte_string) (ic : Intercode) (Hic : new_intercode code = Some ic).
Import interpreter.

Record frame_ok (f : Frame) : Prop := mk_frame_ok {
  fo_ctx : ok t d st strict G (f_ctx f);
  fo_cells : zlen (f_cells f) = 1024;
  fo_sp : 0 <= f_sp f <= 1024;
  fo_gas : 0 <= f_gas f <= G - mem_cost (memory (f_ctx f));
  fo_ip : 0 <= f_ip f <= zlen code + 32 }.

#[local] Abbreviation wp Q p := (safe t d st strict (exit_ok t d st strict G) Q p).

Lemma frame_gas f : frame_ok f -> 0 <= f_gas f <= G.
Proof. intros Hf. pose proof (fo_gas _ Hf). destruct (ok_size _ _ _ _ _ _ (fo_ctx _ Hf)). lia. Qed.

(** The same frame, except for the cells. *)
Record same_but_cells (f f' : Frame) : Prop := mk_same {
  sb_ctx : f_ctx f' = f_ctx f; sb_sp : f_sp f' = f_sp f; sb_gas : f_gas f' = f_gas f; sb_ip : f_ip f' = f_ip f }.

Lemma wp_peek k f Q : frame_ok f -> 0 <= k < f_sp f -> (forall x, Q (x, f)) -> wp Q (peek k f).
Proof.
  intros Hf Hk HQ. unfold peek. apply safe_mbnd. cbn [mget safe fst snd].
  rewrite (proj2 (Z.leb_le 0 _)) by lia. pose proof (fo_sp _ Hf). pose proof (fo_cells _ Hf) as Hc. unfold zlen in Hc.
  destruct (f_cells f !! Z.to_nat (f_sp f - 1 - k)) eqn:E; [apply HQ|]. apply lookup_ge_None in E. lia.
Qed.

Lemma wp_poke k x f Q : frame_ok f -> 0 <= f_sp f - 1 - k < 1024 ->
  (forall f', frame_ok f' -> same_but_cells f f' -> Q (tt, f')) -> wp Q (poke k x f).
Proof.
  intros Hf Hk HQ. unfold poke. apply safe_mbnd. cbn [mget safe fst snd]. rewrite (fo_cells _ Hf).
  rewrite (proj2 (Z.leb_le 0 _)), (proj2 (Z.ltb_lt _ _)) by lia. cbn [andb mmod safe].
  destruct Hf as [H1 H2 H3 H4 H5]. apply HQ; [|done]. constructor; try done.
  cbn [with_cells f_cells]. unfold zlen in *. by rewrite length_insert.
Qed.

Definition valid (op : Z) : Prop := 0 <= op < 256 /\ is_known t op = true.

Lemma wp_check op f Q : valid op -> frame_ok f ->
  (forall f', frame_ok f' -> f_ctx f' = f_ctx f -> f_cells f' = f_cells f -> f_sp f' = f_sp f -> f_ip f' = f_ip f ->
    f_gas f' = f_gas f - min_gas (opcode_table t op) ->
    min_stack (osaka op) <= f_sp f' -> f_sp f' + (stack_increase (osaka op) - min_stack (osaka op)) <= 1024 -> Q (tt, f')) ->
  wp Q (check_requirements t op f).
Proof.
  intros [Hop Hk] Hf HQ. destruct (opcode_row t op Hop Hk) as (E1 & E2 & _ & Hg0). pose proof (row_ranges op Hop) as [R1 R2].
  unfold check_requirements. rewrite E1, E2. apply safe_mbnd.
  set (g := min_gas (opcode_table t op)) in *. set (ms := min_stack (osaka op)) in *. set (si := stack_increase (osaka op)) in *.
  assert (safe t d st strict (exit_ok t d st strict G) (fun p => frame_ok p.2 /\ f_gas p.2 = f_gas f - g /\ f_ctx p.2 = f_ctx f /\
      f_cells p.2 = f_cells f /\ f_sp p.2 = f_sp f /\ f_ip p.2 = f_ip f)
    ((if 0 <? g then mmod (fun f => with_f_gas (f_gas f - g) f) ;; f <- mget ;; if f_gas f <? 0 then exit StOutOfGas else mret tt
      else mret tt) f)) as Hgas.
  { destruct Hf as [H1 H2 H3 H4 H5]. destruct (Z.ltb_spec 0 g) as [Hl|Hl].
    - cbn -[Z.ltb]. destruct (Z.ltb_spec (f_gas f - g) 0); [apply exit_out_of_gas|]. split_and!; try done.
      constructor; try done. cbn [snd with_f_gas f_gas f_ctx]. lia.
    - cbn [mret safe snd]. split_and!; try done. lia. }
  revert Hgas. apply safe_mono. intros [[] f1] (Hf1 & Eg & Ec & Es & Esp & Eip). cbn [fst snd] in *.
  assert (Hfin : ms <= f_sp f1 -> f_sp f1 + (si - ms) <= 1024 -> Q (tt, f1)) by (intros; by apply HQ).
  pose proof (fo_sp _ Hf1) as Hsp. destruct (Z.eqb_spec ms 0) as [E3|E3], (Z.eqb_spec si 0) as [E4|E4]; cbn [andb].
  1: apply Hfin; lia.
  all: apply safe_mbnd; cbn [mget safe fst snd]; apply safe_mbnd; unfold massert; rewrite (proj2 (Z.leb_le _ 1024)) by lia;
    cbn [mret safe fst snd]; apply safe_mbnd.
  all: destruct (Z.ltb_spec 0 ms), (Z.ltb_spec (f_sp f1) ms); cbn [andb]; try lia; try apply exit_error;
    cbn [mret safe fst snd].
  all: destruct (Z.ltb_spec 0 si); try (apply Hfin; lia).
  all: destruct (Z.ltb_spec (1024 - (si - ms)) 1024), (Z.ltb_spec (1024 - (si - ms)) (f_sp f1)); cbn [andb];
    first [apply Hfin; lia | exact (exit_error t d st strict G (f_ctx f1))].
Qed.

(** *** Instructions *)

(** An instruction inside the code keeps the invariant and costs gas. *)
Definition instr_ok (m : IM unit) : Prop := forall f, frame_ok f -> f_ip f < zlen code ->
  wp (fun p => frame_ok p.2 /\ f_gas p.2 < f_gas f) (m f).

(** The frame after the checks of [op]. *)
Definition checked (op : Z) (f0 f : Frame) : Prop :=
  frame_ok f /\ f_gas f < f_gas f0 /\ f_ip f < zlen code /\ min_stack (osaka op) <= f_sp f /\
  f_sp f + (stack_increase (osaka op) - min_stack (osaka op)) <= 1024.

Definition costly (op : Z) : Prop := valid op /\ free_opcode op = false.

Lemma wp_checked {A} op f (k : IM A) Q : costly op -> frame_ok f -> f_ip f < zlen code ->
  (forall f', checked op f f' -> wp Q (k f')) -> wp Q ((check_requirements t op ;; k) f).
Proof.
  intros [Hv Hfree] Hf Hip HQ. apply safe_mbnd, wp_check; [done|done|]. intros f' Hf' Ec Es Esp Eip Eg Hms Hsi.
  cbn [fst snd]. apply HQ. destruct (opcode_row t op (proj1 Hv) (proj2 Hv)) as (_ & _ & [Hg|Hg] & _); [congruence|].
  unfold checked. rewrite Eip. split_and!; try done. lia.
Qed.

Lemma wp_next op f f0 : costly op -> frame_ok f -> f_gas f < f_gas f0 -> f_ip f < zlen code ->
  min_stack (osaka op) <= f_sp f -> f_sp f + (stack_increase (osaka op) - min_stack (osaka op)) <= 1024 ->
  wp (fun p => frame_ok p.2 /\ f_gas p.2 < f_gas f0) (next t op f).
Proof.
  intros [[Hop Hk] _] Hf Hg Hip Hms Hsi. destruct (opcode_row t op Hop Hk) as (E1 & E2 & _). pose proof (row_ranges op Hop).
  unfold next, stack_delta. cbn [mmod safe snd]. rewrite E1, E2. split; [|done].
  destruct Hf as [H1 H2 H3 H4 H5]. constructor; cbn [with_ip with_sp f_ctx f_cells f_sp f_gas f_ip]; try done; lia.
Qed.

Lemma wp_next_from op f f0 f1 : costly op -> checked op f0 f1 -> frame_ok f -> f_sp f = f_sp f1 -> f_ip f = f_ip f1 ->
  f_gas f <= f_gas f1 -> wp (fun p => frame_ok p.2 /\ f_gas p.2 < f_gas f0) (next t op f).
Proof. intros Hc (H1 & H2 & H3 & H4 & H5) Hf Es Ei Hg. apply wp_next; try done; try lia; rewrite ?Es, ?Ei; done. Qed.

(** Pops two words, pushes one. *)
Lemma instr_binary op g : costly op -> min_stack (osaka op) = 2 ->
  instr_ok (check_requirements t op ;; a <- peek 0 ;; b <- peek 1 ;; poke 1 (g a b) ;; next t op).
Proof.
  intros Hc Hms f Hf Hip. apply wp_checked; try done. intros f1 Hf1. destruct (Hf1) as (H1 & H2 & H3 & H4 & H5).
  apply safe_mbnd, wp_peek; [done|lia|]. intros a. apply safe_mbnd, wp_peek; [done|cbn [fst snd]; lia|]. intros b.
  apply safe_mbnd, wp_poke; [done|pose proof (fo_sp _ H1); cbn [fst snd]; lia|]. intros f2 Hf2 [E1 E2 E3 E4].
  eapply wp_next_from; try done. cbn [snd] in *. lia.
Qed.

Lemma instr_unary op g : costly op -> min_stack (osaka op) = 1 ->
  instr_ok (check_requirements t op ;; a <- peek 0 ;; poke 0 (g a) ;; next t op).
Proof.
  intros Hc Hms f Hf Hip. apply wp_checked; try done. intros f1 Hf1. destruct (Hf1) as (H1 & H2 & H3 & H4 & H5).
  apply safe_mbnd, wp_peek; [done|lia|]. intros a.
  apply safe_mbnd, wp_poke; [done|pose proof (fo_sp _ H1); cbn [fst snd]; lia|]. intros f2 Hf2 [E1 E2 E3 E4].
  eapply wp_next_from; try done. cbn [snd] in *. lia.
Qed.

Lemma instr_push op (g : Frame -> u256) : costly op -> min_stack (osaka op) = 0 -> stack_increase (osaka op) = 1 ->
  instr_ok (check_requirements t op ;; f <- mget ;; push (g f) ;; next t op).
Proof.
  intros Hc Hms Hsi f Hf Hip. apply wp_checked; try done. intros f1 Hf1. destruct (Hf1) as (H1 & H2 & H3 & H4 & H5).
  apply safe_mbnd. cbn [mget safe fst snd].
  apply safe_mbnd, wp_poke; [done|pose proof (fo_sp _ H1); lia|]. intros f2 Hf2 [E1 E2 E3 E4].
  eapply wp_next_from; try done. cbn [snd] in *. lia.
Qed.

(** *** Runtime calls *)
Fixpoint fine_fn {R} (n : nat) : runtime_fn n R -> Prop :=
  match n return runtime_fn n R -> Prop with
  | O => fun m => fine t d st strict G m
  | S n' => fun fn => forall a, fine_fn n' (fn a)
  end.

Lemma wp_apply_args {R} n : forall k (fn : runtime_fn n R) f Q, frame_ok f -> fine_fn n fn -> 0 <= k ->
  k + Z.of_nat n <= f_sp f -> (forall m, fine t d st strict G m -> Q (m, f)) -> wp Q (apply_args n k fn f).
Proof.
  induction n as [|n IH]; intros k fn f Q Hf Hfn H0 Hk HQ; cbn [apply_args]; [by apply HQ|].
  apply safe_mbnd, wp_peek; [done|lia|]. intros a. cbn [fst snd]. apply IH; try done; lia.
Qed.

Lemma wp_call_void {R} n (fn : runtime_fn n R) f Q : frame_ok f -> fine_fn n fn -> Z.of_nat n <= f_sp f ->
  (forall r f', frame_ok f' -> f_sp f' = f_sp f -> f_ip f' = f_ip f -> f_gas f' <= f_gas f -> Q (r, f')) ->
  wp Q (call_runtime_void n fn f).
Proof.
  intros Hf Hfn Hn HQ. unfold call_runtime_void. apply safe_mbnd, wp_apply_args; try done. intros m Hm.
  apply safe_mbnd. cbn [mmod safe fst snd]. apply safe_mbnd. unfold lift. apply safe_rt_bind.
  destruct Hf as [H1 H2 H3 H4 H5]. cbn [with_ctx f_ctx].
  specialize (Hm (with_gas_remaining (f_gas f) (f_ctx f)) (ok_gas _ _ _ _ _ _ _ H1) H4). revert Hm. apply safe_mono.
  intros [r c] [Hok Hg]. cbn -[Z.le]. apply HQ; try done; [|cbn [with_f_gas f_gas f_ctx with_ctx snd]; cbn in Hg; lia].
  constructor; cbn in *; try done; lia.
Qed.

Lemma instr_call op n (fn : runtime_fn n u256) : costly op -> min_stack (osaka op) = Z.of_nat n ->
  stack_increase (osaka op) = 1 -> fine_fn n fn -> instr_ok (checked_runtime_call t op n fn ;; next t op).
Proof.
  intros Hc Hms Hsi Hfn f Hf Hip. unfold checked_runtime_call. apply safe_mbnd, wp_checked; try done.
  intros f1 Hf1. destruct (Hf1) as (H1 & H2 & H3 & H4 & H5). unfold call_runtime.
  apply safe_mbnd, wp_call_void; [done|done|lia|]. intros r f2 Hf2 E1 E2 Hg.
  apply wp_poke; [done|pose proof (fo_sp _ H1); cbn [fst snd]; lia|]. intros f3 Hf3 [E3 E4 E5 E6]. cbn [fst snd] in *.
  eapply wp_next_from; try done; [congruence|congruence|lia].
Qed.

Lemma instr_call_void {R} op n (fn : runtime_fn n R) : costly op -> min_stack (osaka op) = Z.of_nat n ->
  fine_fn n fn -> instr_ok (checked_runtime_call_void t op n fn ;; next t op).
Proof.
  intros Hc Hms Hfn f Hf Hip. unfold checked_runtime_call_void. apply safe_mbnd, wp_checked; try done.
  intros f1 Hf1. destruct (Hf1) as (H1 & H2 & H3 & H4 & H5).
  apply wp_call_void; [done|done|lia|]. intros r f2 Hf2 E1 E2 Hg. by eapply wp_next_from.
Qed.

(** *** The stack and the end of the execution *)
Lemma ip_in_code f : frame_ok f -> f_ip f < zlen code ->
  exists ip, f_ip f = Z.of_nat ip /\ (ip < length code)%nat.
Proof. intros Hf Hl. pose proof (fo_ip _ Hf). exists (Z.to_nat (f_ip f)). unfold zlen in *. lia. Qed.

Lemma push_value_some f N : frame_ok f -> f_ip f < zlen code -> (N <= 32)%nat -> is_Some (push_value N ic (f_ip f)).
Proof using Hic.
  intros Hf Hl HN. destruct N as [|N]; [done|]. cbn [push_value]. destruct (ip_in_code f Hf Hl) as (ip & -> & Hip).
  rewrite (avx2_push_eq code ic Hic (S N) ip) by lia. done.
Qed.

Lemma instr_push_ N : (N <= 32)%nat -> costly (PUSH0 + Z.of_nat N) -> min_stack (osaka (PUSH0 + Z.of_nat N)) = 0 ->
  stack_increase (osaka (PUSH0 + Z.of_nat N)) = 1 -> instr_ok (push_ t ic N).
Proof using Hic.
  intros HN Hc Hms Hsi f Hf Hip. unfold push_. apply wp_checked; try done.
  intros f1 Hf1. destruct (Hf1) as (H1 & H2 & H3 & H4 & H5). apply safe_mbnd. cbn [mget safe fst snd].
  destruct (push_value_some f1 N H1 H3 HN) as [x ->]. apply safe_mbnd. cbn [mopt mret safe fst snd].
  apply safe_mbnd, wp_poke; [done|pose proof (fo_sp _ H1); lia|]. intros f2 Hf2 [E1 E2 E3 E4]. cbn [fst snd].
  destruct Hc as [[Hop Hk] _]. destruct (opcode_row t _ Hop Hk) as (R1 & R2 & _).
  unfold next_push, stack_delta. cbn [mmod safe snd]. rewrite R1, R2. split; [|cbn [with_ip with_sp f_gas]; lia].
  pose proof (fo_ip _ H1). destruct Hf2 as [K1 K2 K3 K4 K5].
  constructor; cbn [with_ip with_sp f_ctx f_cells f_sp f_gas f_ip]; try done; lia.
Qed.

Lemma instr_pop_ op : costly op -> instr_ok (check_requirements t op ;; next t op).
Proof. intros Hc f Hf Hip. apply wp_checked; try done. intros f1 Hf1. apply (wp_next_from op f1 f f1); try done. apply Hf1. Qed.

Lemma instr_dup N : (1 <= N <= 16)%nat -> costly (DUP1 + (Z.of_nat N - 1)) ->
  min_stack (osaka (DUP1 + (Z.of_nat N - 1))) = Z.of_nat N ->
  stack_increase (osaka (DUP1 + (Z.of_nat N - 1))) = Z.of_nat N + 1 -> instr_ok (dup t N).
Proof.
  intros HN Hc Hms Hsi f Hf Hip. unfold dup. apply wp_checked; try done.
  intros f1 Hf1. destruct (Hf1) as (H1 & H2 & H3 & H4 & H5).
  apply safe_mbnd, wp_peek; [done|lia|]. intros x.
  apply safe_mbnd, wp_poke; [done|pose proof (fo_sp _ H1); cbn [fst snd]; lia|]. intros f2 Hf2 [E1 E2 E3 E4].
  eapply wp_next_from; try done. cbn [snd] in *. lia.
Qed.

Lemma instr_swap N : (1 <= N <= 16)%nat -> costly (SWAP1 + (Z.of_nat N - 1)) ->
  min_stack (osaka (SWAP1 + (Z.of_nat N - 1))) = Z.of_nat N + 1 -> instr_ok (swap t N).
Proof.
  intros HN Hc Hms f Hf Hip. unfold swap. apply wp_checked; try done.
  intros f1 Hf1. destruct (Hf1) as (H1 & H2 & H3 & H4 & H5). pose proof (fo_sp _ H1) as Hsp.
  apply safe_mbnd, wp_peek; [done|lia|]. intros x. apply safe_mbnd, wp_peek; [done|cbn [fst snd]; lia|]. intros y.
  apply safe_mbnd, wp_poke; [done|cbn [fst snd]; lia|]. intros f2 Hf2 [E1 E2 E3 E4]. cbn [fst snd] in *.
  apply safe_mbnd, wp_poke; [done|cbn [fst snd]; lia|]. intros f3 Hf3 [E5 E6 E7 E8]. cbn [fst snd] in *.
  eapply wp_next_from; try done; [congruence|congruence|lia].
Qed.

Lemma wp_exit_frame {A} code0 f Q : exit_ok t d st strict G code0 (f_ctx f) -> wp Q (@interpreter.exit A code0 f).
Proof. done. Qed.

Lemma wp_jump_impl target f f0 : frame_ok f -> f_gas f < f_gas f0 ->
  wp (fun p => frame_ok p.2 /\ f_gas p.2 < f_gas f0) (jump_impl ic target f).
Proof using Hic.
  intros Hf Hg. unfold jump_impl. destruct (u256_ltb _ _); [apply wp_exit_frame, exit_error|].
  destruct (is_jumpdest ic (limb target 0)) eqn:Ej; cbn [negb]; [|apply wp_exit_frame, exit_error].
  assert (0 <= limb target 0 < zlen code) as Hj.
  { unfold is_jumpdest in Ej. unfold new_intercode in Hic. destruct (zlen code <=? _); [|discriminate Hic].
    injection Hic as <-. cbn [code_size_] in Ej. lia. }
  destruct Hf as [H1 H2 H3 H4 H5]. cbn [mmod safe snd]. split; [|done].
  constructor; cbn [with_ip f_ctx f_cells f_sp f_gas f_ip]; try done. lia.
Qed.

Lemma wp_pop f Q : frame_ok f -> 1 <= f_sp f ->
  (forall x f', frame_ok f' -> f_sp f' = f_sp f - 1 -> f_gas f' = f_gas f -> f_ip f' = f_ip f -> Q (x, f')) ->
  wp Q (pop f).
Proof.
  intros Hf Hs HQ. unfold pop. apply safe_mbnd, wp_peek; [done|lia|]. intros x. apply safe_mbnd.
  cbn [mmod mret safe fst snd]. apply HQ; try done. destruct Hf as [H1 H2 H3 H4 H5].
  constructor; cbn [with_sp f_ctx f_cells f_sp f_gas f_ip]; try done. lia.
Qed.

Lemma instr_jump : costly JUMP -> instr_ok (jump t ic).
Proof using Hic.
  intros Hc f Hf Hip. unfold jump. apply wp_checked; try done. intros f1 (H1 & H2 & H3 & H4 & H5).
  change (min_stack (osaka JUMP)) with 1 in H4. apply safe_mbnd, wp_pop; [done|lia|].
  intros x f2 Hf2 E1 E2 E3. apply wp_jump_impl; [done|cbn [snd]; lia].
Qed.

Lemma instr_jumpi : costly JUMPI -> instr_ok (jumpi t ic).
Proof using Hic.
  intros Hc f Hf Hip. unfold jumpi. apply wp_checked; try done. intros f1 (H1 & H2 & H3 & H4 & H5).
  change (min_stack (osaka JUMPI)) with 2 in H4. apply safe_mbnd, wp_pop; [done|lia|].
  intros x f2 Hf2 E1 E2 E3. cbn [fst snd]. apply safe_mbnd, wp_pop; [done|lia|]. intros y f3 Hf3 E4 E5 E6. cbn [fst snd].
  destruct (to_bool y); [apply wp_jump_impl; [done|lia]|]. cbn [mmod safe snd]. split; [|cbn [with_ip f_gas]; lia].
  destruct Hf3 as [K1 K2 K3 K4 K5]. constructor; cbn [with_ip f_ctx f_cells f_sp f_gas f_ip]; try done. lia.
Qed.

Lemma instr_return op c0 : valid op -> min_stack (osaka op) = 2 -> instr_ok (check_requirements t op ;; return_impl c0).
Proof.
  intros Hv Hms f Hf Hip. apply safe_mbnd, wp_check; [done|done|]. intros f1 H1 _ _ _ _ _ H4 _. cbn [fst snd].
  unfold return_impl. apply safe_mbnd, wp_peek; [done|lia|]. intros x. apply safe_mbnd, wp_peek; [done|cbn [fst snd]; lia|]. intros y.
  apply safe_mbnd. cbn [mmod safe fst snd]. apply wp_exit_frame. intros _. cbn [with_ctx f_ctx].
  split; [apply ok_gas, ok_result, H1|by apply frame_gas].
Qed.

Lemma instr_selfdestruct : costly SELFDESTRUCT -> instr_ok (selfdestruct t).
Proof.
  intros Hc f Hf Hip. unfold selfdestruct, checked_runtime_call_void. apply wp_checked; try done.
  intros f1 (H1 & H2 & H3 & H4 & H5). change (min_stack (osaka SELFDESTRUCT)) with 1 in H4.
  apply wp_call_void; [done|intros a; apply fine_selfdestruct|cbn; lia|].
  intros [] f2 Hf2 E1 E2 Hg. split; [done|cbn [snd]; lia].
Qed.

Lemma instr_stop f Q : frame_ok f -> wp Q (stop f).
Proof.
  intros Hf. unfold stop. apply safe_mbnd. cbn [mmod safe fst snd]. apply wp_exit_frame. intros _. cbn [with_ctx f_ctx].
  split; [apply ok_gas, Hf|by apply frame_gas].
Qed.

Lemma instr_invalid : instr_ok invalid.
Proof. intros f Hf _. unfold invalid. apply safe_mbnd. apply wp_exit_frame, exit_error. Qed.

Lemma instr_since r m : (eth_ge (evm_rev t) r = true -> instr_ok m) -> instr_ok (since t r m).
Proof. intros H. unfold since. destruct (eth_ge (evm_rev t) r); [by apply H|apply instr_invalid]. Qed.

(** *** The table *)
Lemma since_petersburg : eth_ge (evm_rev t) MONAD_ETH_PETERSBURG = true.
Proof using Hsup. clear - Hsup. unfold supported in Hsup. by apply andb_true_iff in Hsup as [? _]. Qed.

Lemma costly_at op : 0 <= op < 256 -> osaka_known op = true -> free_opcode op = false ->
  eth_ge (evm_rev t) (introduced op) = true -> costly op.
Proof using Hsup. clear - Hsup. intros Hop Hk Hfree Hi. split; [|done]. split; [done|]. by apply known_at. Qed.

Ltac costly :=
  apply costly_at; [split; [vm_compute; congruence|vm_compute; reflexivity]|vm_compute; reflexivity|reflexivity
    |first [assumption|exact since_petersburg]].

Ltac fine_args :=
  cbn [fine_fn]; intros;
  unfold runtime.mul, runtime.log0, runtime.log1, runtime.log2, runtime.log3, runtime.log4, runtime.create, runtime.create2;
  auto with fine nocore.

Ltac instr :=
  lazymatch goal with
  | |- instr_ok invalid => exact instr_invalid
  | |- instr_ok (since _ _ _) => apply instr_since; intros ?; instr
  | |- instr_ok (push_ _ _ _) => apply instr_push_; [lia|costly|reflexivity|reflexivity]
  | |- instr_ok (dup _ _) => apply instr_dup; [lia|costly|reflexivity|reflexivity]
  | |- instr_ok (swap _ _) => apply instr_swap; [lia|costly|reflexivity]
  | |- instr_ok (jump _ _) => apply instr_jump; costly
  | |- instr_ok (jumpi _ _) => apply instr_jumpi; costly
  | |- instr_ok (selfdestruct _) => apply instr_selfdestruct; costly
  | |- instr_ok (log _ _) => unfold log; cbn iota; apply instr_call_void; [costly|reflexivity|fine_args]
  | _ =>
    first
    [ apply instr_binary; [costly|reflexivity]
    | apply instr_unary; [costly|reflexivity]
    | apply instr_push; [costly|reflexivity|reflexivity]
    | apply instr_call; [costly|reflexivity|reflexivity|fine_args]
    | apply instr_call_void; [costly|reflexivity|fine_args]
    | apply instr_pop_; costly
    | apply instr_return; [split; [vm_compute; split; congruence|apply known_at; [exact Hsup|vm_compute; split; congruence
        |vm_compute; reflexivity|exact since_petersburg]]|reflexivity] ]
  end.

Lemma table_ok_at : Forall instr_ok (make_instruction_table t keccak256 ic).
Proof using Hsup Hic.
  unfold make_instruction_table,
    add, mul, sub, udiv, sdiv, umod, smod, addmod, mulmod, exp, signextend, lt, gt, slt, sgt, eq, iszero,
    and_, or_, xor_, not_, byte, shl, shr, sar, clz, sha3, address_, balance, origin, caller, callvalue,
    calldataload, calldatasize, calldatacopy, codesize, codecopy, gasprice, extcodesize, extcodecopy,
    returndatasize, returndatacopy, extcodehash, blockhash, coinbase, timestamp, number, prevrandao,
    gaslimit, chainid, selfbalance, basefee, blobhash, blobbasefee, pop_, mload, mstore, mstore8, sload,
    sstore, pc, msize, gas_, jumpdest, tload, tstore, mcopy, create, call, callcode, delegatecall,
    create2, staticcall, return_, revert.
  constructor; [intros f Hf _; by apply instr_stop|].
  repeat (constructor; [instr|]). constructor.
Qed.

Lemma instruction_ok op : instr_ok (instruction_table t keccak256 ic op).
Proof using Hsup Hic.
  unfold instruction_table. destruct (nth_in_or_default (Z.to_nat op) (make_instruction_table t keccak256 ic) invalid) as [H| ->];
    [|apply instr_invalid].
  pose proof table_ok_at as Ht. rewrite Forall_forall in Ht. apply Ht. by apply list_elem_of_In.
Qed.

(** ** The loop *)
Lemma code_at_ok f : frame_ok f -> exists op, code_at ic (f_ip f) = Some op /\ (zlen code <= f_ip f -> op = #0).
Proof using Hic.
  intros Hf. pose proof (fo_ip _ Hf) as Hip. unfold code_at. replace (f_ip f) with (Z.of_nat (Z.to_nat (f_ip f))) by lia.
  unfold zlen in *. rewrite (code_bytes_at code ic Hic) by (unfold end_padding_size; lia).
  unfold code_from. set (k := Z.to_nat (f_ip f)) in *.
  destruct (lookup_lt_is_Some_2 (code ++ replicate end_padding_size #0) k) as [op Hop].
  { rewrite length_app, length_replicate. unfold end_padding_size. lia. }
  rewrite (drop_S _ _ _ Hop). cbn [take]. rewrite take_0. exists op. split; [done|]. intros Hl.
  rewrite lookup_app_r in Hop by lia. by apply lookup_replicate in Hop as [-> _].
Qed.

Lemma core_loop_ok fuel : forall f Q, frame_ok f -> f_gas f < Z.of_nat fuel -> wp Q (core_loop t keccak256 ic fuel f).
Proof using Hsup Hic.
  induction fuel as [|fuel IH]; intros f Q Hf Hg; [pose proof (fo_gas _ Hf); lia|]. cbn [core_loop].
  apply safe_mbnd. cbn [mget safe fst snd]. destruct (code_at_ok f Hf) as (op & -> & Hend).
  apply safe_mbnd. cbn [mopt mret safe fst snd]. apply safe_mbnd.
  destruct (Z.le_gt_cases (zlen code) (f_ip f)) as [Hl|Hl].
  - rewrite (Hend Hl). apply instr_stop, Hf.
  - eapply safe_mono; [|apply instruction_ok; [exact Hf|lia]].
    intros [[] f'] [Hf' Hlt]. cbn [fst snd] in *. apply IH; [done|lia].
Qed.
End frames.

(** ** Messages *)

(** What a program of a frame at depth [d], static if [st], with [g] gas, may do. *)
Fixpoint safe_prog (t : Traits) (d : Z) (st strict : bool) (g : Z) (p : vm_prog) : Prop :=
  match p with
  | VmDone r => result_ok g r
  | VmAbort => strict = false
  | VmHost o k => host_ok t d st strict o /\ forall x, reply_ok o x -> safe_prog t d st strict g (k x)
  end.

Lemma to_vm_prog_safe t d st strict G p : 0 <= G -> safe t d st strict (exit_ok t d st strict G) (fun _ => False) p ->
  safe_prog t d st strict G (to_vm_prog (finish t) p).
Proof.
  intros HG. induction p as [a|code c| |X o k IH]; cbn [safe to_vm_prog safe_prog]; try done.
  - intros He. destruct (finish_ok t d st strict G code c HG He) as [(r & -> & Hr)|[-> Hx]]; done.
  - intros [Ho Hk]. split; [done|]. intros x Hx. by apply IH, Hk.
Qed.

Lemma initial_frame_ok t ctx strict msg code : 0 <= gas msg ->
  fits t strict (depth msg) (memory_offset msg) (gas msg) ->
  frame_ok t (depth msg) (Z.testbit (flags msg) EVMC_STATIC) strict (gas msg) code
    (interpreter.initial_frame (context_from ctx msg code)).
Proof.
  intros Hg Hfit. constructor; cbn [interpreter.initial_frame f_ctx f_cells f_sp f_gas f_ip context_from gas_remaining].
  - constructor; [done|done|]. split_and!; [done| |].
    + exists 0. split_and!; try lia; [done|]. unfold context.memory_cost_from_word_count. by destruct (mip_3_active t).
    + intros Hx. specialize (Hfit Hx). split; [done|]. cbn [context_from memory mem_parent mem_size]. intros Em.
      unfold memory_start in Hfit. rewrite Em in Hfit. lia.
  - unfold zlen. by rewrite length_replicate.
  - lia.
  - cbn [context_from memory mem_cost gas_remaining]. lia.
  - unfold zlen. lia.
Qed.

Lemma execute_safe t keccak256 ctx strict msg code ic : supported t = true -> new_intercode code = Some ic ->
  0 <= gas msg ->
  fits t strict (depth msg) (memory_offset msg) (gas msg) ->
  safe_prog t (depth msg) (Z.testbit (flags msg) EVMC_STATIC) strict (gas msg) (execute_intercode t keccak256 ctx msg code).
Proof.
  intros Hs Hic Hg Hfit. unfold execute_intercode. rewrite Hic. apply to_vm_prog_safe; [done|].
  unfold interpreter.execute. apply safe_rt_bind, (core_loop_ok t Hs _ _ _ _ _ code ic Hic).
  - by apply initial_frame_ok.
  - cbn. lia.
Qed.

(** C36: every instruction keeps the type of a frame.  A frame has 1024 cells, a stack
    pointer among them, memory that is a whole number of words paid for out of the gas of
    the message and starts where it may ([memory_start]: within the 8 MB limit with MIP-3;
    without, after the memory of at most as many callers as the depth says, who together
    with this message spend at most two billion gas), and a program counter that the padding
    covers.  Started inside the code on such a frame, an instruction reads and writes nothing
    outside it, fails no assertion, those on the callers' memory when memory grows included,
    and leaves a frame of the same type with strictly less gas; if it ends the execution with
    a result, the context is of its type too.  This holds for all 256 opcodes, unknown ones
    included. *)
Theorem instruction_keeps_type t keccak256 code ic op d st G f :
  supported t = true -> new_intercode code = Some ic -> frame_ok t d st true G code f -> f_ip f < zlen code ->
  safe t d st true (exit_ok t d st true G) (fun p => frame_ok t d st true G code p.2 /\ f_gas p.2 < f_gas f)
    (interpreter.instruction_table t keccak256 ic op f).
Proof. intros Hs Hic. by apply (instruction_ok t Hs d st true G keccak256 code ic Hic op). Qed.

(** C4: the interpreter is safe.  On code of at most 2^20 - 1 bytes, and for a frame whose
    memory starts where it may ([memory_start]: within the 8 MB limit with MIP-3; without,
    after the memory of at most 1024 callers who paid for it out of two billion gas with the
    message's own), it never reads or writes outside its stack, memory or code, never fails
    an assertion, the one on the callers' memory ([parent_total_size]) included, and never
    runs out of the fuel of its gas: whatever the host answers within its contract, the frame
    ends with a result that keeps at most the gas of the message.  On the way it sends only
    messages one level deeper and not below level 1024, with gas of its own and memory that
    again starts where it may. *)
Theorem interpreter_safe t keccak256 ctx msg code :
  supported t = true -> zlen code <= code_size_max -> 0 <= gas msg ->
  memory_start t (depth msg) (memory_offset msg) (gas msg) ->
  safe_prog t (depth msg) (Z.testbit (flags msg) EVMC_STATIC) true (gas msg) (execute_intercode t keccak256 ctx msg code).
Proof.
  intros Hs Hc Hg Hf. eapply execute_safe; try done; [|by intros _]. unfold new_intercode. by rewrite (proj2 (Z.leb_le _ _) Hc).
Qed.

(** Programs that ask the host for no change of state, and send only static messages
    without value that create nothing. *)
Fixpoint read_only (p : vm_prog) : Prop :=
  match p with
  | VmDone _ | VmAbort => True
  | VmHost o k =>
      match o with
      | HSetStorage _ _ _ | HSelfdestruct _ _ | HEmitLog _ | HSetTransientStorage _ _ _ => False
      | HCall m => Z.testbit (flags m) EVMC_STATIC = true /\ is_create (kind m) = false /\
          (kind m = EVMC_CALL -> uval (value m) = 0)
      | _ => True
      end /\ forall x, reply_ok o x -> read_only (k x)
  end.

Lemma safe_read_only t d strict g p : safe_prog t d true strict g p -> read_only p.
Proof.
  induction p as [r| |X o k IH]; cbn [safe_prog read_only]; try done. intros [Ho Hk]. split; [|by intros x Hx; apply IH, Hk].
  destruct o; cbn [host_ok] in Ho; try done. by apply Ho.
Qed.

Lemma safe_obeys t d st g p : safe_prog t d st false g p -> obeys d g p.
Proof.
  induction p as [r| |X o k IH]; cbn [safe_prog obeys]; try done. intros [Ho Hk].
  destruct o; cbn [host_ok reply_ok] in *; try (by intros x Hx; apply IH, Hk).
  destruct Ho as (H1 & H2 & H3 & _). split_and!; try done. intros x Hx. by apply IH, Hk.
Qed.

(** C33: a frame that runs with the static flag changes nothing: the interpreter asks the
    host for no write to storage or transient storage, no log and no self-destruction,
    and every message it sends is static too, creates nothing, and a CALL carries no value. *)
Theorem static_frame_read_only t keccak256 ctx msg code :
  supported t = true -> 0 <= gas msg -> Z.testbit (flags msg) EVMC_STATIC = true ->
  read_only (execute_intercode t keccak256 ctx msg code).
Proof.
  intros Hs Hg Hst. destruct (new_intercode code) as [ic|] eqn:E; [|unfold execute_intercode; by rewrite E].
  eapply safe_read_only. rewrite <- Hst. eapply (execute_safe t keccak256 ctx false); try done.
Qed.

(** C34: the interpreter is a virtual machine as the host expects it ([WellBehaved]): at
    every supported revision, for every message and code, it obeys the call depth limit,
    sends gas it has, returns at most the gas it was given if its callees do, claims
    refunds only on success and keeps gas only on success or revert. *)
Theorem interpreter_well_behaved t keccak256 ctx :
  supported t = true -> WellBehaved (execute_intercode t keccak256 ctx).
Proof.
  intros Hs. constructor. intros msg code Hg.
  destruct (new_intercode code) as [ic|] eqn:E; [|unfold execute_intercode; by rewrite E].
  eapply safe_obeys, (execute_safe t keccak256 ctx false); try done.
Qed.

(** ** Running with a host *)

(** A host with a state of its own. *)
Fixpoint run_answers {S} (answer : S -> forall X, hostE X -> X * S) (s : S) (p : vm_prog) : option Result :=
  match p with
  | VmDone r => Some r
  | VmAbort => None
  | VmHost o k => let '(x, s') := answer s _ o in run_answers answer s' (k x)
  end.

(** C35: execution ends with a result.  For a frame whose memory starts where it may
    ([memory_start], as in the first frame of a transaction of at most two billion gas), and
    against any host that answers the messages a frame may send with at most their gas, code
    of at most 2^20 - 1 bytes runs to a result, which returns at most the gas of the message,
    and none unless it succeeded or reverted. *)
Theorem interpreter_returns {S} (answer : S -> forall X, hostE X -> X * S) (s : S) t keccak256 ctx msg code :
  (forall s X (o : hostE X), host_ok t (depth msg) (Z.testbit (flags msg) EVMC_STATIC) true o ->
    reply_ok o (fst (answer s X o))) ->
  supported t = true -> zlen code <= code_size_max -> 0 <= gas msg ->
  memory_start t (depth msg) (memory_offset msg) (gas msg) ->
  exists r, run_answers answer s (execute_intercode t keccak256 ctx msg code) = Some r /\
    0 <= r_gas_left r <= gas msg /\ (keeps_gas (r_status r) = true \/ r_gas_left r = 0).
Proof.
  intros Ha Hs Hc Hg Hf.
  assert (Hp : safe_prog t (depth msg) (Z.testbit (flags msg) EVMC_STATIC) true (gas msg) (execute_intercode t keccak256 ctx msg code)).
  { eapply execute_safe; try done; [|by intros _]. unfold new_intercode. by rewrite (proj2 (Z.leb_le _ _) Hc). }
  revert s Hp. generalize (execute_intercode t keccak256 ctx msg code).
  induction v as [r| |X o k IH]; intros s; cbn [safe_prog run_answers]; [|done|].
  - intros [[H1 _] H2]. by exists r.
  - intros [Ho Hk]. destruct (answer s X o) as [x s'] eqn:E. apply IH, Hk. specialize (Ha s X o Ho). by rewrite E in Ha.
Qed.

(** ** A concrete message *)

(** PUSH1 4 PUSH1 3 ADD PUSH1 0 SSTORE, and the same for a static frame. *)
Definition interp_code : byte_string := map (fun z => #z) [0x60; 4; 0x60; 3; 0x01; 0x60; 0; 0x55].
Definition interp_ctx : evmc_tx_context := mk_tx_context #0 #0 #0 5 0 0 #0 #0 #0 #0 [].
Definition interp_msg (flags : Z) : Message := mk_message EVMC_CALL flags 0 100000 #1 #2 [] #0 #0 #1 0.
Definition interp_traits : Traits := MonadTraits MONAD_NINE.

Definition interp_answer (s : unit) (X : Type) (o : hostE X) : X * unit :=
  (match o in hostE X return X with
   | HAccountExists _ => true | HGetStorage _ _ => #0 | HSetStorage _ _ _ => EVMC_STORAGE_ADDED
   | HGetBalance _ => #0 | HGetCodeSize _ => 0%nat | HGetCodeHash _ => #0 | HCopyCode _ _ _ => []
   | HSelfdestruct _ _ => true | HEmitLog _ => tt | HAccessAccount _ => EVMC_ACCESS_COLD
   | HAccessStorage _ _ => EVMC_ACCESS_COLD | HGetTransientStorage _ _ => #0 | HSetTransientStorage _ _ _ => tt
   | HGetBlockHash _ => #0 | HCall m => simple_result Success 0
   end, tt).

Lemma interp_fits : memory_start interp_traits 0 (memory_offset (interp_msg 0)) (gas (interp_msg 0)).
Proof. by apply memory_start_top. Qed.

(** A callee at a revision without MIP-3, whose caller has ten words of memory. *)
Definition callee_traits : Traits := EvmTraits MONAD_ETH_CANCUN.
Definition callee_msg : Message := mk_message EVMC_CALL 0 1 100000 #1 #2 [] #0 #0 #1 320.

Lemma callee_fits : memory_start callee_traits 1 (memory_offset callee_msg) (gas callee_msg).
Proof. exists [10]. split_and!; try (vm_compute; congruence). by repeat constructor. Qed.

Lemma interpreter_safe_witness :
  safe_prog callee_traits 1 false true 100000 (execute_intercode callee_traits (fun _ => #0) interp_ctx callee_msg interp_code).
Proof.
  exact (interpreter_safe callee_traits (fun _ => #0) interp_ctx callee_msg interp_code eq_refl
    ltac:(vm_compute; discriminate) ltac:(vm_compute; discriminate) callee_fits).
Defined.

Lemma instruction_keeps_type_witness : exists ic, new_intercode interp_code = Some ic /\
  let f := interpreter.initial_frame (context_from interp_ctx (interp_msg 0) interp_code) in
  safe interp_traits 0 false true (exit_ok interp_traits 0 false true 100000)
    (fun p => frame_ok interp_traits 0 false true 100000 interp_code p.2 /\ f_gas p.2 < f_gas f)
    (interpreter.instruction_table interp_traits (fun _ => #0) ic 0x60 f).
Proof.
  eexists. split; [reflexivity|]. eapply (instruction_keeps_type interp_traits (fun _ => #0) interp_code _ 0x60 0 false 100000).
  - reflexivity.
  - reflexivity.
  - apply (initial_frame_ok interp_traits interp_ctx true (interp_msg 0) interp_code); [vm_compute; discriminate|intros _; apply interp_fits].
  - vm_compute. reflexivity.
Defined.

Lemma static_frame_read_only_witness :
  read_only (execute_intercode interp_traits (fun _ => #0) interp_ctx (interp_msg 1) interp_code).
Proof.
  exact (static_frame_read_only interp_traits (fun _ => #0) interp_ctx (interp_msg 1) interp_code eq_refl
    ltac:(vm_compute; discriminate) eq_refl).
Defined.

Lemma interpreter_well_behaved_witness :
  supported interp_traits = true /\ WellBehaved (execute_intercode interp_traits (fun _ => #0) interp_ctx).
Proof. split; [reflexivity|]. apply interpreter_well_behaved. reflexivity. Defined.

Lemma interp_answers s X (o : hostE X) : host_ok interp_traits 0 false true o -> reply_ok o (fst (interp_answer s X o)).
Proof.
  destruct o; try done. intros (_ & _ & Hg & _). unfold reply_ok, returns_ok. cbn. split; [lia|by left].
Qed.

Lemma interpreter_returns_witness : exists r,
  run_answers interp_answer tt (execute_intercode interp_traits (fun _ => #0) interp_ctx (interp_msg 0) interp_code) = Some r /\
  0 <= r_gas_left r <= 100000.
Proof.
  destruct (interpreter_returns interp_answer tt interp_traits (fun _ => #0) interp_ctx (interp_msg 0) interp_code
    interp_answers eq_refl ltac:(vm_compute; discriminate) ltac:(vm_compute; discriminate) interp_fits) as (r & E & Hg & _).
  exists r. exact (conj E Hg).
Defined.

(** The run: 12 gas for the instructions before SSTORE, 28100 for it. *)
Lemma interp_run : option_map (fun r => (r_status r, r_gas_left r))
  (run_answers interp_answer tt (execute_intercode interp_traits (fun _ => #0) interp_ctx (interp_msg 0) interp_code))
  = Some (Success, 71888).
Proof. vm_compute. reflexivity. Qed.
