(* ===== verification/InterpreterExec.v ===== *)
(** * What the instructions compute

    The instructions that only use the stack, compared with a machine on a list of words
    ([stack_effect]): arithmetic, comparison, bits, PUSH, POP, DUP and SWAP, each defined
    there by its mathematical meaning.  The interpreter works on an array of cells with a
    top pointer that moves by the table of opcodes; the theorem says that it computes the
    same.  And memory: what MSTORE writes, MLOAD reads. *)
From S2P Require Import Prelude Prog Abi StakingVars Transaction Rlp State3 StakingContract UInt256 UInt256Div UInt256Ops Opcodes Intercode Evm EvmMessages ExecuteTransaction EvmRuntime Interpreter InterpreterSafe.

(** ** The meaning of the instructions *)
Definition word_of (b : bool) : u256 := if b then #1 else #0.

(** Division by zero gives zero. *)
Definition guarded (b : u256) (z : Z) : u256 := if b =? 0 then #0 else #z.

Definition unary_op (op : EvmOpCode) : option (u256 -> u256) :=
  match op with
  | ISZERO => Some (fun a : u256 => word_of (a =? 0))
  | NOT => Some (fun a : u256 => #(Z.lnot a))
  | CLZ => Some (fun a : u256 => #(if a =? 0 then 256 else 255 - Z.log2 a))
  | _ => None
  end.

Definition binary_op (op : EvmOpCode) : option (u256 -> u256 -> u256) :=
  match op with
  | ADD => Some (fun a b : u256 => #(a + b))
  | MUL => Some (fun a b : u256 => #(a * b))
  | SUB => Some (fun a b : u256 => #(a - b))
  | DIV => Some (fun a b : u256 => guarded b (a / b))
  | SDIV => Some (fun a b : u256 => guarded b (Z.quot (s256 a) (s256 b)))
  | MOD => Some (fun a b : u256 => guarded b (a mod b))
  | SMOD => Some (fun a b : u256 => guarded b (Z.rem (s256 a) (s256 b)))
  | EXP => Some (fun a e : u256 => #(a ^ e))
  | SIGNEXTEND => Some (fun b x : u256 => if b <? 31 then #(signed (8 * (b + 1)) x) else x)
  | LT => Some (fun a b : u256 => word_of (a <? b))
  | GT => Some (fun a b : u256 => word_of (b <? a))
  | SLT => Some (fun a b : u256 => word_of (s256 a <? s256 b))
  | SGT => Some (fun a b : u256 => word_of (s256 b <? s256 a))
  | EQ => Some (fun a b : u256 => word_of (a =? b))
  | AND => Some (fun a b : u256 => #(Z.land a b))
  | OR => Some (fun a b : u256 => #(Z.lor a b))
  | XOR => Some (fun a b : u256 => #(Z.lxor a b))
  | BYTE => Some (fun i x : u256 => if i <? 32 then #((x / 2 ^ (8 * (31 - i))) mod 256) else #0)
  | SHL => Some (fun k x : u256 => #(x * 2 ^ k))
  | SHR => Some (fun k x : u256 => #(x / 2 ^ k))
  | SAR => Some (fun k x : u256 => #(s256 x / 2 ^ k))
  | _ => None
  end.

Definition ternary_op (op : EvmOpCode) : option (u256 -> u256 -> u256 -> u256) :=
  match op with
  | ADDMOD => Some (fun a b n : u256 => guarded n ((a + b) mod n))
  | MULMOD => Some (fun a b n : u256 => guarded n ((a * b) mod n))
  | _ => None
  end.

(** [imm] is the data of a PUSH. *)
Definition stack_op (imm : u256) (op : Z) (s : list u256) : option (list u256) :=
  if op =? POP then match s with _ :: r => Some r | [] => None end
  else if is_push_opcode op then Some (imm :: s)
  else if is_dup_opcode op then x ← s !! Z.to_nat (op - DUP1); Some (x :: s)
  else if is_swap_opcode op then
    let n := Z.to_nat (op - SWAP1 + 1) in
    a ← s !! 0%nat; b ← s !! n; Some (<[n := a]> (<[0%nat := b]> s))
  else None.

(** The stack after [op]; [None] if [op] is not one of these or the stack is too short. *)
Definition stack_effect (imm : u256) (op : EvmOpCode) (s : list u256) : option (list u256) :=
  match unary_op op, binary_op op, ternary_op op with
  | Some g, _, _ => match s with a :: r => Some (g a :: r) | _ => None end
  | _, Some g, _ => match s with a :: b :: r => Some (g a b :: r) | _ => None end
  | _, _, Some g => match s with a :: b :: n :: r => Some (g a b n :: r) | _ => None end
  | None, None, None => stack_op imm op s
  end.

Definition push_width (op : Z) : Z := if is_push_opcode op then get_push_opcode_index op else 0.

(** The bytes after the opcode at [ip]; the code goes on with zeros. *)
Definition immediate (code : byte_string) (ip : Z) (op : Z) : u256 :=
  #(bytes_val (code_from code (S (Z.to_nat ip)) (Z.to_nat (push_width op)))).

(** EXP costs 50 for each byte of the exponent. *)
Definition byte_count (e : Z) : Z := if e =? 0 then 0 else Z.log2 e / 8 + 1.

Definition dynamic_cost (op : EvmOpCode) (s : list u256) : Z :=
  match op, s with EXP, _ :: e :: _ => 50 * byte_count e | _, _ => 0 end.

Lemma byte_count_eq (e : u256) : count_significant_bytes e = byte_count e.
Proof.
  pose proof (count_significant_bytes_spec e) as (H1 & H2 & H3). unfold byte_count. pose proof (uword_range e).
  destruct (Z.eqb_spec e 0) as [E|E].
  - assert (e = #0) as -> by (apply uval_inj; by rewrite uval_wrap_0). reflexivity.
  - destruct H3 as [H3 H4]; [intros ->; by rewrite uval_wrap_0 in E|]. set (c := count_significant_bytes e) in *.
    assert (8 * (c - 1) <= Z.log2 e) by (apply Z.log2_le_pow2; lia).
    assert (Z.log2 e < 8 * c) by (apply Z.log2_lt_pow2; lia).
    assert (Z.log2 e / 8 = c - 1); [|lia]. symmetry. apply (Z.div_unique _ 8 _ (Z.log2 e - 8 * (c - 1))); lia.
Qed.

Lemma countl_zero_eq (a : u256) : countl_zero a = if a =? 0 then 256 else 255 - Z.log2 a.
Proof.
  pose proof (countl_zero_spec a) as (H1 & H2 & H3). pose proof (uword_range a).
  destruct (Z.eqb_spec a 0) as [E|E]; [apply H2, uval_inj; by rewrite uval_wrap_0|].
  assert (2 ^ 255 <= a * 2 ^ countl_zero a < 2 ^ 256) as [H4 H5] by (apply H3; intros ->; by rewrite uval_wrap_0 in E).
  set (r := countl_zero a) in *. assert (r < 256).
  { destruct (Z.le_gt_cases 256 r); [|done]. assert (2 ^ 256 <= 2 ^ r) by (apply Z.pow_le_mono_r; lia). nia. }
  assert (Z.log2 (a * 2 ^ r) = 255) as Hl by (apply Z.log2_unique; [lia|]; change (Z.succ 255) with 256; lia).
  rewrite Z.log2_mul_pow2 in Hl by lia. lia.
Qed.

(** ** The stack of a frame, top first *)
Definition stack_of (f : Frame) : list u256 := rev (take (Z.to_nat (f_sp f)) (f_cells f)).

Record stack_ok (f : Frame) : Prop := mk_stack_ok { so_cells : length (f_cells f) = 1024%nat; so_sp : 0 <= f_sp f <= 1024 }.

Lemma length_stack f : stack_ok f -> Z.of_nat (length (stack_of f)) = f_sp f.
Proof. intros [H1 H2]. unfold stack_of. rewrite length_rev, length_take. lia. Qed.

Lemma peek_ret f k x : stack_ok f -> 0 <= k -> stack_of f !! Z.to_nat k = Some x -> interpreter.peek k f = Ret (x, f).
Proof.
  intros Hf H0 Hx. pose proof (lookup_lt_Some _ _ _ Hx) as Hk. pose proof (length_stack f Hf) as Hl. destruct Hf as [H1 H2].
  unfold interpreter.peek, mbnd, mget. cbn [rt_bind fst snd]. rewrite (proj2 (Z.leb_le 0 _)) by lia.
  unfold stack_of in Hx. rewrite rev_alt in Hx. fold (reverse (take (Z.to_nat (f_sp f)) (f_cells f))) in Hx. rewrite reverse_lookup in Hx by (rewrite length_take; lia).
  rewrite length_take, lookup_take_lt in Hx by lia.
  replace (Z.to_nat (f_sp f - 1 - k)) with (Z.to_nat (f_sp f) `min` length (f_cells f) - S (Z.to_nat k))%nat by lia.
  by rewrite Hx.
Qed.

(** Writing [x] at depth [k] and moving the top there. *)
Definition put (k : Z) (x : u256) (f : Frame) : Frame := with_cells (<[Z.to_nat (f_sp f - 1 - k) := x]> (f_cells f)) f.

Lemma poke_ret f k x : stack_ok f -> 0 <= f_sp f - 1 - k < 1024 -> interpreter.poke k x f = Ret (tt, put k x f).
Proof.
  intros [H1 H2] Hk. unfold interpreter.poke, mbnd, mget. cbn [rt_bind fst snd]. unfold zlen. rewrite H1.
  rewrite (proj2 (Z.leb_le 0 _)), (proj2 (Z.ltb_lt _ _)) by lia. done.
Qed.

Lemma stack_put f k x g i : stack_ok f -> 0 <= f_sp f - 1 - k < 1024 -> -1 <= k ->
  stack_of (with_ip i (with_sp (f_sp f - k) (with_f_gas g (put k x f)))) = x :: drop (Z.to_nat (k + 1)) (stack_of f).
Proof.
  intros Hf Hk Hk1. pose proof (length_stack f Hf) as Hl. destruct Hf as [H1 H2]. unfold stack_of, put.
  cbn [with_ip with_sp with_f_gas with_cells f_sp f_cells].
  set (n := Z.to_nat (f_sp f - 1 - k)). replace (Z.to_nat (f_sp f - k)) with (S n) by lia.
  rewrite (take_S_r _ _ x) by (apply list_lookup_insert_eq; lia). rewrite rev_app_distr. cbn [rev app].
  rewrite take_insert_ge by lia. f_equal. rewrite skipn_rev. f_equal. rewrite length_take, take_take. f_equal. lia.
Qed.

(** ** One instruction *)
Section exec.
Context (t : Traits) (keccak256 : byte_string -> bytes32) (ic : Intercode).
Import interpreter.

Lemma check_ret op f : valid t op -> stack_ok f -> min_gas (opcode_table t op) <= f_gas f ->
  min_stack (osaka op) <= f_sp f -> f_sp f + (stack_increase (osaka op) - min_stack (osaka op)) <= 1024 ->
  check_requirements t op f = Ret (tt, with_f_gas (f_gas f - min_gas (opcode_table t op)) f).
Proof.
  intros [Hop Hk] [_ Hsp] Hg Hms Hsi. destruct (opcode_row t op Hop Hk) as (E1 & E2 & _ & Hg0).
  pose proof (row_ranges op Hop) as [R1 R2]. unfold check_requirements. rewrite E1, E2.
  set (g := min_gas (opcode_table t op)) in *. set (ms := min_stack (osaka op)) in *. set (si := stack_increase (osaka op)) in *.
  assert ((if 0 <? g then mbnd (mmod (fun f => with_f_gas (f_gas f - g) f)) (fun _ => mbnd mget (fun f =>
      if f_gas f <? 0 then exit StOutOfGas else mret tt)) else mret tt) f = Ret (tt, with_f_gas (f_gas f - g) f)) as Hgas.
  { destruct (Z.ltb_spec 0 g).
    - unfold mbnd, mmod, mget. cbn [rt_bind fst snd]. cbn [with_f_gas f_gas]. by rewrite (proj2 (Z.ltb_ge _ 0)) by lia.
    - replace (f_gas f - g) with (f_gas f) by lia. by destruct f. }
  unfold mbnd at 1. rewrite Hgas. cbn [rt_bind fst snd]. clear Hgas. destruct ((ms =? 0) && (si =? 0)); [done|].
  unfold mbnd, mget, massert. cbn [rt_bind fst snd]. cbn [with_f_gas f_sp]. rewrite (proj2 (Z.leb_le (f_sp f) 1024)) by lia.
  cbn [mret rt_bind fst snd]. rewrite (proj2 (Z.ltb_ge (f_sp f) ms)) by lia. rewrite andb_false_r. cbn [mret rt_bind fst snd].
  destruct (0 <? si); [|done]. rewrite (proj2 (Z.ltb_ge (1024 - (si - ms)) (f_sp f))) by lia. by rewrite andb_false_r.
Qed.

(** The frame [f'] has stack [s], costs [g] more, and continues [n] bytes later. *)
Record moved (f : Frame) (s : list u256) (g n : Z) (f' : Frame) : Prop := mk_moved {
  mv_stack : stack_of f' = s; mv_gas : f_gas f' = f_gas f - g; mv_ip : f_ip f' = f_ip f + n;
  mv_env : env (f_ctx f') = env (f_ctx f); mv_memory : memory (f_ctx f') = memory (f_ctx f);
  mv_ok : stack_ok f' }.

Lemma put_moved f k x c g n : stack_ok f -> 0 <= f_sp f - 1 - k < 1024 -> -1 <= k ->
  env c = env (f_ctx f) -> memory c = memory (f_ctx f) ->
  moved f (x :: drop (Z.to_nat (k + 1)) (stack_of f)) g n
    (with_ip (f_ip f + n) (with_sp (f_sp f - k) (with_f_gas (f_gas f - g) (put k x (with_ctx c f))))).
Proof.
  intros Hf Hk Hk1 He Hm. constructor; try done.
  - by rewrite <- (stack_put f k x (f_gas f - g) (f_ip f + n) Hf Hk Hk1).
  - destruct Hf as [H1 H2]. constructor; cbn [with_ip with_sp with_f_gas put with_cells with_ctx f_cells f_sp]; [by rewrite length_insert|lia].
Qed.

(** An opcode that takes [n] words and leaves one. *)
Definition takes (op : Z) (n : Z) : Prop := valid t op /\ min_stack (osaka op) = n /\ stack_increase (osaka op) = 1.

Lemma takes_delta op n : takes op n -> stack_delta t op = 1 - n.
Proof. intros ([Hop Hk] & H1 & H2). destruct (opcode_row t op Hop Hk) as (E1 & E2 & _). unfold stack_delta. lia. Qed.

Lemma check_takes op n f : takes op n -> 0 <= n -> stack_ok f -> min_gas (opcode_table t op) <= f_gas f ->
  n <= f_sp f -> (n = 0 -> f_sp f < 1024) ->
  check_requirements t op f = Ret (tt, with_f_gas (f_gas f - min_gas (opcode_table t op)) f).
Proof. intros (Hv & H1 & H2) Hn Hf Hg Hs H0. apply check_ret; try done; pose proof (so_sp _ Hf); lia. Qed.

Lemma stack_ok_gas f g : stack_ok f -> stack_ok (with_f_gas g f).
Proof. by intros [? ?]. Qed.
Lemma stack_ok_ctx f c : stack_ok f -> stack_ok (with_ctx c f).
Proof. by intros [? ?]. Qed.

Lemma with_ctx_id f : with_ctx (f_ctx f) f = f.
Proof. by destruct f. Qed.

Ltac run := unfold mbnd, mget, mmod, mret; cbn [rt_bind fst snd].

Lemma exec_binary op g f a b r : takes op 2 -> stack_ok f -> min_gas (opcode_table t op) <= f_gas f ->
  stack_of f = a :: b :: r ->
  exists f', mbnd (check_requirements t op) (fun _ => mbnd (peek 0) (fun a => mbnd (peek 1) (fun b =>
      mbnd (poke 1 (g a b)) (fun _ => next t op)))) f = Ret (tt, f') /\
    moved f (g a b :: r) (min_gas (opcode_table t op)) 1 f'.
Proof.
  intros Ht Hf Hg Es. pose proof (length_stack f Hf) as Hl. rewrite Es in Hl. cbn [length] in Hl. pose proof (so_sp _ Hf).
  eexists. split.
  - run. rewrite (check_takes op 2) by (done || lia). cbn [rt_bind fst snd]. set (f1 := with_f_gas _ f).
    pose proof (stack_ok_gas f (f_gas f - min_gas (opcode_table t op)) Hf : stack_ok f1) as Hf1. pose proof (Es : stack_of f1 = _) as Es1.
    rewrite (peek_ret f1 0 a) by (done || by rewrite Es1). cbn [rt_bind fst snd]. rewrite (peek_ret f1 1 b) by (done || by rewrite Es1). cbn [rt_bind fst snd].
    rewrite (poke_ret f1 1) by (done || cbn; lia). cbn [rt_bind fst snd]. unfold next. run. rewrite (takes_delta op 2) by done.
    reflexivity.
  - replace r with (drop (Z.to_nat (1 + 1)) (stack_of f)) by (by rewrite Es).
    exact (put_moved f 1 (g a b) (f_ctx f) _ 1 Hf ltac:(lia) ltac:(lia) eq_refl eq_refl).
Qed.

Lemma exec_unary op g f a r : takes op 1 -> stack_ok f -> min_gas (opcode_table t op) <= f_gas f ->
  stack_of f = a :: r ->
  exists f', mbnd (check_requirements t op) (fun _ => mbnd (peek 0) (fun a =>
      mbnd (poke 0 (g a)) (fun _ => next t op))) f = Ret (tt, f') /\
    moved f (g a :: r) (min_gas (opcode_table t op)) 1 f'.
Proof.
  intros Ht Hf Hg Es. pose proof (length_stack f Hf) as Hl. rewrite Es in Hl. cbn [length] in Hl. pose proof (so_sp _ Hf).
  eexists. split.
  - run. rewrite (check_takes op 1) by (done || lia). cbn [rt_bind fst snd]. set (f1 := with_f_gas _ f).
    pose proof (stack_ok_gas f (f_gas f - min_gas (opcode_table t op)) Hf : stack_ok f1) as Hf1. pose proof (Es : stack_of f1 = _) as Es1.
    rewrite (peek_ret f1 0 a) by (done || by rewrite Es1). cbn [rt_bind fst snd].
    rewrite (poke_ret f1 0) by (done || cbn; lia). cbn [rt_bind fst snd]. unfold next. run. rewrite (takes_delta op 1) by done.
    reflexivity.
  - replace r with (drop (Z.to_nat (0 + 1)) (stack_of f)) by (by rewrite Es).
    exact (put_moved f 0 (g a) (f_ctx f) _ 1 Hf ltac:(lia) ltac:(lia) eq_refl eq_refl).
Qed.

(** *** Runtime calls *)
Fixpoint app_args {R} (n : nat) (fn : runtime_fn n R) (l : list u256) : option (M Context R) :=
  match n return runtime_fn n R -> option (M Context R) with
  | O => fun fn => Some fn
  | S n' => fun fn => match l with a :: l' => app_args n' (fn a) l' | [] => None end
  end fn.

Lemma apply_args_ret {R} n : forall k (fn : runtime_fn n R) f m, stack_ok f -> 0 <= k ->
  app_args n fn (drop (Z.to_nat k) (stack_of f)) = Some m -> apply_args n k fn f = Ret (m, f).
Proof.
  induction n as [|n IH]; intros k fn f m Hf Hk Hm; cbn [app_args apply_args] in *; [by simplify_eq|].
  destruct (drop (Z.to_nat k) (stack_of f)) as [|a l] eqn:E; [done|]. run.
  rewrite (peek_ret f k a); [|done|done|].
  - cbn [rt_bind fst snd]. apply IH; [done|lia|]. replace (Z.to_nat (k + 1)) with (Z.to_nat k + 1)%nat by lia.
    rewrite <- drop_drop, E. done.
  - replace (Z.to_nat k) with (Z.to_nat k + 0)%nat by lia. by rewrite <- lookup_drop, E.
Qed.

(** [m] returns [x] and only spends [g] gas. *)
Definition spends (m : M Context u256) (x : u256) (g : Z) : Prop := forall c, g <= gas_remaining c ->
  exists c', m c = Ret (x, c') /\ gas_remaining c' = gas_remaining c - g /\ env c' = env c /\ memory c' = memory c.

Lemma exec_runtime_call op n (fn : runtime_fn n u256) f m x g : takes op (Z.of_nat n) -> (1 <= n)%nat -> stack_ok f ->
  min_gas (opcode_table t op) + g <= f_gas f -> 0 <= g -> (n <= length (stack_of f))%nat ->
  app_args n fn (stack_of f) = Some m -> spends m x g ->
  exists f', mbnd (checked_runtime_call t op n fn) (fun _ => next t op) f = Ret (tt, f') /\
    moved f (x :: drop n (stack_of f)) (min_gas (opcode_table t op) + g) 1 f'.
Proof.
  intros Ht Hn Hf Hg Hg0 Hlen Hm Hx. pose proof (length_stack f Hf) as Hl. pose proof (so_sp _ Hf).
  set (c1 := with_gas_remaining (f_gas f - min_gas (opcode_table t op)) (f_ctx f)).
  destruct (Hx c1) as (c2 & Em & Eg & Ee & Emem); [cbn; lia|]. eexists. split.
  - unfold checked_runtime_call, call_runtime, call_runtime_void, lift. run.
    rewrite (check_takes op (Z.of_nat n)) by (done || lia). cbn [rt_bind fst snd].
    rewrite (apply_args_ret n 0 fn _ m) by (done || by apply stack_ok_gas). cbn [rt_bind fst snd].
    cbn [with_ctx with_f_gas f_ctx f_gas]. fold c1. rewrite Em. cbn [rt_bind fst snd].
    rewrite poke_ret; [|by repeat first [apply stack_ok_gas|apply stack_ok_ctx]|cbn; lia]. cbn [rt_bind fst snd]. unfold next. run.
    rewrite (takes_delta op (Z.of_nat n)) by done. reflexivity.
  - pose proof (put_moved f (Z.of_nat n - 1) x c2 (min_gas (opcode_table t op) + g) 1 Hf ltac:(lia) ltac:(lia) Ee Emem) as Hp.
    replace (Z.to_nat (Z.of_nat n - 1 + 1)) with n in Hp by lia.
    replace (f_sp f - (Z.of_nat n - 1)) with (f_sp f + (1 - Z.of_nat n)) in Hp by lia.
    replace (f_gas f - (min_gas (opcode_table t op) + g)) with (gas_remaining c2) in Hp by (rewrite Eg; cbn; lia).
    exact Hp.
Qed.

Lemma spends_ret x : spends (mret x) x 0.
Proof. intros c _. exists c. split_and!; try done. lia. Qed.

Lemma spends_guarded (b : u256) o z : (uval b <> 0 -> o = Some #z) ->
  spends (if negb (to_bool b) then mret #0 else mopt o) (guarded b z) 0.
Proof.
  intros Ho. rewrite to_bool_eq, negb_involutive. unfold guarded.
  destruct (Z.eqb_spec b 0); [apply spends_ret|]. rewrite (Ho n). apply spends_ret.
Qed.

Lemma spends_exp a e : spends (runtime.exp a e) #(a ^ e) (50 * byte_count e).
Proof.
  intros c Hg. unfold runtime.exp, runtime.exp_dynamic_gas_cost_multiplier, context.deduct_gas. run.
  cbn [with_gas_remaining gas_remaining]. rewrite byte_count_eq, exp_eq, (Z.mul_comm (byte_count e)).
  rewrite (proj2 (Z.ltb_ge _ 0)) by lia. cbn [rt_bind fst snd]. eexists. split; [reflexivity|done].
Qed.

(** *** Stack manipulation *)
Lemma stack_put_same f k x : stack_ok f -> 0 <= k < f_sp f -> stack_of (put k x f) = <[Z.to_nat k := x]> (stack_of f).
Proof.
  intros [H1 H2] Hk. unfold stack_of, put. cbn [with_cells f_cells f_sp]. rewrite take_insert_lt by lia.
  rewrite !rev_alt. fold (reverse (take (Z.to_nat (f_sp f)) (f_cells f))).
  match goal with |- rev_append ?l [] = _ => fold (reverse l) end.
  apply list_eq. intros i. destruct (decide (i < Z.to_nat (f_sp f))%nat) as [Hi|Hi].
  - rewrite reverse_lookup by (rewrite length_insert, length_take; lia). rewrite length_insert, length_take.
    destruct (decide (i = Z.to_nat k)) as [->|Hne].
    + rewrite list_lookup_insert_eq by (rewrite length_reverse, length_take; lia).
      replace (Z.to_nat (f_sp f) `min` length (f_cells f) - S (Z.to_nat k))%nat with (Z.to_nat (f_sp f - 1 - k)) by lia.
      apply list_lookup_insert_eq. rewrite length_take. lia.
    + rewrite !list_lookup_insert_ne by lia. rewrite reverse_lookup by (rewrite length_take; lia). by rewrite length_take.
  - rewrite !lookup_ge_None_2; [done| |]; rewrite ?length_insert, ?length_reverse, ?length_insert, ?length_take; lia.
Qed.

Lemma stack_ok_put f k x : stack_ok f -> stack_ok (put k x f).
Proof. intros [H1 H2]. constructor; [|done]. cbn [put with_cells f_cells]. by rewrite length_insert. Qed.

Lemma exec_dup N f x : (1 <= N <= 16)%nat -> valid t (DUP1 + (Z.of_nat N - 1)) ->
  min_stack (osaka (DUP1 + (Z.of_nat N - 1))) = Z.of_nat N ->
  stack_increase (osaka (DUP1 + (Z.of_nat N - 1))) = Z.of_nat N + 1 -> stack_ok f ->
  min_gas (opcode_table t (DUP1 + (Z.of_nat N - 1))) <= f_gas f -> stack_of f !! (N - 1)%nat = Some x -> f_sp f < 1024 ->
  exists f', dup t N f = Ret (tt, f') /\
    moved f (x :: stack_of f) (min_gas (opcode_table t (DUP1 + (Z.of_nat N - 1)))) 1 f'.
Proof.
  intros HN Hv Hms Hsi Hf Hg Hx Hsp. set (op := DUP1 + (Z.of_nat N - 1)) in *. pose proof (length_stack f Hf) as Hl.
  pose proof (lookup_lt_Some _ _ _ Hx) as Hlt. destruct (opcode_row t op (proj1 Hv) (proj2 Hv)) as (E1 & E2 & _).
  pose proof (so_sp _ Hf). eexists. split.
  - unfold dup. fold op. run. rewrite check_ret by (done || lia). cbn [rt_bind fst snd]. set (f1 := with_f_gas _ f).
    pose proof (stack_ok_gas f (f_gas f - min_gas (opcode_table t op)) Hf : stack_ok f1) as Hf1.
    rewrite (peek_ret f1 (Z.of_nat N - 1) x); [|done|lia|].
    2:{ replace (Z.to_nat (Z.of_nat N - 1)) with (N - 1)%nat by lia. exact Hx. }
    cbn [rt_bind fst snd]. unfold push. rewrite (poke_ret f1 (-1)) by (done || cbn; lia). cbn [rt_bind fst snd].
    unfold next. run. unfold stack_delta. rewrite E1, E2, Hms, Hsi. reflexivity.
  - pose proof (put_moved f (-1) x (f_ctx f) (min_gas (opcode_table t op)) 1 Hf ltac:(lia) ltac:(lia) eq_refl eq_refl) as Hp.
    replace (f_sp f - -1) with (f_sp f + (Z.of_nat N + 1 - Z.of_nat N)) in Hp by lia. exact Hp.
Qed.

Lemma exec_swap N f a b : (1 <= N <= 16)%nat -> valid t (SWAP1 + (Z.of_nat N - 1)) ->
  min_stack (osaka (SWAP1 + (Z.of_nat N - 1))) = Z.of_nat N + 1 ->
  stack_increase (osaka (SWAP1 + (Z.of_nat N - 1))) = Z.of_nat N + 1 -> stack_ok f ->
  min_gas (opcode_table t (SWAP1 + (Z.of_nat N - 1))) <= f_gas f ->
  stack_of f !! 0%nat = Some a -> stack_of f !! N = Some b ->
  exists f', swap t N f = Ret (tt, f') /\
    moved f (<[N := a]> (<[0%nat := b]> (stack_of f))) (min_gas (opcode_table t (SWAP1 + (Z.of_nat N - 1)))) 1 f'.
Proof.
  intros HN Hv Hms Hsi Hf Hg Ha Hb. set (op := SWAP1 + (Z.of_nat N - 1)) in *. pose proof (length_stack f Hf) as Hl.
  pose proof (lookup_lt_Some _ _ _ Hb) as Hlt. destruct (opcode_row t op (proj1 Hv) (proj2 Hv)) as (E1 & E2 & _).
  pose proof (so_sp _ Hf). eexists. split.
  - unfold swap. fold op. run. rewrite check_ret by (done || lia). cbn [rt_bind fst snd]. set (f1 := with_f_gas _ f).
    pose proof (stack_ok_gas f (f_gas f - min_gas (opcode_table t op)) Hf : stack_ok f1) as Hf1.
    rewrite (peek_ret f1 0 a) by done. cbn [rt_bind fst snd].
    rewrite (peek_ret f1 (Z.of_nat N) b); [|done|lia|by rewrite Nat2Z.id]. cbn [rt_bind fst snd].
    rewrite (poke_ret f1 0) by (done || cbn; lia). cbn [rt_bind fst snd].
    rewrite (poke_ret (put 0 b f1) (Z.of_nat N)); [|by apply stack_ok_put|change (f_sp (put 0 b f1)) with (f_sp f); lia]. cbn [rt_bind fst snd].
    unfold next. run. unfold stack_delta. rewrite E1, E2, Hms, Hsi, Z.sub_diag. reflexivity.
  - constructor; try done.
    + transitivity (stack_of (put (Z.of_nat N) a (put 0 b f))).
      2:{ rewrite stack_put_same; [|by apply stack_ok_put|change (f_sp (put 0 b f)) with (f_sp f); lia].
          rewrite stack_put_same by (done || lia). by rewrite Nat2Z.id. }
      unfold stack_of, put. cbn [with_ip with_sp with_f_gas with_cells f_sp f_cells]. by rewrite Z.add_0_r.
    + constructor; cbn [with_ip with_sp put with_cells f_cells f_sp with_f_gas]; [by rewrite !length_insert; apply Hf|lia].
Qed.

Context (code : byte_string) (Hic : new_intercode code = Some ic).

Lemma exec_push N f : (N <= 32)%nat -> valid t (PUSH0 + Z.of_nat N) -> min_stack (osaka (PUSH0 + Z.of_nat N)) = 0 ->
  stack_increase (osaka (PUSH0 + Z.of_nat N)) = 1 -> stack_ok f -> 0 <= f_ip f < zlen code ->
  min_gas (opcode_table t (PUSH0 + Z.of_nat N)) <= f_gas f -> f_sp f < 1024 ->
  exists f', push_ t ic N f = Ret (tt, f') /\
    moved f (#(bytes_val (code_from code (S (Z.to_nat (f_ip f))) N)) :: stack_of f)
      (min_gas (opcode_table t (PUSH0 + Z.of_nat N))) (1 + Z.of_nat N) f'.
Proof using Hic.
  intros HN Hv Hms Hsi Hf Hip Hg Hsp. set (op := PUSH0 + Z.of_nat N) in *.
  destruct (opcode_row t op (proj1 Hv) (proj2 Hv)) as (E1 & E2 & _). pose proof (so_sp _ Hf).
  assert (push_value N ic (f_ip f) = Some #(bytes_val (code_from code (S (Z.to_nat (f_ip f))) N))) as Hx.
  { destruct N as [|N]; [done|]. cbn [push_value]. rewrite <- (Z2Nat.id (f_ip f)) at 1 by lia.
    apply (avx2_push_eq code ic Hic (S N)); unfold zlen in *; lia. }
  eexists. split.
  - unfold push_. fold op. run. rewrite check_ret by (done || lia). cbn [rt_bind fst snd]. set (f1 := with_f_gas _ f).
    pose proof (stack_ok_gas f (f_gas f - min_gas (opcode_table t op)) Hf : stack_ok f1) as Hf1.
    change (f_ip f1) with (f_ip f). rewrite Hx. cbn [mopt]. run. unfold push.
    rewrite (poke_ret f1 (-1)) by (done || cbn; lia). cbn [rt_bind fst snd].
    unfold next_push. run. unfold stack_delta. rewrite E1, E2, Hms, Hsi. reflexivity.
  - match goal with |- moved _ (?x :: _) _ _ _ =>
      pose proof (put_moved f (-1) x (f_ctx f) (min_gas (opcode_table t op)) (1 + Z.of_nat N) Hf ltac:(lia) ltac:(lia) eq_refl eq_refl) as Hp end.
    replace (f_sp f - -1) with (f_sp f + (1 - 0)) in Hp by lia.
    replace (1 + Z.of_nat N) with (op - PUSH0 + 1) in Hp at 2 by (unfold op; lia). exact Hp.
Qed.
End exec.

(** ** The instructions *)
Lemma addc_wrap (a b : u256) : fst (addc a b) = #(a + b).
Proof.
  pose proof (addc_spec a b) as H. destruct (addc a b) as [v c]. cbn [fst]. apply uval_inj. rewrite uval_wrap, <- H.
  rewrite Z.mul_comm, Z.mod_add by (pose proof (modulus_pos 256); lia). symmetry. apply Z.mod_small, uword_range.
Qed.

Lemma subb_wrap (a b : u256) : fst (subb a b) = #(a - b).
Proof.
  pose proof (subb_spec a b) as H. destruct (subb a b) as [v c]. cbn [fst]. apply uval_inj. rewrite uval_wrap, <- H.
  replace (uval v - modulus 256 * b2z c) with (uval v + (- b2z c) * modulus 256) by ring.
  rewrite Z.mod_add by (pose proof (modulus_pos 256); lia). symmetry. apply Z.mod_small, uword_range.
Qed.

Lemma clz_word (a : u256) : uint256_from_int (countl_zero a) = #(if a =? 0 then 256 else 255 - Z.log2 a).
Proof.
  unfold uint256_from_int. rewrite countl_zero_eq. f_equal. apply uval_wrap_small. pose proof (uword_range a).
  destruct (Z.eqb_spec a 0); [done|]. pose proof (Z.log2_nonneg a).
  assert (Z.log2 a < 256) by (apply Z.log2_lt_pow2; [lia|exact (proj2 (uword_range a))]). change (modulus 64) with (2 ^ 64). lia.
Qed.

Create Rewrite HintDb alu.
#[export] Hint Rewrite addc_wrap subb_wrap truncating_mul_eq slt_eq u256_ltb_spec op_eqb_eq to_bool_eq op_and_eq op_or_eq
  op_xor_eq op_not_eq signextend_eq byte_eq op_shl_eq clz_word negb_involutive : alu.

Section effect.
Context (t : Traits) (Hsup : supported t = true) (keccak256 : byte_string -> bytes32).
Context (code : byte_string) (ic : Intercode) (Hic : new_intercode code = Some ic).
Import interpreter.

Lemma takes_at (op : EvmOpCode) n : eth_ge (evm_rev t) (introduced op) = true ->
  min_stack (osaka op) = n -> stack_increase (osaka op) = 1 -> osaka_known op = true -> takes t op n.
Proof using Hsup.
  clear - Hsup. intros Hi Hms Hsi Hk. split; [|done]. pose proof (opcode_byte_range op). split; [done|]. by apply known_at.
Qed.

(** The result of an instruction, as the theorem states it. *)
Definition does (m : IM unit) (op : EvmOpCode) (f : Frame) (s : list u256) : Prop :=
  exists f', m f = Ret (tt, f') /\
    moved f s (min_gas (opcode_table t op) + dynamic_cost op (stack_of f)) (1 + push_width op) f'.

Lemma does_binary (op : EvmOpCode) g h f s : eth_ge (evm_rev t) (introduced op) = true -> osaka_known op = true ->
  min_stack (osaka op) = 2 -> stack_increase (osaka op) = 1 -> push_width op = 0 -> dynamic_cost op (stack_of f) = 0 ->
  (forall a b, g a b = h a b) -> stack_ok f -> min_gas (opcode_table t op) + 0 <= f_gas f ->
  match stack_of f with a :: b :: r => s = h a b :: r | _ => False end ->
  does (mbnd (check_requirements t op) (fun _ => mbnd (peek 0) (fun a => mbnd (peek 1) (fun b =>
      mbnd (poke 1 (g a b)) (fun _ => next t op))))) op f s.
Proof using Hsup.
  clear - Hsup. intros Hi Hk Hms Hsi Hw Hd Hgh Hf Hg Hs. unfold does. rewrite Hw, Hd, Z.add_0_r in *.
  destruct (stack_of f) as [|a [|b r]] eqn:Es; try done. subst s. rewrite <- Hgh.
  apply exec_binary; [by apply takes_at|done|lia|done].
Qed.

Lemma does_unary (op : EvmOpCode) g h f s : eth_ge (evm_rev t) (introduced op) = true -> osaka_known op = true ->
  min_stack (osaka op) = 1 -> stack_increase (osaka op) = 1 -> push_width op = 0 -> dynamic_cost op (stack_of f) = 0 ->
  (forall a, g a = h a) -> stack_ok f -> min_gas (opcode_table t op) + 0 <= f_gas f ->
  match stack_of f with a :: r => s = h a :: r | _ => False end ->
  does (mbnd (check_requirements t op) (fun _ => mbnd (peek 0) (fun a => mbnd (poke 0 (g a)) (fun _ => next t op)))) op f s.
Proof using Hsup.
  clear - Hsup. intros Hi Hk Hms Hsi Hw Hd Hgh Hf Hg Hs. unfold does. rewrite Hw, Hd, Z.add_0_r in *.
  destruct (stack_of f) as [|a r] eqn:Es; try done. subst s. rewrite <- Hgh.
  apply exec_unary; [by apply takes_at|done|lia|done].
Qed.

Lemma does_call2 (op : EvmOpCode) (fn : runtime_fn 2 u256) h f s : eth_ge (evm_rev t) (introduced op) = true ->
  osaka_known op = true -> min_stack (osaka op) = 2 -> stack_increase (osaka op) = 1 -> push_width op = 0 ->
  (forall a b r, stack_of f = a :: b :: r -> 0 <= dynamic_cost op (stack_of f) /\ spends (fn a b) (h a b) (dynamic_cost op (stack_of f))) ->
  stack_ok f -> min_gas (opcode_table t op) + dynamic_cost op (stack_of f) <= f_gas f ->
  match stack_of f with a :: b :: r => s = h a b :: r | _ => False end ->
  does (mbnd (checked_runtime_call t op 2 fn) (fun _ => next t op)) op f s.
Proof using Hsup.
  clear - Hsup. intros Hi Hk Hms Hsi Hw Hsp Hf Hg Hs. unfold does. rewrite Hw, Z.add_0_r.
  destruct (stack_of f) as [|a [|b r]] eqn:Es; try done. subst s. destruct (Hsp a b r eq_refl) as [H0 H1].
  pose proof (exec_runtime_call t op 2 fn f (fn a b) (h a b) (dynamic_cost op (a :: b :: r))) as H. rewrite Es in H.
  apply H; try done; [by apply takes_at|lia|cbn; lia].
Qed.

Lemma does_call3 (op : EvmOpCode) (fn : runtime_fn 3 u256) h f s : eth_ge (evm_rev t) (introduced op) = true ->
  osaka_known op = true -> min_stack (osaka op) = 3 -> stack_increase (osaka op) = 1 -> push_width op = 0 ->
  dynamic_cost op (stack_of f) = 0 -> (forall a b n, spends (fn a b n) (h a b n) 0) ->
  stack_ok f -> min_gas (opcode_table t op) + 0 <= f_gas f ->
  match stack_of f with a :: b :: n :: r => s = h a b n :: r | _ => False end ->
  does (mbnd (checked_runtime_call t op 3 fn) (fun _ => next t op)) op f s.
Proof using Hsup.
  clear - Hsup. intros Hi Hk Hms Hsi Hw Hd Hsp Hf Hg Hs. unfold does. rewrite Hw, Hd. change (1 + 0) with 1.
  destruct (stack_of f) as [|a [|b [|n r]]] eqn:Es; try done. subst s.
  pose proof (exec_runtime_call t op 3 fn f (fn a b n) (h a b n) 0) as H. rewrite Es in H.
  apply H; try done; [by apply takes_at|lia|cbn; lia].
Qed.

Lemma exec_drop op f a r : valid t op -> min_stack (osaka op) = 1 -> stack_increase (osaka op) = 0 -> stack_ok f ->
  min_gas (opcode_table t op) <= f_gas f -> stack_of f = a :: r ->
  exists f', mbnd (check_requirements t op) (fun _ => next t op) f = Ret (tt, f') /\
    moved f r (min_gas (opcode_table t op)) 1 f'.
Proof.
  clear. intros Hv Hms Hsi Hf Hg Es. pose proof (length_stack f Hf) as Hl. pose proof (so_sp _ Hf) as Hsp.
  rewrite Es in Hl. cbn [length] in Hl. destruct (opcode_row t op (proj1 Hv) (proj2 Hv)) as (E1 & E2 & _).
  eexists. split.
  - unfold mbnd. rewrite check_ret; [|exact Hv|exact Hf|exact Hg|lia|lia]. cbn [rt_bind fst snd]. unfold next, mmod, stack_delta.
    rewrite E1, E2, Hms, Hsi. reflexivity.
  - constructor; [|done..|].
    + unfold stack_of in *. cbn [with_ip with_sp with_f_gas f_sp f_cells]. destruct Hf as [H1 H2].
      replace (Z.to_nat (f_sp f + (0 - 1))) with (Z.to_nat (f_sp f) - 1)%nat by lia.
      replace r with (drop 1 (a :: r)) by done. rewrite <- Es, skipn_rev, length_take, take_take. do 2 f_equal. lia.
    + destruct Hf as [H1 H2]. constructor; cbn [with_ip with_sp with_f_gas f_sp f_cells]; [exact H1|lia].
Qed.

Ltac arith := intros; autorewrite with alu; reflexivity.

Lemma unary_effect (op : EvmOpCode) g f s : eth_ge (evm_rev t) (introduced op) = true -> stack_ok f -> unary_op op = Some g ->
  min_gas (opcode_table t op) + 0 <= f_gas f -> match stack_of f with a :: r => s = g a :: r | _ => False end ->
  does (instruction_table t keccak256 ic op) op f s.
Proof using Hsup.
  clear Hic. intros Hi Hf Hn Hg Hs. destruct op; try discriminate Hn; injection Hn as <-.
  - change (does (iszero t) ISZERO f s). apply (does_unary ISZERO _ (fun a : u256 => word_of (a =? 0))); try done. arith.
  - change (does (not_ t) NOT f s). apply (does_unary NOT _ (fun a : u256 => #(Z.lnot a))); try done. arith.
  - change (does (since t MONAD_ETH_OSAKA (clz t)) CLZ f s). unfold since. change (introduced CLZ) with MONAD_ETH_OSAKA in Hi.
    rewrite Hi. apply (does_unary CLZ _ (fun a : u256 => #(if a =? 0 then 256 else 255 - Z.log2 a))); try done. arith.
Qed.

Lemma ternary_effect (op : EvmOpCode) g f s : eth_ge (evm_rev t) (introduced op) = true -> stack_ok f -> ternary_op op = Some g ->
  min_gas (opcode_table t op) + 0 <= f_gas f -> match stack_of f with a :: b :: n :: r => s = g a b n :: r | _ => False end ->
  does (instruction_table t keccak256 ic op) op f s.
Proof using Hsup.
  clear Hic. intros Hi Hf Hn Hg Hs. destruct op; try discriminate Hn; injection Hn as <-.
  - change (does (addmod t) ADDMOD f s). apply (does_call3 ADDMOD _ (fun a b n : u256 => guarded n ((a + b) mod n))); try done. intros. apply spends_guarded. apply addmod_eq.
  - change (does (mulmod t) MULMOD f s). apply (does_call3 MULMOD _ (fun a b n : u256 => guarded n ((a * b) mod n))); try done. intros. apply spends_guarded. apply mulmod_eq.
Qed.

(** An instruction on the cells, and one that calls the runtime. *)
Ltac on_cells m op g Hn :=
  lazymatch goal with |- does _ _ ?f ?s => change (does (m t) op f s) end;
  apply (does_binary op _ g); try done; injection Hn as <-; unfold op_shr, UInt256Ops.sar;
  intros; rewrite ?shift_right_eq; autorewrite with alu; reflexivity.
Ltac on_call m op g Hn tac :=
  lazymatch goal with |- does _ _ ?f ?s => change (does (m t) op f s) end;
  apply (does_call2 op _ g); try done; injection Hn as <-; intros ? ? ? _; split; [done|tac].

Lemma binary_effect (op : EvmOpCode) g f s : eth_ge (evm_rev t) (introduced op) = true -> stack_ok f -> binary_op op = Some g ->
  min_gas (opcode_table t op) + dynamic_cost op (stack_of f) <= f_gas f ->
  match stack_of f with a :: b :: r => s = g a b :: r | _ => False end ->
  does (instruction_table t keccak256 ic op) op f s.
Proof using Hsup.
  clear Hic. intros Hi Hf Hn Hg Hs.
  destruct op; try discriminate Hn.
  - on_cells add ADD g Hn.
  - on_call mul MUL g Hn ltac:(unfold runtime.mul; rewrite truncating_mul_eq; apply spends_ret).
  - on_cells sub SUB g Hn.
  - on_call udiv DIV g Hn ltac:(apply spends_guarded; intros; unfold op_div; by rewrite udivrem256_eq).
  - on_call sdiv SDIV g Hn ltac:(apply spends_guarded; intros; by rewrite sdivrem_eq).
  - on_call umod MOD g Hn ltac:(apply spends_guarded; intros; unfold op_mod; by rewrite udivrem256_eq).
  - on_call smod SMOD g Hn ltac:(apply spends_guarded; intros; by rewrite sdivrem_eq).
  - change (does (exp t) EXP f s). apply (does_call2 EXP _ g); try done. injection Hn as <-. intros a b r Es. rewrite Es in *.
    cbn [dynamic_cost] in *. split; [|apply spends_exp]. rewrite <- byte_count_eq. pose proof (count_significant_bytes_spec b) as H.
    cbn zeta in H. lia.
  - on_cells signextend SIGNEXTEND g Hn.
  - on_cells lt LT g Hn.
  - on_cells gt GT g Hn.
  - on_cells slt SLT g Hn.
  - on_cells sgt SGT g Hn.
  - on_cells eq EQ g Hn.
  - on_cells and_ AND g Hn.
  - on_cells or_ OR g Hn.
  - on_cells xor_ XOR g Hn.
  - on_cells byte BYTE g Hn.
  - on_cells shl SHL g Hn.
  - on_cells shr SHR g Hn.
  - on_cells sar SAR g Hn.
Qed.

(** *** PUSH, DUP, SWAP and POP *)
Lemma osaka_knows (op : EvmOpCode) : osaka_known op = true.
Proof. destruct op; vm_compute; reflexivity. Qed.

Lemma valid_at (op : EvmOpCode) : eth_ge (evm_rev t) (introduced op) = true -> valid t op.
Proof using Hsup.
  clear - Hsup. intros Hi. pose proof (opcode_byte_range op). split; [done|]. apply known_at; try done. apply osaka_knows.
Qed.

(** What the tables say of the families. *)
Lemma push_row k : (k <= 32)%nat ->
  min_stack (osaka (PUSH0 + Z.of_nat k)) = 0 /\ stack_increase (osaka (PUSH0 + Z.of_nat k)) = 1 /\
  push_width (PUSH0 + Z.of_nat k) = Z.of_nat k /\
  (eth_ge (evm_rev t) (introduced (PUSH0 + Z.of_nat k)) = true ->
   instruction_table t keccak256 ic (PUSH0 + Z.of_nat k) = push_ t ic k).
Proof.
  intros Hk. destruct k as [|k].
  { split_and!; [vm_compute; reflexivity|vm_compute; reflexivity|reflexivity|intros Hi].
    change (since t MONAD_ETH_SHANGHAI (push_ t ic 0) = push_ t ic 0).
    change (eth_ge (evm_rev t) MONAD_ETH_SHANGHAI = true) in Hi. unfold since. by rewrite Hi. }
  do 32 (destruct k as [|k]; [split_and!; [vm_compute; reflexivity|vm_compute; reflexivity|reflexivity|intros _; reflexivity]|]). lia.
Qed.

Lemma dup_row k : (1 <= k <= 16)%nat ->
  min_stack (osaka (DUP1 + (Z.of_nat k - 1))) = Z.of_nat k /\
  stack_increase (osaka (DUP1 + (Z.of_nat k - 1))) = Z.of_nat k + 1 /\ push_width (DUP1 + (Z.of_nat k - 1)) = 0 /\
  instruction_table t keccak256 ic (DUP1 + (Z.of_nat k - 1)) = dup t k.
Proof.
  intros Hk. destruct k as [|k]; [lia|].
  do 16 (destruct k as [|k]; [split_and!; [vm_compute; reflexivity|vm_compute; reflexivity|reflexivity|reflexivity]|]). lia.
Qed.

Lemma swap_row k : (1 <= k <= 16)%nat ->
  min_stack (osaka (SWAP1 + (Z.of_nat k - 1))) = Z.of_nat k + 1 /\
  stack_increase (osaka (SWAP1 + (Z.of_nat k - 1))) = Z.of_nat k + 1 /\ push_width (SWAP1 + (Z.of_nat k - 1)) = 0 /\
  instruction_table t keccak256 ic (SWAP1 + (Z.of_nat k - 1)) = swap t k.
Proof.
  intros Hk. destruct k as [|k]; [lia|].
  do 16 (destruct k as [|k]; [split_and!; [vm_compute; reflexivity|vm_compute; reflexivity|reflexivity|reflexivity]|]). lia.
Qed.

(** A member of a family is the one its opcode counts. *)
Lemma push_effect (op : EvmOpCode) f : eth_ge (evm_rev t) (introduced op) = true -> stack_ok f -> is_push_opcode op = true ->
  0 <= f_ip f < zlen code -> min_gas (opcode_table t op) <= f_gas f -> f_sp f < 1024 ->
  exists f', instruction_table t keccak256 ic op f = Ret (tt, f') /\
    moved f (immediate code (f_ip f) op :: stack_of f) (min_gas (opcode_table t op)) (1 + push_width op) f'.
Proof using Hsup Hic.
  intros Hi Hf Hp Hip Hg Hsp. pose proof (valid_at op Hi) as Hv.
  unfold is_push_opcode in Hp. change (opcode_byte PUSH0) with 0x5f in Hp. change (opcode_byte PUSH32) with 0x7f in Hp.
  assert (exists k, (k <= 32)%nat /\ opcode_byte op = PUSH0 + Z.of_nat k) as (k & Hk & E)
    by (exists (Z.to_nat (op - 0x5f)); change (opcode_byte PUSH0) with 0x5f; lia).
  unfold immediate. rewrite E in *. destruct (push_row k Hk) as (R1 & R2 & R3 & R4). rewrite R3, (R4 Hi), Nat2Z.id.
  by apply (exec_push t ic code Hic k f).
Qed.

Lemma dup_effect (op : EvmOpCode) f x : eth_ge (evm_rev t) (introduced op) = true -> stack_ok f -> is_dup_opcode op = true ->
  stack_of f !! Z.to_nat (op - DUP1) = Some x -> min_gas (opcode_table t op) <= f_gas f -> f_sp f < 1024 ->
  exists f', instruction_table t keccak256 ic op f = Ret (tt, f') /\
    moved f (x :: stack_of f) (min_gas (opcode_table t op)) (1 + push_width op) f'.
Proof using Hsup.
  clear Hic code. intros Hi Hf Hp Hx Hg Hsp. pose proof (valid_at op Hi) as Hv.
  unfold is_dup_opcode in Hp. change (opcode_byte DUP1) with 0x80 in *. change (opcode_byte DUP16) with 0x8f in Hp.
  assert (exists k, (1 <= k <= 16)%nat /\ opcode_byte op = 0x80 + (Z.of_nat k - 1)) as (k & Hk & E)
    by (exists (Z.to_nat (op - 0x7f)); lia).
  rewrite E in *. destruct (dup_row k Hk) as (R1 & R2 & R3 & R4). change (opcode_byte DUP1) with 0x80 in *. rewrite R3, R4.
  apply (exec_dup t k f x); try done. by replace (k - 1)%nat with (Z.to_nat (0x80 + (Z.of_nat k - 1) - 0x80)) by lia.
Qed.

Lemma swap_effect (op : EvmOpCode) f a b : eth_ge (evm_rev t) (introduced op) = true -> stack_ok f -> is_swap_opcode op = true ->
  stack_of f !! 0%nat = Some a -> stack_of f !! Z.to_nat (op - SWAP1 + 1) = Some b -> min_gas (opcode_table t op) <= f_gas f ->
  exists f', instruction_table t keccak256 ic op f = Ret (tt, f') /\
    moved f (<[Z.to_nat (op - SWAP1 + 1) := a]> (<[0%nat := b]> (stack_of f))) (min_gas (opcode_table t op)) (1 + push_width op) f'.
Proof using Hsup.
  clear Hic code. intros Hi Hf Hp Ha Hb Hg. pose proof (valid_at op Hi) as Hv.
  unfold is_swap_opcode in Hp. change (opcode_byte SWAP1) with 0x90 in *. change (opcode_byte SWAP16) with 0x9f in Hp.
  assert (exists k, (1 <= k <= 16)%nat /\ opcode_byte op = 0x90 + (Z.of_nat k - 1)) as (k & Hk & E)
    by (exists (Z.to_nat (op - 0x8f)); lia).
  rewrite E in *. destruct (swap_row k Hk) as (R1 & R2 & R3 & R4). change (opcode_byte SWAP1) with 0x90 in *. rewrite R3, R4.
  replace (Z.to_nat (0x90 + (Z.of_nat k - 1) - 0x90 + 1)) with k in * by lia.
  by apply (exec_swap t k f a b).
Qed.

Lemma dynamic_cost_0 (op : EvmOpCode) s : binary_op op = None \/ op <> EXP -> dynamic_cost op s = 0.
Proof. intros [H|H]; destruct op; done. Qed.

Lemma unary_not_binary (op : EvmOpCode) g : unary_op op = Some g \/ ternary_op op <> None -> binary_op op = None.
Proof. intros [H|H]; destruct op; done. Qed.

Lemma pop_effect f a r : stack_ok f -> eth_ge (evm_rev t) (introduced POP) = true -> min_gas (opcode_table t POP) <= f_gas f ->
  stack_of f = a :: r -> exists f', instruction_table t keccak256 ic POP f = Ret (tt, f') /\
    moved f r (min_gas (opcode_table t POP)) (1 + push_width POP) f'.
Proof using Hsup.
  intros Hf Hi Hg Es. change (instruction_table t keccak256 ic POP) with (pop_ t).
  change (1 + push_width POP) with 1. unfold pop_. pose proof (valid_at POP Hi) as Hv. revert Hv Hg.
  assert (Hms : min_stack (osaka POP) = 1) by reflexivity. assert (Hsi : stack_increase (osaka POP) = 0) by reflexivity.
  revert Hms Hsi. generalize (opcode_byte POP). intros op Hms Hsi Hv Hg. by apply (exec_drop op f a r).
Qed.

Lemma stack_op_effect (op : EvmOpCode) f s : eth_ge (evm_rev t) (introduced op) = true -> stack_ok f -> 0 <= f_ip f < zlen code ->
  stack_op (immediate code (f_ip f) op) op (stack_of f) = Some s -> zlen s <= 1024 -> min_gas (opcode_table t op) <= f_gas f ->
  exists f', instruction_table t keccak256 ic op f = Ret (tt, f') /\
    moved f s (min_gas (opcode_table t op)) (1 + push_width op) f'.
Proof using Hsup Hic.
  intros Hi Hf Hip Hs Hlen Hg. pose proof (length_stack f Hf) as Hl. unfold stack_op in Hs. unfold zlen in Hlen.
  destruct (Z.eqb_spec op POP) as [E|E].
  { destruct (stack_of f) as [|a r] eqn:Es; [done|]. injection Hs as <-.
    assert (op = POP) as -> by (destruct op; try discriminate E; done). by apply (pop_effect f a r). }
  destruct (is_push_opcode op) eqn:Ep; [injection Hs as <-; apply push_effect; try done; cbn [length] in Hlen; lia|].
  destruct (is_dup_opcode op) eqn:Ed.
  { destruct (stack_of f !! _) as [x|] eqn:Ex; [|discriminate Hs]. injection Hs as <-. apply dup_effect; try done.
    cbn [length] in Hlen. lia. }
  destruct (is_swap_opcode op) eqn:Ew; [|discriminate Hs].
  destruct (stack_of f !! 0%nat) as [a|] eqn:Ea; [|discriminate Hs]. cbn [mbind option_bind] in Hs.
  destruct (stack_of f !! Z.to_nat _) as [b|] eqn:Eb; [|discriminate Hs]. injection Hs as <-. by apply swap_effect.
Qed.

Lemma effect_exact (op : EvmOpCode) f s : eth_ge (evm_rev t) (introduced op) = true -> stack_ok f -> 0 <= f_ip f < zlen code ->
  stack_effect (immediate code (f_ip f) op) op (stack_of f) = Some s -> zlen s <= 1024 ->
  min_gas (opcode_table t op) + dynamic_cost op (stack_of f) <= f_gas f ->
  does (instruction_table t keccak256 ic op) op f s.
Proof using Hsup Hic.
  intros Hi Hf Hip Hs Hlen Hg. unfold stack_effect in Hs. destruct (unary_op op) as [g|] eqn:E1.
  { rewrite dynamic_cost_0 in Hg by (left; by eapply unary_not_binary; left). apply (unary_effect op g); try done.
    destruct (stack_of f); [done|]. by injection Hs. }
  destruct (binary_op op) as [g|] eqn:E2.
  { apply (binary_effect op g); try done. destruct (stack_of f) as [|a [|b r]]; try done. by injection Hs. }
  rewrite dynamic_cost_0 in Hg by (by left). destruct (ternary_op op) as [g|] eqn:E3.
  { apply (ternary_effect op g); try done. destruct (stack_of f) as [|a [|b [|n r]]]; try done. by injection Hs. }
  unfold does. rewrite dynamic_cost_0 by (by left). rewrite Z.add_0_r in *. by apply stack_op_effect.
Qed.
End effect.

(** C5: the instructions compute what they mean.  An instruction for arithmetic, comparison,
    bits or the stack, inside the code, with enough gas and a stack that does not overflow,
    turns the array of cells into the stack that the list machine of [stack_effect] gives:
    sums and products modulo 2^256, exact quotients and remainders, zero for division by
    zero, the data of a PUSH with zeros beyond the code; it costs the gas of the table (and
    of the exponent's bytes for EXP), moves to the next instruction, and leaves environment
    and memory alone. *)
Theorem instruction_computes t keccak256 code ic (op : EvmOpCode) f s :
  supported t = true -> new_intercode code = Some ic -> eth_ge (evm_rev t) (introduced op) = true ->
  stack_ok f -> 0 <= f_ip f < zlen code ->
  stack_effect (immediate code (f_ip f) op) op (stack_of f) = Some s -> zlen s <= 1024 ->
  min_gas (opcode_table t op) + dynamic_cost op (stack_of f) <= f_gas f ->
  exists f', interpreter.instruction_table t keccak256 ic op f = Ret (tt, f') /\ stack_of f' = s /\ stack_ok f' /\
    f_gas f' = f_gas f - (min_gas (opcode_table t op) + dynamic_cost op (stack_of f)) /\
    f_ip f' = f_ip f + 1 + push_width op /\ env (f_ctx f') = env (f_ctx f) /\ memory (f_ctx f') = memory (f_ctx f).
Proof.
  intros Hs Hic Hi Hf Hip He Hl Hg.
  destruct (effect_exact t Hs keccak256 code ic Hic op f s Hi Hf Hip He Hl Hg) as (f' & E & [M1 M2 M3 M4 M5 M6]).
  exists f'. split_and!; try done. lia.
Qed.

(** SDIV of -7 by 2. *)
Definition exec_frame : Frame :=
  mk_frame (context_from interp_ctx (interp_msg 0) [ #0x05 ]) ([ #2; #(-7) ] ++ replicate 1022 #0) 2 10 0.

Lemma instruction_computes_witness : exists ic f',
  interpreter.instruction_table interp_traits (fun _ => #0) ic SDIV exec_frame = Ret (tt, f') /\
  stack_of f' = [ guarded #2 (Z.quot (s256 #(-7)) (s256 #2)) ] /\
  uval (guarded #2 (Z.quot (s256 #(-7)) (s256 #2))) = 2 ^ 256 - 3.
Proof.
  destruct (new_intercode [ #0x05 ]) as [ic|] eqn:E; [|discriminate E].
  destruct (instruction_computes interp_traits (fun _ => #0) [ #0x05 ] ic SDIV exec_frame _ eq_refl E eq_refl
    ltac:(constructor; [reflexivity|split; discriminate]) ltac:(split; [discriminate|reflexivity]) eq_refl
    ltac:(vm_compute; discriminate) ltac:(vm_compute; discriminate)) as (f' & Ef & Es & _).
  exists ic, f'. split; [exact Ef|]. split; [exact Es|]. vm_compute. reflexivity.
Defined.

(** ** Memory *)
Section memory.
Context (t : Traits).
Import context.

Lemma rt_bind_ret {A C} (p : rt A) (k : A -> rt C) x : rt_bind p k = Ret x -> exists a, p = Ret a /\ k a = Ret x.
Proof. destruct p; cbn; try discriminate. eauto. Qed.

Lemma bind_ret {S A C} (m : M S A) (k : A -> M S C) s x : mbnd m k s = Ret x -> exists a s', m s = Ret (a, s') /\ k a s' = Ret x.
Proof. intros ([a s'] & E1 & E2)%rt_bind_ret. eauto. Qed.

Lemma bin_ret N x c y c' : bin N x c = Ret (y, c') -> y = x /\ c' = c /\ 0 <= x < 2 ^ N.
Proof. unfold bin. destruct (_ && _) eqn:E; [|discriminate]. intros [= <- <-]. split_and!; try done; lia. Qed.

Lemma massert_ret b (c : Context) x c' : massert b c = Ret (x, c') -> c' = c.
Proof. destruct b; [by intros [= _ <-]|discriminate]. Qed.

Lemma parent_ret c x c' : parent_total_size c = Ret (x, c') -> c' = c.
Proof.
  unfold parent_total_size. intros (? & ? & [= <- <-] & E)%bind_ret.
  apply bind_ret in E as (? & ? & ->%massert_ret & E). by apply bind_ret in E as (? & ? & ->%massert_ret & [= _ <-]).
Qed.

Lemma increase_capacity_ret a b c x c' : increase_capacity a b c = Ret (x, c') -> c' = c.
Proof.
  unfold increase_capacity. intros (? & ? & ->%massert_ret & E)%bind_ret. apply bind_ret in E as (? & ? & ->%parent_ret & E).
  apply bind_ret in E as (? & ? & (_ & -> & _)%bin_ret & E). apply bind_ret in E as (? & ? & (_ & -> & _)%bin_ret & E).
  apply bind_ret in E as (? & ? & ->%massert_ret & E). apply bind_ret in E as (? & ? & (_ & -> & _)%bin_ret & E).
  by apply massert_ret in E.
Qed.

Lemma in_bound_ret n c b c' : is_memory_size_in_bound t n c = Ret (b, c') -> c' = c.
Proof.
  unfold is_memory_size_in_bound. destruct (mip_3_active t); [|by intros [= _ <-]].
  intros (p & c1 & ->%parent_ret & E)%bind_ret. by apply bind_ret in E as (z & c2 & (_ & -> & _)%bin_ret & [= _ <-]).
Qed.

(** The bytes of the memory, as many as its size. *)
Definition sized (c : Context) : Prop := zlen (mem_data (memory c)) = mem_size (memory c).

(** Growing memory appends zeros. *)
Lemma expand_memory_ret n c x c' : sized c -> expand_memory t n c = Ret (x, c') ->
  n <= mem_size (memory c') /\ sized c' /\
  exists k, mem_data (memory c') = mem_data (memory c) ++ replicate k #0.
Proof.
  intros Hs. unfold expand_memory. intros (n' & c1 & (-> & -> & Hn)%bin_ret & E)%bind_ret.
  apply bind_ret in E as (? & ? & [= <- <-] & E). destruct (Z.ltb_spec (mem_size (memory c)) n) as [Hl|Hl].
  2:{ injection E as <- <-. split_and!; [done|done|]. exists 0%nat. by rewrite app_nil_r. }
  apply bind_ret in E as (w & c1 & (-> & -> & Hw)%bin_ret & E). apply bind_ret in E as (sz & c1 & (-> & -> & Hsz)%bin_ret & E).
  apply bind_ret in E as (b & c1 & ->%in_bound_ret & E). apply bind_ret in E as ([] & c1 & Ea & E).
  destruct b; [|discriminate Ea]. injection Ea as <-. apply bind_ret in E as ([] & c1 & Ea & E).
  unfold massert in Ea. destruct (_ <=? _); [|discriminate Ea]. injection Ea as <-.
  apply bind_ret in E as ([] & c1 & Ed & E). unfold deduct_gas, mbnd, mmod, mget in Ed. cbn [rt_bind fst snd] in Ed.
  destruct (_ <? 0); [discriminate Ed|]. injection Ed as <-.
  apply bind_ret in E as (? & ? & [= <- <-] & ->%increase_capacity_ret).
  unfold sized in *. cbn [with_memory with_gas_remaining memory grow mem_size mem_data].
  unfold memory_size_to_word_count, word_count_to_memory_size, shr_ceil5 in *.
  rewrite Z.shiftl_mul_pow2, Z.shiftr_div_pow2 in * by done.
  pose proof (Z.div_mod (n + 31) (2 ^ 5) ltac:(lia)). pose proof (Z.mod_pos_bound (n + 31) (2 ^ 5) ltac:(lia)).
  split_and!; [lia| |by eexists]. unfold zlen in *. rewrite length_app, length_replicate. lia.
Qed.

Lemma expand_memory_id n c : 0 <= n < 2 ^ 29 -> n <= mem_size (memory c) -> expand_memory t n c = Ret (tt, c).
Proof.
  intros Hn Hs. unfold expand_memory, bin, mbnd, mget. rewrite (proj2 (Z.leb_le 0 n)), (proj2 (Z.ltb_lt n _)) by lia.
  cbn [andb mret rt_bind fst snd]. by rewrite (proj2 (Z.ltb_ge _ n)) by lia.
Qed.

Lemma get_memory_offset_ret w c o c' : get_memory_offset w c = Ret (o, c') -> o = uval w /\ c' = c /\ 0 <= o < 2 ^ 28.
Proof.
  unfold get_memory_offset, offset_bits. rewrite bounded_by_bits by lia. pose proof (uword_range w).
  destruct (Z.ltb_spec w (2 ^ 28)); [|discriminate]. intros [= <- <-]. rewrite (limb0_small w 28) by lia. split_and!; [done|done|lia|lia].
Qed.

Lemma get_memory_offset_small (w : u256) c : w < 2 ^ 28 -> get_memory_offset w c = Ret (uval w, c).
Proof.
  intros Hw. unfold get_memory_offset, offset_bits. rewrite bounded_by_bits, (proj2 (Z.ltb_lt _ _) Hw) by lia. cbn [negb].
  by rewrite (limb0_small w 28) by lia.
Qed.

Lemma mem_write_ret off bs c x c' : mem_write off bs c = Ret (x, c') ->
  0 <= off /\ off + zlen bs <= mem_size (memory c) /\
  c' = with_memory (mk_memory (mem_size (memory c)) (splice (Z.to_nat off) bs (mem_data (memory c))) (mem_cost (memory c))
    (mem_parent (memory c))) c.
Proof.
  unfold mem_write. intros (? & ? & [= <- <-] & E)%bind_ret. destruct (_ && _) eqn:Eb; [|discriminate E].
  injection E as _ <-. split_and!; [lia|lia|done].
Qed.

Lemma splice_inside off bs (l : byte_string) : (off + length bs <= length l)%nat ->
  take (length bs) (drop off (splice off bs l)) = bs.
Proof.
  intros H. unfold splice. rewrite drop_app_ge by (rewrite length_take; lia). rewrite length_take.
  replace (off - off `min` length l)%nat with 0%nat by lia. rewrite drop_0. by rewrite take_app_length.
Qed.

Lemma splice_outside off bs (l : byte_string) i : (off + length bs <= length l)%nat -> (i < off \/ off + length bs <= i)%nat ->
  splice off bs l !! i = l !! i.
Proof.
  intros H [Hi|Hi]; unfold splice.
  - rewrite lookup_app_l by (rewrite length_take; lia). apply lookup_take_lt. lia.
  - rewrite lookup_app_r by (rewrite length_take; lia). rewrite lookup_app_r by (rewrite length_take; lia).
    rewrite lookup_drop, length_take. f_equal. lia.
Qed.
End memory.

(** C37: memory keeps what is written.  After a successful MSTORE, MLOAD at the same offset
    returns the word that was stored and changes nothing; every other byte is what it was,
    bytes the memory has grown by being zero. *)
Theorem mstore_mload t (o v : u256) c c' :
  sized c -> runtime.mstore t o v c = Ret (tt, c') ->
  runtime.mload t o c' = Ret (v, c') /\ sized c' /\
  forall i, (i < Z.to_nat o \/ Z.to_nat o + 32 <= i)%nat ->
    nth i (mem_data (memory c')) #0 = nth i (mem_data (memory c)) #0.
Proof.
  intros Hs. unfold runtime.mstore. intros (o' & c1 & (-> & -> & Ho)%get_memory_offset_ret & E)%bind_ret.
  apply bind_ret in E as (? & c1 & Ex & E). apply expand_memory_ret in Ex as (Hn & Hs1 & k & Hd); [|done].
  apply mem_write_ret in E as (_ & Hw & ->). unfold sized in Hs1.
  assert (Hl : (Z.to_nat o + length (to_bytes 32 v) <= length (mem_data (memory c1)))%nat)
    by (rewrite length_to_bytes; unfold zlen in *; lia).
  set (m := mk_memory _ _ _ _). assert (mem_size m = mem_size (memory c1)) as Hm by done. split_and!.
  - unfold runtime.mload, mbnd. rewrite get_memory_offset_small by lia. cbn [rt_bind fst snd].
    rewrite expand_memory_id by (cbn [with_memory memory]; lia). cbn [rt_bind fst snd]. unfold context.mem_read, mbnd, mget.
    cbn [rt_bind fst snd]. cbn [with_memory memory].
    rewrite (proj2 (Z.leb_le 0 o)), (proj2 (Z.leb_le 0 32)), (proj2 (Z.leb_le _ (mem_size m))) by lia. cbn [andb mret rt_bind fst snd].
    unfold m. cbn [mem_data]. change (Z.to_nat 32) with 32%nat. rewrite <- (length_to_bytes 32 v) at 1.
    rewrite splice_inside by done. rewrite bytes_val_to_bytes. change (256 ^ Z.of_nat 32) with (modulus 256).
    rewrite Z.mod_small by apply uword_range. by rewrite wrap_uval.
  - unfold sized, m. cbn [with_memory memory mem_data mem_size]. unfold zlen in *. rewrite (length_splice _ _ _ Hl). lia.
  - intros i Hi. cbn [with_memory memory mem_data]. rewrite !nth_lookup. unfold m. cbn [mem_data].
    rewrite splice_outside by (rewrite ?length_to_bytes in *; lia). rewrite Hd.
    destruct (decide (i < length (mem_data (memory c)))%nat) as [Hlt|Hge]; [by rewrite lookup_app_l|].
    rewrite lookup_app_r by lia. rewrite (lookup_ge_None_2 (mem_data (memory c)) i) by lia.
    destruct (replicate k #0 !! _) eqn:Er; [|done]. by apply lookup_replicate in Er as [-> _].
Qed.

Lemma mstore_mload_witness : exists c',
  runtime.mstore interp_traits #33 #7 (context_from interp_ctx (interp_msg 0) []) = Ret (tt, c') /\
  runtime.mload interp_traits #33 c' = Ret (#7, c').
Proof.
  destruct (runtime.mstore interp_traits #33 #7 (context_from interp_ctx (interp_msg 0) [])) as [[[] c']| | |] eqn:E;
    [|exfalso; vm_compute in E; discriminate E..].
  exists c'. split; [reflexivity|]. apply (mstore_mload interp_traits #33 #7 (context_from interp_ctx (interp_msg 0) [])); [reflexivity|exact E].
Defined.
