(* ===== verification/TransactionEther.v ===== *)
(** * Transactions burn the base fee

    The ether balance of a transaction (ExecuteTransaction.v): what the sender pays
    for gas covers the refund, the calldata floor and the reward of the
    beneficiary, and the base fee of the gas used leaves circulation; everything
    else, whatever the code does, only moves ether or burns it. *)
From S2P Require Import Prelude Prog Abi StakingVars Transaction Rlp VersionStack State3 StateHooks ReserveSpec StateFrames StateRefine ReserveTrack ReserveBalance StakingContract StakingSyscalls StakingRefine Demo Block BlockRlp Evm EvmFrames EvmMessages ExecuteTransaction.
#[local] Open Scope sm_scope.

(** ** Pieces of a transaction *)
Section pieces.
Context (bs : BlockReads).
Implicit Types (st : State) (a : address).

(** Setting the tracker up. *)
Lemma nets_modify_rb (f : ReserveBalance -> ReserveBalance) :
  (forall rb, rb_ok rb -> rb_ok (f rb)) -> nets bs 0 (modify_rb f).
Proof.
  intros Hf st x st' [W1 W2 W3 W4 W5] E. injection E as _ <-.
  assert (W : wf (set_rb_ (f (rb_ st)) st)) by (split; [exact W1|exact W2|exact W3|exact W4|by apply Hf]).
  split; [by split|done|done|by apply gains_same].
Qed.

Lemma nets_ret_bind {A C} n (x : A) (k : A -> SM C) : nets bs n (k x) -> nets bs n (sbind (sret x) k).
Proof. done. Qed.

Lemma nets_original a : nets bs 0 (original_account_state bs a).
Proof. apply nets_calm, calm_original. Qed.
#[local] Hint Resolve nets_original nets_account_exists : nets.

Lemma nets_create_no_rollback a : nets bs 0 (create_account_no_rollback bs a).
Proof. apply nets_evolving; [apply stays_create_no_rollback|apply evolving_create_no_rollback]. Qed.
#[local] Hint Resolve nets_create_no_rollback : nets.

Lemma nets_init rev sender tx base i ctx : nets bs 0 (init_from_tx bs rev sender tx base i ctx).
Proof.
  destruct (rev_ge rev MONAD_FOUR) eqn:Hrev.
  - intros st [] st' Hwf E.
    destruct (init_spec bs rev sender tx base i ctx st st' (wf_hook_ok _ Hwf) Hrev E) as (p & d & _ & N).
    destruct N as [N1 N2 N3 N4 N5 N6 N7].
    assert (Hrb : rb_ok (rb_ st')) by (rewrite N1; intros _; split; [done|by eexists]).
    assert (W : wf st').
    { destruct Hwf as [W1 W2 W3 W4 W5]. split; unfold dirty_at, stack in *; rewrite ?N2, ?N4, ?N5, ?N6; done. }
    split; [split; unfold owned, stack; rewrite ?N2, ?N4, ?N5, ?N6; done|intros a; by rewrite N7|by apply caches_same|].
    apply gains_same. intros a. unfold bal, recent_view. by rewrite N2, N7.
  - unfold init_from_tx. rewrite Hrev. by apply nets_modify_rb.
Qed.

Lemma nets_setup t sender tx base i ctx :
  nets bs 0 (match t with
             | EvmTraits _ => sret tt
             | MonadTraits rev => init_from_tx bs rev sender tx base i ctx
             end).
Proof. destruct t; [nets|apply nets_init]. Qed.

Lemma nets_authorizations `{Crypto} env inp : nets bs 0 (process_authorizations env bs inp).
Proof.
  unfold process_authorizations. apply nets_bind0; [nets|]. intros _. generalize (wrap 64 0).
  induction (zip _ _) as [|[e a] l IH]; intros refund; cbn [authorization_loop]; [nets|].
  apply nets_bind0; [|intros r; apply IH]. unfold process_authorization. nets.
Qed.

Lemma nets_access_all inp : nets bs 0 (access_all bs inp).
Proof.
  unfold access_all. induction (tx_access_list (ti_tx inp)) as [|e l IH]; [nets|].
  apply nets_bind0; [nets|]. intros _. apply nets_bind0; [|intros _; exact IH].
  induction (ae_keys e) as [|k ks IHk]; [nets|]. apply nets_bind0; [nets|]. intros _. exact IHk.
Qed.

Lemma nets_execute_message `{Crypto} h msg : block_reads h = bs -> nets bs 0 (execute_message h msg).
Proof.
  intros <-. unfold execute_message. assert (Hc : forall m, nets (block_reads h) 0 (evmc_call h call_fuel m)).
  { intros m. apply nets_host_call. intros m'. apply nets_check_call_precompile. }
  destruct (is_create _); [by apply nets_create_message|]. apply nets_call_message; [|done].
  intros m'. apply nets_check_call_precompile.
Qed.

Lemma nets_validate t tx sender base auths : nets bs 0 (validate_transaction t bs tx sender base auths).
Proof. unfold validate_transaction, validate_ethereum_transaction. nets. Qed.

(** ** Clean-up burns *)
Lemma zsum_le f g (X : gset address) : (forall a, f a <= g a) -> zsum f X <= zsum g X.
Proof. intros H. unfold zsum. induction (elements X) as [|a l IH]; csimpl; [lia|]. specialize (H a). lia. Qed.

Lemma for_all_gains ok f st r st' :
  (forall x, account_ (f x) = account_ x \/ account_ (f x) = None) ->
  for_all_current ok f st = (ROk r, st') -> gains bs 0 st st'.
Proof.
  intros Hf E. unfold for_all_current in E. apply sbind_ok in E as (s & st1 & [= <- <-] & E).
  apply sbind_ok in E as (u & st2 & [_ ->]%assert_ok & E). apply sbind_ok in E as (u' & st3 & [_ ->]%assert_ok & E).
  injection E as _ <-. exists (dom (current_ st)). unfold id.
  assert (Hb : forall a, bal bs (set_current_ ((fun vs => match vs with [(v, x)] => [(v, f x)] | _ => vs end) <$>
    current_ st) st) a <= bal bs st a).
  { intros a. unfold bal, recent_view, orig_view. cbn [current_ set_current_ original_].
    rewrite lookup_fmap. destruct (current_ st !! a) as [vs|]; [|simpl; lia]. simpl.
    destruct vs as [|[v x] [|]]; simpl; [lia| |lia]. unfold balance_of.
    destruct (Hf x) as [->| ->]; [lia|]. change (from_option acct_balance (wrap 256 0) None) with (wrap 256 0).
    rewrite uval_wrap_0. apply uword_range. }
  split; [|rewrite Z.add_0_r; by apply zsum_le].
  intros a Ha%not_elem_of_dom. unfold bal, recent_view, orig_view. cbn [current_ set_current_ original_].
  by rewrite lookup_fmap, Ha.
Qed.

Lemma suicides_gains c st r st' : destruct_suicides c st = (ROk r, st') -> gains bs 0 st st'.
Proof.
  intros E. unfold destruct_suicides in E. apply sbind_ok in E as (i & st1 & [= <- <-] & E).
  apply for_all_gains in E; [done|]. intros x. destruct (destructed_ _); [|by left].
  destruct c; [|by right]. simpl. destruct (account_ x) eqn:Ex; [|by left]. destruct (inc_eqb _ _); [by right|by left].
Qed.

Lemma touched_gains st r st' : destruct_touched_dead st = (ROk r, st') -> gains bs 0 st st'.
Proof.
  apply for_all_gains. intros x. destruct (touched_ _); [|by left]. simpl. destruct (is_dead _); [by right|by left].
Qed.
End pieces.

(** The definition unfolds before the bind it is made of. *)
#[local] Strategy expand [execute_impl2].

(** ** The balance sheet *)
Lemma add_logs_gas keccak256 l r : rc_gas_used (fold_left (add_log keccak256) l r) = rc_gas_used r.
Proof. revert r. induction l as [|x l IH]; intros r; [done|]. simpl. by rewrite IH. Qed.

Section burn.
Context `{Crypto} (env : BlockEnv) (bs : BlockReads) (inp : TxInput) (rev : monad_revision).
#[local] Abbreviation t := (env_traits env).
#[local] Abbreviation tx := (ti_tx inp).
#[local] Abbreviation base_fee := (default #0 (bh_base_fee_per_gas (env_header env))).
Context (Ht : t = MonadTraits rev) (Hv : static_checks env inp = Some None).

Lemma monad_after_london : eth_ge (evm_rev t) MONAD_ETH_LONDON = true.
Proof using Ht. rewrite Ht. by destruct rev. Qed.
Lemma monad_after_prague : rev_ge rev MONAD_FOUR = true -> eth_ge (evm_rev t) MONAD_ETH_PRAGUE = true.
Proof using Ht. rewrite Ht. by destruct rev. Qed.

(** The price and its parts, and that nothing overflows. *)
Lemma price_parts :
  exists p pr, gas_price t tx base_fee = Some p /\ priority_fee_per_gas tx base_fee = Some pr /\
    uval p = pr + base_fee /\ tx_gas_limit tx * p < modulus 256 /\
    (eth_ge (evm_rev t) MONAD_ETH_PRAGUE = true -> floor_data_gas tx <= tx_gas_limit tx) /\ tx_type tx <> eip4844.
Proof using Ht Hv.
  unfold static_checks in Hv. destruct (static_validate_transaction _ _ _ _ _) as [[e|]|] eqn:E; [done| |done].
  destruct (validate_inv _ _ _ _ _ E) as (H1 & _ & _ & H4 & _ & H6 & _ & _ & H9).
  assert (Hp : exists pr, priority_fee_per_gas tx base_fee = Some pr).
  { unfold priority_fee_per_gas. destruct (Z.leb_spec base_fee (tx_max_fee_per_gas tx)); [eauto|lia]. }
  destruct Hp as [pr Hp]. pose proof (priority_fee_spec _ _ _ Hp) as Hle.
  exists #(pr + base_fee), pr. assert (Hs : uval (wrap 256 (pr + base_fee)) = pr + base_fee).
  { apply uval_wrap_small. word_lia. }
  split_and!; [|done|done| |done|].
  - unfold gas_price. rewrite monad_after_london, Hp. done.
  - rewrite Hs. pose proof (uword_range (tx_gas_limit tx)). nia.
  - apply H9. by rewrite Ht.
Qed.

(** The sender pays the limit at the full price. *)
Lemma nets_irrevocable (p : u256) :
  gas_price t tx base_fee = Some p -> tx_type tx <> eip4844 -> tx_gas_limit tx * p < modulus 256 ->
  nets bs (- (tx_gas_limit tx * p)) (irrevocable_change env bs inp).
Proof using Type.
  intros Hp Ht4 Hlim. unfold irrevocable_change. apply nets_bind0; [nets|]. intros _.
  rewrite (bool_decide_eq_false_2 _ Ht4), andb_false_r, Hp.
  apply nets_ret_bind, (nets_ret_bind bs _ p). eapply nets_mono; [|apply nets_sub].
  assert (E : uval (wrap 256 (tx_gas_limit tx * p)) = tx_gas_limit tx * p).
  { apply uval_wrap_small. split; [|done]. pose proof (uword_range (tx_gas_limit tx)). pose proof (uword_range p). nia. }
  rewrite uval_wrap_0, Z.add_0_r, E, uval_wrap_small; [lia|]. rewrite <- E. apply uword_range.
Qed.

(** Whatever the transaction does, it nets no more than minus its price. *)
Lemma nets_delegated_message : nets bs 0 (delegated_message env bs inp).
Proof using Type. unfold delegated_message, resolve_delegation. nets. Qed.

Lemma nets_no_validation p ctx :
  gas_price t tx base_fee = Some p -> tx_type tx <> eip4844 -> tx_gas_limit tx * p < modulus 256 ->
  nets bs (- (tx_gas_limit tx * p)) (execute_no_validation env bs inp ctx).
Proof using Type.
  intros Hp Ht4 Hlim. unfold execute_no_validation.
  apply nets_bind0; [apply nets_setup|]. intros _.
  apply (nets_mono bs (- (tx_gas_limit tx * p) + 0)); [lia|].
  apply nets_bind; [by apply nets_irrevocable|]. intros _.
  apply nets_bind0; [destruct (eth_ge _ _); [apply nets_authorizations|nets]|]. intros refund.
  apply nets_bind0; [nets|]. intros _. apply nets_bind0; [nets|]. intros _.
  apply nets_bind0; [apply nets_access_all|]. intros _. apply nets_bind0; [nets|]. intros _.
  apply nets_bind0; [apply nets_delegated_message|]. intros msg.
  apply nets_bind0; [apply (nets_execute_message bs (tx_host env bs inp ctx) msg eq_refl)|]. intros res. nets.
Qed.

Lemma impl_gains p st r st' :
  gas_price t tx base_fee = Some p -> tx_type tx <> eip4844 -> tx_gas_limit tx * p < modulus 256 ->
  wf st -> execute_impl2 env bs inp st = (ROk (inl r), st') -> fair bs (- (tx_gas_limit tx * p)) st st'.
Proof using Type.
  intros Hp Ht4 Hlim Hwf E. unfold execute_impl2 in E. apply sbind_ok in E as (v & st1 & E1 & E).
  pose proof (nets_validate bs _ _ _ _ _ st v st1 Hwf E1) as F1. destruct v as [e|].
  { apply sbind_ok in E as (? & ? & _ & E). apply sbind_ok in E as (? & ? & _ & E). done. }
  apply (fair_trans bs 0 _ st st1); [done|]. apply sbind_ok in E as (ctx & st2 & [_ ->]%sopt_ok & E).
  apply sbind_ok in E as (r' & st3 & E3 & E). injection E as <- <-.
  apply (nets_no_validation p ctx Hp Ht4 Hlim st1 r'); [apply F1|exact E3].
Qed.

Lemma floor_gains (p : u256) (g : u64) st g' st' :
  wf st -> tx_gas_limit tx * p < modulus 256 ->
  (eth_ge (evm_rev t) MONAD_ETH_PRAGUE = true -> floor_data_gas tx <= tx_gas_limit tx) -> uval g <= tx_gas_limit tx ->
  charge_floor env bs inp p g st = (ROk g', st') ->
  fair bs (p * g - p * g') st st' /\ uval g <= g' <= tx_gas_limit tx.
Proof using Type.
  intros Hwf Hlim Hfl Hg E. unfold charge_floor in E.
  destruct (eth_ge (evm_rev t) MONAD_ETH_PRAGUE).
  2:{ injection E as <- <-. split; [|lia]. rewrite Z.sub_diag. by apply fair_refl. }
  specialize (Hfl eq_refl). destruct (Z.ltb_spec g (floor_data_gas tx)).
  2:{ injection E as <- <-. split; [|lia]. rewrite Z.sub_diag. by apply fair_refl. }
  apply sbind_ok in E as (u & st1 & E1 & E). injection E as <- <-. split; [|lia].
  eapply fair_mono; [|exact (nets_sub bs _ _ st u st1 Hwf E1)].
  assert (Hd : uval (wrap 64 (floor_data_gas tx - g)) = floor_data_gas tx - g) by (apply uval_wrap_small; word_lia).
  rewrite Hd, uval_wrap_small; [lia|]. pose proof (uword_range p). pose proof (uword_range g). nia.
Qed.

(** The refund, the floor and the reward. *)
Lemma final_gains (p pr : u256) st r receipt st' :
  gas_price t tx base_fee = Some p -> priority_fee_per_gas tx base_fee = Some pr -> uval p = pr + base_fee ->
  tx_gas_limit tx * p < modulus 256 ->
  (eth_ge (evm_rev t) MONAD_ETH_PRAGUE = true -> floor_data_gas tx <= tx_gas_limit tx) ->
  wf st -> execute_final env bs inp r st = (ROk receipt, st') ->
  gains bs (tx_gas_limit tx * p - base_fee * rc_gas_used receipt) st st' /\
  rc_gas_used receipt <= tx_gas_limit tx.
Proof using Ht.
  intros Hp Hpr Hsum Hlim Hfl Hwf E. unfold execute_final in E.
  apply sbind_ok in E as (u1 & st1 & [H1%Z.leb_le ->]%assert_ok & E).
  apply sbind_ok in E as (u2 & st2 & [H2%Z.leb_le ->]%assert_ok & E).
  apply sbind_ok in E as (u3 & st3 & [H3%Z.leb_le ->]%assert_ok & E). cbv zeta in E.
  set (refund := compute_gas_refund _ _ _ _) in E.
  assert (Hr : 0 <= refund <= tx_gas_limit tx).
  { apply refund_bounds. rewrite uval_wrap_small; [done|]. pose proof (uword_range (tx_gas_limit tx)). lia. }
  rewrite Hp in E. apply sbind_ok in E as (q & st4 & [[= <-] ->]%sopt_ok & E).
  apply sbind_ok in E as (u5 & st5 & E5 & E). pose proof (nets_add bs _ _ st u5 st5 Hwf E5) as F5.
  apply sbind_ok in E as (g & st6 & E6 & E). apply floor_gains in E6 as [F6 Hg]; [|apply F5|done|done|].
  2:{ rewrite uval_wrap_small; [|pose proof (uword_range (tx_gas_limit tx))]; lia. }
  apply sbind_ok in E as (award & st7 & [Haw ->]%sopt_ok & E).
  unfold calculate_txn_award in Haw. rewrite monad_after_london, Hpr in Haw. injection Haw as <-.
  apply sbind_ok in E as (u8 & st8 & E8 & E).
  assert (F8 : fair bs (wrap 256 (g * pr)) st6 st8) by exact (nets_add bs _ _ st6 u8 st8 (local_wf _ _ (fair_local _ _ _ _ F6)) E8).
  apply sbind_ok in E as (u9 & st9 & E9%(suicides_gains bs) & E).
  apply sbind_ok in E as (u10 & st10 & E10%(touched_gains bs) & E).
  apply sbind_ok in E as (l & st11 & E11 & E). injection E as <- <-.
  assert (Hst : st11 = st10).
  { unfold logs in E11. apply sbind_ok in E11 as (? & ? & [= _ <-] & E11). by apply sopt_ok in E11 as [_ ->]. }
  subst st11.
  rewrite add_logs_gas. cbn [rc_gas_used]. split; [|lia].
  assert (M1 : uval (wrap 256 (p * refund)) = p * refund).
  { apply uval_wrap_small. pose proof (uword_range p). nia. }
  assert (M2 : uval (wrap 64 (tx_gas_limit tx - refund)) = tx_gas_limit tx - refund).
  { apply uval_wrap_small. pose proof (uword_range (tx_gas_limit tx)). lia. }
  assert (M3 : uval (wrap 256 (g * pr)) = g * pr).
  { apply uval_wrap_small. pose proof (uword_range g). pose proof (uword_range pr). pose proof (uword_range base_fee). nia. }
  rewrite M1 in F5. rewrite M2 in F6. rewrite M3 in F8.
  eapply (gains_mono bs _ _ st st10); [|eapply gains_trans; [apply F5|eapply gains_trans; [apply F6|
    eapply gains_trans; [apply F8|eapply gains_trans; [exact E9|exact E10]]]]].
  nia.
Qed.
End burn.

(** C2: on every Monad revision a transaction that passes its checks and runs to a
    receipt leaves circulation by at least the base fee times the gas the receipt
    reports, which is at most the gas limit: no other account than those of a
    finite set changed its balance, and the total of the set fell by that much. *)
Theorem transaction_burns_base_fee `{Crypto} (env : BlockEnv) (bs : BlockReads) (inp : TxInput) rev inc r st1 receipt st2 :
  env_traits env = MonadTraits rev -> static_checks env inp = Some None ->
  execute_impl2 env bs inp (new_state inc false) = (ROk (inl r), st1) ->
  execute_final env bs inp r st1 = (ROk receipt, st2) ->
  rc_gas_used receipt <= tx_gas_limit (ti_tx inp) /\
  exists X : gset address, (forall a, a ∉ X -> bal bs st2 a = bal bs (new_state inc false) a) /\
    zsum (bal bs st2) X + default #0 (bh_base_fee_per_gas (env_header env)) * rc_gas_used receipt <=
    zsum (bal bs (new_state inc false)) X.
Proof.
  intros Ht Hv E1 E2. destruct (price_parts env inp rev Ht Hv) as (p & pr & Hp & Hpr & Hs & Hlim & Hfl & H4).
  pose proof (impl_gains env bs inp p _ r st1 Hp H4 Hlim (wf_new_state _ _) E1) as F1.
  destruct (final_gains env bs inp rev Ht p pr st1 r receipt st2 Hp Hpr Hs Hlim Hfl (local_wf _ _ (fair_local _ _ _ _ F1)) E2)
    as [G Hg].
  split; [done|]. destruct (gains_trans bs _ _ _ _ _ (fair_gains _ _ _ _ F1) G) as (X & HX & HZ). exists X. split; [done|]. lia.
Qed.

(** ** A concrete transaction

    Account 1 sends the transaction to contract 2, which writes its storage and sends
    3 wei on. *)
Definition paid_tx : Transaction :=
  mk_tx (mk_sc #1 #1 (Some #143) #0) #0 #100 #100000 #7 (Some #2) eip1559 [ #0; #1 ]
    [mk_access #5 [ #1; #2 ]] #2 #0 [] [].
Definition paid_input : TxInput := mk_input 0 paid_tx #1 [].
Definition paid_env : BlockEnv :=
  mk_env (MonadTraits MONAD_NINE) #143 demo_header (mk_ctx ∅ ∅ ∅ [ #1 ] [[]]) (fun _ => None) true
    (fun _ => None) (fun _ => evm_vm).
Definition paid_reads : BlockReads :=
  mk_reads (fun a => if (a =? 1) || (a =? 2)
      then Some (mk_account #(10 ^ 20) NULL_HASH #0 (mk_incarnation #0 #0)) else None)
    (fun _ _ _ => #0) (fun _ => []).
Definition paid_impl := execute_impl2 paid_env paid_reads paid_input (new_state (mk_incarnation #100 #1) false).

Lemma paid_runs : paid_impl.1 = ROk (inl (simple_result Success 0)).
Proof. vm_compute. reflexivity. Qed.
Definition paid_final := execute_final paid_env paid_reads paid_input (simple_result Success 0) paid_impl.2.
Definition paid_receipt : Receipt := match paid_final.1 with ROk r => r | _ => mk_receipt new_bloom #0 #0 legacy [] end.
Lemma paid_finishes : paid_final.1 = ROk paid_receipt /\ uval (rc_gas_used paid_receipt) = 100000.
Proof. vm_compute. split; reflexivity. Qed.

Lemma transaction_burns_base_fee_witness : exists X : gset address,
  zsum (bal paid_reads paid_final.2) X + 50 * 100000 <=
    zsum (bal paid_reads (new_state (mk_incarnation #100 #1) false)) X.
Proof.
  destruct (transaction_burns_base_fee paid_env paid_reads paid_input MONAD_NINE (mk_incarnation #100 #1)
    (simple_result Success 0) paid_impl.2 paid_receipt paid_final.2 eq_refl ltac:(vm_compute; reflexivity)
    (run_ok _ _ _ paid_runs) (run_ok _ _ _ (proj1 paid_finishes))) as (_ & X & _ & HX).
  exists X. rewrite (proj2 paid_finishes) in HX. exact HX.
Defined.
