(* ===== verification/EvmLockstep.v ===== *)
(** * Speculative transactions

    The lockstep of Lockstep.v for whole transactions: the validation, the
    authorizations, every message with the contracts, the precompiles and the
    scan of the reserve-balance rule, and system transactions. *)
From S2P Require Import Prelude Prog Abi StakingVars Transaction Rlp VersionStack State3 StateHooks ReserveSpec StateFrames StateRefine ReserveTrack ReserveBalance Lockstep StakingContract StakingSyscalls BlockHash Block Evm ExecuteTransaction.
#[local] Open Scope sm_scope.

Section lockstep.
Context (bs0 bs1 : BlockReads) (inc0 : Incarnation) (Hrp : replayable bs0 bs1 inc0).
#[local] Set Default Proof Using "Type*".
Implicit Types (P : Prop) (a : address).
#[local] Abbreviation steady := (steady bs1 inc0).

(** ** Contracts on the transaction state *)
Lemma steady_ignore {A} P (m0 m1 : SM A) : steady P m0 m1 any -> steady P (ignore m0) (ignore m1) any.
Proof. intros H. unfold ignore. eapply steady_bind; [exact H|]. intros x. steady. Qed.

(** Code that keeps a list of logs beside the state. *)
Record beside {X} P (h0 h1 : State * list Log -> X * (State * list Log)) : Prop := mk_beside {
  be_mono : forall s, agrees bs1 (h0 s).2.1 -> agrees bs1 s.1;
  be_lock : P -> forall s, agrees bs1 (h0 s).2.1 -> accounts_ok bs1 inc0 s.1 ->
    h1 s = h0 s /\ accounts_ok bs1 inc0 (h0 s).2.1;
  be_mode : forall s, relaxed_validation_ (h0 s).2.1 = relaxed_validation_ s.1;
}.

Lemma beside_state {A} P (m0 m1 : SM A) : steady P m0 m1 any -> beside P (on_state m0) (on_state m1).
Proof.
  intros [H1 H2 H3]. unfold on_state. split; [intros [st l]|intros HP [st l]|intros [st l]]; simpl.
  - specialize (H1 st). by destruct (m0 st).
  - specialize (H2 HP st). destruct (m0 st) as [r st']. simpl in *. intros Ha Hk.
    by destruct (H2 Ha Hk) as (-> & ? & _).
  - specialize (H3 st). by destruct (m0 st).
Qed.

Lemma beside_handle P X op : beside P (handle_state bs0 X op) (handle_state bs1 X op).
Proof.
  destruct op; cbn [handle_state]; try (apply beside_state; first [apply steady_ignore|idtac]; steady).
  by split; intros.
Qed.

Lemma beside_run {E A} P (p : prog E A) : beside P (run_with (handle_state bs0) p) (run_with (handle_state bs1) p).
Proof.
  induction p as [x|e|m| |X op k IH]; try (by split; intros).
  destruct (beside_handle P X op) as [M1 M2 M3]. split; [intros s|intros HP s|intros s]; cbn [run_with];
    [specialize (M1 s)|specialize (M2 HP s)|specialize (M3 s)];
    destruct (handle_state bs0 X op s) as [[x|[]|m|] s'] eqn:E0; simpl in *; try done.
  - intros Ha. by apply M1, (be_mono _ _ _ (IH x)).
  - intros Ha Hk. destruct (M2 (be_mono _ _ _ (IH x) _ Ha) Hk) as [-> Hk']. by apply (be_lock _ _ _ (IH x)).
  - intros Ha Hk. by destruct (M2 Ha Hk) as [-> Hk'].
  - intros Ha Hk. by destruct (M2 Ha Hk) as [-> Hk'].
  - by rewrite (be_mode _ _ _ (IH x)).
Qed.

Lemma steady_run_contract {A} P (p : prog Empty_set A) : steady P (run_contract bs0 p) (run_contract bs1 p) any.
Proof.
  destruct (beside_run P p) as [H1 H2 H3]. unfold run_contract. split; [intros st|intros HP st|intros st].
  - specialize (H1 (st, [])). by destruct (run_with _ p (st, [])) as [r s].
  - specialize (H2 HP (st, [])). destruct (run_with (handle_state bs0) p (st, [])) as [r s]. simpl in *.
    intros Ha Hk. by destruct (H2 Ha Hk) as [-> ?].
  - specialize (H3 (st, [])). by destruct (run_with _ p (st, [])) as [r s].
Qed.

Lemma steady_run_syscall {A} P (p : prog error A) : steady P (run_syscall bs0 p) (run_syscall bs1 p) any.
Proof.
  destruct (beside_run P p) as [H1 H2 H3]. unfold run_syscall. split; [intros st|intros HP st|intros st].
  - specialize (H1 (st, [])). by destruct (run_with _ p (st, [])) as [[] s].
  - specialize (H2 HP (st, [])). destruct (run_with (handle_state bs0) p (st, [])) as [r s]. simpl in *.
    intros Ha Hk. destruct (H2 ltac:(by destruct r) Hk) as [-> ?]. by destruct r.
  - specialize (H3 (st, [])). by destruct (run_with _ p (st, [])) as [[] s].
Qed.
#[local] Hint Resolve steady_run_contract steady_run_syscall : steady.

(** ** The reserve-balance rule *)
Lemma steady_init P rev sender tx base i ctx :
  steady P (init_from_tx bs0 rev sender tx base i ctx) (init_from_tx bs1 rev sender tx base i ctx) any.
Proof. unfold init_from_tx, ctx_ok. steady. Qed.

Lemma steady_scan_account P rev sender fees i ctx a vs :
  steady P (scan_account bs0 rev sender fees i ctx a vs) (scan_account bs1 rev sender fees i ctx a vs) any.
Proof. unfold scan_account, scan_skip, scan_balance. steady. Qed.

Lemma steady_revert_transaction P rev sender tx base i ctx :
  steady P (revert_transaction bs0 rev sender tx base i ctx) (revert_transaction bs1 rev sender tx base i ctx) any.
Proof.
  unfold revert_transaction, dipped_into_reserve, ctx_ok. steady. generalize (wrap 256 (tx_gas_limit tx * x0)). intros fees.
  match goal with |- context [map_to_list ?m] => generalize (map_to_list m) end. intros l.
  match goal with |- Lockstep.steady _ _ ?Q _ _ _ => generalize Q end.
  induction l as [|[a vs] l IH]; intros Q; cbn [scan_accounts]; [steady|].
  eapply steady_bind; [apply steady_scan_account|]. intros []; [steady|apply IH].
Qed.
#[local] Hint Resolve steady_init steady_revert_transaction : steady.

(** ** Messages *)
Lemma steady_check_call_precompile `{Crypto} P t resolve msg :
  steady P (check_call_precompile t bs0 resolve msg) (check_call_precompile t bs1 resolve msg) any.
Proof.
  unfold check_call_precompile, check_call_reserve_balance, precompile_dipped_into_reserve, revert_transaction_cached,
    dipped_into_reserve_cached. steady.
Qed.

Section messages.
Context (t : Traits) (keccak256 : byte_string -> bytes32) (tx : Transaction) (base_fee_per_gas : u256) (i : nat)
  (ctx : ChainContext) (lg : bool) (bhb : u64 -> option bytes32).
Context (pre0 pre1 : Message -> SM (option Result)) (pa : address -> bool) (vm : Message -> byte_string -> vm_prog).
Context (Hpre : forall P msg, steady P (pre0 msg) (pre1 msg) any).
#[local] Hint Resolve Hpre : steady.

Lemma steady_transfer_balances P msg to :
  steady P (transfer_balances bs0 lg msg to) (transfer_balances bs1 lg msg to) any.
Proof using Hrp. unfold transfer_balances, emit_native_transfer_event. steady. Qed.
#[local] Hint Resolve steady_transfer_balances : steady.

Lemma steady_reject_frame P : steady P (reject_frame bs0) (reject_frame bs1) any.
Proof using Hrp. unfold reject_frame. steady. Qed.
#[local] Hint Resolve steady_reject_frame : steady.

Lemma steady_verdict P msg :
  steady P (reserve_verdict t bs0 tx base_fee_per_gas i ctx msg) (reserve_verdict t bs1 tx base_fee_per_gas i ctx msg) any.
Proof using Hrp. unfold reserve_verdict. steady. Qed.
#[local] Hint Resolve steady_verdict : steady.

Lemma steady_pre_call P msg : steady P (pre_call t bs0 lg msg) (pre_call t bs1 lg msg) any.
Proof using Hrp. unfold pre_call, sender_has_balance. steady. Qed.
Lemma steady_post_call P r : steady P (post_call bs0 r) (post_call bs1 r) any.
Proof using Hrp. unfold post_call. steady. Qed.
Lemma steady_deploy P a r :
  steady P (deploy_contract_code t bs0 keccak256 a r) (deploy_contract_code t bs1 keccak256 a r) any.
Proof using Hrp. unfold deploy_contract_code. steady. Qed.
#[local] Hint Resolve steady_pre_call steady_post_call steady_deploy : steady.

Section host.
Context (call0 call1 : Message -> SM Result) (Hcall : forall P msg, steady P (call0 msg) (call1 msg) any).
#[local] Hint Resolve Hcall : steady.

Lemma steady_host {X} P (o : hostE X) :
  steady P (run_host t bs0 lg bhb pa call0 o) (run_host t bs1 lg bhb pa call1 o) any.
Proof using Hrp Hcall.
  destruct o; cbn [run_host]; unfold get_block_hash, get_block_hash_history, emit_native_transfer_event; steady.
Qed.

Lemma steady_vm P p : steady P (run_vm t bs0 lg bhb pa call0 p) (run_vm t bs1 lg bhb pa call1 p) any.
Proof using Hrp Hcall.
  revert P. induction p as [r| |X o k IH]; intros P; cbn [run_vm]; [steady..|].
  eapply steady_bind; [apply steady_host|]. intros x. apply IH.
Qed.
#[local] Hint Resolve steady_vm : steady.

Lemma steady_call_message P msg :
  steady P (execute_call_message t bs0 tx base_fee_per_gas i ctx lg bhb pre0 pa vm call0 msg)
    (execute_call_message t bs1 tx base_fee_per_gas i ctx lg bhb pre1 pa vm call1 msg) any.
Proof. unfold execute_call_message. steady. Qed.

Lemma steady_create_frame P msg a :
  steady P (create_frame t bs0 keccak256 tx base_fee_per_gas i ctx lg bhb pa vm call0 msg a)
    (create_frame t bs1 keccak256 tx base_fee_per_gas i ctx lg bhb pa vm call1 msg a) any.
Proof using Hrp Hcall. unfold create_frame. steady. Qed.
#[local] Hint Resolve steady_create_frame : steady.

Lemma steady_create_message P msg :
  steady P (execute_create_message t bs0 keccak256 tx base_fee_per_gas i ctx lg bhb pa vm call0 msg)
    (execute_create_message t bs1 keccak256 tx base_fee_per_gas i ctx lg bhb pa vm call1 msg) any.
Proof using Hrp Hcall. unfold execute_create_message, create_insufficient, sender_has_balance. steady. Qed.
End host.

Lemma steady_host_call P fuel msg :
  steady P (host_call t bs0 keccak256 tx base_fee_per_gas i ctx lg bhb pre0 pa vm fuel msg)
    (host_call t bs1 keccak256 tx base_fee_per_gas i ctx lg bhb pre1 pa vm fuel msg) any.
Proof.
  revert P msg. induction fuel as [|fuel IH]; intros P msg; cbn [host_call]; [apply steady_halt|].
  destruct (is_create _); [|by apply steady_call_message].
  eapply steady_bind; [by apply steady_create_message|]. intros r. steady.
Qed.
End messages.

(** ** Transactions *)
Section transaction.
Context `{Crypto} (env : BlockEnv) (inp : TxInput).

Lemma steady_validate P t tx sender base auths :
  steady P (validate_transaction t bs0 tx sender base auths) (validate_transaction t bs1 tx sender base auths) any.
Proof. unfold validate_transaction, validate_ethereum_transaction. steady. Qed.

Lemma steady_irrevocable P : steady P (irrevocable_change env bs0 inp) (irrevocable_change env bs1 inp) any.
Proof. unfold irrevocable_change. steady. Qed.

Lemma steady_authorizations P : steady P (process_authorizations env bs0 inp) (process_authorizations env bs1 inp) any.
Proof.
  unfold process_authorizations. eapply steady_bind; [apply steady_assert|]. intros ?.
  match goal with |- Lockstep.steady _ _ ?Q _ _ _ => generalize Q end. generalize (wrap 64 0).
  induction (zip _ _) as [|[e a] l IH]; intros refund Q; cbn [authorization_loop]; [steady|].
  apply (steady_bind _ _ _ _ _ _ _ any); [|intros r; apply IH]. unfold process_authorization. steady.
Qed.

Lemma steady_access_all P : steady P (access_all bs0 inp) (access_all bs1 inp) any.
Proof.
  unfold access_all. revert P. induction (tx_access_list (ti_tx inp)) as [|e l IH]; intros P; [steady|].
  eapply steady_bind; [by apply steady_access_account|]. intros ?.
  apply (steady_bind _ _ _ _ _ _ _ any); [|intros ?; apply IH].
  match goal with |- Lockstep.steady _ _ ?Q _ _ _ => generalize Q end.
  induction (ae_keys e) as [|k ks IHk]; intros Q; [apply steady_ret_any|].
  eapply steady_bind; [by apply steady_access_storage|]. intros ?. apply IHk.
Qed.

Lemma steady_delegated_message P : steady P (delegated_message env bs0 inp) (delegated_message env bs1 inp) any.
Proof. unfold delegated_message, resolve_delegation. steady. Qed.

Lemma steady_execute_message P ctx msg :
  steady P (execute_message (tx_host env bs0 inp ctx) msg) (execute_message (tx_host env bs1 inp ctx) msg) any.
Proof.
  unfold execute_message, evmc_call. destruct (is_create _).
  - apply steady_create_message. intros Q m. apply steady_host_call. intros R m'. apply steady_check_call_precompile.
  - apply steady_call_message.
    + intros Q m'. apply steady_check_call_precompile.
    + intros Q m. apply steady_host_call. intros R m'. apply steady_check_call_precompile.
Qed.
#[local] Hint Resolve steady_validate steady_irrevocable steady_authorizations steady_access_all
  steady_delegated_message steady_execute_message : steady.

Lemma steady_no_validation P ctx :
  steady P (execute_no_validation env bs0 inp ctx) (execute_no_validation env bs1 inp ctx) any.
Proof. unfold execute_no_validation. steady. Qed.
#[local] Hint Resolve steady_no_validation : steady.

(** The error path notes the sender's balance as one to be validated. *)
Lemma steady_impl2 P : steady P (execute_impl2 env bs0 inp) (execute_impl2 env bs1 inp) any.
Proof.
  unfold execute_impl2. steady_step. destruct x as [e|].
  - apply steady_exact. intros o. steady.
  - steady.
Qed.

Lemma steady_system P rev tx sender : steady P (execute_system rev bs0 tx sender) (execute_system rev bs1 tx sender) any.
Proof. unfold execute_system, validate_system_transaction. steady. Qed.
End transaction.
End lockstep.
