(* ===== verification/Speculation.v ===== *)
(** * Optimistic transactions are sequential

    A transaction of a block runs first on whatever reads the block state gives
    while earlier transactions are still being merged; after them, its reads are
    checked, and it runs again if the check fails (ExecuteTransaction.v).  The
    theorem: the receipt or error and the block state are those of running the
    transaction after its predecessors.  [extends] is the equivalence of block
    states it needs: an attempt that is thrown away still leaves the entries it
    read in the block state. *)
From Stdlib Require Import FunctionalExtensionality.
From S2P Require Import Prelude Prog Abi StakingVars Transaction Rlp VersionStack State3 StateHooks ReserveSpec StateFrames StateRefine ReserveTrack ReserveBalance Lockstep BlockState StakingContract StakingSyscalls Block Evm ExecuteTransaction EvmLockstep.
Import block_state.
#[local] Open Scope sm_scope.

(** ** The sender is read first *)
Section first.
Context (bs : BlockReads) (a : address).

Definition loaded_first (st : State) : State :=
  set_original_ {[a := new_original (State3.read_account bs a)]} st.

(** From a new state, the code may as well start with the account loaded. *)
Definition reads_first {A} (m : SM A) : Prop :=
  forall st x st', original_ st = ∅ -> current_ st = ∅ -> m (loaded_first st) = (ROk x, st') -> m st = (ROk x, st').

Lemma first_original : reads_first (original_account_state bs a).
Proof.
  intros st x st' Eo Ec. unfold original_account_state, sbind, sget, smodify, sret, loaded_first.
  destruct st as [i o c l cd v d r rb]. cbn [original_ current_] in Eo, Ec. subst o c.
  cbn [original_ set_original_]. by rewrite lookup_singleton_eq, lookup_empty.
Qed.

Lemma first_bind {A C} (m : SM A) (k : A -> SM C) : reads_first m -> reads_first (sbind m k).
Proof.
  intros H st x st' Eo Ec E. apply sbind_ok in E as (y & st1 & E1 & E). unfold sbind. by rewrite (H st y st1).
Qed.

(** Code that does not look at the state. *)
Lemma first_after {A C} (m : SM A) (k : A -> SM C) :
  (forall st x st', m st = (ROk x, st') -> st' = st /\ forall s, m s = (ROk x, s)) ->
  (forall x, reads_first (k x)) -> reads_first (sbind m k).
Proof.
  intros Hm Hk st x st' Eo Ec E. apply sbind_ok in E as (y & st1 & E1 & E). destruct (Hm _ _ _ E1) as [-> Hy].
  unfold sbind. rewrite Hy. by apply Hk.
Qed.
Lemma first_ret_bind {A C} (y : A) (k : A -> SM C) : reads_first (k y) -> reads_first (sbind (sret y) k).
Proof. done. Qed.
Lemma first_opt_bind {A C} (o : option A) (k : A -> SM C) :
  (forall x, reads_first (k x)) -> reads_first (sbind (sopt o) k).
Proof. intros H. destruct o; [apply first_ret_bind, H|]. by intros st x st' _ _ E. Qed.

Lemma first_recent_state : reads_first (recent_account_state bs a).
Proof.
  intros st x st' Eo Ec E. unfold recent_account_state in *. apply sbind_ok in E as (o & st1 & [= <- <-] & E).
  unfold sbind at 1, sget. cbn [current_ loaded_first set_original_] in E. rewrite Ec, lookup_empty in *.
  by apply (first_bind _ _ first_original).
Qed.

Lemma first_account_exists : reads_first (account_exists bs a).
Proof. apply first_bind, first_bind, first_recent_state. Qed.
Lemma first_get_balance : reads_first (get_balance bs a).
Proof. apply first_bind, first_bind, first_recent_state. Qed.
End first.

Section first_tx.
Context `{Crypto} (env : BlockEnv) (bs : BlockReads) (inp : TxInput).

Lemma first_impl2 : reads_first bs (ti_sender inp) (execute_impl2 env bs inp).
Proof.
  unfold execute_impl2, validate_transaction, validate_ethereum_transaction.
  destruct (total_cost (ti_tx inp)); [do 3 apply first_bind; apply first_account_exists|].
  assert (He : forall e, reads_first bs (ti_sender inp) (o <- original_account_state bs (ti_sender inp) ;;
    set_original (ti_sender inp) (set_validate_exact_balance o) ;; sret (inr e : Result + ExecError))).
  { intros e. apply first_bind, first_original. }
  destruct (env_traits env) as [r|r]; [apply first_ret_bind, He|].
  destruct (rev_ge r MONAD_FOUR); [|apply first_ret_bind, He].
  apply first_bind, first_ret_bind. rewrite bool_decide_eq_false_2 by tauto.
  apply first_opt_bind. intros p. apply first_bind, first_get_balance.
Qed.

Lemma first_tx_impl : reads_first bs (ti_sender inp) (tx_impl env inp bs).
Proof. unfold tx_impl. apply first_impl2. Qed.

Lemma first_system rev tx sender : reads_first bs sender (execute_system rev bs tx sender).
Proof. apply first_bind, first_bind, first_account_exists. Qed.
End first_tx.

(** ** Block states that extend each other *)
Section extends.
Context (db : Db).
Implicit Types (B : BlockState) (a : address) (st : State).

(** The same accounts, before and after, slots and code; more may be loaded. *)
Record extends B B' : Prop := mk_extends {
  ex_account : forall a, delta_account (delta_of db B' a) = delta_account (delta_of db B a);
  ex_slot : forall a i k, slot_of db (delta_of db B' a) a i k = slot_of db (delta_of db B a) a i k;
  ex_code : block_code_ B' = block_code_ B;
  ex_loaded : forall a, is_Some (state_ B !! a) -> is_Some (state_ B' !! a);
}.

#[export] Instance extends_preorder : PreOrder extends.
Proof. split; [by split|]. intros B1 B2 B3 [] []. split; [congruence..|auto]. Qed.

Lemma extends_reads B B' : extends B B' -> reads_of db B' = reads_of db B.
Proof.
  intros [H1 H2 H3 _]. unfold reads_of. f_equal.
  - apply functional_extensionality. intros a. by rewrite H1.
  - do 3 (apply functional_extensionality; intros). apply H2.
  - apply functional_extensionality. intros h. unfold block_state.read_code. by rewrite H3.
Qed.

(** ** What reads leave behind *)

(** [B'] is [B] with more loaded, all of it reads. *)
Record loads B B' : Prop := mk_loads {
  lo_extends : extends B B';
  lo_ok : block_ok B -> block_ok B';
  lo_slots : forall a k, is_Some (delta_storage (delta_of db B a) !! k) -> is_Some (delta_storage (delta_of db B' a) !! k);
}.

#[export] Instance loads_preorder : PreOrder loads.
Proof. split; [by split|]. intros B1 B2 B3 [] []. split; [by etrans|auto..]. Qed.

Lemma loads_update B a d :
  delta_account d = delta_account (delta_of db B a) ->
  (forall i k, slot_of db d a i k = slot_of db (delta_of db B a) a i k) ->
  ((delta_account d).2 = None -> delta_storage (delta_of db B a) = ∅ -> delta_storage d = ∅) ->
  (forall k, is_Some (delta_storage (delta_of db B a) !! k) -> is_Some (delta_storage d !! k)) ->
  loads B (set_state_ (<[a := d]> (state_ B)) B).
Proof.
  intros E1 E2 E3 E4.
  assert (Hd : forall b, delta_of db (set_state_ (<[a := d]> (state_ B)) B) b = if decide (b = a) then d else delta_of db B b).
  { intros b. unfold delta_of. simpl. destruct (decide (b = a)) as [->|Hb]; [by rewrite lookup_insert_eq|].
    by rewrite lookup_insert_ne. }
  split; [split|..].
  - intros b. rewrite Hd. by destruct (decide (b = a)) as [->|].
  - intros b i k. rewrite Hd. destruct (decide (b = a)) as [->|]; [apply E2|done].
  - done.
  - intros b Hb. simpl. destruct (decide (b = a)) as [->|]; [by rewrite lookup_insert_eq|by rewrite lookup_insert_ne].
  - intros Hok. apply block_ok_update; [done|]. intros Hn. apply E3; [done|]. rewrite E1 in Hn.
    unfold delta_of in *. destruct (state_ B !! a) as [d0|] eqn:Ed; [by apply (Hok a)|done].
  - intros b k. rewrite Hd. destruct (decide (b = a)) as [->|]; [apply E4|done].
Qed.

Lemma read_account_loads a B :
  let B' := (block_state.read_account db a B).2 in
  loads B B' /\ forall b, is_Some (state_ B' !! b) <-> is_Some (state_ B !! b) \/ b = a.
Proof.
  unfold block_state.read_account. destruct (state_ B !! a) as [d|] eqn:E; simpl.
  - split; [done|]. intros b. split; [by left|]. intros [H| ->]; [done|by eexists].
  - split; [apply loads_update; unfold delta_of; rewrite E; done|]. intros b.
    destruct (decide (a = b)) as [<-|Hb].
    + rewrite lookup_insert_eq. split; [by right|by eexists].
    + rewrite lookup_insert_ne by done. split; [by left|]. by intros [?| ->].
Qed.

Lemma read_storage_loads a i k B :
  is_Some (state_ B !! a) -> exists v B', block_state.read_storage db a i k B = Some (v, B') /\ loads B B' /\
    (forall b, is_Some (state_ B' !! b) <-> is_Some (state_ B !! b)) /\
    (lives_as (delta_account (delta_of db B a)).2 i = true -> is_Some (delta_storage (delta_of db B' a) !! k)).
Proof.
  intros [d E]. unfold block_state.read_storage, delta_of. rewrite E. cbn [from_option default].
  destruct (lives_as (delta_account d).2 i) eqn:El; cbn [negb].
  2:{ exists #0, B. split_and!; [done..|unfold id; congruence]. }
  destruct (delta_storage d !! k) as [v|] eqn:Ek.
  { exists v.2, B. split_and!; try done. intros _. rewrite E. simpl. by rewrite Ek. }
  eexists _, _. split_and!; [done|apply loads_update; unfold delta_of; rewrite E; simpl; try done|..].
  - intros i' k'. unfold slot_of. simpl. destruct (lives_as (delta_account d).2 i') eqn:El'; [|done].
    destruct (decide (k = k')) as [<-|Hk]; [|by rewrite lookup_insert_ne].
    rewrite lookup_insert_eq, Ek. simpl. apply lives_as_spec in El as (ac & E1 & <-).
    apply lives_as_spec in El' as (ac' & E2 & <-). rewrite E1 in E2. by injection E2 as <-.
  - intros Hn. by rewrite Hn in El.
  - intros k' Hk. destruct (decide (k = k')) as [<-|]; [by rewrite lookup_insert_eq|by rewrite lookup_insert_ne].
  - intros b. simpl. destruct (decide (a = b)) as [<-|]; [rewrite lookup_insert_eq, E; split; by eexists|
      by rewrite lookup_insert_ne].
  - intros _. simpl. rewrite lookup_insert_eq. simpl. by rewrite lookup_insert_eq.
Qed.

Lemma load_slots_spec a i keys B :
  is_Some (state_ B !! a) -> exists B', load_slots db a i keys B = Some B' /\ loads B B' /\
    (forall b, is_Some (state_ B' !! b) <-> is_Some (state_ B !! b)) /\
    (forall k, k ∈ keys -> lives_as (delta_account (delta_of db B a)).2 i = true ->
       is_Some (delta_storage (delta_of db B' a) !! k)).
Proof.
  revert B. induction keys as [|k keys IH]; intros B Ha; cbn [load_slots].
  { exists B. split_and!; [done..|]. by intros k []%elem_of_nil. }
  destruct (read_storage_loads a i k B Ha) as (v & B1 & -> & L1 & D1 & S1). cbn [mbind option_bind].
  destruct (IH B1) as (B2 & E2 & L2 & D2 & S2); [by apply D1|].
  exists B2. split_and!; [done|by etrans|intros b; by rewrite D2|].
  rewrite (ex_account _ _ (lo_extends _ _ L1)) in S2.
  intros k' [-> |Hk]%elem_of_cons Hl; [|by apply S2]. by apply (lo_slots _ _ L2), S1.
Qed.

(** The slots of an attempt's account are loaded, unless they are dead. *)
Definition slots_in B a (o : OriginalAccountState) : Prop :=
  forall ac k, account_ (o_state o) = Some ac -> is_Some (storage_ (o_state o) !! k) ->
    lives_as (delta_account (delta_of db B a)).2 (acct_incarnation ac) = true ->
    is_Some (delta_storage (delta_of db B a) !! k).

Lemma slots_in_loads B B' a o : loads B B' -> slots_in B a o -> slots_in B' a o.
Proof.
  intros L H ac k E Hk Hl. rewrite (ex_account _ _ (lo_extends _ _ L)) in Hl. by apply (lo_slots _ _ L), (H ac).
Qed.

Lemma load_account_spec a o B :
  exists B', load_account db a o B = Some B' /\ loads B B' /\
    (forall b, is_Some (state_ B' !! b) <-> is_Some (state_ B !! b) \/ b = a) /\ slots_in B' a o.
Proof.
  destruct (read_account_loads a B) as [L D]. unfold load_account.
  set (B1 := (block_state.read_account db a B).2) in *. unfold slots_in.
  destruct (account_ (o_state o)) as [ac|]; [|exists B1; by split_and!].
  destruct (load_slots_spec a (acct_incarnation ac) (map_to_list (storage_ (o_state o))).*1 B1)
    as (B2 & -> & L2 & D2 & S2); [apply D; by right|].
  exists B2. split_and!; [done|by etrans|intros b; by rewrite D2|].
  intros ac' k [= <-] [v Hv%elem_of_map_to_list] Hl. rewrite (ex_account _ _ (lo_extends _ _ L2)) in Hl.
  apply S2; [|done]. by apply (list_elem_of_fmap_2 fst) in Hv.
Qed.

Lemma load_accounts_spec l B :
  exists B', load_accounts db l B = Some B' /\ loads B B' /\
    (forall b, is_Some (state_ B' !! b) <-> is_Some (state_ B !! b) \/ b ∈ l.*1) /\
    (forall a o, (a, o) ∈ l -> slots_in B' a o).
Proof.
  revert B. induction l as [|[a o] l IH]; intros B; cbn [load_accounts].
  { exists B. split_and!; [done..| |by intros ?? []%elem_of_nil]. intros b. rewrite elem_of_nil. tauto. }
  destruct (load_account_spec a o B) as (B1 & -> & L1 & D1 & S1). cbn [mbind option_bind].
  destruct (IH B1) as (B2 & E2 & L2 & D2 & S2). exists B2. split_and!; [done|by etrans| |].
  - intros b. rewrite D2, D1. cbn [fmap list_fmap fst]. rewrite elem_of_cons. tauto.
  - intros b ob [[= -> ->]|Hb]%elem_of_cons; [by apply (slots_in_loads B1)|by apply S2].
Qed.

(** Loading the reads of a state. *)
Lemma load_reads_spec st B :
  block_ok B -> exists B', load_reads db st B = Some B' /\ extends B B' /\ block_ok B' /\
    (forall b, is_Some (state_ B' !! b) <-> is_Some (state_ B !! b) \/ is_Some (original_ st !! b)) /\
    recorded db B' st.
Proof.
  intros Hok. destruct (load_accounts_spec (map_to_list (original_ st)) B) as (B' & E & L & D & S).
  exists B'. split_and!; [done|apply L|by apply L| |].
  - intros b. rewrite D. split; (intros [Hb|Hb]; [by left|right]).
    + apply list_elem_of_fmap in Hb as ([c o] & -> & Hc%elem_of_map_to_list). by eexists.
    + destruct Hb as [o Ho%elem_of_map_to_list]. by apply (list_elem_of_fmap_2 fst) in Ho.
  - intros a o k ac Ho%elem_of_map_to_list Hk Ea.
    destruct (lives_as (delta_account (delta_of db B' a)).2 (acct_incarnation ac)) eqn:El.
    + left. by apply (S a o Ho ac).
    + right. cbn [State3.read_storage reads_of]. unfold slot_of. by rewrite El.
Qed.

(** Loading the same reads keeps one block state an extension of the other. *)
Lemma load_reads_extends st B B' B1 :
  block_ok B -> block_ok B' -> extends B B' -> load_reads db st B = Some B1 ->
  exists B1', load_reads db st B' = Some B1' /\ extends B1 B1' /\ block_ok B1 /\ block_ok B1'.
Proof.
  intros Hok Hok' Hx E. destruct (load_reads_spec st B Hok) as (Bx & E1 & X1 & O1 & D1 & _).
  rewrite E in E1. injection E1 as <-. destruct (load_reads_spec st B' Hok') as (B1' & E1' & X1' & O1' & D1' & _).
  exists B1'. split_and!; [done| |done..]. destruct X1 as [A1 A2 A3 A4], X1' as [C1 C2 C3 C4], Hx as [F1 F2 F3 F4].
  split; [intros a; by rewrite C1, F1, A1|intros a i k; by rewrite C2, F2, A2|by rewrite C3, F3, A3|].
  intros a. rewrite D1, D1'. intros [Ha|Ha]; [left; by apply F4|by right].
Qed.
End extends.

(** ** Merging into an extension *)
Section merging.
Context (db : Db).
Implicit Types (B : BlockState) (a : address) (st : State).

(** An account that comes out of the transaction with another incarnation than it
    had starts with no slots: the account before it shows none, and the incarnation
    is not the one the block started with. *)
Definition clean_slate B st : Prop :=
  forall a vs x ac, current_ st !! a = Some vs -> vs_recent vs = Some x -> account_ x = Some ac ->
    lives_as (delta_account (delta_of db B a)).2 (acct_incarnation ac) = false ->
    lives_as (delta_account (delta_of db B a)).1 (acct_incarnation ac) = false /\
    forall i k, slot_of db (delta_of db B a) a i k = #0.

Lemma clean_slate_extends B B' st : extends db B B' -> clean_slate B st -> clean_slate B' st.
Proof.
  intros [H1 H2 _ _] H a vs x ac Ec Ex Ea. rewrite H1. intros Hl. destruct (H a vs x ac Ec Ex Ea Hl) as [L S].
  split; [done|]. intros i k. by rewrite H2.
Qed.

Lemma merge_code_block_code code hashes B B' :
  block_code_ B' = block_code_ B -> block_code_ (merge_code code hashes B') = block_code_ (merge_code code hashes B).
Proof.
  unfold merge_code. revert B B'. induction hashes as [|h l IH]; intros B B' E; [done|]. simpl. apply IH.
  destruct (code !! h); [|done]. simpl. by rewrite E.
Qed.

Lemma merge_loop_total l B :
  NoDup l.*1 -> (forall a vs, (a, vs) ∈ l -> is_Some (vs_recent vs) /\ is_Some (state_ B !! a)) ->
  is_Some (merge_loop l B).
Proof.
  revert B. induction l as [|[a vs] l IH]; intros B; cbn [merge_loop]; [by eexists|].
  intros [Hn Hd]%NoDup_cons H. destruct (H a vs) as [[x ->] [d Ed]]; [by left|]. cbn [mbind option_bind].
  destruct (merge_account a x B) as [B1|] eqn:E1; [|by unfold merge_account in E1; rewrite Ed in E1].
  cbn [mbind option_bind]. apply merge_account_state in E1 as (d' & _ & E1 & _). apply IH; [done|].
  intros b vs' Hb. destruct (H b vs') as [Hv Hs]; [by right|]. split; [done|]. rewrite E1, lookup_insert_ne; [done|].
  intros ->. apply Hn. by apply (list_elem_of_fmap_2 fst) in Hb.
Qed.

(** The value a slot has after the merge does not depend on what was loaded. *)
Lemma merged_slot_extends B B' st a vs x i k :
  block_ok B -> block_ok B' -> extends db B B' -> clean_slate B st ->
  current_ st !! a = Some vs -> vs_recent vs = Some x -> is_Some (state_ B !! a) -> is_Some (state_ B' !! a) ->
  slot_of db (merged (delta_of db B' a) x) a i k = slot_of db (merged (delta_of db B a) x) a i k.
Proof.
  intros Hok Hok' Hx Hc Ec Ex [d Ed] [d' Ed'].
  destruct (account_ x) as [ac|] eqn:Ea; [|unfold slot_of, merged; cbn [delta_account snd]; by rewrite Ea].
  destruct (inc_eqb_spec i (acct_incarnation ac)) as [->|Hi].
  2:{ unfold slot_of, merged. cbn [delta_account snd]. rewrite Ea. cbn [lives_as].
      by destruct (inc_eqb_spec i (acct_incarnation ac)). }
  rewrite !merged_slot by done. destruct (storage_ x !! k); [done|]. rewrite (ex_account _ _ _ Hx a).
  destruct (lives_as (delta_account (delta_of db B a)).2 (acct_incarnation ac)) eqn:El.
  - pose proof (ex_slot _ _ _ Hx a (acct_incarnation ac) k) as Hs. unfold slot_of in Hs.
    rewrite (ex_account _ _ _ Hx a), El in Hs. exact Hs.
  - destruct (Hc a vs x ac Ec Ex Ea El) as [L S].
    assert (Hz : forall B0 d0, block_ok B0 -> extends db B B0 -> state_ B0 !! a = Some d0 ->
      match delta_storage (delta_of db B0 a) !! k with Some v => v.2 | None => #0 end = #0).
    { intros B0 d0 Ho H0 E0. pose proof (fun i => ex_slot _ _ _ H0 a i k) as Hs.
      assert (Edd : delta_of db B0 a = d0) by (unfold delta_of; by rewrite E0). rewrite Edd in *.
      destruct (delta_account d0).2 as [ac0|] eqn:E2; [|by rewrite (Ho a d0 E0 E2), lookup_empty].
      specialize (Hs (acct_incarnation ac0)). rewrite S in Hs. unfold slot_of in Hs. rewrite E2 in Hs. cbn [lives_as] in Hs.
      rewrite inc_eqb_refl in Hs. by destruct (delta_storage d0 !! k). }
    rewrite L. rewrite (Hz B' d'), (Hz B d); done.
Qed.

Lemma merge_extends st B B' Bm :
  block_ok B -> block_ok B' -> extends db B B' -> clean_slate B st -> merge st B = Some Bm ->
  exists Bm', merge st B' = Some Bm' /\ extends db Bm Bm' /\ block_ok Bm /\ block_ok Bm'.
Proof.
  intros Hok Hok' Hx Hc Hm. pose proof (merge_state _ _ _ Hm) as [M1 M2].
  assert (Hm' : is_Some (merge st B')).
  { unfold merge in *. apply bind_Some in Hm as (hs & -> & _). cbn [mbind option_bind].
    apply merge_loop_total; [apply NoDup_fst_map_to_list|]. intros a vs Hv%elem_of_map_to_list.
    destruct (M1 a vs Hv) as (x & d & Ex & Ed & _). rewrite merge_code_state. split; [by eexists|].
    apply (ex_loaded _ _ _ Hx). by eexists. }
  destruct Hm' as [Bm' Hm']. pose proof (merge_state _ _ _ Hm') as [M1' M2'].
  exists Bm'. split_and!; [done| |by apply (merge_block_ok st B)|by apply (merge_block_ok st B')].
  assert (Hd : forall B0 B1, merge st B0 = Some B1 -> forall a, delta_of db B1 a =
    match current_ st !! a with
    | Some vs => match vs_recent vs with Some x => merged (delta_of db B0 a) x | None => delta_of db B1 a end
    | None => delta_of db B0 a
    end).
  { intros B0 B1 [N1 N2]%merge_state a. unfold delta_of. destruct (current_ st !! a) as [vs|] eqn:Ec; [|by rewrite N2].
    destruct (N1 a vs Ec) as (x & d & -> & -> & ->). done. }
  split.
  - intros a. rewrite (Hd _ _ Hm'), (Hd _ _ Hm). destruct (current_ st !! a) as [vs|] eqn:Ec; [|apply Hx].
    destruct (M1 a vs Ec) as (x & d & -> & _). cbn [merged delta_account]. by rewrite (ex_account _ _ _ Hx).
  - intros a i k. rewrite (Hd _ _ Hm'), (Hd _ _ Hm). destruct (current_ st !! a) as [vs|] eqn:Ec; [|apply Hx].
    destruct (M1 a vs Ec) as (x & d & Ex & Ed & _). rewrite Ex.
    destruct (M1' a vs Ec) as (x' & d' & _ & Ed' & _).
    apply (merged_slot_extends B B' st a vs x i k); eauto.
  - unfold merge in Hm, Hm'. apply bind_Some in Hm as (hs & Eh & Hm). rewrite Eh in Hm'. cbn [mbind option_bind] in Hm'.
    apply merge_loop_state in Hm as (_ & _ & ->); [|apply NoDup_fst_map_to_list].
    apply merge_loop_state in Hm' as (_ & _ & ->); [|apply NoDup_fst_map_to_list].
    apply merge_code_block_code, Hx.
  - intros a Ha. destruct (current_ st !! a) as [vs|] eqn:Ec.
    + destruct (M1' a vs Ec) as (x & d & _ & _ & ->). by eexists.
    + rewrite M2' by done. rewrite M2 in Ha by done. by apply (ex_loaded _ _ _ Hx).
Qed.
End merging.

(** ** The two attempts *)

(** A transaction that ends with a receipt or an error. *)
Definition returned {E A} (r : res E A) : bool := match r with ROk _ | RErr _ => true | _ => false end.

Section attempts.
Context (db : Db) {R : Type} (impl : BlockReads -> SM (R + ExecError)) (final : BlockReads -> R -> SM Receipt).
Context (inc : Incarnation) (sender : address) (nonce : u64).
Context (Hsteady : forall bs0 bs1, replayable bs0 bs1 inc -> steady bs1 inc True (impl bs0) (impl bs1) any)
  (Hfirst : forall bs, reads_first bs sender (impl bs)).
#[local] Set Default Proof Using "Type*".
Implicit Types (B : BlockState) (bs : BlockReads).

Lemma reads_replayable B : replayable (reads_of db B) (reads_of db B) inc.
Proof using Type.
  split; [|apply reads_lawful|done]. intros a i k ac E Hi _. apply reads_lawful. intros ac' E'.
  rewrite E in E'. by injection E' as <-.
Qed.

(** The state of an attempt is validated strictly. *)
Lemma impl_strict bs st r st' :
  replayable bs bs inc -> impl bs st = (r, st') -> relaxed_validation_ st' = relaxed_validation_ st.
Proof. intros Hr E. pose proof (st_mode _ _ _ _ _ _ (Hsteady bs bs Hr) st) as H. by rewrite E in H. Qed.

Lemma first_strict bs0 bs1 r st :
  replayable bs0 bs1 inc -> first_attempt impl inc sender nonce bs0 = (ROk r, st) -> relaxed_validation_ st = false.
Proof.
  intros Hr E. unfold first_attempt in E. destruct (set_nonce_start bs0 inc sender nonce false) as [ac Es].
  unfold sbind in E. rewrite Es in E. pose proof (st_mode _ _ _ _ _ _ (Hsteady bs0 bs1 Hr)
    (set_original_ {[sender := new_original (Some ac)]} (new_state inc false))) as H. by rewrite E in H.
Qed.

(** A first attempt whose reads are confirmed is the sequential attempt. *)
Lemma first_is_last bs0 bs1 r st :
  replayable bs0 bs1 inc -> first_attempt impl inc sender nonce bs0 = (ROk r, st) -> agrees bs1 st ->
  impl bs1 (new_state inc false) = (ROk r, st).
Proof.
  intros Hr E Ha. unfold first_attempt in E. destruct (set_nonce_start bs0 inc sender nonce false) as [ac Es].
  unfold sbind in E. rewrite Es in E. clear Es. destruct (Hsteady bs0 bs1 Hr) as [Hm Hl _].
  set (st1 := set_original_ {[sender := new_original (Some ac)]} (new_state inc false)) in *.
  assert (Ha1 : agrees bs1 (impl bs0 st1).2) by (by rewrite E).
  destruct (Hl I st1 Ha1) as [E1 _]; [by apply accounts_ok_new|]. rewrite E in E1.
  apply (Hfirst bs1); [done..|]. destruct (Hm st1 Ha1 sender (new_original (Some ac))) as [Hac _].
  { apply lookup_singleton_eq. }
  cbn [o_state new_original new_account_state account_] in Hac. unfold loaded_first. by rewrite <- Hac.
Qed.

(** What [finalize] gives on an extension. *)
Lemma finalize_extends result st B B' r B1 :
  block_ok B -> block_ok B' -> extends db B B' -> finalize db final result st B = (r, B1) -> returned r = true ->
  exists B1', finalize db final result st B' = (r, B1') /\ extends db B1 B1' /\ block_ok B1 /\ block_ok B1'.
Proof using Type.
  intros Hok Hok' Hx E Hr. destruct result as [res|e]; cbn [finalize] in *.
  2:{ injection E as <- <-. by exists B'. }
  rewrite (extends_reads db B B' Hx). destruct (final (reads_of db B) res st) as [[rc|[]|m|] st1]; simplify_eq/=.
  destruct (load_reads db st1 B) as [Bl|] eqn:El; simplify_eq/=.
  destruct (load_reads_extends db st1 B B' B1 Hok Hok' Hx El) as (Bl' & -> & X & O & O'). by exists Bl'.
Qed.

Lemma last_attempt_extends B B' r B1 :
  block_ok B -> block_ok B' -> extends db B B' -> last_attempt db impl final inc B = (r, B1) -> returned r = true ->
  exists B1', last_attempt db impl final inc B' = (r, B1') /\ extends db B1 B1' /\ block_ok B1 /\ block_ok B1'.
Proof.
  intros Hok Hok' Hx E Hr. unfold last_attempt in *. rewrite (extends_reads db B B' Hx).
  destruct (impl (reads_of db B) (new_state inc false)) as [[result|[]|m|] st] eqn:Ei; simplify_eq/=.
  pose proof (impl_strict _ _ _ _ (reads_replayable B) Ei) as Hs.
  destruct (load_reads_spec db st B Hok) as (Bl & El & X & O & D & Rec). rewrite El in E.
  destruct (load_reads_spec db st B' Hok') as (Bl' & El' & X' & O' & D' & Rec'). rewrite El'.
  destruct (load_reads_extends db st B B' Bl Hok Hok' Hx El) as (Bl'' & El'' & XX & _). rewrite El' in El''.
  injection El'' as <-.
  destruct (can_merge_exact db Bl st O Rec Hs) as (b & Eb & Hb); [intros a Ha; apply D; by right|].
  destruct (can_merge_exact db Bl' st O' Rec' Hs) as (b' & Eb' & Hb'); [intros a Ha; apply D'; by right|].
  rewrite (extends_reads db Bl Bl' XX) in Hb'. rewrite Eb in E. rewrite Eb'.
  assert (b' = b) as -> by (apply eq_true_iff_eq; by rewrite Hb, Hb'). destruct b; simplify_eq/=.
  by apply (finalize_extends result st Bl).
Qed.

(** Whatever the first attempt was worth, what is published is a last attempt. *)
Lemma attempts_last bs0 B :
  block_ok B -> replayable bs0 (reads_of db B) inc -> returned (first_attempt impl inc sender nonce bs0).1 = true ->
  exists B', extends db B B' /\ block_ok B' /\
    attempts db impl final inc sender nonce bs0 B = last_attempt db impl final inc B'.
Proof.
  intros Hok Hr Hret. unfold attempts. destruct (first_attempt impl inc sender nonce bs0) as [[result|[]|m|] st] eqn:Ef;
    simplify_eq/=.
  pose proof (first_strict _ _ _ _ Hr Ef) as Hs.
  destruct (load_reads_spec db st B Hok) as (Bl & El & X & O & D & Rec). rewrite El.
  destruct (can_merge_exact db Bl st O Rec Hs) as (b & Eb & Hb); [intros a Ha; apply D; by right|].
  rewrite Eb. destruct b; [|by exists Bl]. exists B. split_and!; [done..|].
  unfold last_attempt. rewrite (extends_reads db B Bl X) in Hb.
  rewrite (first_is_last bs0 (reads_of db B) result st Hr Ef (proj1 Hb eq_refl)), El, Eb. done.
Qed.

Lemma optimistic_sequential bs0 B B' r Bs :
  block_ok B -> block_ok B' -> extends db B B' -> replayable bs0 (reads_of db B) inc ->
  returned (first_attempt impl inc sender nonce bs0).1 = true ->
  (forall receipt st B1, last_attempt db impl final inc B = (ROk (receipt, st), B1) -> clean_slate db B1 st) ->
  sequential db impl final inc B = (r, Bs) -> returned r = true ->
  exists Bs', optimistic db impl final inc sender nonce bs0 B' = (r, Bs') /\ extends db Bs Bs' /\ block_ok Bs /\ block_ok Bs'.
Proof.
  intros Hok Hok' Hx Hr Hret Hc E Hrr. rewrite <- (extends_reads db B B' Hx) in Hr.
  destruct (attempts_last bs0 B' Hok' Hr Hret) as (Bl & Xl & Ol & El). unfold optimistic, sequential in *. rewrite El.
  destruct (last_attempt db impl final inc B) as [rl B1] eqn:E1.
  assert (Hrl : returned rl = true) by (destruct rl as [[]| | |]; [done..| |]; simplify_eq/=).
  destruct (last_attempt_extends B Bl rl B1 Hok Ol (transitivity Hx Xl) E1 Hrl) as (B1' & -> & X & O & O').
  destruct rl as [[receipt st]|e|m|]; [|simplify_eq/=; by exists B1'|done..]. cbn [publish] in *.
  destruct (merge st B1) as [Bm|] eqn:Em; [|simplify_eq/=]. injection E as <- <-.
  destruct (merge_extends db st B1 B1' Bm O O' X (Hc _ _ _ eq_refl) Em) as (Bm' & -> & Xm & Om & Om'). by exists Bm'.
Qed.
End attempts.

(** ** Transactions of a block *)
Section transaction.
Context `{Crypto} (db : Db) (env : BlockEnv) (inp : TxInput).
#[local] Abbreviation inc := (tx_incarnation env inp).

(** The attempt and the completion of the executor the transaction gets. *)
Definition executor {A} (k : forall R, (BlockReads -> SM (R + ExecError)) -> (BlockReads -> R -> SM Receipt) -> A) : A :=
  match is_system env inp with
  | Some rev => k unit (fun bs => execute_system rev bs (ti_tx inp) (ti_sender inp))
                  (fun _ _ => execute_system_final (ti_tx inp))
  | None => k Result (tx_impl env inp) (tx_final env inp)
  end.

(** The first attempt does not end in an exception or an abort. *)
Definition attempt_returns (bs0 : BlockReads) : bool :=
  executor (fun R impl _ => returned (first_attempt impl inc (ti_sender inp) (tx_nonce (ti_tx inp)) bs0).1).

(** Accounts that change their incarnation start with no slots. *)
Definition leaves_clean (B : BlockState) : Prop :=
  executor (fun R impl final => forall receipt st B1,
    last_attempt db impl final inc B = (ROk (receipt, st), B1) -> clean_slate db B1 st).

Lemma checked_same checks (k k' : BlockState -> outcome Receipt) B B' r Bs :
  block_ok B -> block_ok B' -> extends db B B' ->
  (k B = (r, Bs) -> exists Bs', k' B' = (r, Bs') /\ extends db Bs Bs' /\ block_ok Bs /\ block_ok Bs') ->
  returned r = true -> checked checks k B = (r, Bs) ->
  exists Bs', checked checks k' B' = (r, Bs') /\ extends db Bs Bs' /\ block_ok Bs /\ block_ok Bs'.
Proof.
  intros Hok Hok' Hx Hk Hr. destruct checks as [[e|]|]; cbn [checked]; [|exact Hk|].
  - intros [= <- <-]. by exists B'.
  - by intros [= <- <-].
Qed.

Lemma steady_tx_impl bs0 bs1 :
  replayable bs0 bs1 inc -> steady bs1 inc True (tx_impl env inp bs0) (tx_impl env inp bs1) any.
Proof. intros Hr. unfold tx_impl. by apply steady_impl2. Qed.

(** A transaction dispatched with an optimistic first attempt, on the block state or
    any extension of it, has the outcome of the sequential transaction. *)
Lemma dispatch_sequential bs0 B B' r Bs :
  block_ok B -> block_ok B' -> extends db B B' -> replayable bs0 (reads_of db B) inc ->
  attempt_returns bs0 = true -> leaves_clean B ->
  sequential_transaction db env inp B = (r, Bs) -> returned r = true ->
  exists Bs', dispatch_transaction db env inp bs0 B' = (r, Bs') /\ extends db Bs Bs' /\ block_ok Bs /\ block_ok Bs'.
Proof.
  unfold attempt_returns, leaves_clean, executor, sequential_transaction, dispatch_transaction, dispatch.
  intros Hok Hok' Hx Hr Hret Hc E Hrr. revert E. destruct (is_system env inp) as [rev|].
  - apply checked_same; [done..| |done]. intros E. apply (optimistic_sequential db _ _ inc (ti_sender inp) (tx_nonce (ti_tx inp))
      (fun bs0 bs1 H => steady_system bs0 bs1 inc H True rev (ti_tx inp) (ti_sender inp))
      (fun bs => first_system bs rev (ti_tx inp) (ti_sender inp)) bs0 B B' r Bs Hok Hok' Hx Hr Hret Hc E Hrr).
  - apply checked_same; [done..| |done]. intros E. exact (optimistic_sequential db _ _ inc (ti_sender inp) (tx_nonce (ti_tx inp))
      steady_tx_impl (fun bs => first_tx_impl env bs inp)
      bs0 B B' r Bs Hok Hok' Hx Hr Hret Hc E Hrr).
Qed.
End transaction.
