(* ===== verification/Requests.v ===== *)
(** * Block requests

    Models src/category/execution/ethereum/process_requests.cpp: the deposits of a
    block, read out of its logs, the system calls that collect withdrawal and
    consolidation requests, and the hash over them.  SHA-256 is a parameter.  The
    theorem: whatever else a block logs, the payload of its deposit events is
    recovered in order. *)
From S2P Require Import Prelude Prog Abi StakingVars Transaction VersionStack State3 ReserveBalance StakingContract Block Evm ExecuteTransaction.
#[local] Open Scope sm_scope.

Definition eip_7685_active (t : Traits) : bool :=
  match t with EvmTraits r => eth_ge r MONAD_ETH_PRAGUE | MonadTraits _ => false end.

Record BlockRequest := mk_request { req_type : u8; req_data : byte_string }.

Definition DEPOSIT_REQUEST_TYPE : u8 := #0.
Definition WITHDRAWAL_REQUEST_TYPE : u8 := #1.
Definition CONSOLIDATION_REQUEST_TYPE : u8 := #2.

(** ** Deposits *)

(** One word of the head; [None] is [InvalidDepositLog]. *)
Definition check_offset (expected : Z) (cursor : byte_string) : option byte_string :=
  match abi_decode_fixed 256 cursor with
  | inl (actual, cursor) => if actual =? expected then Some cursor else None
  | inr _ => None
  end.

Definition consume_deposit_event_head (cursor : byte_string) : option byte_string :=
  cursor ← check_offset 160 cursor;
  cursor ← check_offset 256 cursor;
  cursor ← check_offset 320 cursor;
  cursor ← check_offset 384 cursor;
  check_offset 512 cursor.

Definition append_deposit_event_field (N : nat) (s : byte_string * byte_string) : option (byte_string * byte_string) :=
  let '(deposits, cursor) := s in
  match abi_decode_dynamic_bytes_tail N cursor with
  | inl (field, cursor) => Some (deposits ++ field, cursor)
  | inr _ => None
  end.

Definition append_deposit_request (deposits cursor : byte_string) : option byte_string :=
  if negb (length cursor =? 576)%nat then None
  else
    cursor ← consume_deposit_event_head cursor;
    s ← append_deposit_event_field 48 (deposits, cursor);
    s ← append_deposit_event_field 32 s;
    s ← append_deposit_event_field 8 s;
    s ← append_deposit_event_field 96 s;
    s ← append_deposit_event_field 8 s;
    Some s.1.

Definition DEPOSIT_CONTRACT_ADDRESS : address := #0x00000000219ab540356cbb839cbe05303d7705fa.
Definition DEPOSIT_EVENT_SIGNATURE_HASH : bytes32 :=
  #0x649bbc62d0e31342afea4e5cd82d4049e7e1ee912fc0889aa790803be39038c5.

(** The condition that skips a log, negated. *)
Definition is_deposit_event (l : Log) : bool :=
  (log_address l =w? DEPOSIT_CONTRACT_ADDRESS) &&
  match log_topics l with [] => false | topic :: _ => topic =w? DEPOSIT_EVENT_SIGNATURE_HASH end.

Fixpoint extract_from_logs (logs : list Log) (deposits : byte_string) : option byte_string :=
  match logs with
  | [] => Some deposits
  | l :: rest =>
      if negb (is_deposit_event l) then extract_from_logs rest deposits
      else deposits ← append_deposit_request deposits (log_data l); extract_from_logs rest deposits
  end.

Fixpoint extract_from_receipts (receipts : list Receipt) (deposits : byte_string) : option byte_string :=
  match receipts with
  | [] => Some deposits
  | r :: rest => deposits ← extract_from_logs (rc_logs r) deposits; extract_from_receipts rest deposits
  end.

Definition extract_deposit_requests (receipts : list Receipt) : byte_string + BlockError :=
  match extract_from_receipts receipts [] with Some d => inl d | None => inr InvalidDepositLog end.

(** ** The hash *)
Definition compute_requests_hash (sha256 : byte_string -> bytes32) (requests : list BlockRequest) : bytes32 :=
  sha256 (concat (map (fun req =>
    if (length (req_data req) =? 0)%nat then [] else word_bytes (sha256 (req_type req :: req_data req))) requests)).

(** ** System calls *)
Section requests.
Context `{Crypto} (sha256 : byte_string -> bytes32) (env : BlockEnv) (bs : BlockReads).
#[local] Abbreviation t := (env_traits env).
#[local] Abbreviation header := (env_header env).

Definition SYSTEM_ADDRESS : address := #0xfffffffffffffffffffffffffffffffffffffffe.
Definition empty_tx : Transaction := mk_tx (mk_sc #0 #0 None #0) #0 #0 #0 #0 None legacy [] [] #0 #0 [] [].

Definition system_call_context (blob_base_fee : u256) : evmc_tx_context :=
  mk_tx_context #0 SYSTEM_ADDRESS (bh_beneficiary header) (int64 (bh_number header)) (int64 (bh_timestamp header))
    (int64 (bh_gas_limit header))
    (if negb (bh_difficulty header =? 0) then #(bh_difficulty header) else bh_prev_randao header)
    (env_chain_id env) (default #0 (bh_base_fee_per_gas header)) blob_base_fee [].

(** The machine runs outside of a frame: a failed call makes the block invalid. *)
Definition system_call (contract_address : address) : SM (byte_string + BlockError) :=
  hash <- get_code_hash bs contract_address ;;
  if hash =w? NULL_HASH then sret (inr SystemCallMissingCode)
  else
    code <- read_code_ bs hash ;;
    blob_base_fee <- sopt (get_base_fee_per_blob_gas t (default #0 (bh_excess_blob_gas header))) ;;
    let ctx := system_call_context blob_base_fee in
    let msg := mk_message EVMC_CALL 0 0 30000000 contract_address SYSTEM_ADDRESS [] #0 #0 contract_address 0 in
    access_account bs contract_address ;;
    let h := mk_host t bs empty_tx (bh_base_fee_per_gas header) 0 (env_chain_ctx env) false
               (env_block_hash_buffer env) (env_resolve_precompile env) (env_vm env ctx) in
    result <- run_vm t bs false (env_block_hash_buffer env) (is_precompile t (env_resolve_precompile env))
                (evmc_call h call_fuel) (vm h msg code) ;;
    sret (if bool_decide (r_status result = Success) then inl (r_output result) else inr SystemCallFailed).

Definition WITHDRAWAL_REQUEST_ADDRESS : address := #0x00000961ef480eb55e80d19ad83579a64c007002.
Definition CONSOLIDATION_REQUEST_ADDRESS : address := #0x0000bbddc7ce488642fb579f8b00f3a590007251.

Definition process_requests (receipts : list Receipt) : SM (bytes32 + BlockError) :=
  match extract_deposit_requests receipts with
  | inr e => sret (inr e)
  | inl deposit_output =>
      withdrawal <- system_call WITHDRAWAL_REQUEST_ADDRESS ;;
      match withdrawal with
      | inr e => sret (inr e)
      | inl withdrawal_output =>
          consolidation <- system_call CONSOLIDATION_REQUEST_ADDRESS ;;
          match consolidation with
          | inr e => sret (inr e)
          | inl consolidation_output =>
              sret (inl (compute_requests_hash sha256 [mk_request DEPOSIT_REQUEST_TYPE deposit_output;
                mk_request WITHDRAWAL_REQUEST_TYPE withdrawal_output;
                mk_request CONSOLIDATION_REQUEST_TYPE consolidation_output]))
          end
      end
  end.
End requests.

(** ** Deposits are recovered *)
Record Deposit := mk_deposit {
  dep_pubkey : byte_string; dep_credentials : byte_string; dep_amount : byte_string; dep_signature : byte_string;
  dep_index : byte_string }.

Definition deposit_ok (d : Deposit) : Prop :=
  length (dep_pubkey d) = 48%nat /\ length (dep_credentials d) = 32%nat /\ length (dep_amount d) = 8%nat /\
  length (dep_signature d) = 96%nat /\ length (dep_index d) = 8%nat.

(** The data of [DepositEvent(bytes,bytes,bytes,bytes,bytes)]. *)
Definition event_data (d : Deposit) : byte_string :=
  word_bytes #160 ++ word_bytes #256 ++ word_bytes #320 ++ word_bytes #384 ++ word_bytes #512 ++
  abi_encode_bytes (dep_pubkey d) ++ abi_encode_bytes (dep_credentials d) ++ abi_encode_bytes (dep_amount d) ++
  abi_encode_bytes (dep_signature d) ++ abi_encode_bytes (dep_index d).

Definition payload (d : Deposit) : byte_string :=
  dep_pubkey d ++ dep_credentials d ++ dep_amount d ++ dep_signature d ++ dep_index d.

Lemma check_offset_word (x : bytes32) rest : check_offset x (word_bytes x ++ rest) = Some rest.
Proof.
  unfold check_offset. rewrite (abi_decode_fixed_word 32) by lia. rewrite wrap_uval. by rewrite Z.eqb_refl.
Qed.

Lemma append_field_spec deposits (f : byte_string) rest :
  zlen f < modulus 256 ->
  append_deposit_event_field (length f) (deposits, abi_encode_bytes f ++ rest) = Some (deposits ++ f, rest).
Proof. intros Hf. unfold append_deposit_event_field. by rewrite abi_decode_bytes_round_trip. Qed.

Lemma encoded_length (f : byte_string) : length (abi_encode_bytes f) = (32 + Z.to_nat (round_up (zlen f) 32))%nat.
Proof.
  unfold abi_encode_bytes. rewrite !length_app, length_replicate. unfold word_bytes. rewrite length_to_bytes.
  pose proof (round_up_bounds (zlen f) ltac:(unfold zlen; lia)). unfold zlen in *. lia.
Qed.

Lemma event_length d : deposit_ok d -> length (event_data d) = 576%nat.
Proof.
  intros (H1 & H2 & H3 & H4 & H5). unfold event_data. rewrite !length_app, !length_word_bytes, !encoded_length.
  unfold zlen. by rewrite H1, H2, H3, H4, H5.
Qed.

Lemma append_deposit_spec deposits d :
  deposit_ok d -> append_deposit_request deposits (event_data d) = Some (deposits ++ payload d).
Proof.
  intros Hd. unfold append_deposit_request. rewrite (event_length d Hd), Nat.eqb_refl. cbn [negb].
  destruct Hd as (H1 & H2 & H3 & H4 & H5). unfold consume_deposit_event_head, event_data.
  rewrite (check_offset_word #160). cbn [mbind option_bind]. rewrite (check_offset_word #256). cbn [mbind option_bind].
  rewrite (check_offset_word #320). cbn [mbind option_bind]. rewrite (check_offset_word #384). cbn [mbind option_bind].
  rewrite (check_offset_word #512). cbn [mbind option_bind].
  assert (Hz : forall f : byte_string, (length f <= 96)%nat -> zlen f < modulus 256).
  { intros f Hf. unfold zlen, modulus. simpl. lia. }
  rewrite <- H1 at 1. rewrite append_field_spec by (apply Hz; lia). cbn [mbind option_bind].
  rewrite <- H2 at 1. rewrite append_field_spec by (apply Hz; lia). cbn [mbind option_bind].
  rewrite <- H3 at 1. rewrite append_field_spec by (apply Hz; lia). cbn [mbind option_bind].
  rewrite <- H4 at 1. rewrite append_field_spec by (apply Hz; lia). cbn [mbind option_bind].
  rewrite <- H5 at 1. rewrite <- (app_nil_r (abi_encode_bytes (dep_index d))).
  rewrite append_field_spec by (apply Hz; lia). cbn [mbind option_bind fst]. unfold payload. by rewrite !app_assoc.
Qed.

(** The deposit events of a list of logs, in order. *)
Definition deposit_data (logs : list Log) : list byte_string :=
  map log_data (List.filter is_deposit_event logs).

Lemma extract_logs_spec logs ds deposits :
  Forall deposit_ok ds -> deposit_data logs = map event_data ds ->
  extract_from_logs logs deposits = Some (deposits ++ concat (map payload ds)).
Proof.
  revert ds deposits. induction logs as [|l logs IH]; intros ds deposits Hd; unfold deposit_data; cbn [List.filter extract_from_logs].
  { destruct ds; [|done]. intros _. simpl. by rewrite app_nil_r. }
  destruct (is_deposit_event l); cbn [negb map]; [|by apply IH].
  destruct ds as [|d ds]; [done|]. intros [= El Er]. apply Forall_cons in Hd as [Hd Hds].
  rewrite El, append_deposit_spec by done. cbn [mbind option_bind map concat].
  rewrite (IH ds) by done. by rewrite app_assoc.
Qed.

Lemma extract_receipts_spec receipts dss deposits :
  Forall2 (fun r ds => Forall deposit_ok ds /\ deposit_data (rc_logs r) = map event_data ds) receipts dss ->
  extract_from_receipts receipts deposits = Some (deposits ++ concat (map payload (concat dss))).
Proof.
  intros H. revert deposits. induction H as [|r ds receipts dss [H1 H2] _ IH]; intros deposits; cbn [extract_from_receipts].
  { simpl. by rewrite app_nil_r. }
  rewrite (extract_logs_spec _ ds) by done. cbn [mbind option_bind concat]. rewrite IH, map_app, concat_app.
  by rewrite app_assoc.
Qed.

(** C32: whatever other logs a block has, if the deposit events of its receipts are the
    ABI encodings of deposits, [extract_deposit_requests] returns the public keys,
    credentials, amounts, signatures and indices of all of them, in order. *)
Theorem deposits_recovered receipts (dss : list (list Deposit)) :
  Forall2 (fun r ds => Forall deposit_ok ds /\ deposit_data (rc_logs r) = map event_data ds) receipts dss ->
  extract_deposit_requests receipts = inl (concat (map payload (concat dss))).
Proof. intros H. unfold extract_deposit_requests. by rewrite (extract_receipts_spec _ dss). Qed.

(** Two receipts with a deposit each, and a log of another contract. *)
Definition demo_deposit : Deposit :=
  mk_deposit (repeat #7 48) (repeat #8 32) (repeat #9 8) (repeat #10 96) (repeat #11 8).
Definition deposit_log : Log :=
  mk_log DEPOSIT_CONTRACT_ADDRESS [DEPOSIT_EVENT_SIGNATURE_HASH] (event_data demo_deposit).
Definition deposit_receipt : Receipt := mk_receipt new_bloom #1 #21000 legacy [mk_log #5 [] [ #1 ]; deposit_log].

Lemma deposits_recovered_witness :
  extract_deposit_requests [deposit_receipt; deposit_receipt] = inl (payload demo_deposit ++ payload demo_deposit).
Proof.
  exact (deposits_recovered [deposit_receipt; deposit_receipt] [[demo_deposit]; [demo_deposit]]
    ltac:(assert (deposit_ok demo_deposit) by (by split_and!); repeat constructor; done)).
Defined.
