(* ===== verification/ExecuteBlock.v ===== *)
(** * Executing blocks

    Models src/category/execution/ethereum/{execute_block.cpp,block_reward.cpp} and
    monad/staking/execute_block_prelude.cpp: the prologue of a block, its
    transactions, each with an optimistic first attempt, withdrawals, requests and
    rewards.  Fibers are modelled by the reads their first attempts get; everything
    after the wait for the predecessor is in order.  The theorem: a block executed
    in parallel has the receipts and leaves the block state of the block executed
    one transaction after the other. *)
From S2P Require Import Prelude Prog Storage Abi StakingVars Transaction Rlp VersionStack State3 StateHooks ReserveSpec StateFrames StateRefine ReserveTrack ReserveBalance Lockstep BlockState StakingContract StakingSyscalls Demo BlockHash Block BlockRlp Evm EvmFrames EvmMessages ExecuteTransaction EvmLockstep Speculation Requests.
Import block_state.
#[local] Open Scope sm_scope.

(** ** Block rewards *)
Definition block_reward (t : Traits) : u256 :=
  if negb (eth_ge (evm_rev t) MONAD_ETH_PARIS) then #2000000000000000000 else #0.
Definition additional_ommer_reward (t : Traits) : u256 := #(Z.shiftr (block_reward t) 5).

(** [None] is the failed assertion. *)
Definition calculate_block_reward (reward ommer_reward : u256) (ommers_size : Z) : option u256 :=
  if (ommers_size =? 0) || (ommer_reward <=? (modulus 256 - 1 - reward) / ommers_size)
  then Some #(reward + wrap 256 (ommer_reward * ommers_size)) else None.

Definition calculate_ommer_reward (reward : u256) (header_number ommer_number : u64) : u256 :=
  let subtrahend := wrap 256 (wrap 64 (header_number - ommer_number) * reward) / 8 in
  #(reward - subtrahend).

Section state.
Context (bs : BlockReads).

Fixpoint apply_ommer_rewards (t : Traits) (number : u64) (ommers : list BlockHeader) : SM unit :=
  match ommers with
  | [] => sret tt
  | ommer :: rest =>
      let ommer_reward := calculate_ommer_reward (block_reward t) number (bh_number ommer) in
      (if negb (ommer_reward =? 0) then add_to_balance bs (bh_beneficiary ommer) ommer_reward else sret tt) ;;
      apply_ommer_rewards t number rest
  end.

Definition apply_block_reward (t : Traits) (block : Block) : SM unit :=
  miner_reward <- sopt (calculate_block_reward (block_reward t) (additional_ommer_reward t) (zlen (bk_ommers block))) ;;
  (if negb (miner_reward =? 0) then add_to_balance bs (bh_beneficiary (bk_header block)) miner_reward else sret tt) ;;
  apply_ommer_rewards t (bh_number (bk_header block)) (bk_ommers block).

(** ** Withdrawals and the beacon root *)
Fixpoint add_withdrawals (l : list Withdrawal) : SM unit :=
  match l with
  | [] => sret tt
  | w :: rest => add_to_balance bs (wd_recipient w) #(wd_amount w * 1000000000) ;; add_withdrawals rest
  end.

Definition process_withdrawal (withdrawals : option (list Withdrawal)) : SM unit :=
  match withdrawals with Some l => add_withdrawals l | None => sret tt end.

Definition BEACON_ROOTS_ADDRESS : address := #0x000F3df6D732807Ef1319fB7B8bB8522d0Beac02.
Definition HISTORY_BUFFER_LENGTH : Z := 8191.

Definition set_beacon_root (header : BlockHeader) : SM unit :=
  exists_ <- account_exists bs BEACON_ROOTS_ADDRESS ;;
  if exists_ : bool then
    let timestamp := uval (bh_timestamp header) in
    set_storage bs BEACON_ROOTS_ADDRESS #(timestamp mod HISTORY_BUFFER_LENGTH) #timestamp ;;
    match bh_parent_beacon_block_root header with
    | Some root =>
        set_storage bs BEACON_ROOTS_ADDRESS #(timestamp mod HISTORY_BUFFER_LENGTH + HISTORY_BUFFER_LENGTH) root ;; sret tt
    | None => sthrow "bad optional access"
    end
  else sret tt.

(** The proposer of the last block is forgotten, in case this one has no reward. *)
Definition execute_block_prelude (rev : monad_revision) : SM unit :=
  if negb (rev_ge rev MONAD_FIVE) then sret tt
  else
    exists_ <- account_exists bs STAKING_CA ;;
    if negb exists_ then sret tt else run_contract bs (clear vars.proposer_val_id).
End state.

(** ** State changes of the block itself *)
Section merged.
Context (db : Db) {A E : Type}.

(** A state of its own, from the block state and, unless [m] fails, merged into it. *)
Definition run_merged (inc : Incarnation) (m : BlockReads -> SM (A + E)) (B : BlockState) : res E A * BlockState :=
  match m (reads_of db B) (new_state inc false) with
  | (ROk result, st) =>
      match load_reads db st B with
      | None => (RHalt, B)
      | Some B =>
          match result with
          | inr e => (RErr e, B)
          | inl x =>
              match can_merge B st with
              | (ROk true, st) => match merge st B with Some B => (ROk x, B) | None => (RHalt, B) end
              | _ => (RHalt, B)
              end
          end
      end
  | (RErr e, _) => match e with end
  | (RThrow msg, _) => (RThrow msg, B)
  | (RHalt, _) => (RHalt, B)
  end.
End merged.

(** The error of a block. *)
Inductive BlockExecError := TxFailed (e : ExecError) | BlockFailed (e : BlockError).

Section block.
Context `{Crypto} (sha256 : byte_string -> bytes32) (db : Db) (env : BlockEnv) (block : Block).
#[local] Abbreviation t := (env_traits env).
#[local] Abbreviation header := (env_header env).

Definition header_ops (bs : BlockReads) : SM unit :=
  deploy_block_hash_history_contract t bs keccak256 ;;
  set_block_hash_history t bs (bh_number header) (bh_parent_hash header) ;;
  (if eth_ge (evm_rev t) MONAD_ETH_CANCUN then set_beacon_root bs header else sret tt) ;;
  match t with MonadTraits rev => execute_block_prelude bs rev | EvmTraits _ => sret tt end.

Definition execute_block_header (B : BlockState) : res BlockExecError unit * BlockState :=
  run_merged db (new_incarnation (bh_number header) 0) (fun bs => header_ops bs ;; sret (inl tt)) B.

(** ** Transactions *)
Fixpoint inputs_from (i : nat) (txs : list Transaction) (senders : list address)
    (authorities : list (list (option address))) : option (list TxInput) :=
  match txs, senders, authorities with
  | [], _, _ => Some []
  | tx :: txs, s :: senders, a :: authorities => cons (mk_input i tx s a) <$> inputs_from (S i) txs senders authorities
  | _, _, _ => None
  end.

(** [results] after the last promise, [None] if the process aborted; [run] is
    [dispatch_transaction]. *)
Fixpoint run_transactions (run : TxInput -> BlockReads -> BlockState -> outcome Receipt)
    (txs : list (TxInput * BlockReads)) (B : BlockState) : option (list (res ExecError Receipt)) * BlockState :=
  match txs with
  | [] => (Some [], B)
  | (inp, bs0) :: rest =>
      match run inp bs0 B with
      | (RHalt, B) => (None, B)
      | (r, B) => let '(rs, B) := run_transactions run rest B in (cons r <$> rs, B)
      end
  end.

(** A transaction that threw has no result. *)
Fixpoint collect_receipts (results : list (res ExecError Receipt)) : res BlockExecError (list Receipt) :=
  match results with
  | [] => ROk []
  | ROk r :: rest =>
      match collect_receipts rest with ROk l => ROk (r :: l) | RErr e => RErr e | RThrow m => RThrow m | RHalt => RHalt end
  | RErr e :: _ => RErr (TxFailed e)
  | _ => RHalt
  end.

(** The exception of the last transaction comes out of its promise. *)
Definition gather (results : list (res ExecError Receipt)) : res BlockExecError (list Receipt) :=
  match list.last results with
  | Some (RThrow m) => RThrow m
  | _ => collect_receipts results
  end.

Fixpoint accumulate_gas (cumulative_gas_used : u64) (receipts : list Receipt) : list Receipt :=
  match receipts with
  | [] => []
  | r :: rest =>
      let sum : u64 := #(cumulative_gas_used + rc_gas_used r) in
      mk_receipt (rc_bloom r) (rc_status r) sum (rc_type r) (rc_logs r) :: accumulate_gas sum rest
  end.

Definition execute_block_transactions (run : TxInput -> BlockReads -> BlockState -> outcome Receipt)
    (txs : list (TxInput * BlockReads)) (B : BlockState) : res BlockExecError (list Receipt) * BlockState :=
  match run_transactions run txs B with
  | (None, B) => (RHalt, B)
  | (Some results, B) =>
      (match gather results with ROk l => ROk (accumulate_gas #0 l) | r => r end, B)
  end.

(** ** The block *)

(** The requests of the block, checked against the header. *)
Definition check_requests (bs : BlockReads) (receipts : list Receipt) : SM (unit + BlockExecError) :=
  if eip_7685_active t then
    computed_requests_hash <- process_requests sha256 env bs receipts ;;
    match computed_requests_hash with
    | inr e => sret (inr (BlockFailed e))
    | inl h =>
        sassert (has_value (bh_requests_hash header)) ;;
        sret (if negb (h =w? default #0 (bh_requests_hash header)) then inr (BlockFailed InvalidRequestsHash) else inl tt)
    end
  else sret (inl tt).

Definition epilogue (receipts : list Receipt) (bs : BlockReads) : SM (unit + BlockExecError) :=
  (if eth_ge (evm_rev t) MONAD_ETH_SHANGHAI then process_withdrawal bs (bk_withdrawals block) else sret tt) ;;
  r <- check_requests bs receipts ;;
  match r with
  | inr e => sret (inr e)
  | inl _ =>
      apply_block_reward bs t block ;;
      destruct_touched_dead ;;
      sret (inl tt)
  end.

Definition last_incarnation : Incarnation := new_incarnation (bh_number header) LAST_TX.

(** [reads] are what the first attempts get, [run] as above. *)
Definition execute_block (run : TxInput -> BlockReads -> BlockState -> outcome Receipt) (senders : list address)
    (authorities : list (list (option address))) (reads : nat -> BlockReads) (B : BlockState)
    : res BlockExecError (list Receipt) * BlockState :=
  if negb (length senders =? length (bk_transactions block))%nat then (RHalt, B)
  else match inputs_from 0 (bk_transactions block) senders authorities with
  | None => (RHalt, B)
  | Some inputs =>
      match execute_block_header B with
      | (ROk _, B) =>
          match execute_block_transactions run (map (fun inp => (inp, reads (ti_i inp))) inputs) B with
          | (ROk retvals, B) =>
              match run_merged db last_incarnation (epilogue retvals) B with
              | (ROk _, B) => (ROk retvals, B)
              | (RErr e, B) => (RErr e, B)
              | (RThrow m, B) => (RThrow m, B)
              | (RHalt, B) => (RHalt, B)
              end
          | r => r
          end
      | (RErr e, B) => (RErr e, B)
      | (RThrow m, B) => (RThrow m, B)
      | (RHalt, B) => (RHalt, B)
      end
  end.

(** Each transaction after its predecessor, and the reference: with no first attempt. *)
Definition parallel (inp : TxInput) (bs0 : BlockReads) : BlockState -> outcome Receipt :=
  dispatch_transaction db env inp bs0.
Definition one_by_one (inp : TxInput) (_ : BlockReads) : BlockState -> outcome Receipt :=
  sequential_transaction db env inp.
End block.

(** ** Parallel execution *)
Section lockstep.
Context (bs0 bs1 : BlockReads) (inc : Incarnation) (Hrp : replayable bs0 bs1 inc).
#[local] Set Default Proof Using "Type*".

Lemma steady_withdrawals P w : steady bs1 inc P (process_withdrawal bs0 w) (process_withdrawal bs1 w) any.
Proof.
  destruct w as [l|]; cbn [process_withdrawal]; [|steady]. revert P. induction l as [|w l IH]; intros P; cbn [add_withdrawals];
    [steady|]. eapply steady_bind; [by apply steady_add_to_balance|]. intros u. apply IH.
Qed.

Lemma steady_block_reward P t block : steady bs1 inc P (apply_block_reward bs0 t block) (apply_block_reward bs1 t block) any.
Proof.
  unfold apply_block_reward. steady_step. apply (steady_bind _ _ _ _ _ _ _ any); [steady|]. intros u.
  match goal with |- steady _ _ ?Q _ _ _ => generalize Q end.
  induction (bk_ommers block) as [|o l IH]; intros Q; cbn [apply_ommer_rewards]; [steady|].
  apply (steady_bind _ _ _ _ _ _ _ any); [steady|]. intros u'. apply IH.
Qed.

Lemma steady_system_call `{Crypto} P env a : steady bs1 inc P (system_call env bs0 a) (system_call env bs1 a) any.
Proof.
  unfold system_call. do 5 steady_step. eapply steady_bind; [|intros r; steady].
  unfold evmc_call. cbn [vm]. apply steady_vm; [done|]. intros Q m. apply steady_host_call; [done|].
  intros R m'. by apply steady_check_call_precompile.
Qed.

Lemma steady_epilogue `{Crypto} P sha256 env block receipts :
  steady bs1 inc P (epilogue sha256 env block receipts bs0) (epilogue sha256 env block receipts bs1) any.
Proof.
  pose proof steady_withdrawals. pose proof steady_block_reward. pose proof (@steady_system_call).
  unfold epilogue, check_requests, process_requests. steady.
Qed.
End lockstep.

Section parallel.
Context `{Crypto} (sha256 : byte_string -> bytes32) (db : Db) (env : BlockEnv) (block : Block).
Implicit Types (B : BlockState) (st : State).

(** The state a part of the block merges is clean. *)
Definition merges_clean {A E} inc (m : BlockReads -> SM (A + E)) B : Prop :=
  forall x st B1, m (reads_of db B) (new_state inc false) = (ROk (inl x), st) -> load_reads db st B = Some B1 ->
    clean_slate db B1 st.

Lemma run_merged_extends {A F} inc (m : BlockReads -> SM (A + F)) B B' r B1 :
  (forall st, relaxed_validation_ (m (reads_of db B) st).2 = relaxed_validation_ st) ->
  block_ok B -> block_ok B' -> extends db B B' -> merges_clean inc m B ->
  run_merged db inc m B = (r, B1) -> returned r = true ->
  exists B1', run_merged db inc m B' = (r, B1') /\ extends db B1 B1' /\ block_ok B1 /\ block_ok B1'.
Proof.
  intros Hmode Hok Hok' Hx Hc E Hr. unfold run_merged in *. rewrite (extends_reads db B B' Hx).
  specialize (Hmode (new_state inc false)). unfold merges_clean in Hc.
  destruct (m (reads_of db B) (new_state inc false)) as [[result|[]|msg|] st] eqn:Em; simplify_eq/=.
  destruct (load_reads_spec db st B Hok) as (Bl & El & X & O & D & Rec). rewrite El in E.
  destruct (load_reads_spec db st B' Hok') as (Bl' & El' & X' & O' & D' & Rec'). rewrite El'.
  destruct (load_reads_extends db st B B' Bl Hok Hok' Hx El) as (Bl'' & El'' & XX & _). rewrite El' in El''.
  injection El'' as <-. destruct result as [x|e]; [|simplify_eq/=; by exists Bl'].
  destruct (can_merge_exact db Bl st O Rec Hmode) as (b & Eb & Hb); [intros a Ha; apply D; by right|].
  destruct (can_merge_exact db Bl' st O' Rec' Hmode) as (b' & Eb' & Hb'); [intros a Ha; apply D'; by right|].
  rewrite (extends_reads db Bl Bl' XX) in Hb'. rewrite Eb in E. rewrite Eb'.
  assert (b' = b) as -> by (apply eq_true_iff_eq; by rewrite Hb, Hb'). destruct b; simplify_eq/=.
  destruct (merge st Bl) as [Bm|] eqn:Em'; simplify_eq/=.
  destruct (merge_extends db st Bl Bl' B1 O O' XX (Hc x st Bl eq_refl El) Em') as (Bm' & -> & Xm & Om & Om').
  by exists Bm'.
Qed.

(** What the first attempts and the sequential run of the transactions must be like:
    the reads of a first attempt show no slots of incarnations it will give out and
    the code the block has, it returns, and so does the sequential transaction, which
    leaves a clean state. *)
Fixpoint speculation_ok (txs : list (TxInput * BlockReads)) B : Prop :=
  match txs with
  | [] => True
  | (inp, bs0) :: rest =>
      replayable bs0 (reads_of db B) (tx_incarnation env inp) /\ attempt_returns env inp bs0 = true /\
      leaves_clean db env inp B /\ returned (sequential_transaction db env inp B).1 = true /\
      speculation_ok rest (sequential_transaction db env inp B).2
  end.

Lemma run_transactions_extends txs B B' :
  block_ok B -> block_ok B' -> extends db B B' -> speculation_ok txs B ->
  exists results Bs Bs', run_transactions (one_by_one db env) txs B = (Some results, Bs) /\
    run_transactions (parallel db env) txs B' = (Some results, Bs') /\ extends db Bs Bs' /\ block_ok Bs /\ block_ok Bs'.
Proof.
  revert B B'. induction txs as [|[inp bs0] txs IH]; intros B B' Hok Hok' Hx; cbn [run_transactions speculation_ok].
  { intros _. by exists [], B, B'. }
  intros (Hr & Hret & Hc & Hrr & Hrest). unfold one_by_one at 1, parallel at 1.
  destruct (sequential_transaction db env inp B) as [r B1] eqn:E. cbn [fst snd] in *.
  destruct (dispatch_sequential db env inp bs0 B B' r B1 Hok Hok' Hx Hr Hret Hc E Hrr) as (B1' & -> & X & O & O').
  destruct (IH B1 B1' O O' X Hrest) as (rs & Bs & Bs' & -> & -> & Xs & Os & Os').
  exists (r :: rs), Bs, Bs'. by destruct r.
Qed.

Lemma header_block_ok B r B1 : block_ok B -> execute_block_header db env B = (ROk r, B1) -> block_ok B1.
Proof.
  intros Hok E. unfold execute_block_header, run_merged in E.
  destruct (sbind _ _ _) as [[[x|e]|[]|m|] st]; simplify_eq/=; destruct (load_reads_spec db st B Hok) as (Bl & El & _ & O & _);
    rewrite El in E; simplify_eq/=.
  destruct (can_merge Bl st) as [[[]| | |] st1]; simplify_eq/=. destruct (merge st1 Bl) as [Bm|] eqn:Em; simplify_eq/=.
  by apply (merge_block_ok st1 Bl).
Qed.

(** The conditions along the sequential execution of the block. *)
Definition block_speculation_ok (inputs : list TxInput) (reads : nat -> BlockReads) B : Prop :=
  forall B1, execute_block_header db env B = (ROk tt, B1) ->
    let txs := map (fun inp => (inp, reads (ti_i inp))) inputs in
    speculation_ok txs B1 /\
    forall receipts B2, execute_block_transactions (one_by_one db env) txs B1 = (ROk receipts, B2) ->
      merges_clean (last_incarnation env) (epilogue sha256 env block receipts) B2.

(** C1: parallel execution is sequential execution, where the speculation is well
    behaved.  The first attempts of the transactions may read whatever the block
    state showed them while earlier ones were running, stale accounts and slots
    included, under these conditions: every first attempt returns a result or an
    error (one that throws or aborts is excluded: it ends the block without waiting
    for its predecessors); what it read shows the code the block has and no slot of
    an incarnation the transaction may give out ([replayable]); an account whose
    incarnation is changed by a state the sequential execution merges, the one of
    the end of the block included, showed no slots before ([clean_slate]); and neither
    a transaction of the sequential execution nor the sequential block throws or
    aborts.  Then the block that runs every transaction optimistically, checks its
    reads once its predecessors are merged and runs it again if they were stale,
    has the receipts, or the error, of the block that runs them one after the
    other, and ends with the same accounts, slots and code. *)
Theorem parallel_is_sequential senders authorities reads inputs B r Bs :
  block_ok B -> inputs_from 0 (bk_transactions block) senders authorities = Some inputs ->
  block_speculation_ok inputs reads B ->
  execute_block sha256 db env block (one_by_one db env) senders authorities reads B = (r, Bs) -> returned r = true ->
  exists Bs', execute_block sha256 db env block (parallel db env) senders authorities reads B = (r, Bs') /\
    extends db Bs Bs' /\ reads_of db Bs' = reads_of db Bs.
Proof.
  intros Hok Hin Hs E Hr.
  assert (Hgoal : exists Bs', execute_block sha256 db env block (parallel db env) senders authorities reads B = (r, Bs') /\
    extends db Bs Bs').
  2:{ destruct Hgoal as (Bs' & E' & X). exists Bs'. split_and!; [done..|]. by apply extends_reads. }
  unfold execute_block in *. destruct (negb _); [by exists Bs; injection E as <- <-|]. rewrite Hin in *.
  unfold block_speculation_ok in Hs. destruct (execute_block_header db env B) as [[[]|e|m|] B1] eqn:Eh;
    [|by exists Bs; injection E as <- <-..].
  destruct (Hs B1 eq_refl) as [Hspec Hclean]. pose proof (header_block_ok _ _ _ Hok Eh) as Hok1. cbv zeta in *.
  destruct (run_transactions_extends _ B1 B1 Hok1 Hok1 (reflexivity B1) Hspec) as (rs & B2 & B2' & E2 & E2' & X2 & O2 & O2').
  unfold execute_block_transactions in *. rewrite E2 in *. rewrite E2'.
  destruct (gather rs) as [l|e|m|]; [|exists B2'; by injection E as <- <-..].
  destruct (run_merged db (last_incarnation env) (epilogue sha256 env block (accumulate_gas #0 l)) B2) as [re B3] eqn:E3.
  assert (Hre : returned re = true) by (destruct re; [done..| |]; by injection E as <- <-).
  destruct (run_merged_extends (last_incarnation env) (epilogue sha256 env block (accumulate_gas #0 l)) B2 B2' re B3)
    as (B3' & -> & X3 & _); try done; [|by apply (Hclean _ B2)|].
  { intros st. apply (st_mode _ _ _ _ _ _ (steady_epilogue _ _ _ (reads_replayable db (last_incarnation env) B2) True _ _ _ _)). }
  exists B3'. destruct re; injection E as <- <-; done.
Qed.
End parallel.

(** ** Deciding the side conditions *)
Section decide.
Context `{Crypto} (sha256 : byte_string -> bytes32) (db : Db) (env : BlockEnv) (block : Block).

(** Every account keeps its incarnation, or is new to the block. *)
Definition clean_b (B : BlockState) (st : State) : bool :=
  forallb (fun p : address * VersionStack AccountState =>
    match vs_recent p.2 ≫= account_ with
    | Some ac =>
        let d := delta_account (delta_of db B p.1) in
        lives_as d.2 (acct_incarnation ac) || (negb (lives_as d.1 (acct_incarnation ac)) && negb (has_value d.2))
    | None => true
    end) (map_to_list (current_ st)).

Lemma clean_check B st : clean_b B st = true -> clean_slate db B st.
Proof.
  intros Hb a vs x ac Hv Ex Ea El. apply elem_of_map_to_list in Hv. pose proof (forallb_elem _ _ _ Hb Hv) as H1.
  cbv zeta beta in H1. cbn [fst snd] in H1. rewrite Ex in H1. cbn [mbind option_bind] in H1. rewrite Ea, El in H1.
  apply andb_true_iff in H1 as [H1 H2]. split; [by apply negb_true_iff|]. intros i k. unfold slot_of.
  by destruct (delta_account (delta_of db B a)).2.
Qed.

Definition leaves_clean_b (inp : TxInput) (B : BlockState) : bool :=
  executor env inp (fun R impl final =>
    match last_attempt db impl final (tx_incarnation env inp) B with
    | (ROk (_, st), B1) => clean_b B1 st
    | _ => true
    end).

Lemma leaves_clean_check inp B : leaves_clean_b inp B = true -> leaves_clean db env inp B.
Proof.
  unfold leaves_clean_b, leaves_clean, executor. destruct (is_system env inp); intros Hb receipt st B1 E;
    rewrite E in Hb; by apply clean_check.
Qed.

Fixpoint speculation_b (txs : list (TxInput * BlockReads)) (B : BlockState) : bool :=
  match txs with
  | [] => true
  | (inp, bs0) :: rest =>
      attempt_returns env inp bs0 && leaves_clean_b inp B &&
      let '(r, B1) := sequential_transaction db env inp B in returned r && speculation_b rest B1
  end.

Lemma speculation_check txs B :
  (forall inp bs0 B, (inp, bs0) ∈ txs -> replayable bs0 (reads_of db B) (tx_incarnation env inp)) ->
  speculation_b txs B = true -> speculation_ok db env txs B.
Proof.
  revert B. induction txs as [|[inp bs0] txs IH]; intros B Hr; cbn [speculation_b speculation_ok]; [done|].
  destruct (sequential_transaction db env inp B) as [r B1]. cbn [fst snd].
  intros [[H1 H2]%andb_true_iff [H3 H4]%andb_true_iff]%andb_true_iff.
  split_and!; [apply Hr; by left|done|by apply leaves_clean_check|done|]. apply IH; [|done].
  intros inp' bs' B' Hin. apply Hr. by right.
Qed.

Definition merges_clean_b (receipts : list Receipt) (B : BlockState) : bool :=
  match epilogue sha256 env block receipts (reads_of db B) (new_state (last_incarnation env) false) with
  | (ROk (inl _), st) => match load_reads db st B with Some B1 => clean_b B1 st | None => true end
  | _ => true
  end.

Definition block_speculation_b (inputs : list TxInput) (reads : nat -> BlockReads) (B : BlockState) : bool :=
  match execute_block_header db env B with
  | (ROk _, B1) =>
      let txs := map (fun inp => (inp, reads (ti_i inp))) inputs in
      speculation_b txs B1 &&
      match execute_block_transactions (one_by_one db env) txs B1 with
      | (ROk receipts, B2) => merges_clean_b receipts B2
      | _ => true
      end
  | _ => true
  end.

Lemma block_speculation_check inputs reads B :
  (forall inp B, inp ∈ inputs -> replayable (reads (ti_i inp)) (reads_of db B) (tx_incarnation env inp)) ->
  block_speculation_b inputs reads B = true -> block_speculation_ok sha256 db env block inputs reads B.
Proof.
  intros Hr Hb B1 E. unfold block_speculation_b in Hb. rewrite E in Hb. cbv zeta in *.
  apply andb_true_iff in Hb as [H1 H2]. split.
  - apply speculation_check; [|done]. intros inp bs0 B' (inp' & [= -> ->] & Hin)%list_elem_of_fmap. by apply Hr.
  - intros receipts B2 E2. rewrite E2 in H2. unfold merges_clean_b in H2. intros x st B3 E3 E4.
    rewrite E3, E4 in H2. by apply clean_check.
Qed.
End decide.

(** ** A block

    Account 1 pays contract 2 twice, account 3 pays contract 2; every first attempt
    sees the state before the block, so the reads of the later ones are stale. *)
Module demo_parallel.
Definition acct (balance : Z) (code_hash : bytes32) : Account := mk_account #balance code_hash #0 (mk_incarnation #0 #0).
Definition db : Db := mk_db
  (fun a => if (a =? 1) || (a =? 2) || (a =? 3) then Some (acct (10 ^ 20) NULL_HASH)
            else if a =w? BLOCK_HISTORY_ADDRESS then Some (acct 0 BLOCK_HISTORY_CODE_HASH) else None)
  (fun _ _ _ => #0) (fun _ => Some []) (fun _ => Some []).
Definition tx (nonce : Z) : Transaction :=
  mk_tx (mk_sc #1 #1 (Some #143) #0) #nonce #100 #100000 #7 (Some #2) eip1559 [ #0; #1 ] [] #2 #0 [] [].
Definition env : BlockEnv :=
  mk_env (MonadTraits MONAD_NINE) #143 demo_header (mk_ctx ∅ ∅ {[ #1; #3 ]} [ #1; #1; #3 ] [[]; []; []]) (fun _ => None) true
    (fun _ => None) (fun _ => evm_vm).
Definition block : Block := mk_block demo_header [tx 0; tx 1; tx 0] [] (Some [mk_withdrawal #1 #2 #4 #9]).
Definition senders : list address := [ #1; #1; #3 ].
Definition authorities : list (list (option address)) := [[]; []; []].
Definition inputs : list TxInput := default [] (inputs_from 0 (bk_transactions block) senders authorities).
Definition reads (_ : nat) : BlockReads := reads_of db new_block_state.
Definition sha256 (l : byte_string) : bytes32 := #(bytes_val l).

Lemma stale_reads_replayable B inc : replayable (reads_of db new_block_state) (reads_of db B) inc.
Proof.
  split; [|apply reads_lawful|done]. intros a i k ac _ _ _. cbn [State3.read_storage reads_of].
  assert (E : delta_of db new_block_state a = mk_delta (db_read_account db a, db_read_account db a) ∅).
  { unfold delta_of. cbn [state_ new_block_state]. by rewrite lookup_empty. }
  rewrite E. unfold slot_of. cbn [delta_account delta_storage snd fst]. rewrite lookup_empty.
  by destruct (lives_as (db_read_account db a) i).
Qed.

Lemma new_block_ok : block_ok new_block_state.
Proof. intros a d. cbn. by rewrite lookup_empty. Qed.
Lemma inputs_ok : inputs_from 0 (bk_transactions block) senders authorities = Some inputs.
Proof. reflexivity. Qed.
Lemma speculates : block_speculation_ok sha256 db env block inputs reads new_block_state.
Proof.
  apply block_speculation_check; [intros; apply stale_reads_replayable|]. vm_compute. reflexivity.
Qed.
End demo_parallel.

#[local] Abbreviation demo_run f := (execute_block demo_parallel.sha256 demo_parallel.db demo_parallel.env demo_parallel.block
  (f demo_parallel.db demo_parallel.env) demo_parallel.senders demo_parallel.authorities demo_parallel.reads new_block_state).

Lemma parallel_is_sequential_witness : exists r Bs Bs',
  demo_run one_by_one = (r, Bs) /\ returned r = true /\ demo_run parallel = (r, Bs') /\
  extends demo_parallel.db Bs Bs' /\ reads_of demo_parallel.db Bs' = reads_of demo_parallel.db Bs.
Proof.
  assert (Hr : returned (demo_run one_by_one).1 = true) by (vm_compute; reflexivity).
  destruct (demo_run one_by_one) as [r Bs] eqn:E. exists r, Bs.
  destruct (parallel_is_sequential demo_parallel.sha256 demo_parallel.db demo_parallel.env demo_parallel.block
    demo_parallel.senders demo_parallel.authorities demo_parallel.reads demo_parallel.inputs new_block_state
    r Bs demo_parallel.new_block_ok demo_parallel.inputs_ok demo_parallel.speculates E Hr) as (Bs' & E' & X).
  exists Bs'. exact (conj eq_refl (conj Hr (conj E' X))).
Defined.
